(* ===== verification/_CoqProject ===== *)
-Q . S2P
Prelude.v
GoStrings.v
Bitset.v
Checker.v
Linearize.v
LinkedList.v
CheckerProof.v
KvModel.v
Porcupine.v
Visualization.v
VisualizationProof.v
Coordinator.v
CoordinatorProof.v
CoordinatorSeq.v
Worker.v
Grouping.v
Job.v
Cluster.v
ClusterProof.v
ClusterIds.v
ClusterInv.v
ClusterJob.v
ClusterFinish.v
Applications.v
ChordKeys.v
Sha1.v
Chord.v
ChordProof.v
ChordTyped.v
ChordFiles.v
ChordLinked.v
ChordConverge.v
ChordFingers.v
ChordDead.v
ChordLeave.v
ChordJoin.v
ChordExample.v
Utf8.v
Numbers.v
Timing.v
EntryPoints.v
FileSystem.v
HttpServer.v
HttpProof.v
HttpService.v
Proxy.v
ProxyService.v
Listener.v
Command.v
CommandProof.v
Labrpc.v
LabrpcProof.v
Persister.v
Raft.v
Harness.v
HarnessProof.v
HarnessRestart.v
HarnessExample.v
Labgob.v
LabgobProof.v
RaftTester.v
RaftTesterProof.v
RaftChecks.v
RaftChecksProof.v
RaftNetProof.v
RaftExample.v
ShardClerk.v
ShardClerkProof.v
ShardTester.v
CtrlerConfig.v
CtrlerConfigProof.v
Outlines.v
ShardTesterProof.v
ShardTesterConfig.v
