(* ===== verification/Prelude.v ===== *)
(** * A verified model of the distributed-systems labs

    The repository holds the labs of a course on distributed systems: a web
    server and a proxy (src/Lab01), MapReduce, a linearizability checker, a
    simulated network and the testers of the Raft labs (src/Lab02/src), and a
    Chord ring that stores files (src/Lab03).  This library translates their Go
    code into Rocq definitions, mostly function by function and under the names
    of the source, and proves what makes each part correct.

    ** How Go is modelled

    A call gives a value of [go A] (this file): it returns, panics, ends the
    process ([Fatal]: log.Fatal, os.Exit), waits for ever ([Blocked]), or, where
    a loop is given fuel, has not returned within it ([NoFuel]).  An [int] is a
    [Z]; arithmetic that could overflow goes through [i64] or [u64].  An index or
    a store out of range panics.  A Go string is a string of bytes (GoStrings).  A
    Go map is a [gmap]; the order of a [range] over it is a parameter wherever it
    can be observed.  [sort.Sort] and [sort.Slice] are the class [GoSort], any
    sorting function, stable or not.  State is passed explicitly; where the
    source shares objects by pointer the model has a heap (the nodes of the
    checker's list, the persisters, the servers).  Goroutines, RPC handlers and
    processes are threads of an inductive step relation, and a lock is a boolean
    of the object that it guards.  A random number, the clock and the answers of
    the operating system are arguments.  Packages outside the repository are
    parameters with named laws (encoding/json: [Codec]; crypto/aes and the rest
    of the cipher; the weighted semaphore of golang.org/x/sync); crypto/sha1,
    encoding/hex and math/big are defined as far as they are used.

    ** The parts

    - Porcupine, the linearizability checker (Lab02/src/porcupine, models).
      Bitset is bitset.go, Checker is model.go, checker.go and porcupine.go,
      KvModel is models/kv.go, Visualization the data of visualization.go.
      Linearize states what linearizable means; LinkedList is a heap predicate
      for the doubly linked list; CheckerProof proves that the search is total
      and right for every history; Porcupine carries this to histories of
      operations, to the parallel driver under every order of arrival and to
      timeouts; VisualizationProof that the viewer shows what was decided.
    - MapReduce (Lab02/src/mr, main/mrsequential.go, mrapps).  Coordinator is
      coordinator.go and rpc.go, once as sequential handlers and once as threads
      between lock operations; Worker is worker.go, the sequential program and
      the applications.  CoordinatorProof has the invariants of the interleaved
      handlers and their progress, CoordinatorSeq each handler on every branch
      and that the handlers are threads that run alone.  Grouping compares the two
      reduce loops, Job is what one task does to the files, and one worker and the
      loop it never leaves by itself.  Cluster puts any number of
      worker processes, the coordinator's threads and the files together;
      ClusterProof shows that the steps of a task are its sequential code,
      ClusterIds and ClusterInv are the invariant, ClusterJob what the output
      files hold, ClusterFinish that a job can always be finished; Applications:
      what a job of wc and of indexer writes.  Timing is the applications that
      observe the workers (mtiming.go, rtiming.go, jobcount.go) with what they
      count, over the number parsing of Numbers; EntryPoints the programs under
      main and the addresses at which they meet.
    - The Chord ring (Lab03).  ChordKeys is util.go, Sha1 the hash, Chord the
      nodes (chord.go, rpc.go), Command the client (client.go).  ChordProof:
      lookups on a stable ring, repair of the successor list, notification and a
      deadlock; ChordTyped: every operation keeps nodes well-formed and only file
      lookups can panic; ChordFiles: stored files are found; ChordLinked,
      ChordConverge and ChordJoin: a node joins and the ring converges;
      ChordFingers: so does the finger table; ChordLeave: a node leaves and its
      neighbours close the gap; ChordDead: lookups through its old fingers do not end;
      CommandProof: files through the commands, with encryption; ChordExample:
      concrete rings.
    - The web server and the proxy (Lab01).  FileSystem and Utf8 are what they
      stand on.  HttpServer is requestHandler.go and fileHandler.go, Proxy is
      connectionHandler.go, Listener the accept loops.  HttpProof: the path check
      and where it fails; HttpService: every connection is answered as the
      service promises, and posted files are read back; ProxyService: the proxy
      relays, and what a client gets through it from this server; Listener holds
      its own theorem.
    - The simulated network (Lab02/src/labrpc, labgob).  Labrpc is labrpc.go as
      threads, LabrpcProof: at most one execution per call, what a reply means, and
      that a call to a method that exists can return.  Labgob and LabgobProof: the encoder's type checks,
      alone and by several goroutines.
    - The testers of the Raft labs (Lab02/src/raft, kvraft, shardctrler,
      shardkv).  Persister is persister.go; Raft the outlines of the peers and the
      servers, with the interface [RaftApi] against which the testers are proved;
      Harness, HarnessProof, HarnessRestart and HarnessExample the tester of the
      key-value labs (kvraft/config.go), for any server with the interface
      [LabServer]; CtrlerConfig and CtrlerConfigProof its copy for the shard
      controllers (shardctrler/config.go), an instance of it; RaftTester, RaftTesterProof, RaftChecks,
      RaftChecksProof, RaftNetProof and RaftExample that of Raft
      (raft/config.go); ShardClerk and ShardClerkProof the two clerks of the
      sharded service; ShardTester, ShardTesterProof and ShardTesterConfig its
      tester (shardkv/config.go).  Outlines has the empty handlers and the empty
      clerk of kvraft, and what the clerk of the sharded service and the tester of
      Raft make of such peers.

    ** What the theorems show

    The checker: [checkSingle_correct] and [CheckOperations_correct], the answer
    is true exactly on linearizable histories, and is given, unless the history has
    no parts (then [CheckOperations] blocks); on the key-value model exactly if each key's operations are ([CheckOperations_KvModel]); a
    timeout loses answers but never makes one wrong; the bitset is a finite set;
    the viewer never reaches its panic and shows the longest prefixes.

    MapReduce: what a task reads and writes ([do_task_spec]); a reduce task is handed out only when every map task is done, and
    with each map task's files exactly once ([reduce_gets_all_maps]); handlers do
    not deadlock or panic; with any number of workers, some of which stop in the
    middle of a file, are given a task twice or report late, the outputs are those
    of the sequential program ([cluster_outputs]), are never seen half-written
    ([output_never_partial]), and the job can be finished from every state
    ([cluster_can_finish]); the output of a word count is right ([word_count]).

    Chord: on a stable ring a lookup ends within size+1 calls at the node that is
    responsible; a file that was stored is found from every node; after failures
    the first live successor is adopted; after a join, maintenance in any order ends
    in a stable ring as soon as one node has stabilized ([join_converges]), so that
    stable rings are those the program builds; 160 calls of [fixFinger], whatever
    runs between them, make every finger right ([fingers_converge]).  When a node
    leaves a settled ring of at least three whose nodes keep two successors or more,
    three calls of its neighbours make all successors and predecessors right again
    ([leave_recovers]), but a lookup that goes through a
    finger of it never ends, and nothing renews that finger ([dead_finger_stuck]).
    Nodes stay well-formed and the maintenance does not panic, whichever nodes have
    left ([chord_typed]); two neighbours can block each other for ever
    ([stabilize_deadlock]).

    Web server and proxy: the contract of the service on every request and file
    system; the path check fails for a [..] deeper in the path
    ([served_outside_public]) and holds without one (lemma [served_below_public]);
    the proxy's answer for every network; at most ten handlers at a time.

    Network and testers: at most one execution per call, and calls can return
    ([call_can_return]); partitions, crashes and
    restarts do to the network what the tests rely on, and nothing else; the
    applied logs agree as long as no [applier] has stopped the test (in runs without
    snapshots); what [one] and
    [checkOneLeader] establish; the clerks return the first answer that counts,
    and return once the service has settled.

    Where the code does not do what it means to, a theorem or an example says
    so next to the definition.

    ** Fuel and bounds

    The search of the checker, the reduce loops, [checkSuccessor], lookups, the
    type check and the clerks' loops are given fuel; in each case a theorem gives
    an amount that is enough, for the clerks under the condition that the service
    settles.  The loop of a worker has no bound: without fuel left it has not
    returned, and [single_worker_job] shows how it ends.  Lengths of allocated slices are assumed below 2^63 where an index is
    computed from them.

    ** What is not modelled

    - Elections, the replicated log and the services of the Raft labs: they are
      exercises, and their bodies are empty in the repository.  The model has them
      as they are (Outlines) and proves the testers for any implementation.
    - The HTML template of the viewer and the writing of its file; the parsing
      and printing of HTTP messages (net/http), of gob and JSON encodings; the
      registration of RPC servers; logging; random seeds.
    - The entry points under main that call packages that are not in the
      repository (lockservice, pbservice, viewservice, diskv).
    - Interleaving inside a Chord node other than at [successorLock]; goroutines of
      [applierSnap] interleaved with the tester (one message of it is modelled).

    ** The files

    Each file opens with what it holds.  Definitions come before their theorems;
    files named ...Proof hold theorems about the file they are named after. *)
From stdpp Require Export base tactics list gmap strings option numbers sorting.
From Stdlib Require Export ZArith Lia.

#[global] Open Scope Z_scope.
#[global] Set Default Goal Selector "!".

Declare Scope go_scope.
Delimit Scope go_scope with go.

(** ** Outcomes of Go code

    A Go call returns, panics (index out of range, nil dereference), ends the
    process ([log.Fatal], [os.Exit]), waits for ever on a channel or a lock, or,
    for a loop that the model runs with fuel, has not returned within it. *)
Inductive go (A : Type) : Type :=
| Ret (a : A)
| Panic
| Fatal
| Blocked
| NoFuel.
Arguments Ret {A} _.
Arguments Panic {A}.
Arguments Fatal {A}.
Arguments Blocked {A}.
Arguments NoFuel {A}.

#[global] Instance go_ret : MRet go := fun _ a => Ret a.
#[global] Instance go_bind : MBind go := fun A B f m =>
  match m with
  | Ret a => f a
  | Panic => Panic
  | Fatal => Fatal
  | Blocked => Blocked
  | NoFuel => NoFuel
  end.
#[global] Instance go_fmap : FMap go := fun A B f m =>
  match m with
  | Ret a => Ret (f a)
  | Panic => Panic
  | Fatal => Fatal
  | Blocked => Blocked
  | NoFuel => NoFuel
  end.

(** Dereference of a pointer that may be nil. *)
Definition deref {A} (o : option A) : go A :=
  match o with Some a => Ret a | None => Panic end.

(** [l[i]] and [l[i] = x] for an [int] index: out of range panics. *)
Definition index {A} (l : list A) (i : Z) : go A :=
  if decide (0 ≤ i) then deref (l !! Z.to_nat i) else Panic.
Definition store {A} (l : list A) (i : Z) (x : A) : go (list A) :=
  if decide (0 ≤ i < Z.of_nat (length l)) then Ret (<[Z.to_nat i := x]> l) else Panic.

(** ** Lemmas on outcomes *)
Lemma go_bind_Ret {A B} (m : go A) (f : A → go B) b :
  m ≫= f = Ret b ↔ ∃ a, m = Ret a ∧ f a = Ret b.
Proof. destruct m; naive_solver. Qed.

Lemma deref_Ret {A} (o : option A) a : deref o = Ret a ↔ o = Some a.
Proof. destruct o; naive_solver. Qed.

Lemma index_Ret {A} (l : list A) i x :
  index l i = Ret x ↔ 0 ≤ i ∧ l !! Z.to_nat i = Some x.
Proof. unfold index. case_decide; rewrite ?deref_Ret; naive_solver. Qed.

Lemma index_lookup {A} (l : list A) (n : nat) x :
  l !! n = Some x → index l (Z.of_nat n) = Ret x.
Proof. intros. apply index_Ret. rewrite Nat2Z.id. split; [lia|done]. Qed.

Lemma index_lt {A} (l : list A) i :
  0 ≤ i < Z.of_nat (length l) → ∃ x, index l i = Ret x.
Proof.
  intros Hi. destruct (lookup_lt_is_Some_2 l (Z.to_nat i)) as [x Hx]; [lia|].
  exists x. apply index_Ret. split; [lia|done].
Qed.

Lemma store_Ret {A} (l l' : list A) i x :
  store l i x = Ret l' ↔ 0 ≤ i < Z.of_nat (length l) ∧ l' = <[Z.to_nat i := x]> l.
Proof. unfold store. case_decide; naive_solver. Qed.

Lemma store_lt {A} (l : list A) i x :
  0 ≤ i < Z.of_nat (length l) → store l i x = Ret (<[Z.to_nat i := x]> l).
Proof. intros. apply store_Ret. done. Qed.

(** [l[i], l[j] = l[j], l[i]] *)
Definition swap {A} (l : list A) (i j : Z) : go (list A) :=
  x ← index l i; y ← index l j; l ← store l i y; store l j x.
Lemma swap_perm {A} (l : list A) i j :
  0 ≤ i < Z.of_nat (length l) → 0 ≤ j < Z.of_nat (length l) → ∃ l', swap l i j = Ret l' ∧ l' ≡ₚ l.
Proof.
  intros Hi Hj. unfold swap. destruct (index_lt l i Hi) as [x Hx]. destruct (index_lt l j Hj) as [y Hy].
  rewrite Hx, Hy. cbn [mbind go_bind]. rewrite store_lt by done. cbn [mbind go_bind]. rewrite store_lt by (rewrite length_insert; lia).
  eexists. split; [done|]. apply index_Ret in Hx as [_ Hx], Hy as [_ Hy].
  destruct (decide (Z.to_nat i = Z.to_nat j)) as [E|E].
  - rewrite E in *. simplify_eq. by rewrite list_insert_insert_eq, list_insert_id.
  - apply Permutation_inj. rewrite !length_insert. split; [done|].
    set (a := Z.to_nat i) in *. set (b := Z.to_nat j) in *.
    exists (λ k, if decide (k = a) then b else if decide (k = b) then a else k). split.
    + intros k k' Hk. repeat case_decide; congruence.
    + intros k. pose proof (lookup_lt_Some _ _ _ Hx). pose proof (lookup_lt_Some _ _ _ Hy).
      destruct (decide (k = a)) as [->|]; [|destruct (decide (k = b)) as [->|]].
      * by rewrite list_lookup_insert_ne, list_lookup_insert_eq.
      * by rewrite list_lookup_insert_eq by (rewrite length_insert; done).
      * by rewrite !list_lookup_insert_ne.
Qed.

(** [simplify_go] inverts hypotheses of the form [... = Ret _]. *)
Ltac simplify_go := repeat match goal with
  | H : _ ≫= _ = Ret _ |- _ => apply go_bind_Ret in H as (? & ? & ?)
  | H : mret _ = Ret _ |- _ => injection H as H
  | H : deref _ = Ret _ |- _ => apply deref_Ret in H
  | H : index _ _ = Ret _ |- _ => apply index_Ret in H as [? ?]
  | H : store _ _ _ = Ret _ |- _ => apply store_Ret in H as [? ?]
  | _ => progress simplify_eq/=
  end.

(** [go_step] runs the monadic steps whose outcome is known. *)
Ltac go_step := cbn [mbind go_bind].
Tactic Notation "go_step" "in" hyp(H) := cbn [mbind go_bind] in H.

(** ** Machine integers *)
Definition w64 : Z := 2 ^ 64.
Definition u64 (z : Z) : Z := z mod w64.
Definition i64 (z : Z) : Z := (z + 2 ^ 63) mod w64 - 2 ^ 63.

Lemma i64_id z : - 2 ^ 63 ≤ z < 2 ^ 63 → i64 z = z.
Proof. intros. unfold i64, w64. rewrite Z.mod_small; lia. Qed.
Lemma u64_id z : 0 ≤ z < 2 ^ 64 → u64 z = z.
Proof. intros. unfold u64, w64. rewrite Z.mod_small; lia. Qed.

(** ** Sorting

    [sort.Sort], [sort.Slice] and [sort.Strings] are not stable: the model is
    a sorting function of which only the documented behaviour is known. *)
Definition strict_weak {A} (less : A → A → bool) : Prop :=
  (∀ a, less a a = false) ∧
  (∀ a b c, less a b = true → less b c = true → less a c = true) ∧
  (∀ a b c, less a b = false → less b c = false → less a c = false).

Class GoSort (sort : ∀ A, (A → A → bool) → list A → list A) : Prop := {
  sort_perm A less l : sort A less l ≡ₚ l;
  sort_sorted A less l :
    strict_weak less → StronglySorted (λ a b, less b a = false) (sort A less l);
}.

Fixpoint insert_by {A} (less : A → A → bool) (x : A) (l : list A) : list A :=
  match l with
  | [] => [x]
  | y :: l' => if less x y then x :: l else y :: insert_by less x l'
  end.
Definition insertion_sort A (less : A → A → bool) (l : list A) : list A :=
  foldr (insert_by less) [] (reverse l).

Lemma insert_by_perm {A} less (x : A) l : insert_by less x l ≡ₚ x :: l.
Proof.
  induction l as [|y l IH]; simpl; [done|]. case_match; [done|].
  rewrite IH. apply Permutation_swap.
Qed.

Lemma insert_by_sorted {A} less (x : A) l :
  strict_weak less → StronglySorted (λ a b, less b a = false) l →
  StronglySorted (λ a b, less b a = false) (insert_by less x l).
Proof.
  intros (Hi & Ht & Hn). induction 1 as [|y l Hl IH Hy]; simpl; [repeat constructor|].
  destruct (less x y) eqn:E.
  - constructor; [by constructor|]. constructor.
    + destruct (less y x) eqn:E2; [|done]. rewrite <-(Hi x). symmetry. by eapply Ht.
    + eapply Forall_impl; [exact Hy|]. intros z Hz. simpl in *.
      destruct (less z x) eqn:E2; [|done]. rewrite <-Hz. symmetry. by eapply Ht.
  - constructor; [done|]. rewrite insert_by_perm. by constructor.
Qed.

#[export] Instance insertion_GoSort : GoSort insertion_sort.
Proof.
  split.
  - intros A less l. unfold insertion_sort. rewrite <-(reverse_Permutation l) at 2.
    induction (reverse l) as [|x l' IH]; simpl; [done|]. by rewrite insert_by_perm, IH.
  - intros A less l Hl. unfold insertion_sort.
    induction (reverse l) as [|x l' IH]; simpl; [constructor|]. by apply insert_by_sorted.
Qed.

(** ** Order of elements in a list *)
Definition before {A} (l : list A) (x y : A) : Prop :=
  ∃ l1 l2, l = l1 ++ x :: l2 ∧ y ∈ l2.

Section before.
Context {A : Type}.
Implicit Types (l : list A) (x y : A).

Lemma before_l l x y : before l x y → x ∈ l.
Proof. intros (l1 & l2 & -> & ?). set_solver. Qed.
Lemma before_r l x y : before l x y → y ∈ l.
Proof. intros (l1 & l2 & -> & ?). set_solver. Qed.

Lemma before_app_l l x y l' : before l' x y → before (l ++ l') x y.
Proof. intros (l1 & l2 & -> & ?). exists (l ++ l1), l2. by rewrite <-app_assoc. Qed.

Lemma before_cons z l x y : before (z :: l) x y ↔ (z = x ∧ y ∈ l) ∨ before l x y.
Proof.
  split.
  - intros (l1 & l2 & Heq & ?). destruct l1 as [|z' l1]; simplify_eq/=; [by left|].
    right. by exists l1, l2.
  - intros [[-> ?]|?]; [by exists [], l|]. by apply (before_app_l [z]).
Qed.

Lemma before_sublist l l' x y : l' `sublist_of` l → before l' x y → before l x y.
Proof.
  induction 1 as [|z l' l Hs IH|z l' l Hs IH].
  - intros (l1 & l2 & Heq & _). by destruct l1.
  - rewrite !before_cons. intros [[-> Hy]|Hb]; [left|right; auto].
    split; [done|]. by eapply elem_of_sublist.
  - intros. apply before_cons. auto.
Qed.

Lemma before_total l x y : x ∈ l → y ∈ l → x ≠ y → before l x y ∨ before l y x.
Proof.
  induction l as [|z l IH]; [set_solver|]. rewrite !before_cons, !elem_of_cons.
  naive_solver.
Qed.

Lemma before_asym l x y : NoDup l → before l x y → before l y x → False.
Proof.
  induction 1 as [|z l Hz Hl IH]; [intros (l1 & ? & ? & _); by destruct l1|].
  rewrite !before_cons. intros [[-> Hy]|Hb] [[-> Hx]|Hb'].
  - done.
  - by apply before_r in Hb'.
  - by apply before_r in Hb.
  - auto.
Qed.

Lemma before_restrict l l' x y :
  NoDup l → l' `sublist_of` l → x ∈ l' → y ∈ l' → before l x y → before l' x y.
Proof.
  intros HN Hs Hx Hy Hb. destruct (before_total l' x y) as [?|Hb']; auto.
  - intros ->. by eapply before_asym.
  - exfalso. eapply before_asym; eauto using before_sublist.
Qed.
End before.

Lemma Forall_filter_keep {A} (P Q : A → Prop) `{∀ x, Decision (P x)} (l : list A) :
  Forall Q l → Forall Q (filter P l).
Proof. rewrite !Forall_forall. intros HQ x [_ Hx]%list_elem_of_filter. auto. Qed.

(** ** Counting in a list *)
Definition count {A} (p : A → bool) (l : list A) : Z := foldr (λ x n, Z.b2z (p x) + n) 0 l.

Section count.
Context {A : Type}.
Implicit Types (p : A → bool) (l : list A).

Lemma count_nonneg p l : 0 ≤ count p l.
Proof. induction l as [|x l IH]; simpl; [lia|]. destruct (p x); simpl; lia. Qed.

Lemma count_app p l l' : count p (l ++ l') = count p l + count p l'.
Proof. induction l as [|x l IH]; simpl; [lia|]. rewrite IH. lia. Qed.

Lemma count_insert p l i x y :
  l !! i = Some x → count p (<[i := y]> l) = count p l - Z.b2z (p x) + Z.b2z (p y).
Proof.
  revert i. induction l as [|z l IH]; intros [|i] Hi; simplify_eq/=; [lia|].
  rewrite (IH i) by done. lia.
Qed.

Lemma count_elem p l i x : l !! i = Some x → p x = true → 1 ≤ count p l.
Proof.
  revert i. induction l as [|z l IH]; intros [|i] Hi Hp; simplify_eq/=.
  - rewrite Hp. pose proof (count_nonneg p l). simpl. lia.
  - pose proof (IH i Hi Hp). destruct (p z); simpl; lia.
Qed.

Lemma count_two p l i j x y :
  i ≠ j → l !! i = Some x → l !! j = Some y → p x = true → p y = true → 2 ≤ count p l.
Proof.
  revert i j. induction l as [|z l IH]; intros [|i] [|j] Hij Hi Hj Hx Hy; simplify_eq/=.
  - rewrite Hx. pose proof (count_elem p l j y Hj Hy). simpl. lia.
  - rewrite Hy. pose proof (count_elem p l i x Hi Hx). simpl. lia.
  - pose proof (IH i j ltac:(lia) Hi Hj Hx Hy). destruct (p z); simpl; lia.
Qed.

Lemma count_zero p l i x : count p l = 0 → l !! i = Some x → p x = false.
Proof.
  intros H0 Hi. destruct (p x) eqn:E; [|done]. pose proof (count_elem p l i x Hi E). lia.
Qed.

Lemma count_none p l : (∀ x, x ∈ l → p x = false) → count p l = 0.
Proof.
  induction l as [|z l IH]; intros Hp; simpl; [done|].
  rewrite Hp by set_solver. rewrite IH by set_solver. done.
Qed.

Lemma count_pos p l : 1 ≤ count p l → ∃ i x, l !! i = Some x ∧ p x = true.
Proof.
  induction l as [|z l IH]; simpl; [lia|]. destruct (p z) eqn:E; intros H.
  - by exists O, z.
  - simpl in H. destruct IH as (i & x & ? & ?); [lia|]. by exists (S i), x.
Qed.

Lemma count_mono p q l : (∀ x, p x = true → q x = true) → count p l ≤ count q l.
Proof.
  intros Hpq. induction l as [|x l IH]; simpl; [lia|].
  specialize (Hpq x). destruct (p x), (q x); simpl; try lia; by specialize (Hpq eq_refl).
Qed.

Lemma count_le p l : count p l ≤ Z.of_nat (length l).
Proof. induction l as [|z l IH]; simpl; [lia|]. destruct (p z); simpl; lia. Qed.

Lemma count_full p l i x : count p l = Z.of_nat (length l) → l !! i = Some x → p x = true.
Proof.
  revert i. induction l as [|z l IH]; intros [|i] Hc Hi; simplify_eq/=.
  - destruct (p x); [done|]. pose proof (count_le p l). simpl in *. lia.
  - apply (IH i); [|done]. pose proof (count_le p l). destruct (p z); simpl in *; lia.
Qed.

Lemma count_all p l : Forall (λ x, p x = true) l → count p l = Z.of_nat (length l).
Proof. induction 1 as [|z l Hz _ IH]; simpl; [done|]. rewrite Hz, IH. simpl. lia. Qed.

Lemma count_unique p q l i x :
  (∀ y, p y = true → q y = true) → count q l = 1 → l !! i = Some x → q x = true →
  count p l = Z.b2z (p x).
Proof.
  intros Hpq. revert i. induction l as [|z l IH]; intros [|i] Hc Hi Hq; simplify_eq/=.
  - rewrite Hq in Hc. pose proof (count_mono p q l Hpq). pose proof (count_nonneg p l).
    simpl in Hc. lia.
  - pose proof (count_elem q l i x Hi Hq). pose proof (Hpq z) as Hz.
    destruct (q z) eqn:Ez; simpl in Hc; [lia|]. rewrite (IH i) by (done || lia).
    destruct (p z); [|done]. discriminate (Hz eq_refl).
Qed.

Lemma count_NoDup (f : A → Z) l : (∀ z, count (λ y, f y =? z) l ≤ 1) → NoDup (f <$> l).
Proof.
  induction l as [|x l IH]; intros Hc; csimpl; constructor.
  - intros (y & Hy & Hin)%list_elem_of_fmap. apply list_elem_of_lookup in Hin as [i Hi].
    specialize (Hc (f x)). csimpl in Hc. rewrite Z.eqb_refl in Hc.
    pose proof (count_elem (λ y, f y =? f x) l i y Hi). simpl in *. lia.
  - apply IH. intros z. specialize (Hc z). csimpl in Hc. destruct (f x =? z); simpl in *; lia.
Qed.
End count.

(** ** Loops: [for _, x := range l] *)
Fixpoint go_fold {S A} (f : S → A → go S) (l : list A) (s : S) : go S :=
  match l with [] => Ret s | x :: l => s ← f s x; go_fold f l s end.

(** A loop whose body keeps an invariant ends with it; [P] is indexed by what
    has been done. *)
Lemma go_fold_inv {S A} (f : S → A → go S) (P : list A → S → Prop) l s :
  P [] s →
  (∀ done x rest s, l = done ++ x :: rest → P done s → ∃ s', f s x = Ret s' ∧ P (done ++ [x]) s') →
  ∃ s', go_fold f l s = Ret s' ∧ P l s'.
Proof.
  intros H0 Hf. cut (∀ l' done s, l = done ++ l' → P done s → ∃ s', go_fold f l' s = Ret s' ∧ P l s').
  { intros H. by apply (H l [] s). }
  clear H0 s. induction l' as [|x l' IH]; intros d s Hl HP; simpl.
  - exists s. rewrite app_nil_r in Hl. by subst d.
  - destruct (Hf d x l' s Hl HP) as (s1 & -> & HP1). simpl.
    apply (IH (d ++ [x])); [by rewrite <-app_assoc|done].
Qed.

Lemma go_fold_app {S A} (f : S → A → go S) l l' s :
  go_fold f (l ++ l') s = (s ← go_fold f l s; go_fold f l' s).
Proof. revert s. induction l as [|x l IH]; intros s; simpl; [done|]. destruct (f s x); simpl; auto. Qed.

(** ** Lists with their indices: [for i, x := range l] *)
Lemma imap_pair_snd {A} (l : list A) : (imap pair l).*2 = l.
Proof.
  rewrite fmap_imap. apply list_eq. intros i. rewrite list_lookup_imap. by destruct (l !! i).
Qed.

Lemma imap_pair_split {A} (l : list A) d j x rest :
  imap pair l = d ++ (j, x) :: rest →
  j = length d ∧ l !! j = Some x ∧ d.*2 = take j l.
Proof.
  intros Hl. assert (imap pair l !! length d = Some (j, x)) as Hj.
  { by rewrite Hl, lookup_app_r, Nat.sub_diag by lia. }
  rewrite list_lookup_imap in Hj. apply fmap_Some in Hj as (x' & Hx & [= -> <-]).
  split_and!; [done|done|]. rewrite <-(imap_pair_snd l), Hl, fmap_app.
  by rewrite take_app_length' by (by rewrite length_fmap).
Qed.

Lemma indexed_Forall2 {A B} (Q : A → B → Prop) (l : list A) (k : list B) :
  Forall2 (λ ip, Q ip.2) (imap pair l) k → Forall2 Q l k.
Proof.
  rewrite !Forall2_lookup. intros HF i. specialize (HF i). rewrite list_lookup_imap in HF.
  destruct (l !! i); inversion HF; subst; by constructor.
Qed.

(** The element that a loop over consecutive numbers has reached. *)
Lemma seqZ_split m len d j rest :
  seqZ m len = d ++ j :: rest → j = m + Z.of_nat (length d) ∧ Z.of_nat (length d) < len.
Proof.
  intros Hl. assert (seqZ m len !! length d = Some j) as Hj.
  { by rewrite Hl, lookup_app_r, Nat.sub_diag by lia. }
  apply lookup_seqZ in Hj as [-> ?]. done.
Qed.

(** ** Automation shared by the components *)
Create HintDb go.
#[export] Hint Resolve index_lookup store_lt before_l before_r before_app_l count_nonneg count_le : go.
#[export] Hint Rewrite @imap_pair_snd @count_app @Nat2Z.id : go.
