(* ===== verification/GoStrings.v ===== *)
(** * Go strings: bytes, runes and the functions of [strings] and [strconv]
    that the programs use

    A Go string is a sequence of bytes, a Rocq [string] of [ascii]; ranging over
    it decodes UTF-8, an ill-formed sequence giving U+FFFD for one byte. *)
From S2P Require Import Prelude.
From Stdlib Require Import Ascii.
From stdpp Require Export pretty.
#[global] Open Scope Z_scope.

Definition byte_of (a : Ascii.ascii) : Z := Z.of_N (Ascii.N_of_ascii a).
Definition ascii_of (z : Z) : Ascii.ascii := Ascii.ascii_of_N (Z.to_N z).
Definition bytes (s : string) : list Z := byte_of <$> String.list_ascii_of_string s.
Definition of_bytes (l : list Z) : string := String.string_of_list_ascii (ascii_of <$> l).

(** ** UTF-8 *)
Definition in_range (lo hi z : Z) : bool := (lo <=? z) && (z <=? hi).
Definition cont : Z → bool := in_range 128 191.
Definition low6 (z : Z) : Z := Z.land z 63.

(** Lower and upper bound of the second byte after the lead byte. *)
Definition second (b0 : Z) : Z * Z :=
  if b0 =? 224 then (160, 191) else if b0 =? 237 then (128, 159)
  else if b0 =? 240 then (144, 191) else if b0 =? 244 then (128, 143) else (128, 191).

Definition rune2 (b0 b1 : Z) : option Z :=
  if in_range 194 223 b0 && cont b1 then Some (Z.lor (Z.shiftl (Z.land b0 31) 6) (low6 b1)) else None.
Definition rune3 (b0 b1 b2 : Z) : option Z :=
  if in_range 224 239 b0 && in_range (second b0).1 (second b0).2 b1 && cont b2
  then Some (Z.lor (Z.shiftl (Z.land b0 15) 12) (Z.lor (Z.shiftl (low6 b1) 6) (low6 b2)))
  else None.
Definition rune4 (b0 b1 b2 b3 : Z) : option Z :=
  if in_range 240 244 b0 && in_range (second b0).1 (second b0).2 b1 && cont b2 && cont b3
  then Some (Z.lor (Z.shiftl (Z.land b0 7) 18)
         (Z.lor (Z.shiftl (low6 b1) 12) (Z.lor (Z.shiftl (low6 b2) 6) (low6 b3))))
  else None.

Definition RuneError : Z := 65533.

(** The runes of a string, each with the bytes it was decoded from. *)
Fixpoint decode_runes (l : list Z) : list (Z * list Z) :=
  match l with
  | [] => []
  | b0 :: l1 =>
      if b0 <? 128 then (b0, [b0]) :: decode_runes l1 else
      let bad := (RuneError, [b0]) :: decode_runes l1 in
      match l1 with
      | [] => bad
      | b1 :: l2 =>
          match rune2 b0 b1 with
          | Some r => (r, [b0; b1]) :: decode_runes l2
          | None =>
              match l2 with
              | [] => bad
              | b2 :: l3 =>
                  match rune3 b0 b1 b2 with
                  | Some r => (r, [b0; b1; b2]) :: decode_runes l3
                  | None =>
                      match l3 with
                      | [] => bad
                      | b3 :: l4 =>
                          match rune4 b0 b1 b2 b3 with
                          | Some r => (r, [b0; b1; b2; b3]) :: decode_runes l4
                          | None => bad
                          end
                      end
                  end
              end
          end
      end
  end.

Definition runes (s : string) : list Z := (decode_runes (bytes s)).*1.

(** [string(r)]: surrogates and values out of range encode as U+FFFD. *)
Definition encode_rune (r : Z) : list Z :=
  let r := if in_range 55296 57343 r || negb (in_range 0 1114111 r) then RuneError else r in
  if r <? 128 then [r]
  else if r <? 2048 then [192 + Z.shiftr r 6; 128 + low6 r]
  else if r <? 65536 then [224 + Z.shiftr r 12; 128 + low6 (Z.shiftr r 6); 128 + low6 r]
  else [240 + Z.shiftr r 18; 128 + low6 (Z.shiftr r 12); 128 + low6 (Z.shiftr r 6); 128 + low6 r].

Definition string_of_runes (l : list Z) : string := of_bytes (concat (encode_rune <$> l)).

(** ** strings and strconv *)
Definition Itoa (z : Z) : string := pretty z.

Fixpoint Join (l : list string) (sep : string) : string :=
  match l with
  | [] => ""
  | [s] => s
  | s :: l => s +:+ sep +:+ Join l sep
  end.

(** [strings.Split] by a separator of one byte. *)
Fixpoint split_from (sep : Ascii.ascii) (s cur : string) : list string :=
  match s with
  | EmptyString => [cur]
  | String c s =>
      if decide (c = sep) then cur :: split_from sep s ""
      else split_from sep s (cur +:+ String c "")
  end.
Definition Split (s : string) (sep : Ascii.ascii) : list string := split_from sep s "".

(** [strings.FieldsFunc]: the maximal runs of runes on which [f] is false. *)
Fixpoint fields_from (f : Z → bool) (rs : list (Z * list Z)) (cur : list Z) : list string :=
  match rs with
  | [] => if decide (cur = []) then [] else [of_bytes cur]
  | (r, bs) :: rs =>
      if f r then
        (if decide (cur = []) then [] else [of_bytes cur]) ++ fields_from f rs []
      else fields_from f rs (cur ++ bs)
  end.
Definition FieldsFunc (s : string) (f : Z → bool) : list string :=
  fields_from f (decode_runes (bytes s)) [].

(** ** Byte order of strings *)
Lemma ltb_lt a b : String.ltb a b = true ↔ (a ?= b)%string = Lt.
Proof. unfold String.ltb. destruct (a ?= b)%string; naive_solver. Qed.

Lemma string_compare_refl a : (a ?= a)%string = Eq.
Proof.
  induction a as [|c a IH]; simpl; [done|]. unfold Ascii.compare. by rewrite N.compare_refl.
Qed.

Lemma string_compare_trans a b c :
  (a ?= b)%string = Lt → (b ?= c)%string = Lt → (a ?= c)%string = Lt.
Proof.
  revert b c. induction a as [|x a IH]; intros [|y b] [|z c]; simpl; try done.
  unfold Ascii.compare.
  destruct (N.compare_spec (Ascii.N_of_ascii x) (Ascii.N_of_ascii y)) as [E1|E1|E1]; try done;
  destruct (N.compare_spec (Ascii.N_of_ascii y) (Ascii.N_of_ascii z)) as [E2|E2|E2]; try done;
  destruct (N.compare_spec (Ascii.N_of_ascii x) (Ascii.N_of_ascii z)) as [E3|E3|E3]; try done;
  try lia. apply IH.
Qed.

Lemma string_compare_total a b : String.ltb a b = false → String.ltb b a = false → a = b.
Proof.
  unfold String.ltb. rewrite (String.compare_antisym b a).
  destruct (a ?= b)%string eqn:E; simpl; try done. intros _ _. by apply String.compare_eq_iff.
Qed.

Lemma string_strict_weak : strict_weak String.ltb.
Proof.
  split_and!.
  - intros a. unfold String.ltb. by rewrite string_compare_refl.
  - intros a b c. rewrite !ltb_lt. apply string_compare_trans.
  - intros a b c Hab Hbc. destruct (String.ltb a c) eqn:E; [|done].
    destruct (String.ltb b a) eqn:Eba.
    + rewrite <-Hbc. symmetry. apply ltb_lt. apply ltb_lt in Eba, E. by eapply string_compare_trans.
    + by rewrite (string_compare_total a b Hab Eba), Hbc in E.
Qed.

Lemma strict_weak_key {A} (f : A → string) : strict_weak (λ a b, String.ltb (f a) (f b)).
Proof.
  destruct string_strict_weak as (H1 & H2 & H3). split_and!; intros; [by apply H1|by eapply H2|by eapply H3].
Qed.

(** ** Numbers in names *)
Definition digit (a : Ascii.ascii) : Prop := a ≠ "-"%char ∧ a ≠ "."%char.

Fixpoint all_chars (P : Ascii.ascii → Prop) (s : string) : Prop :=
  match s with EmptyString => True | String a s => P a ∧ all_chars P s end.

Lemma pretty_N_go_digits x s : all_chars digit s → all_chars digit (pretty_N_go x s).
Proof.
  revert s. induction (N.lt_wf_0 x) as [x _ IH]. intros s Hs.
  destruct (decide (x = 0)%N) as [->|Hx]; [done|].
  rewrite pretty_N_go_step by lia. apply IH; [apply N.div_lt; lia|]. simpl. split; [|done].
  assert (x `mod` 10 < 10)%N as Hlt by (apply N.mod_lt; lia).
  assert (∀ d, digit (pretty_N_char d)) as Hd; [|done].
  intros d. unfold digit, pretty_N_char. repeat case_match; done.
Qed.

Lemma Itoa_digits z : 0 ≤ z → all_chars digit (Itoa z).
Proof.
  intros Hz. unfold Itoa, pretty, pretty_Z. destruct z as [|p|p]; [done| |lia].
  unfold pretty, pretty_positive, pretty, pretty_N. case_decide; [done|].
  by apply pretty_N_go_digits.
Qed.

(** A separator that no digit is splits a name uniquely. *)
Lemma sep_inj c s s' t t' :
  all_chars (λ a, a ≠ c) s → all_chars (λ a, a ≠ c) s' →
  s +:+ String c t = s' +:+ String c t' → s = s' ∧ t = t'.
Proof.
  revert s'. induction s as [|a s IH]; intros [|a' s'] Hs Hs' H; simpl in *; simplify_eq; try tauto.
  destruct Hs, Hs'. destruct (IH s') as [-> ->]; naive_solver.
Qed.

Lemma all_chars_impl (P Q : Ascii.ascii → Prop) s :
  (∀ a, P a → Q a) → all_chars P s → all_chars Q s.
Proof. intros HPQ. induction s; simpl; naive_solver. Qed.

Lemma Itoa_no_dash z : 0 ≤ z → all_chars (λ a, a ≠ "-"%char) (Itoa z).
Proof. intros Hz. eapply all_chars_impl; [|by apply Itoa_digits]. by intros a []. Qed.
Lemma Itoa_no_dot z : 0 ≤ z → all_chars (λ a, a ≠ "."%char) (Itoa z).
Proof. intros Hz. eapply all_chars_impl; [|by apply Itoa_digits]. by intros a []. Qed.

Lemma append_nil_r s : s +:+ "" = s.
Proof. induction s as [|a s IH]; [done|]. change (String a (s +:+ "") = String a s). by rewrite IH. Qed.
Lemma append_assoc s t u : s +:+ (t +:+ u) = (s +:+ t) +:+ u.
Proof.
  induction s as [|a s IH]; [done|].
  change (String a (s +:+ (t +:+ u)) = String a ((s +:+ t) +:+ u)). by rewrite IH.
Qed.

Lemma append_inj_l s t t' : s +:+ t = s +:+ t' → t = t'.
Proof. induction s as [|c s IH]; simpl; [done|]. intros. simplify_eq. auto. Qed.

#[export] Instance Itoa_inj : Inj (=) (=) Itoa.
Proof. unfold Itoa. apply _. Qed.

Lemma split_from_cons sep s cur : ∃ c cs, split_from sep s cur = c :: cs.
Proof. revert cur. induction s as [|a s IH]; intros cur; simpl; [eauto|]. case_decide; eauto. Qed.
Lemma split_from_app sep s t cur :
  all_chars (λ a, a ≠ sep) s → split_from sep (s +:+ t) cur = split_from sep t (cur +:+ s).
Proof.
  revert cur. induction s as [|a s IH]; intros cur Hs; [by rewrite append_nil_r|].
  destruct Hs as [Ha Hs]. change (String a s +:+ t) with (String a (s +:+ t)). simpl.
  rewrite decide_False by done. rewrite IH by done. f_equal. by rewrite <-append_assoc.
Qed.
Lemma Split_sep sep s t :
  all_chars (λ a, a ≠ sep) s → Split (s +:+ String sep t) sep = s :: Split t sep.
Proof. intros. unfold Split. rewrite split_from_app by done. simpl. by rewrite decide_True. Qed.
Lemma Split_none sep s : all_chars (λ a, a ≠ sep) s → Split s sep = [s].
Proof.
  intros. unfold Split. rewrite <-(append_nil_r s) at 1. by rewrite split_from_app.
Qed.

Lemma split_from_last sep s t cur : ∃ c l, split_from sep (s +:+ String sep t) cur = c :: l ++ Split t sep.
Proof.
  revert cur. induction s as [|a s IH]; intros cur.
  - exists cur, []. simpl. by rewrite decide_True.
  - change (String a s +:+ String sep t) with (String a (s +:+ String sep t)). simpl. case_decide.
    + destruct (IH "") as (c & l & ->). by exists cur, (c :: l).
    + apply IH.
Qed.

Lemma all_chars_app P s t : all_chars P (s +:+ t) ↔ all_chars P s ∧ all_chars P t.
Proof.
  induction s as [|a s IH]; simpl; [tauto|].
  change (P a ∧ all_chars P (s +:+ t) ↔ (P a ∧ all_chars P s) ∧ all_chars P t). rewrite IH. tauto.
Qed.

Lemma length_append s t : String.length (s +:+ t) = (String.length s + String.length t)%nat.
Proof. induction s as [|a s IH]; [done|]. change (S (String.length (s +:+ t)) = S (String.length s + String.length t)). by rewrite IH. Qed.
Lemma substring_prefix s t : String.substring 0 (String.length s) (s +:+ t) = s.
Proof.
  induction s as [|a s IH]; [by destruct t|].
  change (String a (String.substring 0 (String.length s) (s +:+ t)) = String a s). by rewrite IH.
Qed.
Lemma substring_all s : String.substring 0 (String.length s) s = s.
Proof. rewrite <-(append_nil_r s) at 2. by rewrite substring_prefix. Qed.
Lemma substring_suffix s t : String.substring (String.length s) (String.length t) (s +:+ t) = t.
Proof.
  induction s as [|a s IH]; [apply substring_all|].
  change (String.substring (String.length s) (String.length t) (s +:+ t) = t). done.
Qed.
