(* ===== verification/Bitset.v ===== *)
(** * Bitset: [Lab02/src/porcupine/bitset.go]

    The linearizability checker keys its cache by the set of operations that
    are already linearized, kept as a slice of 64-bit words. *)
From S2P Require Import Prelude.

(** [type bitset []uint64]; bits 0-63 are in word 0, the next in word 1, ... *)
Abbreviation bitset := (list Z).

(** [bits.OnesCount64] of the standard library. *)
Definition OnesCount64 (w : Z) : Z :=
  Z.of_nat (length (filter (λ i, Z.testbit w i) (seqZ 0 64))).

Definition newBitset (bits : Z) : bitset :=
  let extra := if bool_decide (bits mod 64 ≠ 0) then 1 else 0 in
  let chunks := bits / 64 + extra in
  replicate (Z.to_nat chunks) 0.

(** A fresh slice with the same words: values are immutable here, so the copy
    is the value itself. *)
Definition clone (b : bitset) : bitset := b.

Definition bitsetIndex (pos : Z) : Z * Z := (pos / 64, pos mod 64).

Definition set (b : bitset) (pos : Z) : go bitset :=
  let '(major, minor) := bitsetIndex pos in
  w ← index b major; store b major (Z.lor w (Z.shiftl 1 minor)).

Definition clear (b : bitset) (pos : Z) : go bitset :=
  let '(major, minor) := bitsetIndex pos in
  w ← index b major; store b major (Z.ldiff w (Z.shiftl 1 minor)).

Definition get (b : bitset) (pos : Z) : go bool :=
  let '(major, minor) := bitsetIndex pos in
  w ← index b major; mret (negb (Z.eqb (Z.land w (Z.shiftl 1 minor)) 0)).

Definition popcnt (b : bitset) : Z :=
  foldl (λ total v, total + OnesCount64 v) 0 b.

Definition hash (b : bitset) : Z := foldl Z.lxor (u64 (popcnt b)) b.

Fixpoint equals_words (b b2 : bitset) : bool :=
  match b, b2 with
  | v :: b', v2 :: b2' => if v =? v2 then equals_words b' b2' else false
  | _, _ => true
  end.
Definition equals (b b2 : bitset) : bool :=
  if bool_decide (length b ≠ length b2) then false else equals_words b b2.

(** ** Abstraction: the set of positions *)

Definition wf (b : bitset) : Prop := Forall (λ w, 0 ≤ w < w64) b.
Definition capacity (b : bitset) : Z := 64 * Z.of_nat (length b).
Definition mem (b : bitset) (i : Z) : bool :=
  match b !! Z.to_nat (i / 64) with
  | Some w => Z.testbit w (i mod 64)
  | None => false
  end.
Definition elems (b : bitset) : gset Z :=
  list_to_set (filter (λ i, mem b i) (seqZ 0 (capacity b))).

Lemma wf_lookup b k w : wf b → b !! k = Some w → 0 ≤ w < w64.
Proof. intros H. exact (Forall_lookup_1 _ _ _ _ H). Qed.

Lemma elem_of_elems b i : i ∈ elems b ↔ 0 ≤ i < capacity b ∧ mem b i.
Proof.
  unfold elems. rewrite elem_of_list_to_set, list_elem_of_filter, elem_of_seqZ.
  unfold capacity. split; intros [? ?]; split; auto; lia.
Qed.

Lemma bit_eq_dec w i : 0 ≤ i → Z.eqb (Z.land w (Z.shiftl 1 i)) 0 = negb (Z.testbit w i).
Proof.
  intros Hi. destruct (Z.testbit w i) eqn:E; simpl.
  - apply Z.eqb_neq. intros H0.
    assert (Z.testbit (Z.land w (Z.shiftl 1 i)) i = true) as Ht.
    { rewrite Z.land_spec, E, Z.shiftl_spec, Z.sub_diag by lia. done. }
    rewrite H0, Z.testbit_0_l in Ht. done.
  - apply Z.eqb_eq, Z.bits_inj'. intros j Hj.
    rewrite Z.land_spec, Z.testbit_0_l, Z.shiftl_spec by lia.
    destruct (decide (j = i)) as [->|]; [by rewrite E|].
    change 1 with (2 ^ 0). rewrite Z.pow2_bits_false by lia. by rewrite andb_false_r.
Qed.

Lemma testbit_shift1 i j : 0 ≤ i → 0 ≤ j → Z.testbit (Z.shiftl 1 i) j = bool_decide (i = j).
Proof.
  intros. rewrite Z.shiftl_spec by lia. change 1 with (2 ^ 0). case_bool_decide.
  - subst. rewrite Z.sub_diag. done.
  - apply Z.pow2_bits_false. lia.
Qed.

Lemma word_bound w : 0 ≤ w → (∀ i, 64 ≤ i → Z.testbit w i = false) → 0 ≤ w < w64.
Proof.
  intros Hw Hb. split; [done|]. destruct (decide (w = 0)) as [->|]; [done|].
  apply Z.log2_lt_pow2; [lia|]. destruct (decide (64 ≤ Z.log2 w)) as [Hl|]; [|lia].
  specialize (Hb _ Hl). rewrite Z.bit_log2 in Hb by lia. done.
Qed.

Lemma word_high w i : 0 ≤ w < w64 → 64 ≤ i → Z.testbit w i = false.
Proof.
  intros Hw Hi. destruct (decide (w = 0)) as [->|]; [apply Z.testbit_0_l|].
  apply Z.bits_above_log2; [lia|].
  assert (Z.log2 w < 64); [|lia]. apply Z.log2_lt_pow2; [lia|]. apply Hw.
Qed.

Lemma lookup_pos b i : 0 ≤ i < capacity b → is_Some (b !! Z.to_nat (i / 64)).
Proof.
  intros Hi. apply lookup_lt_is_Some_2. unfold capacity in Hi.
  assert (i / 64 < Z.of_nat (length b)) by (apply Z.div_lt_upper_bound; lia).
  assert (0 ≤ i / 64) by (apply Z.div_pos; lia). lia.
Qed.

(** Writing one word of a slice: shared by [set] and [clear]. *)
Lemma mem_update b i w w' j (f : bool → bool) :
  0 ≤ i < capacity b → 0 ≤ j < capacity b →
  b !! Z.to_nat (i / 64) = Some w →
  (∀ k, 0 ≤ k → Z.testbit w' k = if bool_decide (i mod 64 = k) then f (Z.testbit w k) else Z.testbit w k) →
  mem (<[Z.to_nat (i / 64) := w']> b) j = if bool_decide (i = j) then f (mem b j) else mem b j.
Proof.
  intros Hi Hj Hw Hw'. unfold mem.
  assert (0 ≤ i / 64) by (apply Z.div_pos; lia).
  assert (0 ≤ j / 64) by (apply Z.div_pos; lia).
  assert (0 ≤ i mod 64 < 64) by (apply Z.mod_pos_bound; lia).
  assert (0 ≤ j mod 64 < 64) by (apply Z.mod_pos_bound; lia).
  pose proof (Z.div_mod i 64 ltac:(lia)). pose proof (Z.div_mod j 64 ltac:(lia)).
  destruct (decide (i / 64 = j / 64)) as [E|E].
  - rewrite <-E, list_lookup_insert_eq by (by eapply lookup_lt_Some).
    rewrite Hw, Hw' by lia. repeat case_bool_decide; auto; lia.
  - rewrite list_lookup_insert_ne by lia. rewrite bool_decide_eq_false_2 by congruence. done.
Qed.

Lemma length_store {A} (l l' : list A) i x : store l i x = Ret l' → length l' = length l.
Proof. intros. simplify_go. apply length_insert. Qed.

Section update.
Context (b : bitset) (Hwf : wf b) (i : Z) (Hi : 0 ≤ i < capacity b).

Lemma set_run : ∃ b', set b i = Ret b' ∧ wf b' ∧ length b' = length b ∧
  ∀ j, 0 ≤ j < capacity b → mem b' j = bool_decide (i = j) || mem b j.
Proof.
  destruct (lookup_pos _ _ Hi) as [w Hw].
  assert (0 ≤ i / 64) by (apply Z.div_pos; lia).
  assert (0 ≤ i mod 64 < 64) by (apply Z.mod_pos_bound; lia).
  pose proof (wf_lookup _ _ _ Hwf Hw) as Hw64.
  unfold set, bitsetIndex. rewrite (proj2 (index_Ret b (i / 64) w)) by done.
  cbn -[Z.to_nat]. rewrite store_lt.
  2:{ apply lookup_lt_Some in Hw. lia. }
  eexists. split; [done|]. split_and!.
  - apply Forall_insert; [done|]. apply word_bound.
    { apply Z.lor_nonneg. split; [lia|]. apply Z.shiftl_nonneg. lia. }
    intros k Hk. rewrite Z.lor_spec, testbit_shift1, word_high by lia.
    case_bool_decide; [lia|done].
  - apply length_insert.
  - intros j Hj. rewrite (mem_update b i w _ j (λ _, true)); [done..|].
    intros k Hk. rewrite Z.lor_spec, testbit_shift1 by lia.
    case_bool_decide; [apply orb_true_r|apply orb_false_r].
Qed.

Lemma clear_run : ∃ b', clear b i = Ret b' ∧ wf b' ∧ length b' = length b ∧
  ∀ j, 0 ≤ j < capacity b → mem b' j = negb (bool_decide (i = j)) && mem b j.
Proof.
  destruct (lookup_pos _ _ Hi) as [w Hw].
  assert (0 ≤ i / 64) by (apply Z.div_pos; lia).
  assert (0 ≤ i mod 64 < 64) by (apply Z.mod_pos_bound; lia).
  pose proof (wf_lookup _ _ _ Hwf Hw) as Hw64.
  unfold clear, bitsetIndex. rewrite (proj2 (index_Ret b (i / 64) w)) by done.
  cbn -[Z.to_nat]. rewrite store_lt.
  2:{ apply lookup_lt_Some in Hw. lia. }
  eexists. split; [done|]. split_and!.
  - apply Forall_insert; [done|]. apply word_bound.
    { apply Z.ldiff_nonneg. left. lia. }
    intros k Hk. rewrite Z.ldiff_spec, word_high by lia. done.
  - apply length_insert.
  - intros j Hj. rewrite (mem_update b i w _ j (λ _, false)); auto.
    + by destruct (bool_decide (i = j)).
    + intros k Hk. rewrite Z.ldiff_spec, testbit_shift1 by lia.
      case_bool_decide; simpl; [apply andb_false_r|apply andb_true_r].
Qed.

Lemma get_run : get b i = Ret (mem b i).
Proof.
  destruct (lookup_pos _ _ Hi) as [w Hw].
  assert (0 ≤ i / 64) by (apply Z.div_pos; lia).
  assert (0 ≤ i mod 64 < 64) by (apply Z.mod_pos_bound; lia).
  unfold get, bitsetIndex. rewrite (proj2 (index_Ret b (i / 64) w)) by done.
  cbn -[Z.to_nat]. rewrite bit_eq_dec, negb_involutive by lia.
  unfold mem. by rewrite Hw.
Qed.
End update.

(** ** popcnt counts the members *)
Lemma mem_cons_low w b i : 0 ≤ i < 64 → mem (w :: b) i = Z.testbit w i.
Proof. intros. unfold mem. rewrite Z.div_small, Z.mod_small by lia. done. Qed.
Lemma mem_cons_high w b i : 0 ≤ i → mem (w :: b) (64 + i) = mem b i.
Proof.
  intros. unfold mem. replace (64 + i) with (i + 1 * 64) by lia.
  rewrite Z.div_add, Z.mod_add by lia.
  assert (0 ≤ i / 64) by (apply Z.div_pos; lia).
  rewrite Z2Nat.inj_add, Nat.add_comm by lia. done.
Qed.

Lemma length_filter_fmap {A B} (f : A → B) (P : B → Prop) `{∀ x, Decision (P x)} (l : list A) :
  length (filter P (f <$> l)) = length (filter (λ x, P (f x)) l).
Proof.
  induction l as [|x l IH]; [done|]. rewrite fmap_cons, !filter_cons.
  repeat case_decide; simpl; auto.
Qed.

Lemma filter_ext_in {A} (P Q : A → Prop) `{∀ x, Decision (P x), ∀ x, Decision (Q x)} (l : list A) :
  (∀ x, x ∈ l → P x ↔ Q x) → filter P l = filter Q l.
Proof.
  induction l as [|x l IH]; intros HPQ; [done|]. rewrite !filter_cons.
  rewrite IH by (intros; apply HPQ; set_solver).
  specialize (HPQ x ltac:(set_solver)). repeat case_decide; tauto.
Qed.

Lemma elem_count_cons w b :
  length (filter (λ i, mem (w :: b) i) (seqZ 0 (capacity (w :: b)))) =
  (length (filter (λ i, Z.testbit w i) (seqZ 0 64)) +
   length (filter (λ i, mem b i) (seqZ 0 (capacity b))))%nat.
Proof.
  unfold capacity. cbn [length].
  replace (64 * Z.of_nat (S (length b))) with (64 + 64 * Z.of_nat (length b)) by lia.
  rewrite seqZ_app by lia. rewrite filter_app, length_app.
  rewrite (filter_ext_in (λ i, mem (w :: b) i) (λ i, Z.testbit w i) (seqZ 0 64)).
  2:{ intros i Hi%elem_of_seqZ. by rewrite mem_cons_low by lia. }
  rewrite (Z.add_comm 0), <-fmap_add_seqZ, length_filter_fmap.
  rewrite (filter_ext_in (λ i, mem (w :: b) (Z.add 64 i)) (λ i, mem b i)); [done|].
  intros i Hi%elem_of_seqZ. by rewrite mem_cons_high by lia.
Qed.

Lemma popcnt_acc b t :
  foldl (λ total v, total + OnesCount64 v) t b =
  t + Z.of_nat (length (filter (λ i, mem b i) (seqZ 0 (capacity b)))).
Proof.
  revert t. induction b as [|w b IH]; intros t; [simpl; lia|].
  cbn [foldl]. rewrite IH, elem_count_cons. unfold OnesCount64. lia.
Qed.

Lemma popcnt_size b : popcnt b = Z.of_nat (size (elems b)).
Proof.
  unfold popcnt, elems. rewrite popcnt_acc.
  rewrite size_list_to_set; [lia|]. apply NoDup_filter, NoDup_seqZ.
Qed.

(** ** Updates as set operations *)
Lemma bool_decide_Is_true_iff (P : Prop) `{!Decision P} (b : bool) :
  (P ↔ b) → bool_decide P = b.
Proof. intros HP. case_bool_decide; destruct b; naive_solver. Qed.

Lemma set_elems b i :
  wf b → 0 ≤ i < capacity b →
  ∃ b', set b i = Ret b' ∧ wf b' ∧ length b' = length b ∧ elems b' = {[i]} ∪ elems b.
Proof.
  intros Hb Hi. destruct (set_run b Hb i Hi) as (b' & E & Hwf & Hl & Hm).
  exists b'. split_and!; [done..|]. apply set_eq. intros j.
  rewrite elem_of_union, elem_of_singleton, !elem_of_elems.
  unfold capacity. rewrite Hl. fold (capacity b). split.
  - intros [Hj Hmem]. rewrite Hm in Hmem by done. case_bool_decide; naive_solver.
  - intros [->|[Hj Hmem]]; (split; [done|]); rewrite Hm by done; [by rewrite bool_decide_true|].
    by destruct (bool_decide _).
Qed.

Lemma clear_elems b i :
  wf b → 0 ≤ i < capacity b →
  ∃ b', clear b i = Ret b' ∧ wf b' ∧ length b' = length b ∧ elems b' = elems b ∖ {[i]}.
Proof.
  intros Hb Hi. destruct (clear_run b Hb i Hi) as (b' & E & Hwf & Hl & Hm).
  exists b'. split_and!; [done..|]. apply set_eq. intros j.
  rewrite elem_of_difference, elem_of_singleton, !elem_of_elems.
  unfold capacity. rewrite Hl. fold (capacity b). split.
  - intros [Hj Hmem]. rewrite Hm in Hmem by done. case_bool_decide; naive_solver.
  - intros [[Hj Hmem] Hne]. split; [done|]. rewrite Hm by done.
    by rewrite bool_decide_false.
Qed.

(** ** Equality *)
Lemma equals_spec b b2 : equals b b2 = bool_decide (b = b2).
Proof.
  unfold equals. case_bool_decide as Hl.
  { rewrite bool_decide_eq_false_2; [done|]. congruence. }
  revert b2 Hl.
  induction b as [|v b IH]; intros [|v2 b2] Hl; try done. simpl in *.
  destruct (Z.eqb_spec v v2) as [->|].
  - rewrite IH by lia. apply bool_decide_ext. naive_solver.
  - rewrite bool_decide_eq_false_2; [done|]. congruence.
Qed.

Lemma wf_eq b b2 : wf b → wf b2 → length b = length b2 → elems b = elems b2 → b = b2.
Proof.
  intros Hb Hb2 Hl He. apply list_eq_same_length with (length b); [done..|].
  intros i x y Hi Hx Hy. apply Z.bits_inj'. intros k Hk.
  pose proof (wf_lookup _ _ _ Hb Hx) as Hx64.
  pose proof (wf_lookup _ _ _ Hb2 Hy) as Hy64.
  destruct (decide (64 ≤ k)); [by rewrite !word_high by lia|].
  assert (∀ c w, c !! i = Some w → mem c (Z.of_nat i * 64 + k) = Z.testbit w k) as Hm.
  { intros c w Hc. unfold mem. rewrite (Z.add_comm _ k), Z.div_add, Z.mod_add by lia.
    rewrite Z.div_small, Z.mod_small by lia. rewrite Z.add_0_l, Nat2Z.id. by rewrite Hc. }
  rewrite <-(Hm b x Hx), <-(Hm b2 y Hy).
  apply eq_true_iff_eq. rewrite <-!Is_true_true.
  pose proof (elem_of_elems b (Z.of_nat i * 64 + k)) as H1.
  pose proof (elem_of_elems b2 (Z.of_nat i * 64 + k)) as H2.
  rewrite He in H1. unfold capacity in *.
  assert (0 ≤ Z.of_nat i * 64 + k < 64 * Z.of_nat (length b)) by lia.
  assert (0 ≤ Z.of_nat i * 64 + k < 64 * Z.of_nat (length b2)) by lia. tauto.
Qed.

Lemma newBitset_wf n : wf (newBitset n).
Proof. apply Forall_replicate. done. Qed.

Lemma newBitset_capacity n : 0 ≤ n → n ≤ capacity (newBitset n).
Proof.
  intros Hn. unfold capacity, newBitset. rewrite length_replicate.
  pose proof (Z.div_mod n 64 ltac:(lia)). pose proof (Z.mod_pos_bound n 64 ltac:(lia)).
  assert (0 ≤ n / 64) by (apply Z.div_pos; lia).
  case_bool_decide; rewrite Z2Nat.id; lia.
Qed.

Lemma newBitset_mem n i : mem (newBitset n) i = false.
Proof.
  unfold mem, newBitset.
  destruct (replicate _ _ !! _) as [w|] eqn:E; [|done].
  apply lookup_replicate in E as [-> _]. apply Z.testbit_0_l.
Qed.

(** C5 The word-level bitset implements a set of positions: within its
    capacity [set] adds, [clear] removes, [get] tests membership, none of them
    panics, [popcnt] is the cardinality, and two bitsets of the same length are
    [equals] exactly when they hold the same positions. *)
Theorem bitset_refines_set b b2 i :
  wf b → wf b2 → length b = length b2 → 0 ≤ i < capacity b →
  (∃ b', set b i = Ret b' ∧ wf b' ∧ elems b' = {[i]} ∪ elems b) ∧
  (∃ b', clear b i = Ret b' ∧ wf b' ∧ elems b' = elems b ∖ {[i]}) ∧
  get b i = Ret (bool_decide (i ∈ elems b)) ∧
  popcnt b = Z.of_nat (size (elems b)) ∧
  equals b b2 = bool_decide (elems b = elems b2).
Proof.
  intros Hb Hb2 Hl Hi. split_and!.
  - destruct (set_elems b i Hb Hi) as (b' & ? & ? & _ & ?). eauto.
  - destruct (clear_elems b i Hb Hi) as (b' & ? & ? & _ & ?). eauto.
  - rewrite get_run by done. f_equal. symmetry. apply bool_decide_Is_true_iff.
    rewrite elem_of_elems. tauto.
  - apply popcnt_size.
  - rewrite equals_spec. apply bool_decide_ext. split; [by intros ->|by apply wf_eq].
Qed.

Lemma bitset_refines_set_witness :
  (∃ b', set [5] 3 = Ret b' ∧ wf b' ∧ elems b' = {[3]} ∪ elems [5]) ∧
  (∃ b', clear [5] 3 = Ret b' ∧ wf b' ∧ elems b' = elems [5] ∖ {[3]}) ∧
  get [5] 3 = Ret (bool_decide (3 ∈ elems [5])) ∧
  popcnt [5] = Z.of_nat (size (elems [5])) ∧
  equals [5] [6] = bool_decide (elems [5] = elems [6]).
Proof.
  apply (bitset_refines_set [5] [6] 3).
  - constructor; [split; [discriminate|reflexivity]|constructor].
  - constructor; [split; [discriminate|reflexivity]|constructor].
  - reflexivity.
  - split; [discriminate|reflexivity].
Defined.
