(* ===== verification/Checker.v ===== *)
(** * Checker: [Lab02/src/porcupine/model.go], [checker.go], [porcupine.go]

    The linearizability checker: entries of a history, the doubly linked list
    of call and return nodes with its [lift]/[unlift] surgery, the backtracking
    search with its cache, and the parallel driver over partitions. *)
From S2P Require Import Prelude Bitset.

(** ** model.go *)
Section data.
(** [interface{}] values carried by operations, and states of the model. *)
Context {V St : Type}.

Record Operation := mkOperation {
  op_ClientId : Z; op_Input : V; op_Call : Z; op_Output : V; op_Return : Z }.

Inductive EventKind := CallEvent | ReturnEvent.
Record Event := mkEvent {
  ev_ClientId : Z; ev_Kind : EventKind; ev_Value : V; ev_Id : Z }.

(** A nil function field is [None]; a function may panic, for instance on a
    failed type assertion. The two [Describe] fields only serve
    visualization. *)
Record Model := mkModel {
  Partition : option (list Operation → go (list (list Operation)));
  PartitionEvent : option (list Event → go (list (list Event)));
  Init : St;
  Step : St → V → V → go (bool * St);
  Equal : option (St → St → bool);
  DescribeOperation : option (V → V → go string);
  DescribeState : option (St → string) }.

Definition NoPartition (history : list Operation) : go (list (list Operation)) :=
  mret [history].
Definition NoPartitionEvent (history : list Event) : go (list (list Event)) :=
  mret [history].
Definition ShallowEqual `{EqDecision St} (s1 s2 : St) : bool := bool_decide (s1 = s2).

(** [fmt.Sprintf("%v", _)] on values and on states. *)
Context (showV : V → string) (showS : St → string).
Definition DefaultDescribeOperation (input output : V) : go string :=
  mret (showV input +:+ " -> " +:+ showV output).
Definition DefaultDescribeState (state : St) : string := showS state.

Definition or_default {A} (o : option A) (d : A) : option A :=
  match o with None => Some d | Some _ => o end.
Definition fillDefault `{EqDecision St} (m : Model) : Model := {|
  Partition := or_default (Partition m) NoPartition;
  PartitionEvent := or_default (PartitionEvent m) NoPartitionEvent;
  Init := Init m; Step := Step m;
  Equal := or_default (Equal m) ShallowEqual;
  DescribeOperation := or_default (DescribeOperation m) DefaultDescribeOperation;
  DescribeState := or_default (DescribeState m) DefaultDescribeState |}.
End data.
Arguments Operation : clear implicits.
Arguments Event : clear implicits.
Arguments Model : clear implicits.

(** ** Entries *)
Inductive entryKind := callEntry | returnEntry.
#[export] Instance entryKind_eq_dec : EqDecision entryKind.
Proof. solve_decision. Defined.

Record entry {V} := mkEntry {
  kind : entryKind; value : V; id : Z; time : Z; clientId : Z }.
Arguments entry : clear implicits.

Section entries.
Context {V : Type}.

Definition byTime_Len (a : list (entry V)) : Z := Z.of_nat (length a).
Definition byTime_Swap (a : list (entry V)) (i j : Z) : go (list (entry V)) := swap a i j.
Definition byTime_Less (a b : entry V) : bool :=
  if bool_decide (time a ≠ time b) then bool_decide (time a < time b)
  else bool_decide (kind a = callEntry) && bool_decide (kind b = returnEntry).

Fixpoint entries_from (i : Z) (history : list (Operation V)) : list (entry V) :=
  match history with
  | [] => []
  | elem :: rest =>
      mkEntry _ callEntry (op_Input elem) i (op_Call elem) (op_ClientId elem)
      :: mkEntry _ returnEntry (op_Output elem) i (op_Return elem) (op_ClientId elem)
      :: entries_from (i + 1) rest
  end.

Definition makeEntries (sort : ∀ A, (A → A → bool) → list A → list A)
    (history : list (Operation V)) : list (entry V) :=
  sort _ byTime_Less (entries_from 0 history).

Fixpoint renumber_from (m : gmap Z Z) (i : Z) (events : list (Event V)) : list (Event V) :=
  match events with
  | [] => []
  | v :: rest =>
      match m !! ev_Id v with
      | Some r => mkEvent (ev_ClientId v) (ev_Kind v) (ev_Value v) r :: renumber_from m i rest
      | None => mkEvent (ev_ClientId v) (ev_Kind v) (ev_Value v) i
                :: renumber_from (<[ev_Id v := i]> m) (i + 1) rest
      end
  end.
Definition renumber (events : list (Event V)) : list (Event V) := renumber_from ∅ 0 events.

(** The index of the event serves as its time. *)
Definition convertEntries (events : list (Event V)) : list (entry V) :=
  imap (λ i elem,
    mkEntry _ (match ev_Kind elem with ReturnEvent => returnEntry | CallEvent => callEntry end)
      (ev_Value elem) (ev_Id elem) (Z.of_nat i) (ev_ClientId elem)) events.
End entries.

(** ** The linked list of entries, on an explicit heap *)
Abbreviation loc := nat.

Record node {V} := mkNode {
  nvalue : option V;     (* nil in the sentinel *)
  nmatch : option loc;   (* call if non-nil, otherwise return *)
  nid : Z;
  nnext : option loc;
  nprev : option loc }.
Arguments node : clear implicits.

Section heap.
Context {V : Type}.
Abbreviation heap := (gmap loc (node V)).

Definition with_next (v : option loc) (n : node V) : node V :=
  mkNode _ (nvalue n) (nmatch n) (nid n) v (nprev n).
Definition with_prev (v : option loc) (n : node V) : node V :=
  mkNode _ (nvalue n) (nmatch n) (nid n) (nnext n) v.

(** Reading a node and writing its pointer fields through a pointer. *)
Definition load (h : heap) (p : option loc) : go (node V) := l ← deref p; deref (h !! l).
Definition set_next (h : heap) (p : option loc) (v : option loc) : go heap :=
  l ← deref p; n ← deref (h !! l); mret (<[l := with_next v n]> h).
Definition set_prev (h : heap) (p : option loc) (v : option loc) : go heap :=
  l ← deref p; n ← deref (h !! l); mret (<[l := with_prev v n]> h).

Definition insertBefore (h : heap) (n : loc) (mark : option loc) : go heap :=
  match mark with
  | None => mret h
  | Some _ =>
      mk ← load h mark;
      let beforeMark := nprev mk in
      h ← set_prev h mark (Some n);
      h ← set_next h (Some n) mark;
      match beforeMark with
      | None => mret h
      | Some _ =>
          h ← set_prev h (Some n) beforeMark;
          set_next h beforeMark (Some n)
      end
  end.

(** [length]: the walk ends because a list built by [makeLinkedEntries] is
    acyclic; the number of nodes of the heap is enough fuel. *)
Fixpoint length_loop (fuel : nat) (h : heap) (n : option loc) (l : Z) : go Z :=
  match n with
  | None => mret l
  | Some _ =>
      match fuel with
      | O => NoFuel
      | S fuel => nd ← load h n; length_loop fuel h (nnext nd) (l + 1)
      end
  end.
Definition length (h : heap) (n : option loc) : go Z := length_loop (size h) h n 0.

(** Nodes are allocated at increasing addresses; the state is the heap, the
    root and the map from an id to its return node. *)
Definition linkEntry (elem : entry V) (st : heap * option loc * gmap Z loc)
    : go (heap * option loc * gmap Z loc) :=
  let '(h, root, mtch) := st in
  let fresh := size h in
  match kind elem with
  | returnEntry =>
      let h := <[fresh := mkNode _ (Some (value elem)) None (id elem) None None]> h in
      let mtch := <[id elem := fresh]> mtch in
      h ← insertBefore h fresh root;
      mret (h, Some fresh, mtch)
  | callEntry =>
      let h := <[fresh := mkNode _ (Some (value elem)) (mtch !! id elem) (id elem) None None]> h in
      h ← insertBefore h fresh root;
      mret (h, Some fresh, mtch)
  end.

(** The loop runs from the last entry to the first. *)
Fixpoint makeLinkedEntries (entries : list (entry V)) : go (heap * option loc * gmap Z loc) :=
  match entries with
  | [] => mret (∅, None, ∅)
  | elem :: rest => st ← makeLinkedEntries rest; linkEntry elem st
  end.

Definition lift (h : heap) (e : loc) : go heap :=
  en ← load h (Some e);
  h ← set_next h (nprev en) (nnext en);
  h ← set_prev h (nnext en) (nprev en);
  m ← deref (nmatch en);
  mn ← load h (Some m);
  h ← set_next h (nprev mn) (nnext mn);
  match nnext mn with
  | None => mret h
  | Some _ => set_prev h (nnext mn) (nprev mn)
  end.

Definition unlift (h : heap) (e : loc) : go heap :=
  en ← load h (Some e);
  m ← deref (nmatch en);
  mn ← load h (Some m);
  h ← set_next h (nprev mn) (Some m);
  h ← match nnext mn with
      | None => mret h
      | Some _ => set_prev h (nnext mn) (Some m)
      end;
  en ← load h (Some e);
  h ← set_next h (nprev en) (Some e);
  set_prev h (nnext en) (Some e).
End heap.

(** ** The search *)
Record cacheEntry {St} := mkCacheEntry { ce_linearized : bitset; ce_state : St }.
Record callsEntry {St} := mkCallsEntry { cl_entry : loc; cl_state : St }.
Arguments cacheEntry : clear implicits.
Arguments callsEntry : clear implicits.

(** A [*[]int] of [longest]: the address is the number of the backtracking
    step that allocated it, so that two pointers are equal exactly when they
    point to the same slice. *)
Abbreviation seqPtr := (nat * list Z)%type.

Record search {V St} := mkSearch {
  sr_heap : gmap loc (node V);
  sr_entry : option loc;
  sr_state : St;
  sr_linearized : bitset;
  sr_cache : gmap Z (list (cacheEntry St));
  sr_calls : list (callsEntry St);     (* the last element is the top *)
  sr_longest : list (option seqPtr);
  sr_allocs : nat }.
Arguments search : clear implicits.

Inductive CheckResult := Unknown | Ok | Illegal.

Section search.
Context {V St : Type}.
Abbreviation heap := (gmap loc (node V)).
Abbreviation cacheEntry := (cacheEntry St).
Abbreviation callsEntry := (callsEntry St).
Abbreviation search := (search V St).

Definition cacheContains (equal : St → St → bool) (cache : gmap Z (list cacheEntry))
    (e : cacheEntry) : bool :=
  existsb (λ elem, equals (ce_linearized e) (ce_linearized elem)
                   && equal (ce_state e) (ce_state elem))
    (default [] (cache !! hash (ce_linearized e))).

Definition call_ids (h : heap) (calls : list callsEntry) : go (list Z) :=
  mapM (λ v, n ← load h (Some (cl_entry v)); mret (nid n)) calls.

(** The loop over [calls] that records the current prefix in [longest]. *)
Fixpoint record_longest (h : heap) (callsLen : nat) (ptr : seqPtr) (calls : list callsEntry)
    (longest : list (option seqPtr)) : go (list (option seqPtr)) :=
  match calls with
  | [] => mret longest
  | v :: rest =>
      n ← load h (Some (cl_entry v));
      old ← index longest (nid n);
      let better := match old with
        | None => true
        | Some (_, seq) => bool_decide (List.length seq < callsLen)%nat
        end in
      longest ← (if better then store longest (nid n) (Some ptr) else mret longest);
      record_longest h callsLen ptr rest longest
  end.

Section run.
Context (Step : St → V → V → go (bool * St)) (equal : St → St → bool).
Context (computePartial : bool) (headEntry : loc) (n : Z).

(** The body of the [if entry.match != nil] branch. *)
Definition try_call (st : search) (e : loc) (en : node V) (m : loc) : go search :=
  let skip := mkSearch _ _ (sr_heap st) (nnext en) (sr_state st) (sr_linearized st)
                (sr_cache st) (sr_calls st) (sr_longest st) (sr_allocs st) in
  matching ← load (sr_heap st) (Some m);
  input ← deref (nvalue en);
  output ← deref (nvalue matching);
  r ← Step (sr_state st) input output;
  let '(ok, newState) := (r : bool * St) in
  if negb ok then mret skip else
  newLinearized ← set (clone (sr_linearized st)) (nid en);
  let newCacheEntry := mkCacheEntry _ newLinearized newState in
  if cacheContains equal (sr_cache st) newCacheEntry then mret skip else
  let hash := hash newLinearized in
  let cache := <[hash := default [] (sr_cache st !! hash) ++ [newCacheEntry]]> (sr_cache st) in
  let calls := sr_calls st ++ [mkCallsEntry _ e (sr_state st)] in
  linearized ← set (sr_linearized st) (nid en);
  h ← lift (sr_heap st) e;
  hd ← load h (Some headEntry);
  mret (mkSearch _ _ h (nnext hd) newState linearized cache calls (sr_longest st) (sr_allocs st)).

(** The branch of a return entry: record the prefix and backtrack. [inr]
    is the [return false] of an empty stack. *)
Definition backtrack (st : search) : go (search + bool * list (option seqPtr)) :=
  match last (sr_calls st) with
  | None => mret (inr (false, sr_longest st))
  | Some callsTop =>
      longest ← (if computePartial then
          seq ← call_ids (sr_heap st) (sr_calls st);
          record_longest (sr_heap st) (List.length (sr_calls st)) (sr_allocs st, seq)
            (sr_calls st) (sr_longest st)
        else mret (sr_longest st));
      let e := cl_entry callsTop in
      en ← load (sr_heap st) (Some e);
      linearized ← clear (sr_linearized st) (nid en);
      let calls := take (List.length (sr_calls st) - 1) (sr_calls st) in
      h ← unlift (sr_heap st) e;
      en ← load h (Some e);
      mret (inl (mkSearch _ _ h (nnext en) (cl_state callsTop) linearized (sr_cache st) calls
                  longest (S (sr_allocs st))))
  end.

(** One evaluation of the loop condition and of the body. [killed] is the
    value read from [kill]. *)
Definition search_step (killed : bool) (st : search)
    : go (search + bool * list (option seqPtr)) :=
  hd ← load (sr_heap st) (Some headEntry);
  match nnext hd with
  | None =>
      seq ← call_ids (sr_heap st) (sr_calls st);
      mret (inr (true, replicate (Z.to_nat n) (Some (sr_allocs st, seq))
                       ++ drop (Z.to_nat n) (sr_longest st)))
  | Some _ =>
      if killed then mret (inr (false, sr_longest st)) else
      e ← deref (sr_entry st);
      en ← load (sr_heap st) (Some e);
      match nmatch en with
      | Some m => st' ← try_call st e en m; mret (inl st')
      | None => backtrack st
      end
  end.

Fixpoint search_loop (fuel : nat) (kill : nat → bool) (st : search)
    : go (bool * list (option seqPtr)) :=
  match fuel with
  | O => NoFuel
  | S fuel =>
      r ← search_step (kill O) st;
      match r with
      | inl st' => search_loop fuel (λ i, kill (S i)) st'
      | inr res => mret res
      end
  end.
End run.

(** [kill i] is what the [i]-th iteration reads from the shared flag. *)
Definition checkSingle (fuel : nat) (model : Model V St) (history : list (entry V))
    (computePartial : bool) (kill : nat → bool) : go (bool * list (option seqPtr)) :=
  equal ← deref (Equal model);
  linked ← makeLinkedEntries history;
  let '(h, ent, _) := linked in
  len ← length h ent;
  let n := Z.quot len 2 in
  let linearized := newBitset n in
  let longest := replicate (Z.to_nat n) (None : option seqPtr) in
  let headEntry := size h in
  let h := <[headEntry := mkNode _ None None (-1) None None]> h in
  h ← insertBefore h headEntry ent;
  search_loop (Step model) equal computePartial headEntry n fuel kill
    (mkSearch _ _ h ent (Init model) linearized ∅ [] longest O).

(** ** The parallel driver

    One goroutine per partition sends the result of [checkSingle] on a
    buffered channel; the select loop receives results in the order of
    arrival, or the timer.  [arrivals] is that order: [Some i] the result of
    partition [i], [None] the timer.  An exhausted list of arrivals is a
    select that waits for ever. *)
Fixpoint select_loop (total : nat) (computeInfo : bool) (res : nat → bool)
    (arrivals : list (option nat)) (count : nat) (ok : bool) : go (bool * bool) :=
  match arrivals with
  | [] => Blocked
  | Some i :: rest =>
      let count := S count in
      let ok := ok && res i in
      if negb ok && negb computeInfo then mret (ok, false)
      else if decide (total ≤ count)%nat then mret (ok, false)
      else select_loop total computeInfo res rest count ok
  | None :: _ => mret (ok, true)
  end.

(** [checkParallel] without the visualization data: the outcome of the
    goroutines, started with a flag that is still zero, and the select. *)
Definition checkParallel (fuel : nat) (model : Model V St) (history : list (list (entry V)))
    (computeInfo : bool) (arrivals : list (option nat)) : go CheckResult :=
  results ← mapM (λ sub, checkSingle fuel model sub computeInfo (λ _, false)) history;
  r ← select_loop (List.length history) computeInfo
        (λ i, match results !! i with Some (ok, _) => ok | None => false end)
        arrivals O true;
  let '(ok, timedOut) := (r : bool * bool) in
  mret (if negb ok then Illegal else if (timedOut : bool) then Unknown else Ok).
End search.

(** ** porcupine.go *)
Section porcupine.
Context {V St : Type} `{EqDecision St} (showV : V → string) (showS : St → string).
Context (sort : ∀ A, (A → A → bool) → list A → list A).

Definition checkOperations (fuel : nat) (model : Model V St) (history : list (Operation V))
    (verbose : bool) (arrivals : list (option nat)) : go CheckResult :=
  let model := fillDefault showV showS model in
  partition ← deref (Partition model);
  partitions ← partition history;
  checkParallel fuel model (makeEntries sort <$> partitions) verbose arrivals.

Definition checkEvents (fuel : nat) (model : Model V St) (history : list (Event V))
    (verbose : bool) (arrivals : list (option nat)) : go CheckResult :=
  let model := fillDefault showV showS model in
  partition ← deref (PartitionEvent model);
  partitions ← partition history;
  checkParallel fuel model ((λ sub, convertEntries (renumber sub)) <$> partitions)
    verbose arrivals.

Definition is_Ok (r : CheckResult) : bool := match r with Ok => true | _ => false end.

(** A zero timeout never fires: no arrival of these is the timer. *)
Definition CheckOperations fuel model history (arrivals : list nat) : go bool :=
  is_Ok <$> checkOperations fuel model history false (Some <$> arrivals).
Definition CheckOperationsTimeout fuel model history arrivals : go CheckResult :=
  checkOperations fuel model history false arrivals.
Definition CheckOperationsVerbose fuel model history arrivals : go CheckResult :=
  checkOperations fuel model history true arrivals.
Definition CheckEvents fuel model history (arrivals : list nat) : go bool :=
  is_Ok <$> checkEvents fuel model history false (Some <$> arrivals).
Definition CheckEventsTimeout fuel model history arrivals : go CheckResult :=
  checkEvents fuel model history false arrivals.
Definition CheckEventsVerbose fuel model history arrivals : go CheckResult :=
  checkEvents fuel model history true arrivals.
End porcupine.
