(* ===== verification/Linearize.v ===== *)
(** * Linearize: what the checker decides

    The declarative notion (an order of the operations that respects real time
    and is accepted by the sequential model) and its equivalent by removal of a
    minimal operation, which is how a search explores it. *)
From S2P Require Import Prelude Bitset Checker.

Section linearize.
Context {V St : Type} (Step : St → V → V → go (bool * St)).
Implicit Types (L A B D : list (entry V)) (c r : entry V) (s : St) (σ : list Z).

(** The return of [i] comes before the call of [j] in the history. *)
Definition real_time (L : list (entry V)) (i j : Z) : Prop :=
  ∃ r c, before L r c ∧ kind r = returnEntry ∧ id r = i ∧ kind c = callEntry ∧ id c = j.

Definition call_of (L : list (entry V)) (i : Z) (v : V) : Prop :=
  ∃ c, c ∈ L ∧ kind c = callEntry ∧ id c = i ∧ value c = v.
Definition return_of (L : list (entry V)) (i : Z) (v : V) : Prop :=
  ∃ r, r ∈ L ∧ kind r = returnEntry ∧ id r = i ∧ value r = v.

(** The sequential model accepts the operations in the order [σ]. *)
Inductive legal (L : list (entry V)) : St → list Z → Prop :=
| legal_nil s : legal L s []
| legal_cons s i σ s' input output :
    call_of L i input → return_of L i output →
    Step s input output = Ret (true, s') →
    legal L s' σ → legal L s (i :: σ).

Definition ids (L : list (entry V)) : list Z :=
  id <$> filter (λ e, kind e = callEntry) L.

Definition linearizable (s : St) (L : list (entry V)) : Prop :=
  ∃ σ, σ ≡ₚ ids L ∧ (∀ i j, real_time L i j → before σ i j) ∧ legal L s σ.

(** A history in which every operation is called once, then returns once. *)
Record wf_history (L : list (entry V)) : Prop := {
  wh_unique : NoDup ((λ e, (kind e, id e)) <$> L);
  wh_return c : c ∈ L → kind c = callEntry →
    ∃ r, before L c r ∧ kind r = returnEntry ∧ id r = id c;
  wh_call r : r ∈ L → kind r = returnEntry →
    ∃ c, before L c r ∧ kind c = callEntry ∧ id c = id r }.

(** Removal of a minimal operation: no return stands before its call. *)
Inductive removal : list (entry V) → entry V → entry V → list (entry V) → Prop :=
| removal_intro A c B r D :
    Forall (λ e, kind e = callEntry) A → kind c = callEntry →
    kind r = returnEntry → id r = id c →
    removal (A ++ c :: B ++ r :: D) c r (A ++ B ++ D).

Inductive lin : St → list (entry V) → Prop :=
| lin_nil s : lin s []
| lin_step s L c r L' s' :
    removal L c r L' → Step s (value c) (value r) = Ret (true, s') →
    lin s' L' → lin s L.

(** ** Structure of well-formed histories *)
Abbreviation key := (λ e : entry V, (kind e, id e)).

Lemma key_inj L c c' :
  NoDup (key <$> L) → c ∈ L → c' ∈ L → kind c = kind c' → id c = id c' → c = c'.
Proof.
  intros HN Hc Hc' Hk Hi. revert HN Hc Hc'.
  induction L as [|e L IH]; [set_solver|]. rewrite fmap_cons, NoDup_cons.
  intros [He HN] [->|Hc]%elem_of_cons [->|Hc']%elem_of_cons; auto.
  - exfalso. apply He. apply list_elem_of_fmap. exists c'. split; [congruence|done].
  - exfalso. apply He. apply list_elem_of_fmap. exists c. split; [congruence|done].
Qed.

Lemma wf_NoDup L : wf_history L → NoDup L.
Proof. intros Hwf. eapply NoDup_fmap_1, wh_unique, Hwf. Qed.

Lemma removal_sublist L c r L' : removal L c r L' → L' `sublist_of` L.
Proof.
  destruct 1 as [A c B r D]. apply sublist_app; [done|]. apply sublist_cons.
  apply sublist_app; [done|]. by apply sublist_cons.
Qed.

Lemma removal_perm L c r L' : removal L c r L' → L ≡ₚ c :: r :: L'.
Proof. destruct 1. solve_Permutation. Qed.

Lemma removal_elem L c r L' e : removal L c r L' → e ∈ L → e = c ∨ e = r ∨ e ∈ L'.
Proof. intros HR. rewrite (removal_perm _ _ _ _ HR), !elem_of_cons. done. Qed.

Lemma removal_kinds L c r L' :
  removal L c r L' → kind c = callEntry ∧ kind r = returnEntry ∧ id r = id c.
Proof. by destruct 1. Qed.

Lemma removal_fresh L c r L' e : wf_history L → removal L c r L' → e ∈ L' → id e ≠ id c.
Proof.
  intros Hwf HR He Heq. pose proof (wf_NoDup _ Hwf) as HN.
  assert (e ∈ L) as HeL by (eapply elem_of_sublist; eauto using removal_sublist).
  destruct (removal_kinds _ _ _ _ HR) as (Hkc & Hkr & Hid).
  pose proof (removal_perm _ _ _ _ HR) as HP.
  assert (c ∈ L ∧ r ∈ L) as [Hc Hr] by (rewrite HP; set_solver).
  rewrite HP, !NoDup_cons in HN. destruct (kind e) eqn:Hk.
  - assert (e = c) as -> by (eapply key_inj; eauto using wh_unique; congruence). set_solver.
  - assert (e = r) as -> by (eapply key_inj; eauto using wh_unique; congruence). set_solver.
Qed.

Lemma removal_other L c r L' e : removal L c r L' → e ∈ L → id e ≠ id c → e ∈ L'.
Proof.
  intros HR He Hne. destruct (removal_kinds _ _ _ _ HR) as (_ & _ & Hid).
  rewrite (removal_perm _ _ _ _ HR) in He. set_solver.
Qed.

Lemma removal_wf L c r L' : wf_history L → removal L c r L' → wf_history L'.
Proof.
  intros Hwf HR. pose proof (removal_sublist _ _ _ _ HR) as Hs. split.
  - eapply sublist_NoDup; [apply (wh_unique L Hwf)|]. by apply fmap_sublist.
  - intros e He Hk. pose proof (removal_fresh _ _ _ _ _ Hwf HR He).
    destruct (wh_return L Hwf e) as (r' & Hb & ? & Hi); [by eapply elem_of_sublist|done|].
    exists r'. split; [|done]. eapply before_restrict; eauto using wf_NoDup.
    eapply removal_other; eauto using before_r. congruence.
  - intros e He Hk. pose proof (removal_fresh _ _ _ _ _ Hwf HR He).
    destruct (wh_call L Hwf e) as (r' & Hb & ? & Hi); [by eapply elem_of_sublist|done|].
    exists r'. split; [|done]. eapply before_restrict; eauto using wf_NoDup.
    eapply removal_other; eauto using before_l. congruence.
Qed.

Lemma removal_minimal L c r L' e :
  NoDup L → removal L c r L' → before L e c → kind e = callEntry.
Proof.
  intros HN HR Hb. destruct HR as [A c B r D HA]. rewrite Forall_forall in HA. apply HA.
  assert (e ∈ A ++ c :: B ++ r :: D) as He by (by eapply before_l).
  rewrite elem_of_app in He. destruct He as [?|He]; [done|].
  exfalso. eapply before_asym; [exact HN|exact Hb|]. apply before_app_l, before_cons.
  left. split; [done|]. apply elem_of_cons in He as [->|]; [|done].
  exfalso. by eapply before_asym.
Qed.

Lemma elem_of_ids L i : i ∈ ids L ↔ ∃ c, c ∈ L ∧ kind c = callEntry ∧ id c = i.
Proof. unfold ids. rewrite list_elem_of_fmap. setoid_rewrite list_elem_of_filter. naive_solver. Qed.

Lemma ids_removal L c r L' : removal L c r L' → ids L ≡ₚ id c :: ids L'.
Proof.
  intros HR. destruct (removal_kinds _ _ _ _ HR) as (Hkc & Hkr & _).
  unfold ids. rewrite (removal_perm _ _ _ _ HR), !filter_cons, Hkc, Hkr.
  rewrite decide_True, decide_False by done. done.
Qed.

Lemma legal_mono L L' s σ : L' ⊆ L → legal L' s σ → legal L s σ.
Proof.
  intros Hs. induction 1 as [|s i σ s' input output (c & ?) (r & ?)]; [constructor|].
  econstructor; eauto; [exists c|exists r]; set_solver.
Qed.

Lemma lin_linearizable s L : lin s L → wf_history L → linearizable s L.
Proof.
  induction 1 as [s|s L c r L' s' HR Hstep _ IH]; intros Hwf.
  { exists []. split_and!; [done| |constructor].
    intros i j (r & c & Hb & _). by apply before_l, elem_of_nil in Hb. }
  destruct IH as (σ & HP & Hrt & Hl); [eauto using removal_wf|].
  destruct (removal_kinds _ _ _ _ HR) as (Hkc & Hkr & Hid).
  pose proof (removal_perm _ _ _ _ HR) as HPL.
  assert (L' ⊆ L) as HL' by (intros e; rewrite HPL; set_solver).
  exists (id c :: σ). split_and!.
  - by rewrite (ids_removal _ _ _ _ HR), HP.
  - intros i j (r0 & c0 & Hb & Hk0 & <- & Hk1 & <-).
    assert (c0 ≠ c).
    { intros ->. apply (removal_minimal _ _ _ _ _ (wf_NoDup _ Hwf) HR) in Hb. congruence. }
    assert (c0 ∈ L') as Hc0.
    { apply before_r, (removal_elem _ _ _ _ _ HR) in Hb. naive_solver congruence. }
    apply before_cons.
    destruct (removal_elem _ _ _ _ _ HR (before_l _ _ _ Hb)) as [->|[->|Hr0]]; [congruence|..].
    + left. split; [congruence|]. rewrite HP. apply elem_of_ids. eauto.
    + right. apply Hrt. exists r0, c0. split_and!; [|done..].
      eapply before_restrict; eauto using wf_NoDup, removal_sublist.
  - econstructor; [..|by eapply legal_mono].
    + exists c. split_and!; [rewrite HPL; set_solver|done..].
    + exists r. split_and!; [rewrite HPL; set_solver|done..].
    + done.
Qed.

(** The first operation of a linearization can be removed. *)
Lemma first_removal L i σ c :
  wf_history L → NoDup (i :: σ) → (∀ i' j, real_time L i' j → before (i :: σ) i' j) →
  c ∈ L → kind c = callEntry → id c = i → ∃ r L', removal L c r L'.
Proof.
  intros Hwf HN Hrt Hc Hkc Hid.
  destruct (wh_return L Hwf c Hc Hkc) as (r & (A & B & -> & Hr) & Hkr & Hir).
  apply list_elem_of_split in Hr as (B1 & D & ->).
  exists r, (A ++ B1 ++ D). constructor; [|done..].
  apply Forall_forall. intros e He. destruct (kind e) eqn:Hke; [done|exfalso].
  assert (before (i :: σ) (id e) i) as Hb.
  { apply Hrt. exists e, c. split_and!; [|done..].
    apply list_elem_of_split in He as (A1 & A2 & ->).
    rewrite <-app_assoc. exists A1, (A2 ++ c :: B1 ++ r :: D). split; [done|set_solver]. }
  apply NoDup_cons in HN as [HN _]. apply before_cons in Hb as [[_ ?]|Hb%before_r]; done.
Qed.

Lemma linearizable_lin s L : linearizable s L → wf_history L → lin s L.
Proof.
  intros (σ & HP & Hrt & Hl). revert s L HP Hrt Hl.
  induction σ as [|i σ IH]; intros s L HP Hrt Hl Hwf.
  { destruct L as [|e L]; [constructor|exfalso].
    assert (∃ c, c ∈ e :: L ∧ kind c = callEntry) as (c & Hc & Hk).
    { destruct (kind e) eqn:He; [exists e; set_solver|].
      destruct (wh_call _ Hwf e) as (c & Hb & ? & _); [set_solver|done|].
      exists c. eauto using before_l. }
    assert (id c ∈ ids (e :: L)) as Hin by (apply elem_of_ids; eauto).
    rewrite <-HP in Hin. set_solver. }
  inversion Hl as [|? ? ? s' input output Hcall Hret Hstep Hl']; subst.
  assert (NoDup (i :: σ)) as HN.
  { rewrite HP. unfold ids.
    pose proof (wh_unique L Hwf) as HU.
    assert (NoDup (key <$> filter (λ e, kind e = callEntry) L)) as HF.
    { eapply sublist_NoDup; [exact HU|]. apply fmap_sublist, sublist_filter. }
    apply NoDup_fmap_2_strong; [|by eapply NoDup_fmap_1].
    intros x y [Hkx Hx]%list_elem_of_filter [Hky Hy]%list_elem_of_filter Hxy.
    apply (key_inj L); [by apply wh_unique|done..|congruence|done]. }
  destruct Hcall as (c & Hc & Hkc & Hic & <-).
  destruct (first_removal L i σ c) as (r & L' & HR); [done..|].
  destruct (removal_kinds _ _ _ _ HR) as (_ & Hkr & Hir).
  assert (r ∈ L) as HrL by (rewrite (removal_perm _ _ _ _ HR); set_solver).
  destruct Hret as (r' & Hr' & Hkr' & Hir' & <-).
  assert (r' = r) as -> by (apply (key_inj L); [by apply wh_unique|done|done|congruence|congruence]).
  eapply lin_step; [exact HR|exact Hstep|]. apply IH; [| | |by eapply removal_wf].
  - rewrite (ids_removal _ _ _ _ HR), Hic in HP. by eapply Permutation_cons_inv.
  - intros a b (r1 & c1 & Hb & Hk1 & <- & Hk2 & <-).
    pose proof (removal_fresh _ _ _ _ _ Hwf HR (before_l _ _ _ Hb)).
    assert (before (i :: σ) (id r1) (id c1)) as Hb'.
    { apply Hrt. exists r1, c1. split_and!; [|done..].
      eapply before_sublist; [by eapply removal_sublist|done]. }
    apply before_cons in Hb' as [[? _]|?]; [congruence|done].
  - apply NoDup_cons in HN as [HN _]. clear -Hl' HR HN Hic.
    revert HN. induction Hl' as [|s j σ s' inp out (c1 & ? & ? & ? & ?) (r1 & ? & ? & ? & ?) Hs _ IH];
      intros HN; [constructor|].
    apply not_elem_of_cons in HN as [Hne HN].
    econstructor; [exists c1|exists r1|exact Hs|by apply IH].
    + split_and!; [eapply removal_other; [exact HR|done|congruence]|done..].
    + split_and!; [eapply removal_other; [exact HR|done|congruence]|done..].
Qed.

Lemma lin_iff s L : wf_history L → lin s L ↔ linearizable s L.
Proof. split; intros; [by apply lin_linearizable|by apply linearizable_lin]. Qed.
End linearize.
