(* ===== verification/LinkedList.v ===== *)
(** * LinkedList: the doubly linked list of the checker

    A heap predicate for list segments, the effect of [insertBefore],
    [lift] and [unlift] on it, and the list that [makeLinkedEntries] builds.
    [unlift] after [lift] restores the heap itself, since a removed node keeps
    its own pointers. *)
From S2P Require Import Prelude Bitset Checker.

Section seg.
Context {V : Type}.
Abbreviation heap := (gmap loc (node V)).
Implicit Types (h : heap) (L A B D : list loc) (p q : option loc) (x y a : loc).

Definition hd_or (L : list loc) (q : option loc) : option loc :=
  match L with [] => q | x :: _ => Some x end.
Fixpoint last_or (p : option loc) (L : list loc) : option loc :=
  match L with [] => p | x :: L' => last_or (Some x) L' end.

(** [L] is linked in [h], from a predecessor [p] to a successor [q]. *)
Fixpoint seg h p L q : Prop :=
  match L with
  | [] => True
  | x :: L' => ∃ n, h !! x = Some n ∧ nprev n = p ∧ nnext n = hd_or L' q ∧ seg h (Some x) L' q
  end.

Lemma load_Some h l nd : h !! l = Some nd → load h (Some l) = Ret nd.
Proof. intros Hl. unfold load. simpl. by rewrite Hl. Qed.

Lemma seg_app h p A B q :
  seg h p (A ++ B) q ↔ seg h p A (hd_or B q) ∧ seg h (last_or p A) B q.
Proof.
  revert p. induction A as [|x A IH]; intros p; simpl; [tauto|].
  setoid_rewrite IH. assert (hd_or (A ++ B) q = hd_or A (hd_or B q)) as -> by by destruct A.
  naive_solver.
Qed.

Lemma seg_frame h h' p L q : (∀ x, x ∈ L → h' !! x = h !! x) → seg h p L q → seg h' p L q.
Proof.
  revert p. induction L as [|x L IH]; intros p Hf; simpl; [done|].
  intros (n & Hn & ? & ? & ?). exists n. rewrite Hf by set_solver. split_and!; auto.
  apply IH; [|done]. set_solver.
Qed.

Lemma seg_lookup h p A x B q :
  seg h p (A ++ x :: B) q →
  ∃ n, h !! x = Some n ∧ nprev n = last_or p A ∧ nnext n = hd_or B q.
Proof. rewrite seg_app. intros [_ (n & ? & ? & ? & _)]. eauto. Qed.

Lemma last_or_snoc p A a : last_or p (A ++ [a]) = Some a.
Proof. revert p. induction A; simpl; auto. Qed.

Definition static (n : node V) : option V * option loc * Z := (nvalue n, nmatch n, nid n).
Definition same_static h h' : Prop := ∀ l, static <$> h' !! l = static <$> h !! l.

Lemma static_insert h x n f :
  h !! x = Some n → static (f n) = static n → same_static h (<[x := f n]> h).
Proof.
  intros Hx Hf l. destruct (decide (l = x)) as [->|].
  - rewrite lookup_insert_eq, Hx. simpl. by rewrite Hf.
  - by rewrite lookup_insert_ne by done.
Qed.
Lemma static_trans h1 h2 h3 : same_static h1 h2 → same_static h2 h3 → same_static h1 h3.
Proof. intros H1 H2 l. by rewrite H2. Qed.

(** ** Removal and restoration of one node *)
Definition unlink h x : go heap :=
  n ← load h (Some x);
  h ← set_next h (nprev n) (nnext n);
  match nnext n with None => mret h | Some _ => set_prev h (nnext n) (nprev n) end.
Definition relink h x : go heap :=
  n ← load h (Some x);
  h ← set_next h (nprev n) (Some x);
  match nnext n with None => mret h | Some _ => set_prev h (nnext n) (Some x) end.

Lemma unlink_last h A a x :
  NoDup (A ++ [a; x]) → seg h None (A ++ [a; x]) None →
  ∃ h', unlink h x = Ret h' ∧ seg h' None (A ++ [a]) None ∧ same_static h h' ∧
    (∀ y, y ∉ A ++ [a] → h' !! y = h !! y) ∧ relink h' x = Ret h.
Proof.
  intros HN Hs. apply seg_app in Hs as [HA (na & Ha & Hpa & Hna & nx & Hx & Hpx & Hnx & _)].
  simpl in *. assert (a ≠ x) by (apply NoDup_app in HN; set_solver).
  unfold unlink, load. simpl. rewrite Hx. simpl. rewrite Hpx, Hnx. unfold set_next. simpl.
  rewrite Ha. simpl. eexists. split; [done|]. split_and!.
  - apply seg_app. split.
    + eapply seg_frame; [|exact HA]. intros y Hy. rewrite lookup_insert_ne; [done|].
      apply NoDup_app in HN. set_solver.
    + exists (with_next None na). rewrite lookup_insert_eq. done.
  - apply (static_insert _ _ _ (with_next None)); done.
  - intros y Hy. rewrite lookup_insert_ne; [done|]. set_solver.
  - unfold relink, load. simpl. rewrite lookup_insert_ne, Hx by done. simpl.
    rewrite Hpx, Hnx. unfold set_next. simpl. rewrite lookup_insert_eq. simpl.
    rewrite insert_insert_eq, insert_id; [done|]. rewrite Ha. f_equal.
    destruct na; unfold with_next; simpl in *; congruence.
Qed.

Lemma unlink_inner h A a x d D :
  NoDup (A ++ a :: x :: d :: D) → seg h None (A ++ a :: x :: d :: D) None →
  ∃ h', unlink h x = Ret h' ∧ seg h' None (A ++ a :: d :: D) None ∧ same_static h h' ∧
    (∀ y, y ∉ A ++ a :: d :: D → h' !! y = h !! y) ∧ relink h' x = Ret h.
Proof.
  intros HN Hs.
  apply seg_app in Hs as [HA (na & Ha & Hpa & Hna & nx & Hx & Hpx & Hnx & nd & Hd & Hpd & Hnd & HD)].
  simpl in *. apply NoDup_app in HN as (_ & HAd & HN). rewrite !NoDup_cons in HN.
  assert (a ≠ x ∧ a ≠ d ∧ x ≠ d) as (? & ? & ?) by set_solver.
  unfold unlink, load. simpl. rewrite Hx. simpl. rewrite Hpx, Hnx. unfold set_next. simpl.
  rewrite Ha. simpl. unfold set_prev. simpl. rewrite lookup_insert_ne, Hd by done. simpl.
  eexists. split; [done|]. split_and!.
  - apply seg_app. split; [|exists (with_next (Some d) na); split_and!; [..|exists (with_prev (Some a) nd)]].
    + eapply seg_frame; [|exact HA]. intros y Hy. rewrite !lookup_insert_ne; set_solver.
    + by rewrite lookup_insert_ne, lookup_insert_eq.
    + done.
    + done.
    + rewrite lookup_insert_eq. split_and!; [done..|]. eapply seg_frame; [|exact HD].
      intros y Hy. rewrite !lookup_insert_ne; set_solver.
  - eapply static_trans; [apply (static_insert _ _ _ (with_next (Some d)) Ha); done|].
    apply (static_insert _ _ _ (with_prev (Some a))); [|done]. by rewrite lookup_insert_ne.
  - intros y Hy. rewrite !lookup_insert_ne; set_solver.
  - unfold relink, load. simpl. rewrite !lookup_insert_ne, Hx by done. simpl.
    rewrite Hpx, Hnx. unfold set_next. simpl. rewrite lookup_insert_ne, lookup_insert_eq by done.
    simpl. unfold set_prev. simpl. rewrite lookup_insert_ne, lookup_insert_eq by done. simpl.
    f_equal. apply map_eq. intros y. rewrite !lookup_insert. repeat case_decide; subst; try done.
    + rewrite Hd. f_equal. destruct nd; unfold with_prev; simpl in *; congruence.
    + rewrite Ha. f_equal. destruct na; unfold with_next; simpl in *; congruence.
Qed.

Lemma unlink_spec h A a x D :
  NoDup (A ++ a :: x :: D) → seg h None (A ++ a :: x :: D) None →
  ∃ h', unlink h x = Ret h' ∧ seg h' None (A ++ a :: D) None ∧ same_static h h' ∧
    (∀ y, y ∉ A ++ a :: D → h' !! y = h !! y) ∧ relink h' x = Ret h.
Proof. destruct D; [apply unlink_last|apply unlink_inner]. Qed.

Lemma unlink_after h A a B m D :
  NoDup (A ++ a :: B ++ m :: D) → seg h None (A ++ a :: B ++ m :: D) None →
  ∃ h', unlink h m = Ret h' ∧ seg h' None (A ++ a :: B ++ D) None ∧ same_static h h' ∧
    (∀ y, y ∉ A ++ a :: B ++ D → h' !! y = h !! y) ∧ relink h' m = Ret h.
Proof.
  destruct (exists_last (l := a :: B)) as (B' & b & Hb); [done|].
  assert (∀ L, A ++ a :: B ++ L = (A ++ B') ++ b :: L) as Heq.
  { intros L. change (a :: B ++ L) with ((a :: B) ++ L). by rewrite Hb, <-!app_assoc. }
  rewrite !Heq. apply unlink_spec.
Qed.

Lemma lift_unlink h e en m d :
  h !! e = Some en → nnext en = Some d → nmatch en = Some m →
  lift h e = (h1 ← unlink h e; unlink h1 m).
Proof.
  intros He Hn Hm. unfold lift, unlink, load. simpl. rewrite He. simpl. rewrite Hn, Hm.
  destruct (set_next h (nprev en) (Some d)) as [h1| | | |]; simpl; done.
Qed.

Lemma unlift_relink h e en m :
  h !! e = Some en → nmatch en = Some m →
  (∀ h1 n1, relink h m = Ret h1 → h1 !! e = Some n1 → nnext n1 ≠ None) →
  unlift h e = (h1 ← relink h m; relink h1 e).
Proof.
  intros He Hm Hn. unfold unlift, relink, load in *. simpl in *. rewrite He. simpl. rewrite Hm. simpl.
  destruct (h !! m) as [mn|]; simpl in *; [|done].
  destruct (set_next h (nprev mn) (Some m)) as [h1| | | |]; simpl in *; [|done..].
  destruct (match nnext mn with None => _ | Some _ => _ end) as [h2| | | |]; simpl; [|done..].
  destruct (h2 !! e) as [n1|] eqn:E; simpl; [|done].
  destruct (set_next h2 (nprev n1) (Some e)) as [h3| | | |]; simpl; [|done..].
  specialize (Hn _ _ eq_refl E). by destruct (nnext n1).
Qed.

(** [lift] removes a call and its return; [unlift] is its inverse. *)
Lemma lift_spec h A a e B m D en :
  NoDup (A ++ a :: e :: B ++ m :: D) → seg h None (A ++ a :: e :: B ++ m :: D) None →
  h !! e = Some en → nmatch en = Some m →
  ∃ h', lift h e = Ret h' ∧ seg h' None (A ++ a :: B ++ D) None ∧ same_static h h' ∧
    unlift h' e = Ret h.
Proof.
  intros HN Hs He Hm.
  destruct (unlink_spec h A a e (B ++ m :: D) HN Hs) as (h1 & E1 & Hs1 & St1 & F1 & R1).
  assert (NoDup (A ++ a :: B ++ m :: D) ∧ e ∉ A ++ a :: B ++ m :: D) as [HN1 He1].
  { assert (A ++ a :: e :: B ++ m :: D ≡ₚ e :: A ++ a :: B ++ m :: D) as HP by solve_Permutation.
    rewrite HP, NoDup_cons in HN. tauto. }
  destruct (unlink_after h1 A a B m D HN1 Hs1) as (h2 & E2 & Hs2 & St2 & F2 & R2).
  assert (∃ d, nnext en = Some d) as [d Hd].
  { rewrite cons_middle, app_assoc in Hs.
    destruct (seg_lookup _ _ _ _ _ _ Hs) as (n & Hn & _ & Hd). simplify_eq. rewrite Hd.
    destruct B; simpl; eauto. }
  exists h2. rewrite (lift_unlink _ _ _ _ _ He Hd Hm), E1. simpl.
  split_and!; [done..|by eapply static_trans|].
  assert (h2 !! e = Some en) as He2.
  { rewrite F2, F1; [done|done|]. intros Hin. apply He1. set_solver. }
  rewrite (unlift_relink _ _ _ _ He2 Hm).
  { rewrite R2. exact R1. }
  intros h3 n1 H3 Hn1. rewrite R2 in H3. injection H3 as <-.
  rewrite F1 in Hn1 by done. congruence.
Qed.

Lemma lift_after h x P e B m D en :
  NoDup (x :: P ++ e :: B ++ m :: D) → seg h None (x :: P ++ e :: B ++ m :: D) None →
  h !! e = Some en → nmatch en = Some m →
  ∃ h', lift h e = Ret h' ∧ seg h' None (x :: P ++ B ++ D) None ∧ same_static h h' ∧
    unlift h' e = Ret h.
Proof.
  destruct (exists_last (l := x :: P)) as (A & a & Ha); [done|].
  assert (∀ L, x :: P ++ L = A ++ a :: L) as Heq.
  { intros L. change (x :: P ++ L) with ((x :: P) ++ L). by rewrite Ha, <-app_assoc. }
  rewrite !Heq. apply lift_spec.
Qed.

(** ** insertBefore at the front *)
Lemma insertBefore_seg h L x n0 :
  seg h None L None → h !! x = Some n0 → nnext n0 = None → nprev n0 = None → x ∉ L → NoDup L →
  ∃ h', insertBefore h x (hd_or L None) = Ret h' ∧ seg h' None (x :: L) None ∧
    same_static h h' ∧ (∀ l, is_Some (h' !! l) ↔ is_Some (h !! l)).
Proof.
  intros Hs Hx Hn Hp Hnin HN. destruct L as [|r L].
  { exists h. split_and!; [done| |done|done]. exists n0. done. }
  destruct Hs as (nr & Hr & Hpr & Hnr & Hs). apply not_elem_of_cons in Hnin as [Hxr HxL].
  apply NoDup_cons in HN as [HrL HN].
  unfold insertBefore, load, set_prev, set_next. simpl. rewrite Hr. simpl. rewrite Hpr.
  rewrite ?Hr. simpl. rewrite lookup_insert_ne, Hx by done. simpl.
  eexists. split; [done|]. split_and!.
  - exists (with_next (Some r) n0). rewrite lookup_insert_eq. split_and!; [done..|].
    exists (with_prev (Some x) nr). rewrite lookup_insert_ne, lookup_insert_eq by done.
    split_and!; [done..|]. eapply seg_frame; [|exact Hs].
    intros y Hy. rewrite !lookup_insert_ne by set_solver. done.
  - eapply static_trans; [apply (static_insert _ _ _ (with_prev (Some x)) Hr); done|].
    apply (static_insert _ _ _ (with_next (Some r))); [|done]. by rewrite lookup_insert_ne.
  - intros l. rewrite !lookup_insert_is_Some. split.
    + intros [<-|[_ [<-|[_ ?]]]]; eauto.
    + destruct (decide (x = l)), (decide (r = l)); tauto.
Qed.

(** ** makeLinkedEntries *)
Fixpoint locs (es : list (entry V)) : list loc :=
  match es with [] => [] | _ :: rest => List.length rest :: locs rest end.

Lemma elem_of_locs es l : l ∈ locs es ↔ (l < List.length es)%nat.
Proof.
  induction es as [|e es IH]; simpl; [split; [set_solver|lia]|].
  rewrite elem_of_cons, IH. lia.
Qed.
Lemma NoDup_locs es : NoDup (locs es).
Proof.
  induction es as [|e es IH]; simpl; constructor; [|done]. rewrite elem_of_locs. lia.
Qed.

(** The static part of the node of [e], whose address is its index from the
    end; a call points to a return of the same id if one comes later. *)
Definition node_ok (es : list (entry V)) (l : loc) (e : entry V)
    (st : option V * option loc * Z) : Prop :=
  let '(v, m, i) := st in
  v = Some (value e) ∧ i = id e ∧ (kind e = returnEntry → m = None) ∧
  (kind e = callEntry → (∃ r, r ∈ take l (reverse es) ∧ kind r = returnEntry ∧ id r = id e) →
    ∃ k r, m = Some k ∧ (k < l)%nat ∧ reverse es !! k = Some r ∧
      kind r = returnEntry ∧ id r = id e).

Record linked (es : list (entry V)) (h : heap) (root : option loc) (mtch : gmap Z loc) : Prop := {
  lk_size : size h = List.length es;
  lk_dom l : is_Some (h !! l) ↔ (l < List.length es)%nat;
  lk_seg : seg h None (locs es) None;
  lk_root : root = hd_or (locs es) None;
  lk_node l e : reverse es !! l = Some e → ∃ n, h !! l = Some n ∧ node_ok es l e (static n);
  lk_mtch i k : mtch !! i = Some k →
    ∃ r, reverse es !! k = Some r ∧ kind r = returnEntry ∧ id r = i;
  lk_ret r : r ∈ es → kind r = returnEntry → is_Some (mtch !! id r) }.

Lemma node_ok_cons es e l e0 st :
  (l < List.length es)%nat → node_ok es l e0 st → node_ok (e :: es) l e0 st.
Proof.
  intros Hl. destruct st as [[v m] i]. unfold node_ok. rewrite reverse_cons.
  intros (-> & -> & Hr & Hc). split_and!; [done|done|done|]. intros Hk Hex.
  rewrite take_app_le in Hex by (rewrite length_reverse; lia).
  destruct (Hc Hk Hex) as (k & r & ? & ? & Hk' & ?). exists k, r. split_and!; [done|done| |naive_solver..].
  by apply lookup_app_l_Some.
Qed.

Lemma linkEntry_linked e es h root mtch :
  linked es h root mtch →
  ∃ h' root' mtch', linkEntry e (h, root, mtch) = Ret (h', root', mtch') ∧
    linked (e :: es) h' root' mtch'.
Proof.
  intros HL. destruct (HL) as [Hsz Hdom Hseg Hroot Hnode Hm Hret].
  assert (h !! size h = None) as Hfresh.
  { rewrite eq_None_not_Some, Hdom. lia. }
  pose (mtch' := match kind e with returnEntry => <[id e := size h]> mtch | callEntry => mtch end).
  pose (nm := match kind e with returnEntry => None | callEntry => mtch !! id e end).
  pose (n0 := mkNode V (Some (value e)) nm (id e) None None).
  assert (seg (<[size h := n0]> h) None (locs es) None) as Hseg'.
  { eapply seg_frame; [|exact Hseg]. intros x Hx%elem_of_locs. rewrite lookup_insert_ne; [done|lia]. }
  destruct (insertBefore_seg _ _ (size h) n0 Hseg') as (h' & E & Hs' & Hst & Hd);
    [by rewrite lookup_insert_eq|done|done|rewrite elem_of_locs; lia|apply NoDup_locs|].
  exists h', (Some (size h)), mtch'. split.
  { unfold linkEntry. subst root mtch' n0 nm. destruct (kind e); by rewrite E. }
  assert (∀ l, is_Some (h' !! l) ↔ (l < List.length (e :: es))%nat) as Hdom'.
  { intros l. rewrite Hd, lookup_insert_is_Some', Hdom. simpl. lia. }
  assert (∀ i k, mtch' !! i = Some k →
    ∃ r, reverse (e :: es) !! k = Some r ∧ kind r = returnEntry ∧ id r = i) as Hm'.
  { intros i k Hik. rewrite reverse_cons. subst mtch'. destruct (kind e) eqn:Hk.
    - destruct (Hm _ _ Hik) as (r & ? & ?). exists r. split; [by apply lookup_app_l_Some|done].
    - apply lookup_insert_Some in Hik as [[<- <-]|[_ Hik]].
      + exists e. rewrite lookup_app_r, length_reverse, Hsz, Nat.sub_diag by (rewrite length_reverse; lia). done.
      + destruct (Hm _ _ Hik) as (r & ? & ?). exists r. split; [by apply lookup_app_l_Some|done]. }
  split; [|done|simpl; by rewrite <-Hsz|simpl; by rewrite <-Hsz| |done|].
  - rewrite <-(size_dom h'), (gset_leibniz (dom h') (set_seq 0 (S (size h)))).
    + rewrite size_set_seq. simpl. lia.
    + intros l. rewrite elem_of_dom, Hdom', elem_of_set_seq. simpl. lia.
  - intros l e0. rewrite reverse_cons. intros [Hl|[Hl He0]]%lookup_app_Some.
    + destruct (Hnode _ _ Hl) as (n & Hn & Hok). apply lookup_lt_Some in Hl.
      rewrite length_reverse in Hl.
      specialize (Hst l). rewrite lookup_insert_ne, Hn in Hst by lia. simpl in Hst.
      destruct (h' !! l) as [n'|]; [|done]. exists n'. split; [done|].
      apply (inj Some) in Hst. rewrite Hst. by apply node_ok_cons.
    + rewrite length_reverse in *. destruct (l - List.length es)%nat eqn:El; [|done].
      simpl in He0. injection He0 as <-. assert (l = size h) as -> by lia.
      specialize (Hst (size h)). rewrite lookup_insert_eq in Hst. simpl in Hst.
      destruct (h' !! size h) as [n'|]; [|done]. exists n'. split; [done|].
      apply (inj Some) in Hst. rewrite Hst. unfold node_ok, static. simpl.
      split_and!; [done|done|subst nm; by intros ->|].
      intros Hk (r & Hr & Hkr & Hir). subst nm. rewrite Hk.
      rewrite reverse_cons, take_app_le, Hsz, take_ge in Hr by (rewrite ?length_reverse; lia).
      rewrite elem_of_reverse in Hr.
      destruct (Hret r Hr Hkr) as [k Hk']. rewrite Hir in Hk'.
      destruct (Hm _ _ Hk') as (r' & Hr' & ? & ?). exists k, r'. split_and!; [done| | |done..].
      * apply lookup_lt_Some in Hr'. rewrite length_reverse in Hr'. lia.
      * rewrite reverse_cons. by apply lookup_app_l_Some.
  - intros r Hr Hkr. subst mtch'. apply elem_of_cons in Hr as [->|Hr].
    + rewrite Hkr, lookup_insert_eq. eauto.
    + specialize (Hret r Hr Hkr). destruct (kind e); [done|].
      rewrite lookup_insert_is_Some'. by right.
Qed.

Lemma makeLinkedEntries_linked es :
  ∃ h root mtch, makeLinkedEntries es = Ret (h, root, mtch) ∧ linked es h root mtch.
Proof.
  induction es as [|e es IH]; simpl.
  - exists ∅, None, ∅. split; [done|]. split; try done.
    + intros l. rewrite lookup_empty. split; [by intros []|simpl; lia].
    + intros r Hr. by apply elem_of_nil in Hr.
  - destruct IH as (h & root & mtch & -> & HL). simpl. by apply linkEntry_linked.
Qed.
End seg.
