(* ===== verification/CheckerProof.v ===== *)
(** * CheckerProof: the search decides linearizability

    Total correctness of [checkSingle] on a well-formed history: with enough
    fuel it returns, it returns true exactly on the linearizable histories,
    and the prefixes it records in [longest] are valid.  The proof follows the
    search: the heap represents the entries that are not linearized, the stack
    is a path of removals, and a cached pair that is not on the stack has been
    refuted. *)
From S2P Require Import Prelude Bitset Checker Linearize LinkedList.

Lemma filter_Forall {A} (P : A → Prop) `{∀ x, Decision (P x)} (l : list A) :
  Forall P l → filter P l = l.
Proof.
  induction 1 as [|x l Hx _ IH]; [done|]. rewrite filter_cons, decide_True by done. by rewrite IH.
Qed.

Lemma before_split {A} (l1 l2 : list A) x y :
  NoDup (l1 ++ x :: l2) → before (l1 ++ x :: l2) x y → y ∈ l2.
Proof.
  intros HN Hb. pose proof (before_r _ _ _ Hb) as Hy.
  assert (y ≠ x) by (intros ->; by eapply before_asym).
  apply elem_of_app in Hy as [Hy|Hy]; [|set_solver].
  apply list_elem_of_split in Hy as (a & b & ->).
  exfalso. eapply before_asym; [exact HN|exact Hb|].
  rewrite <-app_assoc. apply before_app_l, before_cons. left. set_solver.
Qed.

Section wf.
Context {V : Type}.
Implicit Types (L : list (entry V)).

Lemma wf_filter_id L (P : Z → Prop) `{∀ i, Decision (P i)} :
  wf_history L → wf_history (filter (λ e, P (id e)) L).
Proof.
  intros Hwf. pose proof (sublist_filter (λ e, P (id e)) L) as Hs. split.
  - eapply sublist_NoDup; [apply (wh_unique L Hwf)|]. by apply fmap_sublist.
  - intros e [HP He]%list_elem_of_filter Hk.
    destruct (wh_return L Hwf e He Hk) as (r & Hb & ? & Hi). exists r. split; [|done].
    eapply before_restrict; eauto using wf_NoDup; apply list_elem_of_filter; [done|].
    rewrite Hi. eauto using before_r.
  - intros e [HP He]%list_elem_of_filter Hk.
    destruct (wh_call L Hwf e He Hk) as (r & Hb & ? & Hi). exists r. split; [|done].
    eapply before_restrict; eauto using wf_NoDup; apply list_elem_of_filter; [|done].
    rewrite Hi. eauto using before_l.
Qed.

Lemma removal_filter L (c r : entry V) L' :
  wf_history L → removal L c r L' → filter (λ e, id e ≠ id c) L = L'.
Proof.
  intros Hwf HR. assert (Forall (λ e, id e ≠ id c) L') as HF.
  { apply Forall_forall. intros e He. by eapply removal_fresh. }
  destruct HR as [A c B r D HA Hc Hr Hi]. rewrite !Forall_app in HF.
  destruct HF as (HFA & HFB & HFD).
  rewrite filter_app, filter_cons, filter_app, filter_cons.
  rewrite !decide_False by tauto. by rewrite !filter_Forall.
Qed.

(** A call of a well-formed history all of whose predecessors are calls. *)
Lemma removal_at (A B : list (entry V)) c :
  wf_history (A ++ c :: B) → Forall (λ e, kind e = callEntry) A → kind c = callEntry →
  ∃ B1 r D, B = B1 ++ r :: D ∧ removal (A ++ c :: B) c r (A ++ B1 ++ D).
Proof.
  intros Hwf HA Hc.
  destruct (wh_return _ Hwf c) as (r & Hb & Hr & Hi); [set_solver|done|].
  apply before_split in Hb; [|by apply wf_NoDup].
  apply list_elem_of_split in Hb as (B1 & D & ->). exists B1, r, D. split; [done|by constructor].
Qed.

Lemma removal_unique L (c r r' : entry V) L' L'' :
  wf_history L → removal L c r L' → removal L c r' L'' → r = r' ∧ L' = L''.
Proof.
  intros Hwf HR HR'. split.
  - destruct (removal_kinds _ _ _ _ HR) as (? & ? & ?), (removal_kinds _ _ _ _ HR') as (? & ? & ?).
    apply (key_inj L); [by apply wh_unique|..|congruence|congruence].
    + rewrite (removal_perm _ _ _ _ HR). set_solver.
    + rewrite (removal_perm _ _ _ _ HR'). set_solver.
  - rewrite <-(removal_filter _ _ _ _ Hwf HR). by apply removal_filter with r'.
Qed.
End wf.

(** ** Clearing the position that was just set restores the bitset *)
Lemma clear_set b i b' :
  wf b → 0 ≤ i < capacity b → i ∉ elems b → set b i = Ret b' → clear b' i = Ret b.
Proof.
  intros Hb Hi Hni Hs. destruct (set_elems b i Hb Hi) as (b0 & E & Hb' & Hl & He).
  rewrite Hs in E. injection E as <-.
  destruct (clear_elems b' i Hb') as (b2 & -> & Hwf & Hl2 & He2); [unfold capacity in *; lia|].
  f_equal. apply wf_eq; [done..|congruence|]. rewrite He2, He. set_solver.
Qed.

(** ** The search *)
Section search.
Context {V St : Type} (Step : St → V → V → go (bool * St)) (equal : St → St → bool).
Context (init : St) (es : list (entry V)) (computePartial : bool).
(** States that [equal] identifies simulate each other. *)
Hypothesis equal_sim : ∀ s t i o s', equal s t = true → Step s i o = Ret (true, s') →
  ∃ t', Step t i o = Ret (true, t') ∧ equal s' t' = true.
(** The model answers on every call and return of the history. *)
Hypothesis step_total : ∀ s c r, c ∈ es → r ∈ es → kind c = callEntry → kind r = returnEntry →
  ∃ b s', Step s (value c) (value r) = Ret (b, s').
Hypothesis es_wf : wf_history es.
Abbreviation n := (Z.of_nat (List.length es) / 2).
Hypothesis ids_perm : ids es ≡ₚ seqZ 0 n.

Abbreviation heap := (gmap loc (node V)).
Abbreviation hd := (List.length es).
Abbreviation lin := (lin Step).
Abbreviation callsEntry := (callsEntry St).
Implicit Types (X Y : bitset) (s t : St) (h : heap) (ls P Q : list loc) (K : list callsEntry).

Definition ent (l : loc) : option (entry V) := reverse es !! l.

Lemma ent_elem l e : ent l = Some e → e ∈ es.
Proof. intros Hl. apply elem_of_reverse. by eapply list_elem_of_lookup_2. Qed.
Lemma ent_inj l l' e : ent l = Some e → ent l' = Some e → l = l'.
Proof. intros. eapply NoDup_lookup; [|done..]. rewrite reverse_Permutation. by apply wf_NoDup. Qed.

Lemma ids_range e : e ∈ es → 0 ≤ id e < n.
Proof.
  intros He. assert (id e ∈ ids es) as Hin; [|rewrite ids_perm, elem_of_seqZ in Hin; lia].
  apply elem_of_ids. destruct (kind e) eqn:Hk; [eauto|].
  destruct (wh_call es es_wf e He Hk) as (c & Hb & ? & ?). eauto using before_l.
Qed.

(** The entries that are not linearized yet. *)
Definition rem (X : bitset) : list (entry V) := filter (λ e, id e ∉ elems X) es.

Lemma rem_wf X : wf_history (rem X).
Proof. unfold rem. exact (wf_filter_id es (λ i, i ∉ elems X) es_wf). Qed.
Lemma rem_elem X e : e ∈ rem X → e ∈ es ∧ id e ∉ elems X.
Proof. intros [? ?]%list_elem_of_filter. done. Qed.

Definition bits_ok X : Prop := wf X ∧ n ≤ capacity X.

Lemma set_ok X e : bits_ok X → e ∈ es → ∃ X', set X (id e) = Ret X' ∧ bits_ok X' ∧
  elems X' = {[id e]} ∪ elems X.
Proof.
  intros [HX Hc] He. pose proof (ids_range e He) as Hr.
  destruct (set_elems X (id e) HX) as (X' & E & Hw & Hl & He'); [lia|].
  exists X'. split_and!; [done| |done]. split; [done|]. unfold capacity in *. by rewrite Hl.
Qed.

Lemma rem_set X X' c r L' :
  removal (rem X) c r L' → elems X' = {[id c]} ∪ elems X → rem X' = L'.
Proof.
  intros HR HX. rewrite <-(removal_filter _ _ _ _ (rem_wf X) HR). unfold rem.
  rewrite list_filter_filter. apply list_filter_iff. intros e. rewrite HX. set_solver.
Qed.

(** *** Representation of the remaining entries in the heap *)
Record repr h ls : Prop := {
  rp_seg : seg h None (hd :: ls) None;
  rp_nodup : NoDup (hd :: ls);
  rp_node l e : ent l = Some e → ∃ nd, h !! l = Some nd ∧
    nvalue nd = Some (value e) ∧ nid nd = id e ∧
    (kind e = returnEntry → nmatch nd = None) ∧
    (kind e = callEntry → ∃ m r, nmatch nd = Some m ∧ ent m = Some r ∧
       kind r = returnEntry ∧ id r = id e) }.

Definition ents ls (L : list (entry V)) : Prop := Forall2 (λ l e, ent l = Some e) ls L.

Lemma repr_static h h' ls ls' :
  same_static h h' → seg h' None (hd :: ls') None → ls' `sublist_of` ls → repr h ls → repr h' ls'.
Proof.
  intros Hst Hs Hsub [_ HN Hnode]. split; [done| |].
  - eapply sublist_NoDup; [exact HN|]. by apply sublist_skip.
  - intros l e He. destruct (Hnode l e He) as (nd & Hl & Hv & Hi & Hr & Hc).
    specialize (Hst l). rewrite Hl in Hst. simpl in Hst.
    destruct (h' !! l) as [nd'|]; [|done]. injection Hst as H1 H2 H3.
    exists nd'. by rewrite H1, H2, H3.
Qed.

(** The cursor in the middle of the list. *)
Lemma repr_cursor h P q Q :
  repr h (P ++ q :: Q) → ∃ nd, h !! q = Some nd ∧ nnext nd = hd_or Q None.
Proof.
  intros [Hs _ _]. rewrite app_comm_cons in Hs. apply seg_lookup in Hs as (nd & ? & _ & ?). eauto.
Qed.
Lemma repr_head h ls : repr h ls → ∃ nd, h !! hd = Some nd ∧ nnext nd = hd_or ls None.
Proof. intros [(nd & ? & _ & ? & _) _ _]. eauto. Qed.

(** *** The stack as a path of removals *)
Inductive path : list callsEntry → St → bitset → Prop :=
| path_nil : path [] init (newBitset n)
| path_snoc K s X l c r s' X' :
    path K s X → ent l = Some c → removal (rem X) c r (rem X') →
    Step s (value c) (value r) = Ret (true, s') → set X (id c) = Ret X' →
    path (K ++ [mkCallsEntry _ l s]) s' X'.

Lemma rem_new : rem (newBitset n) = es.
Proof.
  apply filter_Forall, Forall_forall. intros e _ Hin.
  apply elem_of_elems in Hin as [_ Hm]. by rewrite newBitset_mem in Hm.
Qed.

Lemma path_lin K s X : path K s X → lin s (rem X) → lin init es.
Proof.
  induction 1 as [|K s X l c r s' X' _ IH _ HR Hs _]; [by rewrite rem_new|].
  intros. apply IH. by eapply lin_step.
Qed.

(** The ids of the calls of a stack. *)
Definition kids K (seq : list Z) : Prop :=
  Forall2 (λ v i, ∃ c, ent (cl_entry v) = Some c ∧ id c = i) K seq.

Lemma kids_snoc K l s c seq : ent l = Some c → kids (K ++ [mkCallsEntry _ l s]) seq →
  ∃ s1 : list Z, seq = s1 ++ [id c] ∧ kids K s1.
Proof.
  intros Hl (s1 & s2 & H1 & H2 & ->)%Forall2_app_inv_l.
  apply Forall2_cons_inv_l in H2 as (j & s3 & (c' & Hc' & <-) & ->%Forall2_nil_inv_l & ->).
  simpl in Hc'. rewrite Hl in Hc'. injection Hc' as <-. eauto.
Qed.

Lemma path_kids K s X : path K s X → ∃ seq, kids K seq.
Proof.
  induction 1 as [|K s X l c r s' X' _ [seq IH] Hl _ _ _]; [exists []; constructor|].
  exists (seq ++ [id c]). apply Forall2_app; [done|]. repeat constructor. eauto.
Qed.

Lemma call_ids_ok h ls K seq : repr h ls → kids K seq → call_ids h K = Ret seq.
Proof.
  intros Hr. unfold call_ids. induction 1 as [|v i K seq (c & Hc & <-) _ IH]; [done|].
  cbn [mapM]. destruct (rp_node _ _ Hr _ _ Hc) as (nd & Hl & _ & Hi & _).
  rewrite (load_Some _ _ _ Hl). simpl. rewrite IH. simpl. by rewrite Hi.
Qed.

Definition long_ok (longest : list (option seqPtr)) : Prop :=
  List.length longest = Z.to_nat n ∧
  ∀ i p seq, longest !! i = Some (Some (p, seq)) →
    Z.of_nat i ∈ seq ∧ ∃ K s X, path K s X ∧ kids K seq.

Lemma record_ok h ls K s X p seq K' seq' longest :
  repr h ls → path K s X → kids K seq → kids K' seq' → seq' ⊆ seq → long_ok longest →
  ∃ longest', record_longest h (List.length K) (p, seq) K' longest = Ret longest' ∧
    long_ok longest'.
Proof.
  intros Hr HP HK HK' Hsub Hlong. revert longest Hlong.
  induction HK' as [|v i K' seq' (c & Hc & <-) _ IH]; intros longest Hlong; [by exists longest|].
  cbn [record_longest]. destruct (rp_node _ _ Hr _ _ Hc) as (nd & Hl & _ & Hi & _).
  rewrite (load_Some _ _ _ Hl). simpl. rewrite Hi.
  pose proof (ids_range c (ent_elem _ _ Hc)) as Hrange.
  destruct Hlong as [Hlen Hlk].
  destruct (index_lt longest (id c)) as [old Hold]; [lia|]. rewrite Hold. simpl.
  assert (∃ l2, (if match old with Some (_, sq) => bool_decide (List.length sq < List.length K)%nat
                  | None => true end
                 then store longest (id c) (Some (p, seq)) else mret longest) = Ret l2 ∧ long_ok l2)
    as (l2 & -> & Hl2); [|apply IH; [set_solver|done]].
  destruct (match old with Some _ => _ | None => true end); [|by exists longest].
  rewrite store_lt by lia. eexists. split; [done|]. split; [by rewrite length_insert|].
  intros i p' sq Hlook. apply list_lookup_insert_Some in Hlook as [(<- & Heq & _)|[_ Hlook]].
  - injection Heq as <- <-. rewrite Z2Nat.id by lia. split; [set_solver|eauto 10].
  - eauto.
Qed.

(** *** Running the loop *)
Abbreviation search := (search V St).
Abbreviation step := (search_step Step equal computePartial hd n false).
Definition loop (fuel : nat) (st : search) : go (bool * list (option seqPtr)) :=
  search_loop Step equal computePartial hd n fuel (λ _, false) st.
Definition reaches (st st' : search) : Prop := ∃ k, ∀ fuel, loop (k + fuel) st = loop fuel st'.
Definition finishes (st : search) r : Prop := ∃ k, ∀ fuel, loop (k + fuel) st = Ret r.

Lemma reaches_refl st : reaches st st.
Proof. by exists O. Qed.
Lemma reaches_step st st1 st2 : step st = Ret (inl st1) → reaches st1 st2 → reaches st st2.
Proof. intros Hs [k Hk]. exists (S k). intros fuel. unfold loop in *. simpl. rewrite Hs. simpl. apply Hk. Qed.
Lemma reaches_trans st st1 st2 : reaches st st1 → reaches st1 st2 → reaches st st2.
Proof.
  intros [k Hk] [k2 Hk2]. exists (k + k2)%nat. intros fuel. rewrite <-Nat.add_assoc, Hk. apply Hk2.
Qed.
Lemma reaches_finishes st st1 r : reaches st st1 → finishes st1 r → finishes st r.
Proof.
  intros [k Hk] [k2 Hk2]. exists (k + k2)%nat. intros fuel. rewrite <-Nat.add_assoc, Hk. apply Hk2.
Qed.
Lemma finishes_step st r : step st = Ret (inr r) → finishes st r.
Proof. intros Hs. exists 1%nat. intros fuel. unfold loop. simpl. by rewrite Hs. Qed.

(** *** The cache: a cached pair is open or refuted *)
Abbreviation cache_map := (gmap Z (list (cacheEntry St))).
Definition cache_ok (cache : cache_map) (opens : list (bitset * St)) : Prop :=
  ∀ k l e, cache !! k = Some l → e ∈ l →
    (ce_linearized e, ce_state e) ∈ opens ∨ ¬ lin (ce_state e) (rem (ce_linearized e)).

Definition refuted X s c : Prop :=
  ∀ r L' s', removal (rem X) c r L' → Step s (value c) (value r) = Ret (true, s') → ¬ lin s' L'.

Lemma lin_equal s t L : equal s t = true → lin s L → lin t L.
Proof.
  intros He Hl. revert t He. induction Hl as [s|s L c r L' s' HR Hs _ IH]; intros t He; [constructor|].
  destruct (equal_sim _ _ _ _ _ He Hs) as (t' & Ht & ?). eapply lin_step; eauto.
Qed.

Lemma cache_hit cache opens X s :
  cache_ok cache opens → (∀ Y t, (Y, t) ∈ opens → Y ≠ X) →
  cacheContains equal cache (mkCacheEntry _ X s) = true → ¬ lin s (rem X).
Proof.
  unfold cacheContains. intros Hok Hopen Hex Hlin.
  apply existsb_exists in Hex as (e & Hin & Hb). simpl in *.
  apply andb_true_iff in Hb as [Hb He]. rewrite equals_spec in Hb.
  apply bool_decide_eq_true in Hb.
  destruct (cache !! hash X) as [l|] eqn:Hl; simpl in Hin; [|done].
  apply list_elem_of_In in Hin. destruct (Hok _ _ _ Hl Hin) as [Ho|Hn].
  - by apply (Hopen _ _ Ho).
  - rewrite <-Hb in Hn. eauto using lin_equal.
Qed.

Lemma cache_add cache opens X s :
  cache_ok cache opens →
  cache_ok (<[hash X := default [] (cache !! hash X) ++ [mkCacheEntry _ X s]]> cache) ((X, s) :: opens).
Proof.
  intros Hok k l e Hl He. apply lookup_insert_Some in Hl as [[<- <-]|[_ Hl]].
  - apply elem_of_app in He as [He|He].
    + destruct (cache !! hash X) as [l|] eqn:E; simpl in He; [|by apply elem_of_nil in He].
      destruct (Hok _ _ _ E He); [left; by right|by right].
    + apply list_elem_of_singleton in He as ->. left. by left.
  - destruct (Hok _ _ _ Hl He); [left; by right|by right].
Qed.

Lemma cache_close cache opens X s :
  cache_ok cache ((X, s) :: opens) → ¬ lin s (rem X) → cache_ok cache opens.
Proof.
  intros Hok Hn k l e Hl He. destruct (Hok _ _ _ Hl He) as [Ho|]; [|by right].
  apply elem_of_cons in Ho as [[= -> ->]|]; [by right|by left].
Qed.

(** *** Refutation *)
Lemma stuck_refutes X s A e B :
  rem X = A ++ e :: B → kind e = returnEntry → (∀ c, c ∈ A → refuted X s c) →
  ¬ lin s (rem X).
Proof.
  intros HX He HA Hlin. remember (rem X) as L eqn:HL.
  destruct Hlin as [s|s L c r L' s' HR Hs Hl]; [by destruct A|]. subst L.
  assert (c ∈ A) as Hc; [|by eapply HA].
  assert (c ∈ rem X) as Hin by (rewrite (removal_perm _ _ _ _ HR); set_solver).
  destruct (removal_kinds _ _ _ _ HR) as (Hk & _).
  rewrite HX in Hin. apply elem_of_app in Hin as [?|Hin]; [done|exfalso].
  apply elem_of_cons in Hin as [->|Hin]; [congruence|].
  assert (before (rem X) e c) as Hb by (rewrite HX; by exists A, B).
  apply (removal_minimal _ _ _ _ _ (wf_NoDup _ (rem_wf X)) HR) in Hb. congruence.
Qed.

Lemma refuted_by X s c r L' b s' :
  removal (rem X) c r L' → Step s (value c) (value r) = Ret (b, s') →
  (b = true → ¬ lin s' L') → refuted X s c.
Proof.
  intros HR Hs Hn r2 L2 s2 HR2 Hs2.
  destruct (removal_unique _ _ _ _ _ _ (rem_wf X) HR HR2) as [<- <-].
  rewrite Hs in Hs2. injection Hs2 as -> <-. auto.
Qed.

Lemma path_bits K s X : path K s X →
  bits_ok X ∧ ∀ seq, kids K seq → ∀ i, i ∈ seq ↔ i ∈ elems X.
Proof.
  induction 1 as [|K s X l c r s' X' _ [HX IH] Hl HR _ Hset].
  - split.
    + split; [apply newBitset_wf|]. apply newBitset_capacity, Z.div_pos; lia.
    + intros seq Hk%Forall2_nil_inv_l i. subst seq. rewrite elem_of_elems, newBitset_mem.
      split; [by intros ?%elem_of_nil|by intros [_ []]].
  - destruct (set_ok X c HX (ent_elem _ _ Hl)) as (X2 & E & HX2 & He).
    rewrite Hset in E. injection E as <-. split; [done|].
    intros seq (s1 & -> & H1)%(kids_snoc _ _ _ _ _ Hl) i.
    rewrite elem_of_app, (IH s1 H1), list_elem_of_singleton, He. set_solver.
Qed.

Lemma ents_rem_nil X : ents [] (rem X) → ∀ i, 0 ≤ i < n → i ∈ elems X.
Proof.
  intros HE%Forall2_nil_inv_l i Hi.
  assert (i ∈ ids es) as Hin by (rewrite ids_perm; by apply elem_of_seqZ).
  apply elem_of_ids in Hin as (c & Hc & _ & <-).
  destruct (decide (id c ∈ elems X)) as [|Hn]; [done|exfalso].
  assert (c ∈ rem X) as Hr by (by apply list_elem_of_filter). rewrite HE in Hr.
  by apply elem_of_nil in Hr.
Qed.

Lemma step_exit h cur s X cache K longest a :
  repr h [] → ents [] (rem X) → path K s X → long_ok longest →
  ∃ longest', step (mkSearch _ _ h cur s X cache K longest a) = Ret (inr (true, longest')) ∧
    long_ok longest'.
Proof.
  intros Hr HE HP [Hlen _]. destruct (repr_head _ _ Hr) as (nd & Hh & Hn).
  destruct (path_kids _ _ _ HP) as [seq Hseq].
  unfold search_step. cbn [sr_heap sr_calls sr_longest sr_allocs].
  rewrite (load_Some _ _ _ Hh). simpl. rewrite Hn, (call_ids_ok _ _ _ _ Hr Hseq). simpl.
  eexists. split; [done|]. rewrite drop_ge, app_nil_r by lia. split; [by rewrite length_replicate|].
  intros i p sq [Heq Hi]%lookup_replicate. injection Heq as -> ->.
  split; [|eauto 10]. apply (proj2 (path_bits _ _ _ HP) _ Hseq), (ents_rem_nil _ HE). lia.
Qed.

(** A call at the cursor: its node, its return, and the body of the loop. *)
Lemma step_call h ls q c : repr h ls → ls ≠ [] → ent q = Some c → kind c = callEntry →
  ∃ nd m r, h !! q = Some nd ∧ nid nd = id c ∧ nmatch nd = Some m ∧
    ent m = Some r ∧ kind r = returnEntry ∧ id r = id c ∧
    ∀ s X cache K longest a,
      let st cur := mkSearch _ _ h cur s X cache K longest a in
      step (st (Some q)) =
        (res ← Step s (value c) (value r);
         if negb (fst res) then mret (inl (st (nnext nd))) else
         X' ← set X (id c);
         if cacheContains equal cache (mkCacheEntry _ X' (snd res))
         then mret (inl (st (nnext nd))) else
         h' ← lift h q;
         hdn ← load h' (Some hd);
         mret (inl (mkSearch _ _ h' (nnext hdn) (snd res) X'
           (<[hash X' := default [] (cache !! hash X') ++ [mkCacheEntry _ X' (snd res)]]> cache)
           (K ++ [mkCallsEntry _ q s]) longest a))).
Proof.
  intros Hr Hls Hq Hk. destruct (rp_node _ _ Hr _ _ Hq) as (nd & Hl & Hv & Hi & _ & Hc).
  destruct (Hc Hk) as (m & r & Hm & Hmr & Hkr & Hir).
  destruct (rp_node _ _ Hr _ _ Hmr) as (md & Hml & Hmv & _ & _ & _).
  exists nd, m, r. split_and!; [done..|]. intros s X cache K longest a st.
  destruct (repr_head _ _ Hr) as (hn & Hh & Hn).
  unfold search_step, try_call, clone. subst st. cbn [sr_heap sr_calls sr_longest sr_allocs
    sr_entry sr_state sr_linearized sr_cache].
  rewrite (load_Some _ _ _ Hh). simpl. rewrite Hn. destruct ls as [|x ls]; [done|]. simpl.
  rewrite (load_Some _ _ _ Hl). simpl. rewrite Hm. simpl. rewrite (load_Some _ _ _ Hml). simpl.
  rewrite Hv, Hmv, Hi. simpl. destruct (Step s (value c) (value r)) as [[b s']| | | |]; [|done..].
  simpl. destruct b; simpl; [|done]. destruct (set X (id c)) as [X'| | | |] eqn:EX; [|done..].
  simpl. destruct (cacheContains _ _ _); [done|]. simpl.
  destruct (lift h q) as [h'| | | |]; [|done..]. simpl.
  by destruct (load h' (Some hd)).
Qed.

(** Popping the top of the stack. *)
Lemma step_backtrack h' ls' x h ls q e c s X cache K longest a s0 X0 :
  repr h' ls' → ls' ≠ [] → ent x = Some e → kind e = returnEntry →
  path (K ++ [mkCallsEntry _ q s0]) s X → ent q = Some c → clear X (id c) = Ret X0 →
  repr h ls → unlift h' q = Ret h → long_ok longest →
  ∃ nd longest', h !! q = Some nd ∧ long_ok longest' ∧
    step (mkSearch _ _ h' (Some x) s X cache (K ++ [mkCallsEntry _ q s0]) longest a) =
    Ret (inl (mkSearch _ _ h (nnext nd) s0 X0 cache K longest' (S a))).
Proof.
  intros Hr' Hls' Hx Hk HP Hq Hclr Hr Hun Hlong.
  destruct (rp_node _ _ Hr' _ _ Hx) as (xd & Hxl & _ & _ & Hxm & _).
  destruct (rp_node _ _ Hr' _ _ Hq) as (qd' & Hql' & _ & Hqi & _).
  destruct (rp_node _ _ Hr _ _ Hq) as (qd & Hql & _).
  destruct (repr_head _ _ Hr') as (hn & Hh & Hn).
  destruct (path_kids _ _ _ HP) as [seq Hseq].
  destruct (record_ok h' ls' _ s X a seq _ seq longest Hr' HP Hseq Hseq) as (l1 & E1 & Hl1); [done..|].
  exists qd, (if computePartial then l1 else longest). split; [done|].
  split; [by destruct computePartial|].
  unfold search_step, backtrack.
  cbn [sr_heap sr_calls sr_longest sr_allocs sr_entry sr_state sr_linearized sr_cache].
  rewrite (load_Some _ _ _ Hh). simpl. rewrite Hn. destruct ls' as [|y ls']; [done|]. simpl.
  rewrite (load_Some _ _ _ Hxl). simpl. rewrite (Hxm Hk), last_snoc.
  rewrite (call_ids_ok _ _ _ _ Hr' Hseq).
  assert ((longest1 ← (if computePartial then
     seq0 ← Ret seq; record_longest h' (List.length (K ++ [mkCallsEntry St q s0])) (a, seq0)
       (K ++ [mkCallsEntry St q s0]) longest else mret longest); mret longest1)
     = Ret (if computePartial then l1 else longest)) as Hrec.
  { destruct computePartial; simpl; [by rewrite E1|done]. }
  destruct (if computePartial then _ else _) as [l2| | | |] in Hrec |- *; try discriminate Hrec.
  injection Hrec as ->. simpl.
  rewrite (load_Some _ _ _ Hql'). simpl. rewrite Hqi, Hclr. simpl. rewrite Hun. simpl.
  rewrite (load_Some _ _ _ Hql). simpl.
  do 3 f_equal. rewrite length_app. simpl. rewrite Nat.add_sub. by rewrite take_app_length.
Qed.

(** *** Exploration of one level

    From the head of the list the loop either finishes with a complete
    linearization, or reaches a return entry with the heap, the stack and the
    set of linearized operations it started with, the level being refuted. *)
Definition succeeds (st : search) : Prop :=
  ∃ l', finishes st (true, l') ∧ lin init es ∧ long_ok l'.
Definition outcome opens h ls X s K (st : search) : Prop :=
  succeeds st ∨
  ∃ x e cache' longest' a', reaches st (mkSearch _ _ h (Some x) s X cache' K longest' a') ∧
    ls ≠ [] ∧ ent x = Some e ∧ kind e = returnEntry ∧ ¬ lin s (rem X) ∧
    cache_ok cache' opens ∧ long_ok longest'.
Definition small_opens (opens : list (bitset * St)) X : Prop :=
  ∀ Y t, (Y, t) ∈ opens → (size (elems Y) ≤ size (elems X))%nat.
Definition explored (N : nat) : Prop :=
  ∀ h ls X s K cache longest a opens, (List.length ls < N)%nat →
    repr h ls → ents ls (rem X) → path K s X → cache_ok cache opens → long_ok longest →
    small_opens opens X →
    outcome opens h ls X s K (mkSearch _ _ h (hd_or ls None) s X cache K longest a).

Lemma succeeds_reaches st st' : reaches st st' → succeeds st' → succeeds st.
Proof. intros Hr (l & Hf & ?). exists l. split; [by eapply reaches_finishes|done]. Qed.
Lemma outcome_reaches opens h ls X s K st st' :
  reaches st st' → outcome opens h ls X s K st' → outcome opens h ls X s K st.
Proof.
  intros Hr [?|(x & e & c & l & a & ? & ?)]; [left; by eapply succeeds_reaches|].
  right. exists x, e, c, l, a. split; [by eapply reaches_trans|done].
Qed.

Lemma opens_fresh opens X X' i :
  small_opens opens X → elems X' = {[i]} ∪ elems X → i ∉ elems X →
  (∀ Y t, (Y, t) ∈ opens → Y ≠ X') ∧ ∀ t, small_opens ((X', t) :: opens) X'.
Proof.
  intros Hs He Hi.
  assert (size (elems X') = S (size (elems X))) as Hsz.
  { rewrite He, size_union by set_solver. by rewrite size_singleton. }
  split.
  - intros Y t HY ->. specialize (Hs _ _ HY). lia.
  - intros t Y u [[= -> ->]|HY]%elem_of_cons; [done|]. specialize (Hs _ _ HY). lia.
Qed.

Lemma scan_push N h P q Q X s K cache longest a opens eP c B r D s' X' :
  explored N → (List.length (P ++ q :: Q) ≤ N)%nat → repr h (P ++ q :: Q) →
  ents P eP → ent q = Some c → ents Q (B ++ r :: D) → removal (rem X) c r (eP ++ B ++ D) →
  path K s X → Step s (value c) (value r) = Ret (true, s') → set X (id c) = Ret X' →
  cache_ok cache opens → long_ok longest → small_opens opens X →
  cacheContains equal cache (mkCacheEntry _ X' s') = false →
  let st := mkSearch _ _ h (Some q) s X cache K longest a in
  succeeds st ∨
  ∃ cache' longest' a', reaches st (mkSearch _ _ h (hd_or Q None) s X cache' K longest' a') ∧
    cache_ok cache' opens ∧ long_ok longest' ∧ ¬ lin s' (eP ++ B ++ D).
Proof.
  intros IH HN Hr HP Hq HQ HR Hpath Hstep Hset Hcache Hlong Hopens Hcc st.
  destruct (removal_kinds _ _ _ _ HR) as (Hkc & Hkr & Hir).
  assert (c ∈ rem X ∧ r ∈ rem X) as [Hc Hrr] by (rewrite (removal_perm _ _ _ _ HR); set_solver).
  apply rem_elem in Hc as [Hc HcX], Hrr as [Hrr _].
  destruct (path_bits _ _ _ Hpath) as [HX _].
  destruct (set_ok X c HX Hc) as (X2 & E & HX2 & HeX). rewrite Hset in E. injection E as <-.
  pose proof (rem_set _ _ _ _ _ HR HeX) as Hrem.
  destruct (opens_fresh _ _ _ _ Hopens HeX HcX) as [Hne Hopens'].
  apply Forall2_app_inv_r in HQ as (QB & Q2 & HQB & HQ2 & ->).
  apply Forall2_cons_inv_r in HQ2 as (m & QD & Hm & HQD & ->).
  destruct (step_call h _ q c Hr ltac:(by destruct P) Hq Hkc)
    as (nd & m' & r' & Hl & Hi & Hnm & Hmr & Hkr' & Hir' & Hbody).
  assert (r' = r) as -> by (apply (key_inj es); eauto using wh_unique, ent_elem; congruence).
  assert (m' = m) as -> by (by eapply ent_inj).
  destruct (lift_after h hd P q QB m QD nd (rp_nodup _ _ Hr) (rp_seg _ _ Hr) Hl Hnm)
    as (h' & Elift & Hseg' & Hst & Hun).
  assert (repr h' (P ++ QB ++ QD)) as Hr'.
  { apply (repr_static h h' (P ++ q :: QB ++ m :: QD)); [done|done| |done].
    apply sublist_app; [done|]. apply sublist_cons.
    apply sublist_app; [done|]. by apply sublist_cons. }
  destruct (repr_head _ _ Hr') as (hn & Hh & Hhn).
  assert (step st = Ret (inl (mkSearch _ _ h' (hd_or (P ++ QB ++ QD) None) s' X'
    (<[hash X' := default [] (cache !! hash X') ++ [mkCacheEntry _ X' s']]> cache)
    (K ++ [mkCallsEntry _ q s]) longest a))) as Estep.
  { subst st. rewrite Hbody, Hstep. simpl. rewrite Hset. simpl. rewrite Hcc, Elift. simpl.
    rewrite (load_Some _ _ _ Hh). simpl. by rewrite Hhn. }
  assert (path (K ++ [mkCallsEntry _ q s]) s' X') as Hpath'.
  { eapply path_snoc; eauto. by rewrite Hrem. }
  assert ((List.length (P ++ QB ++ QD) < N)%nat) as Hlen.
  { rewrite !length_app in *. simpl in *. rewrite length_app in HN. simpl in HN. lia. }
  assert (ents (P ++ QB ++ QD) (rem X')) as Hents.
  { rewrite Hrem. by repeat apply Forall2_app. }
  destruct (IH h' _ X' s' (K ++ [mkCallsEntry _ q s]) _ longest a _ Hlen Hr' Hents Hpath'
    (cache_add _ _ X' s' Hcache) Hlong (Hopens' s'))
    as [Hs|(x & e & cache2 & l2 & a2 & Hreach & Hnil & Hx & Hkx & Hnl & Hc2 & Hl2)].
  { left. eapply succeeds_reaches; [|exact Hs]. eapply reaches_step; [exact Estep|].
    apply reaches_refl. }
  right. assert (clear X' (id c) = Ret X) as Hclear.
  { destruct HX. eapply clear_set; eauto. pose proof (ids_range c Hc). lia. }
  destruct (step_backtrack _ _ x _ _ q e c s' X' cache2 K l2 a2 s X Hr' Hnil Hx Hkx Hpath' Hq
    Hclear Hr Hun Hl2) as (nd2 & l3 & Hl3 & Hlong3 & Eback).
  exists cache2, l3, (S a2). split_and!; [|by eapply cache_close|done|by rewrite <-Hrem].
  eapply reaches_step; [exact Estep|]. eapply reaches_trans; [exact Hreach|].
  destruct (repr_cursor _ _ _ _ Hr) as (nd3 & Hl4 & Hn3). rewrite Hl4 in Hl3.
  injection Hl3 as <-. rewrite Hn3 in Eback. eapply reaches_step; [exact Eback|].
  apply reaches_refl.
Qed.

(** From a cursor in the middle of the list, the calls before it refuted. *)
Lemma scan N h X s K opens : explored N → ∀ Q P cache longest a eP eQ,
  (List.length (P ++ Q) ≤ N)%nat → P ++ Q ≠ [] → repr h (P ++ Q) →
  ents P eP → ents Q eQ → rem X = eP ++ eQ →
  Forall (λ e, kind e = callEntry) eP → (∀ c, c ∈ eP → refuted X s c) →
  path K s X → cache_ok cache opens → long_ok longest → small_opens opens X →
  outcome opens h (P ++ Q) X s K (mkSearch _ _ h (hd_or Q None) s X cache K longest a).
Proof.
  intros IH Q. induction Q as [|q Q IHQ];
    intros P cache longest a eP eQ HN Hnil Hr HP HQ HX HA Href Hpath Hcache Hlong Hopens.
  { exfalso. apply Forall2_nil_inv_l in HQ as ->. rewrite app_nil_r in HX, Hnil.
    pose proof (rem_wf X) as Hwf. rewrite HX in Hwf. rewrite Forall_forall in HA.
    destruct HP as [|l c P' eP' Hl HP']; [done|].
    destruct (wh_return _ Hwf c) as (r & Hb & Hk & _); [set_solver|apply HA; set_solver|].
    apply before_r, HA in Hb. congruence. }
  apply Forall2_cons_inv_l in HQ as (c & eQ' & Hq & HQ & ->).
  destruct (kind c) eqn:Hk.
  2:{ right. exists q, c, cache, longest, a. split_and!; try done; [apply reaches_refl|].
      by eapply stuck_refutes. }
  pose proof (rem_wf X) as Hwf. rewrite HX in Hwf.
  destruct (removal_at _ _ _ Hwf HA Hk) as (B & r & D & -> & HR). rewrite <-HX in HR.
  destruct (removal_kinds _ _ _ _ HR) as (_ & Hkr & Hir).
  assert (c ∈ es ∧ r ∈ es) as [Hc Hre].
  { split; apply (rem_elem X); rewrite (removal_perm _ _ _ _ HR); set_solver. }
  (* scanning the rest, once the call at the cursor is refuted *)
  assert (∀ cache' l' a', refuted X s c → cache_ok cache' opens → long_ok l' →
    outcome opens h (P ++ q :: Q) X s K (mkSearch _ _ h (hd_or Q None) s X cache' K l' a')) as Hnext.
  { intros cache' l' a' Hrc Hc' Hl'. rewrite cons_middle, app_assoc in HN, Hnil, Hr |- *.
    rewrite (cons_middle c), app_assoc in HX.
    apply (IHQ _ cache' l' a' (eP ++ [c]) (B ++ r :: D)); try done.
    - apply Forall2_app; [done|]. by repeat constructor.
    - apply Forall_app. split; [done|]. by repeat constructor.
    - intros e [?| ->%list_elem_of_singleton]%elem_of_app; auto. }
  destruct (step_total s c r Hc Hre Hk Hkr) as (b & s' & Hstep).
  destruct (path_bits _ _ _ Hpath) as [HbX _].
  destruct (set_ok X c HbX Hc) as (X' & Hset & _ & HeX).
  destruct (b && negb (cacheContains equal cache (mkCacheEntry _ X' s'))) eqn:Hpush.
  - apply andb_true_iff in Hpush as [-> Hcc%negb_true_iff].
    destruct (scan_push N h P q Q X s K cache longest a opens eP c B r D s' X')
      as [Hs|(c2 & l2 & a2 & Hreach & Hc2 & Hl2 & Hn)]; try done; [by left|].
    eapply outcome_reaches; [exact Hreach|]. apply Hnext; [|done..].
    by eapply refuted_by.
  - destruct (step_call h _ q c Hr Hnil Hq Hk) as (nd & m & r' & Hl & _ & _ & Hmr & Hkr' & Hir' & Hbody).
    assert (r' = r) as -> by (apply (key_inj es); eauto using wh_unique, ent_elem; congruence).
    destruct (repr_cursor _ _ _ _ Hr) as (nd' & Hl' & Hn'). rewrite Hl' in Hl. injection Hl as <-.
    assert (step (mkSearch _ _ h (Some q) s X cache K longest a) =
      Ret (inl (mkSearch _ _ h (hd_or Q None) s X cache K longest a))) as Estep.
    { rewrite Hbody, Hstep. simpl. destruct b; simpl; [|by rewrite Hn'].
      rewrite Hset. simpl in *. apply negb_false_iff in Hpush. by rewrite Hpush, Hn'. }
    eapply outcome_reaches; [eapply reaches_step; [exact Estep|apply reaches_refl]|].
    apply Hnext; [|done..]. eapply refuted_by; [exact HR|exact Hstep|]. intros ->.
    simpl in Hpush. apply negb_false_iff in Hpush. rewrite <-(rem_set _ _ _ _ _ HR HeX).
    eapply cache_hit; [exact Hcache| |exact Hpush].
    eapply opens_fresh; [exact Hopens|exact HeX|].
    apply (rem_elem X). rewrite (removal_perm _ _ _ _ HR). set_solver.
Qed.

Lemma explored_all N : explored N.
Proof.
  induction N as [|N IH]; intros h ls X s K cache longest a opens Hlen Hr HE HP Hc Hl Ho; [lia|].
  destruct ls as [|x ls].
  - left. destruct (step_exit h None s X cache K longest a Hr HE HP Hl) as (l' & Hs & Hl').
    exists l'. split_and!; [by apply finishes_step| |done].
    apply (path_lin _ _ _ HP). apply Forall2_nil_inv_l in HE as ->. constructor.
  - apply (scan N h X s K opens IH (x :: ls) [] cache longest a [] (rem X)); try done.
    + simpl in *. lia.
    + constructor.
    + intros c Hc'. by apply elem_of_nil in Hc'.
Qed.

(** *** The recorded prefixes are partial linearizations *)
Definition partial_linearization (seq : list Z) : Prop :=
  NoDup seq ∧ legal Step es init seq ∧
  ∀ i j, real_time es i j → j ∈ seq → before seq i j.

Lemma before_snoc (l : list Z) i j : i ∈ l → before (l ++ [j]) i j.
Proof.
  intros (l1 & l2 & ->)%list_elem_of_split. exists l1, (l2 ++ [j]).
  rewrite <-app_assoc. split; [done|set_solver].
Qed.

Lemma path_legal K s X seq : path K s X → kids K seq →
  ∀ τ, legal Step es s τ → legal Step es init (seq ++ τ).
Proof.
  intros HP. revert seq. induction HP as [|K s X l c r s' X' _ IH Hl HR Hstep _]; intros seq.
  { by intros ->%Forall2_nil_inv_l. }
  intros (s1 & -> & H1)%(kids_snoc _ _ _ _ _ Hl) τ Hτ. rewrite <-app_assoc. apply IH; [done|].
  destruct (removal_kinds _ _ _ _ HR) as (Hkc & Hkr & Hir).
  assert (r ∈ es) by (apply (rem_elem X); rewrite (removal_perm _ _ _ _ HR); set_solver).
  eapply legal_cons; [exists c; eauto using ent_elem|by exists r|exact Hstep|done].
Qed.

Lemma path_real_time K s X seq : path K s X → kids K seq →
  ∀ i j, real_time es i j → j ∈ seq → before seq i j.
Proof.
  intros HP. revert seq. induction HP as [|K s X l c r s' X' HP IH Hl HR Hstep _]; intros seq.
  { intros ->%Forall2_nil_inv_l i j _ Hj. by apply elem_of_nil in Hj. }
  intros (s1 & -> & H1)%(kids_snoc _ _ _ _ _ Hl) i j Hrt Hj.
  apply elem_of_app in Hj as [Hj|Hj%list_elem_of_singleton].
  { destruct (IH _ H1 i j Hrt Hj) as (a & b & -> & Hb). exists a, (b ++ [id c]).
    rewrite <-app_assoc. split; [done|set_solver]. }
  destruct Hrt as (r0 & c0 & Hb & Hk0 & <- & Hk1 & <-). rewrite Hj. apply before_snoc.
  destruct (path_bits _ _ _ HP) as [_ Hel]. apply (Hel _ H1).
  assert (c0 = c) as ->.
  { apply (key_inj es); eauto using wh_unique, before_r, ent_elem.
    destruct (removal_kinds _ _ _ _ HR). congruence. }
  destruct (decide (id r0 ∈ elems X)) as [|Hn]; [done|exfalso].
  assert (before (rem X) r0 c) as Hb'.
  { eapply before_restrict; [by apply wf_NoDup|apply sublist_filter| | |exact Hb].
    - apply list_elem_of_filter. eauto using before_l.
    - rewrite (removal_perm _ _ _ _ HR). set_solver. }
  apply (removal_minimal _ _ _ _ _ (wf_NoDup _ (rem_wf X)) HR) in Hb'. congruence.
Qed.

Lemma path_NoDup K s X seq : path K s X → kids K seq → NoDup seq.
Proof.
  intros HP. revert seq. induction HP as [|K s X l c r s' X' HP IH Hl HR Hstep _]; intros seq.
  { intros ->%Forall2_nil_inv_l. constructor. }
  intros (s1 & -> & H1)%(kids_snoc _ _ _ _ _ Hl).
  apply NoDup_app. split_and!; [by apply IH| |by apply NoDup_singleton].
  intros i Hi%(proj2 (path_bits _ _ _ HP) _ H1) ->%list_elem_of_singleton.
  assert (c ∈ rem X) as Hc by (rewrite (removal_perm _ _ _ _ HR); set_solver).
  by apply rem_elem in Hc as [_ ?].
Qed.

Lemma path_partial K s X seq : path K s X → kids K seq → partial_linearization seq.
Proof.
  intros HP Hseq. split_and!; [by eapply path_NoDup| |by eapply path_real_time].
  rewrite <-(app_nil_r seq). eapply path_legal; [done..|constructor].
Qed.
End search.

(** ** checkSingle *)
Section checkSingle.
Context {V St : Type}.

Lemma length_loop_seg (h : gmap loc (node V)) p L fuel l :
  seg h p L None → (List.length L ≤ fuel)%nat →
  length_loop fuel h (hd_or L None) l = Ret (l + Z.of_nat (List.length L)).
Proof.
  revert p fuel l. induction L as [|x L IH]; intros p fuel l Hs Hf.
  { simpl. destruct fuel; simpl; by rewrite Z.add_0_r. }
  destruct Hs as (nd & Hx & _ & Hn & Hs). simpl in Hf. destruct fuel as [|fuel]; [lia|].
  cbn [length_loop hd_or]. rewrite (load_Some _ _ _ Hx). simpl. rewrite Hn.
  rewrite (IH _ _ _ Hs) by lia. f_equal. simpl. lia.
Qed.

Lemma length_locs (es : list (entry V)) : List.length (locs es) = List.length es.
Proof. induction es; simpl; congruence. Qed.

(** What the checker needs of a model: answers on the operations of the
    history, and an equality that identifies only similar states. *)
Record model_ok (model : Model V St) (es : list (entry V)) : Prop := {
  mo_total s c r : c ∈ es → r ∈ es → kind c = callEntry → kind r = returnEntry →
    ∃ b s', Step model s (value c) (value r) = Ret (b, s');
  mo_equal : ∃ equal, Equal model = Some equal ∧
    ∀ s t i o s', equal s t = true → Step model s i o = Ret (true, s') →
      ∃ t', Step model t i o = Ret (true, t') ∧ equal s' t' = true }.

(** Operations numbered from 0, each called once and returned once. *)
Definition history_ok (es : list (entry V)) : Prop :=
  wf_history es ∧ ids es ≡ₚ seqZ 0 (Z.of_nat (List.length es) / 2).

(** The node of the sentinel, inserted in front of the linked entries. *)
Lemma initial_repr es h root mtch :
  history_ok es → linked es h root mtch →
  ∃ h', insertBefore (<[List.length es := mkNode V None None (-1) None None]> h)
          (List.length es) root = Ret h' ∧ repr es h' (locs es).
Proof.
  intros [Hwf _] HL. destruct (HL) as [Hsz Hdom Hseg -> Hnode _ _].
  set (hdn := mkNode V None None (-1) None None).
  assert (h !! List.length es = None) as Hfresh by (rewrite eq_None_not_Some, Hdom; lia).
  destruct (insertBefore_seg (<[List.length es := hdn]> h) (locs es) (List.length es) hdn)
    as (h' & E & Hs & Hst & _); [|by rewrite lookup_insert_eq|done|done
    |rewrite elem_of_locs; lia|apply NoDup_locs|].
  { eapply seg_frame; [|exact Hseg]. intros x Hx%elem_of_locs. rewrite lookup_insert_ne; [done|lia]. }
  exists h'. split; [exact E|]. split; [done| |].
  - constructor; [rewrite elem_of_locs; lia|apply NoDup_locs].
  - intros l e Hl. destruct (Hnode l e Hl) as (nd & Hn & Hok). specialize (Hst l).
    pose proof (lookup_lt_Some _ _ _ Hl) as Hlt. rewrite length_reverse in Hlt.
    rewrite lookup_insert_ne, Hn in Hst by lia. simpl in Hst.
    destruct (h' !! l) as [nd'|]; [|done]. apply (inj Some) in Hst. exists nd'. split; [done|].
    rewrite <-Hst in Hok. unfold static in Hok. destruct Hok as (? & ? & ? & Hc).
    split_and!; [done..|]. intros Hk. destruct Hc as (m & r & ? & _ & ? & ? & ?); [done| |by exists m, r].
    destruct (wh_return es Hwf e) as (r & Hb & ? & ?); [|done|].
    { apply elem_of_reverse. by eapply list_elem_of_lookup_2. }
    exists r. split; [|done]. destruct Hb as (A & B & -> & HB).
    unfold ent in Hl. rewrite reverse_app, reverse_cons, <-app_assoc in Hl |- *.
    assert (l = List.length (reverse B)) as ->.
    { eapply NoDup_lookup; [|exact Hl|by rewrite lookup_app_r, Nat.sub_diag by lia].
      apply wf_NoDup in Hwf. rewrite <-reverse_Permutation in Hwf.
      by rewrite reverse_app, reverse_cons, <-app_assoc in Hwf. }
    rewrite take_app_length. by apply elem_of_reverse.
Qed.

Lemma search_loop_mono Step equal cp hd n fuel fuel' kill (st : search V St) r :
  search_loop Step equal cp hd n fuel kill st = Ret r → (fuel ≤ fuel')%nat →
  search_loop Step equal cp hd n fuel' kill st = Ret r.
Proof.
  revert fuel' kill st. induction fuel as [|fuel IH]; intros fuel' kill st; [done|].
  destruct fuel' as [|fuel']; [lia|]. simpl. intros (x & -> & Hx)%go_bind_Ret Hf. simpl.
  destruct x as [st'|]; [|done]. apply IH; [done|lia].
Qed.

Lemma checkSingle_mono (model : Model V St) es cp kill fuel fuel' r :
  checkSingle fuel model es cp kill = Ret r → (fuel ≤ fuel')%nat →
  checkSingle fuel' model es cp kill = Ret r.
Proof.
  unfold checkSingle. intros (equal & -> & H)%go_bind_Ret Hf. simpl.
  apply go_bind_Ret in H as ([[h ent] m] & -> & H). simpl.
  apply go_bind_Ret in H as (len & -> & H). simpl.
  apply go_bind_Ret in H as (h' & -> & H). simpl. by eapply search_loop_mono.
Qed.

(** The run of [checkSingle], from the exploration of the top level. *)
Lemma checkSingle_run (model : Model V St) (es : list (entry V)) computePartial :
  history_ok es → model_ok model es →
  ∃ fuel0 b longest,
    (∀ fuel, (fuel0 ≤ fuel)%nat →
      checkSingle fuel model es computePartial (λ _, false) = Ret (b, longest)) ∧
    (b = true ↔ lin (Step model) (Init model) es) ∧
    long_ok (Step model) (Init model) es longest.
Proof.
  intros Hh [Htot (equal & Heq & Hsim)]. pose proof Hh as [Hwf Hperm].
  destruct (makeLinkedEntries_linked es) as (h & root & mtch & Hmk & HL).
  destruct (initial_repr es h root mtch Hh HL) as (h' & Hins & Hr).
  pose proof HL as [Hsz _ Hseg Hroot _ _ _].
  set (n := Z.of_nat (List.length es) / 2) in *.
  set (st := mkSearch V St h' root (Init model) (newBitset n) ∅ []
    (replicate (Z.to_nat n) None) O).
  assert (∀ fuel, checkSingle fuel model es computePartial (λ _, false) =
    loop (Step model) equal es computePartial fuel st) as Hrun.
  { intros fuel. unfold checkSingle, length. rewrite Heq. simpl. rewrite Hmk. simpl.
    rewrite Hroot, (length_loop_seg h None _ _ _ Hseg) by (rewrite length_locs; lia). simpl.
    rewrite length_locs, Z.quot_div_nonneg by lia. fold n. rewrite Hsz, <-Hroot, Hins. done. }
  assert (long_ok (Step model) (Init model) es (replicate (Z.to_nat n) None)) as Hlong.
  { split; [apply length_replicate|]. intros i p seq [??]%lookup_replicate. done. }
  assert (ents es (locs es) (rem es (newBitset n))) as Hents.
  { unfold n. rewrite rem_new. clear. unfold ents, ent. induction es as [|e es IH]; [constructor|].
    simpl. constructor.
    - by rewrite reverse_cons, lookup_app_r, length_reverse, Nat.sub_diag by (rewrite length_reverse; lia).
    - eapply Forall2_impl; [exact IH|]. intros l e' Hl. rewrite reverse_cons.
      by apply lookup_app_l_Some. }
  destruct (explored_all (Step model) equal (Init model) es computePartial Hsim Htot Hwf Hperm
    (S (List.length (locs es))) h' (locs es) (newBitset n) (Init model) [] ∅
    (replicate (Z.to_nat n) None) O []) as [(l' & Hf & Hlin & Hl')|Hstuck]; try done.
  - lia.
  - constructor.
  - intros Y t HY. by apply elem_of_nil in HY.
  - destruct Hf as [k Hf]. exists k, true, l'. split_and!; [|done|done]. intros fuel Hk.
    rewrite Hrun, (Nat.le_add_sub k fuel Hk). subst st. rewrite Hroot. apply Hf.
  - destruct Hstuck as (x & e & cache & l' & a & [k Hk] & Hnil & Hx & Hkx & Hnl & _ & Hl').
    exists (S k), false, l'. split_and!; [| |done].
    + intros fuel Hf. rewrite Hrun. replace fuel with (k + S (fuel - S k))%nat by lia.
      subst st. rewrite Hroot, Hk. unfold loop. simpl.
      destruct (repr_head _ _ _ Hr) as (hd & Hhd & Hn).
      destruct (rp_node _ _ _ Hr _ _ Hx) as (nd & Hnd & _ & _ & Hm & _).
      unfold search_step. cbn [sr_heap sr_entry sr_calls sr_longest].
      rewrite (load_Some _ _ _ Hhd). simpl. rewrite Hn. destruct (locs es); [done|]. simpl.
      rewrite (load_Some _ _ _ Hnd). simpl. by rewrite (Hm Hkx).
    + unfold n in Hnl. rewrite rem_new in Hnl. split; [done|by intros ?].
Qed.

(** C1 [checkSingle] is a decision procedure for linearizability: on a
    history whose operations are numbered from 0, each called and then
    returned once, the search ends, it returns the same answer for every
    larger fuel, and the answer is true exactly when some order of the
    operations respects real time and is accepted by the model. *)
Theorem checkSingle_correct (model : Model V St) (es : list (entry V)) computePartial :
  history_ok es → model_ok model es →
  ∃ fuel0 b longest,
    (∀ fuel, (fuel0 ≤ fuel)%nat →
      checkSingle fuel model es computePartial (λ _, false) = Ret (b, longest)) ∧
    (b = true ↔ linearizable (Step model) (Init model) es).
Proof.
  intros Hh Hm. destruct (checkSingle_run model es computePartial Hh Hm) as (k & b & l & Hr & Hb & _).
  exists k, b, l. split; [done|]. rewrite Hb. apply lin_iff, Hh.
Qed.

(** Every prefix that [checkSingle] records for operation [i] contains
    [i] and is a partial linearization: no repetition, accepted by the model
    from its initial state, and closed under the real-time order. *)
Lemma checkSingle_longest (model : Model V St) (es : list (entry V)) computePartial fuel b longest :
  history_ok es → model_ok model es →
  checkSingle fuel model es computePartial (λ _, false) = Ret (b, longest) →
  ∀ i p seq, longest !! i = Some (Some (p, seq)) →
    Z.of_nat i ∈ seq ∧ partial_linearization (Step model) (Init model) es seq.
Proof.
  intros Hh Hm Hrun i p seq Hi.
  destruct (checkSingle_run model es computePartial Hh Hm) as (k & b' & l & Hr & _ & Hl).
  apply (checkSingle_mono _ _ _ _ _ (fuel + k)) in Hrun; [|lia]. rewrite Hr in Hrun by lia.
  injection Hrun as -> ->. destruct Hl as [_ Hl].
  destruct (Hl _ _ _ Hi) as (Hin & K & s & X & HP & HK). split; [done|].
  destruct Hm as [Htot (equal & _ & Hsim)], Hh as [Hwf Hperm]. by eapply path_partial.
Qed.
End checkSingle.
