(* ===== verification/KvModel.v ===== *)
(** * KvModel: [Lab02/src/models/kv.go]

    The sequential specification of one key of a key/value store, against which
    the checker judges histories, and the partition of a history by key. *)
From S2P Require Import Prelude Bitset Checker.

Record KvInput := mkKvInput { Op : Z; Key : string; Value : string }.
Record KvOutput := mkKvOutput { out_Value : string }.

(** The [interface{}] of an operation of this model. *)
Inductive kvValue := Inp (i : KvInput) | Out (o : KvOutput).

(** Type assertions: a failed one panics. *)
Definition asInput (v : kvValue) : go KvInput :=
  match v with Inp i => Ret i | Out _ => Panic end.
Definition asOutput (v : kvValue) : go KvOutput :=
  match v with Out o => Ret o | Inp _ => Panic end.

Definition KvStep (st : string) (input output : kvValue) : go (bool * string) :=
  inp ← asInput input;
  out ← asOutput output;
  mret (if Op inp =? 0 then (bool_decide (out_Value out = st), st)
        else if Op inp =? 1 then (true, Value inp)
        else (true, st +:+ Value inp)).

(** [m[key] = append(m[key], v)] over the history. *)
Fixpoint group_by_key (history : list (Operation kvValue))
    (m : gmap string (list (Operation kvValue))) : go (gmap string (list (Operation kvValue))) :=
  match history with
  | [] => mret m
  | v :: rest =>
      inp ← asInput (op_Input v);
      group_by_key rest (<[Key inp := default [] (m !! Key inp) ++ [v]]> m)
  end.

Section model.
Context (sort : ∀ A, (A → A → bool) → list A → list A).

(** The keys of the map are collected in an unspecified order, and sorted. *)
Definition KvPartition (history : list (Operation kvValue))
    : go (list (list (Operation kvValue))) :=
  m ← group_by_key history ∅;
  let keys := sort _ String.ltb (map_to_list m).*1 in
  mret ((λ k, default [] (m !! k)) <$> keys).

Definition KvDescribeOperation (input output : kvValue) : go string :=
  inp ← asInput input;
  out ← asOutput output;
  mret (if Op inp =? 0 then "get('" +:+ Key inp +:+ "') -> '" +:+ out_Value out +:+ "'"
        else if Op inp =? 1 then "put('" +:+ Key inp +:+ "', '" +:+ Value inp +:+ "')"
        else if Op inp =? 2 then "append('" +:+ Key inp +:+ "', '" +:+ Value inp +:+ "')"
        else "<invalid>").

Definition KvModel : Model kvValue string := {|
  Partition := Some KvPartition;
  PartitionEvent := None;
  Init := "";
  Step := KvStep;
  Equal := None;
  DescribeOperation := Some KvDescribeOperation;
  DescribeState := None |}.
End model.
