(* ===== verification/Porcupine.v ===== *)
(** * Porcupine: the verdicts of the checker on histories of operations

    [makeEntries] turns operations into a well-formed history, linearizability
    of the entries is linearizability of the operations, and the parallel
    driver returns the conjunction of the verdicts of the partitions, whatever
    the order in which the goroutines answer. *)
From S2P Require Import Prelude Bitset Checker Linearize LinkedList CheckerProof KvModel.

(** ** Entries in time order *)
Section entries.
Context {V : Type}.
Implicit Types (e : entry V) (o : Operation V) (history : list (Operation V)).

(** Time first, then calls before returns. *)
Definition rank e : Z :=
  2 * time e + match kind e with callEntry => 0 | returnEntry => 1 end.

Lemma byTime_Less_rank a b : byTime_Less a b = bool_decide (rank a < rank b).
Proof.
  unfold byTime_Less, rank. case_bool_decide as Ht.
  - apply bool_decide_ext. destruct (kind a), (kind b); lia.
  - destruct (kind a), (kind b); symmetry;
      first [apply bool_decide_eq_true_2; lia|apply bool_decide_eq_false_2; lia].
Qed.

Lemma byTime_strict_weak : strict_weak (byTime_Less (V:=V)).
Proof.
  split_and!.
  - intros a. rewrite byTime_Less_rank. apply bool_decide_eq_false_2. lia.
  - intros a b c. rewrite !byTime_Less_rank, !bool_decide_eq_true. lia.
  - intros a b c. rewrite !byTime_Less_rank, !bool_decide_eq_false. lia.
Qed.

Lemma sorted_before (R : relation (entry V)) L x y :
  StronglySorted R L → before L x y → R x y.
Proof.
  induction 1 as [|z L Hs IH Hz]; [by intros (l1 & ? & ? & _); destruct l1|].
  rewrite before_cons. intros [[-> Hy]|?]; [|auto]. rewrite Forall_forall in Hz. auto.
Qed.

Definition callE (i : Z) o : entry V := mkEntry _ callEntry (op_Input o) i (op_Call o) (op_ClientId o).
Definition retE (i : Z) o : entry V := mkEntry _ returnEntry (op_Output o) i (op_Return o) (op_ClientId o).

Lemma elem_of_entries_from i history e :
  e ∈ entries_from i history ↔
  ∃ k o, history !! k = Some o ∧ (e = callE (i + Z.of_nat k) o ∨ e = retE (i + Z.of_nat k) o).
Proof.
  revert i. induction history as [|o history IH]; intros i; simpl.
  { split; [by intros ?%elem_of_nil|by intros (k & o & ? & _)]. }
  rewrite !elem_of_cons, IH. split.
  - intros [->|[->|(k & o' & Hk & He)]].
    + exists O, o. rewrite Z.add_0_r. auto.
    + exists O, o. rewrite Z.add_0_r. auto.
    + exists (S k), o'. replace (i + Z.of_nat (S k)) with (i + 1 + Z.of_nat k) by lia. auto.
  - intros ([|k] & o' & Hk & He); simpl in Hk.
    + injection Hk as <-. rewrite Z.add_0_r in He. destruct He; auto.
    + right; right. exists k, o'. replace (i + 1 + Z.of_nat k) with (i + Z.of_nat (S k)) by lia. auto.
Qed.

Lemma entries_from_NoDup i history :
  NoDup ((λ e, (kind e, id e)) <$> entries_from i history).
Proof.
  revert i. induction history as [|o history IH]; intros i; [constructor|]. simpl.
  assert (∀ k, (k, i) ∉ (λ e, (kind e, id e)) <$> entries_from (i + 1) history) as Hi.
  { intros k (e & [= -> Hid] & He)%list_elem_of_fmap.
    apply elem_of_entries_from in He as (j & o' & _ & [-> | ->]); simpl in Hid; lia. }
  rewrite !NoDup_cons. split_and!; [|apply Hi|apply IH].
  intros [?|?]%elem_of_cons; [done|by eapply Hi].
Qed.

Lemma length_entries_from i history :
  List.length (entries_from i history) = (2 * List.length history)%nat.
Proof. revert i. induction history as [|o history IH]; intros i; simpl; [done|]. rewrite IH. lia. Qed.

Lemma ids_entries_from i history :
  ids (entries_from i history) = seqZ i (Z.of_nat (List.length history)).
Proof.
  revert i. induction history as [|o history IH]; intros i; [done|].
  unfold ids in *. simpl. rewrite !filter_cons. simpl. rewrite IH.
  rewrite Nat2Z.inj_succ, (seqZ_cons i) by lia. by rewrite Z.pred_succ.
Qed.

Section sorted.
Context (sort : ∀ A, (A → A → bool) → list A → list A) `{!GoSort sort}.

Lemma makeEntries_perm history : makeEntries sort history ≡ₚ entries_from 0 history.
Proof. unfold makeEntries. apply sort_perm. Qed.

Lemma makeEntries_before history x y :
  before (makeEntries sort history) x y → rank x ≤ rank y.
Proof.
  intros Hb. pose proof (sorted_before _ _ _ _
    (sort_sorted _ _ (entries_from 0 history) byTime_strict_weak) Hb) as Hl.
  cbn beta in Hl. rewrite byTime_Less_rank in Hl. apply bool_decide_eq_false in Hl. lia.
Qed.

Lemma elem_of_makeEntries history e :
  e ∈ makeEntries sort history ↔
  ∃ k o, history !! k = Some o ∧ (e = callE (Z.of_nat k) o ∨ e = retE (Z.of_nat k) o).
Proof. rewrite makeEntries_perm, elem_of_entries_from. done. Qed.

Lemma makeEntries_order history x y :
  x ∈ makeEntries sort history → y ∈ makeEntries sort history → rank x < rank y →
  before (makeEntries sort history) x y.
Proof.
  intros Hx Hy Hr. destruct (before_total _ _ _ Hx Hy) as [?|Hb]; [intros ->; lia|done|].
  apply makeEntries_before in Hb. lia.
Qed.

Lemma makeEntries_ok history :
  Forall (λ o, op_Call o ≤ op_Return o) history → history_ok (makeEntries sort history).
Proof.
  rewrite Forall_lookup. intros Hcr. split; [split|].
  - rewrite makeEntries_perm. apply entries_from_NoDup.
  - intros c Hc Hk. apply elem_of_makeEntries in Hc as Hc'.
    destruct Hc' as (k & o & Hko & [-> | ->]); [|done].
    exists (retE (Z.of_nat k) o). split; [|done]. apply makeEntries_order; [done| |].
    + apply elem_of_makeEntries. eauto.
    + specialize (Hcr _ _ Hko). unfold rank. simpl. lia.
  - intros r Hr Hk. apply elem_of_makeEntries in Hr as Hr'.
    destruct Hr' as (k & o & Hko & [-> | ->]); [done|].
    exists (callE (Z.of_nat k) o). split; [|done]. apply makeEntries_order; [|done|].
    + apply elem_of_makeEntries. eauto.
    + specialize (Hcr _ _ Hko). unfold rank. simpl. lia.
  - unfold ids. rewrite makeEntries_perm. fold (ids (entries_from 0 history)).
    rewrite ids_entries_from, length_entries_from, Nat2Z.inj_mul.
    change (Z.of_nat 2) with 2. rewrite (Z.mul_comm 2), Z.div_mul by lia. done.
Qed.
End sorted.
End entries.

(** ** Linearizability of operations *)
Section operations.
Context {V St : Type} (Step : St → V → V → go (bool * St)).
Implicit Types (s : St) (history : list (Operation V)) (σ : list Z).

Inductive op_legal history : St → list Z → Prop :=
| op_legal_nil s : op_legal history s []
| op_legal_cons s k o s' σ :
    history !! k = Some o → Step s (op_Input o) (op_Output o) = Ret (true, s') →
    op_legal history s' σ → op_legal history s (Z.of_nat k :: σ).

(** An order of all the operations that keeps an operation that returned
    before another was called in front of it, accepted by the model. *)
Definition op_linearizable s history : Prop :=
  ∃ σ, σ ≡ₚ seqZ 0 (Z.of_nat (List.length history)) ∧
    (∀ i j oi oj, history !! i = Some oi → history !! j = Some oj →
      op_Return oi < op_Call oj → before σ (Z.of_nat i) (Z.of_nat j)) ∧
    op_legal history s σ.

Context (sort : ∀ A, (A → A → bool) → list A → list A) `{!GoSort sort}.

Lemma call_of_makeEntries history k o :
  history !! k = Some o → call_of (makeEntries sort history) (Z.of_nat k) (op_Input o).
Proof. intros Hk. exists (callE (Z.of_nat k) o). split; [|done]. apply elem_of_makeEntries; eauto. Qed.
Lemma return_of_makeEntries history k o :
  history !! k = Some o → return_of (makeEntries sort history) (Z.of_nat k) (op_Output o).
Proof. intros Hk. exists (retE (Z.of_nat k) o). split; [|done]. apply elem_of_makeEntries; eauto. Qed.

Lemma legal_ops history s σ : legal Step (makeEntries sort history) s σ ↔ op_legal history s σ.
Proof.
  split.
  - induction 1 as [|s i σ s' inp out (c & Hc & Hkc & Hic & <-) (r & Hr & Hkr & Hir & <-) Hs _ IH];
      [constructor|].
    apply elem_of_makeEntries in Hc as (k & o & Hko & [-> | ->]), Hr as (k' & o' & Hko' & [-> | ->]);
      try done. simpl in *. subst i. apply Nat2Z.inj in Hir as ->. simplify_eq.
    by econstructor.
  - induction 1 as [|s k o s' σ Hk Hs _ IH]; [constructor|].
    econstructor; eauto using call_of_makeEntries, return_of_makeEntries.
Qed.

Lemma real_time_ops history i j :
  real_time (makeEntries sort history) i j ↔
  ∃ k l ok ol, i = Z.of_nat k ∧ j = Z.of_nat l ∧ history !! k = Some ok ∧
    history !! l = Some ol ∧ op_Return ok < op_Call ol.
Proof.
  split.
  - intros (r & c & Hb & Hkr & <- & Hkc & <-).
    pose proof (makeEntries_before _ _ _ _ Hb) as Hrank.
    apply before_l in Hb as Hr. apply before_r in Hb as Hc.
    apply elem_of_makeEntries in Hc as (k & o & Hko & [-> | ->]), Hr as (k' & o' & Hko' & [-> | ->]);
      try done. exists k', k, o', o. unfold rank in Hrank. simpl in *. split_and!; [done..|lia].
  - intros (k & l & ok & ol & -> & -> & Hk & Hl & Ht).
    exists (retE (Z.of_nat k) ok), (callE (Z.of_nat l) ol). split; [|done].
    apply makeEntries_order; [done| | |unfold rank; simpl; lia]; apply elem_of_makeEntries; eauto.
Qed.

Lemma linearizable_ops s history :
  linearizable Step s (makeEntries sort history) ↔ op_linearizable s history.
Proof.
  unfold linearizable, op_linearizable.
  assert (ids (makeEntries sort history) ≡ₚ seqZ 0 (Z.of_nat (List.length history))) as Hids.
  { unfold ids. rewrite (makeEntries_perm sort). fold (ids (entries_from 0 history)).
    by rewrite ids_entries_from. }
  setoid_rewrite Hids. setoid_rewrite legal_ops. setoid_rewrite real_time_ops.
  split; intros (σ & HP & Hrt & Hl); exists σ; (split_and!; [done| |done]).
  - intros i j oi oj Hi Hj Ht. apply Hrt. eauto 10.
  - intros i j (k & l & ok & ol & -> & -> & ? & ? & ?). eauto.
Qed.
End operations.

(** ** The select loop *)
Lemma select_loop_all total info (res : nat → bool) arrivals count ok :
  (count + List.length arrivals = total)%nat → arrivals ≠ [] →
  ∃ t, select_loop total info res (Some <$> arrivals) count ok = Ret (t, false) ∧
    t = ok && forallb res arrivals.
Proof.
  revert count ok. induction arrivals as [|i arr IH]; intros count ok Hlen Hnil; [done|].
  simpl. destruct (negb (ok && res i) && negb info) eqn:E.
  { apply andb_true_iff in E as [E%negb_true_iff _]. eexists. split; [done|].
    by rewrite andb_assoc, E. }
  case_decide as Hd.
  { destruct arr; [|simpl in *; lia]. eexists. split; [done|]. simpl. by rewrite andb_true_r. }
  destruct (IH (S count) (ok && res i)) as (t & E2 & ->); [simpl in *; lia| |].
  { intros ->. simpl in *. lia. }
  eexists. split; [exact E2|]. by rewrite andb_assoc.
Qed.

(** With the timer among the arrivals, the verdict is still sound: a false
    conjunction comes from a result that was received. *)
Lemma select_loop_sound total info (res : nat → bool) arrivals count ok t timedOut :
  select_loop total info res arrivals count ok = Ret (t, timedOut) →
  (t = false → ok = false ∨ ∃ i, Some i ∈ arrivals ∧ res i = false) ∧
  (t = true → timedOut = false → ok = true ∧
     ∃ pre, (Some <$> pre) `prefix_of` arrivals ∧ (total ≤ count + List.length pre)%nat ∧
       Forall (λ i, res i = true) pre).
Proof.
  revert count ok. induction arrivals as [|[i|] arr IH]; intros count ok; simpl; [done| |].
  - assert (ok && res i = false → ok = false ∨ ∃ j, Some j ∈ Some i :: arr ∧ res j = false) as Hf.
    { intros Hf. apply andb_false_iff in Hf as [?|?]; [by left|right]. exists i. split; [by left|done]. }
    assert (ok && res i = true → (total ≤ S count)%nat → ok = true ∧ ∃ pre,
      (Some <$> pre) `prefix_of` Some i :: arr ∧ (total ≤ count + List.length pre)%nat ∧
      Forall (λ i, res i = true) pre) as Ht.
    { intros [-> ?]%andb_true_iff Hle. split; [done|]. exists [i]. split_and!; [by exists arr|simpl; lia|].
      by repeat constructor. }
    destruct (negb (ok && res i) && negb info) eqn:E.
    { intros [= <- <-]. apply andb_true_iff in E as [E%negb_true_iff _]. rewrite E. naive_solver. }
    case_decide; [intros [= <- <-]; auto|].
    intros (H1 & H2)%IH. split.
    + intros Hb. destruct (H1 Hb) as [?|(j & ? & ?)]; [auto|]. right. exists j. split; [by right|done].
    + intros Hb Hto. destruct (H2 Hb Hto) as ([-> ?]%andb_true_iff & pre & [suf ->] & Hlen & Hpre).
      split; [done|]. exists (i :: pre). split_and!; [by exists suf|simpl; lia|by constructor].
  - intros [= <- <-]. split; [auto|done].
Qed.

Lemma omap_Some_fmap {A} (l : list A) : omap Datatypes.id (Some <$> l) = l.
Proof. induction l as [|x l IH]; [done|]. cbn. by f_equal. Qed.

(** Pigeonhole: enough distinct numbers below a bound are all of them. *)
Lemma all_below n (l : list nat) i :
  NoDup l → Forall (λ j, (j < n)%nat) l → (n ≤ List.length l)%nat → (i < n)%nat → i ∈ l.
Proof.
  intros Hnd Hb Hlen Hi.
  assert (l ≡ₚ seq 0 n) as ->; [|apply elem_of_seq; lia].
  apply submseteq_length_Permutation; [|rewrite length_seq; lia].
  apply NoDup_submseteq; [done|]. intros j Hj. rewrite Forall_forall in Hb.
  apply elem_of_seq. specialize (Hb j Hj). lia.
Qed.

(** ** The drivers *)
Section drivers.
Context {V St : Type} `{EqDecision St} (showV : V → string) (showS : St → string).
Context (sort : ∀ A, (A → A → bool) → list A → list A) `{!GoSort sort}.
Abbreviation full model := (fillDefault showV showS model).

(** A partition on which the checker decides: operations return after they
    are called and the model answers on them. *)
Definition part_ok (model : Model V St) (part : list (Operation V)) : Prop :=
  Forall (λ o, op_Call o ≤ op_Return o) part ∧ model_ok model (makeEntries sort part).

Lemma checkSingle_ops (model : Model V St) part info :
  part_ok model part →
  ∃ fuel0 b l, (∀ fuel, (fuel0 ≤ fuel)%nat →
      checkSingle fuel model (makeEntries sort part) info (λ _, false) = Ret (b, l)) ∧
    (b = true ↔ op_linearizable (Step model) (Init model) part).
Proof.
  intros [Hcr Hm].
  destruct (checkSingle_run model (makeEntries sort part) info (makeEntries_ok sort _ Hcr) Hm)
    as (k & b & l & Hr & Hb & _).
  exists k, b, l. split; [done|].
  rewrite Hb, lin_iff by (by apply makeEntries_ok). by apply linearizable_ops.
Qed.

Lemma checkSingle_parts (model : Model V St) parts info :
  Forall (part_ok model) parts →
  ∃ fuel0 (results : list (bool * list (option seqPtr))),
    (∀ fuel, (fuel0 ≤ fuel)%nat →
      mapM (λ sub, checkSingle fuel model sub info (λ _, false)) (makeEntries sort <$> parts)
      = Ret results) ∧
    Forall2 (λ p r, r.1 = true ↔ op_linearizable (Step model) (Init model) p) parts results.
Proof.
  induction 1 as [|p parts Hp _ (k2 & results & Hr & Hf)].
  { exists O, []. split; [done|constructor]. }
  destruct (checkSingle_ops model p info Hp) as (k1 & b & l & Hp1 & Hb).
  exists (k1 + k2)%nat, ((b, l) :: results). split; [|by constructor].
  intros fuel Hle. cbn. rewrite Hp1 by lia. simpl. rewrite Hr by lia. done.
Qed.

Lemma checkSingle_mapM_mono (model : Model V St) (l : list (list (entry V))) info fuel fuel' rs :
  mapM (λ sub, checkSingle fuel model sub info (λ _, false)) l = Ret rs → (fuel ≤ fuel')%nat →
  mapM (λ sub, checkSingle fuel' model sub info (λ _, false)) l = Ret rs.
Proof.
  intros Hm Hf. revert rs Hm. induction l as [|sub l IH]; intros rs; [done|]. cbn.
  intros (r & Hr & H)%go_bind_Ret. apply go_bind_Ret in H as (rs' & Hrs & [= <-]).
  rewrite (checkSingle_mono _ _ _ _ _ _ _ Hr Hf). simpl. by rewrite (IH _ Hrs).
Qed.

Abbreviation verdict results :=
  (λ i : nat, match results !! i with Some (ok, _) => ok | None => false end).

Lemma verdict_spec (model : Model V St) parts (results : list (bool * list (option seqPtr))) i p :
  Forall2 (λ p r, r.1 = true ↔ op_linearizable (Step model) (Init model) p) parts results →
  parts !! i = Some p →
  (verdict results i = true ↔ op_linearizable (Step model) (Init model) p).
Proof.
  intros HF Hp. destruct (Forall2_lookup_l _ _ _ _ _ HF Hp) as ([b l] & -> & Hb). done.
Qed.

Lemma checkParallel_run (model : Model V St) parts info arrivals :
  parts ≠ [] → Forall (part_ok model) parts → arrivals ≡ₚ seq 0 (List.length parts) →
  ∃ fuel0 r, (∀ fuel, (fuel0 ≤ fuel)%nat →
      checkParallel fuel model (makeEntries sort <$> parts) info (Some <$> arrivals) = Ret r) ∧
    (r = Ok ↔ Forall (op_linearizable (Step model) (Init model)) parts).
Proof.
  intros Hnil Hok Harr. destruct (checkSingle_parts model parts info Hok) as (k & results & Hr & Hf).
  assert (List.length arrivals = List.length parts) as Hlen by (by rewrite Harr, length_seq).
  destruct (select_loop_all (List.length parts) info (verdict results) arrivals O true)
    as (t & Ht & Hb); [done|by intros ->; destruct parts|].
  exists k, (if t then Ok else Illegal). split.
  - intros fuel Hfuel. unfold checkParallel. rewrite (Hr fuel Hfuel), length_fmap. simpl.
    simpl in Ht. rewrite Ht. simpl. by destruct t.
  - trans (t = true); [by destruct t|]. rewrite Hb. simpl. rewrite forallb_forall, Forall_lookup. split.
    + intros Hall i p Hp. apply (verdict_spec model _ _ _ _ Hf Hp), Hall.
      apply list_elem_of_In. rewrite Harr. apply elem_of_seq. apply lookup_lt_Some in Hp. lia.
    + intros Hall i Hi%list_elem_of_In. rewrite Harr, elem_of_seq in Hi.
      destruct (lookup_lt_is_Some_2 parts i) as [p Hp]; [lia|].
      apply (verdict_spec model _ _ _ _ Hf Hp). by eapply Hall.
Qed.

Lemma CheckOperations_run (model : Model V St) history part parts arrivals :
  Partition (full model) = Some part → part history = Ret parts → parts ≠ [] →
  Forall (part_ok (full model)) parts → arrivals ≡ₚ seq 0 (List.length parts) →
  ∃ fuel0 b, (∀ fuel, (fuel0 ≤ fuel)%nat →
      CheckOperations showV showS sort fuel model history arrivals = Ret b) ∧
    (b = true ↔ Forall (op_linearizable (Step model) (Init model)) parts).
Proof.
  intros Hpart Hparts Hnil Hok Harr.
  destruct (checkParallel_run (full model) parts false arrivals Hnil Hok Harr) as (k & r & Hr & Hb).
  exists k, (is_Ok r). split; [|by rewrite <-Hb; destruct r].
  intros fuel Hfuel. unfold CheckOperations, checkOperations. rewrite Hpart. simpl.
  rewrite Hparts. simpl. by rewrite (Hr fuel Hfuel).
Qed.

Lemma CheckOperations_blocks (model : Model V St) history part fuel :
  Partition (full model) = Some part → part history = Ret [] →
  CheckOperations showV showS sort fuel model history [] = Blocked.
Proof. intros Hpart Hparts. unfold CheckOperations, checkOperations. rewrite Hpart. simpl. by rewrite Hparts. Qed.

(** C2 Without a timeout, when the partition function answers and every part is a
    history ([part_ok]: the operations return after they were called, and the model
    steps on all of them and treats equal states alike): if there is a part, [CheckOperations] returns for every order in which the
    goroutines answer, and returns true exactly when every part is linearizable
    with respect to the model; if there is none, it blocks for ever. *)
Theorem CheckOperations_correct (model : Model V St) history part parts arrivals :
  Partition (full model) = Some part → part history = Ret parts →
  Forall (part_ok (full model)) parts → arrivals ≡ₚ seq 0 (List.length parts) →
  (parts ≠ [] → ∃ fuel0 b, (∀ fuel, (fuel0 ≤ fuel)%nat →
      CheckOperations showV showS sort fuel model history arrivals = Ret b) ∧
    (b = true ↔ Forall (op_linearizable (Step model) (Init model)) parts)) ∧
  (parts = [] → ∀ fuel, CheckOperations showV showS sort fuel model history arrivals = Blocked).
Proof.
  intros Hpart Hparts Hok Harr. split; [intros Hne; by eapply CheckOperations_run|].
  intros -> fuel. apply Permutation_nil_r in Harr as ->. by eapply CheckOperations_blocks.
Qed.

(** C4 With a timeout the verdict is one-sided but sound: [Illegal] is only
    returned when some partition is not linearizable, [Ok] only when all
    are, whether or not the timer expires (the comments in porcupine.go and
    checker.go say that a false positive is then possible). *)
Theorem CheckOperationsTimeout_sound (model : Model V St) history part parts arrivals fuel r :
  Partition (full model) = Some part → part history = Ret parts →
  Forall (part_ok (full model)) parts →
  NoDup (omap Datatypes.id arrivals) → (∀ i, Some i ∈ arrivals → (i < List.length parts)%nat) →
  CheckOperationsTimeout showV showS sort fuel model history arrivals = Ret r →
  (r = Illegal → Exists (λ p, ¬ op_linearizable (Step model) (Init model) p) parts) ∧
  (r = Ok → Forall (op_linearizable (Step model) (Init model)) parts).
Proof.
  intros Hpart Hparts Hok Hnd Hrange Hrun.
  destruct (checkSingle_parts (full model) parts false Hok) as (k & results & Hr & Hf).
  unfold CheckOperationsTimeout, checkOperations in Hrun. rewrite Hpart in Hrun. simpl in Hrun.
  rewrite Hparts in Hrun. simpl in Hrun. unfold checkParallel in Hrun.
  apply go_bind_Ret in Hrun as (rs & Hrs & Hrun).
  apply (checkSingle_mapM_mono _ _ _ _ (fuel + k)) in Hrs; [|lia].
  rewrite Hr in Hrs by lia. injection Hrs as <-.
  apply go_bind_Ret in Hrun as ([t timedOut] & Hsel & Hres). rewrite length_fmap in Hsel.
  injection Hres as <-. apply select_loop_sound in Hsel as [Hfalse Htrue]. split.
  - destruct t; simpl; [by destruct timedOut|]. intros _.
    destruct (Hfalse eq_refl) as [?|(i & Hi & Hv)]; [done|].
    destruct (lookup_lt_is_Some_2 parts i (Hrange i Hi)) as [p Hp].
    apply Exists_exists. exists p. split; [by eapply list_elem_of_lookup_2|].
    rewrite <-(verdict_spec (full model) _ _ _ _ Hf Hp), Hv. done.
  - destruct t, timedOut; simpl; try done. intros _.
    destruct (Htrue eq_refl eq_refl) as (_ & pre & [suf Hsuf] & Hlen & Hpre).
    apply Forall_lookup. intros i p Hp. apply (verdict_spec (full model) _ _ _ _ Hf Hp).
    rewrite Forall_forall in Hpre. apply Hpre.
    apply (all_below (List.length parts)); [| |lia|by eapply lookup_lt_Some].
    + rewrite Hsuf, omap_app, omap_Some_fmap in Hnd. apply NoDup_app in Hnd as [Hnd _]. exact Hnd.
    + apply Forall_forall. intros j Hj. apply Hrange. rewrite Hsuf. apply elem_of_app. left.
      apply list_elem_of_fmap. eauto.
Qed.
End drivers.

(** ** The key/value model *)
Section kv.
Context (sort : ∀ A, (A → A → bool) → list A → list A) `{!GoSort sort}.
Context (showV : kvValue → string) (showS : string → string).
Implicit Types (history : list (Operation kvValue)) (o : Operation kvValue).

Definition typed o : Prop := ∃ i out, op_Input o = Inp i ∧ op_Output o = Out out.
Definition key_of o : string := match op_Input o with Inp i => Key i | Out _ => "" end.
Definition of_key history (k : string) : list (Operation kvValue) :=
  filter (λ o, key_of o = k) history.

Lemma group_by_key_spec history m :
  Forall typed history →
  ∃ m', group_by_key history m = Ret m' ∧
    ∀ k, m' !! k = match of_key history k with
                   | [] => m !! k | l => Some (default [] (m !! k) ++ l) end.
Proof.
  intros Ht. revert m. induction Ht as [|o history (i & out & Hi & _) _ IH]; intros m.
  { exists m. done. }
  simpl. rewrite Hi. simpl.
  destruct (IH (<[Key i := default [] (m !! Key i) ++ [o]]> m)) as (m' & -> & Hm').
  exists m'. split; [done|]. intros k. rewrite Hm'. unfold of_key. rewrite filter_cons.
  assert (key_of o = Key i) as Hk by (unfold key_of; by rewrite Hi).
  rewrite lookup_insert, Hk. repeat case_decide; subst; try done.
  fold (of_key history (Key i)). destruct (of_key history (Key i)) as [|o' l]; simpl.
  - done.
  - by rewrite <-app_assoc.
Qed.

Lemma KvPartition_spec history :
  Forall typed history →
  ∃ keys, KvPartition sort history = Ret (of_key history <$> keys) ∧ NoDup keys ∧
    ∀ k, k ∈ keys ↔ of_key history k ≠ [].
Proof.
  intros Ht. destruct (group_by_key_spec history ∅ Ht) as (m & Hg & Hm).
  exists (sort _ String.ltb (map_to_list m).*1).
  assert (∀ k, k ∈ sort _ String.ltb (map_to_list m).*1 ↔ of_key history k ≠ []) as Hkeys.
  { intros k. rewrite sort_perm, list_elem_of_fmap. split.
    - intros ([k' v] & -> & Hin%elem_of_map_to_list). rewrite Hm in Hin. simpl in *.
      by destruct (of_key history k').
    - intros Hne. destruct (of_key history k) as [|x l] eqn:E; [done|].
      exists (k, x :: l). split; [done|]. apply elem_of_map_to_list. by rewrite Hm, E. }
  split_and!; [| |done].
  - unfold KvPartition. rewrite Hg. simpl. f_equal. apply list_fmap_ext. intros i k Hk.
    apply list_elem_of_lookup_2, Hkeys in Hk. rewrite Hm.
    destruct (of_key history k); [done|]. done.
  - rewrite sort_perm. apply NoDup_fst_map_to_list.
Qed.

Lemma of_key_typed history k : Forall typed history → Forall typed (of_key history k).
Proof. rewrite !Forall_forall. intros Ht o [_ Ho]%list_elem_of_filter. auto. Qed.

Lemma KvModel_ok history :
  Forall typed history → model_ok (fillDefault showV showS (KvModel sort)) (makeEntries sort history).
Proof.
  rewrite Forall_lookup. intros Ht. split.
  - intros s c r Hc Hr Hkc Hkr.
    apply elem_of_makeEntries in Hc as (k & o & Hko & [-> | ->]), Hr as (k' & o' & Hko' & [-> | ->]);
      try done; [].
    destruct (Ht _ _ Hko) as (i & _ & Hi & _), (Ht _ _ Hko') as (_ & out & _ & Hout).
    simpl. rewrite Hi, Hout. unfold KvStep. simpl.
    destruct (Op i =? 0); [|destruct (Op i =? 1)]; eexists _, _; done.
  - exists ShallowEqual. split; [done|]. unfold ShallowEqual.
    intros s t i o s' ->%bool_decide_eq_true Hs. exists s'. split; [done|]. by apply bool_decide_eq_true.
Qed.

(** C3 [CheckOperations] on [KvModel] accepts a non-empty history exactly
    when, for every key, the operations on that key are linearizable as
    operations on a single string register with get, put and append. *)
Theorem CheckOperations_KvModel history arrivals parts :
  history ≠ [] → Forall typed history → Forall (λ o, op_Call o ≤ op_Return o) history →
  KvPartition sort history = Ret parts → arrivals ≡ₚ seq 0 (List.length parts) →
  ∃ fuel0 b, (∀ fuel, (fuel0 ≤ fuel)%nat →
      CheckOperations showV showS sort fuel (KvModel sort) history arrivals = Ret b) ∧
    (b = true ↔ ∀ k, op_linearizable KvStep "" (of_key history k)).
Proof.
  intros Hne Ht Hcr Hparts Harr.
  destruct (KvPartition_spec history Ht) as (keys & Hkp & _ & Hkeys).
  rewrite Hkp in Hparts. injection Hparts as <-.
  destruct (CheckOperations_run showV showS sort (KvModel sort) history (KvPartition sort)
    (of_key history <$> keys) arrivals) as (k & b & Hr & Hb); try done.
  - intros Hnil%fmap_nil_inv. destruct history as [|o history]; [done|].
    apply (elem_of_nil (key_of o)). rewrite <-Hnil. apply Hkeys. unfold of_key.
    by rewrite filter_cons, decide_True.
  - apply Forall_fmap, Forall_forall. intros k _. split.
    { rewrite Forall_forall in Hcr |- *. intros o [_ Ho]%list_elem_of_filter. auto. }
    by apply KvModel_ok, of_key_typed.
  - exists k, b. split; [done|]. rewrite Hb, Forall_fmap, Forall_forall. split.
    + intros Hall key. destruct (of_key history key) as [|o l] eqn:E.
      { exists []. split_and!; [done|by intros ? ? ? ? Hl; rewrite lookup_nil in Hl|constructor]. }
      rewrite <-E. apply (Hall key). apply Hkeys. by rewrite E.
    + intros Hall key _. apply Hall.
Qed.

(** On the empty history [KvModel] makes no partition, no goroutine
    answers, and [CheckOperations] waits for ever on its select. *)
Lemma CheckOperations_empty_blocks fuel :
  CheckOperations showV showS sort fuel (KvModel sort) [] [] = Blocked.
Proof.
  apply (CheckOperations_blocks showV showS sort (KvModel sort) [] (KvPartition sort)); [done|].
  destruct (KvPartition_spec []) as (keys & -> & _ & Hk); [constructor|].
  destruct keys as [|k keys]; [done|]. exfalso. by apply (Hk k); [left|].
Qed.
End kv.

(** ** Concrete histories *)
Section examples.
Definition kv_op (client : Z) (op : Z) (key val : string) (call : Z) (out : string) (ret : Z)
    : Operation kvValue :=
  mkOperation client (Inp (mkKvInput op key val)) call (Out (mkKvOutput out)) ret.
(** Two overlapping puts and a get that sees the one called first. *)
Definition ex_history : list (Operation kvValue) :=
  [kv_op 0 1 "x" "a" 0 "" 10; kv_op 1 1 "x" "b" 2 "" 5; kv_op 2 0 "x" "" 11 "a" 12].
Definition ex_model := fillDefault (λ _ : kvValue, "") (λ s : string, s) (KvModel insertion_sort).
Abbreviation ex_sort := insertion_sort.

Lemma ex_typed : Forall typed ex_history.
Proof. repeat constructor; eexists _, _; done. Qed.
Lemma ex_times : Forall (λ o : Operation kvValue, op_Call o ≤ op_Return o) ex_history.
Proof. repeat constructor; done. Qed.
Lemma ex_part_ok : Forall (part_ok ex_sort ex_model) [ex_history].
Proof.
  constructor; [|constructor]. split; [apply ex_times|].
  apply KvModel_ok; [apply _|apply ex_typed].
Qed.

Lemma checkSingle_correct_witness :
  ∃ fuel0 b longest,
    (∀ fuel, (fuel0 ≤ fuel)%nat →
      checkSingle fuel ex_model (makeEntries ex_sort ex_history) true (λ _, false) = Ret (b, longest)) ∧
    (b = true ↔ linearizable KvStep "" (makeEntries ex_sort ex_history)).
Proof.
  apply (checkSingle_correct ex_model).
  - apply makeEntries_ok; [apply _|apply ex_times].
  - apply KvModel_ok; [apply _|apply ex_typed].
Defined.

Lemma CheckOperations_correct_witness :
  (∃ fuel0 b, (∀ fuel, (fuel0 ≤ fuel)%nat →
      CheckOperations (λ _, "") (λ s, s) ex_sort fuel (KvModel ex_sort) ex_history [O] = Ret b) ∧
    (b = true ↔ Forall (op_linearizable KvStep "") [ex_history])) ∧
  CheckOperations (λ _, "") (λ s, s) ex_sort 9 (KvModel ex_sort) [] [] = Blocked.
Proof.
  split.
  - apply (CheckOperations_correct (λ _, "") (λ s, s) ex_sort (KvModel ex_sort) ex_history
      (KvPartition ex_sort) [ex_history]); [reflexivity|vm_compute; reflexivity|apply ex_part_ok|reflexivity|done].
  - apply (CheckOperations_correct (λ _, "") (λ s, s) ex_sort (KvModel ex_sort) [] (KvPartition ex_sort) []);
      [reflexivity|vm_compute; reflexivity|constructor|reflexivity|done].
Defined.

Lemma CheckOperationsTimeout_sound_witness :
  (Ok = Illegal → Exists (λ p, ¬ op_linearizable KvStep "" p) [ex_history]) ∧
  (Ok = Ok → Forall (op_linearizable KvStep "") [ex_history]).
Proof.
  apply (CheckOperationsTimeout_sound (λ _, "") (λ s, s) ex_sort (KvModel ex_sort) ex_history
    (KvPartition ex_sort) [ex_history] [Some O] 50);
    [reflexivity|vm_compute; reflexivity|apply ex_part_ok| | |vm_compute; reflexivity].
  - vm_compute. repeat constructor; set_solver.
  - intros i Hi. apply list_elem_of_singleton in Hi. simplify_eq. simpl. lia.
Defined.

Lemma CheckOperations_KvModel_witness :
  ∃ fuel0 b, (∀ fuel, (fuel0 ≤ fuel)%nat →
      CheckOperations (λ _, "") (λ s, s) ex_sort fuel (KvModel ex_sort) ex_history [O] = Ret b) ∧
    (b = true ↔ ∀ k, op_linearizable KvStep "" (of_key ex_history k)).
Proof.
  apply (CheckOperations_KvModel ex_sort (λ _, "") (λ s, s) ex_history [O] [ex_history]);
    [done|apply ex_typed|apply ex_times|vm_compute; reflexivity|reflexivity].
Defined.

End examples.
