(* ===== verification/Visualization.v ===== *)
(** * The data of the history viewer ([porcupine/visualization.go], and what
    [checkParallel] hands to it)

    The HTML template that the data is printed into is not modelled.  [range] is
    the order in which a map is traversed, [nil] the nil [interface{}] that the
    lookup of a missing key gives. *)
From S2P Require Import Prelude Bitset Checker.
#[local] Open Scope Z_scope.

Section visualization.
Context {V St : Type} `{EqDecision St} (showV : V → string) (showS : St → string).
Context (sort : ∀ A, (A → A → bool) → list A → list A) (range : ∀ A, list A → list A).
Context (nil : V).

Record linearizationInfo : Type := mkInfo {
  info_history : list (list (entry V)); partialLinearizations : list (list (list Z)) }.

(** [set]: the distinct pointers of [longest]. *)
Definition distinct (longest : list (option seqPtr)) : list seqPtr :=
  foldl (λ set v, match v with
    | Some p => if existsb (λ q, (q.1 =? p.1)%nat) set then set else set ++ [p]
    | None => set
    end) [] longest.
Definition partials (longest : list (option seqPtr)) : list (list Z) := snd <$> range _ (distinct longest).

(** [checkParallel] with [computeInfo] and no timer: the verdict, and the
    information computed once every goroutine has answered. *)
Definition parallel_info (fuel : nat) (model : Model V St) (history : list (list (entry V)))
    (arrivals : list nat) : go (CheckResult * linearizationInfo) :=
  result ← checkParallel fuel model history true (Some <$> arrivals);
  results ← mapM (λ sub, checkSingle fuel model sub true (λ _, false)) history;
  mret (result, mkInfo history ((λ r, partials r.2) <$> results)).
(** [CheckOperationsVerbose] without a timeout. *)
Definition operations_info (fuel : nat) (model : Model V St) (history : list (Operation V))
    (arrivals : list nat) : go (CheckResult * linearizationInfo) :=
  let model := fillDefault showV showS model in
  partition ← deref (Partition model);
  partitions ← partition history;
  parallel_info fuel model (makeEntries sort <$> partitions) arrivals.

(** ** The data *)
Record historyElement : Type := mkElement { he_ClientId : Z; he_Start : Z; he_End : Z; he_Description : string }.
Record linearizationStep : Type := mkStep { ls_Index : Z; ls_StateDescription : string }.
Record partitionVisualizationData : Type := mkData {
  History : list historyElement;
  PartialLinearizations : list (list linearizationStep);
  Largest : gmap Z Z }.

Definition set_call (e : entry V) (h : historyElement) : historyElement :=
  mkElement (clientId e) (time e) (he_End h) (he_Description h).
Definition set_return (e : entry V) (d : string) (h : historyElement) : historyElement :=
  mkElement (he_ClientId h) (he_Start h) (time e) d.

(** The three tables filled from the entries. *)
Definition tables : Type := list historyElement * gmap Z V * gmap Z V.
Definition add_entry (describe : V → V → go string) (st : tables) (e : entry V) : go tables :=
  let '(history, callValue, returnValue) := st in
  h ← index history (id e);
  match kind e with
  | callEntry =>
      history ← store history (id e) (set_call e h);
      mret (history, <[id e := value e]> callValue, returnValue)
  | returnEntry =>
      d ← describe (default nil (callValue !! id e)) (value e);
      history ← store history (id e) (set_return e d h);
      mret (history, callValue, <[id e := value e]> returnValue)
  end.

(** One partial linearization, the [i]-th, of length [size]. *)
Definition replay_state : Type := St * list linearizationStep * gmap Z Z * gmap Z Z.
Definition replay_step (model : Model V St) (showState : St → string) (callValue returnValue : gmap Z V)
    (i : Z) (size : Z) (st : replay_state) (histId : Z) : go replay_state :=
  let '(state, linearization, largestIndex, largestSize) := st in
  r ← Step model state (default nil (callValue !! histId)) (default nil (returnValue !! histId));
  let '(ok, state) := (r : bool * St) in
  if negb ok then Panic else
  let linearization := linearization ++ [mkStep histId (showState state)] in
  if default 0 (largestSize !! histId) <? size
  then mret (state, linearization, <[histId := i]> largestIndex, <[histId := size]> largestSize)
  else mret (state, linearization, largestIndex, largestSize).
Definition replay (model : Model V St) (showState : St → string) (callValue returnValue : gmap Z V)
    (st : list (list linearizationStep) * gmap Z Z * gmap Z Z) (ip : nat * list Z)
    : go (list (list linearizationStep) * gmap Z Z * gmap Z Z) :=
  let '(linearizations, largestIndex, largestSize) := st in
  r ← go_fold (replay_step model showState callValue returnValue (Z.of_nat ip.1) (Z.of_nat (List.length ip.2)))
        ip.2 (Init model, [], largestIndex, largestSize);
  let '(_, linearization, largestIndex, largestSize) := (r : replay_state) in
  mret (linearizations ++ [linearization], largestIndex, largestSize).

Definition longer (a b : list Z) : bool := (List.length b <? List.length a)%nat.
Definition partition_data (model : Model V St) (entries : list (entry V)) (partials : list (list Z))
    : go partitionVisualizationData :=
  describe ← deref (DescribeOperation model);
  showState ← deref (DescribeState model);
  let n := (List.length entries / 2)%nat in
  t ← go_fold (add_entry describe) entries (replicate n (mkElement 0 0 0 ""), ∅, ∅);
  let '(history, callValue, returnValue) := (t : tables) in
  r ← go_fold (replay model showState callValue returnValue) (imap pair (sort _ longer partials)) ([], ∅, ∅);
  let '(linearizations, largestIndex, _) := (r : list (list linearizationStep) * gmap Z Z * gmap Z Z) in
  mret (mkData history linearizations largestIndex).

Definition computeVisualizationData (model : Model V St) (info : linearizationInfo)
    : go (list partitionVisualizationData) :=
  let model := fillDefault showV showS model in
  mapM (λ i, entries ← index (info_history info) i;
             ps ← index (partialLinearizations info) i;
             partition_data model entries ps)
    (seqZ 0 (Z.of_nat (List.length (info_history info)))).
End visualization.
