(* ===== verification/VisualizationProof.v ===== *)
(** * The history viewer: its data can always be computed, and shows what was
    checked *)
From S2P Require Import Prelude Bitset Checker Linearize LinkedList CheckerProof KvModel Porcupine Visualization.
#[local] Open Scope Z_scope.

Section tables.
Context {V St : Type}.
Implicit Types (es d : list (entry V)) (e : entry V).

(** The values recorded from a prefix of the entries. *)
Lemma call_of_snoc d e i v :
  call_of (d ++ [e]) i v ↔ call_of d i v ∨ (kind e = callEntry ∧ id e = i ∧ value e = v).
Proof.
  split.
  - intros (c & [Hc|Hc%list_elem_of_singleton]%elem_of_app & H); [left; by exists c|right; by subst].
  - intros [(c & Hc & H)|H]; [exists c|exists e]; (split; [set_solver|done]).
Qed.
Lemma return_of_snoc d e i v :
  return_of (d ++ [e]) i v ↔ return_of d i v ∨ (kind e = returnEntry ∧ id e = i ∧ value e = v).
Proof.
  split.
  - intros (c & [Hc|Hc%list_elem_of_singleton]%elem_of_app & H); [left; by exists c|right; by subst].
  - intros [(c & Hc & H)|H]; [exists c|exists e]; (split; [set_solver|done]).
Qed.

Lemma entry_first es d e rest e' :
  wf_history es → es = d ++ e :: rest → e' ∈ d → kind e' = kind e → id e' = id e → False.
Proof.
  intros Hwf Hes He' Hk Hi. pose proof (wh_unique _ Hwf) as HN. rewrite Hes, fmap_app in HN.
  apply NoDup_app in HN as (_ & HN & _).
  apply (HN (kind e', id e')); [by apply (list_elem_of_fmap_2 (λ e, (kind e, id e)))|].
  rewrite fmap_cons, Hk, Hi. by left.
Qed.
Lemma call_recorded es d e rest :
  wf_history es → es = d ++ e :: rest → kind e = returnEntry →
  ∃ c, c ∈ d ∧ kind c = callEntry ∧ id c = id e.
Proof.
  intros Hwf Hes Ek. destruct (wh_call _ Hwf e) as (c & Hb & Hk & Hi); [set_solver|done|]. exists c.
  split; [|done]. pose proof (before_l _ _ _ Hb) as Hc. pose proof (wf_NoDup _ Hwf) as HN.
  rewrite Hes in Hc, Hb, HN. apply elem_of_app in Hc as [?|Hc]; [done|].
  apply elem_of_cons in Hc as [->|Hc]; [congruence|]. exfalso.
  eapply before_asym; [exact HN|exact Hb|]. by exists d, rest.
Qed.

Context (nil : V) (describe : V → V → go string).

(** What the row of an operation holds after the entries of [d]. *)
Definition row_ok d (k : nat) (h : historyElement) : Prop :=
  (∀ c, c ∈ d → kind c = callEntry → id c = Z.of_nat k → he_ClientId h = clientId c ∧ he_Start h = time c) ∧
  (∀ r, r ∈ d → kind r = returnEntry → id r = Z.of_nat k →
     he_End h = time r ∧ ∃ i, call_of d (Z.of_nat k) i ∧ describe i (value r) = Ret (he_Description h)).
Record tables_ok n d (t : tables) : Prop := {
  tb_length : List.length t.1.1 = n;
  tb_call i v : t.1.2 !! i = Some v ↔ call_of d i v;
  tb_return i v : t.2 !! i = Some v ↔ return_of d i v;
  tb_row k h : t.1.1 !! k = Some h → row_ok d k h;
}.

Lemma row_keep d e k h : id e ≠ Z.of_nat k → row_ok d k h → row_ok (d ++ [e]) k h.
Proof.
  intros Hne [R1 R2]. split.
  - intros c [Hc|Ec%list_elem_of_singleton]%elem_of_app Hk Hi; [by apply R1|by subst c].
  - intros r [Hr|Er%list_elem_of_singleton]%elem_of_app Hk Hi; [|by subst r].
    destruct (R2 r Hr Hk Hi) as (? & i & ? & ?). split; [done|]. exists i. rewrite call_of_snoc. auto.
Qed.

Section step.
Context (es d rest : list (entry V)) (e : entry V).
Hypotheses (Hwf : wf_history es) (Hes : es = d ++ e :: rest).

Context (n : nat).
Hypothesis Hids : ∀ e, e ∈ es → 0 ≤ id e < Z.of_nat n.
Hypothesis Hdesc : ∀ c r, c ∈ es → r ∈ es → kind c = callEntry → kind r = returnEntry → id c = id r →
  ∃ s, describe (value c) (value r) = Ret s.

Lemma add_call_ok history cv rv :
  kind e = callEntry → tables_ok n d (history, cv, rv) →
  ∃ t', add_entry nil describe (history, cv, rv) e = Ret t' ∧ tables_ok n (d ++ [e]) t'.
Proof.
  intros Ek [T1 T2 T3 T4]. cbn [fst snd] in *. pose proof (Hids e ltac:(rewrite Hes; set_solver)) as Hid.
  unfold add_entry. destruct (lookup_lt_is_Some_2 history (Z.to_nat (id e))) as [h Hh]; [lia|].
  assert (index history (id e) = Ret h) as -> by (apply index_Ret; split; [lia|done]).
  go_step. rewrite Ek, store_lt by lia. eexists. split; [done|]. split; cbn [fst snd].
  - by rewrite length_insert.
  - intros i v. rewrite lookup_insert_Some, call_of_snoc, T2. split.
    + intros [[<- <-]|[_ ?]]; [by right|by left].
    + intros [Hc|(_ & <- & <-)]; [right|by left]. split; [|done]. intros <-.
      destruct Hc as (c & Hc & Hk & Hi & _). apply (entry_first es d e rest c); congruence.
  - intros i v. rewrite return_of_snoc, T3. split; [by left|]. intros [?|[? _]]; [done|congruence].
  - intros k h0. rewrite list_lookup_insert_Some. intros [(<- & <- & _)|[Hne Hk]].
    2:{ apply row_keep; [lia|by apply T4]. }
    destruct (T4 _ _ Hh) as [_ R2]. split; cbn [set_call he_ClientId he_Start he_End he_Description].
    + intros c [Hc|Ec%list_elem_of_singleton]%elem_of_app Hkc Hic; [|by subst c].
      exfalso. apply (entry_first es d e rest c); [done|done|done|congruence|lia].
    + intros r [Hr|Er%list_elem_of_singleton]%elem_of_app Hkr Hir; [|subst r; congruence].
      destruct (R2 r Hr Hkr Hir) as (? & i & ? & ?). split; [done|]. exists i. rewrite call_of_snoc. auto.
Qed.

Lemma add_return_ok history cv rv :
  kind e = returnEntry → tables_ok n d (history, cv, rv) →
  ∃ t', add_entry nil describe (history, cv, rv) e = Ret t' ∧ tables_ok n (d ++ [e]) t'.
Proof.
  intros Ek [T1 T2 T3 T4]. cbn [fst snd] in *. pose proof (Hids e ltac:(rewrite Hes; set_solver)) as Hid.
  destruct (call_recorded es d e rest Hwf Hes Ek) as (c & Hc & Hkc & Hic).
  assert (cv !! id e = Some (value c)) as Hcv by (apply T2; by exists c).
  destruct (Hdesc c e) as [s Hs]; [rewrite Hes; set_solver|rewrite Hes; set_solver|done..|].
  unfold add_entry. destruct (lookup_lt_is_Some_2 history (Z.to_nat (id e))) as [h Hh]; [lia|].
  assert (index history (id e) = Ret h) as -> by (apply index_Ret; split; [lia|done]).
  go_step. rewrite Ek, Hcv. cbn [default from_option Datatypes.id]. rewrite Hs.
  go_step. rewrite store_lt by lia. eexists. split; [done|]. split; cbn [fst snd].
  - by rewrite length_insert.
  - intros i v. rewrite call_of_snoc, T2. split; [by left|]. intros [?|[? _]]; [done|congruence].
  - intros i v. rewrite lookup_insert_Some, return_of_snoc, T3. split.
    + intros [[<- <-]|[_ ?]]; [by right|by left].
    + intros [Hr|(_ & <- & <-)]; [right|by left]. split; [|done]. intros <-.
      destruct Hr as (r & Hr & Hk & Hi & _). apply (entry_first es d e rest r); congruence.
  - intros k h0. rewrite list_lookup_insert_Some. intros [(<- & <- & _)|[Hne Hk]].
    2:{ apply row_keep; [lia|by apply T4]. }
    destruct (T4 _ _ Hh) as [R1 _]. split; cbn [set_return he_ClientId he_Start he_End he_Description].
    + intros c' [Hc'|Ec%list_elem_of_singleton]%elem_of_app Hkc' Hic'; [by apply R1|subst c'; congruence].
    + intros r [Hr|Er%list_elem_of_singleton]%elem_of_app Hkr Hir.
      { exfalso. apply (entry_first es d e rest r); [done|done|done|congruence|lia]. }
      subst r. split; [done|]. exists (value c). split; [|done].
      rewrite call_of_snoc. left. exists c. split_and!; [done|done|lia|done].
Qed.
End step.

(** The tables of a whole history. *)
Lemma add_entries_ok es n :
  wf_history es → (∀ e, e ∈ es → 0 ≤ id e < Z.of_nat n) →
  (∀ c r, c ∈ es → r ∈ es → kind c = callEntry → kind r = returnEntry → id c = id r →
     ∃ s, describe (value c) (value r) = Ret s) →
  ∃ t, go_fold (add_entry nil describe) es (replicate n (mkElement 0 0 0 ""), ∅, ∅) = Ret t ∧ tables_ok n es t.
Proof.
  intros Hwf Hids Hdesc. apply (go_fold_inv _ (tables_ok n)).
  - split; cbn [fst snd]; [apply length_replicate|..].
    + intros i v. rewrite lookup_empty. split; [done|]. by intros (c & ?%elem_of_nil & _).
    + intros i v. rewrite lookup_empty. split; [done|]. by intros (c & ?%elem_of_nil & _).
    + intros k h _. split; by intros ? ?%elem_of_nil.
  - intros d e rest [[history cv] rv] Hes Ht. destruct (kind e) eqn:Ek.
    + by eapply add_call_ok.
    + by eapply add_return_ok.
Qed.
End tables.

(** ** Replaying a partial linearization *)
Section replay.
Context {V St : Type} (nil : V) (model : Model V St) (showState : St → string) (es : list (entry V)).

(** The steps listed for a partial linearization: the states are those of the
    model. *)
Inductive explained : St → list linearizationStep → Prop :=
| explained_nil s : explained s []
| explained_cons s i s' input output l :
    call_of es i input → return_of es i output → Step model s input output = Ret (true, s') →
    explained s' l → explained s (mkStep i (showState s') :: l).

(** [largestIndex] points, for every operation listed so far, to a longest
    partial linearization that contains it; [C j seq h]: the step of [h] in the
    partial linearization [j], which is [seq], has been listed. *)
Record largest_ok (C : nat → list Z → Z → Prop) (largestIndex largestSize : gmap Z Z) : Prop := {
  lg_some h k : largestIndex !! h = Some k → ∃ j seq, k = Z.of_nat j ∧ C j seq h ∧
    largestSize !! h = Some (Z.of_nat (List.length seq)) ∧
    ∀ j' seq', C j' seq' h → (List.length seq' ≤ List.length seq)%nat;
  lg_listed j seq h : C j seq h → is_Some (largestIndex !! h);
  lg_size h : largestIndex !! h = None → largestSize !! h = None;
}.

Lemma largest_iff C C' li sz : (∀ j seq h, C j seq h ↔ C' j seq h) → largest_ok C li sz → largest_ok C' li sz.
Proof.
  intros HC [L1 L2 L3]. split; [|intros j seq h ?%HC; by eapply L2|done].
  intros h k Hk. destruct (L1 h k Hk) as (j & seq & ? & ? & ? & Hmax). exists j, seq.
  split_and!; [done|by apply HC|done|]. intros j' seq' ?%HC. by eapply Hmax.
Qed.

Lemma largest_step C li sz i cur h :
  largest_ok C li sz → cur ≠ [] →
  let C' j seq h' := C j seq h' ∨ (j = i ∧ seq = cur ∧ h' = h) in
  let b := default 0 (sz !! h) <? Z.of_nat (List.length cur) in
  largest_ok C' (if b then <[h := Z.of_nat i]> li else li)
    (if b then <[h := Z.of_nat (List.length cur)]> sz else sz).
Proof.
  intros [L1 L2 L3] Hcur C' b. assert (0 < List.length cur)%nat by (destruct cur; simpl; [done|lia]).
  subst b. destruct (Z.ltb_spec (default 0 (sz !! h)) (Z.of_nat (List.length cur))) as [Hlt|Hge].
  - split.
    + intros h' k. rewrite !lookup_insert_Some. intros [[<- <-]|[Hne Hk]].
      * exists i, cur. split_and!; [done|by right|by rewrite lookup_insert_eq|].
        intros j seq [HC|(_ & -> & _)]; [|done]. destruct (L2 _ _ _ HC) as [k Hk].
        destruct (L1 _ _ Hk) as (j' & seq' & _ & _ & Hs & Hmax). specialize (Hmax _ _ HC).
        rewrite Hs in Hlt. simpl in Hlt. lia.
      * destruct (L1 _ _ Hk) as (j & seq & ? & ? & ? & Hmax). exists j, seq.
        rewrite lookup_insert_ne by done. split_and!; [done|by left|done|].
        intros j' seq' [HC|(_ & _ & ->)]; [by eapply Hmax|done].
    + intros j seq h' HC. destruct (decide (h' = h)) as [->|]; [rewrite lookup_insert_eq; eauto|].
      rewrite lookup_insert_ne by done. destruct HC as [HC|(_ & _ & ?)]; [by eapply L2|done].
    + intros h'. rewrite !lookup_insert_None. intros [? ?]. auto.
  - assert (∃ k, li !! h = Some k) as [k0 Hk0].
    { destruct (li !! h) eqn:E; [eauto|]. rewrite (L3 _ E) in Hge. simpl in Hge. lia. }
    split; [|intros j seq h' [?|(_ & _ & ->)]; eauto|done].
    intros h' k Hk. destruct (L1 _ _ Hk) as (j & seq & ? & ? & Hs & Hmax). exists j, seq.
    split_and!; [done|by left|done|]. intros j' seq' [HC|(_ & -> & ->)]; [by eapply Hmax|].
    rewrite Hs in Hge. simpl in Hge. lia.
Qed.

Context (cv rv : gmap Z V).
Hypothesis Hcv : ∀ i v, cv !! i = Some v ↔ call_of es i v.
Hypothesis Hrv : ∀ i v, rv !! i = Some v ↔ return_of es i v.

(** What the loop over one partial linearization has done after [d] of it. *)
Definition replay_inv (C : nat → list Z → Z → Prop) (i : nat) (seq : list Z) (d : list Z)
    (st : replay_state) : Prop :=
  let '(s, l, li, sz) := st in
  ls_Index <$> l = d ∧ (∀ rest, seq = d ++ rest → legal (Step model) es s rest) ∧
  (∀ l', explained s l' → explained (Init model) (l ++ l')) ∧
  largest_ok (λ j seq' h, C j seq' h ∨ (j = i ∧ seq' = seq ∧ h ∈ d)) li sz.

Lemma replay_ok C lins li sz i seq :
  largest_ok C li sz → legal (Step model) es (Init model) seq →
  ∃ l li' sz', replay nil model showState cv rv (lins, li, sz) (i, seq) = Ret (lins ++ [l], li', sz') ∧
    ls_Index <$> l = seq ∧ explained (Init model) l ∧
    largest_ok (λ j seq' h, C j seq' h ∨ (j = i ∧ seq' = seq ∧ h ∈ seq)) li' sz'.
Proof.
  intros HC Hleg. unfold replay. cbn [fst snd].
  destruct (go_fold_inv (replay_step nil model showState cv rv (Z.of_nat i) (Z.of_nat (List.length seq)))
    (replay_inv C i seq) seq (Init model, [], li, sz)) as ([[[s l] li'] sz'] & -> & Hidx & _ & Hex & Hlg).
  - split_and!; [done|by intros rest ->|done|]. eapply largest_iff; [|exact HC].
    intros j seq' h. split; [by left|]. intros [?|(_ & _ & ?%elem_of_nil)]; done.
  - intros d h rest [[[s l] li1] sz1] Hseq (Hidx & Hl & Hex & Hlg).
    specialize (Hl _ Hseq). inversion Hl as [|? ? ? s' input output Hc Hr Hs Hl']; subst s0 i0 σ.
    apply Hcv in Hc as Hc'. apply Hrv in Hr as Hr'.
    exists (s', l ++ [mkStep h (showState s')],
      (if default 0 (sz1 !! h) <? Z.of_nat (List.length seq) then <[h := Z.of_nat i]> li1 else li1),
      (if default 0 (sz1 !! h) <? Z.of_nat (List.length seq) then <[h := Z.of_nat (List.length seq)]> sz1 else sz1)).
    split.
    { unfold replay_step. rewrite Hc', Hr'. simpl. rewrite Hs. simpl. by destruct (_ <? _). }
    split_and!.
    + rewrite fmap_app, Hidx. done.
    + intros rest' Heq. rewrite Hseq, <-app_assoc in Heq. apply app_inv_head in Heq.
      injection Heq as <-. done.
    + intros l' ?. rewrite <-app_assoc. apply Hex. by econstructor.
    + eapply largest_iff; [|apply (largest_step _ li1 sz1 i seq h Hlg)].
      * intros j seq' h'. cbn beta. rewrite elem_of_app, list_elem_of_singleton. naive_solver.
      * rewrite Hseq. by destruct d.
  - exists l, li', sz'. simpl. split_and!; [done|done| |done].
    rewrite <-(app_nil_r l). apply Hex. constructor.
Qed.

(** All the partial linearizations of a partition. *)
Lemma replays_ok (ps : list (list Z)) :
  (∀ seq, seq ∈ ps → legal (Step model) es (Init model) seq) →
  ∃ lins li sz, go_fold (replay nil model showState cv rv) (imap pair ps) ([], ∅, ∅) = Ret (lins, li, sz) ∧
    Forall2 (λ seq l, ls_Index <$> l = seq ∧ explained (Init model) l) ps lins ∧
    largest_ok (λ j seq h, ps !! j = Some seq ∧ h ∈ seq) li sz.
Proof.
  intros Hps.
  destruct (go_fold_inv (replay nil model showState cv rv) (λ d st,
      Forall2 (λ ip l, ls_Index <$> l = ip.2 ∧ explained (Init model) l) d st.1.1 ∧
      largest_ok (λ j seq h, d !! j = Some (j, seq) ∧ h ∈ seq) st.1.2 st.2)
    (imap pair ps) ([], ∅, ∅)) as ([[lins li] sz] & Hrun & HF & Hlg).
  - split; [constructor|]. split; [done|by intros ? ? ? [? _]|done].
  - intros d [i seq] rest [[lins li] sz] Heq [HF Hlg]. cbn [fst snd] in *.
    apply imap_pair_split in Heq as (-> & Hi & _).
    destruct (replay_ok _ lins li sz (List.length d) seq Hlg) as (l & li' & sz' & Hr & Hidx & Hex & Hlg').
    { apply Hps. by eapply list_elem_of_lookup_2. }
    exists (lins ++ [l], li', sz'). split; [done|]. cbn [fst snd]. split.
    { apply Forall2_app; [done|]. by repeat constructor. }
    eapply largest_iff; [|exact Hlg']. intros j seq' h. cbn beta. split.
    + intros [[Hj ?]|(-> & -> & ?)]; (split; [|done]).
      * by apply lookup_app_l_Some.
      * by rewrite lookup_app_r, Nat.sub_diag by lia.
    + intros [Hj ?]. destruct (decide (j < List.length d)%nat).
      * rewrite lookup_app_l in Hj by done. by left.
      * rewrite lookup_app_r in Hj by lia. right.
        destruct (j - List.length d)%nat eqn:E; [|by rewrite lookup_nil in Hj || done].
        simpl in Hj. injection Hj as ? <-. split_and!; [lia|done|done].
  - exists lins, li, sz. split; [done|]. split.
    + by apply (indexed_Forall2 (λ seq l, ls_Index <$> l = seq ∧ explained (Init model) l)).
    + eapply largest_iff; [|exact Hlg]. intros j seq h. cbn beta. rewrite list_lookup_imap.
      cbn [fst snd]. destruct (ps !! j); simpl; naive_solver.
Qed.
End replay.

(** ** The whole data *)
Section data.
Context {V St : Type} `{EqDecision St} (showV : V → string) (showS : St → string).
Context (sort : ∀ A, (A → A → bool) → list A → list A) `{!GoSort sort}.
Context (range : ∀ A, list A → list A) (range_perm : ∀ A l, range A l ≡ₚ l) (nil : V).
Abbreviation full model := (fillDefault showV showS model).

Lemma distinct_elem longest p : p ∈ distinct longest → Some p ∈ longest.
Proof.
  unfold distinct. cut (∀ acc, p ∈ foldl (λ set v, match v with
    | Some p => if existsb (λ q, (q.1 =? p.1)%nat) set then set else set ++ [p]
    | None => set end) acc longest → p ∈ acc ∨ Some p ∈ longest).
  { intros H Hp. destruct (H [] Hp) as [?%elem_of_nil|]; done. }
  induction longest as [|v longest IH]; intros acc Hp; simpl in Hp; [by left|].
  apply IH in Hp as [Hp|Hp]; [|right; by right]. destruct v as [q|]; [|by left].
  destruct (existsb _ _); [by left|]. apply elem_of_app in Hp as [?|Hp%list_elem_of_singleton]; [by left|].
  subst q. right. by left.
Qed.

Lemma partials_elem longest seq : seq ∈ partials range longest → ∃ i p, longest !! i = Some (Some (p, seq)).
Proof using range_perm.
  unfold partials. intros ([p q] & -> & Hp)%list_elem_of_fmap. rewrite range_perm in Hp.
  apply distinct_elem, list_elem_of_lookup in Hp as [i Hi]. by exists i, p.
Qed.

(** What the viewer shows of a partition: a row per operation; partial
    linearizations that are legal, closed under real time, with the states of
    the model; for every listed operation a longest one that contains it. *)
Record shown (model : Model V St) (describe : V → V → go string) (showState : St → string)
    (part : list (Operation V)) (data : partitionVisualizationData) : Prop := {
  sh_length : List.length (History data) = List.length part;
  sh_row k o h : part !! k = Some o → History data !! k = Some h →
    he_ClientId h = op_ClientId o ∧ he_Start h = op_Call o ∧ he_End h = op_Return o ∧
    describe (op_Input o) (op_Output o) = Ret (he_Description h);
  sh_partial l : l ∈ PartialLinearizations data →
    partial_linearization (Step model) (Init model) (makeEntries sort part) (ls_Index <$> l) ∧
    explained model showState (makeEntries sort part) (Init model) l;
  sh_largest i k : Largest data !! i = Some k → 0 ≤ k ∧ ∃ l,
    PartialLinearizations data !! Z.to_nat k = Some l ∧ i ∈ ls_Index <$> l ∧
    ∀ l', l' ∈ PartialLinearizations data → i ∈ ls_Index <$> l' → (List.length l' ≤ List.length l)%nat;
  sh_listed l i : l ∈ PartialLinearizations data → i ∈ ls_Index <$> l → is_Some (Largest data !! i);
}.

Section partition.
Context (model : Model V St) (describe : V → V → go string) (showState : St → string).
Context (part : list (Operation V)).
Abbreviation es := (makeEntries sort part).

Lemma largest_shown ps history lins li sz :
  (∀ seq, seq ∈ ps → partial_linearization (Step model) (Init model) es seq) →
  Forall2 (λ seq l, ls_Index <$> l = seq ∧ explained model showState es (Init model) l) ps lins →
  largest_ok (λ j seq h, ps !! j = Some seq ∧ h ∈ seq) li sz →
  List.length history = List.length part →
  (∀ k o h, part !! k = Some o → history !! k = Some h →
    he_ClientId h = op_ClientId o ∧ he_Start h = op_Call o ∧ he_End h = op_Return o ∧
    describe (op_Input o) (op_Output o) = Ret (he_Description h)) →
  shown model describe showState part (mkData history lins li).
Proof.
  intros Hps HF [L1 L2 _] Hlen Hrow.
  assert (∀ l, l ∈ lins → ∃ j, ps !! j = Some (ls_Index <$> l) ∧
    explained model showState es (Init model) l) as Hl.
  { intros l [j Hj]%list_elem_of_lookup. destruct (Forall2_lookup_r _ _ _ _ _ HF Hj) as (seq & ? & <- & ?). eauto. }
  split; cbn [History PartialLinearizations Largest]; [done|done|..].
  - intros l (j & Hj & ?)%Hl. split; [|done]. apply Hps. by eapply list_elem_of_lookup_2.
  - intros i k Hk. destruct (L1 _ _ Hk) as (j & seq & -> & [Hj Hi] & _ & Hmax). split; [lia|].
    destruct (Forall2_lookup_l _ _ _ _ _ HF Hj) as (l & Hlj & <- & _). exists l.
    rewrite Nat2Z.id. split_and!; [done|done|]. intros l' (j' & Hj' & _)%Hl Hi'.
    specialize (Hmax j' _ (conj Hj' Hi')). by rewrite !length_fmap in Hmax.
  - intros l i (j & Hj & _)%Hl Hi. by eapply L2.
Qed.

(** The data of one partition. *)
Lemma partition_data_ok ps :
  DescribeOperation model = Some describe → DescribeState model = Some showState →
  Forall (λ o, op_Call o ≤ op_Return o) part →
  (∀ o, o ∈ part → ∃ s, describe (op_Input o) (op_Output o) = Ret s) →
  (∀ seq, seq ∈ ps → partial_linearization (Step model) (Init model) es seq) →
  ∃ data, partition_data sort nil model es ps = Ret data ∧ shown model describe showState part data.
Proof.
  intros Hd Hs Hcr Hdesc Hps. pose proof (makeEntries_ok sort _ Hcr) as [Hwf _].
  assert (List.length es = 2 * List.length part)%nat as Hlen.
  { by rewrite (makeEntries_perm sort), length_entries_from. }
  unfold partition_data. rewrite Hd, Hs. cbn [deref mbind go_bind].
  rewrite Hlen, (Nat.mul_comm 2), Nat.div_mul by lia.
  destruct (add_entries_ok nil describe es (List.length part) Hwf) as ([[history cv] rv] & -> & [T1 T2 T3 T4]).
  { intros e (k & o & Hk%lookup_lt_Some & [-> | ->])%(elem_of_makeEntries sort); simpl; lia. }
  { intros c r (k & o & Hk & [-> | ->])%(elem_of_makeEntries sort) (k' & o' & Hk' & [-> | ->])%(elem_of_makeEntries sort);
      try done. simpl. intros _ _ ->%Nat2Z.inj. rewrite Hk in Hk'. injection Hk' as <-.
    apply Hdesc. by eapply list_elem_of_lookup_2. }
  cbn [mbind go_bind fst snd] in *.
  assert (sort _ longer ps ≡ₚ ps) as Hperm by apply sort_perm.
  destruct (replays_ok nil model showState es cv rv T2 T3 (sort _ longer ps))
    as (lins & li & sz & -> & HF & Hlg).
  { intros seq. rewrite Hperm. intros Hin. by apply (Hps _ Hin). }
  go_step. eexists. split; [done|].
  apply (largest_shown (sort _ longer ps) _ _ _ sz); [|done|done|done|].
  { intros seq. rewrite Hperm. apply Hps. }
  intros k o h Hk Hh. destruct (T4 _ _ Hh) as [R1 R2].
  destruct (R1 (callE (Z.of_nat k) o)) as [? ?]; [|done..|].
  { apply elem_of_makeEntries; eauto. }
  destruct (R2 (retE (Z.of_nat k) o)) as (? & i & (c & Hc & Hkc & Hic & <-) & Hdi); [|done..|].
  { apply elem_of_makeEntries; eauto. }
  apply (elem_of_makeEntries sort) in Hc as (k' & o' & Hk' & [-> | ->]); [|done].
  simpl in *. apply Nat2Z.inj in Hic as ->. rewrite Hk in Hk'. by injection Hk' as <-.
Qed.
End partition.

(** One goroutine with [computeInfo]. *)
Lemma checkSingle_info (model : Model V St) part :
  part_ok sort model part →
  ∃ fuel0 r, (∀ fuel, (fuel0 ≤ fuel)%nat →
      checkSingle fuel model (makeEntries sort part) true (λ _, false) = Ret r) ∧
    ∀ seq, seq ∈ partials range r.2 →
      partial_linearization (Step model) (Init model) (makeEntries sort part) seq.
Proof using All.
  intros [Hcr Hm]. pose proof (makeEntries_ok sort _ Hcr) as Hh.
  destruct (checkSingle_run model _ true Hh Hm) as (k & b & l & Hr & _).
  exists k, (b, l). split; [done|]. intros seq (i & p & Hi)%partials_elem.
  by eapply (checkSingle_longest model _ true k b l Hh Hm (Hr k (Nat.le_refl k))).
Qed.

Lemma parallel_info_ok (model : Model V St) parts arrivals :
  parts ≠ [] → Forall (part_ok sort model) parts → arrivals ≡ₚ seq 0 (List.length parts) →
  ∃ fuel0 result ps, (∀ fuel, (fuel0 ≤ fuel)%nat →
      parallel_info range fuel model (makeEntries sort <$> parts) arrivals
      = Ret (result, mkInfo (makeEntries sort <$> parts) ps)) ∧
    (result = Ok ↔ Forall (op_linearizable (Step model) (Init model)) parts) ∧
    Forall2 (λ part ps, ∀ seq, seq ∈ ps →
      partial_linearization (Step model) (Init model) (makeEntries sort part) seq) parts ps.
Proof using All.
  intros Hnil Hok Harr. cut (∃ fuel0 (rs : list (bool * list (option seqPtr))), (∀ fuel, (fuel0 ≤ fuel)%nat →
      mapM (λ sub, checkSingle fuel model sub true (λ _, false)) (makeEntries sort <$> parts) = Ret rs) ∧
    Forall2 (λ part r, ∀ seq, seq ∈ partials range r.2 →
      partial_linearization (Step model) (Init model) (makeEntries sort part) seq) parts rs).
  { intros (k & rs & Hr & HF).
    destruct (checkParallel_run sort model parts true arrivals Hnil Hok Harr) as (k2 & r & Hp & Hv).
    exists (k + k2)%nat, r, ((λ r, partials range r.2) <$> rs). split_and!; [|done|].
    - intros fuel Hf. unfold parallel_info. rewrite Hp by lia. go_step. by rewrite Hr by lia.
    - by apply Forall2_fmap_r. }
  clear Hnil Harr arrivals.
  induction Hok as [|part parts Hp _ (k2 & rs & Hr & HF)]; [exists O, []; by split|].
  destruct (checkSingle_info model part Hp) as (k1 & r & Hr1 & Hp1).
  exists (k1 + k2)%nat, (r :: rs). split; [|by constructor].
  intros fuel Hf. cbn. rewrite Hr1 by lia. simpl. by rewrite Hr by lia.
Qed.

Lemma index_fmap {A B} (f : A → B) l i : index (f <$> l) i = f <$> index l i.
Proof. unfold index. case_decide; [|done]. rewrite list_lookup_fmap. by destruct (l !! _). Qed.

(** A loop over the indices of two lists of the same length. *)
Lemma mapM_zip {A B C} (f : A → B → go C) (Q : A → C → Prop) (P : A → B → Prop) (xs : list A) (ys : list B) :
  (∀ x y, x ∈ xs → P x y → ∃ z, f x y = Ret z ∧ Q x z) → Forall2 P xs ys →
  ∃ zs, mapM (λ i, x ← index xs i; y ← index ys i; f x y) (seqZ 0 (Z.of_nat (List.length xs))) = Ret zs ∧
    Forall2 Q xs zs.
Proof.
  intros Hf HF. cut (∀ ax ay xs' ys', xs = ax ++ xs' → ys = ay ++ ys' → List.length ax = List.length ay →
    Forall2 P xs' ys' → ∃ zs, mapM (λ i, x ← index xs i; y ← index ys i; f x y)
      (seqZ (Z.of_nat (List.length ax)) (Z.of_nat (List.length xs'))) = Ret zs ∧ Forall2 Q xs' zs).
  { intros H. by apply (H [] [] xs ys). }
  intros ax ay xs'. revert ax ay. induction xs' as [|x xs' IH]; intros ax ay ys' Hx Hy Hlen HF'.
  { exists []. split; [done|constructor]. }
  inversion HF' as [|? y ? ys1 HP HF1]; subst x0 l ys'.
  destruct (Hf x y) as (z & Hz & HQ); [rewrite Hx; set_solver|done|].
  destruct (IH (ax ++ [x]) (ay ++ [y]) ys1) as (zs & Hzs & HFz);
    [by rewrite <-app_assoc|by rewrite <-app_assoc|rewrite !length_app; simpl; lia|done|].
  exists (z :: zs). split; [|by constructor]. cbn [List.length]. rewrite Nat2Z.inj_succ, seqZ_cons by lia.
  cbn [mapM]. rewrite (index_lookup xs _ x) by (rewrite Hx, lookup_app_r, Nat.sub_diag by lia; done).
  rewrite (index_lookup ys _ y) by (rewrite Hy, lookup_app_r, Hlen, Nat.sub_diag by lia; done).
  go_step. rewrite Hz. go_step.
  rewrite length_app in Hzs. simpl in Hzs.
  replace (Z.succ (Z.of_nat (List.length ax))) with (Z.of_nat (List.length ax + 1)) by lia.
  replace (Z.pred (Z.succ (Z.of_nat (List.length xs')))) with (Z.of_nat (List.length xs')) by lia.
  by rewrite Hzs.
Qed.

(** C6 The viewer's data can be computed for every history the checker
    decides, whatever its verdict: the [panic] on a partial linearization that
    the model rejects is not reached, and the data show, for each partition,
    the operations as they were recorded, partial linearizations that are legal
    and respect real time with the states the model goes through, and for each
    listed operation a longest partial linearization that contains it. *)
Theorem visualization_shows (model : Model V St) history part parts arrivals describe showState :
  Partition (full model) = Some part → part history = Ret parts → parts ≠ [] →
  Forall (part_ok sort (full model)) parts → arrivals ≡ₚ seq 0 (List.length parts) →
  DescribeOperation (full model) = Some describe → DescribeState (full model) = Some showState →
  (∀ p o, p ∈ parts → o ∈ p → ∃ s, describe (op_Input o) (op_Output o) = Ret s) →
  ∃ fuel0 result info data, (∀ fuel, (fuel0 ≤ fuel)%nat →
      operations_info showV showS sort range fuel model history arrivals = Ret (result, info)) ∧
    (result = Ok ↔ Forall (op_linearizable (Step model) (Init model)) parts) ∧
    computeVisualizationData showV showS sort nil model info = Ret data ∧
    Forall2 (shown (full model) describe showState) parts data.
Proof using All.
  intros Hpart Hparts Hnil Hok Harr Hd Hs Hdesc.
  destruct (parallel_info_ok (full model) parts arrivals Hnil Hok Harr) as (k & result & ps & Hps & Hv & HF).
  destruct (mapM_zip (λ part qs, partition_data sort nil (full model) (makeEntries sort part) qs)
    (shown (full model) describe showState)
    (λ part qs, ∀ seq, seq ∈ qs → partial_linearization (Step model) (Init model) (makeEntries sort part) seq)
    parts ps) as (data & Hdata & HFd); [|exact HF|].
  { intros p qs Hp Hqs. apply partition_data_ok; [done|done| |eauto|done].
    rewrite Forall_forall in Hok. by apply Hok. }
  exists k, result, (mkInfo (makeEntries sort <$> parts) ps), data. split_and!; [|done| |done].
  - intros fuel Hf. unfold operations_info. rewrite Hpart. cbn [deref mbind go_bind].
    rewrite Hparts. go_step. by rewrite (Hps fuel Hf).
  - unfold computeVisualizationData. cbn [info_history partialLinearizations]. rewrite length_fmap, <-Hdata.
    clear. induction (seqZ _ _) as [|i l IH]; [done|]. cbn [mapM]. rewrite IH, index_fmap.
    all: by destruct (index parts i).
Qed.
End data.

(** ** A history that is not linearizable *)
Section example.
(** A get that misses a put that came before it. *)
Definition stale_history : list (Operation kvValue) :=
  [kv_op 0 1 "x" "a" 0 "" 3; kv_op 1 0 "x" "" 4 "" 5; kv_op 2 2 "x" "b" 2 "" 6].
Definition stale_model := fillDefault (λ _ : kvValue, "") (λ s : string, s) (KvModel insertion_sort).

Lemma stale_ok : part_ok insertion_sort stale_model stale_history.
Proof.
  split; [by repeat constructor|]. apply KvModel_ok; [apply _|].
  repeat constructor; eexists _, _; done.
Qed.

Lemma visualization_shows_witness :
  ∃ fuel0 result info data, (∀ fuel, (fuel0 ≤ fuel)%nat →
      operations_info (λ _, "") (λ s, s) insertion_sort (λ _ l, l) fuel (KvModel insertion_sort)
        stale_history [O] = Ret (result, info)) ∧
    (result = Ok ↔ Forall (op_linearizable KvStep "") [stale_history]) ∧
    computeVisualizationData (λ _, "") (λ s, s) insertion_sort (Out (mkKvOutput "")) (KvModel insertion_sort) info
      = Ret data ∧
    Forall2 (shown insertion_sort stale_model KvDescribeOperation (λ s, s)) [stale_history] data.
Proof.
  apply (visualization_shows (λ _, "") (λ s, s) insertion_sort (λ _ l, l) (λ _ _, reflexivity _) (Out (mkKvOutput ""))
    (KvModel insertion_sort) stale_history (KvPartition insertion_sort));
    [reflexivity|vm_compute; reflexivity|done|constructor; [apply stale_ok|constructor]
    |reflexivity|reflexivity|reflexivity|].
  intros p o ->%list_elem_of_singleton. unfold stale_history. rewrite !elem_of_cons, elem_of_nil.
  intros [-> | [-> | [-> | []]]]; eexists; reflexivity.
Defined.

(** The viewer shows it without the get. *)
Definition stale_steps (r : CheckResult * linearizationInfo) : go (CheckResult * list (list (list (Z * string)))) :=
  data ← computeVisualizationData (λ _, "") (λ s, s) insertion_sort (Out (mkKvOutput "")) (KvModel insertion_sort) r.2;
  Ret (r.1, map (λ d, map (map (λ s, (ls_Index s, ls_StateDescription s))) (PartialLinearizations d)) data).
Example stale_shown :
  operations_info (λ _, "") (λ s, s) insertion_sort (λ _ l, l) 100 (KvModel insertion_sort) stale_history [O]
    ≫= stale_steps = Ret (Illegal, [[[(0, "a"); (2, "ab")]]]).
Proof. vm_compute. reflexivity. Qed.
End example.
