(* ===== verification/Coordinator.v ===== *)
(** * The MapReduce coordinator (src/Lab02/src/mr/coordinator.go, rpc.go)

    The data and the handlers, first as the sequential code of the RPCs, then
    as threads that interleave between lock operations.  Every lock is a
    boolean of the object it guards; a thread that needs a taken lock is
    [Blocked].  Times are nanoseconds on the monotonic clock.  [nMap+nReduce]
    is the length of an allocated slice and does not overflow; the task id that
    a worker sends is an arbitrary [int]. *)
From S2P Require Import Prelude.

(** ** rpc.go *)
Record AskTaskArgs := mkAskTaskArgs { aa_Id : Z }.
Record AskTaskReply := mkAskTaskReply {
  ar_Id : Z; ar_TaskType : Z; ar_TaskId : Z; ar_Files : list string; ar_NReduce : Z }.
Record TaskDoneArgs := mkTaskDoneArgs {
  da_Id : Z; da_TaskType : Z; da_TaskId : Z; da_Files : gmap Z string }.
Record TaskDoneReply := mkTaskDoneReply { dr_Id : Z }.

(** ** coordinator.go: data *)
Record taskData := mkTaskData {
  taskLock : bool; taskId : Z; taskType : Z; files : list string;
  done : bool; lastIssued : Z; issued : bool }.
Record Coordinator := mkCoordinator {
  workLock : bool; nReduce : Z; nMap : Z; workDone : Z; tasks : list taskData; workers : Z }.

Definition set_lock (b : bool) (t : taskData) : taskData :=
  mkTaskData b (taskId t) (taskType t) (files t) (done t) (lastIssued t) (issued t).
Definition set_done (t : taskData) : taskData :=
  mkTaskData (taskLock t) (taskId t) (taskType t) (files t) true (lastIssued t) (issued t).
Definition set_issued (now : Z) (t : taskData) : taskData :=
  mkTaskData (taskLock t) (taskId t) (taskType t) (files t) (done t) now true.
Definition add_file (f : string) (t : taskData) : taskData :=
  mkTaskData (taskLock t) (taskId t) (taskType t) (files t ++ [f]) (done t) (lastIssued t) (issued t).

Definition with_tasks (c : Coordinator) (ts : list taskData) : Coordinator :=
  mkCoordinator (workLock c) (nReduce c) (nMap c) (workDone c) ts (workers c).
Definition with_work (c : Coordinator) (lock : bool) (n : Z) : Coordinator :=
  mkCoordinator lock (nReduce c) (nMap c) n (tasks c) (workers c).
Definition with_workers (c : Coordinator) (n : Z) : Coordinator :=
  mkCoordinator (workLock c) (nReduce c) (nMap c) (workDone c) (tasks c) n.

(** [l.Lock()] on a lock whose current value is known. *)
Definition acquire (held : bool) : go unit := if held then Blocked else Ret tt.

(** ** MakeCoordinator, without the RPC server it starts *)
Definition MakeCoordinator (input : list string) (nRed : Z) : Coordinator :=
  let nmap := Z.of_nat (length input) in
  mkCoordinator false nRed nmap 0
    (imap (λ i f, mkTaskData false (Z.of_nat i) 1 [f] false 0 false) input ++
     ((λ i, mkTaskData false (i + nmap) 2 [] false 0 false) <$> seqZ 0 nRed)) 0.

(** ** AskTask *)
Definition timeout : Z := 10 * 10 ^ 9.

Definition ask_id (c : Coordinator) (args : AskTaskArgs) : Z * Coordinator :=
  if aa_Id args =? -1 then (workers c, with_workers c (workers c + 1)) else (aa_Id args, c).

Definition ask_range (c : Coordinator) : Z * Z :=
  if workDone c <? nMap c then (0, nMap c) else (nMap c, nMap c + nReduce c).

Definition eligible (now : Z) (t : taskData) : bool :=
  negb (done t) && (negb (issued t) || (timeout <? now - lastIssued t)).

Definition ask_reply (c : Coordinator) (start : Z) (reply : AskTaskReply) (t : taskData)
    : AskTaskReply :=
  mkAskTaskReply (ar_Id reply) (taskType t)
    (if start =? 0 then taskId t else taskId t - nMap c)
    (ar_Files reply ++ files t) (nReduce c).

(** The body of the loop for task [i]; [since] and [now] are the clock as read
    by [time.Since] and by [time.Now].  [inr] is the [break]. *)
Definition ask_try (since now : Z) (c : Coordinator) (start i : Z) (reply : AskTaskReply)
    : go (Coordinator + Coordinator * AskTaskReply) :=
  t ← index (tasks c) i;
  _ ← acquire (taskLock t);
  if eligible since t then
    ts ← store (tasks c) i (set_issued now t);
    mret (inr (with_tasks c ts, ask_reply c start reply t))
  else mret (inl c).

Fixpoint ask_scan (n : nat) (clock : Z → Z * Z) (c : Coordinator) (start i : Z)
    (reply : AskTaskReply) : go (Coordinator * AskTaskReply) :=
  match n with
  | O => mret (c, reply)
  | S n =>
      r ← ask_try (clock i).1 (clock i).2 c start i reply;
      match r with
      | inl c => ask_scan n clock c start (i + 1) reply
      | inr res => mret res
      end
  end.

Definition AskTask (clock : Z → Z * Z) (c : Coordinator) (args : AskTaskArgs)
    : go (Coordinator * AskTaskReply) :=
  let '(id, c) := ask_id c args in
  let reply := mkAskTaskReply id 0 (-1) [] 0 in
  _ ← acquire (workLock c);
  let '(start, stop) := ask_range c in
  ask_scan (Z.to_nat (stop - start)) clock c start start reply.

(** ** TaskDone *)
Definition actualTaskId (c : Coordinator) (args : TaskDoneArgs) : Z :=
  if da_TaskType args =? 2 then i64 (da_TaskId args + nMap c) else da_TaskId args.

(** One round of the loop that hands the intermediate file to reduce task [j]. *)
Definition merge_file (c : Coordinator) (args : TaskDoneArgs) (j : Z) : go Coordinator :=
  match da_Files args !! (j - nMap c) with
  | Some file =>
      t ← index (tasks c) j;
      ts ← store (tasks c) j (add_file file t);
      mret (with_tasks c ts)
  | None => mret c
  end.

Fixpoint merge_files (n : nat) (c : Coordinator) (args : TaskDoneArgs) (j : Z) : go Coordinator :=
  match n with
  | O => mret c
  | S n => c ← merge_file c args j; merge_files n c args (j + 1)
  end.

(** [None] is the nil error. *)
Definition TaskDone (c : Coordinator) (args : TaskDoneArgs)
    : go (Coordinator * TaskDoneReply * option string) :=
  let reply := mkTaskDoneReply (da_Id args) in
  let a := actualTaskId c args in
  if nMap c + nReduce c <? a then mret (c, reply, Some "task not found") else
  t ← index (tasks c) a;
  _ ← acquire (taskLock t);
  if done t then mret (c, reply, None) else
  ts ← store (tasks c) a (set_done t);
  let c := with_tasks c ts in
  _ ← acquire (workLock c);
  let c := with_work c (workLock c) (workDone c + 1) in
  c ← (if da_TaskType args =? 1 then merge_files (Z.to_nat (nReduce c)) c args (nMap c) else mret c);
  mret (c, reply, None).

(** ** Done *)
Fixpoint all_done (ts : list taskData) : go bool :=
  match ts with
  | [] => mret true
  | t :: ts => _ ← acquire (taskLock t); if done t then all_done ts else mret false
  end.
Definition Done (c : Coordinator) : go bool := all_done (tasks c).

(** ** The handlers as threads *)
Inductive thread :=
| AskCalled (args : AskTaskArgs)
| AskNumbered (reply : AskTaskReply)
| AskScanning (reply : AskTaskReply) (start stop i : Z)
| AskReturned (reply : AskTaskReply)
| DoneCalled (args : TaskDoneArgs)
| DoneMarked (args : TaskDoneArgs) (a : Z)
| DoneMerging (args : TaskDoneArgs) (a j : Z)
| DoneReturned (reply : TaskDoneReply) (err : option string).

(** One step of a thread.  A critical section that no other section can
    observe half-way is one step; the section of [TaskDone] that touches the
    files of tasks whose lock it does not hold is one step per file. *)
Definition thread_step (since now : Z) (c : Coordinator) (th : thread) : go (Coordinator * thread) :=
  match th with
  | AskCalled args =>
      let '(id, c) := ask_id c args in
      mret (c, AskNumbered (mkAskTaskReply id 0 (-1) [] 0))
  | AskNumbered reply =>
      _ ← acquire (workLock c);
      let '(start, stop) := ask_range c in
      mret (c, AskScanning reply start stop start)
  | AskScanning reply start stop i =>
      if i <? stop then
        r ← ask_try since now c start i reply;
        match r with
        | inl c => mret (c, AskScanning reply start stop (i + 1))
        | inr (c, reply) => mret (c, AskReturned reply)
        end
      else mret (c, AskReturned reply)
  | DoneCalled args =>
      let reply := mkTaskDoneReply (da_Id args) in
      let a := actualTaskId c args in
      if nMap c + nReduce c <? a then mret (c, DoneReturned reply (Some "task not found")) else
      t ← index (tasks c) a;
      _ ← acquire (taskLock t);
      if done t then mret (c, DoneReturned reply None) else
      ts ← store (tasks c) a (set_lock true (set_done t));
      mret (with_tasks c ts, DoneMarked args a)
  | DoneMarked args a =>
      _ ← acquire (workLock c);
      mret (with_work c true (workDone c + 1),
            DoneMerging args a
              (if da_TaskType args =? 1 then nMap c else nMap c + nReduce c))
  | DoneMerging args a j =>
      if j <? nMap c + nReduce c then
        c ← merge_file c args j;
        mret (c, DoneMerging args a (j + 1))
      else
        t ← index (tasks c) a;
        ts ← store (tasks c) a (set_lock false t);
        mret (with_work (with_tasks c ts) false (workDone c),
              DoneReturned (mkTaskDoneReply (da_Id args)) None)
  | AskReturned _ | DoneReturned _ _ => Blocked
  end.

(** A coordinator with the RPCs made so far; [log] is a ghost: the reports of
    map tasks in the order in which their files were merged. *)
Record world := mkWorld { coord : Coordinator; threads : list thread; log : list TaskDoneArgs }.

(** Workers report only what [AskTask] gave out; the transport may repeat a
    report. *)
Definition handed_out (ths : list thread) (args : TaskDoneArgs) : Prop :=
  ∃ reply, AskReturned reply ∈ ths ∧ ar_TaskId reply ≠ -1 ∧
    da_TaskId args = ar_TaskId reply ∧ da_TaskType args = ar_TaskType reply.

Definition log_step (th : thread) (l : list TaskDoneArgs) : list TaskDoneArgs :=
  match th with
  | DoneMarked args _ => if da_TaskType args =? 1 then l ++ [args] else l
  | _ => l
  end.

Inductive step : world → world → Prop :=
| step_ask c ths l args : step (mkWorld c ths l) (mkWorld c (ths ++ [AskCalled args]) l)
| step_done c ths l args :
    handed_out ths args → step (mkWorld c ths l) (mkWorld c (ths ++ [DoneCalled args]) l)
| step_run c ths l i th c' th' since now :
    ths !! i = Some th → thread_step since now c th = Ret (c', th') →
    step (mkWorld c ths l) (mkWorld c' (<[i := th']> ths) (log_step th l)).

Definition initial (input : list string) (nRed : Z) : world :=
  mkWorld (MakeCoordinator input nRed) [] [].
Definition reachable (input : list string) (nRed : Z) (w : world) : Prop :=
  rtc step (initial input nRed) w.
