(* ===== verification/CoordinatorProof.v ===== *)
(** * The coordinator: invariants of the interleaved handlers *)
From S2P Require Import Prelude Coordinator.

(** ** The moves of a thread, with the lookups resolved *)
Definition fresh (reply : AskTaskReply) : Prop :=
  ar_TaskType reply = 0 ∧ ar_TaskId reply = -1 ∧ ar_Files reply = [].

Definition put (c : Coordinator) (k : nat) (t : taskData) : Coordinator :=
  with_tasks c (<[k := t]> (tasks c)).

Inductive move (c : Coordinator) : thread → Coordinator → thread → Prop :=
| mv_number args reply n :
    fresh reply → move c (AskCalled args) (with_workers c n) (AskNumbered reply)
| mv_range reply :
    workLock c = false →
    move c (AskNumbered reply) c
      (AskScanning reply (ask_range c).1 (ask_range c).2 (ask_range c).1)
| mv_skip reply start stop i :
    i < stop → move c (AskScanning reply start stop i) c (AskScanning reply start stop (i + 1))
| mv_issue since now reply start stop i t :
    0 ≤ i < stop → tasks c !! Z.to_nat i = Some t → taskLock t = false → eligible since t = true →
    move c (AskScanning reply start stop i) (put c (Z.to_nat i) (set_issued now t))
      (AskReturned (ask_reply c start reply t))
| mv_idle reply start stop i :
    stop ≤ i → move c (AskScanning reply start stop i) c (AskReturned reply)
| mv_ignore args reply err : move c (DoneCalled args) c (DoneReturned reply err)
| mv_mark args a t :
    a = actualTaskId c args → 0 ≤ a → tasks c !! Z.to_nat a = Some t →
    taskLock t = false → done t = false →
    move c (DoneCalled args) (put c (Z.to_nat a) (set_lock true (set_done t))) (DoneMarked args a)
| mv_acquire args a :
    workLock c = false →
    move c (DoneMarked args a) (with_work c true (workDone c + 1))
      (DoneMerging args a (if da_TaskType args =? 1 then nMap c else nMap c + nReduce c))
| mv_merge args a j file t :
    0 ≤ j < nMap c + nReduce c → da_Files args !! (j - nMap c) = Some file →
    tasks c !! Z.to_nat j = Some t →
    move c (DoneMerging args a j) (put c (Z.to_nat j) (add_file file t)) (DoneMerging args a (j + 1))
| mv_nofile args a j :
    j < nMap c + nReduce c → da_Files args !! (j - nMap c) = None →
    move c (DoneMerging args a j) c (DoneMerging args a (j + 1))
| mv_release args a j t reply :
    nMap c + nReduce c ≤ j → 0 ≤ a → tasks c !! Z.to_nat a = Some t →
    move c (DoneMerging args a j)
      (with_work (put c (Z.to_nat a) (set_lock false t)) false (workDone c)) (DoneReturned reply None).

Lemma acquire_Ret b u : acquire b = Ret u → b = false.
Proof. by destruct b. Qed.

Ltac go_cases := repeat match goal with
  | H : acquire _ = Ret _ |- _ => apply acquire_Ret in H
  | H : context [if ?b then _ else _] |- _ => destruct b eqn:?
  | H : context [match ?o with Some _ => _ | None => _ end] |- _ => destruct o eqn:?
  | H : context [let '(_, _) := ?p in _] |- _ => destruct p eqn:?
  | H : context [match ?s with inl _ => _ | inr _ => _ end] |- _ => destruct s eqn:?
  | _ => progress simplify_go
  end.

Lemma thread_step_move since now c th c' th' :
  thread_step since now c th = Ret (c', th') → move c th c' th'.
Proof.
  destruct th as [args|reply| | | |args a| |]; [| | | | |set (Hacq := mv_acquire c args a)| |];
    unfold thread_step, ask_id, ask_try, merge_file; intros H; go_cases;
    try (econstructor; by eauto || lia).
  - by constructor.
  - assert (c' = with_workers c' (workers c')) as Hc by by destruct c'.
    rewrite Hc at 2. by constructor.
  - pose proof (mv_range c' reply) as Hr. rewrite Heqp in Hr. auto.
Qed.

(** ** Shape of the state and locks *)
Section invariant.
Context (input : list string) (nRed : Z).

Definition in_range (ty id : Z) : Prop :=
  (ty = 1 ∧ 0 ≤ id < Z.of_nat (length input)) ∨ (ty = 2 ∧ 0 ≤ id < nRed).
Definition slot (ty id : Z) : Z := if ty =? 2 then id + Z.of_nat (length input) else id.

Definition report_ok (args : TaskDoneArgs) : Prop := in_range (da_TaskType args) (da_TaskId args).
Definition report_slot (args : TaskDoneArgs) : Z := slot (da_TaskType args) (da_TaskId args).

Definition th_ok (th : thread) : Prop :=
  let m := Z.of_nat (length input) in
  match th with
  | AskCalled _ | DoneReturned _ _ => True
  | AskNumbered reply => fresh reply
  | AskScanning reply start stop i =>
      fresh reply ∧ start ≤ i ∧ (start = 0 ∧ stop = m ∨ start = m ∧ stop = m + nRed)
  | AskReturned reply => fresh reply ∨ in_range (ar_TaskType reply) (ar_TaskId reply)
  | DoneCalled args => report_ok args
  | DoneMarked args a => report_ok args ∧ a = report_slot args
  | DoneMerging args a j => report_ok args ∧ a = report_slot args ∧ m ≤ j ≤ m + nRed ∧
      (da_TaskType args ≠ 1 → j = m + nRed)
  end.

Definition marked (a : Z) (th : thread) : bool :=
  match th with DoneMarked _ b => b =? a | _ => false end.
Definition holds (a : Z) (th : thread) : bool :=
  match th with DoneMarked _ b | DoneMerging _ b _ => b =? a | _ => false end.
Definition merging (th : thread) : bool := match th with DoneMerging _ _ _ => true | _ => false end.

Definition task_ok (k : nat) (t : taskData) : Prop :=
  taskId t = Z.of_nat k ∧
  match input !! k with
  | Some f => taskType t = 1 ∧ files t = [f]
  | None => taskType t = 2
  end.

Record shape (c : Coordinator) (ths : list thread) : Prop := {
  sh_red : 0 ≤ nRed ∧ Z.of_nat (length input) + nRed < 2 ^ 63;
  sh_nMap : nMap c = Z.of_nat (length input);
  sh_nReduce : nReduce c = nRed;
  sh_length : Z.of_nat (length (tasks c)) = Z.of_nat (length input) + nRed;
  sh_task k t : tasks c !! k = Some t → task_ok k t;
  sh_th : Forall th_ok ths;
  sh_lock k t : tasks c !! k = Some t → count (holds (Z.of_nat k)) ths = Z.b2z (taskLock t);
  sh_work : count merging ths = Z.b2z (workLock c);
}.

Lemma actual_slot c args :
  nMap c = Z.of_nat (length input) → Z.of_nat (length input) + nRed < 2 ^ 63 → report_ok args →
  actualTaskId c args = report_slot args.
Proof.
  intros Hm Hb Hr. unfold actualTaskId, report_slot, slot. rewrite Hm.
  destruct (Z.eqb_spec (da_TaskType args) 2) as [E|E]; [|done].
  destruct Hr as [[? ?]|[? ?]]; [lia|]. apply i64_id. lia.
Qed.

Lemma put_task (P : nat → taskData → Prop) c k t :
  (∀ k t, tasks c !! k = Some t → P k t) → P k t →
  ∀ k' t', tasks (put c k t) !! k' = Some t' → P k' t'.
Proof. intros HP Ht k' t' [(<- & <- & _)|[_ ?]]%list_lookup_insert_Some; auto. Qed.

Lemma reply_in_range c reply start stop i t :
  nMap c = Z.of_nat (length input) → 0 ≤ nRed → task_ok (Z.to_nat i) t → 0 ≤ i < stop →
  start ≤ i → (start = 0 ∧ stop = nMap c ∨ start = nMap c ∧ stop = nMap c + nRed) →
  in_range (ar_TaskType (ask_reply c start reply t)) (ar_TaskId (ask_reply c start reply t)).
Proof.
  intros Hm Hn [Hid Ht] Hi Hs Hr. unfold in_range. simpl. rewrite Hid, Z2Nat.id, <-Hm by lia.
  destruct (input !! Z.to_nat i) eqn:E.
  - apply lookup_lt_Some in E. destruct Ht as [-> _]. left. split; [done|].
    case_match eqn:Es; lia.
  - apply lookup_ge_None in E. right. split; [done|]. case_match eqn:Es; lia.
Qed.

Lemma move_th_ok c ths th c' th' :
  shape c ths → th_ok th → move c th c' th' → th_ok th'.
Proof.
  intros Hs Hth Hm. pose proof (sh_nMap _ _ Hs) as Hnm. pose proof (sh_nReduce _ _ Hs) as Hnr.
  destruct (sh_red _ _ Hs) as [Hr0 Hb].
  destruct Hm as [| | |since now reply start stop i t Hi| | | | | | |].
  4: { right. destruct Hth as (_ & ? & ?).
       apply (reply_in_range c reply start stop i t); rewrite ?Hnm; auto. by eapply sh_task. }
  all: simpl in *; rewrite ?Hnm, ?Hnr in *; auto.
  - unfold ask_range. rewrite Hnm, Hnr. case_match; simpl; split_and!; auto; lia.
  - naive_solver lia.
  - naive_solver.
  - split; [done|]. subst a. by eapply actual_slot.
  - destruct Hth. split_and!; auto; case_match; lia.
  - naive_solver lia.
  - naive_solver lia.
Qed.
Lemma move_static c th c' th' :
  move c th c' th' →
  nMap c' = nMap c ∧ nReduce c' = nReduce c ∧ length (tasks c') = length (tasks c).
Proof. destruct 1; simpl; rewrite ?length_insert; done. Qed.

Lemma move_task_ok c ths th c' th' :
  shape c ths → th_ok th → move c th c' th' → ∀ k t, tasks c' !! k = Some t → task_ok k t.
Proof.
  intros Hs Hth Hm. pose proof (sh_task _ _ Hs) as Ht.
  destruct Hm; simpl; auto; try (apply put_task; [done|]; apply (Ht _ _ ltac:(done))).
  apply put_task; [done|]. destruct (Ht _ _ ltac:(done)) as [Hid Hk]. split; [done|].
  destruct Hth as (_ & _ & ? & _). by rewrite lookup_ge_None_2 in Hk |- * by lia.
Qed.

Lemma move_locks c ths i th c' th' :
  shape c ths → ths !! i = Some th → move c th c' th' →
  ∀ k t, tasks c' !! k = Some t →
    count (holds (Z.of_nat k)) (<[i := th']> ths) = Z.b2z (taskLock t).
Proof.
  intros Hs Hi Hm k t. rewrite (count_insert _ _ _ _ _ Hi). pose proof (sh_lock _ _ Hs) as Hl.
  destruct Hm; simpl; try (intros Hk; rewrite (Hl _ _ Hk); lia);
    intros [(<- & <- & _)|[Hne Hk]]%list_lookup_insert_Some; simpl; try erewrite Hl by done;
    rewrite ?Z2Nat.id by lia; repeat case_match; simpl; try lia.
  - rewrite H2, Z.eqb_refl. done.
  - rewrite (proj2 (Z.eqb_neq _ _)) by lia. simpl. lia.
  - pose proof (count_elem (holds a) ths i _ Hi (Z.eqb_refl a)) as Hc.
    specialize (Hl _ _ H1). rewrite Z2Nat.id in Hl by lia. rewrite Z.eqb_refl.
    destruct (taskLock t0); simpl in *; lia.
  - rewrite (proj2 (Z.eqb_neq _ _)) by lia. simpl. lia.
Qed.

Lemma move_work c ths i th c' th' :
  shape c ths → ths !! i = Some th → move c th c' th' →
  count merging (<[i := th']> ths) = Z.b2z (workLock c').
Proof.
  intros Hs Hi Hm. rewrite (count_insert _ _ _ _ _ Hi), (sh_work _ _ Hs).
  destruct Hm; simpl; try lia.
  - by rewrite H.
  - pose proof (count_elem merging ths i _ Hi eq_refl) as Hc. rewrite (sh_work _ _ Hs) in Hc.
    destruct (workLock c); simpl in *; lia.
Qed.

Lemma shape_move c ths i th c' th' :
  shape c ths → ths !! i = Some th → move c th c' th' → shape c' (<[i := th']> ths).
Proof.
  intros Hs Hi Hm. destruct (move_static _ _ _ _ Hm) as (Hn & Hr & Hl).
  assert (th_ok th) as Hth by (eapply Forall_lookup_1; [by apply (sh_th _ _ Hs)|done]).
  constructor.
  - by apply (sh_red _ _ Hs).
  - by rewrite Hn, (sh_nMap _ _ Hs).
  - by rewrite Hr, (sh_nReduce _ _ Hs).
  - by rewrite Hl, (sh_length _ _ Hs).
  - by eapply move_task_ok.
  - apply Forall_insert; [by apply (sh_th _ _ Hs)|by eapply move_th_ok].
  - by eapply move_locks.
  - by eapply move_work.
Qed.

Lemma shape_call c ths th :
  shape c ths → th_ok th → merging th = false → (∀ a, holds a th = false) → shape c (ths ++ [th]).
Proof.
  intros [] Hth Hm Hh. constructor; try done.
  - apply Forall_app. split; [done|]. by constructor.
  - intros k t Hk. rewrite count_app. simpl. rewrite Hh. simpl. erewrite <-sh_lock0 by done. lia.
  - rewrite count_app. simpl. rewrite Hm. simpl. lia.
Qed.

Lemma handed_out_ok ths args : Forall th_ok ths → handed_out ths args → report_ok args.
Proof.
  rewrite Forall_forall. intros Hok (reply & Hin & Hid & H1 & H2). unfold report_ok.
  rewrite H1, H2. destruct (Hok _ Hin) as [(_ & ? & _)|?]; [done|done].
Qed.

Lemma initial_task k t :
  tasks (MakeCoordinator input nRed) !! k = Some t →
  task_ok k t ∧ done t = false ∧ issued t = false ∧ taskLock t = false ∧
  (Z.of_nat (length input) ≤ Z.of_nat k → files t = []).
Proof.
  unfold MakeCoordinator, task_ok. simpl.
  intros [H|[Hk H]]%lookup_app_Some; rewrite ?length_imap in *.
  - rewrite list_lookup_imap in H. apply fmap_Some in H as (f & Hf & ->). rewrite Hf.
    split_and!; try done. apply lookup_lt_Some in Hf. lia.
  - rewrite list_lookup_fmap in H. apply fmap_Some in H as (j & Hj & ->).
    apply lookup_seqZ in Hj as [-> ?]. rewrite lookup_ge_None_2 by lia. simpl.
    split_and!; try done. lia.
Qed.

Lemma shape_initial :
  0 ≤ nRed → Z.of_nat (length input) + nRed < 2 ^ 63 → shape (MakeCoordinator input nRed) [].
Proof.
  intros H0 Hb. constructor; try done.
  - simpl. rewrite length_app, length_imap, length_fmap, length_seqZ. lia.
  - intros k t Hk. by apply initial_task.
  - intros k t Hk. apply initial_task in Hk as (_ & _ & _ & -> & _). done.
Qed.

(** ** The two phases *)
Definition merging_map (th : thread) : bool :=
  match th with DoneMerging args _ _ => da_TaskType args =? 1 | _ => false end.
Definition is_marked (th : thread) : bool := match th with DoneMarked _ _ => true | _ => false end.

(** All map reports are counted and none is being merged. *)
Definition quiet (c : Coordinator) (ths : list thread) : Prop :=
  Z.of_nat (length input) ≤ workDone c ∧ count merging_map ths = 0.

(** The threads that exist only after the map phase. *)
Definition reduce_side (th : thread) : bool :=
  match th with
  | AskScanning _ start _ _ => start =? Z.of_nat (length input)
  | AskReturned reply => ar_TaskType reply =? 2
  | DoneCalled args | DoneMarked args _ | DoneMerging args _ _ => da_TaskType args =? 2
  | _ => false
  end.

Record phase (c : Coordinator) (ths : list thread) (l : list TaskDoneArgs) : Prop := {
  ph_log : Forall (λ args, da_TaskType args = 1 ∧ 0 ≤ da_TaskId args < Z.of_nat (length input)) l;
  ph_done k t : tasks c !! k = Some t → (k < length input)%nat →
    Z.b2z (done t) =
      count (λ args, da_TaskId args =? Z.of_nat k) l + count (marked (Z.of_nat k)) ths;
  ph_le : Z.of_nat (length l) ≤ workDone c;
  ph_more : Z.of_nat (length l) < workDone c → (length input ≤ length l)%nat;
  ph_red k t : tasks c !! k = Some t → (length input ≤ k)%nat →
    done t = true ∨ issued t = true → quiet c ths;
  ph_th i th : ths !! i = Some th → reduce_side th = true → quiet c ths;
  ph_count : count done (tasks c) = workDone c + count is_marked ths;
}.

Lemma log_count_le c ths l z :
  shape c ths → phase c ths l → count (λ args, da_TaskId args =? z) l ≤ 1.
Proof.
  intros Hs Hp. destruct (decide (0 ≤ z < Z.of_nat (length input))) as [Hz|Hz].
  - destruct (lookup_lt_is_Some_2 (tasks c) (Z.to_nat z)) as [t Ht].
    { pose proof (sh_length _ _ Hs). pose proof (sh_red _ _ Hs). lia. }
    pose proof (ph_done _ _ _ Hp _ _ Ht ltac:(lia)) as Hd. rewrite Z2Nat.id in Hd by lia.
    pose proof (count_nonneg (marked z) ths). destruct (done t); simpl in *; lia.
  - rewrite count_none; [lia|]. intros args Ha.
    pose proof (ph_log _ _ _ Hp) as Hl. rewrite Forall_forall in Hl.
    destruct (Hl _ Ha). apply Z.eqb_neq. lia.
Qed.

Lemma log_NoDup c ths l : shape c ths → phase c ths l → NoDup (da_TaskId <$> l).
Proof. intros Hs Hp. apply count_NoDup. intros z. by eapply log_count_le. Qed.

Lemma log_full c ths l :
  shape c ths → phase c ths l → Z.of_nat (length input) ≤ workDone c →
  da_TaskId <$> l ≡ₚ seqZ 0 (Z.of_nat (length input)).
Proof.
  intros Hs Hp Hq. apply submseteq_length_Permutation.
  - apply NoDup_submseteq; [by eapply log_NoDup|]. intros z (args & -> & Ha)%list_elem_of_fmap.
    pose proof (ph_log _ _ _ Hp) as Hl. rewrite Forall_forall in Hl.
    destruct (Hl _ Ha). apply elem_of_seqZ. lia.
  - rewrite length_fmap, length_seqZ. pose proof (ph_le _ _ _ Hp). pose proof (ph_more _ _ _ Hp).
    lia.
Qed.

(** A map report that waits for [workLock] has not been merged, so the map
    phase is not over. *)
Lemma marked_pending c ths l i args a :
  shape c ths → phase c ths l → ths !! i = Some (DoneMarked args a) → da_TaskType args = 1 →
  count (λ args', da_TaskId args' =? a) l = 0 ∧ workDone c < Z.of_nat (length input) ∧
  (length l < length input)%nat.
Proof.
  intros Hs Hp Hi Ht. pose proof (sh_th _ _ Hs) as Hth.
  assert (th_ok (DoneMarked args a)) as [[[_ Hr]|[? _]] Ha] by (by eapply Forall_lookup_1); [|lia].
  unfold report_slot, slot in Ha. rewrite Ht in Ha. simpl in Ha. subst a.
  set (z := da_TaskId args) in *.
  destruct (lookup_lt_is_Some_2 (tasks c) (Z.to_nat z)) as [t Hk].
  { pose proof (sh_length _ _ Hs). pose proof (sh_red _ _ Hs). lia. }
  pose proof (ph_done _ _ _ Hp _ _ Hk ltac:(lia)) as Hd. rewrite Z2Nat.id in Hd by lia.
  pose proof (count_elem (marked z) ths i _ Hi (Z.eqb_refl z)).
  pose proof (count_nonneg (λ args', da_TaskId args' =? z) l).
  assert (count (λ args', da_TaskId args' =? z) l = 0) as Hc0 by (destruct (done t); simpl in *; lia).
  split; [done|]. assert (¬ Z.of_nat (length input) ≤ workDone c) as Hw.
  { intros Hw. pose proof (log_full _ _ _ Hs Hp Hw) as Hf.
    assert (z ∈ da_TaskId <$> l) as (args' & Hz & Hin)%list_elem_of_fmap
      by (rewrite Hf; apply elem_of_seqZ; lia).
    apply list_elem_of_lookup in Hin as [j Hj].
    pose proof (count_zero _ _ _ _ Hc0 Hj) as Hz'. simpl in Hz'. lia. }
  pose proof (ph_le _ _ _ Hp). lia.
Qed.

Lemma quiet_move c ths l i th c' th' :
  shape c ths → phase c ths l → ths !! i = Some th → move c th c' th' →
  quiet c ths → quiet c' (<[i := th']> ths).
Proof.
  intros Hs Hp Hi Hm [Hw Hc]. unfold quiet. rewrite (count_insert _ _ _ _ _ Hi), Hc.
  pose proof (count_zero _ _ _ _ Hc Hi) as H0.
  destruct Hm; simpl in *; try rewrite H0; try (split; [lia|done]); [].
  destruct (Z.eqb_spec (da_TaskType args) 1) as [Ht|]; [|split; [lia|done]].
  pose proof (marked_pending _ _ _ _ _ _ Hs Hp Hi Ht). lia.
Qed.

Lemma move_done c th c' th' k t :
  move c th c' th' → tasks c' !! k = Some t →
  (∃ t0, tasks c !! k = Some t0 ∧ marked (Z.of_nat k) th' = false ∧ done t = done t0 ∧
     (issued t = true → issued t0 = true ∨
      ∃ reply start stop, th = AskScanning reply start stop (Z.of_nat k) ∧ Z.of_nat k < stop)) ∨
  ∃ args, th' = DoneMarked args (Z.of_nat k) ∧ th = DoneCalled args ∧
    Z.of_nat k = actualTaskId c args ∧
    done t = true ∧ ∃ t0, tasks c !! k = Some t0 ∧ done t0 = false ∧ issued t = issued t0.
Proof.
  intros Hm Hk. destruct Hm; simpl in *; try (left; exists t; split_and!; by auto);
    apply list_lookup_insert_Some in Hk as [(<- & <- & _)|[? ?]];
    try (left; exists t; split_and!; by auto); try (left; exists t0; split_and!; by auto).
  - left. exists t0. split_and!; try done. intros _. right. rewrite Z2Nat.id by lia.
    eexists _, _, _. split; [done|lia].
  - right. exists args. rewrite Z2Nat.id by lia. split_and!; eauto.
  - left. exists t. split_and!; try tauto. apply Z.eqb_neq. lia.
Qed.

Lemma move_phase_done c ths l i th c' th' :
  shape c ths → phase c ths l → ths !! i = Some th → move c th c' th' →
  ∀ k t, tasks c' !! k = Some t → (k < length input)%nat →
    Z.b2z (done t) = count (λ args, da_TaskId args =? Z.of_nat k) (log_step th l) +
      count (marked (Z.of_nat k)) (<[i := th']> ths).
Proof.
  intros Hs Hp Hi Hm k t Hk Hlt. rewrite (count_insert _ _ _ _ _ Hi).
  assert (th_ok th) as Hth by (eapply Forall_lookup_1; [by apply (sh_th _ _ Hs)|done]).
  destruct (move_done _ _ _ _ _ _ Hm Hk)
    as [(t0 & Hk0 & Hmk & -> & _)|(args & -> & -> & _ & -> & t0 & Hk0 & Hd & _)];
    pose proof (ph_done _ _ _ Hp _ _ Hk0 Hlt) as HD; rewrite ?Hd in HD; simpl in *.
  - rewrite Hmk, HD. destruct Hm; simpl; try lia. destruct Hth as [Hr Ha].
    unfold report_slot, slot in Ha. rewrite Ha.
    destruct Hr as [[Ht ?]|[Ht ?]]; rewrite Ht; simpl.
    + rewrite count_app. simpl. lia.
    + rewrite (proj2 (Z.eqb_neq _ _)) by lia. simpl. lia.
  - rewrite Z.eqb_refl. simpl. lia.
Qed.

Lemma move_phase_counts c ths l i th c' th' :
  shape c ths → phase c ths l → ths !! i = Some th → move c th c' th' →
  Z.of_nat (length (log_step th l)) ≤ workDone c' ∧
  (Z.of_nat (length (log_step th l)) < workDone c' → (length input ≤ length (log_step th l))%nat).
Proof.
  intros Hs Hp Hi Hm. pose proof (ph_le _ _ _ Hp) as Hle. pose proof (ph_more _ _ _ Hp) as Hmore.
  assert (th_ok th) as Hth by (eapply Forall_lookup_1; [by apply (sh_th _ _ Hs)|done]).
  destruct Hm; simpl in *; try (split; [done|done]); [].
  destruct (Z.eqb_spec (da_TaskType args) 1) as [Ht|Ht].
  - destruct (marked_pending _ _ _ _ _ _ Hs Hp Hi Ht) as (_ & _ & ?).
    rewrite length_app. simpl. lia.
  - split; [lia|]. intros _. destruct Hth as [[[? _]|[Ht2 _]] _]; [done|].
    pose proof (ph_th _ _ _ Hp _ _ Hi) as Hq. simpl in Hq.
    destruct Hq as [Hq _]; [by rewrite Ht2|]. lia.
Qed.

Lemma move_reduce_side c ths l i th c' th' :
  shape c ths → phase c ths l → ths !! i = Some th → move c th c' th' →
  reduce_side th' = true → quiet c' (<[i := th']> ths).
Proof.
  intros Hs Hp Hi Hm Hr. pose proof (sh_nMap _ _ Hs) as Hn.
  assert (th_ok th) as Hth by (eapply Forall_lookup_1; [by apply (sh_th _ _ Hs)|done]).
  destruct (reduce_side th) eqn:E.
  { eapply quiet_move; try done. by eapply ph_th. }
  destruct Hm; simpl in *; try congruence.
  - unfold ask_range, quiet in *. rewrite (count_insert _ _ _ _ _ Hi). simpl. rewrite Hn in *.
    destruct (Z.ltb_spec (workDone c) (Z.of_nat (length input))); simpl in *.
    { pose proof (ph_le _ _ _ Hp). destruct (Z.of_nat (length input)); [lia|done..]. }
    split; [done|]. pose proof (sh_work _ _ Hs) as Hw. rewrite H in Hw. simpl in Hw.
    pose proof (count_mono merging_map merging ths) as Hle.
    pose proof (count_nonneg merging_map ths).
    assert (count merging_map ths ≤ count merging ths) by (apply Hle; by intros []). lia.
  - destruct Hth as (_ & ? & [[-> ->]|[-> ->]]); [|by rewrite Z.eqb_refl in E].
    destruct (sh_task _ _ Hs _ _ H0) as [_ Ht]. apply Z.eqb_eq in Hr.
    destruct (lookup_lt_is_Some_2 input (Z.to_nat i0)) as [f Hf]; [lia|].
    rewrite Hf in Ht. lia.
  - destruct Hth as ((Ht & _ & _) & _). by rewrite Ht in Hr.
Qed.

Lemma move_phase_red c ths l i th c' th' :
  shape c ths → phase c ths l → ths !! i = Some th → move c th c' th' →
  ∀ k t, tasks c' !! k = Some t → (length input ≤ k)%nat → done t = true ∨ issued t = true →
    quiet c' (<[i := th']> ths).
Proof.
  intros Hs Hp Hi Hm k t Hk Hle Hd.
  assert (th_ok th) as Hth by (eapply Forall_lookup_1; [by apply (sh_th _ _ Hs)|done]).
  eapply quiet_move; try done.
  destruct (move_done _ _ _ _ _ _ Hm Hk)
    as [(t0 & Hk0 & _ & Hdd & Hii)|(args & -> & -> & Ha & _ & t0 & Hk0 & Hd0 & Hii)].
  - destruct Hd as [Hd|Hd]; [eapply ph_red; try done; left; congruence|].
    destruct (Hii Hd) as [?|(reply & start & stop & -> & Hlt)]; [eapply ph_red; eauto|].
    eapply ph_th; [done..|]. simpl in *. destruct Hth as (_ & ? & [[-> ->]|[-> ->]]); lia.
  - eapply ph_th; [done..|]. simpl in *. pose proof (sh_red _ _ Hs) as [? ?].
    rewrite (actual_slot c args) in Ha; [|by apply (sh_nMap _ _ Hs)|done..].
    unfold report_slot, slot in Ha. destruct Hth as [[Ht ?]|[Ht ?]]; rewrite Ht in *; simpl in *; lia.
Qed.

Lemma move_phase_count c ths i th c' th' :
  ths !! i = Some th → move c th c' th' →
  count done (tasks c) = workDone c + count is_marked ths →
  count done (tasks c') = workDone c' + count is_marked (<[i := th']> ths).
Proof.
  intros Hi Hm Hc. rewrite (count_insert _ _ _ _ _ Hi).
  destruct Hm; simpl; try lia; erewrite count_insert by done; simpl; try lia.
  rewrite H3. simpl. lia.
Qed.

Lemma phase_move c ths l i th c' th' :
  shape c ths → phase c ths l → ths !! i = Some th → move c th c' th' →
  phase c' (<[i := th']> ths) (log_step th l).
Proof.
  intros Hs Hp Hi Hm.
  assert (th_ok th) as Hth by (eapply Forall_lookup_1; [by apply (sh_th _ _ Hs)|done]).
  destruct (move_phase_counts _ _ _ _ _ _ _ Hs Hp Hi Hm) as [Hle Hmore].
  constructor; try done.
  - pose proof (ph_log _ _ _ Hp). destruct th; simpl; try done. case_match; [|done].
    apply Forall_app. split; [done|]. constructor; [|constructor].
    destruct Hth as [[?|[? _]] _]; [done|lia].
  - by eapply move_phase_done.
  - by eapply move_phase_red.
  - intros j thj [(<- & <- & _)|[_ Hj]]%list_lookup_insert_Some Hr.
    + by eapply move_reduce_side.
    + eapply quiet_move; [done..|]. by eapply ph_th.
  - eapply move_phase_count; [done..|]. by apply (ph_count _ _ _ Hp).
Qed.

(** ** The files of the reduce tasks *)
Definition contributions (r : Z) (l : list TaskDoneArgs) : list string :=
  omap (λ args, da_Files args !! r) l.

(** A merge that has not reached task [k] yet. *)
Definition pending (k : nat) (th : thread) : bool :=
  match th with
  | DoneMerging args _ j => (da_TaskType args =? 1) && (j <=? Z.of_nat k)
  | _ => false
  end.

(** The reports whose files a reduce task has, [n] merges being on their way. *)
Definition snapshot (l : list TaskDoneArgs) (n : Z) : list TaskDoneArgs :=
  if 0 <? n then take (length l - 1) l else l.

Record merged (c : Coordinator) (ths : list thread) (l : list TaskDoneArgs) : Prop := {
  mg_last i args a j :
    ths !! i = Some (DoneMerging args a j) → da_TaskType args = 1 → last l = Some args;
  mg_files k t : tasks c !! k = Some t → (length input ≤ k)%nat →
    files t = contributions (Z.of_nat k - Z.of_nat (length input))
                (snapshot l (count (pending k) ths));
  mg_reply i reply :
    ths !! i = Some (AskReturned reply) → ar_TaskType reply = 2 →
    ar_Files reply = contributions (ar_TaskId reply) l;
}.

Lemma pending_merging k ths :
  count (pending k) ths ≤ count merging_map ths ∧ count merging_map ths ≤ count merging ths.
Proof.
  split; apply count_mono; intros []; simpl; try done. by intros [? _]%andb_true_iff.
Qed.

Lemma quiet_log c ths l i th c' th' :
  shape c ths → phase c ths l → ths !! i = Some th → move c th c' th' →
  Z.of_nat (length input) ≤ workDone c → log_step th l = l.
Proof.
  intros Hs Hp Hi Hm Hq. destruct th; try done. simpl. case_match eqn:E; [|done].
  apply Z.eqb_eq in E. destruct (marked_pending _ _ _ _ _ _ Hs Hp Hi E). lia.
Qed.

Lemma issue_files c ths l i th c' reply :
  shape c ths → phase c ths l → merged c ths l → ths !! i = Some th →
  move c th c' (AskReturned reply) → ar_TaskType reply = 2 →
  ar_Files reply = contributions (ar_TaskId reply) l.
Proof.
  intros Hs Hp Hg Hi Hm Ht.
  assert (th_ok th) as Hth by (eapply Forall_lookup_1; [by apply (sh_th _ _ Hs)|done]).
  inversion Hm as [| | |since now r start stop j t Hj Hk _ _| ? ? ? ? ?| | | | | |];
    simplify_eq; simpl in *.
  - destruct Hth as ((_ & _ & Hf) & ? & Hr). rewrite Hf. simpl.
    destruct (sh_task _ _ Hs _ _ Hk) as [Hid Hty]. rewrite Z2Nat.id in Hid by lia.
    assert (length input ≤ Z.to_nat j)%nat as Hge.
    { apply lookup_ge_None. destruct (input !! _); [lia|done]. }
    assert (start = Z.of_nat (length input)) as Hst by lia.
    destruct (ph_th _ _ _ Hp _ _ Hi) as [_ Hq]; [by simpl; rewrite Hst, Z.eqb_refl|].
    rewrite (mg_files _ _ _ Hg _ _ Hk Hge). destruct (pending_merging (Z.to_nat j) ths) as [Hpm _].
    unfold snapshot. rewrite (proj2 (Z.ltb_ge _ _)) by lia. rewrite Hid, (sh_nMap _ _ Hs), Z2Nat.id by lia.
    f_equal. destruct (Z.eqb_spec start 0); lia.
  - destruct Hth as ((Ht' & _ & _) & _). lia.
Qed.

Lemma snapshot_snoc l args b :
  snapshot (l ++ [args]) (Z.b2z b) = if b then l else l ++ [args].
Proof.
  destruct b; [|done]. unfold snapshot. simpl. rewrite length_app. simpl.
  by rewrite Nat.add_sub, take_app_length.
Qed.

Lemma merge_last c ths l i args a j :
  shape c ths → merged c ths l → ths !! i = Some (DoneMerging args a j) →
  j < Z.of_nat (length input) + nRed →
  ∃ l0, l = l0 ++ [args] ∧ Z.of_nat (length input) ≤ j ∧
    ∀ k, count (pending k) ths = Z.b2z (j <=? Z.of_nat k).
Proof.
  intros Hs Hg Hi Hj.
  assert (th_ok (DoneMerging args a j)) as (_ & _ & Hmj & Hty)
    by (eapply Forall_lookup_1; [by apply (sh_th _ _ Hs)|done]).
  destruct (decide (da_TaskType args = 1)) as [Ht|Ht]; [|specialize (Hty Ht); lia].
  destruct (proj1 (last_Some _ _) (mg_last _ _ _ Hg _ _ _ _ Hi Ht)) as [l0 ->].
  exists l0. split_and!; [done|lia|]. pose proof (count_elem merging _ _ _ Hi eq_refl) as Hc.
  intros k. rewrite (count_unique (pending k) merging ths i (DoneMerging args a j)); try done.
  - simpl. by rewrite Ht.
  - by intros [].
  - rewrite (sh_work _ _ Hs) in *. destruct (workLock c); simpl in *; lia.
Qed.

Lemma contributions_snoc r l args :
  contributions r (l ++ [args]) =
    contributions r l ++ match da_Files args !! r with Some f => [f] | None => [] end.
Proof. unfold contributions. rewrite omap_app. simpl. by case_match. Qed.

Lemma acquire_files c ths l args k t :
  shape c ths → merged c ths l → workLock c = false → tasks c !! k = Some t →
  (length input ≤ k)%nat → da_TaskType args = 1 →
  files t = contributions (Z.of_nat k - Z.of_nat (length input))
    (snapshot (l ++ [args]) (count (pending k) ths + 1)).
Proof.
  intros Hs Hg Hw Hk Hge Ht. rewrite (mg_files _ _ _ Hg _ _ Hk Hge).
  destruct (pending_merging k ths). pose proof (sh_work _ _ Hs) as Hc. rewrite Hw in Hc.
  pose proof (count_nonneg (pending k) ths). simpl in Hc.
  assert (count (pending k) ths = 0) as -> by lia.
  change (0 + 1) with (Z.b2z true). by rewrite snapshot_snoc.
Qed.

(** One round of the merge loop. *)
Lemma merge_round c ths l i args a j k t :
  shape c ths → merged c ths l → ths !! i = Some (DoneMerging args a j) →
  j < Z.of_nat (length input) + nRed → tasks c !! k = Some t → (length input ≤ k)%nat →
  files t ++ (if j =? Z.of_nat k then
                match da_Files args !! (j - Z.of_nat (length input)) with
                | Some f => [f] | None => [] end else []) =
  contributions (Z.of_nat k - Z.of_nat (length input))
    (snapshot l (count (pending k) ths - Z.b2z (pending k (DoneMerging args a j)) +
                 Z.b2z (pending k (DoneMerging args a (j + 1))))).
Proof.
  intros Hs Hg Hi Hj Hk Hge. rewrite (mg_files _ _ _ Hg _ _ Hk Hge).
  destruct (merge_last _ _ _ _ _ _ _ Hs Hg Hi Hj) as (l0 & -> & Hmj & Hp). rewrite Hp. simpl.
  assert (da_TaskType args = 1) as ->.
  { assert (th_ok (DoneMerging args a j)) as (_ & _ & _ & Hty)
      by (eapply Forall_lookup_1; [by apply (sh_th _ _ Hs)|done]). lia. }
  simpl. replace (Z.b2z (j <=? Z.of_nat k) - Z.b2z (j <=? Z.of_nat k) + Z.b2z (j + 1 <=? Z.of_nat k))
    with (Z.b2z (j + 1 <=? Z.of_nat k)) by lia.
  rewrite !snapshot_snoc. destruct (Z.eqb_spec j (Z.of_nat k)) as [->|Hne].
  - rewrite (proj2 (Z.leb_le _ _)), (proj2 (Z.leb_gt _ _)) by lia. by rewrite contributions_snoc.
  - rewrite app_nil_r. f_equal. destruct (Z.leb_spec j (Z.of_nat k)), (Z.leb_spec (j + 1) (Z.of_nat k));
      try done; lia.
Qed.

Lemma merged_files_move c ths l i th c' th' :
  shape c ths → phase c ths l → merged c ths l → ths !! i = Some th → move c th c' th' →
  ∀ k t, tasks c' !! k = Some t → (length input ≤ k)%nat →
    files t = contributions (Z.of_nat k - Z.of_nat (length input))
      (snapshot (log_step th l) (count (pending k) (<[i := th']> ths))).
Proof.
  intros Hs Hp Hg Hi Hm k t Hk Hge. rewrite (count_insert _ _ _ _ _ Hi).
  pose proof (λ k t, mg_files _ _ _ Hg k t) as HF. pose proof (sh_nMap _ _ Hs) as Hn.
  pose proof (sh_nReduce _ _ Hs) as Hr.
  assert (Z.of_nat k < Z.of_nat (length input) + nRed) as Hkl.
  { apply lookup_lt_Some in Hk. destruct (move_static _ _ _ _ Hm) as (_ & _ & Hl).
    pose proof (sh_length _ _ Hs). lia. }
  destruct Hm; cbn [log_step pending Z.b2z tasks with_workers with_work]; simpl in Hk;
    rewrite ?Z.sub_0_r, ?Z.add_0_r; auto.
  - apply list_lookup_insert_Some in Hk as [(<- & <- & _)|[_ ?]]; simpl; auto.
  - apply list_lookup_insert_Some in Hk as [(<- & <- & _)|[_ ?]]; simpl; auto.
  - destruct (Z.eqb_spec (da_TaskType args) 1) as [Ht|Ht]; simpl; [|rewrite Z.add_0_r; auto].
    rewrite Hn, (proj2 (Z.leb_le _ _)) by lia. by eapply acquire_files.
  - rewrite Hn, Hr in *. apply list_lookup_insert_Some in Hk as [(Hkj & <- & _)|[Hkj Hk]].
    + subst k. pose proof (merge_round _ _ _ _ _ _ _ _ _ Hs Hg Hi ltac:(lia) H1 Hge) as HR.
      simpl in HR |- *. rewrite Z2Nat.id, Z.eqb_refl, H0 in HR by lia.
      rewrite Z2Nat.id by lia. exact HR.
    + pose proof (merge_round _ _ _ _ _ _ _ _ _ Hs Hg Hi ltac:(lia) Hk Hge) as HR.
      rewrite (proj2 (Z.eqb_neq _ _)), app_nil_r in HR by lia. exact HR.
  - rewrite Hn, Hr in *. pose proof (merge_round _ _ _ _ _ _ _ _ _ Hs Hg Hi H Hk Hge) as HR.
    rewrite H0 in HR. case_match; by rewrite app_nil_r in HR.
  - rewrite Hn, Hr in *. rewrite (proj2 (Z.leb_gt _ _)), andb_false_r by lia.
    rewrite Z.sub_0_r. apply list_lookup_insert_Some in Hk as [(<- & <- & _)|[_ ?]]; simpl; auto.
Qed.

Lemma merged_move c ths l i th c' th' :
  shape c ths → phase c ths l → merged c ths l → ths !! i = Some th → move c th c' th' →
  merged c' (<[i := th']> ths) (log_step th l).
Proof.
  intros Hs Hp Hg Hi Hm. constructor.
  - intros j args a z [(<- & -> & _)|[Hne Hj]]%list_lookup_insert_Some Ht.
    + inversion Hm; simplify_eq; simpl; [|by eapply mg_last..].
      rewrite Ht. simpl. by rewrite last_snoc.
    + rewrite <-(mg_last _ _ _ Hg _ _ _ _ Hj Ht). destruct th; try done. simpl.
      inversion Hm as [| | | | | | |? ? Hw| | |]. subst.
      pose proof (count_elem merging _ _ _ Hj eq_refl) as Hc.
      rewrite (sh_work _ _ Hs), Hw in Hc. simpl in Hc. lia.
  - by eapply merged_files_move.
  - intros j reply [(<- & -> & _)|[Hne Hj]]%list_lookup_insert_Some Ht.
    + assert (log_step th l = l) as -> by by inversion Hm.
      by eapply issue_files.
    + assert (log_step th l = l) as ->; [|by eapply mg_reply].
      eapply quiet_log; [done..|]. eapply ph_th; [done..|]. simpl. by rewrite Ht.
Qed.

(** ** Reachable states *)
Definition Inv (w : world) : Prop :=
  shape (coord w) (threads w) ∧ phase (coord w) (threads w) (log w) ∧
  merged (coord w) (threads w) (log w).

Lemma Inv_call c ths l th :
  Inv (mkWorld c ths l) → th_ok th → (∃ args, th = AskCalled args) ∨
    (∃ args, th = DoneCalled args ∧ (da_TaskType args = 2 → quiet c ths)) →
  Inv (mkWorld c (ths ++ [th]) l).
Proof.
  intros (Hs & Hp & Hg) Hth Hc. assert (∀ f : thread → bool, f th = false →
    count f (ths ++ [th]) = count f ths) as Hf.
  { intros f Hft. rewrite count_app. simpl. rewrite Hft. apply Z.add_0_r. }
  assert (∀ c, quiet c ths → quiet c (ths ++ [th])) as Hq.
  { intros c' [? ?]. split; [done|]. rewrite Hf; [done|by naive_solver]. }
  split_and!; simpl in *.
  - apply shape_call; naive_solver.
  - destruct Hp. constructor; try done.
    + intros. rewrite Hf by naive_solver. eauto.
    + intros. apply Hq. eauto.
    + intros j th' [[_ Hj]|[_ Hj]]%lookup_snoc_Some Hr; apply Hq; [eauto|]. simplify_eq.
      destruct Hc as [[? ->]|(? & -> & Hd)]; [done|]. simpl in Hr. apply Hd. lia.
    + rewrite Hf by naive_solver. done.
  - destruct Hg. constructor; try done.
    + intros j args a z [[_ Hj]|[_ Hj]]%lookup_snoc_Some; [eauto|naive_solver].
    + intros. rewrite Hf by naive_solver. eauto.
    + intros j reply [[_ Hj]|[_ Hj]]%lookup_snoc_Some; [eauto|naive_solver].
Qed.

Lemma Inv_step w w' : Inv w → step w w' → Inv w'.
Proof.
  intros HI Hst. destruct Hst as [c ths l args|c ths l args Hh|c ths l i th c' th' since now Hi Hrun].
  - apply Inv_call; naive_solver.
  - pose proof HI as (Hs & Hp & Hg). simpl in *.
    apply Inv_call; [done|simpl; eapply handed_out_ok; [by apply (sh_th _ _ Hs)|done]|].
    right. exists args. split; [done|]. intros Ht.
    destruct Hh as (reply & [j Hj]%list_elem_of_lookup & _ & _ & Hty).
    eapply (ph_th _ _ _ Hp); [done|]. simpl. lia.
  - apply thread_step_move in Hrun. destruct HI as (Hs & Hp & Hg). split_and!; simpl in *.
    + by eapply shape_move.
    + by eapply phase_move.
    + by eapply merged_move.
Qed.

Lemma Inv_initial :
  0 ≤ nRed → Z.of_nat (length input) + nRed < 2 ^ 63 → Inv (initial input nRed).
Proof.
  intros H0 Hb. split_and!; simpl; [by apply shape_initial|constructor|constructor]; try done.
  - intros k t (_ & -> & _)%initial_task _. done.
  - intros k t (_ & -> & -> & _)%initial_task _. naive_solver.
  - rewrite count_none; [done|]. intros t [k Hk]%list_elem_of_lookup.
    by apply initial_task in Hk as (_ & -> & _).
  - intros k t (_ & _ & _ & _ & Hf)%initial_task Hge. rewrite Hf by lia. done.
Qed.

Lemma reachable_Inv w :
  0 ≤ nRed → Z.of_nat (length input) + nRed < 2 ^ 63 → reachable input nRed w → Inv w.
Proof.
  intros H0 Hb Hw. unfold reachable in Hw. pose proof (Inv_initial H0 Hb) as HI.
  revert HI Hw. generalize (initial input nRed) as w0. intros w0 HI Hw.
  induction Hw; eauto using Inv_step.
Qed.

(** The map tasks are done once [workDone] has reached their number. *)
Lemma maps_done c ths l k t :
  shape c ths → phase c ths l → Z.of_nat (length input) ≤ workDone c →
  tasks c !! k = Some t → (k < length input)%nat → done t = true.
Proof.
  intros Hs Hp Hq Hk Hlt. pose proof (log_full _ _ _ Hs Hp Hq) as Hfull.
  pose proof (ph_done _ _ _ Hp _ _ Hk Hlt) as Hd.
  assert (Z.of_nat k ∈ da_TaskId <$> l) as (args & Ha & Hin)%list_elem_of_fmap
    by (rewrite Hfull; apply elem_of_seqZ; lia).
  apply list_elem_of_lookup in Hin as [j Hj].
  pose proof (count_elem (λ args, da_TaskId args =? Z.of_nat k) _ _ _ Hj ltac:(simpl; lia)).
  pose proof (count_nonneg (marked (Z.of_nat k)) ths).
  destruct (done t); [done|]. simpl in Hd. lia.
Qed.

(** C11 When [AskTask] has handed out reduce task [r], in any interleaving of
    any number of RPCs, every map task is done and its report has been merged
    exactly once, and the files handed out are, in the order of the merges, the
    files those reports name for [r]: none is missing, none comes twice. *)
Theorem reduce_gets_all_maps w reply :
  0 ≤ nRed → Z.of_nat (length input) + nRed < 2 ^ 63 → reachable input nRed w →
  AskReturned reply ∈ threads w → ar_TaskType reply = 2 →
  da_TaskId <$> log w ≡ₚ seqZ 0 (Z.of_nat (length input)) ∧
  Forall (λ args, da_TaskType args = 1) (log w) ∧
  ar_Files reply = omap (λ args, da_Files args !! ar_TaskId reply) (log w) ∧
  (∀ k t, tasks (coord w) !! k = Some t → (k < length input)%nat → done t = true).
Proof.
  intros H0 Hb Hw [i Hi]%list_elem_of_lookup Ht.
  destruct (reachable_Inv w H0 Hb Hw) as (Hs & Hp & Hg).
  destruct (ph_th _ _ _ Hp _ _ Hi) as [Hq _]; [by simpl; rewrite Ht|].
  pose proof (log_full _ _ _ Hs Hp Hq) as Hfull. split_and!.
  - done.
  - eapply Forall_impl; [by apply (ph_log _ _ _ Hp)|]. naive_solver.
  - by eapply mg_reply.
  - intros k t Hk Hlt. by eapply maps_done.
Qed.

(** [workDone] counts: in every reachable state it is the number of done
    tasks less the threads between marking their task and taking [workLock],
    and the locks are held by exactly one thread each. *)
Lemma workDone_counts w :
  0 ≤ nRed → Z.of_nat (length input) + nRed < 2 ^ 63 → reachable input nRed w →
  workDone (coord w) = count done (tasks (coord w)) - count is_marked (threads w) ∧
  count merging (threads w) = Z.b2z (workLock (coord w)) ∧
  (∀ k t, tasks (coord w) !! k = Some t →
     count (holds (Z.of_nat k)) (threads w) = Z.b2z (taskLock t)).
Proof.
  intros H0 Hb Hw. destruct (reachable_Inv w H0 Hb Hw) as (Hs & Hp & _).
  split_and!; [|by apply (sh_work _ _ Hs)|by apply (sh_lock _ _ Hs)].
  rewrite (ph_count _ _ _ Hp). lia.
Qed.

(** ** Progress *)
Definition returned (th : thread) : bool :=
  match th with AskReturned _ | DoneReturned _ _ => true | _ => false end.
Definition can_step (c : Coordinator) (th : thread) : Prop :=
  ∀ since now, ∃ c' th', thread_step since now c th = Ret (c', th').

(** No RPC of an honest worker panics: the step returns, or waits for a lock. *)
Lemma step_not_panic c ths l i th since now :
  shape c ths → phase c ths l → ths !! i = Some th →
  (∃ c' th', thread_step since now c th = Ret (c', th')) ∨ thread_step since now c th = Blocked.
Proof.
  intros Hs Hp Hi. pose proof (sh_length _ _ Hs) as Hl. pose proof (sh_nMap _ _ Hs) as Hn.
  pose proof (sh_nReduce _ _ Hs) as Hr. destruct (sh_red _ _ Hs) as [H0 Hb].
  assert (th_ok th) as Hth by (eapply Forall_lookup_1; [by apply (sh_th _ _ Hs)|done]).
  assert (∀ j, 0 ≤ j < nMap c + nReduce c → ∃ t, index (tasks c) j = Ret t ∧
    ∀ x, ∃ ts, store (tasks c) j x = Ret ts) as Hidx.
  { intros j Hj. destruct (index_lt (tasks c) j) as [t Ht]; [lia|]. exists t. split; [done|].
    intros x. rewrite store_lt by lia. eauto. }
  destruct th as [args| |reply start stop j| |args| |args a j|]; simpl; auto.
  - unfold ask_id. case_match; eauto.
  - destruct (workLock c); [by right|left]. destruct (ask_range c); eauto.
  - destruct Hth as (_ & Hsj & Hss). destruct (Z.ltb_spec j stop); [|by eauto].
    destruct (Hidx j) as (t & Ht & Hst); [rewrite Hn, Hr; lia|]. unfold ask_try. rewrite Ht. simpl.
    destruct (taskLock t); [by right|left]. simpl. case_match; simpl; [|by eauto].
    destruct (Hst (set_issued now t)) as [ts ->]. simpl. eauto.
  - rewrite (actual_slot c args Hn Hb Hth).
    assert (0 ≤ report_slot args < nMap c + nReduce c) as Ha.
    { rewrite Hn, Hr. unfold report_slot, slot. destruct Hth as [[-> ?]|[-> ?]]; simpl; lia. }
    rewrite (proj2 (Z.ltb_ge _ _)) by lia. destruct (Hidx _ Ha) as (t & -> & Hst). simpl.
    destruct (taskLock t); [by right|left]. simpl. case_match; simpl; [by eauto|].
    destruct (Hst (set_lock true (set_done t))) as [ts ->]. simpl. eauto.
  - destruct (workLock c); [by right|left]. simpl. eauto.
  - left. destruct Hth as (Hro & Ha & Hj & _). case_match eqn:E.
    + unfold merge_file. case_match; simpl; [|by eauto].
      destruct (Hidx j) as (t & -> & Hst); [lia|]. simpl.
      edestruct Hst as [ts ->]. simpl. eauto.
    + destruct (Hidx a) as (t & -> & Hst).
      { rewrite Hn, Hr, Ha. unfold report_slot, slot. destruct Hro as [[-> ?]|[-> ?]]; simpl; lia. }
      simpl. edestruct Hst as [ts ->]. simpl. eauto.
Qed.

(** What a thread waits for. *)
Lemma step_blocked since now c th :
  thread_step since now c th = Blocked → returned th = false →
  merging th = false ∧
  (workLock c = true ∨ (is_marked th = false ∧ ∃ k t, tasks c !! k = Some t ∧ taskLock t = true)).
Proof.
  assert (∀ i t, index (tasks c) i = Ret t → tasks c !! Z.to_nat i = Some t) as Hix.
  { intros i t Hit. by apply index_Ret in Hit as [_ ?]. }
  assert (∀ i, index (tasks c) i ≠ Blocked) as Hib.
  { intros i. unfold index, deref. repeat case_match; done. }
  assert (∀ i x, store (tasks c) i x ≠ Blocked) as Hsb.
  { intros i x. unfold store. case_match; done. }
  destruct th as [args| |reply start stop j| |args| |args a j|]; simpl; intros H Hr; try done.
  - unfold ask_id in H. case_match; done.
  - split; [done|]. left. destruct (workLock c); [done|]. simpl in H. by destruct (ask_range c).
  - split; [done|]. right. split; [done|]. case_match; [|done]. unfold ask_try in H.
    destruct (index (tasks c) j) as [t| | | |] eqn:Et; try done; [|by apply Hib in Et].
    exists (Z.to_nat j), t. split; [auto|]. simpl in H. destruct (taskLock t); [done|].
    simpl in H. case_match; [|done]. destruct (store _ _ _) eqn:Es; try done. by apply Hsb in Es.
  - split; [done|]. right. split; [done|]. case_match; [done|].
    destruct (index (tasks c) _) as [t| | | |] eqn:Et; try done; [|by apply Hib in Et].
    eexists _, t. split; [by eapply Hix|]. simpl in H. destruct (taskLock t); [done|].
    simpl in H. case_match; [done|]. destruct (store _ _ _) eqn:Es; try done. by apply Hsb in Es.
  - split; [done|]. left. by destruct (workLock c).
  - exfalso. case_match.
    + unfold merge_file in H. case_match; [|done].
      destruct (index (tasks c) j) eqn:Et; try done; [|by apply Hib in Et]. simpl in H.
      destruct (store _ _ _) eqn:Es; try done. by apply Hsb in Es.
    + destruct (index (tasks c) a) eqn:Et; try done; [|by apply Hib in Et]. simpl in H.
      destruct (store _ _ _) eqn:Es; try done. by apply Hsb in Es.
Qed.

(** Some thread can step as long as one has not returned. *)
Lemma threads_progress c ths l since now :
  shape c ths → phase c ths l → (∃ i th, ths !! i = Some th ∧ returned th = false) →
  ∃ i th c' th', ths !! i = Some th ∧ thread_step since now c th = Ret (c', th').
Proof.
  intros Hs Hp. pose proof (λ i th, step_not_panic _ _ _ i th since now Hs Hp) as Hnp.
  intros (i & th & Hi & Hr).
  assert (∀ j th', ths !! j = Some th' → returned th' = false →
    (workLock c = false ∨ merging th' = true) →
    (is_marked th' = true ∨ merging th' = true ∨
     ∀ k t, tasks c !! k = Some t → taskLock t = false) →
    ∃ i th c' th', ths !! i = Some th ∧ thread_step since now c th = Ret (c', th'))
    as Hgo.
  { intros j th' Hj Hr' Hwl Htl. destruct (Hnp j th' Hj) as [(? & ? & ?)|HB]; [by eauto 6|].
    destruct (step_blocked _ _ _ _ HB Hr') as [Hm [?|(Hk & k & t & Ht & Hl)]]; [destruct Hwl; congruence|].
    destruct Htl as [?|[?|Hno]]; [congruence..|]. specialize (Hno _ _ Ht). congruence. }
  destruct (workLock c) eqn:Ew.
  { destruct (count_pos merging ths) as (j & th' & Hj & Hm).
    - rewrite (sh_work _ _ Hs), Ew. done.
    - apply (Hgo j th'); auto. by destruct th'. }
  destruct (decide (1 ≤ count is_marked ths)) as [Hc|Hc].
  { apply count_pos in Hc as (j & th' & Hj & Hm). apply (Hgo j th'); auto. by destruct th'. }
  apply (Hgo i th); auto. right. right. intros k t Ht. destruct (taskLock t) eqn:El; [|done].
  destruct (count_pos (holds (Z.of_nat k)) ths) as (j & th' & Hj & Hh).
  { rewrite (sh_lock _ _ Hs _ _ Ht), El. done. }
  destruct th' as [| | | | |args a|args a z|]; try done.
  - destruct Hc. by apply (count_elem is_marked _ _ _ Hj).
  - pose proof (count_elem merging _ _ _ Hj eq_refl) as Hm. rewrite (sh_work _ _ Hs), Ew in Hm.
    simpl in Hm. lia.
Qed.

(** The handlers cannot deadlock: as long as an RPC has not returned, some
    thread can take a step; and no RPC of an honest worker panics. *)
Lemma coordinator_progress w since now :
  0 ≤ nRed → Z.of_nat (length input) + nRed < 2 ^ 63 → reachable input nRed w →
  (∀ i th, threads w !! i = Some th → thread_step since now (coord w) th ≠ Panic) ∧
  ((∃ i th, threads w !! i = Some th ∧ returned th = false) →
   ∃ i th c' th', threads w !! i = Some th ∧ thread_step since now (coord w) th = Ret (c', th')).
Proof.
  intros H0 Hb Hw. destruct (reachable_Inv w H0 Hb Hw) as (Hs & Hp & _).
  pose proof (λ i th, step_not_panic _ _ _ i th since now Hs Hp) as Hnp. split.
  { intros i th Hi HP. destruct (Hnp i th Hi) as [(? & ? & ?)|?]; congruence. }
  by eapply threads_progress.
Qed.
End invariant.
