(* ===== verification/CoordinatorSeq.v ===== *)
(** * The coordinator's handlers run alone

    Functional behaviour of [AskTask], [TaskDone] and [Done] on every branch,
    that the sequential code is one of the interleavings of the threads, and
    that one worker finishes the job. *)
From S2P Require Import Prelude Coordinator CoordinatorProof.

(** A coordinator no thread is working in. *)
Record idle (c : Coordinator) : Prop := {
  id_work : workLock c = false;
  id_lock k t : tasks c !! k = Some t → taskLock t = false;
  id_length : Z.of_nat (length (tasks c)) = nMap c + nReduce c;
  id_pos : 0 ≤ nMap c ∧ 0 ≤ nReduce c;
}.

Lemma idle_task c i : idle c → 0 ≤ i < nMap c + nReduce c →
  ∃ t, tasks c !! Z.to_nat i = Some t ∧ index (tasks c) i = Ret t ∧ taskLock t = false.
Proof.
  intros Hc Hi. destruct (index_lt (tasks c) i) as [t Ht]; [rewrite (id_length _ Hc); lia|].
  pose proof Ht as [_ Hk]%index_Ret. exists t. split_and!; [done..|by eapply id_lock].
Qed.

Lemma idle_store c i x : idle c → 0 ≤ i < nMap c + nReduce c →
  store (tasks c) i x = Ret (<[Z.to_nat i := x]> (tasks c)).
Proof. intros Hc Hi. apply store_lt. rewrite (id_length _ Hc). lia. Qed.

(** ** AskTask *)
Lemma ask_try_run since now c start i reply t :
  idle c → 0 ≤ i < nMap c + nReduce c → tasks c !! Z.to_nat i = Some t →
  ask_try since now c start i reply =
    Ret (if eligible since t
         then inr (put c (Z.to_nat i) (set_issued now t), ask_reply c start reply t)
         else inl c).
Proof.
  intros Hc Hi Ht. destruct (idle_task c i Hc Hi) as (t' & Ht' & Hx & Hl). simplify_eq.
  unfold ask_try. rewrite Hx. simpl. rewrite Hl. simpl.
  case_match; [|done]. by rewrite idle_store.
Qed.

Definition ineligible (clock : Z → Z * Z) (c : Coordinator) (i j : Z) : Prop :=
  ∀ k t, i ≤ k < j → tasks c !! Z.to_nat k = Some t → eligible (clock k).1 t = false.

Lemma ask_scan_run clock c start i n reply :
  idle c → 0 ≤ i → i + Z.of_nat n ≤ nMap c + nReduce c →
  (ask_scan n clock c start i reply = Ret (c, reply) ∧ ineligible clock c i (i + Z.of_nat n)) ∨
  ∃ k t, i ≤ k < i + Z.of_nat n ∧ tasks c !! Z.to_nat k = Some t ∧
    eligible (clock k).1 t = true ∧ ineligible clock c i k ∧
    ask_scan n clock c start i reply =
      Ret (put c (Z.to_nat k) (set_issued (clock k).2 t), ask_reply c start reply t).
Proof.
  intros Hc. revert i. induction n as [|n IH]; intros i Hi Hn.
  { left. split; [done|]. intros k t Hk. lia. }
  destruct (idle_task c i Hc) as (t & Ht & _ & _); [lia|]. simpl ask_scan.
  rewrite (ask_try_run _ _ _ _ _ _ t) by (done || lia). simpl.
  destruct (eligible (clock i).1 t) eqn:E; simpl.
  { right. exists i, t. split_and!; [lia..|done|done| |done]. intros k t' Hk. lia. }
  assert (∀ j, ineligible clock c (i + 1) j → ineligible clock c i j) as Hext.
  { intros j Hj k t' Hk Hkt. destruct (decide (k = i)) as [->|]; [congruence|]. apply (Hj k); auto. lia. }
  destruct (IH (i + 1)) as [[-> Hin]|(k & t' & Hk & ? & ? & Hin & ->)]; [lia..| |].
  - left. split; [done|]. replace (i + Z.of_nat (S n)) with (i + 1 + Z.of_nat n) by lia. auto.
  - right. exists k, t'. split_and!; auto; lia.
Qed.

Lemma ask_id_static c args :
  nMap (ask_id c args).2 = nMap c ∧ nReduce (ask_id c args).2 = nReduce c ∧
  tasks (ask_id c args).2 = tasks c ∧ workLock (ask_id c args).2 = workLock c ∧
  workDone (ask_id c args).2 = workDone c.
Proof. unfold ask_id. by case_match. Qed.

Lemma ask_range_bounds c :
  idle c → 0 ≤ (ask_range c).1 ≤ (ask_range c).2 ∧ (ask_range c).2 ≤ nMap c + nReduce c.
Proof. intros Hc. destruct (id_pos _ Hc). unfold ask_range. case_match; simpl; lia. Qed.

Definition blank (id : Z) : AskTaskReply := mkAskTaskReply id 0 (-1) [] 0.

(** [AskTask] on an idle coordinator always answers: it hands out the first
    task of the current phase that is not done and was never issued or was
    issued more than ten seconds ago, marks it issued now, and changes nothing
    else; if there is none it answers task id -1 and issues nothing. *)
Lemma AskTask_branches clock c args :
  idle c →
  let start := (ask_range c).1 in let stop := (ask_range c).2 in
  let id := (ask_id c args).1 in let c0 := (ask_id c args).2 in
  (AskTask clock c args = Ret (c0, blank id) ∧ ineligible clock c start stop) ∨
  ∃ k t, start ≤ k < stop ∧ tasks c !! Z.to_nat k = Some t ∧
    done t = false ∧ (issued t = false ∨ timeout < (clock k).1 - lastIssued t) ∧
    ineligible clock c start k ∧
    AskTask clock c args =
      Ret (put c0 (Z.to_nat k) (set_issued (clock k).2 t), ask_reply c start (blank id) t).
Proof.
  intros Hc. simpl. destruct (ask_id_static c args) as (Hm & Hr & Ht & Hl & Hw).
  unfold AskTask. destruct (ask_id c args) as [id c0]. simpl in *.
  rewrite Hl, (id_work _ Hc). simpl. fold (blank id).
  assert (ask_range c0 = ask_range c) as -> by by (unfold ask_range; rewrite Hm, Hr, Hw).
  pose proof (ask_range_bounds c Hc) as Hb. destruct (ask_range c) as [start stop]. simpl in *.
  assert (idle c0) as Hc0.
  { destruct Hc. constructor; [congruence|by rewrite Ht|congruence|by rewrite Hm, Hr]. }
  destruct (ask_scan_run clock c0 start start (Z.to_nat (stop - start)) (blank id))
    as [[E Hin]|(k & t & Hk & Hkt & He & Hin & E)]; [done|lia|lia|..];
    unfold ineligible in *; rewrite Ht in *.
  - left. split; [done|]. by replace (start + Z.of_nat (Z.to_nat (stop - start))) with stop in Hin by lia.
  - right. exists k, t. unfold eligible in He. split_and!; try done; try lia.
    + by destruct (done t).
    + destruct (issued t); [right|by left]. destruct (done t); [done|]. simpl in He. lia.
    + rewrite E. unfold ask_reply. by rewrite Hm, Hr.
Qed.

(** ** TaskDone *)
(** What merging the report does to task [k]. *)
Definition receive (c : Coordinator) (args : TaskDoneArgs) (k : nat) (t : taskData) : taskData :=
  if (da_TaskType args =? 1) && (nMap c <=? Z.of_nat k) then
    match da_Files args !! (Z.of_nat k - nMap c) with Some f => add_file f t | None => t end
  else t.

Lemma imap_same {A} (l : list A) : imap (λ _ x, x) l = l.
Proof. apply list_eq. intros k. rewrite list_lookup_imap. by destruct (l !! k). Qed.

Definition receive_from (c : Coordinator) (args : TaskDoneArgs) (j : Z) (k : nat) (t : taskData)
    : taskData :=
  if j <=? Z.of_nat k then
    match da_Files args !! (Z.of_nat k - nMap c) with Some f => add_file f t | None => t end
  else t.

Lemma merge_files_run c args n j :
  0 ≤ nMap c ≤ j → j + Z.of_nat n = Z.of_nat (length (tasks c)) →
  merge_files n c args j = Ret (with_tasks c (imap (receive_from c args j) (tasks c))).
Proof.
  revert c j. induction n as [|n IH]; intros c j Hj Hn; simpl merge_files.
  - f_equal. destruct c as [wl nr nm wd ts ws]. unfold with_tasks. simpl in *. f_equal.
    apply list_eq. intros k. rewrite list_lookup_imap. destruct (ts !! k) eqn:E; [|done].
    apply lookup_lt_Some in E. simpl. unfold receive_from.
    by rewrite (proj2 (Z.leb_gt _ _)) by lia.
  - destruct (index_lt (tasks c) j) as [t Ht]; [lia|]. pose proof Ht as [_ Hk]%index_Ret.
    unfold merge_file. destruct (da_Files args !! (j - nMap c)) as [f|] eqn:Ef; simpl.
    + rewrite Ht. simpl. rewrite store_lt by lia. simpl.
      rewrite IH by (simpl; rewrite ?length_insert; lia). f_equal. unfold with_tasks. simpl. f_equal.
      apply list_eq. intros k. rewrite !list_lookup_imap, list_lookup_insert. unfold receive_from.
      simpl. case_decide as Hkj.
      * destruct Hkj as [<- Hlt]. rewrite Hk. simpl. rewrite Z2Nat.id by lia.
        rewrite (proj2 (Z.leb_gt _ _)), (proj2 (Z.leb_le _ _)), Ef by lia. done.
      * destruct (tasks c !! k) eqn:E; [|done]. simpl.
        assert (k ≠ Z.to_nat j) as Hne.
        { intros ->. apply Hkj. split; [done|]. by apply lookup_lt_Some in E. }
        replace (j + 1 <=? Z.of_nat k) with (j <=? Z.of_nat k) by lia. done.
    + rewrite IH by lia. do 2 f_equal. apply list_eq. intros k. rewrite !list_lookup_imap.
      destruct (tasks c !! k); [|done]. simpl. unfold receive_from.
      destruct (decide (j = Z.of_nat k)) as [->|Hne].
      * rewrite Ef. by repeat case_match.
      * by replace (j + 1 <=? Z.of_nat k) with (j <=? Z.of_nat k) by lia.
Qed.

Lemma TaskDone_branches c args :
  idle c →
  let a := actualTaskId c args in let reply := mkTaskDoneReply (da_Id args) in
  (nMap c + nReduce c < a → TaskDone c args = Ret (c, reply, Some "task not found")) ∧
  (a < 0 ∨ a = nMap c + nReduce c → TaskDone c args = Panic) ∧
  (∀ t, 0 ≤ a → tasks c !! Z.to_nat a = Some t → done t = true → TaskDone c args = Ret (c, reply, None)) ∧
  (∀ t, 0 ≤ a → tasks c !! Z.to_nat a = Some t → done t = false →
    TaskDone c args =
      Ret (with_work (with_tasks c (imap (receive c args) (<[Z.to_nat a := set_done t]> (tasks c))))
             false (workDone c + 1), reply, None)).
Proof.
  intros Hc. simpl. set (a := actualTaskId c args). destruct (id_pos _ Hc) as [Hm Hr].
  pose proof (id_length _ Hc) as Hl. unfold TaskDone. fold a. split_and!.
  - intros Ha. by rewrite (proj2 (Z.ltb_lt _ _)) by lia.
  - intros Ha. rewrite (proj2 (Z.ltb_ge _ _)) by lia. unfold index.
    destruct Ha as [Ha| ->]; [by rewrite decide_False by lia|].
    rewrite decide_True by lia. by rewrite lookup_ge_None_2 by lia.
  - intros t Ha Ht Hd. pose proof (lookup_lt_Some _ _ _ Ht). rewrite (proj2 (Z.ltb_ge _ _)) by lia.
    destruct (idle_task c a Hc) as (t' & Ht' & -> & Hk); [lia|]. simplify_eq. simpl.
    by rewrite Hk, Hd.
  - intros t Ha Ht Hd. pose proof (lookup_lt_Some _ _ _ Ht). rewrite (proj2 (Z.ltb_ge _ _)) by lia.
    destruct (idle_task c a Hc) as (t' & Ht' & -> & Hk); [lia|]. simplify_eq. simpl.
    rewrite Hk, Hd. simpl. rewrite (idle_store c a) by (done || lia). simpl.
    rewrite (id_work _ Hc). simpl. unfold receive.
    destruct (da_TaskType args =? 1); simpl.
    + by rewrite merge_files_run by (simpl; rewrite ?length_insert; lia).
    + by rewrite imap_same.
Qed.

(** C14 Every branch of [TaskDone] on an idle coordinator: a slot beyond
    [nMap+nReduce] is an error, the slot [nMap+nReduce] itself passes the guard
    and panics, as a negative one does; a task already done is acknowledged and
    nothing changes; otherwise the task is done, [workDone] is one more and, for
    a map task, each reduce task gets the file the report names for it. *)
Theorem TaskDone_spec c args :
  idle c →
  let a := actualTaskId c args in let reply := mkTaskDoneReply (da_Id args) in
  (nMap c + nReduce c < a → TaskDone c args = Ret (c, reply, Some "task not found")) ∧
  (a < 0 ∨ a = nMap c + nReduce c → TaskDone c args = Panic) ∧
  (∀ t, 0 ≤ a → tasks c !! Z.to_nat a = Some t → done t = true → TaskDone c args = Ret (c, reply, None)) ∧
  (∀ t, 0 ≤ a → tasks c !! Z.to_nat a = Some t → done t = false →
    TaskDone c args =
      Ret (with_work (with_tasks c (imap (receive c args) (<[Z.to_nat a := set_done t]> (tasks c))))
             false (workDone c + 1), reply, None)).
Proof. exact (TaskDone_branches c args). Qed.

(** ** Done *)
(** When every RPC has returned no lock is held, [workDone] counts the done
    tasks, and [Done] answers whether it has reached their number. *)
Lemma returned_idle input nRed c ths l :
  Inv input nRed (mkWorld c ths l) → Forall (λ th, returned th = true) ths →
  idle c ∧ count done (tasks c) = workDone c.
Proof.
  intros (Hs & Hp & _) Hret. simpl in *. rewrite Forall_forall in Hret.
  assert (∀ p : thread → bool, (∀ th, p th = true → returned th = false) → count p ths = 0) as Hno.
  { intros p Hpr. apply count_none. intros th Hin. destruct (p th) eqn:E; [|done].
    apply Hpr in E. rewrite Hret in E; done. }
  pose proof (sh_nMap _ _ _ _ Hs) as Hm. pose proof (sh_nReduce _ _ _ _ Hs) as Hr.
  pose proof (sh_red _ _ _ _ Hs). split.
  - constructor.
    + pose proof (sh_work _ _ _ _ Hs) as Hw. rewrite Hno in Hw by by intros []. by destruct (workLock c).
    + intros k t Ht. pose proof (sh_lock _ _ _ _ Hs _ _ Ht) as Hh.
      rewrite Hno in Hh by by intros []. by destruct (taskLock t).
    + rewrite (sh_length _ _ _ _ Hs). lia.
    + lia.
  - rewrite (ph_count _ _ _ _ Hp), (Hno is_marked); [lia|]. by intros [].
Qed.

Lemma Done_returned input nRed c ths l :
  Inv input nRed (mkWorld c ths l) → Forall (λ th, returned th = true) ths →
  Done c = Ret (workDone c =? Z.of_nat (length input) + nRed).
Proof.
  intros HI Hret. destruct (returned_idle _ _ _ _ _ HI Hret) as [Hc <-]. destruct HI as (Hs & _). simpl in Hs.
  rewrite <-(sh_length _ _ _ _ Hs). unfold Done. pose proof (id_lock _ Hc) as Hl. clear -Hl.
  induction (tasks c) as [|t ts IH]; simpl; [done|].
  rewrite (Hl O t eq_refl). simpl. pose proof (count_le done ts). destruct (done t); simpl.
  - rewrite IH by (intros k t' Hk; by apply (Hl (S k))). f_equal.
    apply eq_true_iff_eq. rewrite !Z.eqb_eq. lia.
  - f_equal. symmetry. apply Z.eqb_neq. lia.
Qed.

(** A task that was just handed out is not handed out again for ten
    seconds. *)
Lemma no_reissue clock clock' c args args' c1 r1 c2 r2 :
  idle c → (∀ k t, tasks c !! k = Some t → taskId t = Z.of_nat k) →
  AskTask clock c args = Ret (c1, r1) → ar_TaskId r1 ≠ -1 →
  (∀ i, (clock' i).1 - (clock i).2 ≤ timeout) →
  AskTask clock' c1 args' = Ret (c2, r2) → ar_TaskId r2 ≠ ar_TaskId r1.
Proof.
  intros Hc Hid H1 Hne Hcl H2. destruct (ask_id_static c args) as (Hm & Hr & Ht & Hl & Hw).
  destruct (AskTask_branches clock c args Hc) as [[E _]|(k & t & Hk & Hkt & _ & _ & _ & E)];
    rewrite E in H1; simplify_eq.
  set (c1 := put _ _ _) in *. pose proof (ask_range_bounds c Hc) as Hb.
  assert (idle c1) as Hc1.
  { destruct Hc. unfold c1. constructor; simpl; rewrite ?length_insert, ?Hm, ?Hr, ?Hl, ?Ht; try done.
    intros j t' [(<- & <- & _)|[_ ?]]%list_lookup_insert_Some; simpl; eauto. }
  assert (ask_range c1 = ask_range c) as Hrg by (unfold c1, ask_range; simpl; by rewrite Hm, Hr, Hw).
  destruct (AskTask_branches clock' c1 args' Hc1) as [[E2 _]|(j & t2 & Hj & Hjt & Hd & He & _ & E2)];
    rewrite E2 in H2; simplify_eq; [simpl in *; lia|].
  rewrite Hrg in *. simpl in Hjt. rewrite Ht in Hjt. unfold ask_reply. simpl.
  pose proof (Hid _ _ Hkt) as Hik. rewrite Hm.
  apply list_lookup_insert_Some in Hjt as [(Hkj & <- & _)|[Hkj Hjt]].
  - simpl in *. assert (j = k) as -> by lia. specialize (Hcl k). destruct He as [?|?]; [done|lia].
  - pose proof (Hid _ _ Hjt) as Hij. rewrite Hij, Hik. case_match; lia.
Qed.

(** ** The sequential code is an interleaving *)
Definition solo (x y : Coordinator * thread) : Prop :=
  ∃ since now, thread_step since now x.1 x.2 = Ret y.

Lemma ask_scan_solo clock c start n i reply c' reply' :
  ask_scan n clock c start i reply = Ret (c', reply') →
  rtc solo (c, AskScanning reply start (i + Z.of_nat n) i) (c', AskReturned reply').
Proof.
  revert c i. induction n as [|n IH]; intros c i H.
  - simplify_go. apply rtc_once. exists 0, 0. simpl. by rewrite Z.add_0_r, Z.ltb_irrefl.
  - simpl ask_scan in H. apply go_bind_Ret in H as (r & Hr & H).
    assert (∀ y, match r with
      | inl c => (c, AskScanning reply start (i + Z.of_nat (S n)) (i + 1))
      | inr (c, reply) => (c, AskReturned reply) end = y →
      solo (c, AskScanning reply start (i + Z.of_nat (S n)) i) y) as Hs.
    { intros y <-. exists (clock i).1, (clock i).2. simpl.
      rewrite (proj2 (Z.ltb_lt _ _)), Hr by lia. simpl. by destruct r as [|[]]. }
    destruct r as [c1|res].
    + eapply rtc_l; [by apply Hs|]. replace (i + Z.of_nat (S n)) with (i + 1 + Z.of_nat n) by lia. auto.
    + injection H as ->. apply rtc_once. auto.
Qed.

Lemma merge_files_solo n c args a j c' :
  merge_files n c args j = Ret c' → j + Z.of_nat n ≤ nMap c + nReduce c →
  rtc solo (c, DoneMerging args a j) (c', DoneMerging args a (j + Z.of_nat n)) ∧
  nMap c' = nMap c ∧ nReduce c' = nReduce c ∧ workDone c' = workDone c.
Proof.
  revert c j. induction n as [|n IH]; intros c j H Hj.
  - simplify_go. rewrite Z.add_0_r. by split.
  - simpl merge_files in H. apply go_bind_Ret in H as (c1 & H1 & H).
    assert (nMap c1 = nMap c ∧ nReduce c1 = nReduce c ∧ workDone c1 = workDone c) as (Hm & Hr & Hw).
    { unfold merge_file in H1. case_match; simplify_go; done. }
    destruct (IH c1 (j + 1) H) as (Hs & -> & -> & ->); [lia|]. split; [|done].
    eapply rtc_l; [|by replace (j + Z.of_nat (S n)) with (j + 1 + Z.of_nat n) by lia].
    exists 0, 0. simpl. by rewrite (proj2 (Z.ltb_lt _ _)), H1 by lia.
Qed.

Lemma AskTask_solo clock c args c' reply :
  idle c → AskTask clock c args = Ret (c', reply) →
  rtc solo (c, AskCalled args) (c', AskReturned reply).
Proof.
  intros Hc H. unfold AskTask in H. destruct (ask_id c args) as [id c0] eqn:Ei.
  pose proof (ask_id_static c args) as (Hm & Hr & _ & Hl & Hw). rewrite Ei in Hm, Hr, Hl, Hw.
  simpl in *. rewrite Hl, (id_work _ Hc) in H. simpl in H. fold (blank id) in H.
  pose proof (ask_range_bounds c Hc) as Hb.
  destruct (ask_range c0) as [start stop] eqn:Er.
  assert (ask_range c = (start, stop)) as Erc by (rewrite <-Er; unfold ask_range; by rewrite Hm, Hr, Hw).
  rewrite Erc in Hb. simpl in Hb. apply ask_scan_solo in H.
  replace (start + Z.of_nat (Z.to_nat (stop - start))) with stop in H by lia.
  eapply rtc_l; [exists 0, 0; simpl; rewrite Ei; done|].
  eapply rtc_l; [|exact H]. exists 0, 0. simpl. by rewrite Hl, (id_work _ Hc), Er.
Qed.

Definition lock_task (a : nat) (c : Coordinator) : Coordinator :=
  with_tasks c (alter (set_lock true) a (tasks c)).

Lemma mark_solo c args t :
  idle c → 0 ≤ actualTaskId c args → tasks c !! Z.to_nat (actualTaskId c args) = Some t →
  done t = false →
  rtc solo (c, DoneCalled args)
    (with_work (put c (Z.to_nat (actualTaskId c args)) (set_lock true (set_done t)))
       true (workDone c + 1),
     DoneMerging args (actualTaskId c args)
       (if da_TaskType args =? 1 then nMap c else nMap c + nReduce c)).
Proof.
  intros Hc Ha Ht Hd. pose proof (lookup_lt_Some _ _ _ Ht). pose proof (id_length _ Hc) as Hl.
  destruct (idle_task c (actualTaskId c args) Hc) as (t' & Ht' & Hx & Hk); [lia|]. simplify_eq.
  eapply rtc_l; [|apply rtc_once]; exists 0, 0; simpl.
  - rewrite (proj2 (Z.ltb_ge _ _)), Hx by lia. simpl. rewrite Hk, Hd. simpl.
    rewrite (idle_store c) by (done || lia). done.
  - simpl. by rewrite (id_work _ Hc).
Qed.

(** Unlocking task [a] after the merge gives the state of the sequential code. *)
Lemma release_tasks c args a t ts :
  idle c → 0 ≤ nMap c → tasks c !! a = Some t →
  ts = (if da_TaskType args =? 1
        then imap (receive_from c args (nMap c)) (<[a := set_lock true (set_done t)]> (tasks c))
        else <[a := set_lock true (set_done t)]> (tasks c)) →
  ∃ t', ts !! a = Some t' ∧
    <[a := set_lock false t']> ts = imap (receive c args) (<[a := set_done t]> (tasks c)).
Proof.
  intros Hc Hm Ht ->. pose proof (lookup_lt_Some _ _ _ Ht) as Hlt.
  pose proof (id_lock _ Hc _ _ Ht) as Hlk. unfold receive.
  set (g := λ k t, if da_TaskType args =? 1 then receive_from c args (nMap c) k t else t).
  exists (g a (set_lock true (set_done t))). split.
  { unfold g. case_match; rewrite ?list_lookup_imap, list_lookup_insert_eq by done; done. }
  apply list_eq. intros k. rewrite list_lookup_imap. destruct (decide (a = k)) as [<-|Hne].
  - rewrite !list_lookup_insert_eq by (try case_match; rewrite ?length_imap, ?length_insert; done).
    simpl. f_equal. unfold g, receive_from. destruct t. simpl in *. subst.
    destruct (da_TaskType args =? 1); simpl; [|done]. repeat case_match; done.
  - rewrite !list_lookup_insert_ne by done.
    destruct (da_TaskType args =? 1); rewrite ?list_lookup_imap, list_lookup_insert_ne by done; simpl.
    + done.
    + by destruct (tasks c !! k).
Qed.

Lemma TaskDone_solo c args c' reply err :
  idle c → TaskDone c args = Ret (c', reply, err) →
  rtc solo (c, DoneCalled args) (c', DoneReturned reply err).
Proof.
  intros Hc H. destruct (TaskDone_branches c args Hc) as (Herr & Hpan & Hdup & Hdone).
  set (a := actualTaskId c args) in *. destruct (id_pos _ Hc) as [Hm Hr].
  destruct (decide (nMap c + nReduce c < a)) as [Hgt|Hle].
  { rewrite Herr in H by done. simplify_eq. apply rtc_once. exists 0, 0. simpl. fold a.
    by rewrite (proj2 (Z.ltb_lt _ _)) by lia. }
  destruct (decide (a < 0 ∨ a = nMap c + nReduce c)) as [Hp|Hp]; [by rewrite Hpan in H|].
  destruct (idle_task c a Hc) as (t & Ht & Hx & Hk); [lia|].
  destruct (done t) eqn:Hd.
  { rewrite (Hdup t) in H by (done || lia). simplify_eq. apply rtc_once. exists 0, 0. simpl. fold a.
    rewrite (proj2 (Z.ltb_ge _ _)), Hx by lia. simpl. by rewrite Hk, Hd. }
  rewrite (Hdone t) in H by (done || lia). simplify_eq.
  etrans; [apply (mark_solo c args t); (done || (fold a; lia))|]. fold a.
  set (c1 := with_work (put c _ _) true _). set (stop := nMap c + nReduce c).
  set (ts := if da_TaskType args =? 1
        then imap (receive_from c args (nMap c)) (<[Z.to_nat a := set_lock true (set_done t)]> (tasks c))
        else <[Z.to_nat a := set_lock true (set_done t)]> (tasks c)).
  assert (rtc solo (c1, DoneMerging args a (if da_TaskType args =? 1 then nMap c else stop))
            (with_tasks c1 ts, DoneMerging args a stop)) as Hmerge.
  { unfold ts. destruct (da_TaskType args =? 1); [|apply rtc_refl].
    pose proof (id_length _ Hc).
    pose proof (merge_files_run c1 args (Z.to_nat (nReduce c)) (nMap c)
      ltac:(simpl; lia) ltac:(simpl; rewrite length_insert; lia)) as Hrun.
    destruct (merge_files_solo _ _ _ a _ _ Hrun) as [Hs _]; [simpl; lia|].
    by replace stop with (nMap c + Z.of_nat (Z.to_nat (nReduce c))) by lia. }
  etrans; [exact Hmerge|].
  destruct (release_tasks c args (Z.to_nat a) t ts Hc Hm Ht eq_refl) as (t' & Ht' & Hts).
  apply rtc_once. exists 0, 0. simpl. unfold stop at 1. rewrite Z.ltb_irrefl.
  rewrite (proj2 (index_Ret ts a t')) by (split; [lia|done]). simpl.
  rewrite store_lt by (apply lookup_lt_Some in Ht'; lia). simpl. by rewrite Hts.
Qed.

(** The sequential handlers are among the interleavings: what [AskTask] and
    [TaskDone] return on an idle coordinator, a thread that runs alone returns. *)
Lemma handlers_are_threads c :
  idle c →
  (∀ clock args c' reply, AskTask clock c args = Ret (c', reply) →
     rtc solo (c, AskCalled args) (c', AskReturned reply)) ∧
  (∀ args c' reply err, TaskDone c args = Ret (c', reply, err) →
     rtc solo (c, DoneCalled args) (c', DoneReturned reply err)).
Proof. intros Hc. split; intros; [by eapply AskTask_solo|by apply TaskDone_solo]. Qed.

(** ** One worker *)
Section rounds.
Context (input : list string) (nRed : Z).
Abbreviation m := (Z.of_nat (length input)).

(** The first [k] tasks are done, the others were never issued, and [l] are the
    reports of the map tasks among the former. *)
Record after (k : nat) (l : list TaskDoneArgs) (c : Coordinator) : Prop := {
  af_idle : idle c;
  af_nMap : nMap c = m;
  af_nReduce : nReduce c = nRed;
  af_work : workDone c = Z.of_nat k;
  af_task j t : tasks c !! j = Some t → task_ok input j t ∧ done t = bool_decide (j < k)%nat ∧
    ((k ≤ j)%nat → issued t = false) ∧
    (m ≤ Z.of_nat j → files t = contributions (Z.of_nat j - m) l);
}.

Lemma after_initial :
  0 ≤ nRed → after O [] (MakeCoordinator input nRed).
Proof.
  intros H0. constructor; try done.
  - constructor; simpl; try done; try lia.
    + intros k t Hk. by apply (initial_task input nRed) in Hk as (_ & _ & _ & ? & _).
    + rewrite length_app, length_imap, length_fmap, length_seqZ. lia.
  - intros j t (? & -> & -> & _ & ?)%(initial_task input nRed). split_and!; auto.
Qed.

(** What the worker is handed in round [k]. *)
Definition round_reply (k : nat) (l : list TaskDoneArgs) (reply : AskTaskReply) : Prop :=
  ar_NReduce reply = nRed ∧
  match input !! k with
  | Some f => ar_TaskType reply = 1 ∧ ar_TaskId reply = Z.of_nat k ∧ ar_Files reply = [f]
  | None => ar_TaskType reply = 2 ∧ ar_TaskId reply = Z.of_nat k - m ∧
      ar_Files reply = contributions (Z.of_nat k - m) l
  end.

(** [AskTask] in state [after k] issues task [k]. *)
Lemma round_ask clock c args k l :
  after k l c → 0 ≤ nRed → Z.of_nat k < m + nRed →
  ∃ t t' reply, tasks c !! k = Some t ∧
    AskTask clock c args = Ret (put (ask_id c args).2 k t', reply) ∧ round_reply k l reply ∧
    t' = set_issued (clock (Z.of_nat k)).2 t ∧ ar_Id reply = (ask_id c args).1.
Proof.
  intros Ha H0 Hk. pose proof (af_idle _ _ _ Ha) as Hc. pose proof (af_nMap _ _ _ Ha) as Hm.
  pose proof (af_nReduce _ _ _ Ha) as Hr. pose proof (af_work _ _ _ Ha) as Hw.
  assert (ask_range c = if Z.of_nat k <? m then (0, m) else (m, m + nRed)) as Hrg.
  { unfold ask_range. by rewrite Hw, Hm, Hr. }
  destruct (idle_task c (Z.of_nat k) Hc) as (t & Ht & _ & _); [lia|]. rewrite Nat2Z.id in Ht.
  destruct (af_task _ _ _ Ha _ _ Ht) as (Htk & Hd & Hi & Hf). specialize (Hi ltac:(lia)).
  rewrite bool_decide_false in Hd by lia. rewrite <-(Nat2Z.id k) in Ht at 1.
  destruct (AskTask_branches clock c args Hc) as [[_ Hin]|(j & t' & Hj & Hjt & Hjd & _ & Hin & E)].
  { specialize (Hin (Z.of_nat k) t). rewrite Hrg in Hin. unfold eligible in Hin. rewrite Hd, Hi in Hin.
    discriminate Hin; [|done]. destruct (Z.ltb_spec (Z.of_nat k) m); simpl; lia. }
  rewrite Hrg in *. assert (j = Z.of_nat k) as ->.
  { destruct (af_task _ _ _ Ha _ _ Hjt) as (_ & Hdj & _). rewrite Hjd in Hdj. symmetry in Hdj.
    apply bool_decide_eq_false in Hdj. destruct (decide (j = Z.of_nat k)) as [|Hne]; [done|].
    specialize (Hin (Z.of_nat k) t). unfold eligible in Hin. rewrite Hd, Hi in Hin.
    discriminate Hin; [|done]. destruct (Z.ltb_spec (Z.of_nat k) m); simpl in *; lia. }
  simplify_eq. rewrite Nat2Z.id in *. exists t, (set_issued (clock (Z.of_nat k)).2 t).
  eexists. split_and!; [done|exact E| |done|done]. split; [done|].
  destruct Htk as [Hid Hty]. cbn [ask_reply ar_TaskType ar_TaskId ar_Files blank app].
  rewrite Hid, Hm. destruct (input !! k) as [f|] eqn:Ek.
  - destruct Hty as [-> ->]. apply lookup_lt_Some in Ek. rewrite (proj2 (Z.ltb_lt _ _)) by lia. done.
  - apply lookup_ge_None in Ek. rewrite (proj2 (Z.ltb_ge _ _)) by lia. cbn [fst].
    split_and!; [done| |apply Hf; lia]. destruct (Z.eqb_spec m 0); lia.
Qed.

(** The report of round [k] that matches what was handed out. *)
Definition round_report (k : nat) (args : TaskDoneArgs) : Prop :=
  match input !! k with
  | Some _ => da_TaskType args = 1 ∧ da_TaskId args = Z.of_nat k
  | None => da_TaskType args = 2 ∧ da_TaskId args = Z.of_nat k - m
  end.

Definition next_log (k : nat) (args : TaskDoneArgs) (l : list TaskDoneArgs) : list TaskDoneArgs :=
  if decide (k < length input)%nat then l ++ [args] else l.

Lemma round_slot c k args :
  nMap c = m → m + nRed < 2 ^ 63 → Z.of_nat k < m + nRed → round_report k args →
  actualTaskId c args = Z.of_nat k.
Proof.
  intros Hm Hb Hk Hr. unfold actualTaskId, round_report in *. rewrite Hm.
  destruct (input !! k); destruct Hr as [-> ->]; simpl; [done|]. rewrite i64_id; lia.
Qed.

Lemma round_files c k l args t j :
  nMap c = m → round_report k args → m ≤ Z.of_nat j →
  files t = contributions (Z.of_nat j - m) l →
  files (receive c args j t) = contributions (Z.of_nat j - m) (next_log k args l).
Proof.
  intros Hm Hr Hj Hf. unfold receive, next_log, round_report in *. rewrite Hm.
  rewrite (proj2 (Z.leb_le _ _)) by lia. destruct (input !! k) eqn:E; destruct Hr as [-> _]; simpl.
  - apply lookup_lt_Some in E. rewrite decide_True by done. rewrite contributions_snoc.
    case_match; simpl; by rewrite ?app_nil_r, Hf.
  - apply lookup_ge_None in E. by rewrite decide_False by lia.
Qed.

Lemma receive_static c args k t :
  taskLock (receive c args k t) = taskLock t ∧ done (receive c args k t) = done t ∧
  issued (receive c args k t) = issued t ∧ taskId (receive c args k t) = taskId t ∧
  taskType (receive c args k t) = taskType t ∧
  (Z.of_nat k < nMap c → files (receive c args k t) = files t).
Proof.
  unfold receive. destruct (da_TaskType args =? 1); simpl; [|done].
  destruct (Z.leb_spec (nMap c) (Z.of_nat k)); [|done].
  destruct (da_Files args !! _); simpl; split_and!; try done; lia.
Qed.

Lemma round_done c k l t now args aargs :
  after k l c → m + nRed < 2 ^ 63 → Z.of_nat k < m + nRed → tasks c !! k = Some t →
  round_report k args →
  ∃ c2, TaskDone (put (ask_id c aargs).2 k (set_issued now t)) args =
      Ret (c2, mkTaskDoneReply (da_Id args), None) ∧ after (S k) (next_log k args l) c2.
Proof.
  intros Ha Hb Hk Ht Hr. pose proof (af_idle _ _ _ Ha) as Hc.
  destruct (ask_id_static c aargs) as (Hm & Hn & Hts & Hl & Hw).
  set (c1 := put _ _ _). assert (tasks c1 = <[k := set_issued now t]> (tasks c)) as Ht1
    by (unfold c1; simpl; by rewrite Hts).
  rewrite (af_nMap _ _ _ Ha) in Hm. rewrite (af_nReduce _ _ _ Ha) in Hn.
  assert (idle c1) as Hc1.
  { destruct Hc. constructor; rewrite ?Ht1, ?length_insert; unfold c1; simpl; try congruence.
    - intros j t' [(<- & <- & _)|[_ ?]]%list_lookup_insert_Some; simpl; eauto.
    - rewrite Hm, Hn. pose proof (af_nMap _ _ _ Ha). pose proof (af_nReduce _ _ _ Ha). lia.
    - rewrite Hm, Hn. pose proof (af_nMap _ _ _ Ha). pose proof (af_nReduce _ _ _ Ha). lia. }
  destruct (af_task _ _ _ Ha _ _ Ht) as (Htk & Hd & _). rewrite bool_decide_false in Hd by lia.
  pose proof (round_slot c1 k args Hm Hb Hk Hr) as Hs. pose proof (lookup_lt_Some _ _ _ Ht) as Hlt.
  destruct (TaskDone_branches c1 args Hc1) as (_ & _ & _ & HD). rewrite Hs, Nat2Z.id in HD.
  eexists. split.
  { apply (HD (set_issued now t)); [lia| |done]. rewrite Ht1. by apply list_lookup_insert_eq. }
  rewrite Ht1, list_insert_insert_eq. clear HD. set (ts := imap _ _).
  assert (∀ j t', ts !! j = Some t' → ∃ t0, tasks c !! j = Some t0 ∧
    t' = receive c1 args j (if decide (k = j) then set_done (set_issued now t0) else t0)) as Hts'.
  { intros j t'. unfold ts. rewrite list_lookup_imap. intros (t0 & Hj & ->)%fmap_Some.
    apply list_lookup_insert_Some in Hj as [(<- & <- & _)|[Hne Hj]];
      [exists t; by rewrite decide_True|exists t0; by rewrite decide_False]. }
  constructor; simpl; try done.
  - constructor; simpl; [done| |unfold ts; rewrite length_imap, length_insert, Hm, Hn;
      rewrite (id_length _ Hc), (af_nMap _ _ _ Ha), (af_nReduce _ _ _ Ha); done|by apply (id_pos _ Hc1)].
    intros j t' (t0 & Hj & ->)%Hts'. destruct (receive_static c1 args j
      (if decide (k = j) then set_done (set_issued now t0) else t0)) as [-> _].
    case_decide; simpl; by eapply (id_lock _ Hc).
  - rewrite Hw, (af_work _ _ _ Ha). lia.
  - intros j t' (t0 & Hj & ->)%Hts'. destruct (af_task _ _ _ Ha _ _ Hj) as ([Hid Hty] & Hdj & Hij & Hfj).
    set (t1 := if decide (k = j) then _ else _).
    assert (taskId t1 = taskId t0 ∧ taskType t1 = taskType t0 ∧ files t1 = files t0 ∧
      done t1 = bool_decide (j < S k)%nat ∧ (j ≠ k → issued t1 = issued t0)) as (E1 & E2 & E3 & E4 & E5).
    { unfold t1. destruct (decide (k = j)) as [Hkj|Hkj]; simpl; split_and!; try done.
      - symmetry. apply bool_decide_true. lia.
      - rewrite Hdj. apply bool_decide_ext. lia. }
    destruct (receive_static c1 args j t1) as (_ & -> & -> & R1 & R2 & R3). split_and!.
    + split; [congruence|]. rewrite R2, E2. destruct (input !! j) eqn:E; [|done].
      split; [by apply Hty|]. apply lookup_lt_Some in E. rewrite R3 by (simpl; lia). rewrite E3. apply Hty.
    + done.
    + intros Hj'. rewrite E5 by lia. apply Hij. lia.
    + intros Hj'. apply round_files; [done..|]. rewrite E3. auto.
Qed.
End rounds.

(** ** Running a schedule *)
Inductive action := ActAsk (args : AskTaskArgs) | ActDone (args : TaskDoneArgs) | ActRun (i : nat) (since now : Z).

Definition handed_outb (ths : list thread) (args : TaskDoneArgs) : bool :=
  existsb (λ th, match th with
    | AskReturned reply => negb (ar_TaskId reply =? -1) && (da_TaskId args =? ar_TaskId reply) &&
        (da_TaskType args =? ar_TaskType reply)
    | _ => false end) ths.

Definition act (a : action) (w : world) : option world :=
  match a with
  | ActAsk args => Some (mkWorld (coord w) (threads w ++ [AskCalled args]) (log w))
  | ActDone args =>
      if handed_outb (threads w) args
      then Some (mkWorld (coord w) (threads w ++ [DoneCalled args]) (log w)) else None
  | ActRun i since now =>
      match threads w !! i with
      | Some th =>
          match thread_step since now (coord w) th with
          | Ret (c', th') => Some (mkWorld c' (<[i := th']> (threads w)) (log_step th (log w)))
          | _ => None
          end
      | None => None
      end
  end.

Fixpoint schedule (acts : list action) (w : world) : option world :=
  match acts with
  | [] => Some w
  | a :: acts => match act a w with Some w' => schedule acts w' | None => None end
  end.

Lemma handed_outb_sound ths args : handed_outb ths args = true → handed_out ths args.
Proof.
  unfold handed_outb. rewrite existsb_exists. intros (th & Hin & H). destruct th; try done.
  exists reply. split; [by apply list_elem_of_In|]. lia.
Qed.

Lemma act_sound a w w' : act a w = Some w' → step w w'.
Proof.
  destruct w as [c ths l]. destruct a; simpl; intros H.
  - simplify_eq. constructor.
  - case_match eqn:E; simplify_eq. constructor. by apply handed_outb_sound.
  - repeat case_match; simplify_eq. by eapply step_run.
Qed.

Lemma schedule_reachable input nRed acts w :
  schedule acts (initial input nRed) = Some w → reachable input nRed w.
Proof.
  unfold reachable. generalize (initial input nRed). induction acts as [|a acts IH]; simpl; intros w0 H.
  - by simplify_eq.
  - case_match eqn:E; [|done]. eapply rtc_l; [by eapply act_sound|auto].
Qed.

(** One map task and one reduce task; two workers race for the map task, whose
    report arrives twice. *)
Section example.
Definition ex_report : TaskDoneArgs := mkTaskDoneArgs 0 1 0 {[0 := "mr-tmp-0-0-0"]}.
Definition ex_acts : list action :=
  [ActAsk (mkAskTaskArgs (-1)); ActAsk (mkAskTaskArgs (-1))] ++
  replicate 3 (ActRun 0 0 0) ++ replicate 4 (ActRun 1 1 1) ++
  [ActDone ex_report; ActDone ex_report] ++ replicate 4 (ActRun 2 2 2) ++ [ActRun 3 3 3] ++
  [ActAsk (mkAskTaskArgs 0)] ++ replicate 3 (ActRun 4 4 4).
Definition ex_run (acts : list action) : world :=
  default (initial [] 0) (schedule acts (initial ["f"] 1)).

Lemma ex_reachable : reachable ["f"] 1 (ex_run ex_acts).
Proof. apply (schedule_reachable _ _ ex_acts). vm_compute. reflexivity. Qed.

Definition ex_reply : AskTaskReply := mkAskTaskReply 0 2 0 ["mr-tmp-0-0-0"] 1.

Lemma reduce_gets_all_maps_witness :
  da_TaskId <$> log (ex_run ex_acts) ≡ₚ seqZ 0 1 ∧
  Forall (λ args, da_TaskType args = 1) (log (ex_run ex_acts)) ∧
  ["mr-tmp-0-0-0"] = omap (λ args, da_Files args !! 0) (log (ex_run ex_acts)) ∧
  (∀ k t, tasks (coord (ex_run ex_acts)) !! k = Some t → (k < 1)%nat → done t = true).
Proof.
  apply (reduce_gets_all_maps ["f"] 1 (ex_run ex_acts) ex_reply); [done|done|apply ex_reachable| |done].
  apply (list_elem_of_lookup_2 _ 4%nat). vm_compute. reflexivity.
Defined.


Definition ex_coord : Coordinator := MakeCoordinator ["f"] 1.
Lemma ex_idle : idle ex_coord.
Proof. apply (af_idle ["f"] 1 0 []), after_initial. done. Qed.

Definition ex_clock (now : Z) : Z → Z * Z := λ _, (now, now).

Lemma TaskDone_spec_witness (args := mkTaskDoneArgs 0 2 1 ∅) :
  (1 + 1 < 2 → TaskDone ex_coord args = Ret (ex_coord, mkTaskDoneReply 0, Some "task not found")) ∧
  (2 < 0 ∨ 2 = 1 + 1 → TaskDone ex_coord args = Panic) ∧
  (∀ t, 0 ≤ 2 → tasks ex_coord !! 2%nat = Some t → done t = true →
    TaskDone ex_coord args = Ret (ex_coord, mkTaskDoneReply 0, None)) ∧
  (∀ t, 0 ≤ 2 → tasks ex_coord !! 2%nat = Some t → done t = false →
    TaskDone ex_coord args =
      Ret (with_work (with_tasks ex_coord
             (imap (receive ex_coord args) (<[2%nat := set_done t]> (tasks ex_coord)))) false 1,
           mkTaskDoneReply 0, None)).
Proof. apply (TaskDone_spec ex_coord args ex_idle). Defined.
End example.
