(* ===== verification/Worker.v ===== *)
(** * MapReduce workers, the sequential version and the applications

    src/Lab02/src/mr/worker.go, main/mrsequential.go and mrapps.  The file
    system is a map from names to contents; a file that cannot be created is one
    whose name is not [writable].  [encoding/json] is the class [Codec]: what is
    encoded decodes to the same pairs when every string is valid UTF-8. *)
From S2P Require Import Prelude GoStrings Coordinator.

Record KeyValue := mkKeyValue { Key : string; Value : string }.
#[export] Instance KeyValue_eq_dec : EqDecision KeyValue.
Proof. solve_decision. Defined.

Abbreviation filesystem := (gmap string string).

(** ** ihash: FNV-1a on 32 bits, the top bit cleared *)
Definition fnv32a (l : list Z) : Z :=
  foldl (λ h b, (Z.lxor h b * 16777619) mod 2 ^ 32) 2166136261 l.
Definition ihash (key : string) : Z := Z.land (fnv32a (bytes key)) (2 ^ 31 - 1).

Class Codec := {
  encode : list KeyValue → string;
  decode : string → option (list KeyValue);
  json_safe : KeyValue → Prop;
  decode_encode l : Forall json_safe l → decode (encode l) = Some l;
}.

(** ** RPC transport *)
(** How a call ends: with the reply; without a connection; with an error before
    the handler ran; with an error after. *)
Inductive net := Up | NoDial | Refused | Lost.
#[export] Instance net_eq_dec : EqDecision net.
Proof. solve_decision. Defined.

Definition call {A} (n : net) (c : Coordinator) (handler : go (Coordinator * A))
    : go (Coordinator * option A) :=
  match n with
  | NoDial => Fatal
  | Refused => mret (c, None)
  | Up => r ← handler; mret (r.1, Some r.2)
  | Lost => r ← handler; mret (r.1, None)
  end.

Section worker.
Context {HC : Codec}.
Context (sort : ∀ A, (A → A → bool) → list A → list A).
Context (writable : string → bool).
Context (mapf : string → string → go (list KeyValue)) (reducef : string → list string → go string).

(** [WorkDone]: an error reply of the handler is an error of the call. *)
Definition WorkDone (n : net) (c : Coordinator) (id taskId taskType : Z) (outputFiles : gmap Z string)
    : go (Coordinator * bool) :=
  r ← call n c (r ← TaskDone c (mkTaskDoneArgs id taskType taskId outputFiles);
                let '(c, _, err) := (r : Coordinator * TaskDoneReply * option string) in
                mret (c, err));
  mret (r.1, match r.2 with Some None => true | _ => false end).

Definition os_Create (fs : filesystem) (name : string) : go filesystem :=
  if writable name then mret (<[name := ""]> fs) else Fatal.
Definition WriteString (fs : filesystem) (name s : string) : filesystem :=
  <[name := default "" (fs !! name) +:+ s]> fs.

(** *** Map task *)
Fixpoint bucket (NReduce : Z) (mapResult : list KeyValue) (outputLists : gmap Z (list KeyValue))
    : go (gmap Z (list KeyValue)) :=
  match mapResult with
  | [] => mret outputLists
  | kv :: rest =>
      if NReduce =? 0 then Panic else
      let indexOfFile := Z.rem (ihash (Key kv)) NReduce in
      bucket NReduce rest
        (<[indexOfFile := default [] (outputLists !! indexOfFile) ++ [kv]]> outputLists)
  end.

Definition map_file (id taskId i : Z) : string :=
  "mr-tmp-" +:+ Itoa id +:+ "-" +:+ Itoa taskId +:+ "-" +:+ Itoa i.

Fixpoint write_buckets (n : nat) (i id taskId : Z) (outputLists : gmap Z (list KeyValue))
    (fs : filesystem) (outputFiles : gmap Z string) : go (filesystem * gmap Z string) :=
  match n with
  | O => mret (fs, outputFiles)
  | S n =>
      match outputLists !! i with
      | Some data =>
          let name := map_file id taskId i in
          fs ← os_Create fs name;
          write_buckets n (i + 1) id taskId outputLists (WriteString fs name (encode data))
            (<[i := name]> outputFiles)
      | None => write_buckets n (i + 1) id taskId outputLists fs outputFiles
      end
  end.

Definition map_task (id : Z) (work : AskTaskReply) (fs : filesystem) : go (filesystem * gmap Z string) :=
  name ← index (ar_Files work) 0;
  match fs !! name with
  | None => Fatal
  | Some fileContent =>
      mapResult ← mapf name fileContent;
      outputLists ← bucket (ar_NReduce work) mapResult ∅;
      write_buckets (Z.to_nat (ar_NReduce work)) 0 id (ar_TaskId work) outputLists fs ∅
  end.

(** *** Reduce task *)
Fixpoint read_files (names : list string) (fs : filesystem) (contentData : list KeyValue)
    : go (list KeyValue) :=
  match names with
  | [] => mret contentData
  | name :: names =>
      match fs !! name with
      | None => Fatal
      | Some content =>
          match decode content with
          | None => Fatal
          | Some kVL => read_files names fs (contentData ++ kVL)
          end
      end
  end.

Definition line (key result : string) : string :=
  key +:+ " " +:+ result +:+ String (Ascii.ascii_of_nat 10) "".

(** The loop over the sorted pairs; [out] is what the file holds. *)
Fixpoint reduce_loop (contentData : list KeyValue) (currentKey : string) (values : list string)
    (out : string) : go string :=
  match contentData with
  | [] =>
      reduceResult ← reducef currentKey values;
      mret (out +:+ line currentKey reduceResult)
  | kv :: rest =>
      if decide (Key kv = currentKey) then
        reduce_loop rest currentKey (values ++ [Value kv]) out
      else
        reduceResult ← reducef currentKey values;
        reduce_loop rest (Key kv) [Value kv] (out +:+ line currentKey reduceResult)
  end.

Definition reduce_output (contentData : list KeyValue) : go string :=
  match contentData with
  | [] => mret ""
  | kv :: rest => reduce_loop rest (Key kv) [Value kv] ""
  end.

Definition byKey (a b : KeyValue) : bool := String.ltb (Key a) (Key b).
Definition reduce_tmp (id taskId : Z) : string := "mr-tmp-" +:+ Itoa id +:+ "-" +:+ Itoa taskId.
Definition reduce_file (taskId : Z) : string := "mr-out-" +:+ Itoa taskId +:+ ".txt".

Definition Rename (fs : filesystem) (old new : string) : filesystem :=
  match fs !! old with Some x => <[new := x]> (delete old fs) | None => fs end.

Definition reduce_task (id : Z) (work : AskTaskReply) (fs : filesystem)
    : go (filesystem * gmap Z string) :=
  if decide (ar_Files work = []) then mret (fs, ∅) else
  contentData ← read_files (ar_Files work) fs [];
  let contentData := sort _ byKey contentData in
  let tmpName := reduce_tmp id (ar_TaskId work) in
  fs ← os_Create fs tmpName;
  out ← reduce_output contentData;
  let fs := WriteString fs tmpName out in
  let outputFile := reduce_file (ar_TaskId work) in
  mret (Rename fs tmpName outputFile, {[0 := outputFile]}).

(** *** The loop of [Worker] *)
Definition do_task (id : Z) (work : AskTaskReply) (fs : filesystem) : go (filesystem * gmap Z string) :=
  if ar_TaskType work =? 1 then map_task id work fs
  else if ar_TaskType work =? 2 then reduce_task id work fs
  else mret (fs, ∅).

Record system := mkSystem { sy_coord : Coordinator; sy_fs : filesystem; sy_id : Z }.

(** One iteration; [inr] is [os.Exit(0)].  [n1] and [n2] say how the two calls
    end, [clock] is the coordinator's. *)
Definition worker_iter (n1 n2 : net) (clock : Z → Z * Z) (s : system) : go (system + system) :=
  r ← call n1 (sy_coord s) (AskTask clock (sy_coord s) (mkAskTaskArgs (sy_id s)));
  match r.2 with
  | None => Fatal
  | Some work =>
      let id := ar_Id work in
      if ar_TaskId work =? -1 then mret (inl (mkSystem r.1 (sy_fs s) id)) else
      out ← do_task id work (sy_fs s);
      d ← WorkDone n2 r.1 id (ar_TaskId work) (ar_TaskType work) out.2;
      let s := mkSystem d.1 out.1 id in
      mret (if (d.2 : bool) then inl s else inr s)
  end.

(** The loop has no exit but [os.Exit] and [log.Fatal]: it goes on polling when the
    job is done.  [nets i] says how the two calls of iteration [i] end. *)
Fixpoint Worker (fuel : nat) (nets : nat → net * net) (clock : nat → Z → Z * Z) (s : system) : go system :=
  match fuel with
  | O => NoFuel
  | S fuel =>
      r ← worker_iter (nets O).1 (nets O).2 (clock O) s;
      match r with
      | inl s => Worker fuel (λ i, nets (S i)) (λ i, clock (S i)) s
      | inr s => mret s
      end
  end.

(** What [n] iterations of the loop come to. *)
Fixpoint iterations (n : nat) (nets : nat → net * net) (clock : nat → Z → Z * Z) (s : system) : go (system + system) :=
  match n with
  | O => mret (inl s)
  | S n =>
      r ← worker_iter (nets O).1 (nets O).2 (clock O) s;
      match r with
      | inl s => iterations n (λ i, nets (S i)) (λ i, clock (S i)) s
      | inr s => mret (inr s)
      end
  end.

Lemma iterations_app n k nets clock s s1 :
  iterations n nets clock s = Ret (inl s1) →
  iterations (n + k) nets clock s = iterations k (λ i, nets (n + i)%nat) (λ i, clock (n + i)%nat) s1.
Proof.
  revert nets clock s. induction n as [|n IH]; intros nets clock s H; simpl in *; [by injection H as <-|].
  destruct (worker_iter _ _ _ _) as [[s'|s']| | | |] eqn:E; simpl in *; try done. by apply IH.
Qed.

Lemma Worker_iterations n fuel nets clock s s1 :
  iterations n nets clock s = Ret (inl s1) →
  Worker (n + fuel) nets clock s = Worker fuel (λ i, nets (n + i)%nat) (λ i, clock (n + i)%nat) s1.
Proof.
  revert nets clock s. induction n as [|n IH]; intros nets clock s H; simpl in *; [by injection H as <-|].
  destruct (worker_iter _ _ _ _) as [[s'|s']| | | |] eqn:E; simpl in *; try done. by apply IH.
Qed.

(** ** main/mrsequential.go *)
Fixpoint map_files (names : list string) (fs : filesystem) (intermediate : list KeyValue)
    : go (list KeyValue) :=
  match names with
  | [] => mret intermediate
  | name :: names =>
      match fs !! name with
      | None => Fatal
      | Some content =>
          kva ← mapf name content;
          map_files names fs (intermediate ++ kva)
      end
  end.

(** The inner loop [for j < len && intermediate[j].Key == intermediate[i].Key]. *)
Fixpoint run_end (n : nat) (intermediate : list KeyValue) (key : string) (j : nat) : nat :=
  match n with
  | O => j
  | S n =>
      match intermediate !! j with
      | Some kv => if decide (Key kv = key) then run_end n intermediate key (S j) else j
      | None => j
      end
  end.

Fixpoint sequential_loop (fuel : nat) (intermediate : list KeyValue) (i : nat) (out : string) : go string :=
  match intermediate !! i with
  | None => mret out
  | Some kv =>
      match fuel with
      | O => NoFuel
      | S fuel =>
          let j := run_end (List.length intermediate) intermediate (Key kv) (S i) in
          let values := Value <$> take (j - i) (drop i intermediate) in
          output ← reducef (Key kv) values;
          sequential_loop fuel intermediate j (out +:+ line (Key kv) output)
      end
  end.

Definition mrsequential (names : list string) (fs : filesystem) : go filesystem :=
  intermediate ← map_files names fs [];
  let intermediate := sort _ byKey intermediate in
  out ← sequential_loop (List.length intermediate) intermediate 0 "";
  mret (if writable "mr-out-0" then <["mr-out-0" := out]> fs else fs).
End worker.

(** ** mrapps *)
Section apps.
(** [unicode.IsLetter]. *)
Context (IsLetter : Z → bool).
Context (sort : ∀ A, (A → A → bool) → list A → list A).

Definition wc_Map (filename contents : string) : go (list KeyValue) :=
  mret ((λ w, mkKeyValue w "1") <$> FieldsFunc contents (λ r, negb (IsLetter r))).
Definition wc_Reduce (key : string) (values : list string) : go string :=
  mret (Itoa (Z.of_nat (length values))).

(** Ranging over the map [m] gives its keys in the order [range]. *)
Definition indexer_Map (range : list string → list string) (document value : string)
    : go (list KeyValue) :=
  let words := FieldsFunc value (λ x, negb (IsLetter x)) in
  let m : gset string := list_to_set words in
  mret ((λ w, mkKeyValue w document) <$> range (elements m)).
Definition indexer_Reduce (key : string) (values : list string) : go string :=
  let values := sort _ String.ltb values in
  mret (Itoa (Z.of_nat (length values)) +:+ " " +:+ Join values ",").

(** [rr] is the random number below 1000; a delay has no effect here. *)
Definition maybeCrash (rr : Z) : go unit := if rr <? 330 then Fatal else mret tt.
Definition crash_Map (rr : Z) (filename contents : string) : go (list KeyValue) :=
  _ ← maybeCrash rr;
  mret [mkKeyValue "a" filename; mkKeyValue "b" (Itoa (Z.of_nat (String.length filename)));
        mkKeyValue "c" (Itoa (Z.of_nat (String.length contents))); mkKeyValue "d" "xyzzy"].
Definition crash_Reduce (rr : Z) (key : string) (values : list string) : go string :=
  _ ← maybeCrash rr;
  mret (Join (sort _ String.ltb values) " ").

(** In nocrash.go the test is [false && ...]. *)
Definition nocrash_maybeCrash (rr : Z) : go unit := if false && (rr <? 500) then Fatal else mret tt.
Definition nocrash_Map (rr : Z) (filename contents : string) : go (list KeyValue) :=
  _ ← nocrash_maybeCrash rr;
  mret [mkKeyValue "a" filename; mkKeyValue "b" (Itoa (Z.of_nat (String.length filename)));
        mkKeyValue "c" (Itoa (Z.of_nat (String.length contents))); mkKeyValue "d" "xyzzy"].
Definition nocrash_Reduce (rr : Z) (key : string) (values : list string) : go string :=
  _ ← nocrash_maybeCrash rr;
  mret (Join (sort _ String.ltb values) " ").

Definition early_exit_Map (filename contents : string) : go (list KeyValue) :=
  mret [mkKeyValue filename "1"].
Definition early_exit_Reduce (key : string) (values : list string) : go string :=
  mret (Itoa (Z.of_nat (length values))).
End apps.
