(* ===== verification/Grouping.v ===== *)
(** * Grouping by key: the reduce loop and the sequential loop

    Both loops hand the maximal runs of equal keys to [reducef]; on sorted pairs
    a run has all the values of its key, so splitting the pairs into buckets by
    key and reducing each gives the same lines. *)
From S2P Require Import Prelude GoStrings Worker.

Fixpoint runs_from (k : string) (vs : list string) (l : list KeyValue) : list (string * list string) :=
  match l with
  | [] => [(k, vs)]
  | kv :: l =>
      if decide (Key kv = k) then runs_from k (vs ++ [Value kv]) l
      else (k, vs) :: runs_from (Key kv) [Value kv] l
  end.
Definition runs (l : list KeyValue) : list (string * list string) :=
  match l with [] => [] | kv :: l => runs_from (Key kv) [Value kv] l end.

(** The leading pairs with key [k], and the rest. *)
Fixpoint same_key (k : string) (l : list KeyValue) : list KeyValue :=
  match l with
  | [] => []
  | kv :: l => if decide (Key kv = k) then kv :: same_key k l else []
  end.
Fixpoint other_key (k : string) (l : list KeyValue) : list KeyValue :=
  match l with
  | [] => []
  | kv :: l' => if decide (Key kv = k) then other_key k l' else l
  end.

Lemma same_other k l : same_key k l ++ other_key k l = l.
Proof. induction l as [|kv l IH]; simpl; [done|]. case_decide; simpl; congruence. Qed.

Lemma runs_from_split k vs l :
  runs_from k vs l = (k, vs ++ (Value <$> same_key k l)) :: runs (other_key k l).
Proof.
  revert vs. induction l as [|kv l IH]; intros vs; simpl; [by rewrite app_nil_r|].
  case_decide; simpl; [by rewrite IH, <-app_assoc|by rewrite app_nil_r].
Qed.

Section emit.
Context (reducef : string → list string → go string).

Fixpoint emit (rs : list (string * list string)) (out : string) : go string :=
  match rs with
  | [] => mret out
  | (k, vs) :: rs => r ← reducef k vs; emit rs (out +:+ line k r)
  end.

Lemma go_bind_ext {A B} (x : go A) (f g : A → go B) : (∀ a, f a = g a) → x ≫= f = x ≫= g.
Proof. intros H. destruct x; simpl; auto. Qed.

Lemma reduce_loop_emit l k vs out : reduce_loop reducef l k vs out = emit (runs_from k vs l) out.
Proof.
  revert k vs out. induction l as [|kv l IH]; intros k vs out; simpl; [done|].
  case_decide; [apply IH|]. simpl. apply go_bind_ext. intros r. apply IH.
Qed.

Lemma reduce_output_emit l : reduce_output reducef l = emit (runs l) "".
Proof. destruct l as [|kv l]; [done|]. apply reduce_loop_emit. Qed.

Lemma run_end_spec l k n j :
  (List.length l ≤ j + n)%nat → run_end n l k j = (j + List.length (same_key k (drop j l)))%nat.
Proof.
  revert j. induction n as [|n IH]; intros j Hn; simpl.
  - rewrite drop_ge by lia. simpl. lia.
  - destruct (l !! j) as [kv|] eqn:E.
    + rewrite (drop_S _ _ _ E). simpl. case_decide; [|simpl; lia]. rewrite IH by lia. simpl. lia.
    + rewrite drop_ge by by apply lookup_ge_None. simpl. lia.
Qed.

Lemma sequential_loop_emit l fuel i out :
  (List.length l ≤ i + fuel)%nat → sequential_loop reducef fuel l i out = emit (runs (drop i l)) out.
Proof.
  revert i out. induction fuel as [|fuel IH]; intros i out Hf; simpl.
  - rewrite drop_ge by lia. by rewrite lookup_ge_None_2 by lia.
  - destruct (l !! i) as [kv|] eqn:E; [|by rewrite drop_ge by by apply lookup_ge_None].
    rewrite (drop_S _ _ _ E). simpl. rewrite runs_from_split. simpl.
    rewrite run_end_spec by lia. set (p := same_key (Key kv) (drop (S i) l)).
    assert (drop (S i) l = p ++ other_key (Key kv) (drop (S i) l)) as Hsplit
      by (unfold p; by rewrite same_other).
    replace (S i + List.length p - i)%nat with (S (List.length p)) by lia. simpl take.
    replace (take (List.length p) (drop (S i) l)) with p by by rewrite Hsplit, take_app_length.
    apply go_bind_ext. intros r. rewrite IH by lia. f_equal. f_equal.
    rewrite <-drop_drop. rewrite Hsplit at 1. by rewrite drop_app_length.
Qed.
End emit.

(** The grouping loop of the reduce worker and that of the sequential
    program write the same file for every list of pairs, sorted or not, and
    whatever [reducef] does; the sequential loop ends within one round per
    pair. *)
Lemma reduce_loops_agree reducef l :
  reduce_output reducef l = sequential_loop reducef (List.length l) l 0 "".
Proof. by rewrite reduce_output_emit, sequential_loop_emit by lia. Qed.

(** ** Sorted pairs *)
Definition key_sorted (l : list KeyValue) : Prop := StronglySorted (λ a b, byKey b a = false) l.
Definition values (k : string) (l : list KeyValue) : list string :=
  Value <$> filter (λ kv, Key kv = k) l.
Definition lines (rf : string → list string → string) (l : list KeyValue) : list string :=
  (λ kvs, line kvs.1 (rf kvs.1 kvs.2)) <$> runs l.

Lemma sort_key_sorted sort {HG : GoSort sort} l : key_sorted (sort _ byKey l).
Proof. apply sort_sorted, (strict_weak_key Key). Qed.

Lemma same_key_values k l :
  key_sorted l → (∀ kv, kv ∈ l → String.ltb (Key kv) k = false) →
  same_key k l = filter (λ kv, Key kv = k) l ∧ (∀ kv, kv ∈ other_key k l → Key kv ≠ k) ∧
  key_sorted (other_key k l).
Proof.
  induction l as [|kv l IH]; intros Hs Hge; simpl; [split_and!; [done|set_solver|constructor]|].
  apply StronglySorted_inv in Hs as [Hs Hkv]. rewrite filter_cons. case_decide as Hk.
  - destruct IH as (-> & Ho & Hso); [done|intros; apply Hge; by right|]. done.
  - assert (∀ kv', kv' ∈ kv :: l → Key kv' ≠ k) as Hne.
    { intros kv' [->|Hin]%elem_of_cons Heq; [done|]. rewrite Forall_forall in Hkv.
      specialize (Hkv _ Hin). unfold byKey in Hkv. rewrite Heq in Hkv. apply Hk.
      apply string_compare_total; [apply Hge; by left|done]. }
    split_and!; [|done|by constructor]. symmetry. apply elem_of_nil_inv.
    intros kv' [? Hin]%list_elem_of_filter. by apply (Hne kv'); [right|].
Qed.

Lemma values_app k l l' : values k (l ++ l') = values k l ++ values k l'.
Proof. unfold values. by rewrite filter_app, fmap_app. Qed.

Lemma values_all k l : (∀ kv, kv ∈ l → Key kv = k) → values k l = Value <$> l.
Proof.
  induction l as [|kv l IH]; intros Hk; [done|]. unfold values in *.
  rewrite filter_cons_True by (apply Hk; by left). csimpl. f_equal. apply IH.
  intros. apply Hk. by right.
Qed.

Lemma values_none k l : (∀ kv, kv ∈ l → Key kv ≠ k) → values k l = [].
Proof.
  intros Hk. unfold values. replace (filter _ l) with (@nil KeyValue); [done|]. symmetry.
  apply elem_of_nil_inv. intros kv [? Hin]%list_elem_of_filter. by apply (Hk kv).
Qed.

Lemma same_key_elem k l kv : kv ∈ same_key k l → Key kv = k.
Proof. induction l as [|x l IH]; simpl; [set_solver|]. case_decide; set_solver. Qed.

Lemma other_key_length k l : (List.length (other_key k l) ≤ List.length l)%nat.
Proof. induction l as [|x l IH]; simpl; [lia|]. case_decide; simpl; lia. Qed.

Lemma other_key_sorted k l :
  key_sorted l → (∀ kv, kv ∈ l → String.ltb (Key kv) k = false) →
  key_sorted (other_key k l) ∧ ∀ kv, kv ∈ other_key k l → Key kv ≠ k.
Proof. intros Hs Hge. destruct (same_key_values k l Hs Hge) as (_ & ? & ?). done. Qed.

Lemma runs_sorted l :
  key_sorted l →
  NoDup (runs l).*1 ∧ ∀ k vs, (k, vs) ∈ runs l ↔ vs = values k l ∧ k ∈ Key <$> l.
Proof.
  remember (List.length l) as n eqn:Hn. revert l Hn.
  induction (lt_wf n) as [n _ IH]. intros [|kv l] -> Hs; simpl.
  { split; [constructor|]. intros k vs. split; [set_solver|]. intros [_ Hk]. set_solver. }
  apply StronglySorted_inv in Hs as [Hs Hkv]. rewrite Forall_forall in Hkv.
  rewrite runs_from_split. set (p := same_key (Key kv) l). set (q := other_key (Key kv) l).
  assert (∀ kv', kv' ∈ l → String.ltb (Key kv') (Key kv) = false) as Hge by (intros; by apply Hkv).
  destruct (other_key_sorted (Key kv) l Hs Hge) as [Hqs Hqn]. fold q in Hqs, Hqn.
  pose proof (same_other (Key kv) l) as Hpq. fold p q in Hpq.
  assert (∀ kv', kv' ∈ p → Key kv' = Key kv) as Hp by (intros; by eapply same_key_elem).
  destruct (IH (List.length q)) with (l := q) as [HN HE]; [|done..|].
  { pose proof (other_key_length (Key kv) l). unfold q. simpl. lia. }
  assert (values (Key kv) (kv :: l) = Value kv :: (Value <$> p)) as Hv.
  { rewrite <-Hpq. unfold values. rewrite filter_cons_True by done. csimpl. f_equal.
    fold (values (Key kv) (p ++ q)). rewrite values_app, (values_all _ p), (values_none _ q) by done.
    apply app_nil_r. }
  assert (∀ k, k ≠ Key kv → values k (kv :: l) = values k q) as Hvo.
  { intros k Hk. rewrite <-Hpq. unfold values. rewrite filter_cons_False by done.
    fold (values k (p ++ q)). fold (values k q). rewrite values_app, (values_none _ p); [done|].
    intros kv' Hin. rewrite (Hp _ Hin). done. }
  csimpl. split.
  - constructor; [|done]. intros ([k vs] & Hk & Hin)%list_elem_of_fmap.
    apply HE in Hin as [_ (kv' & Heq & Hin)%list_elem_of_fmap]. simpl in Hk.
    apply (Hqn kv' Hin). congruence.
  - intros k vs. rewrite elem_of_cons, HE. split.
    + intros [Heq|[-> Hk]]; [injection Heq as -> ->; split; [by rewrite Hv|left]|].
      apply list_elem_of_fmap in Hk as (kv' & -> & Hin). split; [by rewrite Hvo by by apply Hqn|].
      right. rewrite <-Hpq, fmap_app. apply elem_of_app. right. by apply list_elem_of_fmap_2.
    + intros [-> Hk]. destruct (decide (k = Key kv)) as [->|Hne]; [left; by rewrite Hv|].
      right. rewrite Hvo by done. split; [done|]. apply elem_of_cons in Hk as [?|Hk]; [done|].
      rewrite <-Hpq, fmap_app in Hk. apply elem_of_app in Hk as [Hk|Hk]; [|done].
      apply list_elem_of_fmap in Hk as (kv' & -> & Hin). by destruct Hne; apply Hp.
Qed.

Lemma runs_keys l k : key_sorted l → k ∈ (runs l).*1 ↔ k ∈ Key <$> l.
Proof.
  intros Hs. destruct (runs_sorted l Hs) as [_ HE]. split.
  - intros ([k' vs] & -> & Hin)%list_elem_of_fmap. by apply HE in Hin as [_ ?].
  - intros Hk. apply list_elem_of_fmap. exists (k, values k l). split; [done|]. by apply HE.
Qed.

#[export] Instance ltb_antisymm : AntiSymm (=) (λ a b, String.ltb b a = false).
Proof. intros a b Ha Hb. by apply string_compare_total. Qed.

Lemma runs_keys_sorted l : key_sorted l → StronglySorted (λ a b, String.ltb b a = false) (runs l).*1.
Proof.
  remember (List.length l) as n eqn:Hn. revert l Hn.
  induction (lt_wf n) as [n _ IH]. intros [|kv l] -> Hs; simpl; [constructor|].
  apply StronglySorted_inv in Hs as [Hs Hkv]. rewrite Forall_forall in Hkv.
  rewrite runs_from_split. csimpl. destruct (other_key_sorted (Key kv) l Hs) as [Hqs _]; [by intros; apply Hkv|].
  constructor.
  - eapply IH; [|done..]. pose proof (other_key_length (Key kv) l). simpl. lia.
  - apply Forall_forall. intros k. rewrite runs_keys by done. intros (kv' & -> & Hin)%list_elem_of_fmap.
    apply Hkv. rewrite <-(same_other (Key kv) l). apply elem_of_app. by right.
Qed.

(** ** Buckets *)
Section buckets.
Context (sort : ∀ A, (A → A → bool) → list A → list A) {HG : GoSort sort}.
Context (rf : string → list string → string).
Hypothesis rf_perm : ∀ k vs vs', vs ≡ₚ vs' → rf k vs = rf k vs'.

Definition key_line (l : list KeyValue) (k : string) : string := line k (rf k (values k l)).

Lemma values_perm k l l' : l ≡ₚ l' → values k l ≡ₚ values k l'.
Proof. intros H. unfold values. by rewrite H. Qed.

Lemma lines_key_lines l : lines rf (sort _ byKey l) = key_line l <$> (runs (sort _ byKey l)).*1.
Proof.
  destruct (runs_sorted _ (sort_key_sorted sort l)) as [_ HE].
  unfold lines. rewrite <-list_fmap_compose. apply list_fmap_ext. intros i [k vs] Hi. simpl.
  unfold key_line. f_equal. apply rf_perm.
  apply list_elem_of_lookup_2, HE in Hi as [-> _]. apply values_perm, sort_perm.
Qed.

Lemma lines_keys l ks :
  NoDup ks → (∀ k, k ∈ ks ↔ k ∈ Key <$> l) → lines rf (sort _ byKey l) ≡ₚ key_line l <$> ks.
Proof.
  intros HN Hks. rewrite lines_key_lines. pose proof (sort_key_sorted sort l) as Hs.
  apply fmap_Permutation, NoDup_Permutation; [by apply runs_sorted|done|]. intros k.
  by rewrite Hks, runs_keys, sort_perm.
Qed.

(** The lines depend only on which pairs there are. *)
Lemma lines_perm l l' : l ≡ₚ l' → lines rf (sort _ byKey l) = lines rf (sort _ byKey l').
Proof.
  intros Hp. rewrite !lines_key_lines.
  assert ((runs (sort _ byKey l)).*1 = (runs (sort _ byKey l')).*1) as ->.
  { apply (StronglySorted_unique (λ a b, String.ltb b a = false)); [by apply runs_keys_sorted, sort_key_sorted..|].
    apply NoDup_Permutation; [by apply runs_sorted, sort_key_sorted..|]. intros k.
    rewrite !runs_keys, !sort_perm, Hp by by apply sort_key_sorted. done. }
  apply list_fmap_ext. intros i k _. unfold key_line. f_equal. by apply rf_perm, values_perm.
Qed.

(** The pairs of reduce task [r]. *)
Definition bucket_of (n r : Z) (l : list KeyValue) : list KeyValue :=
  filter (λ kv, Z.rem (ihash (Key kv)) n = r) l.

Lemma ihash_nonneg k : 0 ≤ ihash k.
Proof. unfold ihash. apply Z.land_nonneg. right. done. Qed.

Lemma values_bucket n k l : values k (bucket_of n (Z.rem (ihash k) n) l) = values k l.
Proof.
  unfold values, bucket_of. f_equal. induction l as [|kv l IH]; [done|].
  rewrite !filter_cons. destruct (decide (Key kv = k)) as [<-|Hk].
  - rewrite decide_True by done. rewrite filter_cons, decide_True by done. by rewrite IH.
  - case_decide; rewrite ?filter_cons, ?(decide_False _ _ Hk); done.
Qed.

Lemma filter_cases {A} (f : A → Z) r rs (ks : list A) :
  r ∉ rs → filter (λ x, f x ∈ r :: rs) ks ≡ₚ filter (λ x, f x = r) ks ++ filter (λ x, f x ∈ rs) ks.
Proof.
  intros Hr. induction ks as [|x ks IH]; [done|]. rewrite !filter_cons.
  destruct (decide (f x = r)) as [Hx|Hx].
  - rewrite decide_True by (rewrite Hx; left). rewrite decide_False by congruence. simpl. by rewrite IH.
  - destruct (decide (f x ∈ rs)) as [Hin|Hin].
    + rewrite decide_True by by right. rewrite IH. apply Permutation_middle.
    + rewrite decide_False; [done|]. by intros [?|?]%elem_of_cons.
Qed.

Lemma split_by {A} (f : A → Z) rs (ks : list A) :
  NoDup rs → (∀ x, x ∈ ks → f x ∈ rs) →
  concat ((λ r, filter (λ x, f x = r) ks) <$> rs) ≡ₚ ks.
Proof.
  intros HN Hin. assert (filter (λ x, f x ∈ rs) ks = ks) as Hall.
  { clear HN. induction ks as [|x ks IH]; [done|]. rewrite filter_cons_True by (apply Hin; left).
    rewrite IH; [done|]. intros. apply Hin. by right. }
  transitivity (filter (λ x, f x ∈ rs) ks); [|by rewrite Hall]. clear Hin Hall. induction HN as [|r rs Hr HN IH]; csimpl.
  - induction ks as [|x ks IH]; [done|]. rewrite filter_cons_False; [done|by intros ?%elem_of_nil].
  - rewrite (filter_cases f r rs) by done. by rewrite IH.
Qed.

Lemma NoDup_filter_keys {A} (P : A → Prop) `{∀ x, Decision (P x)} (l : list A) :
  NoDup l → NoDup (filter P l).
Proof. intros. by apply NoDup_filter. Qed.

Lemma bucket_keys n r l k :
  k ∈ filter (λ k, Z.rem (ihash k) n = r) (remove_dups (Key <$> l)) ↔
  k ∈ Key <$> bucket_of n r l.
Proof.
  rewrite list_elem_of_filter, elem_of_remove_dups, !list_elem_of_fmap. unfold bucket_of.
  setoid_rewrite list_elem_of_filter. naive_solver.
Qed.

Lemma concat_Permutation {A} (f g : Z → list A) rs :
  (∀ r, r ∈ rs → f r ≡ₚ g r) → concat (f <$> rs) ≡ₚ concat (g <$> rs).
Proof.
  induction rs as [|r rs IH]; intros Hfg; csimpl; [done|].
  rewrite (Hfg r) by left. rewrite IH; [done|]. intros. apply Hfg. by right.
Qed.

Lemma fmap_concat {A B} (f : A → B) (ls : list (list A)) :
  fmap (M:=list) f (concat ls) = concat (fmap (M:=list) (fmap (M:=list) f) ls).
Proof. induction ls as [|l ls IH]; csimpl; [done|]. by rewrite fmap_app, IH. Qed.

(** Splitting the pairs into [n] buckets by [ihash key % n] and reducing
    each bucket gives, together, exactly the lines of the sequential program, if
    [reducef] does not depend on the order of its values. *)
Lemma buckets_sequential n l :
  0 < n →
  lines rf (sort _ byKey l) ≡ₚ
  concat ((λ r, lines rf (sort _ byKey (bucket_of n r l))) <$> seqZ 0 n).
Proof.
  intros Hn. set (ks := remove_dups (Key <$> l)).
  assert (NoDup ks) as HN by apply NoDup_remove_dups.
  rewrite (lines_keys l ks); [|done|intros; unfold ks; by rewrite elem_of_remove_dups].
  transitivity (concat ((λ r, key_line l <$> filter (λ k, Z.rem (ihash k) n = r) ks) <$> seqZ 0 n)).
  - rewrite <-(split_by (λ k, Z.rem (ihash k) n) (seqZ 0 n) ks) at 1.
    + rewrite fmap_concat, <-list_fmap_compose. done.
    + apply NoDup_seqZ.
    + intros k _. apply elem_of_seqZ. pose proof (ihash_nonneg k).
      pose proof (Z.rem_bound_pos (ihash k) n). lia.
  - apply concat_Permutation. intros r _. symmetry.
    rewrite (lines_keys _ (filter (λ k, Z.rem (ihash k) n = r) ks)).
    + replace (key_line l <$> filter (λ k, Z.rem (ihash k) n = r) ks)
        with (key_line (bucket_of n r l) <$> filter (λ k, Z.rem (ihash k) n = r) ks); [done|].
      apply list_fmap_ext. intros i k [<- _]%list_elem_of_lookup_2%list_elem_of_filter.
      unfold key_line. by rewrite values_bucket.
    + by apply NoDup_filter_keys.
    + intros k. apply bucket_keys.
Qed.
End buckets.
