(* ===== verification/Job.v ===== *)
(** * One worker finishes a job

    What a task does to the files.  The coordinator, one worker and the file system
    run together: after one iteration per task the job is done, and the output files
    hold what the sequential program computes; the worker goes on polling until it
    no longer reaches the coordinator. *)
From Stdlib Require Import Ascii.
From S2P Require Import Prelude GoStrings Coordinator CoordinatorProof CoordinatorSeq Worker Grouping.
#[local] Open Scope Z_scope.

Definition file_of (ls : list string) : string := foldr String.append "" ls.

(** ** Names *)
Lemma map_file_inj id t i id' t' i' :
  0 ≤ id → 0 ≤ id' → 0 ≤ t → 0 ≤ t' → map_file id t i = map_file id' t' i' → id = id' ∧ t = t' ∧ i = i'.
Proof.
  intros Hid Hid' Ht Ht' H. unfold map_file in H. apply append_inj_l in H. simpl in H.
  apply sep_inj in H as [Hd H]; [|by apply Itoa_no_dash..].
  apply sep_inj in H as [Hti Hii]; [|by apply Itoa_no_dash..].
  split_and!; by apply (inj Itoa).
Qed.

Lemma no_dash_neq s s' t : all_chars (λ a, a ≠ "-"%char) s → s ≠ s' +:+ String "-"%char t.
Proof.
  revert s'. induction s as [|a s IH]; intros [|b s'] Hs H; simpl in *; try done;
  injection H as -> H; destruct Hs; [done|by eapply IH].
Qed.

Lemma map_file_reduce_tmp id t i id' r :
  0 ≤ id → 0 ≤ id' → 0 ≤ t → 0 ≤ r → map_file id t i ≠ reduce_tmp id' r.
Proof.
  intros Hid Hid' Ht Hr H. unfold map_file, reduce_tmp in H. apply append_inj_l in H. simpl in H.
  apply sep_inj in H as [_ H]; [|by apply Itoa_no_dash..].
  symmetry in H. revert H. apply no_dash_neq, Itoa_no_dash. done.
Qed.
Lemma reduce_tmp_inj id r id' r' :
  0 ≤ id → 0 ≤ id' → reduce_tmp id r = reduce_tmp id' r' → id = id' ∧ r = r'.
Proof.
  intros Hid Hid' H. unfold reduce_tmp in H. apply append_inj_l in H. simpl in H.
  apply sep_inj in H as [Hd H]; [|by apply Itoa_no_dash..]. split; by apply (inj Itoa).
Qed.

Definition plain (name : string) : Prop := String.prefix "mr-" name = false.

Lemma plain_map_file name id t i : plain name → name ≠ map_file id t i.
Proof. by intros Hp ->. Qed.
Lemma plain_reduce_tmp name id r : plain name → name ≠ reduce_tmp id r.
Proof. by intros Hp ->. Qed.
Lemma plain_reduce_file name r : plain name → name ≠ reduce_file r.
Proof. by intros Hp ->. Qed.
Lemma tmp_out s s' : "mr-tmp-" +:+ s ≠ "mr-out-" +:+ s'.
Proof. done. Qed.

Lemma reduce_file_inj r r' : 0 ≤ r → 0 ≤ r' → reduce_file r = reduce_file r' → r = r'.
Proof.
  intros Hr Hr' H. unfold reduce_file in H. apply append_inj_l in H.
  apply sep_inj in H as [H _]; [by apply (inj Itoa)|by apply Itoa_no_dot..].
Qed.

(** ** The tasks *)
Section tasks.
Context {HC : Codec} (writable : string → bool).
Hypothesis all_writable : ∀ name, writable name = true.

Lemma bucket_run n l ol :
  n ≠ 0 → (∀ i, ol !! i ≠ Some []) →
  ∃ ol', bucket n l ol = Ret ol' ∧
    ∀ i, ol' !! i = if decide (default [] (ol !! i) ++ bucket_of n i l = []) then None
                    else Some (default [] (ol !! i) ++ bucket_of n i l).
Proof.
  intros Hn. revert ol. induction l as [|kv l IH]; intros ol Hol; simpl.
  - exists ol. split; [done|]. intros i. rewrite app_nil_r. specialize (Hol i).
    destruct (ol !! i) as [[|x xs]|]; simpl; done.
  - rewrite (proj2 (Z.eqb_neq _ _)) by done. set (j := Z.rem _ _).
    destruct (IH (<[j := default [] (ol !! j) ++ [kv]]> ol)) as (ol' & E & Hol').
    { intros i. destruct (decide (i = j)) as [->|]; [rewrite lookup_insert_eq|by rewrite lookup_insert_ne].
      intros [=H]. by destruct (default [] (ol !! j)). }
    exists ol'. split; [done|]. intros i. rewrite Hol'. unfold bucket_of. rewrite filter_cons.
    fold j. destruct (decide (i = j)) as [->|Hij].
    + rewrite lookup_insert_eq, (decide_True (P := j = j)) by done. simpl. by rewrite <-app_assoc.
    + rewrite lookup_insert_ne, (decide_False (P := j = i)) by done. done.
Qed.

Lemma bucket_empty_run n l :
  n ≠ 0 → ∃ ol, bucket n l ∅ = Ret ol ∧
    ∀ i, ol !! i = if decide (bucket_of n i l = []) then None else Some (bucket_of n i l).
Proof.
  intros Hn. destruct (bucket_run n l ∅ Hn) as (ol & E & Hol); [by intros i; rewrite lookup_empty|].
  exists ol. split; [done|]. intros i. apply Hol.
Qed.

Lemma os_Create_run fs name : os_Create writable fs name = Ret (<[name := ""]> fs).
Proof. unfold os_Create. by rewrite all_writable. Qed.

Lemma WriteString_create fs name s : WriteString (<[name := ""]> fs) name s = <[name := s]> fs.
Proof. unfold WriteString. by rewrite lookup_insert_eq, insert_insert_eq. Qed.

Lemma write_buckets_run n i id t ol fs outs :
  0 ≤ i → 0 ≤ id → 0 ≤ t →
  ∃ fs' outs', write_buckets writable n i id t ol fs outs = Ret (fs', outs') ∧
    (∀ j, outs' !! j = if decide (i ≤ j < i + Z.of_nat n ∧ is_Some (ol !! j))
                       then Some (map_file id t j) else outs !! j) ∧
    (∀ j data, i ≤ j < i + Z.of_nat n → ol !! j = Some data →
       fs' !! map_file id t j = Some (encode data)) ∧
    (∀ name, (∀ j, i ≤ j < i + Z.of_nat n → is_Some (ol !! j) → name ≠ map_file id t j) → fs' !! name = fs !! name).
Proof.
  revert i fs outs. induction n as [|n IH]; intros i fs outs Hi Hid Ht; simpl.
  { exists fs, outs. split_and!; try done.
    - intros j. rewrite decide_False; [done|]. lia.
    - intros j data. lia. }
  destruct (ol !! i) as [data|] eqn:E.
  - rewrite os_Create_run. simpl. rewrite WriteString_create.
    destruct (IH (i + 1) (<[map_file id t i := encode data]> fs) (<[i := map_file id t i]> outs))
      as (fs' & outs' & Hrun & Ho & Hf & Hn); [lia..|].
    exists fs', outs'. split_and!; [done| | |].
    + intros j. rewrite Ho. destruct (decide (j = i)) as [->|Hj].
      * rewrite decide_False by lia. rewrite lookup_insert_eq, decide_True; [done|]. split; [lia|by eexists].
      * rewrite lookup_insert_ne by done. apply decide_ext.
        assert (i + 1 ≤ j < i + 1 + Z.of_nat n ↔ i ≤ j < i + Z.of_nat (S n)) by lia. tauto.
    + intros j d Hj Hd. destruct (decide (j = i)) as [->|Hne]; [|apply Hf; [lia|done]].
      rewrite Hn, lookup_insert_eq; [by simplify_eq|].
      intros j' Hj' _ (_ & _ & ?)%map_file_inj; lia.
    + intros name Hname. rewrite Hn, lookup_insert_ne; [done| |].
      * symmetry. apply Hname; [lia|by eexists].
      * intros j Hj. apply Hname. lia.
  - destruct (IH (i + 1) fs outs) as (fs' & outs' & Hrun & Ho & Hf & Hn); [lia..|].
    exists fs', outs'. split_and!; [done| | |].
    + intros j. rewrite Ho. destruct (decide (j = i)) as [->|Hj].
      * rewrite !decide_False; [done|rewrite E; by intros [_ []]|lia].
      * apply decide_ext.
        assert (i + 1 ≤ j < i + 1 + Z.of_nat n ↔ i ≤ j < i + Z.of_nat (S n)) by lia. tauto.
    + intros j d Hj Hd. apply Hf; [|done]. assert (j ≠ i) by congruence. lia.
    + intros name Hname. apply Hn. intros j Hj. apply Hname. lia.
Qed.

Section run.
Context (sort : ∀ A, (A → A → bool) → list A → list A) {HG : GoSort sort}.
Context (mf : string → string → list KeyValue) (rf : string → list string → string).
Abbreviation mapf := (λ f c, Ret (mf f c)).
Abbreviation reducef := (λ k vs, Ret (rf k vs)).

(** The name reported for reduce task [i] by map task [t] that emitted [l]. *)
Definition reported (n id t : Z) (l : list KeyValue) (i : Z) : option string :=
  if decide (0 ≤ i < n ∧ bucket_of n i l ≠ []) then Some (map_file id t i) else None.

Lemma reported_Some n id t l i f : reported n id t l i = Some f → 0 ≤ i < n ∧ f = map_file id t i.
Proof. unfold reported. case_decide as Hb; [|done]. intros [= <-]. by destruct Hb. Qed.

Lemma map_task_run id work name content fs :
  0 ≤ id → 0 ≤ ar_TaskId work → 0 < ar_NReduce work → ar_Files work = [name] →
  fs !! name = Some content →
  ∃ fs' outs, map_task writable mapf id work fs = Ret (fs', outs) ∧
    (∀ i, outs !! i = reported (ar_NReduce work) id (ar_TaskId work) (mf name content) i) ∧
    (∀ i, 0 ≤ i < ar_NReduce work → bucket_of (ar_NReduce work) i (mf name content) ≠ [] →
       fs' !! map_file id (ar_TaskId work) i =
         Some (encode (bucket_of (ar_NReduce work) i (mf name content)))) ∧
    (∀ nm, (∀ j, outs !! j ≠ Some nm) → fs' !! nm = fs !! nm).
Proof.
  intros Hid Ht Hn Hf Hc. unfold map_task. rewrite Hf. simpl. rewrite Hc. simpl.
  set (n := ar_NReduce work) in *. set (l := mf name content).
  destruct (bucket_empty_run n l) as (ol & -> & Hol); [lia|]. simpl.
  destruct (write_buckets_run (Z.to_nat n) 0 id (ar_TaskId work) ol fs ∅)
    as (fs' & outs & -> & Ho & Hw & Hnm); [lia..|].
  assert (∀ i, outs !! i = reported n id (ar_TaskId work) l i) as Houts.
  { intros i. rewrite Ho, lookup_empty, Hol. unfold reported. apply decide_ext.
    replace (0 + Z.of_nat (Z.to_nat n)) with n by lia.
    case_decide as Hb; rewrite ?is_Some_alt; naive_solver. }
  exists fs', outs. split_and!; [done|done| |].
  - intros i Hi Hb. apply Hw; [lia|]. by rewrite Hol, decide_False.
  - intros nm Hne. apply Hnm. intros j Hj [d Hd] ->. apply (Hne j). rewrite Houts. unfold reported.
    rewrite Hol in Hd. apply decide_True. split; [lia|]. by case_decide.
Qed.

Lemma read_files_run names ls fs acc :
  Forall2 (λ name l, fs !! name = Some (encode l) ∧ Forall json_safe l) names ls →
  read_files names fs acc = Ret (acc ++ concat ls).
Proof.
  intros HF. revert acc. induction HF as [|name l names ls [Hf Hs] _ IH]; intros acc; simpl.
  - by rewrite app_nil_r.
  - by rewrite Hf, decode_encode, IH, <-app_assoc by done.
Qed.

Lemma emit_pure rs out :
  emit reducef rs out = Ret (out +:+ file_of ((λ kvs, line kvs.1 (rf kvs.1 kvs.2)) <$> rs)).
Proof.
  revert out. induction rs as [|[k vs] rs IH]; intros out; simpl.
  - by rewrite append_nil_r.
  - by rewrite IH, <-append_assoc.
Qed.

Lemma reduce_output_pure l : reduce_output reducef l = Ret (file_of (lines rf l)).
Proof. rewrite reduce_output_emit, emit_pure. done. Qed.

Lemma read_files_fail names fs acc :
  Exists (λ name, fs !! name ≫= decode = None) names → read_files names fs acc = Fatal.
Proof.
  revert acc. induction names as [|name names IH]; intros acc Hn; [by apply Exists_nil in Hn|].
  apply Exists_cons in Hn as [Hn|Hn].
  - simpl. destruct (fs !! name) as [c|]; [|done]. simpl in Hn. by rewrite Hn.
  - simpl. destruct (fs !! name) as [c|]; [|done]. destruct (decode c); [|done]. by apply IH.
Qed.

Lemma reduce_task_run id work ls fs :
  ar_Files work ≠ [] →
  Forall2 (λ name l, fs !! name = Some (encode l) ∧ Forall json_safe l) (ar_Files work) ls →
  reduce_task sort writable reducef id work fs =
    Ret (<[reduce_file (ar_TaskId work) := file_of (lines rf (sort _ byKey (concat ls)))]>
           (delete (reduce_tmp id (ar_TaskId work)) fs), {[0 := reduce_file (ar_TaskId work)]}).
Proof.
  intros Hne HF. unfold reduce_task. rewrite decide_False by done.
  rewrite (read_files_run _ ls) by done. simpl. rewrite os_Create_run. simpl.
  rewrite reduce_output_pure. simpl. rewrite WriteString_create.
  unfold Rename. by rewrite lookup_insert_eq, delete_insert_eq.
Qed.

(** C12 What a worker does for a task.  A map task writes, for each bucket that gets
    any, the pairs that hash to it, in order, to a file of its own and names exactly
    these files; a reduce task without files does nothing; otherwise it writes the
    lines of its input's groups to the output file, and its temporary file is gone.
    No other file changes.  A file that is missing, or one that cannot be decoded,
    ends the worker. *)
Theorem do_task_spec id work fs :
  0 ≤ id → 0 ≤ ar_TaskId work → 0 < ar_NReduce work →
  let do := do_task sort writable mapf reducef id work fs in
  let t := ar_TaskId work in
  let n := ar_NReduce work in
  (ar_TaskType work = 1 → ∀ name, ar_Files work = [name] →
     match fs !! name with
     | None => do = Fatal
     | Some content =>
         ∃ fs' outs, do = Ret (fs', outs) ∧
           (∀ i, outs !! i = if decide (0 ≤ i < n ∧ bucket_of n i (mf name content) ≠ [])
                             then Some (map_file id t i) else None) ∧
           (∀ i file, outs !! i = Some file → fs' !! file = Some (encode (bucket_of n i (mf name content)))) ∧
           (∀ file, (∀ i, outs !! i ≠ Some file) → fs' !! file = fs !! file)
     end) ∧
  (ar_TaskType work = 2 → ar_Files work = [] → do = Ret (fs, ∅)) ∧
  (ar_TaskType work = 2 → ar_Files work ≠ [] →
     (∀ ls, Forall2 (λ name l, fs !! name = Some (encode l) ∧ Forall json_safe l) (ar_Files work) ls →
        do = Ret (<[reduce_file t := file_of (lines rf (sort _ byKey (concat ls)))]> (delete (reduce_tmp id t) fs),
                  {[0 := reduce_file t]})) ∧
     (Exists (λ name, fs !! name ≫= decode = None) (ar_Files work) → do = Fatal)).
Proof.
  intros Hid Ht Hn do t n. unfold do, do_task. split_and!.
  - intros -> name Hf. cbn [Z.eqb Pos.eqb]. destruct (fs !! name) as [content|] eqn:Hc.
    + destruct (map_task_run id work name content fs) as (fs' & outs & Hrun & Ho & Hw & Hnm); [done..|].
      exists fs', outs. split; [done|]. split; [exact Ho|]. split; [|done].
      intros i file. rewrite Ho. unfold reported. case_decide as Hb; [|done]. intros [= <-]. destruct Hb. by apply Hw.
    + unfold map_task. rewrite Hf. simpl. by rewrite Hc.
  - intros -> Hf. unfold reduce_task. simpl. by rewrite decide_True.
  - intros -> Hf. cbn [Z.eqb Pos.eqb]. split; [intros ls; by apply reduce_task_run|].
    intros He. unfold reduce_task. rewrite decide_False by done. by rewrite read_files_fail.
Qed.

(** *** The job *)
Context (input : list string) (nRed : Z) (content : string → string) (fs0 : filesystem).
Hypothesis nRed_pos : 0 < nRed.
Hypothesis size_ok : Z.of_nat (length input) + nRed < 2 ^ 63.
Hypothesis input_plain : Forall plain input.
Hypothesis input_content : Forall (λ f, fs0 !! f = Some (content f)) input.
Hypothesis mf_safe : ∀ f, Forall json_safe (mf f (content f)).
Abbreviation m := (Z.of_nat (length input)).

(** What map task [t] emits, and everything that is emitted. *)
Definition pairs (t : nat) : list KeyValue :=
  match input !! t with Some f => mf f (content f) | None => [] end.
Definition emitted : list KeyValue := concat ((λ f, mf f (content f)) <$> input).

Lemma emitted_pairs : emitted = concat (pairs <$> seq 0 (length input)).
Proof.
  unfold emitted. f_equal. apply list_eq. intros t. rewrite !list_lookup_fmap.
  destruct (input !! t) as [f|] eqn:E; simpl.
  - rewrite lookup_seq_lt by by eapply lookup_lt_Some. simpl. unfold pairs. by rewrite E.
  - apply lookup_ge_None in E. by rewrite lookup_seq_ge by lia.
Qed.

Lemma bucket_concat n r (ls : list (list KeyValue)) :
  bucket_of n r (concat ls) = concat (bucket_of n r <$> ls).
Proof. induction ls as [|l ls IH]; csimpl; [done|]. unfold bucket_of in *. by rewrite filter_app, IH. Qed.

Definition log_ok (k : nat) (l : list TaskDoneArgs) : Prop :=
  Forall2 (λ args t, ∀ i, da_Files args !! i = reported nRed 0 (Z.of_nat t) (pairs t) i)
    l (seq 0 (Nat.min k (length input))).

Record job (k : nat) (s : system) : Prop := {
  jb_log : ∃ l, after input nRed k l (sy_coord s) ∧ log_ok k l;
  jb_id : sy_id s = (if decide (k = O) then -1 else 0) ∧ (k = O → workers (sy_coord s) = 0);
  jb_input : Forall (λ f, sy_fs s !! f = Some (content f)) input;
  jb_inter t i : (t < k)%nat → 0 ≤ i < nRed → bucket_of nRed i (pairs t) ≠ [] →
    sy_fs s !! map_file 0 (Z.of_nat t) i = Some (encode (bucket_of nRed i (pairs t)));
  jb_out r : 0 ≤ r → sy_fs s !! reduce_file r =
    if decide (m + r < Z.of_nat k ∧ bucket_of nRed r emitted ≠ [])
    then Some (file_of (lines rf (sort _ byKey (bucket_of nRed r emitted))))
    else fs0 !! reduce_file r;
}.

Lemma contributions_spec l ts r :
  Forall2 (λ args t, ∀ i, da_Files args !! i = reported nRed 0 (Z.of_nat t) (pairs t) i) l ts →
  0 ≤ r < nRed →
  contributions r l =
    (λ t, map_file 0 (Z.of_nat t) r) <$> filter (λ t, bucket_of nRed r (pairs t) ≠ []) ts.
Proof.
  intros HF Hr. induction HF as [|args t l ts Hf _ IH]; [done|]. unfold contributions in *.
  csimpl. rewrite Hf, filter_cons. unfold reported. rewrite IH. clear Hf.
  destruct (decide (bucket_of nRed r (pairs t) = [])) as [E|E].
  - rewrite !decide_False; [done|tauto|tauto].
  - rewrite !decide_True; [done|done|tauto].
Qed.

Lemma concat_filter {A B} (f : A → list B) ts :
  concat (f <$> filter (λ t, f t ≠ []) ts) = concat (f <$> ts).
Proof.
  induction ts as [|t ts IH]; [done|]. rewrite filter_cons. csimpl.
  destruct (decide (f t = [])) as [E|E].
  - rewrite decide_False by tauto. by rewrite IH, E.
  - rewrite decide_True by done. csimpl. by rewrite IH.
Qed.

Lemma concat_nil {A B} (f : A → list B) ts :
  concat (f <$> ts) = [] ↔ filter (λ t, f t ≠ []) ts = [].
Proof.
  induction ts as [|t ts IH]; [done|]. rewrite filter_cons. csimpl.
  destruct (decide (f t = [])) as [E|E].
  - rewrite decide_False by tauto. rewrite <-IH, E. done.
  - rewrite decide_True by done. split; [|done]. by intros [? _]%app_nil.
Qed.

Lemma job_initial : job O (mkSystem (MakeCoordinator input nRed) fs0 (-1)).
Proof.
  constructor; simpl; try done.
  - exists []. split; [apply after_initial; lia|]. constructor.
  - intros t i Ht. lia.
  - intros r Hr. rewrite decide_False; [done|]. lia.
Qed.

(** One iteration, from what the coordinator and the task return. *)
Lemma iter_run clock s c1 c2 fs' outs reply rep :
  AskTask clock (sy_coord s) (mkAskTaskArgs (sy_id s)) = Ret (c1, reply) →
  ar_TaskId reply ≠ -1 →
  do_task sort writable mapf reducef (ar_Id reply) reply (sy_fs s) = Ret (fs', outs) →
  TaskDone c1 (mkTaskDoneArgs (ar_Id reply) (ar_TaskType reply) (ar_TaskId reply) outs) =
    Ret (c2, rep, None) →
  worker_iter sort writable mapf reducef Up Up clock s =
    Ret (inl (mkSystem c2 fs' (ar_Id reply))).
Proof.
  intros E Hid Hd Ht. unfold worker_iter. simpl. rewrite E. simpl.
  rewrite (proj2 (Z.eqb_neq _ _)) by done. rewrite Hd. simpl. unfold WorkDone. simpl.
  by rewrite Ht.
Qed.

Lemma job_worker_id k s :
  job k s → (ask_id (sy_coord s) (mkAskTaskArgs (sy_id s))).1 = 0.
Proof.
  intros Hj. destruct (jb_id _ _ Hj) as [Hid Hw]. unfold ask_id. simpl. rewrite Hid.
  destruct (decide (k = O)); simpl; auto.
Qed.

Lemma log_ok_map k l args :
  (k < length input)%nat → log_ok k l →
  (∀ i, da_Files args !! i = reported nRed 0 (Z.of_nat k) (pairs k) i) →
  log_ok (S k) (next_log input k args l).
Proof.
  intros Hk Hl Ha. unfold log_ok, next_log in *. rewrite decide_True by done.
  rewrite Nat.min_l in * by lia. rewrite seq_S. apply Forall2_app; [done|]. by constructor.
Qed.

Lemma log_ok_reduce k l args :
  (length input ≤ k)%nat → log_ok k l → log_ok (S k) (next_log input k args l).
Proof.
  intros Hk Hl. unfold log_ok, next_log in *. rewrite decide_False by lia.
  by rewrite Nat.min_r in * by lia.
Qed.

Lemma job_map clock k s :
  job k s → (k < length input)%nat →
  ∃ s', worker_iter sort writable mapf reducef Up Up clock s = Ret (inl s') ∧ job (S k) s'.
Proof.
  intros Hj Hk. destruct (jb_log _ _ Hj) as (l & Ha & Hl). pose proof (job_worker_id _ _ Hj) as Hwid.
  destruct (round_ask input nRed clock _ (mkAskTaskArgs (sy_id s)) k l Ha) as
    (t & t' & reply & Ht & E & Hr & -> & Hid); [lia..|]. rewrite Hwid in Hid.
  destruct (lookup_lt_is_Some_2 input k Hk) as [f Hf].
  destruct Hr as [HN Hr]. rewrite Hf in Hr. destruct Hr as (Hty & Htid & Hfl).
  pose proof (jb_input _ _ Hj) as Hin. pose proof (proj1 (Forall_lookup _ _) Hin _ _ Hf) as Hfc.
  destruct (map_task_run (ar_Id reply) reply f (content f) (sy_fs s))
    as (fs' & outs & Hm & Ho & Hw & Hn); [lia|lia|lia|done|done|].
  assert (pairs k = mf f (content f)) as Hpk by (unfold pairs; by rewrite Hf).
  rewrite Htid, HN, Hid, <-Hpk in *.
  set (args := mkTaskDoneArgs 0 (ar_TaskType reply) (Z.of_nat k) outs).
  destruct (round_done input nRed (sy_coord s) k l t (clock (Z.of_nat k)).2 args (mkAskTaskArgs (sy_id s)))
    as (c2 & Hdone & Ha2); [done|done|lia|done|unfold round_report; by rewrite Hf|].
  exists (mkSystem c2 fs' 0). split.
  { rewrite <-Hid. eapply iter_run; [done|lia| |]; rewrite ?Hid, ?Htid; [|done].
    unfold do_task. rewrite Hty. done. }
  constructor; simpl.
  - eexists. split; [done|]. by apply log_ok_map.
  - done.
  - rewrite Forall_forall in *. intros g Hg. rewrite Hn; [by apply Hin|].
    intros j. rewrite Ho. intros (_ & E')%reported_Some. revert E'. apply plain_map_file. by apply input_plain.
  - intros u i Hu Hi Hb. destruct (decide (u = k)) as [->|Hne]; [by apply Hw|].
    rewrite Hn; [by apply (jb_inter _ _ Hj); [lia|..]|]. intros j. rewrite Ho.
    intros (_ & (_ & ? & _)%map_file_inj)%reported_Some; lia.
  - intros r Hr0. rewrite Hn by (intros j; rewrite Ho; by intros (_ & E')%reported_Some).
    rewrite (jb_out _ _ Hj) by done. rewrite !decide_False; [done|lia..].
Qed.

Lemma job_reduce clock k s :
  job k s → (length input ≤ k)%nat → Z.of_nat k < m + nRed →
  ∃ s', worker_iter sort writable mapf reducef Up Up clock s = Ret (inl s') ∧ job (S k) s'.
Proof.
  intros Hj Hge Hk. destruct (jb_log _ _ Hj) as (l & Ha & Hl). pose proof (job_worker_id _ _ Hj) as Hwid.
  destruct (round_ask input nRed clock _ (mkAskTaskArgs (sy_id s)) k l Ha) as
    (t & t' & reply & Ht & E & Hr & -> & Hid); [lia..|]. rewrite Hwid in Hid.
  destruct Hr as [HN Hr]. rewrite lookup_ge_None_2 in Hr by done. destruct Hr as (Hty & Htid & Hfl).
  set (r := Z.of_nat k - m) in *. set (ts := seq 0 (length input)).
  unfold log_ok in Hl. rewrite Nat.min_r in Hl by done. fold ts in Hl.
  rewrite (contributions_spec l ts) in Hfl by (done || lia).
  set (ts' := filter (λ t, bucket_of nRed r (pairs t) ≠ []) ts) in *.
  assert (concat (bucket_of nRed r <$> (pairs <$> ts')) = bucket_of nRed r emitted) as Hall.
  { rewrite emitted_pairs, bucket_concat, <-!list_fmap_compose. apply concat_filter. }
  assert (∃ fs' outs, do_task sort writable mapf reducef 0 reply (sy_fs s) = Ret (fs', outs) ∧
    fs' !! reduce_file r = (if decide (bucket_of nRed r emitted ≠ [])
      then Some (file_of (lines rf (sort _ byKey (bucket_of nRed r emitted))))
      else sy_fs s !! reduce_file r) ∧
    ∀ nm, nm ≠ reduce_file r → nm ≠ reduce_tmp 0 r → fs' !! nm = sy_fs s !! nm)
    as (fs' & outs & Hdo & Hfr & Hn).
  { unfold do_task. rewrite Hty. simpl. destruct (decide (ts' = [])) as [Hnil|Hne].
    - exists (sy_fs s), ∅. rewrite Hnil in Hall. simpl in Hall. rewrite <-Hall.
      unfold reduce_task. rewrite Hfl, Hnil. simpl. done.
    - rewrite (reduce_task_run 0 reply (bucket_of nRed r <$> (pairs <$> ts'))); [|rewrite Hfl; by intros ?%fmap_nil_inv|].
      2: { rewrite Hfl, <-list_fmap_compose. apply Forall2_fmap, Forall_Forall2_diag, Forall_forall.
        intros u [Hu Hin]%list_elem_of_filter. apply elem_of_seq in Hin. split.
        - apply (jb_inter _ _ Hj); [lia|lia|done].
        - simpl. unfold bucket_of. apply Forall_filter_keep. unfold pairs. case_match; [|constructor].
          apply mf_safe. }
      eexists _, _. split; [done|]. rewrite Htid, Hall. split.
      2: { intros nm ??. by rewrite lookup_insert_ne, lookup_delete_ne by done. }
      rewrite lookup_insert_eq, decide_True; [done|]. intros Hb. apply Hne. unfold ts'. apply concat_nil. rewrite <-Hall, <-list_fmap_compose in Hb.
      by rewrite <-concat_filter. }
  set (args := mkTaskDoneArgs 0 (ar_TaskType reply) (ar_TaskId reply) outs).
  destruct (round_done input nRed (sy_coord s) k l t (clock (Z.of_nat k)).2 args (mkAskTaskArgs (sy_id s)))
    as (c2 & Hdone & Ha2); [done|done|lia|done| |].
  { unfold round_report. by rewrite lookup_ge_None_2. }
  exists (mkSystem c2 fs' 0). split.
  { rewrite <-Hid. eapply iter_run; [done|lia| |]; rewrite ?Hid; done. }
  assert (0 ≤ r) by lia. constructor; simpl.
  - eexists. split; [done|]. apply log_ok_reduce; [done|]. unfold log_ok. by rewrite Nat.min_r.
  - done.
  - pose proof (jb_input _ _ Hj) as Hin. rewrite Forall_forall in *. intros g Hg.
    rewrite Hn; [by apply Hin|apply plain_reduce_file|apply plain_reduce_tmp]; by apply input_plain.
  - intros u i Hu Hi Hb. rewrite Hn.
    + destruct (decide (u = k)) as [->|]; [|by apply (jb_inter _ _ Hj); [lia|..]].
      unfold pairs in Hb. by rewrite lookup_ge_None_2 in Hb.
    + apply tmp_out.
    + apply map_file_reduce_tmp; lia.
  - intros r' Hr'. destruct (decide (r' = r)) as [->|Hne].
    + rewrite Hfr. rewrite (jb_out _ _ Hj) by done. rewrite (decide_False (P := _ ∧ _)) by lia.
      apply decide_ext. unfold r. split; [split; [lia|done]|by intros [_ ?]].
    + rewrite Hn; [|intros ?%reduce_file_inj; lia|apply not_eq_sym, tmp_out].
      rewrite (jb_out _ _ Hj) by done. apply decide_ext.
      assert (m + r' < Z.of_nat k ↔ m + r' < Z.of_nat (S k)) as ->; [lia|done].
Qed.

(** The calls of iteration [i] go through. *)
Definition up (nets : nat → net * net) (i : nat) : Prop := nets i = (Up, Up).

Lemma worker_runs n k nets clock s :
  job k s → Z.of_nat k + Z.of_nat n = m + nRed → (∀ i, (i < n)%nat → up nets i) →
  ∃ s', iterations sort writable mapf reducef n nets clock s = Ret (inl s') ∧ job (k + n) s'.
Proof.
  revert k nets clock s. induction n as [|n IH]; intros k nets clock s Hj Hn Hup.
  - exists s. by rewrite Nat.add_0_r.
  - assert (∃ s1, worker_iter sort writable mapf reducef Up Up (clock O) s = Ret (inl s1) ∧ job (S k) s1)
      as (s1 & E & Hj1).
    { destruct (decide (k < length input)%nat); [by apply job_map|apply job_reduce; [done|lia|lia]]. }
    destruct (IH (S k) (λ i, nets (S i)) (λ i, clock (S i)) s1 Hj1) as (s' & Es & Hj'); [lia|intros i Hi; apply Hup; lia|].
    exists s'. cbn [iterations]. rewrite (Hup O) by lia. cbn [fst snd]. rewrite E. cbn. split; [done|]. by rewrite Nat.add_succ_r.
Qed.

(** When the job is done there is nothing to hand out. *)
Lemma done_ask k s clock :
  job k s → Z.of_nat k = m + nRed → AskTask clock (sy_coord s) (mkAskTaskArgs (sy_id s)) = Ret (sy_coord s, blank 0).
Proof.
  intros Hj Hk. destruct (jb_log _ _ Hj) as (l & Ha & _). pose proof (af_idle _ _ _ _ _ Ha) as Hidle.
  destruct (jb_id _ _ Hj) as [Hid _]. rewrite decide_False in Hid by lia.
  assert (ask_id (sy_coord s) (mkAskTaskArgs (sy_id s)) = (0, sy_coord s)) as Hask by (unfold ask_id; by rewrite Hid).
  destruct (AskTask_branches clock _ (mkAskTaskArgs (sy_id s)) Hidle) as [[-> _]|(j & t & Hj' & Ht & Hd & _)];
    [by rewrite Hask|]. exfalso.
  pose proof (ask_range_bounds _ Hidle) as Hb. rewrite (af_nMap _ _ _ _ _ Ha), (af_nReduce _ _ _ _ _ Ha) in Hb.
  destruct (af_task _ _ _ _ _ Ha _ _ Ht) as (_ & Hdone & _). rewrite Hdone in Hd.
  apply bool_decide_eq_false in Hd. lia.
Qed.

Lemma done_iter k s n1 n2 clock :
  job k s → Z.of_nat k = m + nRed →
  worker_iter sort writable mapf reducef n1 n2 clock s = if decide (n1 = Up) then Ret (inl s) else Fatal.
Proof.
  intros Hj Hk. unfold worker_iter. pose proof (done_ask k s clock Hj Hk) as Hask.
  destruct (jb_id _ _ Hj) as [Hid _]. rewrite decide_False in Hid by lia.
  destruct n1; cbn [call]; rewrite ?Hask; try done. cbn. rewrite <-Hid. by destruct s.
Qed.

Lemma done_iterations n k nets clock s :
  job k s → Z.of_nat k = m + nRed → (∀ i, (i < n)%nat → up nets i) →
  iterations sort writable mapf reducef n nets clock s = Ret (inl s).
Proof.
  revert nets clock. induction n as [|n IH]; intros nets clock Hj Hk Hup; [done|]. cbn [iterations].
  rewrite (Hup O), (done_iter k) by (done || lia). cbn. apply IH; [done..|]. intros i Hi. apply Hup. lia.
Qed.

Lemma iterations_up_fuel n nets clock s s1 :
  iterations sort writable mapf reducef n nets clock s = Ret (inl s1) →
  ∀ fuel, (fuel ≤ n)%nat → Worker sort writable mapf reducef fuel nets clock s = NoFuel.
Proof.
  revert nets clock s. induction n as [|n IH]; intros nets clock s H fuel Hf; simpl in *.
  - by replace fuel with O by lia.
  - destruct fuel as [|fuel]; [done|]. simpl.
    destruct (worker_iter _ _ _ _) as [[s'|s']| | | |] eqn:E; simpl in *; try done. eapply IH; [done|lia].
Qed.

Lemma after_done k l c :
  after input nRed k l c → Z.of_nat k = m + nRed → Done c = Ret true.
Proof.
  intros Ha Hk. unfold Done. pose proof (id_length _ (af_idle _ _ _ _ _ Ha)) as Hl.
  rewrite (af_nMap _ _ _ _ _ Ha), (af_nReduce _ _ _ _ _ Ha) in Hl.
  assert (∀ j t, tasks c !! j = Some t → taskLock t = false ∧ done t = true) as Ht.
  { intros j t Hj. split; [by eapply (id_lock _ (af_idle _ _ _ _ _ Ha))|].
    destruct (af_task _ _ _ _ _ Ha _ _ Hj) as (_ & -> & _). apply bool_decide_true.
    apply lookup_lt_Some in Hj. lia. }
  clear -Ht. induction (tasks c) as [|t ts IH]; [done|]. simpl.
  destruct (Ht O t eq_refl) as [-> ->]. simpl. apply IH. intros j t' Hj. by apply (Ht (S j)).
Qed.

Lemma map_files_run names acc :
  Forall (λ f, fs0 !! f = Some (content f)) names →
  map_files mapf names fs0 acc = Ret (acc ++ concat ((λ f, mf f (content f)) <$> names)).
Proof.
  intros HF. revert acc. induction HF as [|f names Hf _ IH]; intros acc; csimpl.
  - by rewrite app_nil_r.
  - rewrite Hf. simpl. by rewrite IH, <-app_assoc.
Qed.

Lemma mrsequential_run :
  writable "mr-out-0" = true →
  mrsequential sort writable mapf reducef input fs0 =
    Ret (<["mr-out-0" := file_of (lines rf (sort _ byKey emitted))]> fs0).
Proof.
  intros Hw. unfold mrsequential. rewrite map_files_run by done. simpl. fold emitted.
  rewrite <-reduce_loops_agree, reduce_output_pure. simpl. by rewrite Hw.
Qed.

(** C13 End to end: one worker against a fresh coordinator whose calls go through
    for the first [n] iterations, at least one for each task: the job is then done,
    [mr-out-r.txt] holds the reduced lines of the pairs whose key hashes to [r], and
    the iterations beyond one for each task have changed nothing.  The worker itself
    does not notice: it goes on polling and ends, with [log.Fatal], in the first
    iteration that does not reach the coordinator; if there is none it never
    returns.  The sequential program writes the reduced lines of all pairs. *)
Theorem single_worker_job clock nets n :
  m + nRed ≤ Z.of_nat n → (∀ i, (i < n)%nat → up nets i) →
  let s0 := mkSystem (MakeCoordinator input nRed) fs0 (-1) in
  let run := Worker sort writable mapf reducef in
  (∃ s, iterations sort writable mapf reducef (Z.to_nat (m + nRed)) nets clock s0 = Ret (inl s) ∧
     iterations sort writable mapf reducef n nets clock s0 = Ret (inl s) ∧
     Done (sy_coord s) = Ret true ∧
     (∀ r, 0 ≤ r < nRed → bucket_of nRed r emitted ≠ [] →
        sy_fs s !! reduce_file r =
          Some (file_of (lines rf (sort _ byKey (bucket_of nRed r emitted)))))) ∧
  ((nets n).1 ≠ Up → ∀ fuel, run (S n + fuel)%nat nets clock s0 = Fatal) ∧
  ((∀ i, up nets i) → ∀ fuel, run fuel nets clock s0 = NoFuel) ∧
  mrsequential sort writable mapf reducef input fs0 =
    Ret (<["mr-out-0" := file_of (lines rf (sort _ byKey emitted))]> fs0).
Proof.
  intros Hn Hup s0 run. set (t := Z.to_nat (m + nRed)).
  destruct (worker_runs t O nets clock s0 job_initial) as (s & E & Hj); [lia|intros i Hi; apply Hup; lia|].
  assert (Z.of_nat (O + t) = m + nRed) as Ht by lia.
  assert (∀ k, (∀ i, (i < t + k)%nat → up nets i) →
    iterations sort writable mapf reducef (t + k) nets clock s0 = Ret (inl s)) as Hall.
  { intros k Hk. rewrite (iterations_app _ _ _ _ _ k _ _ _ _ E). eapply done_iterations; [done..|].
    intros i Hi. apply Hk. lia. }
  assert (iterations sort writable mapf reducef n nets clock s0 = Ret (inl s)) as En.
  { specialize (Hall (n - t)%nat). replace (t + (n - t))%nat with n in Hall by lia. auto. }
  destruct (jb_log _ _ Hj) as (l & Ha & _). split_and!.
  - exists s. split_and!; [done..| |].
    + eapply after_done; [done|lia].
    + intros r Hr Hb. rewrite (jb_out _ _ Hj) by lia. apply decide_True. split; [lia|done].
  - intros Hdown fuel. unfold run. change (S n + fuel)%nat with (S (n + fuel))%nat. rewrite <-Nat.add_succ_r.
    rewrite (Worker_iterations _ _ _ _ n _ _ _ _ _ En). cbn [Worker]. rewrite Nat.add_0_r.
    by rewrite (done_iter _ _ _ _ _ Hj Ht), decide_False.
  - intros Hever fuel. eapply iterations_up_fuel; [apply (Hall fuel); auto|lia].
  - apply mrsequential_run, all_writable.
Qed.
End run.
End tasks.

(** ** A codec, and a job with it *)
Section example.
Fixpoint bits (p : positive) : string :=
  match p with
  | xH => ""
  | xO p => String "0"%char (bits p)
  | xI p => String "1"%char (bits p)
  end.
Fixpoint unbits (s : string) : positive :=
  match s with
  | EmptyString => xH
  | String c s => if decide (c = "1"%char) then xI (unbits s) else xO (unbits s)
  end.
Lemma unbits_bits p : unbits (bits p) = p.
Proof. induction p as [p IH|p IH|]; simpl; by rewrite ?IH. Qed.

Definition pair_of (kv : KeyValue) : string * string := (Key kv, Value kv).
Definition kv_of (p : string * string) : KeyValue := mkKeyValue p.1 p.2.
Lemma kv_of_pair (l : list KeyValue) : kv_of <$> (pair_of <$> l) = l.
Proof. induction l as [|[k v] l IH]; csimpl; by rewrite ?IH. Qed.

#[refine] Instance bits_codec : Codec := {
  encode l := bits (countable.encode (pair_of <$> l));
  decode s := (λ l : list (string * string), kv_of <$> l) <$> countable.decode (unbits s);
  json_safe _ := True;
}.
Proof. intros l _. rewrite unbits_bits, countable.decode_encode. simpl. by rewrite kv_of_pair. Defined.

Definition ex_mf (f c : string) : list KeyValue := [mkKeyValue c f; mkKeyValue "b" f].
Definition ex_rf (k : string) (vs : list string) : string := Itoa (Z.of_nat (List.length vs)).
Definition ex_content (f : string) : string := if decide (f = "in1") then "a" else "b".
Definition ex_fs : filesystem := {["in1" := "a"; "in2" := "b"]}.

(** Two inputs, three reduce tasks; the coordinator is gone after 7 iterations. *)
Definition ex_nets (i : nat) : net * net := if decide (i < 7)%nat then (Up, Up) else (NoDial, NoDial).
Example ex_output :
  (s ← iterations insertion_sort (λ _, true) (λ f c, Ret (ex_mf f c)) (λ k vs, Ret (ex_rf k vs)) 5 ex_nets
        (λ _ _, (0, 0)) (mkSystem (MakeCoordinator ["in1"; "in2"] 3) ex_fs (-1));
  match s with
  | inl s => Ret (sy_fs s !! reduce_file 0, sy_fs s !! reduce_file 1, sy_fs s !! reduce_file 2)
  | inr _ => Fatal
  end) = Ret (None, None, Some (line "a" "1" +:+ line "b" "3")).
Proof. vm_compute. reflexivity. Qed.

Lemma single_worker_job_witness :
  let s0 := mkSystem (MakeCoordinator ["in1"; "in2"] 3) ex_fs (-1) in
  (∃ s, iterations insertion_sort (λ _, true) (λ f c, Ret (ex_mf f c)) (λ k vs, Ret (ex_rf k vs)) 7 ex_nets
         (λ _ _, (0, 0)) s0 = Ret (inl s) ∧
    Done (sy_coord s) = Ret true ∧
    (∀ r, 0 ≤ r < 3 → bucket_of 3 r (emitted ex_mf ["in1"; "in2"] ex_content) ≠ [] →
       sy_fs s !! reduce_file r = Some (file_of (lines ex_rf
         (insertion_sort _ byKey (bucket_of 3 r (emitted ex_mf ["in1"; "in2"] ex_content))))))) ∧
  Worker insertion_sort (λ _, true) (λ f c, Ret (ex_mf f c)) (λ k vs, Ret (ex_rf k vs)) 8 ex_nets (λ _ _, (0, 0)) s0 = Fatal.
Proof.
  destruct (single_worker_job (λ _, true) ltac:(done) insertion_sort ex_mf ex_rf ["in1"; "in2"] 3
    ex_content ex_fs ltac:(done) ltac:(done) ltac:(repeat constructor) ltac:(repeat constructor)
    ltac:(intros f; repeat constructor) (λ _ _, (0, 0)) ex_nets 7) as ((s & _ & H1 & H2 & H3) & H4 & _).
  - done.
  - intros i Hi. unfold up, ex_nets. by rewrite decide_True.
  - split; [exists s; exact (conj H1 (conj H2 H3))|]. change 8%nat with (S 7 + 0)%nat. apply H4. discriminate.
Defined.

Lemma do_task_spec_witness :
  let work := mkAskTaskReply 0 1 0 ["in1"] 3 in
  ∃ fs' outs, do_task insertion_sort (λ _, true) (λ f c, Ret (ex_mf f c)) (λ k vs, Ret (ex_rf k vs)) 0 work ex_fs =
      Ret (fs', outs) ∧
    (∀ i file, outs !! i = Some file → fs' !! file = Some (encode (bucket_of 3 i [mkKeyValue "a" "in1"; mkKeyValue "b" "in1"]))) ∧
    (∀ file, (∀ i, outs !! i ≠ Some file) → fs' !! file = ex_fs !! file).
Proof.
  destruct (do_task_spec (λ _, true) ltac:(done) insertion_sort ex_mf ex_rf 0 (mkAskTaskReply 0 1 0 ["in1"] 3) ex_fs
    ltac:(done) ltac:(done) ltac:(done)) as [Hmap _].
  destruct (Hmap eq_refl "in1" eq_refl) as (fs' & outs & H1 & _ & H2 & H3).
  exists fs', outs. exact (conj H1 (conj H2 H3)).
Defined.

End example.
