(* ===== verification/Cluster.v ===== *)
(** * Several workers at once

    The coordinator's threads, the file system and any number of worker
    processes (src/Lab02/src/mr/worker.go, coordinator.go), interleaved.  A
    worker is at a point of the loop of [Worker]; its RPCs are threads of the
    coordinator; a file is created and written in two steps, so that another
    process may see it empty.  A process can stop at any point: a crash of
    [mapf] or [reducef], [log.Fatal], a failed call, [os.Exit]. *)
From S2P Require Import Prelude GoStrings Coordinator Worker.

Section cluster.
Context {HC : Codec}.
Context (sort : ∀ A, (A → A → bool) → list A → list A).
Context (writable : string → bool).
Context (mapf : string → string → go (list KeyValue)) (reducef : string → list string → go string).

(** [Asking k] and [Waiting k]: the call is thread [k] of the coordinator. *)
Inductive stage :=
| Idle
| Asking (k : nat)
| Started (work : AskTaskReply)
| Mapping (work : AskTaskReply) (outputLists : gmap Z (list KeyValue)) (i : Z) (outputFiles : gmap Z string)
| Encoding (work : AskTaskReply) (outputLists : gmap Z (list KeyValue)) (i : Z)
    (data : list KeyValue) (outputFiles : gmap Z string)
| Reading (work : AskTaskReply) (names : list string) (contentData : list KeyValue)
| Reducing (work : AskTaskReply) (contentData : list KeyValue)
| Renaming (work : AskTaskReply)
| Reporting (work : AskTaskReply) (outputFiles : gmap Z string)
| Waiting (k : nat)
| Exited.

(** A step of the [switch]: worker [id] reads or writes one file. *)
Definition task_step (id : Z) (fs : filesystem) (st : stage) : go (filesystem * stage) :=
  match st with
  | Started work =>
      if ar_TaskType work =? 1 then
        name ← index (ar_Files work) 0;
        match fs !! name with
        | None => Fatal
        | Some fileContent =>
            mapResult ← mapf name fileContent;
            outputLists ← bucket (ar_NReduce work) mapResult ∅;
            mret (fs, Mapping work outputLists 0 ∅)
        end
      else if ar_TaskType work =? 2 then
        if decide (ar_Files work = []) then mret (fs, Reporting work ∅)
        else mret (fs, Reading work (ar_Files work) [])
      else mret (fs, Reporting work ∅)
  | Mapping work outputLists i outputFiles =>
      if i <? ar_NReduce work then
        match outputLists !! i with
        | Some data =>
            let name := map_file id (ar_TaskId work) i in
            fs ← os_Create writable fs name;
            mret (fs, Encoding work outputLists i data (<[i := name]> outputFiles))
        | None => mret (fs, Mapping work outputLists (i + 1) outputFiles)
        end
      else mret (fs, Reporting work outputFiles)
  | Encoding work outputLists i data outputFiles =>
      mret (WriteString fs (map_file id (ar_TaskId work) i) (encode data),
            Mapping work outputLists (i + 1) outputFiles)
  | Reading work (name :: names) contentData =>
      match fs !! name with
      | None => Fatal
      | Some content =>
          match decode content with
          | None => Fatal
          | Some kVL => mret (fs, Reading work names (contentData ++ kVL))
          end
      end
  | Reading work [] contentData =>
      let contentData := sort _ byKey contentData in
      fs ← os_Create writable fs (reduce_tmp id (ar_TaskId work));
      mret (fs, Reducing work contentData)
  | Reducing work contentData =>
      out ← reduce_output reducef contentData;
      mret (WriteString fs (reduce_tmp id (ar_TaskId work)) out, Renaming work)
  | Renaming work =>
      let outputFile := reduce_file (ar_TaskId work) in
      mret (Rename fs (reduce_tmp id (ar_TaskId work)) outputFile, Reporting work {[0 := outputFile]})
  | Idle | Asking _ | Reporting _ _ | Waiting _ | Exited => Blocked
  end.

Record worker := mkWorker { wk_id : Z; wk_stage : stage }.
Record cluster := mkCluster { cl_world : world; cl_fs : filesystem; cl_workers : list worker }.

(** What the loop does with the answers of the two calls. *)
Definition answered (work : AskTaskReply) : worker :=
  mkWorker (ar_Id work) (if ar_TaskId work =? -1 then Idle else Started work).
Definition acknowledged (id : Z) (err : option string) : worker :=
  mkWorker id (match err with None => Idle | Some _ => Exited end).

Definition ask_of (id : Z) : thread := AskCalled (mkAskTaskArgs id).
Definition report_of (id : Z) (work : AskTaskReply) (outs : gmap Z string) : TaskDoneArgs :=
  mkTaskDoneArgs id (ar_TaskType work) (ar_TaskId work) outs.

Inductive cstep : cluster → cluster → Prop :=
| cs_join w fs ws : cstep (mkCluster w fs ws) (mkCluster w fs (ws ++ [mkWorker (-1) Idle]))
| cs_ask c ths l fs ws i id :
    ws !! i = Some (mkWorker id Idle) →
    cstep (mkCluster (mkWorld c ths l) fs ws)
      (mkCluster (mkWorld c (ths ++ [ask_of id]) l) fs (<[i := mkWorker id (Asking (length ths))]> ws))
| cs_serve c ths l fs ws k th c' th' since now :
    ths !! k = Some th → thread_step since now c th = Ret (c', th') →
    cstep (mkCluster (mkWorld c ths l) fs ws)
      (mkCluster (mkWorld c' (<[k := th']> ths) (log_step th l)) fs ws)
| cs_answer w fs ws i id k reply :
    ws !! i = Some (mkWorker id (Asking k)) → threads w !! k = Some (AskReturned reply) →
    cstep (mkCluster w fs ws) (mkCluster w fs (<[i := answered reply]> ws))
| cs_task w fs ws i id st fs' st' :
    ws !! i = Some (mkWorker id st) → task_step id fs st = Ret (fs', st') →
    cstep (mkCluster w fs ws) (mkCluster w fs' (<[i := mkWorker id st']> ws))
| cs_report c ths l fs ws i id work outs :
    ws !! i = Some (mkWorker id (Reporting work outs)) →
    cstep (mkCluster (mkWorld c ths l) fs ws)
      (mkCluster (mkWorld c (ths ++ [DoneCalled (report_of id work outs)]) l) fs
         (<[i := mkWorker id (Waiting (length ths))]> ws))
| cs_acked w fs ws i id k reply err :
    ws !! i = Some (mkWorker id (Waiting k)) → threads w !! k = Some (DoneReturned reply err) →
    cstep (mkCluster w fs ws) (mkCluster w fs (<[i := acknowledged id err]> ws))
| cs_stop w fs ws i id st :
    ws !! i = Some (mkWorker id st) →
    cstep (mkCluster w fs ws) (mkCluster w fs (<[i := mkWorker id Exited]> ws)).

Definition cluster_initial (input : list string) (nRed : Z) (fs0 : filesystem) : cluster :=
  mkCluster (initial input nRed) fs0 [].
Definition cluster_reachable (input : list string) (nRed : Z) (fs0 : filesystem) (s : cluster) : Prop :=
  rtc cstep (cluster_initial input nRed fs0) s.

(** ** Executable schedules *)
Inductive move :=
| MvJoin | MvAsk (i : nat) | MvServe (k : nat) (since now : Z) | MvAnswer (i : nat) | MvTask (i : nat)
| MvReport (i : nat) | MvAcked (i : nat) | MvStop (i : nat).

Definition cmove (m : move) (s : cluster) : option cluster :=
  let '(mkCluster (mkWorld c ths l as w) fs ws) := s in
  match m with
  | MvJoin => Some (mkCluster w fs (ws ++ [mkWorker (-1) Idle]))
  | MvAsk i =>
      match ws !! i with
      | Some (mkWorker id Idle) =>
          Some (mkCluster (mkWorld c (ths ++ [ask_of id]) l) fs
                  (<[i := mkWorker id (Asking (length ths))]> ws))
      | _ => None
      end
  | MvServe k since now =>
      th ← ths !! k;
      match thread_step since now c th with
      | Ret (c', th') => Some (mkCluster (mkWorld c' (<[k := th']> ths) (log_step th l)) fs ws)
      | _ => None
      end
  | MvAnswer i =>
      match ws !! i with
      | Some (mkWorker id (Asking k)) =>
          match ths !! k with
          | Some (AskReturned reply) => Some (mkCluster w fs (<[i := answered reply]> ws))
          | _ => None
          end
      | _ => None
      end
  | MvTask i =>
      match ws !! i with
      | Some (mkWorker id st) =>
          match task_step id fs st with
          | Ret (fs', st') => Some (mkCluster w fs' (<[i := mkWorker id st']> ws))
          | _ => None
          end
      | None => None
      end
  | MvReport i =>
      match ws !! i with
      | Some (mkWorker id (Reporting work outs)) =>
          Some (mkCluster (mkWorld c (ths ++ [DoneCalled (report_of id work outs)]) l) fs
                  (<[i := mkWorker id (Waiting (length ths))]> ws))
      | _ => None
      end
  | MvAcked i =>
      match ws !! i with
      | Some (mkWorker id (Waiting k)) =>
          match ths !! k with
          | Some (DoneReturned _ err) => Some (mkCluster w fs (<[i := acknowledged id err]> ws))
          | _ => None
          end
      | _ => None
      end
  | MvStop i =>
      match ws !! i with
      | Some (mkWorker id _) => Some (mkCluster w fs (<[i := mkWorker id Exited]> ws))
      | None => None
      end
  end.

Definition cmoves (ms : list move) (s : cluster) : option cluster :=
  foldl (λ o m, o ≫= cmove m) (Some s) ms.

Lemma cmove_sound m s s' : cmove m s = Some s' → cstep s s'.
Proof.
  destruct s as [[c ths l] fs ws], m; simpl; intros H; repeat (case_match; simplify_eq/=); simplify_option_eq;
    try (econstructor; by eauto).
  repeat case_match; simplify_eq. by econstructor.
Qed.

Lemma cmoves_none ms : foldl (λ o m, o ≫= cmove m) None ms = None.
Proof. by induction ms. Qed.

Lemma cmoves_reachable ms s s' : cmoves ms s = Some s' → rtc cstep s s'.
Proof.
  unfold cmoves. revert s. induction ms as [|m ms IH]; intros s; simpl; [by intros [= ->]|].
  destruct (cmove m s) as [s1|] eqn:E; [|by rewrite cmoves_none]. intros H.
  eapply rtc_l; [by eapply cmove_sound|]. by apply IH.
Qed.
End cluster.
