(* ===== verification/ClusterProof.v ===== *)
(** * Several workers: the steps of a task are its sequential code *)
From S2P Require Import Prelude GoStrings Coordinator CoordinatorProof CoordinatorSeq Worker Grouping Job Cluster.

(** ** The steps of a task are [do_task] *)
Section task.
Context {HC : Codec}.
Context (sort : ∀ A, (A → A → bool) → list A → list A).
Context (writable : string → bool).
Context (mapf : string → string → go (list KeyValue)) (reducef : string → list string → go string).
Abbreviation task_step := (task_step sort writable mapf reducef).

Definition tstep (id : Z) (x y : filesystem * stage) : Prop := task_step id x.1 x.2 = Ret y.

(** The task a worker works on. *)
Definition stage_work (st : stage) : option AskTaskReply :=
  match st with
  | Started work | Mapping work _ _ _ | Encoding work _ _ _ _ | Reading work _ _
  | Reducing work _ | Renaming work => Some work
  | Idle | Asking _ | Reporting _ _ | Waiting _ | Exited => None
  end.

(** What is left of the task, in the terms of the sequential code. *)
Definition finish_reduce (id : Z) (work : AskTaskReply) (fs : filesystem) (contentData : list KeyValue)
    : go (filesystem * gmap Z string) :=
  let contentData := sort _ byKey contentData in
  let tmpName := reduce_tmp id (ar_TaskId work) in
  fs ← os_Create writable fs tmpName;
  out ← reduce_output reducef contentData;
  let outputFile := reduce_file (ar_TaskId work) in
  mret (Rename (WriteString fs tmpName out) tmpName outputFile, {[0 := outputFile]}).

Definition finish (id : Z) (fs : filesystem) (st : stage) : go (filesystem * gmap Z string) :=
  match st with
  | Started work => do_task sort writable mapf reducef id work fs
  | Mapping work ol i outs =>
      write_buckets writable (Z.to_nat (ar_NReduce work - i)) i id (ar_TaskId work) ol fs outs
  | Encoding work ol i data outs =>
      write_buckets writable (Z.to_nat (ar_NReduce work - (i + 1))) (i + 1) id (ar_TaskId work) ol
        (WriteString fs (map_file id (ar_TaskId work) i) (encode data)) outs
  | Reading work names contentData =>
      contentData ← read_files names fs contentData;
      finish_reduce id work fs contentData
  | Reducing work contentData =>
      out ← reduce_output reducef contentData;
      let tmpName := reduce_tmp id (ar_TaskId work) in
      mret (Rename (WriteString fs tmpName out) tmpName (reduce_file (ar_TaskId work)),
            {[0 := reduce_file (ar_TaskId work)]})
  | Renaming work =>
      mret (Rename fs (reduce_tmp id (ar_TaskId work)) (reduce_file (ar_TaskId work)),
            {[0 := reduce_file (ar_TaskId work)]})
  | Reporting _ outs => mret (fs, outs)
  | Idle | Asking _ | Waiting _ | Exited => Blocked
  end.

Lemma task_finish_step id fs st work :
  stage_work st = Some work →
  finish id fs st = (r ← task_step id fs st; finish id r.1 r.2).
Proof.
  intros Hw. destruct st as [|k|w|w ol i outs|w ol i data outs|w [|name names] acc|w acc|w|w outs|k|];
    simplify_eq/=; try done.
  - unfold do_task, map_task, reduce_task. destruct (ar_TaskType work =? 1).
    + destruct (index (ar_Files work) 0) as [name| | | |]; simpl; try done. case_match; [|done].
      destruct (mapf name _) as [l| | | |]; simpl; try done.
      destruct (bucket _ _ _) as [ol| | | |]; simpl; try done. by rewrite Z.sub_0_r.
    + destruct (ar_TaskType work =? 2); [|done]. case_decide; [done|]. simpl. done.
  - case_match eqn:Hi.
    + apply Z.ltb_lt in Hi.
      replace (Z.to_nat (ar_NReduce work - i)) with (S (Z.to_nat (ar_NReduce work - (i + 1)))) by lia.
      simpl. destruct (ol !! i); [|done]. unfold os_Create. case_match; [|done]. done.
    + apply Z.ltb_ge in Hi. by replace (Z.to_nat (ar_NReduce work - i)) with O by lia.
  - unfold finish_reduce. unfold os_Create. by case_match.
  - destruct (fs !! name); [|done]. by case_match.
  - by destruct (reduce_output _ _).
Qed.

Lemma stage_work_step id fs st fs' st' work :
  stage_work st = Some work → task_step id fs st = Ret (fs', st') →
  stage_work st' = Some work ∨ ∃ outs, st' = Reporting work outs.
Proof.
  intros Hw H. destruct st as [| | | | |? [|? ?] ?| | | | |]; simplify_eq/=; try done;
    repeat (case_match; simplify_go); simplify_go; eauto.
Qed.

(** The steps that are left, the first one not counted. *)
Definition stage_size (st : stage) : nat :=
  match st with
  | Mapping work _ i _ => S (2 * Z.to_nat (ar_NReduce work - i))
  | Encoding work _ i _ _ => 2 + 2 * Z.to_nat (ar_NReduce work - (i + 1))
  | Reading _ names _ => 3 + length names
  | Reducing _ _ => 2
  | Renaming _ => 1
  | _ => 0
  end.

Lemma stage_size_step id fs st fs' st' work :
  stage_work st = Some work → (∀ w, st ≠ Started w) →
  task_step id fs st = Ret (fs', st') → (stage_size st' < stage_size st)%nat.
Proof.
  intros Hw Hs H. destruct st as [| | | | |? [|? ?] ?| | | | |]; simplify_eq/=; try done;
    repeat (case_match; simplify_go); simplify_go; simpl; try lia; by destruct (Hs work).
Qed.

Lemma finish_run id fs st work fs' outs :
  stage_work st = Some work → (∀ w, st ≠ Started w) →
  finish id fs st = Ret (fs', outs) → rtc (tstep id) (fs, st) (fs', Reporting work outs).
Proof.
  remember (stage_size st) as n eqn:Hn. revert fs st Hn.
  induction (lt_wf n) as [n _ IH]. intros fs st -> Hw Hs H.
  rewrite (task_finish_step _ _ _ _ Hw) in H. apply go_bind_Ret in H as ([fs1 st1] & Hst & H).
  eapply rtc_l; [exact Hst|]. simpl in H.
  destruct (stage_work_step _ _ _ _ _ _ Hw Hst) as [Hw1|[outs1 ->]].
  - pose proof (stage_size_step _ _ _ _ _ _ Hw Hs Hst). eapply IH; [done..| |done].
    intros w ->. destruct st as [| | | | |? [|? ?] ?| | | | |]; simplify_eq/=; try done;
      repeat (case_match; simplify_go); simplify_go; by destruct (Hs work).
  - simplify_go. done.
Qed.

Lemma do_task_runs id work fs fs' outs :
  rtc (tstep id) (fs, Started work) (fs', Reporting work outs) ↔
  do_task sort writable mapf reducef id work fs = Ret (fs', outs).
Proof.
  change (do_task _ _ _ _ id work fs) with (finish id fs (Started work)). split; intros H.
  - assert (∀ x y, rtc (tstep id) x y → stage_work x.2 = Some work ∨ (∃ o, x.2 = Reporting work o) →
      y = (fs', Reporting work outs) → finish id x.1 x.2 = Ret (fs', outs)) as Hgo; [|apply (Hgo (fs, Started work) _ H); [by left|done]].
    clear H. induction 1 as [[fs1 st1]|[fs1 st1] [fs2 st2] y Hs _ IH]; intros Hw Heq; simplify_eq/=; [done|].
    destruct Hw as [Hw|[o ->]]; [|done]. rewrite (task_finish_step _ _ _ _ Hw).
    unfold tstep in Hs. simpl in Hs. rewrite Hs. simpl. apply IH; [|done]. by eapply stage_work_step.
  - rewrite (task_finish_step _ _ _ work) in H by done. apply go_bind_Ret in H as ([fs1 st1] & Hst & H).
    eapply rtc_l; [exact Hst|]. destruct (stage_work_step id fs (Started work) fs1 st1 work eq_refl Hst) as [Hw1|[outs1 ->]].
    + eapply finish_run; [done| |done]. intros w ->. cbn in Hst. repeat (case_match; simplify_go); simplify_go.
    + simplify_go. done.
Qed.

End task.
