(* ===== verification/ClusterIds.v ===== *)
(** * The identities of the workers of a cluster

    Each process gets its own number, each call has its own thread, and a
    report carries the number of the process that made it. *)
From S2P Require Import Prelude Coordinator CoordinatorProof Worker Cluster.

(** The reply an [AskTask] has built so far, and the arguments of a
    [TaskDone] that has not returned. *)
Definition reply_of (th : thread) : option AskTaskReply :=
  match th with AskNumbered r | AskScanning r _ _ _ | AskReturned r => Some r | _ => None end.
Definition report (th : thread) : option TaskDoneArgs :=
  match th with DoneCalled args | DoneMarked args _ | DoneMerging args _ _ => Some args | _ => None end.

(** The number of a process, from when the coordinator has chosen it. *)
Definition eid (ths : list thread) (wk : worker) : Z :=
  match wk_stage wk with
  | Asking k => match ths !! k ≫= reply_of with Some r => ar_Id r | None => wk_id wk end
  | _ => wk_id wk
  end.

(** A stage that only a numbered process reaches. *)
Definition busy (st : stage) : bool :=
  match st with Idle | Asking _ | Exited => false | _ => true end.

Definition asks (id : Z) (th : thread) : Prop :=
  match th with
  | AskCalled args => aa_Id args = id
  | _ => ∃ r, reply_of th = Some r ∧ 0 ≤ ar_Id r ∧ (id = -1 ∨ ar_Id r = id)
  end.

Record ids_ok (c : Coordinator) (ths : list thread) (ws : list worker) : Prop := {
  io_workers : 0 ≤ workers c;
  io_range i wk : ws !! i = Some wk → eid ths wk = -1 ∨ 0 ≤ eid ths wk < workers c;
  io_own i wk : ws !! i = Some wk → wk_id wk = -1 ∨ wk_id wk = eid ths wk;
  io_distinct i j wk wk' : ws !! i = Some wk → ws !! j = Some wk' →
    eid ths wk = eid ths wk' → eid ths wk ≠ -1 → i = j;
  io_asking i wk k : ws !! i = Some wk → wk_stage wk = Asking k →
    ∃ th, ths !! k = Some th ∧ asks (wk_id wk) th;
  io_thread i j wk wk' k : ws !! i = Some wk → ws !! j = Some wk' →
    wk_stage wk = Asking k → wk_stage wk' = Asking k → i = j;
  io_busy i wk : ws !! i = Some wk → busy (wk_stage wk) = true → 0 ≤ wk_id wk;
}.

(** ** Steps of the coordinator *)
Lemma thread_step_id since now c th c' th' :
  thread_step since now c th = Ret (c', th') →
  workers c' = match th with AskCalled args => if aa_Id args =? -1 then workers c + 1 else workers c
               | _ => workers c end ∧
  match th with
  | AskCalled args => ∃ r, reply_of th' = Some r ∧
      ar_Id r = if aa_Id args =? -1 then workers c else aa_Id args
  | _ => ar_Id <$> reply_of th' = ar_Id <$> reply_of th
  end.
Proof.
  destruct th; unfold thread_step, ask_id, ask_try, merge_file, ask_reply; intros H; go_cases; eauto.
Qed.

(** Only a thread that has not returned steps. *)
Lemma thread_step_report since now c th c' th' args :
  thread_step since now c th = Ret (c', th') → report th' = Some args → report th = Some args.
Proof. intros H%thread_step_move Hr. by inversion H; simplify_eq/=. Qed.

Lemma eid_grow ths th wk :
  (∀ k : nat, wk_stage wk = Asking k → is_Some (ths !! k)) → eid (ths ++ [th]) wk = eid ths wk.
Proof.
  intros Hk. unfold eid. destruct (wk_stage wk) as [|k| | | | | | | | |]; try done.
  destruct (Hk k eq_refl) as [th' Hth]. by rewrite (lookup_app_l_Some _ _ _ _ Hth), Hth.
Qed.

Lemma eid_serve_other ths k th' wk :
  wk_stage wk ≠ Asking k → eid (<[k := th']> ths) wk = eid ths wk.
Proof.
  intros Hk. unfold eid. destruct (wk_stage wk) as [|k'| | | | | | | | |]; try done.
  rewrite list_lookup_insert_ne; [done|]. congruence.
Qed.

#[export] Instance asking_dec st k : Decision (st = Asking k).
Proof.
  refine (match st with Asking k' => if decide (k' = k) then left _ else right _ | _ => right _ end);
    congruence.
Defined.

(** A step of thread [k]: the number of its process may be chosen now. *)
Lemma eid_serve since now c ths ws k th c' th' i wk :
  ids_ok c ths ws → ths !! k = Some th → thread_step since now c th = Ret (c', th') →
  ws !! i = Some wk →
  eid (<[k := th']> ths) wk = eid ths wk ∨
  (eid ths wk = -1 ∧ eid (<[k := th']> ths) wk = workers c ∧ workers c' = workers c + 1 ∧
   wk_stage wk = Asking k ∧ wk_id wk = -1).
Proof.
  intros Hio Hk Hs Hi. destruct (decide (wk_stage wk = Asking k)) as [Hst|Hst];
    [|left; by apply eid_serve_other].
  destruct (io_asking _ _ _ Hio _ _ _ Hi Hst) as (th0 & Hk0 & Ha). rewrite Hk in Hk0. injection Hk0 as <-.
  apply thread_step_id in Hs as [Hw Hr]. pose proof (lookup_lt_Some _ _ _ Hk).
  unfold eid. rewrite Hst, list_lookup_insert_eq, Hk by done. simpl.
  destruct th as [args|r|r| | | | |]; simpl in *; try (by destruct Ha as (? & ? & _)).
  - destruct Hr as (r & -> & Hid). rewrite Hid. destruct (Z.eqb_spec (aa_Id args) (-1)) as [E|E].
    + right. rewrite Hw. split_and!; congruence.
    + left. done.
  - left. destruct (reply_of th'); simplify_eq/=. congruence.
  - left. destruct (reply_of th'); simplify_eq/=. congruence.
  - left. destruct (reply_of th'); simplify_eq/=. congruence.
Qed.

Lemma asks_serve since now c th c' th' id :
  0 ≤ workers c → (id = -1 ∨ 0 ≤ id) →
  thread_step since now c th = Ret (c', th') → asks id th → asks id th'.
Proof.
  intros H0 Hid [_ Hr]%thread_step_id Ha.
  assert (∃ r, reply_of th' = Some r ∧ 0 ≤ ar_Id r ∧ (id = -1 ∨ ar_Id r = id)) as (r & Hr' & ?).
  { destruct th as [args| | | | | | |]; simpl in *; try (destruct Ha as (r & Hr0 & ?); simplify_eq/=).
    - destruct Hr as (r & -> & Hrid). exists r. split; [done|]. case_match; lia.
    - destruct (reply_of th') as [r'|]; simplify_eq/=. exists r'. split; [done|]. by rewrite Hr.
    - destruct (reply_of th') as [r'|]; simplify_eq/=. exists r'. split; [done|]. by rewrite Hr.
    - destruct (reply_of th') as [r'|]; simplify_eq/=. exists r'. split; [done|]. by rewrite Hr. }
  destruct th'; simpl in *; simplify_eq; eauto.
Qed.

Lemma ids_serve since now c ths ws k th c' th' :
  ids_ok c ths ws → ths !! k = Some th → thread_step since now c th = Ret (c', th') →
  ids_ok c' (<[k := th']> ths) ws.
Proof.
  intros Hio Hk Hs. pose proof (λ i wk, eid_serve _ _ _ _ _ _ _ _ _ i wk Hio Hk Hs) as He.
  assert (workers c ≤ workers c') as Hle.
  { destruct (thread_step_id _ _ _ _ _ _ Hs) as [-> _]. repeat case_match; lia. }
  pose proof (io_workers _ _ _ Hio) as H0.
  constructor.
  - lia.
  - intros i wk Hi. destruct (io_range _ _ _ Hio _ _ Hi), (He _ _ Hi) as [->|(? & -> & ? & _)]; lia.
  - intros i wk Hi. destruct (io_own _ _ _ Hio _ _ Hi), (He _ _ Hi) as [->|(? & -> & ? & _ & ?)]; auto.
  - intros i j wk wk' Hi Hj Heq Hne.
    destruct (He _ _ Hi) as [E1|(? & E1 & _ & Hst & _)], (He _ _ Hj) as [E2|(? & E2 & _ & Hst' & _)];
      rewrite E1, E2 in Heq; rewrite E1 in Hne.
    + by eapply (io_distinct _ _ _ Hio).
    + destruct (io_range _ _ _ Hio _ _ Hi); lia.
    + destruct (io_range _ _ _ Hio _ _ Hj); lia.
    + by eapply (io_thread _ _ _ Hio).
  - intros i wk k' Hi Hst. destruct (io_asking _ _ _ Hio _ _ _ Hi Hst) as (th0 & Hk0 & Ha).
    destruct (decide (k' = k)) as [->|]; [|rewrite list_lookup_insert_ne by done; eauto].
    rewrite list_lookup_insert_eq by by eapply lookup_lt_Some. exists th'. split; [done|].
    assert (th0 = th) as -> by congruence.
    eapply asks_serve; [done| |done..]. destruct (io_own _ _ _ Hio _ _ Hi) as [->| ->]; [by left|].
    destruct (io_range _ _ _ Hio _ _ Hi); lia.
  - intros i j wk wk' k' Hi Hj. by eapply (io_thread _ _ _ Hio).
  - intros i wk Hi. by eapply (io_busy _ _ _ Hio).
Qed.

(** ** Steps of the processes *)
(** Process [i] moves on; if it begins a call, thread [th] is new. *)
Lemma ids_move c ths ths' ws i id st wk' :
  ids_ok c ths ws → ws !! i = Some (mkWorker id st) →
  (∀ j wk, ws !! j = Some wk → eid ths' wk = eid ths wk) →
  (∀ k th, ths !! k = Some th → ths' !! k = Some th) →
  (eid ths' wk' = -1 ∨ eid ths' wk' = eid ths (mkWorker id st)) →
  (wk_id wk' = -1 ∨ wk_id wk' = eid ths' wk') →
  (∀ k, wk_stage wk' = Asking k →
     (∃ th, ths' !! k = Some th ∧ asks (wk_id wk') th) ∧ k = length ths) →
  (busy (wk_stage wk') = true → 0 ≤ wk_id wk') →
  ids_ok c ths' (<[i := wk']> ws).
Proof.
  intros Hio Hi He Hths Heq Hown Hask Hbusy.
  assert (∀ j wk k, ws !! j = Some wk → wk_stage wk = Asking k → k ≠ length ths) as Hnew.
  { intros j wk k Hj Hst ->. destruct (io_asking _ _ _ Hio _ _ _ Hj Hst) as (th & Hth%lookup_lt_Some & _).
    lia. }
  assert (∀ j wk, <[i := wk']> ws !! j = Some wk → eid ths' wk = -1 ∨
    ∃ wk0, ws !! j = Some wk0 ∧ eid ths' wk = eid ths wk0)
    as Hold.
  { intros j wk [(<- & <- & _)|[_ Hj]]%list_lookup_insert_Some; [destruct Heq|]; eauto. }
  constructor.
  - by apply (io_workers _ _ _ Hio).
  - intros j wk [->|(wk0 & Hj0 & ->)]%Hold; [by left|]. by eapply (io_range _ _ _ Hio).
  - intros j wk [(<- & <- & _)|[_ Hj]]%list_lookup_insert_Some; [done|].
    rewrite (He _ _ Hj). by eapply (io_own _ _ _ Hio).
  - intros j1 j2 wk1 wk2 [->|(wk3 & H3 & ->)]%Hold [->|(wk4 & H4 & ->)]%Hold He12 Hne; try done.
    by eapply (io_distinct _ _ _ Hio).
  - intros j wk k [(<- & <- & _)|[_ Hj]]%list_lookup_insert_Some Hst; [by apply Hask|].
    destruct (io_asking _ _ _ Hio _ _ _ Hj Hst) as (th & Hth & Ha). eauto.
  - intros j1 j2 wk1 wk2 k [(<- & <- & _)|[_ H1]]%list_lookup_insert_Some
      [(<- & <- & _)|[_ H2]]%list_lookup_insert_Some Hs1 Hs2; [done|..].
    + destruct (Hask _ Hs1) as [_ ->]. by destruct (Hnew _ _ _ H2 Hs2).
    + destruct (Hask _ Hs2) as [_ ->]. by destruct (Hnew _ _ _ H1 Hs1).
    + by eapply (io_thread _ _ _ Hio).
  - intros j wk [(<- & <- & _)|[_ Hj]]%list_lookup_insert_Some; [done|]. by eapply (io_busy _ _ _ Hio).
Qed.

Lemma ids_join c ths ws : ids_ok c ths ws → ids_ok c ths (ws ++ [mkWorker (-1) Idle]).
Proof.
  intros Hio.
  constructor; [by apply (io_workers _ _ _ Hio)| | | | | |]; intros;
    repeat match goal with H : (_ ++ _) !! _ = Some _ |- _ =>
      apply lookup_snoc_Some in H as [[? H]|[? H]] end; simplify_eq/=; try done.
  - by eapply (io_range _ _ _ Hio).
  - by left.
  - by eapply (io_own _ _ _ Hio).
  - by left.
  - by eapply (io_distinct _ _ _ Hio).
  - by eapply (io_asking _ _ _ Hio).
  - by eapply (io_thread _ _ _ Hio).
  - by eapply (io_busy _ _ _ Hio).
Qed.
