(* ===== verification/ClusterInv.v ===== *)
(** * Several workers: what the files hold

    The invariant of a cluster: a report names files that hold what [mapf]
    emitted, a worker in the middle of a task has done the part its stage says,
    and an output file is never seen half-written. *)
From S2P Require Import Prelude GoStrings Coordinator CoordinatorProof CoordinatorSeq Worker Grouping Job.
From S2P Require Import Cluster ClusterProof ClusterIds.

Section inv.
Context {HC : Codec}.
Context (sort : ∀ A, (A → A → bool) → list A → list A) {HG : GoSort sort}.
Context (writable : string → bool).
Context (mf : string → string → list KeyValue) (rf : string → list string → string).
Context (input : list string) (nRed : Z) (content : string → string) (fs0 : filesystem).
Hypothesis nRed_pos : 0 < nRed.
Hypothesis size_ok : Z.of_nat (length input) + nRed < 2 ^ 63.
Hypothesis input_plain : Forall plain input.
Hypothesis input_content : Forall (λ f, fs0 !! f = Some (content f)) input.
Hypothesis mf_safe : ∀ f, Forall json_safe (mf f (content f)).
Abbreviation m := (Z.of_nat (length input)).
Abbreviation task_step := (task_step sort writable (λ f c, Ret (mf f c)) (λ k vs, Ret (rf k vs))).

(** What map task [t] emits. *)
Definition emits (t : Z) : list KeyValue := pairs mf input content (Z.to_nat t).

(** The pairs of reduce task [r] in the order of the merged reports, and the
    output file for them. *)
Definition reduce_data (l : list TaskDoneArgs) (r : Z) : list KeyValue :=
  concat ((λ args, bucket_of nRed r (emits (da_TaskId args))) <$> l).
Definition right_output (l : list TaskDoneArgs) (r : Z) : string :=
  file_of (lines rf (sort _ byKey (reduce_data l r))).

(** ** What holds of reports, stages and files *)
(** Task [t] of worker [d] has written file [i]. *)
Definition written (fs : filesystem) (d t i : Z) : Prop :=
  bucket_of nRed i (emits t) ≠ [] → fs !! map_file d t i = Some (encode (bucket_of nRed i (emits t))).
Definition named (d t n : Z) (outs : gmap Z string) : Prop :=
  ∀ i, outs !! i = if decide (i < n) then reported nRed d t (emits t) i else None.

Record good_report (fs : filesystem) (args : TaskDoneArgs) : Prop := {
  gr_files : named (da_Id args) (da_TaskId args) nRed (da_Files args);
  gr_data i : 0 ≤ i < nRed → written fs (da_Id args) (da_TaskId args) i;
}.

Definition sent (ths : list thread) (l : list TaskDoneArgs) (args : TaskDoneArgs) : Prop :=
  da_TaskType args = 1 ∧
  (args ∈ l ∨ ∃ (k : nat) th, ths !! k = Some th ∧ report th = Some args).

(** The task whose files the process may still write. *)
Definition held (ths : list thread) (wk : worker) : option AskTaskReply :=
  match wk_stage wk with
  | Asking k => match ths !! k with Some (AskReturned r) => Some r | _ => None end
  | st => stage_work st
  end.

Record reports_ok (c : Coordinator) (ths : list thread) (l : list TaskDoneArgs) (fs : filesystem)
    (ws : list worker) : Prop := {
  ro_id args : sent ths l args → 0 ≤ da_Id args < workers c;
  ro_good args : sent ths l args → good_report fs args;
  ro_called k args i wk : ths !! k = Some (DoneCalled args) → da_TaskType args = 1 →
    ws !! i = Some wk → eid ths wk = da_Id args → wk_stage wk = Waiting k ∨ wk_stage wk = Exited;
  ro_fresh i wk r args : ws !! i = Some wk → held ths wk = Some r → ar_TaskType r = 1 →
    sent ths l args → da_Id args = eid ths wk → da_TaskId args ≠ ar_TaskId r;
}.

Definition answer_ok (r : AskTaskReply) : Prop :=
  ar_TaskType r ≠ 0 → ar_NReduce r = nRed ∧
    (ar_TaskType r = 1 → ∃ f, input !! Z.to_nat (ar_TaskId r) = Some f ∧ ar_Files r = [f]).

(** What task [r] leaves, seen from the log. *)
Definition good_output (fs : filesystem) (l : list TaskDoneArgs) (r : Z) : Prop :=
  fs !! reduce_file r =
    if decide (reduce_data l r = []) then fs0 !! reduce_file r else Some (right_output l r).

Definition lists_ok (t : Z) (ol : gmap Z (list KeyValue)) : Prop :=
  ∀ i, ol !! i = if decide (bucket_of nRed i (emits t) = []) then None else Some (bucket_of nRed i (emits t)).

Definition stage_ok (fs : filesystem) (l : list TaskDoneArgs) (d : Z) (st : stage) : Prop :=
  match st with
  | Mapping w ol i outs =>
      ar_TaskType w = 1 ∧ 0 ≤ i ∧ lists_ok (ar_TaskId w) ol ∧ named d (ar_TaskId w) i outs ∧
      ∀ j, 0 ≤ j < i → j < nRed → written fs d (ar_TaskId w) j
  | Encoding w ol i data outs =>
      ar_TaskType w = 1 ∧ 0 ≤ i < nRed ∧ lists_ok (ar_TaskId w) ol ∧ ol !! i = Some data ∧
      named d (ar_TaskId w) (i + 1) outs ∧
      (∀ j, 0 ≤ j < i → written fs d (ar_TaskId w) j) ∧ fs !! map_file d (ar_TaskId w) i = Some ""
  | Reading w names acc =>
      ar_TaskType w = 2 ∧ ar_Files w ≠ [] ∧
      ∃ pre, ar_Files w = pre ++ names ∧ read_files pre fs [] = Ret acc
  | Reducing w data =>
      ar_TaskType w = 2 ∧ reduce_data l (ar_TaskId w) ≠ [] ∧
      data = sort _ byKey (reduce_data l (ar_TaskId w)) ∧ fs !! reduce_tmp d (ar_TaskId w) = Some ""
  | Renaming w =>
      ar_TaskType w = 2 ∧ reduce_data l (ar_TaskId w) ≠ [] ∧
      fs !! reduce_tmp d (ar_TaskId w) = Some (right_output l (ar_TaskId w))
  | Reporting w outs =>
      (ar_TaskType w = 1 → good_report fs (report_of d w outs)) ∧
      (ar_TaskType w = 2 → good_output fs l (ar_TaskId w))
  | Idle | Asking _ | Started _ | Waiting _ | Exited => True
  end.

(** The task of a stage, the report included. *)
Definition stage_task (st : stage) : option AskTaskReply :=
  match st with Reporting w _ => Some w | st => stage_work st end.

(** Reduce task [r] has been reported. *)
Definition reduced (c : Coordinator) (ths : list thread) (r : Z) : Prop :=
  (∃ t, tasks c !! Z.to_nat (m + r) = Some t ∧ done t = true) ∨
  (∃ (k : nat) th args, ths !! k = Some th ∧ report th = Some args ∧ da_TaskType args = 2 ∧ da_TaskId args = r).

Record files_ok (c : Coordinator) (ths : list thread) (l : list TaskDoneArgs) (fs : filesystem)
    (ws : list worker) : Prop := {
  fo_answer r : AskReturned r ∈ ths → answer_ok r;
  fo_task i wk r : ws !! i = Some wk → stage_task (wk_stage wk) = Some r →
    AskReturned r ∈ ths ∧ ar_TaskId r ≠ -1;
  fo_stage i wk : ws !! i = Some wk → stage_ok fs l (wk_id wk) (wk_stage wk);
  fo_input : Forall (λ f, fs !! f = Some (content f)) input;
  fo_output r : 0 ≤ r → fs !! reduce_file r = fs0 !! reduce_file r ∨
    (r < nRed ∧ quiet input c ths ∧ good_output fs l r);
  fo_reduced r : 0 ≤ r < nRed → reduced c ths r → good_output fs l r;
}.

(** ** The reduce tasks' data *)
Lemma emits_safe t : Forall json_safe (emits t).
Proof. unfold emits, pairs. case_match; [apply mf_safe|constructor]. Qed.

Lemma read_files_app names names' fs acc :
  read_files (names ++ names') fs acc = (acc ← read_files names fs acc; read_files names' fs acc).
Proof.
  revert acc. induction names as [|name names IH]; intros acc; [done|]. simpl.
  destruct (fs !! name); [|done]. by destruct (decode _).
Qed.

Lemma read_files_ext names fs fs' acc :
  (∀ nm, nm ∈ names → fs' !! nm = fs !! nm) → read_files names fs' acc = read_files names fs acc.
Proof.
  revert acc. induction names as [|name names IH]; intros acc H; [done|]. simpl.
  rewrite H by by left. destruct (fs !! name); [|done]. destruct (decode _); [|done].
  apply IH. intros nm Hn. apply H. by right.
Qed.

Lemma named_in d t outs r : named d t nRed outs → 0 ≤ r < nRed → outs !! r = reported nRed d t (emits t) r.
Proof. intros Hn Hr. by rewrite Hn, decide_True by lia. Qed.

Lemma good_contribution fs args r nm :
  good_report fs args → 0 ≤ r < nRed → da_Files args !! r = Some nm →
  nm = map_file (da_Id args) (da_TaskId args) r.
Proof.
  intros Hg Hr. rewrite (named_in _ _ _ _ (gr_files _ _ Hg) Hr). unfold reported.
  case_decide; [|done]. by intros [= ->].
Qed.

(** Reading the reported files gives the pairs of the task. *)
Lemma read_contributions fs l r acc :
  0 ≤ r < nRed → (∀ args, args ∈ l → good_report fs args) →
  read_files (contributions r l) fs acc = Ret (acc ++ reduce_data l r) ∧
  (contributions r l = [] ↔ reduce_data l r = []).
Proof.
  intros Hr. revert acc. induction l as [|args l IH]; intros acc Hg.
  { unfold reduce_data. simpl. by rewrite app_nil_r. }
  assert (good_report fs args) as Ha by (apply Hg; by left).
  assert (∀ args, args ∈ l → good_report fs args) as Hl by (intros; apply Hg; by right).
  unfold contributions, reduce_data in *. csimpl.
  rewrite (named_in _ _ _ _ (gr_files _ _ Ha) Hr). unfold reported.
  destruct (decide (bucket_of nRed r (emits (da_TaskId args)) = [])) as [E|E].
  - rewrite E, decide_False by tauto. simpl. by apply IH.
  - rewrite decide_True by done. split.
    + simpl. rewrite (gr_data _ _ Ha r Hr E), decode_encode; [|apply Forall_filter_keep, emits_safe].
      destruct (IH (acc ++ bucket_of nRed r (emits (da_TaskId args))) Hl) as [-> _]. by rewrite <-app_assoc.
    + split; [done|]. intros [? _]%app_nil. done.
Qed.

(** ** What a step of a task changes *)
Definition touched (d : Z) (w : AskTaskReply) (nm : string) : Prop :=
  (ar_TaskType w = 1 ∧ ∃ i, nm = map_file d (ar_TaskId w) i) ∨
  (ar_TaskType w = 2 ∧ (nm = reduce_tmp d (ar_TaskId w) ∨ nm = reduce_file (ar_TaskId w))).

Lemma os_Create_Ret fs name fs' : os_Create writable fs name = Ret fs' → fs' = <[name := ""]> fs.
Proof. unfold os_Create. case_match; [|done]. by intros [= ->]. Qed.

Ltac created := match goal with H : os_Create _ _ _ = Ret _ |- _ => apply os_Create_Ret in H as -> end.

Lemma task_step_frame d fs l st w fs' st' nm :
  stage_work st = Some w → stage_ok fs l d st → task_step d fs st = Ret (fs', st') →
  ¬ touched d w nm → fs' !! nm = fs !! nm.
Proof.
  intros Hw Hok H Hnt. unfold touched in Hnt.
  destruct st as [| |w'|w' ol i outs|w' ol i data outs|w' [|name names] acc|w' acc|w'|w' outs| |];
    simplify_eq/=.
  - repeat (case_match; simplify_go); simplify_go; done.
  - destruct Hok as (Ht & _). repeat (case_match; simplify_go); simplify_go; try done.
    created. apply lookup_insert_ne. intros <-. apply Hnt. left. eauto.
  - destruct Hok as (Ht & _). simplify_go. unfold WriteString. apply lookup_insert_ne. intros <-. apply Hnt. left. eauto.
  - destruct Hok as (Ht & _). simplify_go. created. apply lookup_insert_ne.
    intros <-. apply Hnt. right. eauto.
  - repeat (case_match; simplify_go); simplify_go; done.
  - destruct Hok as (Ht & _). simplify_go. unfold WriteString. apply lookup_insert_ne.
    intros <-. apply Hnt. right. eauto.
  - destruct Hok as (Ht & _). simplify_go. unfold Rename. case_match; [|done].
    rewrite lookup_insert_ne, lookup_delete_ne; [done|..]; intros <-; apply Hnt; right; eauto.
Qed.

Lemma task_step_output d fs l st w fs' st' r :
  stage_work st = Some w → stage_ok fs l d st → task_step d fs st = Ret (fs', st') →
  0 ≤ r → 0 ≤ ar_TaskId w →
  fs' !! reduce_file r = fs !! reduce_file r ∨
  (r = ar_TaskId w ∧ ar_TaskType w = 2 ∧ reduce_data l r ≠ [] ∧
   fs' !! reduce_file r = Some (right_output l r)).
Proof.
  intros Hw Hok H Hr Ht.
  assert (∀ nm x (fs1 : filesystem), nm ≠ reduce_file r → <[nm := x]> fs1 !! reduce_file r = fs1 !! reduce_file r) as Hne
    by (intros; by apply lookup_insert_ne).
  destruct st as [| |w'|w' ol i outs|w' ol i data outs|w' [|name names] acc|w' acc|w'|w' outs| |];
    simplify_eq/=.
  - left. repeat (case_match; simplify_go); simplify_go; done.
  - left. repeat (case_match; simplify_go); simplify_go; try done. created. by apply Hne.
  - left. simplify_go. by apply Hne.
  - left. simplify_go. created. by apply Hne.
  - left. repeat (case_match; simplify_go); simplify_go; done.
  - left. simplify_go. by apply Hne.
  - destruct Hok as (Ht2 & Hd & Hf). simplify_go. unfold Rename. rewrite Hf. destruct (decide (r = ar_TaskId w)) as [->|Hrw].
    + right. by rewrite lookup_insert_eq.
    + left. rewrite Hne; [|intros E; apply Hrw; symmetry; by apply reduce_file_inj].
      by apply lookup_delete_ne.
Qed.


Lemma good_output_step fs fs' l r :
  (fs' !! reduce_file r = fs !! reduce_file r ∨
   (reduce_data l r ≠ [] ∧ fs' !! reduce_file r = Some (right_output l r))) →
  good_output fs l r → good_output fs' l r.
Proof.
  unfold good_output. intros [E|[Hd E]]; rewrite E; [done|]. by rewrite decide_False.
Qed.

Lemma good_report_frame fs fs' args :
  (∀ i, 0 ≤ i → fs' !! map_file (da_Id args) (da_TaskId args) i =
                fs !! map_file (da_Id args) (da_TaskId args) i) →
  good_report fs args → good_report fs' args.
Proof.
  intros Hf [Hn Hd]. split; [done|]. intros i Hi Hb. rewrite Hf by lia. by apply Hd.
Qed.

(** The files of one process are not those of another. *)
Lemma touched_map_file d w d' t i :
  0 ≤ d → 0 ≤ d' → 0 ≤ t → 0 ≤ ar_TaskId w → touched d w (map_file d' t i) →
  d = d' ∧ ar_TaskId w = t ∧ ar_TaskType w = 1.
Proof.
  intros ???? [(Ht & j & E)|(Ht & [E|E])].
  - apply map_file_inj in E as (-> & -> & _); done.
  - by apply map_file_reduce_tmp in E.
  - by apply tmp_out in E.
Qed.
Lemma touched_reduce_tmp d w d' r :
  0 ≤ d → 0 ≤ d' → 0 ≤ r → 0 ≤ ar_TaskId w → touched d w (reduce_tmp d' r) → d = d'.
Proof.
  intros ???? [(Ht & j & E)|(Ht & [E|E])].
  - symmetry in E. by apply map_file_reduce_tmp in E.
  - by apply reduce_tmp_inj in E as [-> _].
  - by apply tmp_out in E.
Qed.
Lemma touched_plain d w nm : plain nm → ¬ touched d w nm.
Proof.
  intros Hp [(_ & i & ->)|(_ & [-> | ->])]; [by eapply plain_map_file|by eapply plain_reduce_tmp|].
  by eapply plain_reduce_file.
Qed.

Lemma stage_other d w fs fs' l d2 st2 :
  0 ≤ d → 0 ≤ d2 → d ≠ d2 → 0 ≤ ar_TaskId w →
  (∀ nm, ¬ touched d w nm → fs' !! nm = fs !! nm) →
  (∀ r, 0 ≤ r → good_output fs l r → good_output fs' l r) →
  (∀ w2, stage_task st2 = Some w2 → 0 ≤ ar_TaskId w2 ∧
     (ar_TaskType w2 = 2 → ∀ nm, nm ∈ ar_Files w2 → fs' !! nm = fs !! nm)) →
  stage_ok fs l d2 st2 → stage_ok fs' l d2 st2.
Proof.
  intros Hd Hd2 Hne Ht Hfr Hout Hw Hok.
  assert (∀ t i, 0 ≤ t → fs' !! map_file d2 t i = fs !! map_file d2 t i) as Hm.
  { intros t i ?. apply Hfr. intros (-> & _)%touched_map_file; done. }
  assert (∀ r, 0 ≤ r → fs' !! reduce_tmp d2 r = fs !! reduce_tmp d2 r) as Hr.
  { intros r ?. apply Hfr. intros ->%touched_reduce_tmp; done. }
  assert (∀ t i, 0 ≤ t → written fs d2 t i → written fs' d2 t i) as Hwr.
  { intros t i ? Hwi Hb. rewrite Hm by done. by apply Hwi. }
  destruct st2 as [| |w'|w' ol i outs|w' ol i data outs|w' names acc|w' acc|w'|w' outs| |]; simpl in *; try done;
    destruct (Hw w' eq_refl) as [H0 Hfi].
  - destruct Hok as (? & ? & ? & ? & Hj). split_and!; auto.
  - destruct Hok as (? & ? & ? & ? & ? & Hj & ?). split_and!; auto; lia || by rewrite Hm.
  - destruct Hok as (? & ? & pre & E & Hrd). split_and!; auto. exists pre. split; [done|].
    rewrite <-Hrd. apply read_files_ext. intros nm Hin. apply Hfi; [done|]. rewrite E. apply elem_of_app. by left.
  - destruct Hok as (? & ? & ? & ?). split_and!; auto. by rewrite Hr.
  - destruct Hok as (? & ? & ?). split_and!; auto. by rewrite Hr.
  - destruct Hok as [Hg Ho]. split; [|by auto]. intros H1. eapply good_report_frame; [|by auto].
    intros i _. apply Hm. exact H0.
Qed.

(** ** A process's own steps *)
Lemma named_next d t i outs : bucket_of nRed i (emits t) = [] → named d t i outs → named d t (i + 1) outs.
Proof.
  intros Hb Hn j. rewrite Hn. destruct (decide (j < i)) as [?|?].
  - by rewrite decide_True by lia.
  - case_decide; [|done]. assert (j = i) as -> by lia. unfold reported. rewrite decide_False; [done|]. tauto.
Qed.
Lemma named_insert d t i outs :
  0 ≤ i < nRed → bucket_of nRed i (emits t) ≠ [] → named d t i outs →
  named d t (i + 1) (<[i := map_file d t i]> outs).
Proof.
  intros Hi Hb Hn j. destruct (decide (j = i)) as [->|Hne].
  - rewrite lookup_insert_eq, decide_True by lia. unfold reported. by rewrite decide_True.
  - rewrite lookup_insert_ne, Hn by done. apply decide_ext. lia.
Qed.
Lemma named_end d t i outs : nRed ≤ i → named d t i outs → named d t nRed outs.
Proof.
  intros Hi Hn j. rewrite Hn. unfold reported. repeat case_decide; try done; lia.
Qed.

Lemma map_file_other fs d t i j x : 0 ≤ d → 0 ≤ t → j ≠ i → written fs d t j → written (<[map_file d t i := x]> fs) d t j.
Proof.
  intros ??? Hw Hb. rewrite lookup_insert_ne; [by apply Hw|]. intros (_ & _ & ?)%map_file_inj; done.
Qed.

Lemma stage_step_map fs l d st w fs' st' :
  stage_work st = Some w → ar_TaskType w = 1 → 0 ≤ d → 0 ≤ ar_TaskId w → answer_ok w →
  Forall (λ f, fs !! f = Some (content f)) input →
  stage_ok fs l d st → task_step d fs st = Ret (fs', st') → stage_ok fs' l d st'.
Proof.
  intros Hw Ht Hd H0 Ha Hin Hok H. destruct (Ha ltac:(lia)) as (HN & f & Hf & Hfl); [done|].
  assert (∀ outs, fs' = fs → st' = Reporting w outs → named d (ar_TaskId w) nRed outs →
    (∀ j, 0 ≤ j < nRed → written fs d (ar_TaskId w) j) → stage_ok fs' l d st') as Hrep.
  { intros outs -> -> Hn Hwr. simpl. split; [|by rewrite Ht]. intros _. by split. }
  destruct st as [| |w'|w' ol i outs|w' ol i data outs|w' names acc|w' acc|w'|w' outs| |]; simplify_eq/=;
    try (by destruct Hok; congruence); rewrite ?Ht, ?HN in H; simpl in H.
  - rewrite Hfl in H. simpl in H. rewrite Forall_forall in Hin.
    rewrite (Hin f) in H by by eapply list_elem_of_lookup_2. simpl in H.
    destruct (bucket_empty_run nRed (mf f (content f))) as (ol & E & Hol); [lia|]. rewrite E in H.
    simplify_go. assert (emits (ar_TaskId w) = mf f (content f)) as He by (unfold emits, pairs; by rewrite Hf).
    split_and!; [done|lia|by intros i; rewrite He| |intros; lia].
    intros i. rewrite lookup_empty. case_decide; [|done]. unfold reported. by rewrite decide_False by lia.
  - destruct Hok as (_ & Hi & Hol & Hn & Hwr). destruct (Z.ltb_spec i nRed).
    + specialize (Hol i) as Hi'. destruct (ol !! i) as [data|] eqn:E; simplify_go.
      * created. destruct (decide (bucket_of nRed i (emits (ar_TaskId w)) = [])) as [|Hb]; [done|].
        split_and!; [done|lia|lia|done|done|by apply named_insert| |by rewrite lookup_insert_eq].
        intros j Hj. apply map_file_other; [done|done|lia|]. apply Hwr; lia.
      * destruct (decide (bucket_of nRed i (emits (ar_TaskId w)) = [])) as [Hb|]; [|done].
        split_and!; [done|lia|done|by apply named_next|]. intros j Hj Hlt.
        destruct (decide (j = i)) as [->|]; [by intros ?|]. apply Hwr; lia.
    + simplify_go. eapply Hrep; [done..|by eapply named_end|]. intros j Hj. apply Hwr; lia.
  - destruct Hok as (_ & Hi & Hol & Hdata & Hn & Hwr & Hc). simplify_go. unfold WriteString. rewrite Hc. simpl.
    split_and!; [done|lia|done|done|]. intros j Hj Hlt. destruct (decide (j = i)) as [->|].
    + intros Hb. rewrite lookup_insert_eq. rewrite Hol, decide_False in Hdata by done. by injection Hdata as ->.
    + apply map_file_other; [done|done|done|]. apply Hwr; lia.
Qed.

Lemma stage_step_reduce fs l d st w fs' st' :
  stage_work st = Some w → ar_TaskType w = 2 → 0 ≤ ar_TaskId w < nRed →
  ar_Files w = contributions (ar_TaskId w) l → (∀ args, args ∈ l → good_report fs args) →
  (reduce_data l (ar_TaskId w) = [] → fs !! reduce_file (ar_TaskId w) = fs0 !! reduce_file (ar_TaskId w)) →
  stage_ok fs l d st → task_step d fs st = Ret (fs', st') → stage_ok fs' l d st'.
Proof.
  intros Hw Ht H0 Hfl Hl Hempty Hok H. 
  destruct (read_contributions fs l (ar_TaskId w) [] H0 Hl) as [Hread Hnil]. rewrite <-Hfl in *. simpl in Hread.
  destruct st as [| |w'|w' ol i outs|w' ol i data outs|w' [|name names] acc|w' acc|w'|w' outs| |]; simplify_eq/=;
    try (by destruct Hok; congruence); rewrite ?Ht in H; simpl in H.
  - case_decide as Hf; simplify_go.
    + split; [by rewrite Ht|]. intros _. unfold good_output.
      rewrite decide_True by by apply Hnil. by apply Hempty, Hnil.
    + split_and!; [done|done|]. by exists [].
  - destruct Hok as (_ & Hne & pre & Hpre & Hrd). rewrite app_nil_r in Hpre. rewrite <-Hpre, Hread in Hrd. injection Hrd as <-. simplify_go. created.
    split_and!; [done|by rewrite <-Hnil|done|by rewrite lookup_insert_eq].
  - destruct Hok as (_ & Hne & pre & Hpre & Hrd). destruct (fs !! name) as [c|] eqn:E; [|done].
    destruct (decode c) as [kvl|] eqn:Ed; [|done]. simplify_go. split_and!; [done|done|].
    exists (pre ++ [name]). split; [by rewrite <-app_assoc|]. rewrite read_files_app, Hrd. simpl. by rewrite E, Ed.
  - destruct Hok as (_ & Hne & -> & Hc). rewrite reduce_output_pure in H. simplify_go. 
    split_and!; [done|done|]. unfold WriteString. rewrite Hc, lookup_insert_eq. done.
  - destruct Hok as (_ & Hne & Hc). simplify_go.  split; [by rewrite Ht|]. intros _.
    unfold good_output, Rename. rewrite Hc, decide_False, lookup_insert_eq by done. done.
Qed.

(** ** What the coordinator's invariant says *)
Section coordinator.
Context (c : Coordinator) (ths : list thread) (l : list TaskDoneArgs).
Hypothesis HI : Inv input nRed (mkWorld c ths l).

Lemma answer_range r :
  AskReturned r ∈ ths → ar_TaskId r ≠ -1 → in_range input nRed (ar_TaskType r) (ar_TaskId r).
Proof.
  destruct HI as (Hs & _). simpl in Hs. pose proof (sh_th _ _ _ _ Hs) as Ht. rewrite Forall_forall in Ht.
  intros Hr Hid. destruct (Ht _ Hr) as [(_ & ? & _)|?]; done.
Qed.

Lemma answer_reduce r :
  AskReturned r ∈ ths → ar_TaskType r = 2 →
  ar_Files r = contributions (ar_TaskId r) l ∧ quiet input c ths.
Proof.
  intros [k Hk]%list_elem_of_lookup Ht. destruct HI as (_ & Hp & Hg). simpl in *. split.
  - by eapply mg_reply.
  - eapply (ph_th _ _ _ _ Hp); [done|]. simpl. by rewrite Ht.
Qed.

Lemma report_range k th args : ths !! k = Some th → report th = Some args → report_ok input nRed args.
Proof.
  destruct HI as (Hs & _). simpl in Hs. intros Hk Hr.
  assert (th_ok input nRed th) as Ht by (eapply Forall_lookup_1; [by apply (sh_th _ _ _ _ Hs)|done]).
  destruct th; simplify_eq/=; try done; naive_solver.
Qed.

Lemma log_sent args : args ∈ l → sent ths l args.
Proof.
  destruct HI as (_ & Hp & _). simpl in Hp. pose proof (ph_log _ _ _ _ Hp) as Hl. rewrite Forall_forall in Hl.
  intros Ha. split; [by apply Hl|by left].
Qed.

Lemma sent_range args : sent ths l args → 0 ≤ da_TaskId args < m.
Proof.
  intros [Ht [Hin|(k & th & Hk & Hr)]].
  - destruct HI as (_ & Hp & _). simpl in Hp. pose proof (ph_log _ _ _ _ Hp) as Hl.
    rewrite Forall_forall in Hl. by apply Hl.
  - destruct (report_range _ _ _ Hk Hr) as [[_ ?]|[? _]]; lia.
Qed.

(** A report that is past its first step has its task marked. *)
Lemma sent_done args t :
  sent ths l args → tasks c !! Z.to_nat (da_TaskId args) = Some t →
  (∃ k, ths !! k = Some (DoneCalled args)) ∨ done t = true.
Proof.
  intros Hsent Ht. pose proof (sent_range _ Hsent) as Hr. destruct Hsent as [Hty Hin].
  destruct HI as (Hs & Hp & Hg). simpl in *.
  pose proof (ph_done _ _ _ _ Hp _ _ Ht ltac:(lia)) as Hd. rewrite Z2Nat.id in Hd by lia.
  assert (args ∈ l → done t = true) as Hlog.
  { intros [j Hj]%list_elem_of_lookup.
    pose proof (count_elem (λ a, da_TaskId a =? da_TaskId args) _ _ _ Hj ltac:(simpl; lia)).
    pose proof (count_nonneg (marked (da_TaskId args)) ths). destruct (done t); simpl in *; [done|lia]. }
  destruct Hin as [?|(k & th & Hk & Hrep)]; [by right; auto|].
  destruct th as [| | | |args'|args' a|args' a j|]; simplify_eq/=.
  - left. by exists k.
  - right. assert (th_ok input nRed (DoneMarked args a)) as [_ Ha].
    { eapply Forall_lookup_1; [by apply (sh_th _ _ _ _ Hs)|done]. }
    unfold report_slot, slot in Ha. rewrite Hty in Ha. simpl in Ha. subst a.
    pose proof (count_elem (marked (da_TaskId args)) _ _ _ Hk (Z.eqb_refl _)).
    pose proof (count_nonneg (λ a, da_TaskId a =? da_TaskId args) l). destruct (done t); simpl in *; [done|lia].
  - right. apply Hlog. pose proof (mg_last _ _ _ _ Hg _ _ _ _ Hk Hty) as Hl.
    apply last_Some in Hl as [l' ->]. apply elem_of_app. right. by left.
Qed.

Lemma reduced_quiet r : 0 ≤ r → reduced c ths r → quiet input c ths.
Proof.
  intros Hr Hred. destruct HI as (_ & Hp & _). simpl in Hp.
  destruct Hred as [(t & Ht & Hd)|(k & th & args & Hk & Hrep & Hty & _)].
  - eapply (ph_red _ _ _ _ Hp); [done|lia|by left].
  - eapply (ph_th _ _ _ _ Hp); [done|]. destruct th; simplify_eq/=; lia.
Qed.
End coordinator.

(** ** Changing one process *)
Lemma reports_ws c ths l fs ws i wk wk' :
  reports_ok c ths l fs ws → ws !! i = Some wk →
  (eid ths wk' = -1 ∨ eid ths wk' = eid ths wk) →
  (held ths wk' = None ∨ held ths wk' = held ths wk) →
  (wk_stage wk' = Exited ∨ (wk_stage wk ≠ Exited ∧
     ∀ k args, ths !! k = Some (DoneCalled args) → wk_stage wk ≠ Waiting k)) →
  reports_ok c ths l fs (<[i := wk']> ws).
Proof.
  intros [Hid Hg Hc Hf] Hi He Hh Hst. constructor; [done|done| |].
  - intros k args j wk0 Hk Hty [(<- & <- & _)|[_ Hj]]%list_lookup_insert_Some Heq; [|by eapply Hc].
    destruct Hst as [?|[Hne Hw]]; [by right|]. exfalso.
    assert (sent ths l args) as Hs by (split; [done|right; eauto]). specialize (Hid _ Hs).
    destruct He as [He|He]; rewrite He in Heq; [lia|].
    destruct (Hc _ _ _ _ Hk Hty Hi Heq) as [?|?]; [by eapply Hw|done].
  - intros j wk0 r args [(<- & <- & _)|[_ Hj]]%list_lookup_insert_Some Hheld Hty Hs Heq; [|by eapply Hf].
    specialize (Hid _ Hs). destruct He as [He|He]; rewrite He in Heq; [lia|].
    destruct Hh as [Hh|Hh]; rewrite Hh in Hheld; [done|]. by eapply Hf.
Qed.

Lemma files_ws c ths l fs ws i wk' :
  files_ok c ths l fs ws →
  (∀ r, stage_task (wk_stage wk') = Some r → AskReturned r ∈ ths ∧ ar_TaskId r ≠ -1) →
  stage_ok fs l (wk_id wk') (wk_stage wk') →
  files_ok c ths l fs (<[i := wk']> ws).
Proof.
  intros [] Ht Hs. constructor; try done.
  - intros j wk r [(<- & <- & _)|[_ Hj]]%list_lookup_insert_Some; eauto.
  - intros j wk [(<- & <- & _)|[_ Hj]]%list_lookup_insert_Some; eauto.
Qed.

(** ** A new call *)
Lemma held_grow c ths ws i wk th :
  ids_ok c ths ws → ws !! i = Some wk → held (ths ++ [th]) wk = held ths wk ∧ eid (ths ++ [th]) wk = eid ths wk.
Proof.
  intros Hio Hi. assert (∀ k, wk_stage wk = Asking k → is_Some (ths !! k)) as Hk.
  { intros k Hst. destruct (io_asking _ _ _ Hio _ _ _ Hi Hst) as (th' & -> & _). eauto. }
  split; [|by apply eid_grow]. unfold held. destruct (wk_stage wk) as [|k| | | | | | | | |]; try done.
  destruct (Hk k eq_refl) as [th' Hth]. by rewrite (lookup_app_l_Some _ _ _ _ Hth), Hth.
Qed.

Lemma reports_grow c ths l fs ws th :
  ids_ok c ths ws → reports_ok c ths l fs ws →
  report th = None ∨ (∃ args, th = DoneCalled args ∧
    (da_TaskType args = 1 → 0 ≤ da_Id args < workers c ∧ good_report fs args ∧
       ∀ i wk, ws !! i = Some wk → eid ths wk = da_Id args → wk_stage wk = Waiting (length ths))) →
  reports_ok c (ths ++ [th]) l fs ws.
Proof.
  intros Hio [Hid Hg Hc Hf] Hth.
  assert (∀ args, sent (ths ++ [th]) l args → sent ths l args ∨
    (th = DoneCalled args ∧ 0 ≤ da_Id args < workers c ∧ good_report fs args ∧
       ∀ i wk, ws !! i = Some wk → eid ths wk = da_Id args → wk_stage wk = Waiting (length ths))) as Hsent.
  { intros args [Hty [Hin|(k & th' & [[_ Hk]|[_ Hk]]%lookup_snoc_Some & Hr)]].
    - left. split; [done|by left].
    - left. split; [done|right; eauto].
    - right. simplify_eq. destruct Hth as [?|(args' & -> & Ha)]; [congruence|]. simplify_eq/=. auto. }
  constructor.
  - intros args [?|(_ & ? & _)]%Hsent; auto.
  - intros args [?|(_ & _ & ? & _)]%Hsent; auto.
  - intros k args i wk Hk Hty Hi Heq. destruct (held_grow _ _ _ _ _ th Hio Hi) as [_ He]. rewrite He in Heq.
    apply lookup_snoc_Some in Hk as [[_ Hk]|[-> Hk]]; [by eapply Hc|]. simplify_eq.
    destruct Hth as [?|(args' & [= <-] & Ha)]; [done|]. left. by eapply Ha.
  - intros i wk r args Hi Hh Hty Hs Heq. destruct (held_grow _ _ _ _ _ th Hio Hi) as [Hhe He].
    rewrite He in Heq. rewrite Hhe in Hh. apply Hsent in Hs as [?|(_ & _ & _ & Ha)]; [by eapply Hf|].
    specialize (Ha _ _ Hi ltac:(done)). unfold held in Hh. by rewrite Ha in Hh.
Qed.

Lemma quiet_grow c ths th : merging_map th = false → quiet input c ths → quiet input c (ths ++ [th]).
Proof. intros Hm [? Hq]. split; [done|]. rewrite count_app, Hq. simpl. by rewrite Hm. Qed.

Lemma files_grow c ths l fs ws th :
  files_ok c ths l fs ws → merging_map th = false → (∀ r, th ≠ AskReturned r) →
  (∀ args, report th = Some args → da_TaskType args = 2 → good_output fs l (da_TaskId args)) →
  files_ok c (ths ++ [th]) l fs ws.
Proof.
  intros [] Hm Hr Hrep. constructor; try done.
  - intros r [?|Hin]%elem_of_app; [by auto|]. apply list_elem_of_singleton in Hin. by destruct (Hr r).
  - intros i wk r Hi Hst. destruct (fo_task0 _ _ _ Hi Hst). split; [|done]. apply elem_of_app. by left.
  - intros r H0. destruct (fo_output0 _ H0) as [?|(? & ? & ?)]; [by left|]. right.
    split_and!; [done|by apply quiet_grow|done].
  - intros r H0 [Ht|(k & th' & args & [[_ Hk]|[_ Hk]]%lookup_snoc_Some & Hra & Hty & Hid)].
    + apply fo_reduced0; [done|by left].
    + apply fo_reduced0; [done|right; eauto 8].
    + simplify_eq. by apply Hrep.
Qed.

(** ** A step of the coordinator *)
Section serve.
Context (c : Coordinator) (ths : list thread) (l : list TaskDoneArgs) (fs : filesystem) (ws : list worker).
Context (since now : Z) (k : nat) (th : thread) (c' : Coordinator) (th' : thread).
Hypothesis HI : Inv input nRed (mkWorld c ths l).
Hypothesis Hio : ids_ok c ths ws.
Hypothesis Hk : ths !! k = Some th.
Hypothesis Hstep : thread_step since now c th = Ret (c', th').
Abbreviation ths' := (<[k := th']> ths).
Abbreviation l' := (log_step th l).

Lemma serve_lookup j th0 : ths' !! j = Some th0 → (j = k ∧ th0 = th') ∨ (j ≠ k ∧ ths !! j = Some th0).
Proof. intros [(<- & <- & _)|[? ?]]%list_lookup_insert_Some; auto. Qed.

Lemma serve_not_called args : th' ≠ DoneCalled args.
Proof. pose proof (thread_step_move _ _ _ _ _ _ Hstep) as Hm. intros ->. by inversion Hm. Qed.

Lemma serve_answered r : AskReturned r ∈ ths → AskReturned r ∈ ths'.
Proof.
  intros [j Hj]%list_elem_of_lookup. destruct (decide (j = k)) as [->|Hne].
  - rewrite Hk in Hj. injection Hj as ->. done.
  - apply list_elem_of_lookup. exists j. by rewrite list_lookup_insert_ne.
Qed.

Lemma serve_sent args : sent ths' l' args → sent ths l args.
Proof.
  intros [Hty [Hin|(j & th0 & Hj & Hr)]]; split; try done.
  - unfold log_step in Hin. destruct th as [| | | | |args' a| |]; try (by left).
    case_match; [|by left]. apply elem_of_app in Hin as [?|Hin]; [by left|].
    apply list_elem_of_singleton in Hin as ->. right. eauto.
  - right. apply serve_lookup in Hj as [[-> ->]|[_ Hj]]; [|by eauto].
    exists k, th. split; [done|]. by eapply thread_step_report.
Qed.

(** The log is complete once there is a reduce task. *)
Lemma serve_log : quiet input c ths → l' = l.
Proof.
  intros [Hq _]. destruct HI as (Hs & Hp & _). simpl in *.
  eapply quiet_log; [done..|by eapply thread_step_move|done].
Qed.

Lemma serve_answer r : th' = AskReturned r → answer_ok r ∧
  (ar_TaskType r = 1 → ∃ t, tasks c !! Z.to_nat (ar_TaskId r) = Some t ∧ done t = false).
Proof.
  intros Hth. pose proof (thread_step_move _ _ _ _ _ _ Hstep) as Hm. rewrite Hth in Hm.
  destruct HI as (Hs & _). simpl in Hs.
  assert (th_ok input nRed th) as Ht by (eapply Forall_lookup_1; [by apply (sh_th _ _ _ _ Hs)|done]).
  unfold answer_ok. inversion Hm as [| | |s0 n0 reply start stop i t Hi Hti _ He|reply start stop i Hi| | | | | |];
    simplify_eq/=.
  - destruct Ht as (Hf & Hsi & Hss). rewrite (sh_nReduce _ _ _ _ Hs). pose proof (sh_nMap _ _ _ _ Hs).
    destruct (sh_task _ _ _ _ Hs _ _ Hti) as [Hid Hty]. rewrite Z2Nat.id in Hid by lia. rewrite Hid.
    assert (ar_Files reply = []) as -> by (by destruct Hf as (_ & _ & ?)).
    destruct (input !! Z.to_nat i) as [f|] eqn:Hf'; [|split; [|lia]; intros _; split; [done|lia]].
    destruct Hty as [Hty Hfl]. apply lookup_lt_Some in Hf' as Hlt. assert (start = 0) as -> by lia. simpl. split.
    + intros _. split; [done|]. intros _. exists f. by rewrite Hf', Hfl.
    + intros _. exists t. split; [done|]. unfold eligible in He. by destruct (done t).
  - destruct Ht as ((-> & _) & _). done.
Qed.

Lemma serve_reports : reports_ok c ths l fs ws → reports_ok c' ths' l' fs ws.
Proof.
  intros [Hid Hg Hc Hf].
  assert (workers c ≤ workers c') as Hle.
  { destruct (thread_step_id _ _ _ _ _ _ Hstep) as [-> _]. repeat case_match; lia. }
  assert (∀ args i wk, sent ths' l' args → ws !! i = Some wk → eid ths' wk = da_Id args →
    eid ths wk = da_Id args) as Heid.
  { intros args i wk Hs%serve_sent Hi. specialize (Hid _ Hs).
    destruct (eid_serve _ _ _ _ _ _ _ _ _ i wk Hio Hk Hstep Hi) as [->|(_ & -> & _)]; [done|lia]. }
  constructor.
  - intros args Hs%serve_sent. specialize (Hid _ Hs). lia.
  - intros args Hs%serve_sent. by apply Hg.
  - intros j args i wk Hj Hty Hi Heq.
    assert (sent ths' l' args) as Hs by (split; [done|right; eauto]).
    apply serve_lookup in Hj as [[_ Hj]|[_ Hj]]; [by destruct (serve_not_called args)|].
    eapply Hc; [done..|]. by eapply Heid.
  - intros i wk r args Hi Hh Hty Hs Heq. pose proof (Heid _ _ _ Hs Hi (eq_sym Heq)) as He.
    apply serve_sent in Hs.
    assert (held ths wk = Some r ∨ (wk_stage wk = Asking k ∧ th' = AskReturned r)) as [?|[Hst Hth]].
    { unfold held in *. destruct (wk_stage wk) as [|j| | | | | | | | |]; try (by left).
      destruct (ths' !! j) as [th0|] eqn:Hj; [|done]. apply serve_lookup in Hj as [[-> ->]|[_ Hj]].
      - right. destruct th'; simplify_eq. done.
      - left. by rewrite Hj. }
    { by eapply Hf. }
    intros Heqt. destruct (serve_answer r Hth) as [_ Hnd]. destruct (Hnd Hty) as (t & Ht & Hd).
    rewrite <-Heqt in Ht. destruct (sent_done _ _ _ HI _ _ Hs Ht) as [[j Hj]|?]; [|congruence].
    destruct (Hc _ _ _ _ Hj (proj1 Hs) Hi He); congruence.
Qed.

Lemma stage_ok_log d st :
  (∀ w, stage_task st = Some w → ar_TaskType w = 2 → l' = l) → stage_ok fs l d st → stage_ok fs l' d st.
Proof.
  intros Hl Hok. destruct st; simpl in *; try done.
  - by rewrite (Hl _ eq_refl (proj1 Hok)).
  - by rewrite (Hl _ eq_refl (proj1 Hok)).
  - destruct Hok as (? & Ho). split; [done|]. intros Hty. rewrite (Hl _ eq_refl Hty). auto.
Qed.

Lemma serve_reduced r : 0 ≤ r < nRed → reduced c' ths' r → reduced c ths r.
Proof.
  intros Hr. pose proof (thread_step_move _ _ _ _ _ _ Hstep) as Hm. destruct HI as (Hs & _). simpl in Hs.
  intros [(t & Ht & Hd)|(j & th0 & args & Hj & Hrep & Hty & Hid)].
  - destruct (move_done _ _ _ _ _ _ Hm Ht) as [(t0 & Ht0 & _ & Hd0 & _)|(args & _ & Hth & Ha & _ & t0 & _ & _)].
    + left. exists t0. split; [done|]. congruence.
    + right. exists k, th, args. rewrite Hth. assert (report_ok input nRed args) as Hro.
      { eapply report_range; [done|exact Hk|by rewrite Hth]. }
      rewrite (actual_slot input nRed) in Ha; [|by apply (sh_nMap _ _ _ _ Hs)|done|done]. unfold report_slot, slot in Ha.
      split_and!; [by rewrite <-Hth|done|..]; destruct Hro as [[Hty ?]|[Hty ?]]; rewrite Hty in Ha; simpl in Ha; lia.
  - right. apply serve_lookup in Hj as [[-> ->]|[_ Hj]]; [|by eauto 8].
    exists k, th, args. split_and!; try done. by eapply thread_step_report.
Qed.

Lemma serve_files : files_ok c ths l fs ws → files_ok c' ths' l' fs ws.
Proof.
  intros [Ha Ht Hst Hin Hout Hred]. constructor; [| | |done| |].
  - intros r [j Hj]%list_elem_of_lookup. apply serve_lookup in Hj as [[_ Hj]|[_ Hj]].
    + by apply serve_answer.
    + apply Ha. apply list_elem_of_lookup. eauto.
  - intros i wk r Hi Hs. destruct (Ht _ _ _ Hi Hs). split; [by apply serve_answered|done].
  - intros i wk Hi. apply stage_ok_log; [|by eapply Hst]. intros w Hw Hty. apply serve_log.
    destruct (Ht _ _ _ Hi Hw) as [Hin' _]. by eapply answer_reduce.
  - intros r Hr. destruct (Hout r Hr) as [?|(? & Hq & ?)]; [by left|]. right. split; [done|].
    destruct HI as (Hs & Hp & _). simpl in *. rewrite serve_log by done. split; [|done].
    eapply quiet_move; [done..|by eapply thread_step_move|done].
  - intros r Hr Hrd%serve_reduced; [|done]. rewrite serve_log; [by apply Hred|]. eapply reduced_quiet; [done| |done]. lia.
Qed.
End serve.

(** ** A step of a task *)
Lemma stage_facts id st w :
  stage_work st = Some w →
  stage_task st = Some w ∧ busy st = true ∧ (∀ ths, eid ths (mkWorker id st) = id) ∧
  (∀ ths, held ths (mkWorker id st) = Some w).
Proof. intros Hw. by destruct st; simplify_eq. Qed.

Section working.
Context (c : Coordinator) (ths : list thread) (l : list TaskDoneArgs) (fs : filesystem) (ws : list worker).
Context (i : nat) (id : Z) (st : stage) (fs' : filesystem) (st' : stage) (w : AskTaskReply).
Hypothesis HI : Inv input nRed (mkWorld c ths l).
Hypothesis Hio : ids_ok c ths ws.
Hypothesis Hro : reports_ok c ths l fs ws.
Hypothesis Hfo : files_ok c ths l fs ws.
Hypothesis Hi : ws !! i = Some (mkWorker id st).
Hypothesis Hstep : task_step id fs st = Ret (fs', st').
Hypothesis Hw : stage_work st = Some w.

Lemma working_task : AskReturned w ∈ ths ∧ 0 ≤ ar_TaskId w ∧ 0 ≤ id ∧
  in_range input nRed (ar_TaskType w) (ar_TaskId w).
Proof.
  destruct (stage_facts id _ _ Hw) as (Hst & Hb & _). destruct (fo_task _ _ _ _ _ Hfo _ _ _ Hi Hst) as [Ha Hid].
  pose proof (answer_range _ _ _ HI _ Ha Hid) as Hr. pose proof (io_busy _ _ _ Hio _ _ Hi Hb).
  split_and!; try done. destruct Hr; lia.
Qed.

Lemma working_frame nm : ¬ touched id w nm → fs' !! nm = fs !! nm.
Proof. pose proof (fo_stage _ _ _ _ _ Hfo _ _ Hi). by eapply task_step_frame. Qed.

Lemma working_output r : 0 ≤ r → good_output fs l r → good_output fs' l r.
Proof.
  intros Hr. apply good_output_step. pose proof (fo_stage _ _ _ _ _ Hfo _ _ Hi) as Hs.
  destruct working_task as (_ & H0 & _). destruct (task_step_output _ _ _ _ _ _ _ r Hw Hs Hstep Hr H0); naive_solver.
Qed.

(** The files of the reports stay as they are. *)
Lemma working_reported args j : sent ths l args → 
  fs' !! map_file (da_Id args) (da_TaskId args) j = fs !! map_file (da_Id args) (da_TaskId args) j.
Proof.
  intros Hs. apply working_frame. destruct working_task as (_ & H0 & Hid & _), (stage_facts id _ _ Hw) as (_ & _ & He & Hh).
  intros (Heq & Ht & Hty)%touched_map_file; [|done|by apply (ro_id _ _ _ _ _ Hro)|by eapply sent_range|done].
  destruct (ro_fresh _ _ _ _ _ Hro _ _ _ args Hi (Hh ths) Hty Hs); [by rewrite He|done].
Qed.

Lemma working_reports : reports_ok c ths l fs' (<[i := mkWorker id st']> ws).
Proof.
  destruct (stage_facts id _ _ Hw) as (Hst & Hb & He & Hh).
  assert (wk_stage (mkWorker id st') = st' ∧ (stage_work st' = Some w ∨ ∃ outs, st' = Reporting w outs)) as [_ Hst'].
  { split; [done|]. by eapply stage_work_step. }
  apply reports_ws with (wk := mkWorker id st); [|done|right|..].
  - destruct Hro as [Hid Hg Hc Hf]. constructor; try done. intros args Hs. eapply good_report_frame; [|by apply Hg].
    intros j _. by apply working_reported.
  - rewrite He. destruct Hst' as [E|[? ->]]; [|done]. clear -E. by destruct st'.
  - rewrite Hh. destruct Hst' as [E|[? ->]]; [right|by left]. rewrite <-E. clear -E. by destruct st'.
  - right. simpl. split; [intros ->; done|]. intros k args _ ->. done.
Qed.

Lemma working_files : files_ok c ths l fs' (<[i := mkWorker id st']> ws).
Proof.
  destruct (stage_facts id _ _ Hw) as (Hst & Hb & He & Hh), working_task as (Ha & H0 & Hid & Hrange).
  pose proof (fo_stage _ _ _ _ _ Hfo _ _ Hi) as Hok. simpl in Hok.
  assert (∀ args, args ∈ l → good_report fs args) as Hl.
  { intros args Hin. apply (ro_good _ _ _ _ _ Hro). by eapply log_sent. }
  constructor.
  - by apply (fo_answer _ _ _ _ _ Hfo).
  - intros j wk r [(<- & <- & _)|[_ Hj]]%list_lookup_insert_Some Hr; [|by eapply fo_task].
    apply (fo_task _ _ _ _ _ Hfo _ _ _ Hi). simpl in *.
    destruct (stage_work_step _ _ _ _ _ _ _ _ _ _ Hw Hstep) as [?|[outs ->]]; [|simpl in *; congruence].
    destruct st'; simpl in *; congruence.
  - intros j wk [(<- & <- & _)|[Hne Hj]]%list_lookup_insert_Some; simpl.
    + destruct Hrange as [[Hty Hr]|[Hty Hr]].
      * apply (stage_step_map fs l id st w); try done;
          [by apply (fo_answer _ _ _ _ _ Hfo)|by apply (fo_input _ _ _ _ _ Hfo)].
      * destruct (answer_reduce _ _ _ HI _ Ha Hty) as [Hfl _].
        apply (stage_step_reduce fs l id st w); try done.
        intros Hd. destruct (fo_output _ _ _ _ _ Hfo _ H0) as [?|(_ & _ & Hg)]; [done|].
        unfold good_output in Hg. by rewrite decide_True in Hg.
    + pose proof (fo_stage _ _ _ _ _ Hfo _ _ Hj) as Hokj.
      destruct (busy (wk_stage wk)) eqn:Hbj; [|by destruct (wk_stage wk)].
      pose proof (io_busy _ _ _ Hio _ _ Hj Hbj) as Hidj.
      assert (eid ths wk = wk_id wk) as Hej by (unfold eid; by destruct (wk_stage wk)).
      apply (stage_other id w fs); try done.
      * intros Heq. apply Hne. apply (io_distinct _ _ _ Hio _ _ _ _ Hi Hj); rewrite He, ?Hej; [done|lia].
      * apply working_frame.
      * apply working_output.
      * intros w2 Hw2. destruct (fo_task _ _ _ _ _ Hfo _ _ _ Hj Hw2) as [Ha2 Hid2].
        pose proof (answer_range _ _ _ HI _ Ha2 Hid2) as Hr2. split; [destruct Hr2; lia|].
        intros Hty nm Hnm. destruct (answer_reduce _ _ _ HI _ Ha2 Hty) as [Hfl _]. rewrite Hfl in Hnm.
        apply list_elem_of_omap in Hnm as (args & Hin & Hd).
        destruct Hr2 as [[? _]|[_ Hr2]]; [lia|].
        rewrite (good_contribution fs args _ nm (Hl _ Hin) Hr2 Hd). apply working_reported.
        by eapply log_sent.
  - pose proof (fo_input _ _ _ _ _ Hfo) as Hin. pose proof input_plain as Hp.
    rewrite Forall_forall in Hin, Hp |- *. intros f Hf.
    rewrite working_frame; [by apply Hin|]. by apply touched_plain, Hp.
  - intros r Hr. destruct (task_step_output _ _ _ _ _ _ _ r Hw Hok Hstep Hr H0) as [->|(-> & Hty & Hd & Hf)].
    + destruct (fo_output _ _ _ _ _ Hfo r Hr) as [?|(? & ? & ?)]; [by left|right]. split_and!; auto.
      by apply working_output.
    + right. destruct (answer_reduce _ _ _ HI _ Ha Hty) as [_ Hq]. destruct Hrange as [[? _]|[_ ?]]; [lia|].
      split_and!; [lia|done|]. unfold good_output. by rewrite decide_False.
  - intros r Hr Hred. apply working_output; [lia|]. by apply (fo_reduced _ _ _ _ _ Hfo).
Qed.
End working.

(** ** The invariant *)
Record CInv (s : cluster) : Prop := {
  ci_inv : Inv input nRed (cl_world s);
  ci_ids : ids_ok (coord (cl_world s)) (threads (cl_world s)) (cl_workers s);
  ci_reports : reports_ok (coord (cl_world s)) (threads (cl_world s)) (log (cl_world s)) (cl_fs s) (cl_workers s);
  ci_files : files_ok (coord (cl_world s)) (threads (cl_world s)) (log (cl_world s)) (cl_fs s) (cl_workers s);
}.
Lemma CInv_initial : CInv (cluster_initial input nRed fs0).
Proof.
  constructor; simpl.
  - apply Inv_initial; [lia|done].
  - by constructor.
  - assert (∀ args, ¬ sent [] [] args) as Hs.
    { intros args [_ [?%elem_of_nil|(k & th & Hk & _)]]; [done|]. by rewrite lookup_nil in Hk. }
    constructor; try done; intros args Ha; by destruct (Hs args).
  - constructor; try done.
    + by intros r ?%elem_of_nil.
    + intros r _. by left.
Qed.

(** One lemma per kind of step. *)
Section steps.
Context (w : world) (fs : filesystem) (ws : list worker).
Hypothesis HS : CInv (mkCluster w fs ws).

Lemma CInv_join : CInv (mkCluster w fs (ws ++ [mkWorker (-1) Idle])).
Proof.
  destruct HS as [HI Hio [Hid Hg Hc Hf] []]. simpl in *. constructor; simpl; [done|by apply ids_join|..].
  - constructor; [done|done| |].
    + intros k args i wk Hk Hty [[_ Hi]|[_ <-]]%lookup_snoc_Some He; [by eapply Hc|].
      assert (sent (threads w) (log w) args) as Hs by (split; [done|right; eauto]).
      specialize (Hid _ Hs). unfold eid in He. simpl in He. lia.
    + intros i wk r args [[_ Hi]|[_ <-]]%lookup_snoc_Some; [by eapply Hf|done].
  - constructor; try done.
    + intros i wk r [[_ Hi]|[_ <-]]%lookup_snoc_Some; [by eauto|done].
    + intros i wk [[_ Hi]|[_ <-]]%lookup_snoc_Some; [by eauto|done].
Qed.

(** Process [i] moves on without a new call. *)
Lemma CInv_ws i id st wk' :
  ws !! i = Some (mkWorker id st) →
  (eid (threads w) wk' = -1 ∨ eid (threads w) wk' = eid (threads w) (mkWorker id st)) →
  (wk_id wk' = -1 ∨ wk_id wk' = eid (threads w) wk') → (∀ k, wk_stage wk' ≠ Asking k) →
  (busy (wk_stage wk') = true → 0 ≤ wk_id wk') →
  (held (threads w) wk' = None ∨ held (threads w) wk' = held (threads w) (mkWorker id st)) →
  (wk_stage wk' = Exited ∨ (st ≠ Exited ∧
     ∀ k args, threads w !! k = Some (DoneCalled args) → st ≠ Waiting k)) →
  (∀ r, stage_task (wk_stage wk') = Some r → AskReturned r ∈ threads w ∧ ar_TaskId r ≠ -1) →
  stage_ok fs (log w) (wk_id wk') (wk_stage wk') →
  CInv (mkCluster w fs (<[i := wk']> ws)).
Proof.
  intros Hi He Hown Hask Hbusy Hh Hst Htask Hok. destruct HS as [HI Hio Hro Hfo]. simpl in *.
  constructor; simpl; [done| | |by apply files_ws].
  - eapply ids_move; [done..| |done]. intros k Hk. by destruct (Hask k).
  - by eapply reports_ws.
Qed.

Lemma CInv_ask i id :
  ws !! i = Some (mkWorker id Idle) →
  CInv (mkCluster (mkWorld (coord w) (threads w ++ [ask_of id]) (log w)) fs
    (<[i := mkWorker id (Asking (length (threads w)))]> ws)).
Proof.
  intros Hi. destruct HS as [HI Hio Hro Hfo]. simpl in *. set (ths := threads w) in *.
  assert (∀ j wk, ws !! j = Some wk → eid (ths ++ [ask_of id]) wk = eid ths wk) as He.
  { intros j wk Hj. by eapply held_grow. }
  assert (eid (ths ++ [ask_of id]) (mkWorker id (Asking (length ths))) = id) as Heid.
  { unfold eid. simpl. by rewrite list_lookup_middle. }
  constructor; simpl.
  - eapply Inv_step; [exact HI|]. destruct w. apply step_ask.
  - eapply ids_move; [done..| |by right; rewrite Heid|by right; rewrite Heid| |done].
    + intros k th Hk. by apply lookup_app_l_Some.
    + intros k [= <-]. split; [|done]. exists (ask_of id). by rewrite list_lookup_middle.
  - eapply reports_ws; [apply reports_grow; [done|done|by left]|done| | |].
    + right. rewrite Heid. done.
    + left. unfold held. simpl. by rewrite list_lookup_middle.
    + right. split; [done|]. done.
  - apply files_ws; [|done|done]. by apply files_grow.
Qed.

Lemma CInv_report i id work outs :
  ws !! i = Some (mkWorker id (Reporting work outs)) →
  CInv (mkCluster (mkWorld (coord w) (threads w ++ [DoneCalled (report_of id work outs)]) (log w)) fs
    (<[i := mkWorker id (Waiting (length (threads w)))]> ws)).
Proof.
  intros Hi. pose proof HS as [HI Hio Hro Hfo]. simpl in *.
  destruct (fo_task _ _ _ _ _ Hfo _ _ work Hi eq_refl) as [Ha Hid].
  destruct (fo_stage _ _ _ _ _ Hfo _ _ Hi) as [Hg Ho]. simpl in *.
  pose proof (io_busy _ _ _ Hio _ _ Hi eq_refl) as H0. simpl in H0.
  assert (0 ≤ id < workers (coord w)) as Hrange.
  { destruct (io_range _ _ _ Hio _ _ Hi) as [He|He]; unfold eid in He; simpl in He; lia. }
  destruct (CInv_ws i id _ (mkWorker id (Waiting (length (threads w)))) Hi) as [_ Hio' Hro' Hfo'];
    simpl in *; try done; [by right|by right|by left|by right|].
  constructor; simpl.
  - eapply Inv_step; [exact HI|]. destruct w. apply step_done. exists work. done.
  - assert (∀ j wk, ws !! j = Some wk → eid (threads w ++ [DoneCalled (report_of id work outs)]) wk =
      eid (threads w) wk) as He.
    { intros j wk Hj. exact (proj2 (held_grow _ _ _ _ _ _ Hio Hj)). }
    eapply ids_move; [done..| |by right|by right|done|done]. intros k th Hk. by apply lookup_app_l_Some.
  - apply reports_grow; [done|done|]. right. eexists. split; [done|]. intros Hty. split; [done|].
    split; [by apply Hg|]. intros j wk Hj He. simpl in *.
    assert (j = i) as ->.
    { eapply (io_distinct _ _ _ Hio' j i wk (mkWorker id (Waiting (length (threads w))))); [done| |by rewrite He|lia].
      apply list_lookup_insert_eq. by eapply lookup_lt_Some. }
    rewrite list_lookup_insert_eq in Hj by by eapply lookup_lt_Some. by injection Hj as <-.
  - apply files_grow; [done|done|done|]. intros args [= <-] Hty. by apply Ho.
Qed.
End steps.

Lemma task_step_work id fs st fs' st' : task_step id fs st = Ret (fs', st') → ∃ w, stage_work st = Some w.
Proof. destruct st; simpl; try done; eauto. Qed.

Lemma CInv_step s s' : CInv s → cstep sort writable (λ f c, Ret (mf f c)) (λ k vs, Ret (rf k vs)) s s' → CInv s'.
Proof.
  intros HS Hst. pose proof HS as [HI Hio Hro Hfo].
  destruct Hst as [w fs ws|c ths l fs ws i id Hi|c ths l fs ws k th c' th' since now Hk Hth
    |w fs ws i id k reply Hi Hk|[c ths l] fs ws i id st fs' st' Hi Hts|c ths l fs ws i id work outs Hi
    |w fs ws i id k reply err Hi Hk|w fs ws i id st Hi]; simpl in *.
  - by apply CInv_join.
  - by apply (CInv_ask (mkWorld c ths l)).
  - constructor; simpl; [eapply Inv_step; [exact HI|by eapply step_run]|by eapply ids_serve|
      by eapply serve_reports|by eapply serve_files].
  - destruct (io_asking _ _ _ Hio _ _ _ Hi eq_refl) as (th & Hk' & Ha). rewrite Hk in Hk'.
    injection Hk' as <-. destruct Ha as (r & [= <-] & H0 & Hown).
    apply (CInv_ws _ _ _ HS i id (Asking k) _ Hi); unfold answered, eid, held; simpl; rewrite ?Hk; simpl;
      destruct (Z.eqb_spec (ar_TaskId reply) (-1)) as [E|E]; simpl; auto; try done.
    intros r [= <-]. split; [|done]. by eapply list_elem_of_lookup_2.
  - destruct (task_step_work _ _ _ _ _ Hts) as [w Hw]. constructor; simpl; [done| | |].
    + destruct (stage_facts id _ _ Hw) as (_ & Hb & He & _).
      assert ((∀ ths, eid ths (mkWorker id st') = id) ∧ ∀ k, st' ≠ Asking k) as [He' Hna].
      { destruct (stage_work_step _ _ _ _ _ _ _ _ _ _ Hw Hts) as [E|[? ->]]; [by destruct st'|done]. }
      pose proof (io_busy _ _ _ Hio _ _ Hi Hb).
      eapply ids_move; [done..|right; by rewrite He, He'|right; by rewrite He'| |done].
      intros k Hst'. by destruct (Hna k).
    + by eapply working_reports.
    + by eapply working_files.
  - by apply (CInv_report (mkWorld c ths l)).
  - apply (CInv_ws _ _ _ HS i id (Waiting k) _ Hi); unfold acknowledged, eid, held; simpl;
      destruct err; simpl; auto; try done.
    right. split; [done|]. intros k' args Hk' [= <-]. congruence.
  - apply (CInv_ws _ _ _ HS i id st _ Hi); simpl; auto; try done.
    exact (io_own _ _ _ Hio _ _ Hi).
Qed.
End inv.
