(* ===== verification/ClusterJob.v ===== *)
(** * Several workers: the output files

    Whatever the interleaving and whichever processes stop, an output file is
    never seen half-written, and when the coordinator says that the job is done
    the output files are those of the sequential program, split by key. *)
From S2P Require Import Prelude GoStrings Coordinator CoordinatorProof CoordinatorSeq Worker Grouping Job.
From S2P Require Import Cluster ClusterProof ClusterIds ClusterInv.

Section job.
Context {HC : Codec}.
Context (sort : ∀ A, (A → A → bool) → list A → list A) {HG : GoSort sort}.
Context (writable : string → bool).
Context (mf : string → string → list KeyValue) (rf : string → list string → string).
Hypothesis rf_perm : ∀ k vs vs', vs ≡ₚ vs' → rf k vs = rf k vs'.
Context (input : list string) (nRed : Z) (content : string → string) (fs0 : filesystem).
Hypothesis nRed_pos : 0 < nRed.
Hypothesis size_ok : Z.of_nat (length input) + nRed < 2 ^ 63.
Hypothesis input_plain : Forall plain input.
Hypothesis input_content : Forall (λ f, fs0 !! f = Some (content f)) input.
Hypothesis mf_safe : ∀ f, Forall json_safe (mf f (content f)).
Abbreviation m := (Z.of_nat (length input)).
Abbreviation cstep := (cstep sort writable (λ f c, Ret (mf f c)) (λ k vs, Ret (rf k vs))).
Abbreviation creachable :=
  (cluster_reachable sort writable (λ f c, Ret (mf f c)) (λ k vs, Ret (rf k vs)) input nRed fs0).
Abbreviation CInv := (CInv sort mf rf input nRed content fs0).

(** What the sequential code of the tasks writes for reduce task [r]. *)
Definition output (r : Z) : string :=
  file_of (lines rf (sort _ byKey (bucket_of nRed r (emitted mf input content)))).

Lemma creachable_CInv s : creachable s → CInv s.
Proof.
  intros Hs. unfold cluster_reachable in Hs.
  assert (CInv (cluster_initial input nRed fs0)) as H0 by by apply CInv_initial.
  revert H0 Hs. generalize (cluster_initial input nRed fs0) as s0. intros s0 H0 Hs.
  induction Hs as [|s0 s1 s2 Hst _ IH]; [done|]. apply IH. by eapply CInv_step.
Qed.

(** Once every map task is done, the data of reduce task [r] are its pairs. *)
Lemma reduce_data_perm c ths l r :
  Inv input nRed (mkWorld c ths l) → quiet input c ths →
  reduce_data mf input nRed content l r ≡ₚ bucket_of nRed r (emitted mf input content).
Proof.
  intros (Hs & Hp & _) [Hq _]. simpl in *. pose proof (log_full _ _ _ _ _ Hs Hp Hq) as Hl.
  unfold reduce_data. rewrite emitted_pairs, bucket_concat, <-list_fmap_compose.
  replace ((λ args, bucket_of nRed r (emits mf input content (da_TaskId args))) <$> l)
    with ((λ t, bucket_of nRed r (emits mf input content t)) <$> (da_TaskId <$> l))
    by by rewrite <-list_fmap_compose.
  rewrite Hl. unfold seqZ. rewrite <-list_fmap_compose, Nat2Z.id.
  erewrite list_fmap_ext; [done|]. intros i t Ht. simpl. unfold emits. rewrite Z.add_0_r, Nat2Z.id. done.
Qed.

Lemma good_output_right c ths l fs r :
  Inv input nRed (mkWorld c ths l) → quiet input c ths →
  good_output sort mf rf input nRed content fs0 fs l r →
  fs !! reduce_file r =
    if decide (bucket_of nRed r (emitted mf input content) = []) then fs0 !! reduce_file r
    else Some (output r).
Proof.
  intros HI Hq Hg. pose proof (reduce_data_perm _ _ _ r HI Hq) as Hd. unfold good_output in Hg.
  rewrite Hg. unfold right_output, output. rewrite (lines_perm sort rf rf_perm _ _ Hd).
  apply decide_ext. split; intros E; rewrite E in Hd; [by apply Permutation_nil|by apply Permutation_nil_r].
Qed.

(** C10 In every state of the cluster, whichever processes have stopped where,
    the input files are as they were, and an output file either is as it was at
    the start or holds all the lines of its reduce task: no reader sees a
    half-written output, or one made from part of the map output. *)
Theorem output_never_partial s :
  creachable s →
  Forall (λ f, cl_fs s !! f = Some (content f)) input ∧
  ∀ r, 0 ≤ r → cl_fs s !! reduce_file r = fs0 !! reduce_file r ∨
    (r < nRed ∧ bucket_of nRed r (emitted mf input content) ≠ [] ∧
     cl_fs s !! reduce_file r = Some (output r)).
Proof.
  intros Hs%creachable_CInv. destruct s as [[c ths l] fs ws], Hs as [HI _ _ Hfo]. simpl in *.
  split; [by apply (fo_input _ _ _ _ _ _ _ _ _ _ _ _ Hfo)|]. intros r Hr.
  destruct (fo_output _ _ _ _ _ _ _ _ _ _ _ _ Hfo r Hr) as [?|(Hlt & Hq & Hg)]; [by left|].
  rewrite (good_output_right _ _ _ _ _ HI Hq Hg). case_decide; [by left|by right].
Qed.
Lemma all_done_tasks ts k t : all_done ts = Ret true → ts !! k = Some t → done t = true.
Proof.
  revert k. induction ts as [|t0 ts IH]; intros k H Hk; [done|]. simpl in H.
  destruct (taskLock t0); [done|]. simpl in H. destruct (done t0) eqn:E; [|done].
  destruct k as [|k]; simplify_eq/=; [done|]. by eapply IH.
Qed.

(** Once the coordinator says that the job is done the files are the right ones. *)
Lemma done_files s r :
  creachable s → Done (coord (cl_world s)) = Ret true → 0 ≤ r < nRed →
  cl_fs s !! reduce_file r =
    if decide (bucket_of nRed r (emitted mf input content) = []) then fs0 !! reduce_file r
    else Some (output r).
Proof.
  intros Hs%creachable_CInv Hd Hr. destruct s as [[c ths l] fs ws], Hs as [HI _ _ Hfo]. simpl in *.
  destruct HI as (Hs & Hp & Hg).
  destruct (lookup_lt_is_Some_2 (tasks c) (Z.to_nat (m + r))) as [t Ht].
  { pose proof (sh_length _ _ _ _ Hs). simpl in *. lia. }
  assert (reduced input c ths r) as Hred by (left; exists t; split; [done|by eapply all_done_tasks]).
  assert (Inv input nRed (mkWorld c ths l)) as HI by done.
  eapply good_output_right; [done| |by apply (fo_reduced _ _ _ _ _ _ _ _ _ _ _ _ Hfo)].
  eapply reduced_quiet; [done| |done]. lia.
Qed.

(** C7 When the coordinator of any number of workers, of which any may have
    stopped anywhere, says that the job is done, output file [r] holds exactly
    the lines of the pairs whose key hashes to [r] (no file if there are none),
    and the lines of all output files are those of the sequential program. *)
Theorem cluster_outputs s :
  creachable s → Done (coord (cl_world s)) = Ret true →
  (∀ r, 0 ≤ r < nRed → cl_fs s !! reduce_file r =
     if decide (bucket_of nRed r (emitted mf input content) = []) then fs0 !! reduce_file r
     else Some (output r)) ∧
  ∃ ls, ls ≡ₚ concat ((λ r, lines rf (sort _ byKey (bucket_of nRed r (emitted mf input content)))) <$> seqZ 0 nRed) ∧
    mrsequential sort (λ _, true) (λ f c, Ret (mf f c)) (λ k vs, Ret (rf k vs)) input fs0 =
      Ret (<["mr-out-0" := file_of ls]> fs0).
Proof.
  intros Hs Hd. split; [intros r; by apply done_files|].
  exists (lines rf (sort _ byKey (emitted mf input content))). split; [by apply buckets_sequential|].
  by apply mrsequential_run.
Qed.
End job.

(** ** Two workers, one of which stops in the middle of a file *)
Section example.
#[local] Existing Instance bits_codec.
Abbreviation ex_cluster := (cluster_initial ["in1"; "in2"] 1 ex_fs).
Abbreviation ex_moves := (cmoves insertion_sort (λ _, true) (λ f c, Ret (ex_mf f c)) (λ k vs, Ret (ex_rf k vs))).

(** The moves of process [i] whose [AskTask] is thread [k], [n] steps of the
    coordinator: ask, be answered. *)
Definition ask (i k n : nat) (now : Z) : list move :=
  MvAsk i :: replicate n (MvServe k now now) ++ [MvAnswer i].
Definition tell (i k n : nat) : list move :=
  MvReport i :: replicate n (MvServe k 0 0) ++ [MvAcked i].
(** Process 0 stops when its file is created and still empty; process 1 is
    given the second input, and after ten seconds the first. *)
Definition ex_schedule : list move :=
  [MvJoin; MvJoin] ++ ask 0 0 3 0 ++ replicate 2 (MvTask 0) ++ [MvStop 0] ++
  ask 1 1 4 0 ++ replicate 4 (MvTask 1) ++ tell 1 2 4 ++
  ask 1 3 3 (11 * 10 ^ 9) ++ replicate 4 (MvTask 1) ++ tell 1 4 4 ++
  ask 1 5 3 0 ++ replicate 6 (MvTask 1) ++ tell 1 6 3.

Definition ex_end : cluster := default ex_cluster (ex_moves ex_schedule ex_cluster).
Example ex_schedule_runs :
  (λ s, (Done (coord (cl_world s)), wk_stage <$> cl_workers s, cl_fs s !! reduce_file 0)) <$>
    ex_moves ex_schedule ex_cluster = Some (Ret true, [Exited; Idle], Some (line "a" "1" +:+ line "b" "3")).
Proof. vm_compute. reflexivity. Qed.

Abbreviation ex_reachable :=
  (cluster_reachable insertion_sort (λ _, true) (λ f c, Ret (ex_mf f c)) (λ k vs, Ret (ex_rf k vs))
     ["in1"; "in2"] 1 ex_fs).
Lemma ex_end_reachable : ex_reachable ex_end.
Proof. apply (cmoves_reachable _ _ _ _ ex_schedule). vm_compute. reflexivity. Qed.

Lemma ex_rf_perm k vs vs' : vs ≡ₚ vs' → ex_rf k vs = ex_rf k vs'.
Proof. intros Hp. unfold ex_rf. by rewrite Hp. Qed.

Lemma output_never_partial_witness :
  ex_reachable ex_end ∧
  (Forall (λ f, cl_fs ex_end !! f = Some (ex_content f)) ["in1"; "in2"] ∧
   ∀ r, 0 ≤ r → cl_fs ex_end !! reduce_file r = ex_fs !! reduce_file r ∨
     (r < 1 ∧ bucket_of 1 r (emitted ex_mf ["in1"; "in2"] ex_content) ≠ [] ∧
      cl_fs ex_end !! reduce_file r = Some (output insertion_sort ex_mf ex_rf ["in1"; "in2"] 1 ex_content r))).
Proof.
  split; [exact ex_end_reachable|].
  apply (output_never_partial insertion_sort (λ _, true) ex_mf ex_rf ex_rf_perm ["in1"; "in2"] 1 ex_content ex_fs).
  - done.
  - done.
  - repeat constructor.
  - repeat constructor.
  - intros f. repeat constructor.
  - exact ex_end_reachable.
Defined.

Lemma cluster_outputs_witness :
  Done (coord (cl_world ex_end)) = Ret true ∧
  (∀ r, 0 ≤ r < 1 → cl_fs ex_end !! reduce_file r =
     if decide (bucket_of 1 r (emitted ex_mf ["in1"; "in2"] ex_content) = []) then ex_fs !! reduce_file r
     else Some (output insertion_sort ex_mf ex_rf ["in1"; "in2"] 1 ex_content r)) ∧
  ∃ ls, ls ≡ₚ concat ((λ r, lines ex_rf (insertion_sort _ byKey
      (bucket_of 1 r (emitted ex_mf ["in1"; "in2"] ex_content)))) <$> seqZ 0 1) ∧
    mrsequential insertion_sort (λ _, true) (λ f c, Ret (ex_mf f c)) (λ k vs, Ret (ex_rf k vs))
      ["in1"; "in2"] ex_fs = Ret (<["mr-out-0" := file_of ls]> ex_fs).
Proof.
  split; [vm_compute; reflexivity|].
  apply (cluster_outputs insertion_sort (λ _, true) ex_mf ex_rf ex_rf_perm ["in1"; "in2"] 1 ex_content ex_fs).
  - done.
  - done.
  - repeat constructor.
  - repeat constructor.
  - intros f. repeat constructor.
  - exact ex_end_reachable.
  - vm_compute. reflexivity.
Defined.
End example.
