(* ===== verification/ClusterFinish.v ===== *)
(** * Several workers: the job can always be finished

    From every state of the cluster, whichever processes have stopped, one more
    process is enough to finish the job: the calls on their way return, and then
    each round of it does one more task. *)
From S2P Require Import Prelude GoStrings Coordinator CoordinatorProof CoordinatorSeq Worker Grouping Job.
From S2P Require Import Cluster ClusterProof ClusterIds ClusterInv ClusterJob.

Section finish.
Context {HC : Codec}.
Context (sort : ∀ A, (A → A → bool) → list A → list A) {HG : GoSort sort}.
Context (writable : string → bool).
Hypothesis all_writable : ∀ name, writable name = true.
Context (mf : string → string → list KeyValue) (rf : string → list string → string).
Context (input : list string) (nRed : Z) (content : string → string) (fs0 : filesystem).
Hypothesis nRed_pos : 0 < nRed.
Hypothesis size_ok : Z.of_nat (length input) + nRed < 2 ^ 63.
Hypothesis input_plain : Forall plain input.
Hypothesis input_content : Forall (λ f, fs0 !! f = Some (content f)) input.
Hypothesis mf_safe : ∀ f, Forall json_safe (mf f (content f)).
Abbreviation m := (Z.of_nat (length input)).
Abbreviation cstep := (cstep sort writable (λ f c, Ret (mf f c)) (λ k vs, Ret (rf k vs))).
Abbreviation tstep := (tstep sort writable (λ f c, Ret (mf f c)) (λ k vs, Ret (rf k vs))).
Abbreviation do_task := (do_task sort writable (λ f c, Ret (mf f c)) (λ k vs, Ret (rf k vs))).
Abbreviation CInv := (CInv sort mf rf input nRed content fs0).

(** ** The calls on their way return *)
Definition rank (th : thread) : nat :=
  let n := Z.to_nat (m + nRed) in
  match th with
  | AskCalled _ | DoneCalled _ => 3 + n
  | AskNumbered _ | DoneMarked _ _ => 2 + n
  | AskScanning _ _ stop i => 1 + Z.to_nat (stop - i)
  | DoneMerging _ _ j => 1 + Z.to_nat (m + nRed - j)
  | AskReturned _ | DoneReturned _ _ => 0
  end.

Lemma move_rank c ths th c' th' :
  shape input nRed c ths → th_ok input nRed th → CoordinatorProof.move c th c' th' →
  (rank th' < rank th)%nat ∧ workDone c ≤ workDone c'.
Proof.
  intros Hs Hth Hm. pose proof (sh_nMap _ _ _ _ Hs) as Hnm. pose proof (sh_nReduce _ _ _ _ Hs) as Hnr.
  destruct Hm; simpl in *; try (split; lia).
  - split; [|lia]. unfold ask_range. rewrite Hnm, Hnr. case_match; simpl; lia.
  - destruct Hth as [[[Ht ?]|[Ht ?]] _]; rewrite Ht; simpl; lia.
Qed.

Lemma sum_rank_insert ths k th th' :
  ths !! k = Some th → (rank th' < rank th)%nat →
  (sum_list_with rank (<[k := th']> ths) < sum_list_with rank ths)%nat.
Proof.
  revert k. induction ths as [|t ths IH]; intros [|k] Hk Hr; simplify_eq/=; [lia|].
  specialize (IH _ Hk Hr). lia.
Qed.

Definition all_returned (ths : list thread) : Prop := Forall (λ th, returned th = true) ths.

Lemma returned_snoc ths th th' :
  all_returned ths → returned th' = true → all_returned (<[length ths := th']> (ths ++ [th])).
Proof.
  intros Hr Ht. rewrite insert_app_r_alt, Nat.sub_diag by done. apply Forall_app. split; [done|].
  by repeat constructor.
Qed.

Lemma drain c ths l fs ws :
  CInv (mkCluster (mkWorld c ths l) fs ws) →
  ∃ c' ths' l', rtc cstep (mkCluster (mkWorld c ths l) fs ws) (mkCluster (mkWorld c' ths' l') fs ws) ∧
    all_returned ths' ∧ workDone c ≤ workDone c'.
Proof.
  remember (sum_list_with rank ths) as n eqn:Hn. revert c ths l Hn.
  induction (lt_wf n) as [n _ IH]. intros c ths l -> HI.
  destruct (decide (all_returned ths)) as [Hr|Hr]; [by exists c, ths, l|].
  pose proof HI as [(Hs & Hp & _) _ _ _]. simpl in *.
  destruct (threads_progress input nRed c ths l 0 0 Hs Hp) as (k & th & c1 & th1 & Hk & Hst).
  { apply not_Forall_Exists in Hr; [|apply _]. apply Exists_exists in Hr as (th & [k Hk]%list_elem_of_lookup & Hr).
    exists k, th. split; [done|]. by apply not_true_is_false. }
  assert (cstep (mkCluster (mkWorld c ths l) fs ws)
            (mkCluster (mkWorld c1 (<[k := th1]> ths) (log_step th l)) fs ws)) as Hc by by econstructor.
  destruct (move_rank c ths th c1 th1 Hs) as [Hlt Hle]; [|by eapply thread_step_move|].
  { eapply Forall_lookup_1; [by apply (sh_th _ _ _ _ Hs)|done]. }
  destruct (IH _ (sum_rank_insert _ _ _ _ Hk Hlt) c1 _ (log_step th l) eq_refl) as (c' & ths' & l' & Hrun & ? & ?).
  { by eapply CInv_step. }
  exists c', ths', l'. split_and!; [by eapply rtc_l|done|lia].
Qed.

(** ** Runs of one thread, of one task *)
Lemma solo_run x y k ths l fs ws :
  rtc solo x y → ths !! k = Some x.2 →
  ∃ l', rtc cstep (mkCluster (mkWorld x.1 ths l) fs ws) (mkCluster (mkWorld y.1 (<[k := y.2]> ths) l') fs ws).
Proof.
  intros H. revert ths l. induction H as [x|x y z (since & now & Hxy) _ IH]; intros ths l Hk.
  - exists l. rewrite list_insert_id by done. apply rtc_refl.
  - destruct y as [c' th']. destruct (IH (<[k := th']> ths) (log_step x.2 l)) as [l' Hr].
    { apply list_lookup_insert_eq. by eapply lookup_lt_Some. }
    exists l'. eapply rtc_l; [by eapply cs_serve|]. simpl in Hr. by rewrite list_insert_insert_eq in Hr.
Qed.

Lemma task_run id x y i w ws :
  rtc (tstep id) x y → ws !! i = Some (mkWorker id x.2) →
  rtc cstep (mkCluster w x.1 ws) (mkCluster w y.1 (<[i := mkWorker id y.2]> ws)).
Proof.
  intros H. revert ws. induction H as [x|x y z Hxy _ IH]; intros ws Hi.
  - rewrite list_insert_id by done. apply rtc_refl.
  - destruct y as [fs' st']. eapply rtc_l; [by eapply cs_task|].
    specialize (IH (<[i := mkWorker id st']> ws)). simpl in *. rewrite list_insert_insert_eq in IH.
    apply IH. apply list_lookup_insert_eq. by eapply lookup_lt_Some.
Qed.

Lemma CInv_rtc s s' : CInv s → rtc cstep s s' → CInv s'.
Proof. intros HI Hr. induction Hr; [done|]. eauto using CInv_step. Qed.
(** ** A round of one more process *)
(** A clock that reads more than ten seconds after every task was issued. *)
Definition late (c : Coordinator) (i : Z) : Z * Z :=
  (match tasks c !! Z.to_nat i with Some t => lastIssued t + timeout + 1 | None => 0 end, 0).

Lemma undone_task c ths l :
  Inv input nRed (mkWorld c ths l) → all_returned ths → workDone c < m + nRed →
  ∃ k t, (ask_range c).1 ≤ k < (ask_range c).2 ∧ tasks c !! Z.to_nat k = Some t ∧ done t = false.
Proof.
  intros HI Hret Hlt. destruct (returned_idle _ _ _ _ _ HI Hret) as [Hc Hcount].
  destruct HI as (Hs & Hp & _). simpl in *. pose proof (sh_length _ _ _ _ Hs) as Hl.
  pose proof (sh_nMap _ _ _ _ Hs) as Hnm. pose proof (sh_nReduce _ _ _ _ Hs) as Hnr.
  assert (∀ ts : list taskData, count done ts < Z.of_nat (length ts) →
    ∃ k t, ts !! k = Some t ∧ done t = false) as Hex.
  { intros ts Hts. destruct (decide (Forall (λ t, done t = true) ts)) as [Hf|Hf].
    - rewrite count_all in Hts by done. lia.
    - apply not_Forall_Exists in Hf; [|apply _]. apply Exists_exists in Hf as (t & [k Hk]%list_elem_of_lookup & Hd).
      exists k, t. split; [done|]. by apply not_true_is_false. }
  unfold ask_range. rewrite Hnm, Hnr. destruct (Z.ltb_spec (workDone c) m) as [Hw|Hw]; simpl.
  - rewrite <-(take_drop (length input) (tasks c)), count_app in Hcount.
    pose proof (count_nonneg done (drop (length input) (tasks c))).
    destruct (Hex (take (length input) (tasks c))) as (k & t & Hk & Hd).
    { rewrite length_take. lia. }
    apply lookup_take_Some in Hk as [Hk Hlk]. exists (Z.of_nat k), t. rewrite Nat2Z.id. split; [lia|done].
  - destruct (Hex (tasks c)) as (k & t & Hk & Hd); [lia|]. exists (Z.of_nat k), t. rewrite Nat2Z.id.
    split; [|done]. pose proof (lookup_lt_Some _ _ _ Hk).
    assert (¬ (k < length input)%nat) as Hge; [|lia]. intros Hlk.
    pose proof (maps_done _ _ _ _ _ _ _ Hs Hp Hw Hk Hlk). congruence.
Qed.

Lemma ask_late c ths l :
  Inv input nRed (mkWorld c ths l) → all_returned ths → workDone c < m + nRed →
  ∃ c1 reply k t, AskTask (late c) c (mkAskTaskArgs (-1)) = Ret (c1, reply) ∧ ar_Id reply = workers c ∧
    ar_TaskId reply ≠ -1 ∧ slot input (ar_TaskType reply) (ar_TaskId reply) = Z.of_nat k ∧
    tasks c1 !! k = Some t ∧ done t = false ∧ workDone c1 = workDone c.
Proof.
  intros HI Hret Hlt. destruct (returned_idle _ _ _ _ _ HI Hret) as [Hc _].
  destruct (undone_task _ _ _ HI Hret Hlt) as (k0 & t0 & Hk0 & Ht0 & Hd0).
  destruct HI as (Hs & _). simpl in Hs. pose proof (sh_nMap _ _ _ _ Hs) as Hnm.
  pose proof (sh_nReduce _ _ _ _ Hs) as Hnr. pose proof (ask_range_bounds c Hc) as Hb.
  destruct (AskTask_branches (late c) c (mkAskTaskArgs (-1)) Hc) as [[_ Hin]|(k & t & Hk & Ht & Hd & _ & _ & E)].
  { specialize (Hin k0 t0 Hk0 Ht0). unfold eligible, late in Hin. rewrite Ht0, Hd0 in Hin. simpl in Hin. lia. }
  destruct (sh_task _ _ _ _ Hs _ _ Ht) as [Hid Hty]. rewrite Z2Nat.id in Hid by lia.
  assert (slot input (taskType t) (if (ask_range c).1 =? 0 then taskId t else taskId t - nMap c) = k ∧
    (if (ask_range c).1 =? 0 then taskId t else taskId t - nMap c) ≠ -1) as [Hslot Hne].
  { unfold slot, ask_range in *. rewrite Hid, Hnm, Hnr in *.
    destruct (input !! Z.to_nat k) as [f|] eqn:Hf.
    - destruct Hty as [-> _]. apply lookup_lt_Some in Hf. simpl in *. destruct (workDone c <? m); simpl in *; [lia|].
      destruct (Z.eqb_spec m 0); lia.
    - rewrite Hty. apply lookup_ge_None in Hf. simpl in *. destruct (workDone c <? m); simpl in *; [lia|].
      destruct (Z.eqb_spec m 0); lia. }
  eexists _, _, (Z.to_nat k), (set_issued 0 t). split; [exact E|]. unfold ask_reply, ask_id. simpl.
  split_and!; try done; [lia|]. apply list_lookup_insert_eq. by eapply lookup_lt_Some.
Qed.

Lemma do_task_ok c ths l fs ws i id reply :
  CInv (mkCluster (mkWorld c ths l) fs ws) → ws !! i = Some (mkWorker id (Started reply)) →
  ∃ fs' outs, do_task id reply fs = Ret (fs', outs).
Proof.
  intros [HI Hio Hro Hfo] Hi. simpl in *.
  destruct (fo_task _ _ _ _ _ _ _ _ _ _ _ _ Hfo _ _ reply Hi eq_refl) as [Ha Hid].
  pose proof (io_busy _ _ _ Hio _ _ Hi eq_refl) as H0. simpl in H0.
  pose proof (fo_answer _ _ _ _ _ _ _ _ _ _ _ _ Hfo _ Ha) as Hok.
  unfold Worker.do_task. destruct (answer_range _ _ _ _ _ HI _ Ha Hid) as [[Hty Hr]|[Hty Hr]]; rewrite Hty; simpl.
  - destruct (Hok ltac:(lia)) as (HN & f & Hf & Hfl); [done|].
    pose proof (fo_input _ _ _ _ _ _ _ _ _ _ _ _ Hfo) as Hin. rewrite Forall_forall in Hin.
    destruct (map_task_run writable all_writable mf rf id reply f (content f) fs)
      as (fs' & outs & -> & _); [done|lia|lia|done|by eapply Hin, list_elem_of_lookup_2|eauto].
  - destruct (answer_reduce _ _ _ _ _ HI _ Ha Hty) as [Hfl _].
    unfold reduce_task. case_decide as Hnil; [by eauto|]. rewrite Hfl.
    destruct (read_contributions mf input nRed content mf_safe fs l (ar_TaskId reply) []) as [-> _]; [done| |].
    { intros args Hin. apply (ro_good _ _ _ _ _ _ _ _ _ Hro). by eapply log_sent. }
    simpl. rewrite os_Create_run by done. simpl. rewrite reduce_output_pure. simpl. eauto.
Qed.
(** A new process asks and is given a task that is not done. *)
Lemma ask_round c ths l fs ws :
  CInv (mkCluster (mkWorld c ths l) fs ws) → all_returned ths → workDone c < m + nRed →
  ∃ c1 ths1 l1 ws1 i id reply k t,
    rtc cstep (mkCluster (mkWorld c ths l) fs ws) (mkCluster (mkWorld c1 ths1 l1) fs ws1) ∧
    all_returned ths1 ∧ ws1 !! i = Some (mkWorker id (Started reply)) ∧ workDone c1 = workDone c ∧
    slot input (ar_TaskType reply) (ar_TaskId reply) = Z.of_nat k ∧
    tasks c1 !! k = Some t ∧ done t = false.
Proof.
  intros HI Hret Hlt. pose proof (ci_inv _ _ _ _ _ _ _ _ HI) as Hinv. simpl in Hinv.
  destruct (returned_idle _ _ _ _ _ Hinv Hret) as [Hc _].
  destruct (ask_late _ _ _ Hinv Hret Hlt) as (c1 & reply & k & t & E & Hid & Hne & Hslot & Ht & Hd & Hw).
  set (ws1 := ws ++ [mkWorker (-1) Idle]). set (i := length ws).
  assert (ws1 !! i = Some (mkWorker (-1) Idle)) as Hi by by apply list_lookup_middle.
  set (ths1 := ths ++ [ask_of (-1)]).
  assert (ths1 !! length ths = Some (ask_of (-1))) as Hk by by apply list_lookup_middle.
  destruct (solo_run _ _ (length ths) ths1 l fs (<[i := mkWorker (-1) (Asking (length ths))]> ws1)
    (AskTask_solo _ _ _ _ _ Hc E) Hk) as [l1 Hrun]. simpl in Hrun.
  exists c1, (<[length ths := AskReturned reply]> ths1), l1,
    (<[i := answered reply]> (<[i := mkWorker (-1) (Asking (length ths))]> ws1)),
    i, (ar_Id reply), reply, k, t. split_and!; try done.
  - eapply rtc_l; [apply cs_join|]. eapply rtc_l; [by apply cs_ask|]. etrans; [exact Hrun|].
    apply rtc_once. eapply cs_answer.
    + apply list_lookup_insert_eq. by eapply lookup_lt_Some.
    + apply list_lookup_insert_eq. by eapply lookup_lt_Some.
  - by apply returned_snoc.
  - rewrite list_lookup_insert_eq; [|rewrite length_insert; by eapply lookup_lt_Some].
    unfold answered. by destruct (Z.eqb_spec (ar_TaskId reply) (-1)).
Qed.

(** It does the task and reports it. *)
Lemma work_round c ths l fs ws i id reply k t :
  CInv (mkCluster (mkWorld c ths l) fs ws) → all_returned ths → ws !! i = Some (mkWorker id (Started reply)) →
  slot input (ar_TaskType reply) (ar_TaskId reply) = Z.of_nat k → tasks c !! k = Some t → done t = false →
  ∃ c1 ths1 l1 fs1 ws1,
    rtc cstep (mkCluster (mkWorld c ths l) fs ws) (mkCluster (mkWorld c1 ths1 l1) fs1 ws1) ∧
    all_returned ths1 ∧ workDone c1 = workDone c + 1.
Proof.
  intros HI Hret Hi Hslot Ht Hd. pose proof HI as [Hinv _ _ Hfo]. simpl in *.
  destruct (returned_idle _ _ _ _ _ Hinv Hret) as [Hc _].
  destruct (do_task_ok _ _ _ _ _ _ _ _ HI Hi) as (fs1 & outs & Htask).
  apply do_task_runs in Htask. pose proof (task_run id _ _ i (mkWorld c ths l) ws Htask Hi) as Hrun1. simpl in Hrun1.
  set (args := report_of id reply outs).
  destruct (fo_task _ _ _ _ _ _ _ _ _ _ _ _ Hfo _ _ reply Hi eq_refl) as [Ha Hid].
  pose proof (answer_range _ _ _ _ _ Hinv _ Ha Hid) as Hrange.
  assert (actualTaskId c args = Z.of_nat k) as Hact.
  { rewrite (actual_slot input nRed); [exact Hslot|by apply (sh_nMap _ _ _ _ (proj1 Hinv))|done|exact Hrange]. }
  destruct (TaskDone_branches c args Hc) as (_ & _ & _ & Hdone). rewrite Hact in Hdone.
  specialize (Hdone t). rewrite Nat2Z.id in Hdone. specialize (Hdone ltac:(lia) Ht Hd).
  set (ws1 := <[i := mkWorker id (Waiting (length ths))]> (<[i := mkWorker id (Reporting reply outs)]> ws)).
  set (ths1 := ths ++ [DoneCalled args]).
  assert (ths1 !! length ths = Some (DoneCalled args)) as Hk by by apply list_lookup_middle.
  destruct (solo_run _ _ (length ths) ths1 l fs1 ws1 (TaskDone_solo _ _ _ _ _ Hc Hdone) Hk) as [l1 Hrun2].
  simpl in Hrun2. eexists _, _, l1, fs1, ws1. split_and!.
  - etrans; [exact Hrun1|]. eapply rtc_l; [|exact Hrun2]. apply cs_report.
    apply list_lookup_insert_eq. by eapply lookup_lt_Some.
  - by apply returned_snoc.
  - done.
Qed.

Lemma rounds n c ths l fs ws :
  CInv (mkCluster (mkWorld c ths l) fs ws) → all_returned ths → workDone c + Z.of_nat n = m + nRed →
  ∃ s, rtc cstep (mkCluster (mkWorld c ths l) fs ws) s ∧ Done (coord (cl_world s)) = Ret true.
Proof.
  revert c ths l fs ws. induction n as [|n IH]; intros c ths l fs ws HI Hret Hn.
  - eexists. split; [apply rtc_refl|]. simpl.
    rewrite (Done_returned input nRed c ths l (ci_inv _ _ _ _ _ _ _ _ HI) Hret).
    f_equal. apply Z.eqb_eq. lia.
  - destruct (ask_round _ _ _ _ _ HI Hret) as (c1 & ths1 & l1 & ws1 & i & id & reply & k & t & Hrun1 & Hret1 & Hi & Hw & Hs & Ht & Hd);
      [lia|].
    assert (CInv (mkCluster (mkWorld c1 ths1 l1) fs ws1)) as HI1 by by eapply CInv_rtc.
    destruct (work_round _ _ _ _ _ _ _ _ _ _ HI1 Hret1 Hi Hs Ht Hd) as (c2 & ths2 & l2 & fs2 & ws2 & Hrun2 & Hret2 & Hw2).
    destruct (IH c2 ths2 l2 fs2 ws2) as (s & Hrun3 & Hdone); [by eapply CInv_rtc|done|lia|].
    exists s. split; [|done]. by do 2 (etrans; [done|]).
Qed.

(** C9 From every state of the cluster, whatever has crashed, timed out or
    been given out twice, the job can be finished by processes that join now:
    the calls on their way return, and each new process does one more task. *)
Theorem cluster_can_finish s :
  cluster_reachable sort writable (λ f c, Ret (mf f c)) (λ k vs, Ret (rf k vs)) input nRed fs0 s →
  ∃ s', rtc cstep s s' ∧ Done (coord (cl_world s')) = Ret true.
Proof.
  intros Hs. assert (CInv s) as HI by by eapply creachable_CInv.
  destruct s as [[c ths l] fs ws]. destruct (drain _ _ _ _ _ HI) as (c1 & ths1 & l1 & Hrun & Hret & _).
  assert (CInv (mkCluster (mkWorld c1 ths1 l1) fs ws)) as HI1 by by eapply CInv_rtc.
  pose proof (ci_inv _ _ _ _ _ _ _ _ HI1) as Hinv. simpl in Hinv.
  destruct (returned_idle _ _ _ _ _ Hinv Hret) as [_ Hc]. pose proof (count_le done (tasks c1)) as Hle.
  pose proof (sh_length _ _ _ _ (proj1 Hinv)) as Hl. simpl in Hl.
  destruct (rounds (Z.to_nat (m + nRed - workDone c1)) _ _ _ _ _ HI1 Hret) as (s' & Hrun' & Hdone); [lia|].
  exists s'. split; [by etrans|done].
Qed.
End finish.

(** The process of the example has stopped with its file still empty. *)
Section example.
#[local] Existing Instance bits_codec.
Abbreviation ex_reachable :=
  (cluster_reachable insertion_sort (λ _, true) (λ f c, Ret (ex_mf f c)) (λ k vs, Ret (ex_rf k vs))
     ["in1"; "in2"] 1 ex_fs).
Abbreviation ex_cluster := (cluster_initial ["in1"; "in2"] 1 ex_fs).
Definition ex_stopped : cluster :=
  default ex_cluster (cmoves insertion_sort (λ _, true) (λ f c, Ret (ex_mf f c)) (λ k vs, Ret (ex_rf k vs))
    (take 10 ex_schedule) ex_cluster).
Example ex_stopped_file :
  (wk_stage <$> cl_workers ex_stopped, cl_fs ex_stopped !! map_file 0 0 0) = ([Exited; Idle], Some "").
Proof. vm_compute. reflexivity. Qed.

Lemma ex_stopped_reachable : ex_reachable ex_stopped.
Proof. apply (cmoves_reachable _ _ _ _ (take 10 ex_schedule)). vm_compute. reflexivity. Qed.

Lemma cluster_can_finish_witness :
  (wk_stage <$> cl_workers ex_stopped) = [Exited; Idle] ∧
  ∃ s', rtc (cstep insertion_sort (λ _, true) (λ f c, Ret (ex_mf f c)) (λ k vs, Ret (ex_rf k vs))) ex_stopped s' ∧
    Done (coord (cl_world s')) = Ret true.
Proof.
  split; [vm_compute; reflexivity|].
  apply (cluster_can_finish insertion_sort (λ _, true) ltac:(done) ex_mf ex_rf ["in1"; "in2"] 1 ex_content ex_fs).
  - done.
  - done.
  - repeat constructor.
  - repeat constructor.
  - intros f. repeat constructor.
  - exact ex_stopped_reachable.
Defined.
End example.
