(* ===== verification/Applications.v ===== *)
(** * MapReduce applications: what a job of wc and of indexer writes

    The general theorem on the output files of a job, applied to the Map and
    Reduce functions of mrapps. *)
From S2P Require Import Prelude GoStrings Coordinator CoordinatorProof CoordinatorSeq Worker Grouping Job.
From S2P Require Import Cluster ClusterProof ClusterIds ClusterInv ClusterJob.

(** ** Reduce functions that do not depend on the order of the values *)
Lemma sort_perm_eq sort {HG : GoSort sort} l l' : l ≡ₚ l' → sort _ String.ltb l = sort _ String.ltb l'.
Proof.
  intros Hp. apply (StronglySorted_unique (λ a b, String.ltb b a = false)).
  - apply sort_sorted, (strict_weak_key id).
  - apply sort_sorted, (strict_weak_key id).
  - by rewrite !sort_perm.
Qed.

Definition count (w : string) (ws : list string) : nat := length (filter (w =.) ws).

Lemma elem_of_concat {A} (x : A) (ls : list (list A)) : x ∈ concat ls ↔ ∃ l, x ∈ l ∧ l ∈ ls.
Proof.
  induction ls as [|l ls IH]; simpl.
  - split; [by intros ?%elem_of_nil|]. by intros (? & _ & ?%elem_of_nil).
  - rewrite elem_of_app, IH. setoid_rewrite elem_of_cons. naive_solver.
Qed.

(** ** The lines of one output file *)
Section bucket.
Context (sort : ∀ A, (A → A → bool) → list A → list A) {HG : GoSort sort}.
Context (rf : string → list string → string).
Hypothesis rf_perm : ∀ k vs vs', vs ≡ₚ vs' → rf k vs = rf k vs'.

(** The keys of the pairs that hash to [r]: each once, in order. *)
Definition bucket_keys_of (n r : Z) (l : list KeyValue) : list string :=
  (runs (sort _ byKey (bucket_of n r l))).*1.

Lemma bucket_keys_spec n r l :
  NoDup (bucket_keys_of n r l) ∧
  StronglySorted (λ a b, String.ltb b a = false) (bucket_keys_of n r l) ∧
  ∀ k, k ∈ bucket_keys_of n r l ↔ k ∈ Key <$> l ∧ Z.rem (ihash k) n = r.
Proof.
  pose proof (sort_key_sorted sort (bucket_of n r l)) as Hs. unfold bucket_keys_of. split_and!.
  - by apply runs_sorted.
  - by apply runs_keys_sorted.
  - intros k. rewrite runs_keys, sort_perm by done.
    rewrite <-bucket_keys, list_elem_of_filter, elem_of_remove_dups. tauto.
Qed.

Lemma bucket_lines n r l :
  lines rf (sort _ byKey (bucket_of n r l)) = (λ k, line k (rf k (values k l))) <$> bucket_keys_of n r l.
Proof.
  rewrite (lines_key_lines sort rf rf_perm). apply list_fmap_ext. intros i k Hk%list_elem_of_lookup_2.
  apply bucket_keys_spec in Hk as [_ <-]. unfold key_line. by rewrite values_bucket.
Qed.

Lemma bucket_empty n r l : bucket_of n r l = [] ↔ bucket_keys_of n r l = [].
Proof.
  split; intros H.
  - apply elem_of_nil_inv. intros k Hk. unfold bucket_keys_of in Hk.
    rewrite runs_keys, sort_perm, H in Hk by apply sort_key_sorted, _. by apply elem_of_nil in Hk.
  - apply elem_of_nil_inv. intros kv Hkv. assert (Key kv ∈ bucket_keys_of n r l) as Hk.
    { apply bucket_keys_spec. apply list_elem_of_filter in Hkv as [? ?]. split; [|done].
      by apply list_elem_of_fmap_2. }
    rewrite H in Hk. by apply elem_of_nil in Hk.
Qed.
End bucket.

(** ** Jobs *)
Section jobs.
Context {HC : Codec}.
Context (sort : ∀ A, (A → A → bool) → list A → list A) {HG : GoSort sort}.
Context (writable : string → bool) (IsLetter : Z → bool).
Context (input : list string) (nRed : Z) (content : string → string) (fs0 : filesystem).
Hypothesis nRed_pos : 0 < nRed.
Hypothesis size_ok : Z.of_nat (length input) + nRed < 2 ^ 63.
Hypothesis input_plain : Forall plain input.
Hypothesis input_content : Forall (λ f, fs0 !! f = Some (content f)) input.

(** What file [r] holds: a line [result k] for each of the [keys] that hash to it. *)
Definition holds_lines (fs : filesystem) (r : Z) (keys : list string) (result : string → string) : Prop :=
  ∃ ks, NoDup ks ∧ StronglySorted (λ a b, String.ltb b a = false) ks ∧
    (∀ k, k ∈ ks ↔ k ∈ keys ∧ Z.rem (ihash k) nRed = r) ∧
    fs !! reduce_file r =
      if decide (ks = []) then fs0 !! reduce_file r else Some (file_of ((λ k, line k (result k)) <$> ks)).

Lemma holds_lines_ext fs r keys keys' result result' :
  (∀ k, k ∈ keys ↔ k ∈ keys') → (∀ k, result k = result' k) →
  holds_lines fs r keys result → holds_lines fs r keys' result'.
Proof.
  intros Hk Hres (ks & H1 & H2 & H3 & H4). exists ks. split_and!; [done|done|by intros k; rewrite H3, Hk|].
  rewrite H4. case_decide; [done|]. do 2 f_equal. apply list_fmap_ext. intros i k _. by rewrite Hres.
Qed.

Lemma job_lines mf rf s r :
  (∀ k vs vs', vs ≡ₚ vs' → rf k vs = rf k vs') → (∀ f, Forall json_safe (mf f (content f))) →
  cluster_reachable sort writable (λ f c, Ret (mf f c)) (λ k vs, Ret (rf k vs)) input nRed fs0 s →
  Done (coord (cl_world s)) = Ret true → 0 ≤ r < nRed →
  holds_lines (cl_fs s) r (Key <$> emitted mf input content) (λ k, rf k (values k (emitted mf input content))).
Proof.
  intros rf_perm mf_safe Hs Hd Hr. set (l := emitted mf input content).
  exists (bucket_keys_of sort nRed r l). destruct (bucket_keys_spec sort nRed r l) as (H1 & H2 & H3).
  split_and!; [done..|].
  rewrite (done_files sort writable mf rf rf_perm input nRed content fs0 nRed_pos size_ok input_plain
    input_content mf_safe s r Hs Hd Hr). fold l. unfold output. fold l.
  rewrite (bucket_lines sort rf rf_perm). pose proof (bucket_empty sort nRed r l) as He.
  case_decide; case_decide; tauto.
Qed.

Definition words_of (f : string) : list string := FieldsFunc (content f) (λ r, negb (IsLetter r)).
Definition all_words : list string := concat (words_of <$> input).

(** *** wc *)
Definition wc_pairs (filename contents : string) : list KeyValue :=
  (λ w, mkKeyValue w "1") <$> FieldsFunc contents (λ r, negb (IsLetter r)).

Lemma wc_emitted : emitted wc_pairs input content = (λ w, mkKeyValue w "1") <$> all_words.
Proof. unfold emitted, all_words. by rewrite fmap_concat, <-list_fmap_compose. Qed.

Lemma count_values w ws : length (values w ((λ w, mkKeyValue w "1") <$> ws)) = count w ws.
Proof.
  unfold values, count. rewrite length_fmap. induction ws as [|x ws IH]; [done|]. csimpl.
  rewrite !filter_cons. simpl. destruct (decide (x = w)) as [->|Hne].
  - rewrite decide_True by done. simpl. by rewrite IH.
  - rewrite decide_False by congruence. done.
Qed.

(** C8 Word count, end to end: run wc.go's [Map] and [Reduce] with any number of
    workers, however they interleave, stop in the middle of a file or report late.  When
    the coordinator says that the job is done, output file [r] has one line for each
    word of the inputs that hashes to [r], in byte order, with the number of times that
    the word occurs in all inputs, and nothing else; without such words the file is as
    it was. *)
Theorem word_count s :
  (∀ f w, w ∈ words_of f → json_safe (mkKeyValue w "1")) →
  cluster_reachable sort writable (wc_Map IsLetter) wc_Reduce input nRed fs0 s →
  Done (coord (cl_world s)) = Ret true →
  ∀ r, 0 ≤ r < nRed →
    holds_lines (cl_fs s) r all_words (λ w, Itoa (Z.of_nat (count w all_words))).
Proof.
  intros Hsafe Hs Hd r Hr.
  pose proof (job_lines wc_pairs (λ _ vs, Itoa (Z.of_nat (length vs))) s r) as Hj.
  rewrite wc_emitted in Hj. eapply holds_lines_ext; [| |apply Hj; [| |exact Hs|exact Hd|exact Hr]].
  - intros k. by rewrite <-list_fmap_compose, list_fmap_id.
  - intros k. cbv beta. by rewrite count_values.
  - intros k vs vs' Hp. by rewrite Hp.
  - intros f. apply Forall_fmap, Forall_forall. intros w. apply Hsafe.
Qed.

(** *** indexer *)
Section indexer.
(** The order in which Go ranges over the map of a document's words. *)
Context (range : list string → list string).
Hypothesis range_perm : ∀ l, range l ≡ₚ l.

Definition index_pairs (document value : string) : list KeyValue :=
  (λ w, mkKeyValue w document) <$>
    range (elements (list_to_set (FieldsFunc value (λ x, negb (IsLetter x))) : gset string)).
Definition documents (w : string) : list string := filter (λ f, w ∈ words_of f) input.

Lemma index_keys : ∀ w, w ∈ Key <$> emitted index_pairs input content ↔ w ∈ all_words.
Proof.
  intros w. unfold emitted, all_words. rewrite fmap_concat, <-list_fmap_compose.
  rewrite !elem_of_concat. split.
  - intros (l & Hw & (f & -> & Hf)%list_elem_of_fmap). exists (words_of f). split; [|by apply list_elem_of_fmap_2].
    cbn in Hw. unfold index_pairs in Hw. rewrite <-list_fmap_compose in Hw.
    apply list_elem_of_fmap in Hw as (w' & -> & Hw'). rewrite range_perm, elem_of_elements in Hw'.
    by apply elem_of_list_to_set in Hw'.
  - intros (l & Hw & (f & -> & Hf)%list_elem_of_fmap). eexists. split; [|apply list_elem_of_fmap_2, Hf].
    cbn. unfold index_pairs. rewrite <-list_fmap_compose. apply list_elem_of_fmap. exists w. split; [done|].
    by rewrite range_perm, elem_of_elements, elem_of_list_to_set.
Qed.

Lemma index_document w f :
  values w (index_pairs f (content f)) = if decide (w ∈ words_of f) then [f] else [].
Proof.
  unfold index_pairs, values. set (ws := range _).
  assert (NoDup ws) as Hnd by (unfold ws; rewrite range_perm; apply NoDup_elements).
  assert (w ∈ words_of f ↔ w ∈ ws) as Hin.
  { unfold ws. rewrite range_perm, elem_of_elements, elem_of_list_to_set. done. }
  assert (Value <$> filter (λ kv, Key kv = w) ((λ w, mkKeyValue w f) <$> ws) =
    if decide (w ∈ ws) then [f] else []) as ->; [|case_decide; case_decide; tauto].
  clear Hin. induction Hnd as [|x ws Hx _ IH]; [done|]. csimpl. rewrite filter_cons. simpl.
  destruct (decide (x = w)) as [->|Hne].
  - csimpl. rewrite IH, decide_False by done. rewrite decide_True by by left. done.
  - rewrite IH. destruct (decide (w ∈ ws)); [by rewrite decide_True by (by right)|].
    rewrite decide_False; [done|]. by intros [?|?]%elem_of_cons.
Qed.

Lemma index_values w : values w (emitted index_pairs input content) = documents w.
Proof.
  unfold emitted, documents. generalize input. intros l. induction l as [|f l IH]; [done|]. csimpl.
  rewrite values_app, IH, index_document, filter_cons. by case_decide.
Qed.

(** The inverted index, end to end: each word with the number of the inputs
    that have it and their sorted names. *)
Lemma inverted_index s :
  (∀ f w, w ∈ words_of f → json_safe (mkKeyValue w f)) →
  cluster_reachable sort writable (indexer_Map IsLetter range) (indexer_Reduce sort) input nRed fs0 s →
  Done (coord (cl_world s)) = Ret true →
  ∀ r, 0 ≤ r < nRed →
    holds_lines (cl_fs s) r all_words (λ w,
      Itoa (Z.of_nat (length (documents w))) +:+ " " +:+ Join (sort _ String.ltb (documents w)) ",").
Proof.
  intros Hsafe Hs Hd r Hr. pose proof (job_lines index_pairs (λ _ vs, let vs := sort _ String.ltb vs in
    Itoa (Z.of_nat (length vs)) +:+ " " +:+ Join vs ",") s r) as Hj.
  eapply holds_lines_ext; [apply index_keys| |apply Hj; [| |exact Hs|exact Hd|exact Hr]].
  - intros k. cbv beta zeta. rewrite index_values. do 2 f_equal.
    by rewrite (Permutation_length (sort_perm (sort := sort) string String.ltb (documents k))).
  - intros k vs vs' Hp. cbv zeta. by rewrite (sort_perm_eq sort _ _ Hp).
  - intros f. apply Forall_fmap, Forall_forall. intros w Hw. apply Hsafe.
    rewrite range_perm, elem_of_elements in Hw. by apply elem_of_list_to_set in Hw.
Qed.
End indexer.
End jobs.

(** ** Two inputs, two workers, one of which stops *)
Section wc_example.
#[local] Existing Instance bits_codec.
Definition ex_letter (r : Z) : bool := (97 <=? r) && (r <=? 122).
Definition ex_text (f : string) : string := if decide (f = "in1") then "so it is," else "is it? so is it!".
Definition ex_texts : filesystem := {["in1" := ex_text "in1"; "in2" := ex_text "in2"]}.
Abbreviation wc_cluster := (cluster_initial ["in1"; "in2"] 1 ex_texts).
Abbreviation wc_moves := (cmoves insertion_sort (λ _, true) (wc_Map ex_letter) wc_Reduce).
Definition wc_end : cluster := default wc_cluster (wc_moves ex_schedule wc_cluster).

Example wc_output :
  cl_fs wc_end !! reduce_file 0 = Some (line "is" "3" +:+ line "it" "3" +:+ line "so" "2").
Proof. vm_compute. reflexivity. Qed.

Lemma word_count_witness :
  Done (coord (cl_world wc_end)) = Ret true ∧
  holds_lines 1 ex_texts (cl_fs wc_end) 0 (all_words ex_letter ["in1"; "in2"] ex_text)
    (λ w, Itoa (Z.of_nat (count w (all_words ex_letter ["in1"; "in2"] ex_text)))).
Proof.
  split; [vm_compute; reflexivity|].
  apply (word_count insertion_sort (λ _, true) ex_letter ["in1"; "in2"] 1 ex_text ex_texts) with (s := wc_end).
  - done.
  - done.
  - repeat constructor.
  - repeat constructor.
  - done.
  - apply (cmoves_reachable _ _ _ _ ex_schedule). vm_compute. reflexivity.
  - vm_compute. reflexivity.
  - done.
Defined.
End wc_example.
