(* ===== verification/ChordKeys.v ===== *)
(** * Chord keys (src/Lab03/util.go)

    A [[20]byte] is a list of bytes, compared lexicographically; [key_Z] is the
    number it denotes, most significant byte first. *)
From S2P Require Import Prelude.

Abbreviation key := (list Z).

(** [bytes.Compare]. *)
Fixpoint Compare (a b : list Z) : Z :=
  match a, b with
  | [], [] => 0
  | [], _ :: _ => -1
  | _ :: _, [] => 1
  | x :: a, y :: b => if x <? y then -1 else if y <? x then 1 else Compare a b
  end.

Definition compareKeys (keyA keyB : key) : bool := Compare keyA keyB =? 1.
Definition sameKey (keyA keyB : key) : bool := bool_decide (keyA = keyB).

Definition keyInBetweenExclusive (leftBound rightBound key : key) : bool :=
  ((compareKeys leftBound rightBound || sameKey leftBound rightBound) &&
   (compareKeys key leftBound || compareKeys rightBound key)) ||
  (compareKeys rightBound leftBound && compareKeys rightBound key && compareKeys key leftBound).

Definition keyInBetweenRightInclusive (leftBound rightBound key : key) : bool :=
  keyInBetweenExclusive leftBound rightBound key || sameKey key rightBound.

(** [big.Int.SetBytes] and [Bytes]: big-endian, without leading zeros. *)
Definition SetBytes (l : list Z) : Z := foldl (λ acc b, acc * 256 + b) 0 l.
Fixpoint Bytes_loop (fuel : nat) (z : Z) (acc : list Z) : list Z :=
  match fuel with
  | O => acc
  | S fuel => if z =? 0 then acc else Bytes_loop fuel (z / 256) (z mod 256 :: acc)
  end.
(** One round per byte; [Z.log2 z] rounds are more than enough. *)
Definition Bytes (z : Z) : list Z := Bytes_loop (S (Z.to_nat (Z.log2 z))) z [].

(** [big.Int.Exp] with a nil modulus is 1 for a negative exponent. *)
Definition Exp (x y : Z) : Z := if y <=? 0 then 1 else x ^ y.

Definition keyToLook (index : Z) (identifier : key) : key :=
  let tmpResult := SetBytes identifier in
  let two := 2 in
  let power := Exp two index in
  let tmpResult := tmpResult + power in
  let mask := Exp two (8 * 20) in
  let tmpResult := tmpResult mod mask in
  let resultBytes := Bytes tmpResult in
  if decide (20 < List.length resultBytes)%nat
  then drop (List.length resultBytes - 20) resultBytes
  else replicate (20 - List.length resultBytes) 0 ++ resultBytes.

(** ** Keys as numbers *)
Definition ring : Z := 2 ^ 160.
Definition byte_ok (b : Z) : Prop := 0 ≤ b < 256.
Definition key_ok (k : key) : Prop := List.length k = 20%nat ∧ Forall byte_ok k.
Definition key_Z (k : key) : Z := SetBytes k.

Lemma SetBytes_acc acc l :
  foldl (λ acc b, acc * 256 + b) acc l = acc * 256 ^ Z.of_nat (List.length l) + SetBytes l.
Proof.
  unfold SetBytes. revert acc. induction l as [|b l IH]; intros acc; cbn [foldl List.length]; [simpl; lia|].
  rewrite IH, (IH (0 * 256 + b)). rewrite Nat2Z.inj_succ, Z.pow_succ_r by lia. lia.
Qed.

Lemma SetBytes_cons b l : SetBytes (b :: l) = b * 256 ^ Z.of_nat (List.length l) + SetBytes l.
Proof. unfold SetBytes at 1. cbn [foldl]. rewrite SetBytes_acc. lia. Qed.

Lemma SetBytes_app l l' :
  SetBytes (l ++ l') = SetBytes l * 256 ^ Z.of_nat (List.length l') + SetBytes l'.
Proof. unfold SetBytes at 1. rewrite foldl_app. apply SetBytes_acc. Qed.

Lemma SetBytes_bound l : Forall byte_ok l → 0 ≤ SetBytes l < 256 ^ Z.of_nat (List.length l).
Proof.
  induction 1 as [|b l Hb _ IH]; [done|]. rewrite SetBytes_cons. cbn [List.length].
  rewrite Nat2Z.inj_succ, Z.pow_succ_r by lia. unfold byte_ok in Hb. nia.
Qed.

Lemma Compare_SetBytes a b :
  Forall byte_ok a → Forall byte_ok b → List.length a = List.length b →
  Compare a b = match SetBytes a ?= SetBytes b with Lt => -1 | Eq => 0 | Gt => 1 end.
Proof.
  intros Ha. revert b. induction Ha as [|x a Hx Ha IH]; intros [|y b] Hb Hl; try done.
  apply Forall_cons in Hb as [Hy Hb]. injection Hl as Hl. cbn [Compare].
  rewrite !SetBytes_cons, Hl. pose proof (SetBytes_bound a Ha) as Ba. rewrite Hl in Ba.
  pose proof (SetBytes_bound b Hb) as Bb. set (p := 256 ^ _) in *. unfold byte_ok in *.
  destruct (Z.ltb_spec x y); [|destruct (Z.ltb_spec y x)].
  - by rewrite (proj2 (Z.compare_lt_iff _ _)) by nia.
  - by rewrite (proj2 (Z.compare_gt_iff _ _)) by nia.
  - assert (x = y) as -> by lia. rewrite IH by done.
    by rewrite Z.add_compare_mono_l.
Qed.

Lemma key_Z_inj a b : key_ok a → key_ok b → key_Z a = key_Z b → a = b.
Proof.
  intros [Hla Ha] [Hlb Hb]. assert (List.length a = List.length b) as Hl by congruence. clear Hla Hlb.
  revert b Hb Hl. induction Ha as [|x a Hx Ha IH]; intros [|y b] Hb Hl; try done. intros H.
  apply Forall_cons in Hb as [Hy Hb]. injection Hl as Hl. unfold key_Z in *.
  rewrite !SetBytes_cons, Hl in H. pose proof (SetBytes_bound a Ha) as Ba. rewrite Hl in Ba.
  pose proof (SetBytes_bound b Hb) as Bb. set (p := 256 ^ _) in *. unfold byte_ok in *.
  assert (x = y) as -> by nia. f_equal. apply IH; [done|done|lia].
Qed.

Lemma key_Z_bound k : key_ok k → 0 ≤ key_Z k < ring.
Proof. intros [Hl Hk]. pose proof (SetBytes_bound k Hk) as H. rewrite Hl in H. exact H. Qed.

Lemma compareKeys_Z a b : key_ok a → key_ok b → compareKeys a b = (key_Z b <? key_Z a).
Proof.
  intros [Hla Ha] [Hlb Hb]. unfold compareKeys, key_Z. rewrite Compare_SetBytes by congruence || done.
  unfold Z.ltb. rewrite (Z.compare_antisym (SetBytes a)). by destruct (SetBytes a ?= SetBytes b).
Qed.

Lemma sameKey_Z a b : key_ok a → key_ok b → sameKey a b = (key_Z a =? key_Z b).
Proof.
  intros Ha Hb. unfold sameKey. destruct (Z.eqb_spec (key_Z a) (key_Z b)) as [E|E].
  - apply bool_decide_true. by apply key_Z_inj.
  - apply bool_decide_false. by intros ->.
Qed.

(** ** The ring *)
(** Clockwise distance. *)
Definition dist (a b : key) : Z := (key_Z b - key_Z a) mod ring.

Lemma dist_cases a b :
  key_ok a → key_ok b →
  (key_Z a ≤ key_Z b ∧ dist a b = key_Z b - key_Z a) ∨
  (key_Z b < key_Z a ∧ dist a b = key_Z b - key_Z a + ring).
Proof.
  intros Ha%key_Z_bound Hb%key_Z_bound. unfold dist, ring in *.
  destruct (decide (key_Z a ≤ key_Z b)); [left|right]; (split; [lia|]).
  - apply Z.mod_small. lia.
  - symmetry. apply (Z.mod_unique_pos _ _ (-1)); lia.
Qed.

Lemma dist_bound a b : 0 ≤ dist a b < ring.
Proof. apply Z.mod_pos_bound. done. Qed.

Lemma dist_self a : dist a a = 0.
Proof. unfold dist. by rewrite Z.sub_diag. Qed.

Lemma dist_zero a b : key_ok a → key_ok b → dist a b = 0 ↔ a = b.
Proof.
  intros Ha Hb. split; [|intros ->; apply dist_self]. intros H.
  pose proof (key_Z_bound a Ha). pose proof (key_Z_bound b Hb).
  apply key_Z_inj; [done..|]. destruct (dist_cases a b Ha Hb); lia.
Qed.

(** Going from [a] over [b] to [c] or the other way round. *)
Lemma dist_via a b c :
  key_ok a → key_ok b → key_ok c → dist a b ≤ dist a c → dist b c = dist a c - dist a b.
Proof.
  intros Ha Hb Hc Hle. pose proof (key_Z_bound a Ha). pose proof (key_Z_bound b Hb).
  pose proof (key_Z_bound c Hc).
  destruct (dist_cases a b Ha Hb), (dist_cases a c Ha Hc), (dist_cases b c Hb Hc); lia.
Qed.

Lemma same_iff_Z a b : key_ok a → key_ok b → a = b ↔ key_Z a = key_Z b.
Proof. intros Ha Hb. split; [by intros ->|by apply key_Z_inj]. Qed.

Lemma between_exclusive l r k :
  key_ok l → key_ok r → key_ok k →
  keyInBetweenExclusive l r k = true ↔ 0 < dist l k ∧ (dist l k < dist l r ∨ l = r).
Proof.
  intros Hl Hr Hk. rewrite (same_iff_Z l r) by done. unfold keyInBetweenExclusive.
  rewrite !compareKeys_Z, !sameKey_Z by done.
  pose proof (key_Z_bound l Hl). pose proof (key_Z_bound r Hr). pose proof (key_Z_bound k Hk).
  destruct (dist_cases l k Hl Hk), (dist_cases l r Hl Hr); lia.
Qed.

Lemma between_inclusive l r k :
  key_ok l → key_ok r → key_ok k →
  keyInBetweenRightInclusive l r k = true ↔ (0 < dist l k ∧ dist l k ≤ dist l r) ∨ l = r.
Proof.
  intros Hl Hr Hk. unfold keyInBetweenRightInclusive.
  rewrite orb_true_iff, between_exclusive by done.
  rewrite sameKey_Z, Z.eqb_eq, (same_iff_Z l r) by done.
  pose proof (key_Z_bound l Hl). pose proof (key_Z_bound r Hr). pose proof (key_Z_bound k Hk).
  destruct (dist_cases l k Hl Hk), (dist_cases l r Hl Hr); lia.
Qed.

(** [keyInBetweenExclusive l r k] says that going clockwise from [l] one
    meets [k] strictly before [r], where [r = l] is met after a full turn, and
    both bounds are excluded; the right-inclusive version also accepts [r]. *)
Lemma keyInBetween_spec l r k :
  key_ok l → key_ok r → key_ok k →
  (keyInBetweenExclusive l r k = true ↔ 0 < dist l k ∧ (dist l k < dist l r ∨ l = r)) ∧
  (keyInBetweenRightInclusive l r k = true ↔ (0 < dist l k ∧ dist l k ≤ dist l r) ∨ l = r) ∧
  keyInBetweenExclusive l r l = false ∧ keyInBetweenExclusive l r r = false.
Proof.
  intros Hl Hr Hk. split_and!; [by apply between_exclusive|by apply between_inclusive|..];
    apply not_true_iff_false; rewrite between_exclusive by done; rewrite ?dist_self;
    [lia|intros [? [?|<-]]; [lia|rewrite dist_self in *; lia]].
Qed.

(** ** keyToLook *)
Lemma Bytes_loop_spec fuel z acc n :
  0 ≤ z < 256 ^ Z.of_nat fuel → z < 256 ^ Z.of_nat n → Forall byte_ok acc →
  SetBytes (Bytes_loop fuel z acc) = z * 256 ^ Z.of_nat (List.length acc) + SetBytes acc ∧
  Forall byte_ok (Bytes_loop fuel z acc) ∧
  (List.length (Bytes_loop fuel z acc) ≤ n + List.length acc)%nat.
Proof.
  revert z acc n. induction fuel as [|fuel IH]; intros z acc n Hz Hn Ha; cbn [Bytes_loop].
  - change (256 ^ Z.of_nat 0) with 1 in Hz. assert (z = 0) as -> by lia. split_and!; [lia|done|lia].
  - destruct (Z.eqb_spec z 0) as [->|Hne]; [split_and!; [lia|done|lia]|].
    destruct n as [|n]; [change (256 ^ Z.of_nat 0) with 1 in Hn; lia|].
    rewrite Nat2Z.inj_succ, Z.pow_succ_r in Hz, Hn by lia.
    pose proof (Z.div_mod z 256 ltac:(lia)) as Hd. pose proof (Z.mod_pos_bound z 256 ltac:(lia)).
    assert (0 ≤ z / 256) by (apply Z.div_pos; lia).
    destruct (IH (z / 256) (z mod 256 :: acc) n) as (H1 & H2 & H3); [lia|lia|by constructor|].
    rewrite H1, SetBytes_cons. cbn [List.length] in *. rewrite Nat2Z.inj_succ, Z.pow_succ_r by lia.
    split_and!; [|done|lia]. rewrite Hd at 3. ring.
Qed.

Lemma Bytes_spec z :
  0 ≤ z < ring →
  SetBytes (Bytes z) = z ∧ Forall byte_ok (Bytes z) ∧ (List.length (Bytes z) ≤ 20)%nat.
Proof.
  intros Hz. unfold Bytes.
  destruct (Bytes_loop_spec (S (Z.to_nat (Z.log2 z))) z [] 20) as (H1 & H2 & H3).
  - split; [lia|]. destruct (decide (z = 0)) as [->|]; [done|].
    destruct (Z.log2_spec z ltac:(lia)) as [_ Hlt]. eapply Z.lt_le_trans; [exact Hlt|].
    rewrite Nat2Z.inj_succ, Z2Nat.id by apply Z.log2_nonneg. apply Z.pow_le_mono_l.
    pose proof (Z.log2_nonneg z). lia.
  - change (256 ^ Z.of_nat 20) with ring. lia.
  - constructor.
  - split_and!; [|done|by rewrite Nat.add_0_r in H3]. rewrite H1. cbn. lia.
Qed.

Lemma SetBytes_zeros n : SetBytes (replicate n 0) = 0.
Proof. induction n as [|n IH]; [done|]. cbn [replicate]. rewrite SetBytes_cons, IH. lia. Qed.

Lemma keyToLook_key i k :
  key_ok k →
  key_ok (keyToLook i k) ∧ key_Z (keyToLook i k) = (key_Z k + Exp 2 i) mod ring.
Proof.
  intros Hk. unfold keyToLook. change (Exp 2 (8 * 20)) with ring. fold (key_Z k).
  set (z := _ mod ring). assert (0 ≤ z < ring) as Hz by by apply Z.mod_pos_bound.
  destruct (Bytes_spec z Hz) as (H1 & H2 & H3). rewrite decide_False by lia. split.
  - split; [rewrite length_app, length_replicate; lia|]. apply Forall_app. split; [|done].
    apply Forall_replicate. unfold byte_ok. lia.
  - unfold key_Z. rewrite SetBytes_app, SetBytes_zeros. lia.
Qed.

(** [keyToLook i k] is a well-formed key, [2^i] further round the ring than
    [k]; the branch that drops leading bytes is never needed. *)
Lemma keyToLook_spec i k :
  key_ok k → 0 ≤ i →
  key_ok (keyToLook i k) ∧ key_Z (keyToLook i k) = (key_Z k + 2 ^ i) mod ring ∧
  dist k (keyToLook i k) = 2 ^ i mod ring.
Proof.
  intros Hk Hi. destruct (keyToLook_key i k Hk) as [Ho Hz].
  assert (Exp 2 i = 2 ^ i) as He.
  { unfold Exp. destruct (Z.leb_spec i 0); [|done]. by assert (i = 0) as -> by lia. }
  rewrite He in Hz. split_and!; [done|done|]. unfold dist. rewrite Hz, Zminus_mod_idemp_l.
  f_equal. lia.
Qed.

(** ** Concrete keys *)
Section example.
Definition small_key (b : Z) : key := replicate 19 0 ++ [b].
Lemma small_key_ok b : 0 ≤ b < 256 → key_ok (small_key b).
Proof.
  intros Hb. split; [done|]. apply Forall_app. split; [apply Forall_replicate; unfold byte_ok; lia|].
  constructor; [done|constructor].
Qed.
End example.
