(* ===== verification/Sha1.v ===== *)
(** * crypto/sha1 and encoding/hex, as the Chord node uses them *)
From S2P Require Import Prelude GoStrings ChordKeys.

Definition w32 (z : Z) : Z := z mod 2 ^ 32.
Definition rotl (n x : Z) : Z := w32 (Z.lor (Z.shiftl x n) (Z.shiftr x (32 - n))).

(** The big-endian bytes of [z], [n] of them. *)
Fixpoint be_bytes (n : nat) (z : Z) : list Z :=
  match n with O => [] | S n => be_bytes n (z / 256) ++ [z mod 256] end.

Definition pad (msg : list Z) : list Z :=
  let len := Z.of_nat (length msg) in
  msg ++ 128 :: replicate (Z.to_nat ((55 - len) mod 64)) 0 ++ be_bytes 8 (8 * len).

Fixpoint words (l : list Z) : list Z :=
  match l with
  | a :: b :: c :: d :: l => SetBytes [a; b; c; d] :: words l
  | _ => []
  end.

(** The message schedule, last word first. *)
Fixpoint extend (n : nat) (rev_w : list Z) : list Z :=
  match n with
  | O => rev_w
  | S n =>
      let at_ i := default 0 (rev_w !! i) in
      extend n (rotl 1 (Z.lxor (Z.lxor (at_ 2%nat) (at_ 7%nat)) (Z.lxor (at_ 13%nat) (at_ 15%nat))) :: rev_w)
  end.

Record state := mkState { s_a : Z; s_b : Z; s_c : Z; s_d : Z; s_e : Z }.

Definition round (i : nat) (s : state) (w : Z) : state :=
  let '(mkState a b c d e) := s in
  let '(f, k) :=
    if decide (i < 20)%nat then (Z.lxor d (Z.land b (Z.lxor c d)), 1518500249)
    else if decide (i < 40)%nat then (Z.lxor b (Z.lxor c d), 1859775393)
    else if decide (i < 60)%nat then (Z.lor (Z.land b c) (Z.land d (Z.lor b c)), 2400959708)
    else (Z.lxor b (Z.lxor c d), 3395469782) in
  mkState (w32 (rotl 5 a + f + e + k + w)) a (rotl 30 b) c d.

Fixpoint rounds (i : nat) (s : state) (ws : list Z) : state :=
  match ws with [] => s | w :: ws => rounds (S i) (round i s w) ws end.

Definition block (s : state) (ws : list Z) : state :=
  let t := rounds 0 s (reverse (extend 64 (reverse ws))) in
  mkState (w32 (s_a s + s_a t)) (w32 (s_b s + s_b t)) (w32 (s_c s + s_c t))
    (w32 (s_d s + s_d t)) (w32 (s_e s + s_e t)).

Fixpoint blocks (n : nat) (s : state) (ws : list Z) : state :=
  match n with O => s | S n => blocks n (block s (take 16 ws)) (drop 16 ws) end.

Definition Sum (msg : list Z) : key :=
  let ws := words (pad msg) in
  let s := blocks (length ws / 16) (mkState 1732584193 4023233417 2562383102 271733878 3285377520) ws in
  be_bytes 4 (s_a s) ++ be_bytes 4 (s_b s) ++ be_bytes 4 (s_c s) ++ be_bytes 4 (s_d s) ++
  be_bytes 4 (s_e s).

(** ** encoding/hex *)
Definition hex_digit (n : Z) : Z := if n <? 10 then 48 + n else 87 + n.
Definition EncodeToString (l : list Z) : string :=
  of_bytes (l ≫= λ b, [hex_digit (b / 16); hex_digit (b mod 16)]).

Definition unhex (c : Z) : option Z :=
  if in_range 48 57 c then Some (c - 48)
  else if in_range 97 102 c then Some (c - 87)
  else if in_range 65 70 c then Some (c - 55)
  else None.
Fixpoint decode_hex (l : list Z) : option (list Z) :=
  match l with
  | [] => Some []
  | a :: b :: l =>
      x ← unhex a; y ← unhex b; r ← decode_hex l; Some (x * 16 + y :: r)
  | [_] => None
  end.
Definition DecodeString (s : string) : option (list Z) := decode_hex (bytes s).

(** The test vector of FIPS 180. *)
Example sha1_abc : EncodeToString (Sum (bytes "abc")) = "a9993e364706816aba3e25717850c26c9cd0d89d".
Proof. vm_compute. reflexivity. Qed.

Lemma be_bytes_ok n z : length (be_bytes n z) = n ∧ Forall byte_ok (be_bytes n z).
Proof.
  revert z. induction n as [|n IH]; intros z; [by repeat constructor|]. simpl.
  destruct (IH (z / 256)) as [Hl Hf]. rewrite length_app. simpl. split; [lia|].
  apply Forall_app. split; [done|]. constructor; [|constructor]. apply Z.mod_pos_bound. lia.
Qed.

Lemma Sum_ok msg : key_ok (Sum msg).
Proof.
  unfold Sum. set (s := blocks _ _ _). split.
  - rewrite !length_app. rewrite !(proj1 (be_bytes_ok 4 _)). done.
  - rewrite !Forall_app. split_and!; apply (be_bytes_ok 4).
Qed.
