(* ===== verification/Chord.v ===== *)
(** * Chord nodes (src/Lab03/chord.go, rpc.go)

    The world maps the addresses that answer to the state of the node there; a
    node that has crashed is not in it.  A call is made by looking up the
    destination and running its handler.  Of the locks only [successorLock] is
    ever held across a call to another node, so it is the one the model keeps:
    a call that needs a held one is [Blocked]. *)
From S2P Require Import Prelude GoStrings ChordKeys Sha1.

Record finger := mkFinger { Id : key; IpAddress : string }.
Definition no_finger : finger := mkFinger (replicate 20 0) "".

Record ChordClient := mkClient {
  identifier : key; fingerTable : list finger; successorLock : bool; successor : list finger;
  predecessor : option finger; myIp : string; myPort : string; numSucc : Z; next : Z;
  directory : gmap string string }.

Abbreviation world := (gmap string ChordClient).

Definition with_successor (c : ChordClient) (l : list finger) : ChordClient :=
  mkClient (identifier c) (fingerTable c) (successorLock c) l (predecessor c) (myIp c) (myPort c)
    (numSucc c) (next c) (directory c).
Definition with_lock (c : ChordClient) (b : bool) : ChordClient :=
  mkClient (identifier c) (fingerTable c) b (successor c) (predecessor c) (myIp c) (myPort c)
    (numSucc c) (next c) (directory c).
Definition with_predecessor (c : ChordClient) (p : option finger) : ChordClient :=
  mkClient (identifier c) (fingerTable c) (successorLock c) (successor c) p (myIp c) (myPort c)
    (numSucc c) (next c) (directory c).
Definition with_fingers (c : ChordClient) (l : list finger) : ChordClient :=
  mkClient (identifier c) l (successorLock c) (successor c) (predecessor c) (myIp c) (myPort c)
    (numSucc c) (next c) (directory c).
Definition with_next (c : ChordClient) (n : Z) : ChordClient :=
  mkClient (identifier c) (fingerTable c) (successorLock c) (successor c) (predecessor c) (myIp c)
    (myPort c) (numSucc c) n (directory c).
Definition with_directory (c : ChordClient) (d : gmap string string) : ChordClient :=
  mkClient (identifier c) (fingerTable c) (successorLock c) (successor c) (predecessor c) (myIp c)
    (myPort c) (numSucc c) (next c) d.

Definition address (c : ChordClient) : string := myIp c +:+ ":" +:+ myPort c.

Definition node (w : world) (a : string) : go ChordClient := deref (w !! a).

Definition acquire (held : bool) : go unit := if held then Blocked else Ret tt.
(** [client.successorLock.Lock()] and [Unlock()]. *)
Definition Lock (w : world) (a : string) : go world :=
  c ← node w a; _ ← acquire (successorLock c); mret (<[a := with_lock c true]> w).
Definition Unlock (w : world) (a : string) : go world :=
  c ← node w a; mret (<[a := with_lock c false]> w).
Definition set_successor (w : world) (a : string) (i : Z) (f : finger) : go world :=
  c ← node w a; l ← store (successor c) i f; mret (<[a := with_successor c l]> w).

(** ** Handlers and callers without recursion *)
Definition ReqHealth (c : ChordClient) (myId : key) : key := identifier c.
Definition askHealthNode (w : world) (ip : string) : bool :=
  match w !! ip with Some _ => true | None => false end.

Definition ReqSuccList (c : ChordClient) (myId : key) : go (list finger) :=
  if negb (sameKey myId (identifier c)) then _ ← acquire (successorLock c); mret (successor c)
  else mret (successor c).
(** [None] is the nil slice of a failed call. *)
Definition AskSuccList (w : world) (self : ChordClient) (ip : string) : go (option (list finger)) :=
  match w !! ip with
  | Some d => l ← ReqSuccList d (identifier self); mret (Some l)
  | None => mret None
  end.

Definition ReqGetPredecessor (c : ChordClient) : finger * bool :=
  match predecessor c with Some p => (p, true) | None => (no_finger, false) end.
Definition askGetPredecessor (w : world) (ip : string) : finger * bool :=
  match w !! ip with Some d => ReqGetPredecessor d | None => (no_finger, false) end.

Definition notify (c : ChordClient) (maybePredecessor : finger) : ChordClient * bool :=
  if sameKey (identifier c) (Id maybePredecessor) then (c, false) else
  if match predecessor c with
     | None => true
     | Some p => sameKey (Id maybePredecessor) (Id p) ||
                 keyInBetweenExclusive (Id p) (identifier c) (Id maybePredecessor)
     end
  then (with_predecessor c (Some maybePredecessor), true)
  else (c, false).

Record UpdatePredecessorRet := mkUpdatePredecessorRet {
  Done : bool; OldPredecessorId : key; OldPredecessorAd : string }.
Definition ReqUpdatePredecessor (c : ChordClient) (predId : key) (predAd : string)
    : ChordClient * UpdatePredecessorRet :=
  let pred := mkFinger predId predAd in
  let old := match predecessor c with Some _ => pred | None => no_finger end in
  let '(c, done) := notify c pred in
  (c, mkUpdatePredecessorRet done (Id old) (IpAddress old)).
Definition askUpdatePredecessor (w : world) (self : ChordClient) (ip : string) : world * bool :=
  match w !! ip with
  | Some d =>
      let '(d, ret) := ReqUpdatePredecessor d (identifier self) (address self) in
      (<[ip := d]> w, Done ret)
  | None => (w, false)
  end.

Section files.
(** The names under which the file system lets a file be created. *)
Context (creatable : string → bool).

Definition ReqStoreFile (c : ChordClient) (Key Data : string) : ChordClient * bool :=
  if creatable Key then (with_directory c (<[Key := Data]> (directory c)), true) else (c, false).
Definition AskStoreFile (w : world) (ip Key Data : string) : world :=
  match w !! ip with
  | Some d => <[ip := (ReqStoreFile d Key Data).1]> w
  | None => w
  end.
End files.

Definition ReqGetFile (c : ChordClient) (FileName : string) : string * bool :=
  match directory c !! FileName with Some d => (d, true) | None => ("", false) end.
Definition AskGetFile (w : world) (ip FileName : string) : string * bool :=
  match w !! ip with Some d => ReqGetFile d FileName | None => ("", false) end.

(** ** The successor list *)
(** The loop of [checkSuccessor]: the index of the first live entry, or the
    length of the list. *)
Fixpoint first_working (w : world) (l : list finger) : Z :=
  match l with
  | [] => 0
  | f :: l =>
      if bool_decide (IpAddress f ≠ "") && askHealthNode w (IpAddress f) then 0
      else 1 + first_working w l
  end.

(** [client.successor[i] = newSuccList[i-1]] for [i] from 1. *)
Fixpoint copy_list (n : nat) (i : Z) (newSuccList l : list finger) : go (list finger) :=
  match n with
  | O => mret l
  | S n =>
      f ← index newSuccList (i - 1);
      l ← store l i f;
      copy_list n (i + 1) newSuccList l
  end.

(** Both are called with [successorLock] held. *)
Fixpoint checkSuccessor (fuel : nat) (w : world) (a : string) : go world :=
  match fuel with
  | O => NoFuel
  | S fuel =>
      c ← node w a;
      s ← index (successor c) 0;
      if askHealthNode w (IpAddress s) then mret w else
      let firstWorking := first_working w (successor c) in
      w ← (if firstWorking =? Z.of_nat (length (successor c))
           then set_successor w a 0 (mkFinger (identifier c) (address c))
           else f ← index (successor c) firstWorking; set_successor w a 0 f);
      updateSuccessorList fuel w a
  end
with updateSuccessorList (fuel : nat) (w : world) (a : string) : go world :=
  match fuel with
  | O => NoFuel
  | S fuel =>
      c ← node w a;
      s ← index (successor c) 0;
      r ← AskSuccList w c (IpAddress s);
      match r with
      | Some newSuccList =>
          l ← copy_list (length newSuccList - 1) 1 newSuccList (successor c);
          mret (<[a := with_successor c l]> w)
      | None => checkSuccessor fuel w a
      end
  end.

(** ** Lookup *)
(** A loop [for i := n-1; i >= 0; i--] over a table: the last entry between. *)
Fixpoint last_between (n : nat) (l : list finger) (id hash : key) : go finger :=
  match n with
  | O => mret no_finger
  | S n =>
      f ← index l (Z.of_nat n);
      if bool_decide (IpAddress f ≠ "") && keyInBetweenExclusive id hash (Id f) then mret f
      else last_between n l id hash
  end.

Definition findClosestPrecedingNode (c : ChordClient) (hash : key) : go string :=
  maxFingerTable ← last_between (Z.to_nat (next c)) (fingerTable c) (identifier c) hash;
  _ ← acquire (successorLock c);
  maxSuccessorList ← last_between (Z.to_nat (numSucc c)) (successor c) (identifier c) hash;
  mret (if bool_decide (IpAddress maxFingerTable = "" ∧ IpAddress maxSuccessorList = "")
        then address c
        else if bool_decide (IpAddress maxFingerTable = "") then IpAddress maxSuccessorList
        else if bool_decide (IpAddress maxSuccessorList = "") then IpAddress maxFingerTable
        else if compareKeys (Id maxFingerTable) (Id maxSuccessorList)
        then IpAddress maxFingerTable else IpAddress maxSuccessorList).

(** [findSuccessor] with the caller [askFindSuccessor] and the handler
    [ReqFindSuccessor], which stops the process of a node that asks itself. *)
Fixpoint findSuccessor (fuel : nat) (w : world) (a : string) (hash : key) : go (world * finger) :=
  match fuel with
  | O => NoFuel
  | S fuel =>
      c ← node w a;
      _ ← acquire (successorLock c);
      s ← index (successor c) 0;
      if keyInBetweenRightInclusive (identifier c) (Id s) hash then mret (w, s) else
      closestPredAddress ← findClosestPrecedingNode c hash;
      match w !! closestPredAddress with
      | Some d =>
          if sameKey (identifier c) (identifier d) then Fatal
          else findSuccessor fuel w closestPredAddress hash
      | None =>
          w ← Lock w a;
          w ← checkSuccessor fuel w a;
          w ← updateSuccessorList fuel w a;
          w ← Unlock w a;
          findSuccessor fuel w a hash
      end
  end.

(** The handler, which [findSuccessor] has inline: [d] is the node at [a]. *)
Definition ReqFindSuccessor (fuel : nat) (w : world) (a : string) (d : ChordClient) (myId hash : key)
    : go (world * finger) :=
  if sameKey myId (identifier d) then Fatal else findSuccessor fuel w a hash.
Definition askFindSuccessor (fuel : nat) (w : world) (self : ChordClient) (dest : string) (hash : key)
    : go (world * option finger) :=
  match w !! dest with
  | Some d => r ← ReqFindSuccessor fuel w dest d (identifier self) hash; mret (r.1, Some r.2)
  | None => mret (w, None)
  end.

Definition fixFinger (fuel : nat) (w : world) (a : string) : go world :=
  c ← node w a;
  let n := next c + 1 in
  let n := if 159 <? n then 0 else n in
  let w := <[a := with_next c n]> w in
  r ← findSuccessor fuel w a (keyToLook n (identifier c));
  c ← node r.1 a;
  l ← store (fingerTable c) n r.2;
  mret (<[a := with_fingers c l]> r.1).

Definition check_predecessor (w : world) (a : string) : go world :=
  c ← node w a;
  match predecessor c with
  | Some p => if askHealthNode w (IpAddress p) then mret w
              else mret (<[a := with_predecessor c None]> w)
  | None => mret w
  end.

(** ** Files *)
Definition nbFiles : nat := 3.

Fixpoint lookup_loop (n : nat) (i : Z) (fuel : nat) (w : world) (a fileName : string)
    : go (world * list finger) :=
  match n with
  | O => mret (w, [])
  | S n =>
      let fileNameHash := Sum (bytes fileName) in
      let nextFingerFile := keyToLook (i * 100) fileNameHash in
      r ← findSuccessor fuel w a nextFingerFile;
      let '(w, n0) := (r : world * finger) in
      c ← node w a;
      successors ← AskSuccList w c (IpAddress n0);
      s ← index (default [] successors) 0;
      rest ← lookup_loop n (i + 1) fuel w a fileName;
      mret (rest.1, n0 :: s :: rest.2)
  end.
Definition lookup (fuel : nat) (w : world) (a fileName : string) : go (world * list finger) :=
  lookup_loop nbFiles 0 fuel w a fileName.

Section storing.
Context (creatable : string → bool) (ReadDir : gmap string string → list string).

Definition StoreFile (fuel : nat) (w : world) (a Key Data : string) : go world :=
  r ← lookup fuel w a Key;
  mret (foldl (λ w f, AskStoreFile creatable w (IpAddress f) Key Data) r.1 r.2).

Definition offer (name Data : string) (w : world) (f : finger) : world :=
  if (AskGetFile w (IpAddress f) name).2 then w else AskStoreFile creatable w (IpAddress f) name Data.

(** One round of the loop over the directory. *)
Definition move_file (fuel : nat) (w : world) (a name : string) : go world :=
  r ← lookup fuel w a name;
  let '(w, dest) := (r : world * list finger) in
  c ← node w a;
  let correct := existsb (λ f, sameKey (identifier c) (Id f)) dest in
  match directory c !! name with
  | None => Fatal
  | Some data =>
      let w := foldl (offer name data) w dest in
      if correct then mret w else
      c ← node w a;
      if bool_decide (is_Some (directory c !! name))
      then mret (<[a := with_directory c (delete name (directory c))]> w) else Fatal
  end.
Fixpoint move_files (fuel : nat) (names : list string) (w : world) (a : string) : go world :=
  match names with
  | [] => mret w
  | name :: names => w ← move_file fuel w a name; move_files fuel names w a
  end.

(** The part of [stabilize] in which [successorLock] is held first. *)
Definition stabilize_locked (fuel : nat) (w : world) (a : string) : go world :=
  w ← checkSuccessor fuel w a; updateSuccessorList fuel w a.

(** Adopting the predecessor of the successor, if it is between. *)
Definition adopt (fuel : nat) (w : world) (a : string) (s p : finger) : go (world * finger) :=
  c ← node w a;
  if negb (keyInBetweenExclusive (identifier c) (Id s) (Id p)) then mret (w, s) else
  w ← Lock w a;
  c ← node w a;
  s0 ← index (successor c) 0;
  r ← (if keyInBetweenExclusive (identifier c) (Id s0) (Id p) && askHealthNode w (IpAddress p) then
         w ← set_successor w a 0 p;
         w ← updateSuccessorList fuel w a;
         mret (w, p)
       else mret (w, s));
  w ← Unlock r.1 a;
  mret (w, r.2).

(** [stabilize] up to the files; false: it returns before them. *)
Definition stabilize_ring (fuel : nat) (w : world) (a : string) : go (world * bool) :=
  w ← Lock w a;
  w ← stabilize_locked fuel w a;
  c ← node w a;
  s ← index (successor c) 0;
  w ← Unlock w a;
  let '(currentPredecessor, ok) := askGetPredecessor w (IpAddress s) in
  if negb ok then c ← node w a; mret ((askUpdatePredecessor w c (IpAddress s)).1, false) else
  r ← adopt fuel w a s currentPredecessor;
  let '(w, s) := (r : world * finger) in
  c ← node w a;
  mret (askUpdatePredecessor w c (IpAddress s)).

Definition stabilize (fuel : nat) (w : world) (a : string) : go world :=
  r ← stabilize_ring fuel w a;
  let '(w, ok) := (r : world * bool) in
  if negb ok then mret w else
  c ← node w a;
  move_files fuel (ReadDir (directory c)) w a.
End storing.

(** ** Creating and joining *)
Definition parse_id (tmp : list Z) : key := take 20 (replicate (20 - length tmp) 0 ++ tmp).

Definition create (IP : string) (nSucc port : Z) (ID : string) : go ChordClient :=
  let myPort := Itoa port in
  id ← (if bool_decide (ID ≠ "") then
          match DecodeString ID with Some tmp => mret (parse_id tmp) | None => Fatal end
        else mret (Sum (bytes (IP +:+ ":" +:+ myPort))));
  if nSucc <? 0 then Panic else
  l ← store (replicate (Z.to_nat nSucc) no_finger) 0 (mkFinger id (IP +:+ ":" +:+ myPort));
  mret (mkClient id (replicate 160 no_finger) false l None IP myPort nSucc (-1) ∅).

Definition join (fuel : nat) (w : world) (IP : string) (nSucc port : Z) (ID IPClient : string)
    (portClient : Z) : go world :=
  c ← create IP nSucc port ID;
  let a := address c in
  let w := <[a := c]> w in
  r ← askFindSuccessor fuel w c (IPClient +:+ ":" +:+ Itoa portClient) (identifier c);
  match r.2 with
  | None => Fatal
  | Some f =>
      w ← set_successor r.1 a 0 f;
      c ← node w a;
      let '(w, ok) := askUpdatePredecessor w c (IpAddress f) in
      if ok then mret w else Fatal
  end.

(** ** The goroutines of a node *)
(** Each makes its first calls, and then one at each of [ticks] ticks. *)
Fixpoint every (f : world → go world) (ticks : nat) (w : world) : go world :=
  match ticks with
  | O => mret w
  | S ticks => w ← f w; every f ticks w
  end.
Definition runStabilize (creatable : string → bool) (ReadDir : gmap string string → list string)
    (ticks fuel : nat) (w : world) (a : string) : go world :=
  w ← stabilize creatable ReadDir fuel w a;
  every (λ w, stabilize creatable ReadDir fuel w a) ticks w.
Definition runFixFingers (ticks fuel : nat) (w : world) (a : string) : go world :=
  w ← every (λ w, fixFinger fuel w a) 160 w;
  every (λ w, fixFinger fuel w a) ticks w.
Definition runCheckPred (ticks : nat) (w : world) (a : string) : go world :=
  every (λ w, check_predecessor w a) ticks w.
