(* ===== verification/ChordProof.v ===== *)
(** * Chord: lookups on a stable ring, repair, notification *)
From S2P Require Import Prelude GoStrings ChordKeys Sha1 Chord.

(** ** A stable ring *)
Definition resolves (w : world) (f : finger) : Prop :=
  ∃ d, w !! IpAddress f = Some d ∧ identifier d = Id f.

(** [s] is the first other node clockwise from [c], or [c] itself. *)
Definition next_node (w : world) (c : ChordClient) (s : finger) : Prop :=
  ∀ a d, w !! a = Some d → identifier d ≠ identifier c →
    Id s ≠ identifier c ∧ dist (identifier c) (Id s) ≤ dist (identifier c) (identifier d).

(** A node at [a] whose data is in order, and whose entries name nodes that are up. *)
Record node_linked (w : world) (a : string) (c : ChordClient) : Prop := {
  nd_address : address c = a;
  nd_key : key_ok (identifier c);
  nd_lock : successorLock c = false;
  nd_numSucc : numSucc c = Z.of_nat (length (successor c));
  nd_table : length (fingerTable c) = 160%nat;
  nd_next : -1 ≤ next c ≤ 159;
  nd_entries f : f ∈ fingerTable c ++ successor c → IpAddress f ≠ "" → resolves w f;
  nd_succ : ∃ s l, successor c = s :: l ∧ IpAddress s ≠ "";
}.
Record linked (w : world) : Prop := {
  lk_node a c : w !! a = Some c → node_linked w a c;
  lk_id a a' c c' : w !! a = Some c → w !! a' = Some c' → identifier c = identifier c' → a = a';
}.

Record ring_ok (w : world) : Prop := {
  rg_linked :> linked w;
  rg_next a c s l : w !! a = Some c → successor c = s :: l → next_node w c s;
}.

Lemma resolves_key w f : linked w → resolves w f → key_ok (Id f).
Proof. intros Hw (d & Hd & <-). by eapply nd_key, lk_node. Qed.

(** ** The closest preceding node *)
Lemma last_between_spec n l id hash :
  (n ≤ length l)%nat →
  ∃ f, last_between n l id hash = Ret f ∧
    ((f ∈ l ∧ IpAddress f ≠ "" ∧ keyInBetweenExclusive id hash (Id f) = true) ∨
     (f = no_finger ∧ ∀ i f', (i < n)%nat → l !! i = Some f' → IpAddress f' ≠ "" →
        keyInBetweenExclusive id hash (Id f') = false)).
Proof.
  induction n as [|n IH]; intros Hn.
  { exists no_finger. split; [done|]. right. split; [done|]. intros. lia. }
  destruct (lookup_lt_is_Some_2 l n) as [f Hf]; [lia|]. cbn [last_between].
  rewrite (index_lookup _ _ _ Hf). simpl.
  destruct (decide (IpAddress f ≠ "")) as [Hip|Hip].
  - rewrite bool_decide_true by done. destruct (keyInBetweenExclusive id hash (Id f)) eqn:E.
    { exists f. split; [done|]. left. split_and!; [by eapply list_elem_of_lookup_2|done|done]. }
    destruct IH as (f' & H' & HH); [lia|]. exists f'. split; [done|].
    destruct HH as [?|[-> HH]]; [by left|right]. split; [done|]. intros i g Hi Hg Hgip.
    destruct (decide (i = n)) as [->|]; [congruence|]. eapply HH; [|done..]. lia.
  - rewrite bool_decide_false by done.
    destruct IH as (f' & H' & HH); [lia|]. exists f'. split; [done|].
    destruct HH as [?|[-> HH]]; [by left|right]. split; [done|]. intros i g Hi Hg Hgip.
    destruct (decide (i = n)) as [->|]; [simplify_eq; by destruct Hip|]. eapply HH; [|done..]. lia.
Qed.

(** When the key is not the successor's, [findClosestPrecedingNode] names a node
    strictly between: never the node itself. *)
Lemma closest_between w a c s l hash :
  linked w → w !! a = Some c → successor c = s :: l → IpAddress s ≠ "" → key_ok hash →
  keyInBetweenRightInclusive (identifier c) (Id s) hash = false →
  ∃ addr d, findClosestPrecedingNode c hash = Ret addr ∧ w !! addr = Some d ∧
    keyInBetweenExclusive (identifier c) hash (identifier d) = true.
Proof.
  intros Hw Hc Hs Hip Hh Hnot. pose proof (lk_node _ Hw _ _ Hc) as Hn.
  assert (∀ f, f ∈ fingerTable c ++ successor c → IpAddress f ≠ "" →
    keyInBetweenExclusive (identifier c) hash (Id f) = true →
    ∃ d, w !! IpAddress f = Some d ∧ keyInBetweenExclusive (identifier c) hash (identifier d) = true)
    as Hres.
  { intros f Hf Hfip Hb. destruct (nd_entries _ _ _ Hn _ Hf Hfip) as (d & Hd & Hid).
    exists d. by rewrite Hid. }
  assert (s ∈ successor c) as Hsin by (rewrite Hs; left).
  assert (resolves w s) as Hrs by (apply (nd_entries _ _ _ Hn); [apply elem_of_app; by right|done]).
  pose proof (resolves_key _ _ Hw Hrs) as Hsk. pose proof (nd_key _ _ _ Hn) as Hck.
  assert (keyInBetweenExclusive (identifier c) hash (Id s) = true) as Hsb.
  { apply not_true_iff_false in Hnot. rewrite between_inclusive in Hnot by done.
    apply between_exclusive; [done..|]. pose proof (dist_bound (identifier c) (Id s)).
    pose proof (dist_zero (identifier c) (Id s) Hck Hsk). pose proof (dist_zero (identifier c) hash Hck Hh).
    pose proof (dist_bound (identifier c) hash).
    assert (dist (identifier c) (Id s) ≠ 0) by tauto.
    destruct (decide (identifier c = hash)) as [|Hne]; [split; [lia|by right]|].
    assert (dist (identifier c) hash ≠ 0) by tauto. split; [lia|left; lia]. }
  unfold findClosestPrecedingNode.
  destruct (last_between_spec (Z.to_nat (next c)) (fingerTable c) (identifier c) hash)
    as (f1 & -> & H1); [rewrite (nd_table _ _ _ Hn); pose proof (nd_next _ _ _ Hn); lia|].
  simpl. rewrite (nd_lock _ _ _ Hn). simpl. rewrite (nd_numSucc _ _ _ Hn), Nat2Z.id.
  destruct (last_between_spec (length (successor c)) (successor c) (identifier c) hash)
    as (f2 & -> & H2); [lia|]. simpl.
  destruct H2 as [(Hf2 & Hip2 & Hb2)|[_ Hno]].
  2: { rewrite (Hno O s) in Hsb; [done|rewrite Hs; simpl; lia|by rewrite Hs|done]. }
  destruct (Hres f2) as (d2 & Hd2 & Hbd2); [apply elem_of_app; by right|done..|].
  rewrite bool_decide_false by tauto. rewrite (bool_decide_false (IpAddress f2 = "")) by done.
  destruct H1 as [(Hf1 & Hip1 & Hb1)|[-> _]]; [|by eexists _, d2].
  destruct (Hres f1) as (d1 & Hd1 & Hbd1); [apply elem_of_app; by left|done..|].
  rewrite bool_decide_false by done. case_match; by eexists _, _.
Qed.

(** ** findSuccessor *)
Lemma between_trans c d k h :
  key_ok c → key_ok d → key_ok k → key_ok h →
  keyInBetweenExclusive c h d = true → keyInBetweenExclusive d h k = true →
  keyInBetweenExclusive c h k = true.
Proof.
  intros Hc Hd Hk Hh. rewrite !between_exclusive, !same_iff_Z by done.
  pose proof (key_Z_bound c Hc). pose proof (key_Z_bound d Hd). pose proof (key_Z_bound k Hk).
  pose proof (key_Z_bound h Hh).
  destruct (dist_cases c d Hc Hd), (dist_cases c h Hc Hh), (dist_cases d k Hd Hk),
    (dist_cases d h Hd Hh), (dist_cases c k Hc Hk); lia.
Qed.

(** The nodes strictly between [id] and [hash]. *)
Definition between_set (w : world) (id hash : key) : gset string :=
  dom (filter (λ ad : string * ChordClient, keyInBetweenExclusive id hash (identifier ad.2) = true) w).

Lemma elem_of_between_set w id hash a :
  a ∈ between_set w id hash ↔ ∃ d, w !! a = Some d ∧ keyInBetweenExclusive id hash (identifier d) = true.
Proof.
  unfold between_set. rewrite elem_of_dom. split.
  - intros [d [Hd Hb]%map_lookup_filter_Some]. by exists d.
  - intros (d & Hd & Hb). exists d. by apply map_lookup_filter_Some.
Qed.

Lemma between_set_shrinks w addr c d hash :
  linked w → key_ok (identifier c) → key_ok hash → w !! addr = Some d →
  keyInBetweenExclusive (identifier c) hash (identifier d) = true →
  (size (between_set w (identifier d) hash) < size (between_set w (identifier c) hash))%nat.
Proof.
  intros Hw Hc Hh Hd Hb. apply subset_size. split.
  - intros a (k & Hk & Hbk)%elem_of_between_set. apply elem_of_between_set. exists k.
    split; [done|]. eapply between_trans; [done|..|done|done]; [|by eapply nd_key, lk_node|done].
    by eapply nd_key, lk_node.
  - intros Hsub. specialize (Hsub addr).
    destruct (proj1 (elem_of_between_set w (identifier d) hash addr)) as (k & Hk & Hbk).
    { apply Hsub, elem_of_between_set. by exists d. }
    simplify_eq. pose proof (nd_key _ _ _ (lk_node _ Hw _ _ Hd)) as Hdk.
    apply between_exclusive in Hbk; [|done..]. rewrite dist_self in Hbk. lia.
Qed.

Lemma between_set_size w id hash : (size (between_set w id hash) ≤ size w)%nat.
Proof.
  unfold between_set. rewrite <-(size_dom (D := gset string) w). apply subseteq_size.
  apply dom_filter_subseteq.
Qed.

(** [s] is the node responsible for [hash]: the first one at or after it. *)
Definition owner (w : world) (hash : key) (s : finger) : Prop :=
  resolves w s ∧ ∀ a d, w !! a = Some d → dist hash (Id s) ≤ dist hash (identifier d).

Lemma successor_owner w a c s l hash :
  ring_ok w → w !! a = Some c → successor c = s :: l → next_node w c s → resolves w s →
  key_ok hash → keyInBetweenRightInclusive (identifier c) (Id s) hash = true → owner w hash s.
Proof.
  intros Hw Hc Hs Hnext Hr Hh Hin. split; [done|]. intros a' d Hd.
  pose proof (nd_key _ _ _ (lk_node _ Hw _ _ Hc)) as Hck.
  pose proof (nd_key _ _ _ (lk_node _ Hw _ _ Hd)) as Hdk. pose proof (resolves_key _ _ Hw Hr) as Hsk.
  apply between_inclusive in Hin; [|done..]. rewrite same_iff_Z in Hin by done.
  pose proof (Hnext a' d Hd) as Hn. rewrite !same_iff_Z in Hn by done.
  pose proof (key_Z_bound _ Hck). pose proof (key_Z_bound _ Hdk). pose proof (key_Z_bound _ Hsk).
  pose proof (key_Z_bound _ Hh).
  destruct (dist_cases (identifier c) hash Hck Hh), (dist_cases (identifier c) (Id s) Hck Hsk),
    (dist_cases (identifier c) (identifier d) Hck Hdk), (dist_cases hash (Id s) Hh Hsk),
    (dist_cases hash (identifier d) Hh Hdk); lia.
Qed.

(** Where a lookup ends: at the node [c'] whose interval has the key. *)
Definition answered (w : world) (c : ChordClient) (hash : key) (s : finger) : Prop :=
  resolves w s ∧ ∃ a' c' l, w !! a' = Some c' ∧ successor c' = s :: l ∧
    keyInBetweenRightInclusive (identifier c') (Id s) hash = true ∧
    (identifier c ≠ hash → identifier c' ≠ hash).

Lemma findSuccessor_linked fuel w a c hash :
  linked w → w !! a = Some c → key_ok hash →
  (size (between_set w (identifier c) hash) < fuel)%nat →
  ∃ s, findSuccessor fuel w a hash = Ret (w, s) ∧ answered w c hash s.
Proof.
  intros Hw. revert a c. induction fuel as [|fuel IH]; intros a c Hc Hh Hf; [lia|].
  pose proof (lk_node _ Hw _ _ Hc) as Hn. destruct (nd_succ _ _ _ Hn) as (s & l & Hs & Hip).
  cbn [findSuccessor]. unfold node. rewrite Hc. simpl. rewrite (nd_lock _ _ _ Hn). simpl.
  rewrite Hs. simpl. destruct (keyInBetweenRightInclusive (identifier c) (Id s) hash) eqn:E.
  - exists s. split; [done|]. split; [|by exists a, c, l]. apply (nd_entries _ _ _ Hn); [|done].
    rewrite Hs. apply elem_of_app. right. left.
  - destruct (closest_between w a c s l hash) as (addr & d & -> & Hd & Hb); try done. simpl. rewrite Hd.
    pose proof (nd_key _ _ _ Hn) as Hck. pose proof (nd_key _ _ _ (lk_node _ Hw _ _ Hd)) as Hdk.
    pose proof (proj1 (between_exclusive _ _ _ Hck Hh Hdk) Hb) as [Hpos Hbnd].
    unfold sameKey. rewrite bool_decide_false.
    2: { intros Heq. rewrite Heq, dist_self in Hpos. lia. }
    destruct (IH addr d) as (s' & Hrun & Hr & a' & c' & l' & H1 & H2 & H3 & H4); [done|done| |].
    { pose proof (between_set_shrinks w addr c d hash Hw Hck Hh Hd Hb). lia. }
    exists s'. split; [done|]. split; [done|]. exists a', c', l'. split_and!; try done.
    intros Hne. apply H4. intros Heq. destruct Hbnd as [Hlt|]; [|done]. rewrite Heq in Hlt. lia.
Qed.

Lemma findSuccessor_run fuel w a c hash :
  ring_ok w → w !! a = Some c → key_ok hash →
  (size (between_set w (identifier c) hash) < fuel)%nat →
  ∃ s, findSuccessor fuel w a hash = Ret (w, s) ∧ owner w hash s.
Proof.
  intros Hw Hc Hh Hf.
  destruct (findSuccessor_linked fuel w a c hash Hw Hc Hh Hf) as (s & Hrun & Hr & a' & c' & l & H1 & H2 & H3 & _).
  exists s. split; [done|]. eapply successor_owner; try done. by eapply rg_next.
Qed.

(** C15 On a stable ring of [n] nodes a lookup from any node ends after at most
    [n+1] calls, never asks itself (the [log.Fatal] of [ReqFindSuccessor] is
    not reached), changes no node, and names the node responsible for the key:
    no other node is nearer, going clockwise from the key. *)
Theorem findSuccessor_stable fuel w a c hash :
  ring_ok w → w !! a = Some c → key_ok hash → (size w < fuel)%nat →
  ∃ s, findSuccessor fuel w a hash = Ret (w, s) ∧ owner w hash s.
Proof.
  intros Hw Hc Hh Hf. eapply findSuccessor_run; [done..|].
  pose proof (between_set_size w (identifier c) hash). lia.
Qed.

(** ** Replication *)
(** [lookup] means to place a file at three points of the ring, but the
    third offset, [2^200], is a multiple of the ring: the third point is the
    hash itself, next to the first one, [hash + 1]. *)
Lemma lookup_points h :
  key_ok h →
  keyToLook (2 * 100) h = h ∧ dist h (keyToLook (0 * 100) h) = 1 ∧
  dist h (keyToLook (1 * 100) h) = 2 ^ 100.
Proof.
  intros Hh. destruct (keyToLook_key 200 h Hh) as [H1 H2]. destruct (keyToLook_key 0 h Hh) as [H3 H4].
  destruct (keyToLook_key 100 h Hh) as [H5 H6]. pose proof (key_Z_bound h Hh) as Hb. unfold ring in *.
  change (2 * 100) with 200. change (0 * 100) with 0. change (1 * 100) with 100. split_and!.
  - apply key_Z_inj; [exact H1|exact Hh|]. rewrite H2. change (Exp 2 200) with (2 ^ 40 * 2 ^ 160).
    rewrite Z.mod_add by done. apply Z.mod_small. lia.
  - unfold dist. rewrite H4. unfold ring. rewrite Zminus_mod_idemp_l.
    replace (key_Z h + Exp 2 0 - key_Z h) with 1 by (change (Exp 2 0) with 1; lia). done.
  - unfold dist. rewrite H6. unfold ring. rewrite Zminus_mod_idemp_l.
    replace (key_Z h + Exp 2 100 - key_Z h) with (2 ^ 100) by (change (Exp 2 100) with (2 ^ 100); lia). done.
Qed.

(** ** notify *)
(** [notify] never takes the node itself, accepts a candidate exactly when
    there is no predecessor, it is the predecessor, or it lies between the
    predecessor and the node, and so never moves the predecessor away; and
    [ReqUpdatePredecessor] reports the candidate as the old predecessor. *)
Lemma notify_spec c p :
  key_ok (identifier c) → key_ok (Id p) → (∀ q, predecessor c = Some q → key_ok (Id q)) →
  let b := (notify c p).2 in
  (b = true ↔ Id p ≠ identifier c ∧ ∀ q, predecessor c = Some q →
     Id p = Id q ∨ keyInBetweenExclusive (Id q) (identifier c) (Id p) = true) ∧
  (notify c p).1 = (if b then with_predecessor c (Some p) else c) ∧
  (∀ q, b = true → predecessor c = Some q → Id q ≠ identifier c →
     dist (Id p) (identifier c) ≤ dist (Id q) (identifier c)) ∧
  (∀ q, predecessor c = Some q →
     OldPredecessorId (ReqUpdatePredecessor c (Id p) (IpAddress p)).2 = Id p).
Proof.
  intros Hc Hp Hq. simpl.
  assert (((notify c p).2 = true ↔ Id p ≠ identifier c ∧ ∀ q, predecessor c = Some q →
     Id p = Id q ∨ keyInBetweenExclusive (Id q) (identifier c) (Id p) = true)) as Hb.
  { unfold notify, sameKey. destruct (decide (identifier c = Id p)) as [E|E]; simpl.
    - rewrite bool_decide_true by done. simpl. split; [done|]. intros [? _]. congruence.
    - rewrite bool_decide_false by done. destruct (predecessor c) as [q|]; simpl.
      + case_match eqn:Eb; simpl; split; try done.
        * intros _. split; [done|]. intros q' [= <-].
          apply orb_true_iff in Eb as [Eb|Eb]; [left; by apply bool_decide_eq_true in Eb|by right].
        * intros [_ HH]. exfalso. apply orb_false_iff in Eb as [E1 E2].
          apply bool_decide_eq_false in E1. destruct (HH q eq_refl); congruence.
      + split; [|done]. intros _. split; [done|]. done. }
  split_and!; [exact Hb| | |].
  - destruct (notify c p) as [c' b] eqn:E. simpl. unfold notify in E. repeat case_match; by simplify_eq.
  - intros q Hbt Hpq Hne. apply Hb in Hbt as [_ HH]. destruct (HH q Hpq) as [->|Hbt]; [done|].
    pose proof (Hq q Hpq) as Hqk. apply between_exclusive in Hbt; [|done..].
    rewrite same_iff_Z in Hne, Hbt by done.
    pose proof (key_Z_bound _ Hc). pose proof (key_Z_bound _ Hp). pose proof (key_Z_bound _ Hqk).
    destruct (dist_cases (Id p) (identifier c) Hp Hc), (dist_cases (Id q) (identifier c) Hqk Hc),
      (dist_cases (Id q) (Id p) Hqk Hp); lia.
  - intros q Hpq. unfold ReqUpdatePredecessor. rewrite Hpq.
    by destruct (notify c (mkFinger (Id p) (IpAddress p))).
Qed.

(** ** The successor list *)
Lemma copy_list_run n i new l :
  (1 ≤ i)%nat → (i + n ≤ S (length new))%nat →
  copy_list n (Z.of_nat i) new l =
    if decide (n = O ∨ i + n ≤ length l)%nat
    then Ret (take i l ++ take n (drop (i - 1) new) ++ drop (i + n) l) else Panic.
Proof.
  revert i l. induction n as [|n IH]; intros i l Hi Hn; cbn [copy_list].
  { rewrite decide_True by by left. rewrite take_0, Nat.add_0_r. simpl. by rewrite take_drop. }
  destruct (lookup_lt_is_Some_2 new (i - 1)) as [f Hf]; [lia|].
  replace (Z.of_nat i - 1) with (Z.of_nat (i - 1)) by lia. rewrite (index_lookup _ _ _ Hf). simpl.
  unfold store. destruct (decide (i < length l)%nat) as [Hil|Hil].
  - rewrite (decide_True (P := _ ≤ _ < _)) by lia. simpl. rewrite Nat2Z.id.
    replace (Z.of_nat i + 1) with (Z.of_nat (S i)) by lia. rewrite IH by lia. rewrite length_insert.
    destruct (decide (i + S n ≤ length l)%nat) as [Hl|Hl].
    + rewrite !decide_True by lia. f_equal.
      rewrite (take_S_r _ _ f) by (apply list_lookup_insert_eq; lia).
      rewrite take_insert_ge, drop_insert_lt by lia. replace (S i - 1)%nat with i by lia.
      rewrite (drop_S _ _ _ Hf). replace (S (i - 1)) with i by lia. cbn [take].
      rewrite <-app_assoc. simpl. by replace (i + S n)%nat with (S (i + n)) by lia.
    + destruct n as [|n]; [lia|]. rewrite !decide_False by lia. done.
  - rewrite (decide_False (P := _ ≤ _ < _)), decide_False by lia. done.
Qed.

Lemma AskSuccList_run w c ip d :
  w !! ip = Some d → identifier d = identifier c ∨ successorLock d = false →
  AskSuccList w c ip = Ret (Some (successor d)).
Proof.
  intros Hd Hl. unfold AskSuccList. rewrite Hd. unfold ReqSuccList, sameKey.
  case_bool_decide as E; simpl; [done|]. destruct Hl as [?| ->]; [congruence|]. done.
Qed.

Lemma updateSuccessorList_run fuel w a c s l d :
  w !! a = Some c → successor c = s :: l → w !! IpAddress s = Some d →
  identifier d = identifier c ∨ successorLock d = false → successor d ≠ [] →
  updateSuccessorList (S fuel) w a =
    if decide (length (successor d) ≤ length (successor c))%nat
    then Ret (<[a := with_successor c (s :: take (length (successor d) - 1) (successor d) ++
                                       drop (length (successor d)) (successor c))]> w)
    else Panic.
Proof.
  intros Hc Hs Hd Hl Hne. cbn [updateSuccessorList]. unfold node. rewrite Hc. simpl. rewrite Hs. simpl.
  rewrite (AskSuccList_run w c _ d) by done. simpl.
  assert (1 ≤ length (successor d))%nat by (destruct (successor d); [done|simpl; lia]).
  pose proof (copy_list_run (length (successor d) - 1) 1 (successor d) (s :: l)) as Hrun.
  change (Z.of_nat 1) with 1 in Hrun. rewrite Hrun by lia. clear Hrun.
  destruct (length (successor d)) as [|k] eqn:Ek; [lia|]. cbn [length] in *.
  rewrite Nat.sub_succ, !Nat.sub_0_r, Nat.sub_diag.
  destruct (decide (S k ≤ S (length l))%nat) as [Hle|Hgt].
  - rewrite decide_True by lia. done.
  - rewrite decide_False by lia. done.
Qed.

(** [updateSuccessorList] on a node whose successor answers: the list
    becomes the own successor followed by the successor's list; but the entries
    are written by index, so a successor that keeps a longer list makes the node
    panic. *)
Lemma updateSuccessorList_spec fuel w a c s l d :
  w !! a = Some c → successor c = s :: l → w !! IpAddress s = Some d →
  identifier d = identifier c ∨ successorLock d = false → successor d ≠ [] →
  updateSuccessorList (S fuel) w a =
    if decide (length (successor d) ≤ length (successor c))%nat
    then Ret (<[a := with_successor c (s :: take (length (successor d) - 1) (successor d) ++
                                       drop (length (successor d)) (successor c))]> w)
    else Panic.
Proof. apply updateSuccessorList_run. Qed.

(** ** Repairing the successor *)
(** The first live entry of the list, or the node itself. *)
Definition live_successor (w : world) (c : ChordClient) : finger :=
  default (mkFinger (identifier c) (address c))
    (snd <$> list_find (λ f, IpAddress f ≠ "" ∧ is_Some (w !! IpAddress f)) (successor c)).

Lemma askHealthNode_iff w ip : askHealthNode w ip = true ↔ is_Some (w !! ip).
Proof. unfold askHealthNode. destruct (w !! ip); split; try done; by intros [? ?]. Qed.

Lemma first_working_spec w l :
  match list_find (λ f, IpAddress f ≠ "" ∧ is_Some (w !! IpAddress f)) l with
  | Some (i, f) => first_working w l = Z.of_nat i ∧ l !! i = Some f
  | None => first_working w l = Z.of_nat (length l)
  end.
Proof.
  induction l as [|f l IH]; [done|]. cbn [list_find first_working].
  destruct (decide (IpAddress f ≠ "" ∧ is_Some (w !! IpAddress f))) as [[H1 H2]|H].
  - by rewrite bool_decide_true, (proj2 (askHealthNode_iff _ _)).
  - assert (bool_decide (IpAddress f ≠ "") && askHealthNode w (IpAddress f) = false) as ->.
    { apply not_true_iff_false. rewrite andb_true_iff, bool_decide_eq_true, askHealthNode_iff. done. }
    destruct (list_find _ l) as [[i g]|]; simpl; [destruct IH as [-> ?]; split; [lia|done]|].
    rewrite IH. cbn [length]. lia.
Qed.

(** What a repairing node needs of the others: they answer, and keep lists no
    longer than its own. *)
Definition answers (w : world) (c : ChordClient) : Prop :=
  ∀ ip d, w !! ip = Some d →
    (identifier d = identifier c ∨ successorLock d = false) ∧
    (0 < length (successor d) ≤ length (successor c))%nat.

Lemma answers_update w a c l :
  w !! a = Some c → answers w c → length l = length (successor c) →
  answers (<[a := with_successor c l]> w) (with_successor c l).
Proof.
  intros Hc Ha Hl ip d [(<- & <-)|[_ Hd]]%lookup_insert_Some; simpl; rewrite Hl.
  - split; [by left|]. apply (Ha a c Hc).
  - exact (Ha ip d Hd).
Qed.

Lemma update_keeps_head fuel w a c s l :
  w !! a = Some c → successor c = s :: l → is_Some (w !! IpAddress s) → answers w c →
  ∃ l', updateSuccessorList (S fuel) w a = Ret (<[a := with_successor c (s :: l')]> w) ∧
    length (s :: l') = length (successor c).
Proof.
  intros Hc Hs [d Hd] Ha. destruct (Ha _ _ Hd) as [Hl [Hpos Hle]].
  rewrite (updateSuccessorList_run fuel w a c s l d Hc Hs Hd Hl), decide_True; [|done|].
  - eexists. split; [done|]. cbn [length]. rewrite length_app, length_take, length_drop. lia.
  - intros E. rewrite E in Hpos. simpl in Hpos. lia.
Qed.

Lemma insert_live {A} (w : gmap string A) a c ip : is_Some (w !! ip) → is_Some (<[a := c]> w !! ip).
Proof. intros. apply lookup_insert_is_Some'. by right. Qed.

Lemma live_successor_live w a c :
  w !! a = Some c → address c = a → is_Some (w !! IpAddress (live_successor w c)).
Proof.
  intros Hc Ha. unfold live_successor. destruct (list_find _ _) as [[i f]|] eqn:E; simpl.
  - by apply list_find_Some in E as (_ & [_ ?] & _).
  - rewrite Ha. by exists c.
Qed.

(** The branch of [checkSuccessor] for a dead successor. *)
Lemma repair_dead fuel w a c s l :
  w !! a = Some c → address c = a → answers w c → successor c = s :: l →
  ∃ w1 c1 l1,
    (w0 ← (if first_working w (successor c) =? Z.of_nat (length (successor c))
           then set_successor w a 0 (mkFinger (identifier c) (address c))
           else f ← index (successor c) (first_working w (successor c)); set_successor w a 0 f);
     updateSuccessorList (S fuel) w0 a) = Ret w1 ∧ w1 = <[a := c1]> w ∧
    c1 = with_successor c (live_successor w c :: l1) ∧
    length (live_successor w c :: l1) = length (successor c) ∧
    is_Some (w !! IpAddress (live_successor w c)).
Proof.
  intros Hc Haddr Ha Hs. pose proof (live_successor_live w a c Hc Haddr) as Hlive.
  assert (∀ f, set_successor w a 0 f = Ret (<[a := with_successor c (f :: l)]> w)) as Hset.
  { intros f. unfold set_successor, node. rewrite Hc. simpl. rewrite Hs. unfold store.
    by rewrite decide_True by (cbn [length]; lia). }
  assert ((if first_working w (successor c) =? Z.of_nat (length (successor c))
    then set_successor w a 0 (mkFinger (identifier c) (address c))
    else f ← index (successor c) (first_working w (successor c)); set_successor w a 0 f) =
    Ret (<[a := with_successor c (live_successor w c :: l)]> w)) as ->.
  { pose proof (first_working_spec w (successor c)) as Hfw. unfold live_successor.
    destruct (list_find _ (successor c)) as [[i f]|] eqn:E; simpl.
    - destruct Hfw as [-> Hi]. pose proof (lookup_lt_Some _ _ _ Hi).
      rewrite (proj2 (Z.eqb_neq _ _)), (index_lookup _ _ _ Hi) by lia. apply Hset.
    - rewrite Hfw, Z.eqb_refl. apply Hset. }
  go_step. destruct (update_keeps_head fuel (<[a := with_successor c (live_successor w c :: l)]> w) a
    (with_successor c (live_successor w c :: l)) (live_successor w c) l) as (l' & -> & Hl').
  - apply lookup_insert_eq.
  - done.
  - by apply insert_live.
  - apply answers_update; [done..|]. by rewrite Hs.
  - eexists _, _, l'. rewrite insert_insert_eq. split_and!; try done. simpl in Hl'. rewrite Hs. simpl. lia.
Qed.

(** The repair at the start of [stabilize] terminates: if the nodes that are
    still up answer and keep lists no longer than its own, the recursion of
    [checkSuccessor] and [updateSuccessorList] is at most three deep, and
    afterwards the successor is the first entry of the old list that is alive,
    or the node itself when none is; no other node is changed. *)
Lemma stabilize_repairs fuel w a c :
  w !! a = Some c → address c = a → w !! "" = None → answers w c →
  ∃ l, stabilize_locked (3 + fuel) w a = Ret (<[a := with_successor c (live_successor w c :: l)]> w) ∧
    length (live_successor w c :: l) = length (successor c) ∧ is_Some (w !! IpAddress (live_successor w c)).
Proof.
  intros Hc Haddr Hempty Ha. destruct (Ha a c Hc) as [_ [Hpos _]].
  destruct (successor c) as [|s l] eqn:Hs; [simpl in Hpos; lia|].
  assert (∃ w1 c1 l1, checkSuccessor (3 + fuel) w a = Ret w1 ∧ w1 = <[a := c1]> w ∧
    c1 = with_successor c (live_successor w c :: l1) ∧ length (live_successor w c :: l1) = length (successor c) ∧
    is_Some (w !! IpAddress (live_successor w c))) as (w1 & c1 & l1 & Hcheck & -> & -> & Hl1 & Hlive).
  { cbn [checkSuccessor Nat.add]. unfold node. rewrite Hc. cbn [deref mbind go_bind].
    assert (index (successor c) 0 = Ret s) as -> by by rewrite Hs. go_step.
    destruct (askHealthNode w (IpAddress s)) eqn:Eh.
    - pose proof (proj1 (askHealthNode_iff _ _) Eh) as Hsome.
      assert (live_successor w c = s) as ->.
      { unfold live_successor. rewrite Hs. simpl. rewrite decide_True; [done|]. split; [|done].
        intros E. rewrite E, Hempty in Hsome. by destruct Hsome. }
      exists w, (with_successor c (s :: l)), l. split_and!; try done; [|by rewrite Hs].
      rewrite insert_id; [done|]. rewrite Hc. f_equal. destruct c. simpl in *. by subst.
    - by apply (repair_dead (S fuel) w a c s l). }
  unfold stabilize_locked. rewrite Hcheck. go_step.
  change (3 + fuel)%nat with (S (2 + fuel)).
  destruct (update_keeps_head (2 + fuel) (<[a := with_successor c (live_successor w c :: l1)]> w) a
    (with_successor c (live_successor w c :: l1)) (live_successor w c) l1) as (l' & -> & Hl').
  - apply lookup_insert_eq.
  - done.
  - by apply insert_live.
  - by apply answers_update.
  - exists l'. rewrite insert_insert_eq. split; [done|]. split; [|done].
    cbn [successor with_successor] in Hl'. change (length (live_successor w c :: l') = length (s :: l)).
    destruct c. cbn in *. by rewrite Hl', Hl1, Hs.
Qed.

(** ** Deadlock *)
Lemma locked_out fuel w a c s l d :
  w !! a = Some c → successor c = s :: l → w !! IpAddress s = Some d →
  identifier c ≠ identifier d → successorLock d = true →
  stabilize_locked (S fuel) w a = Blocked.
Proof.
  intros Hc Hs Hd Hid Hl. unfold stabilize_locked. cbn [checkSuccessor]. unfold node.
  rewrite Hc. simpl. rewrite Hs. simpl. unfold askHealthNode. rewrite Hd. simpl. unfold node.
  rewrite Hc. simpl. rewrite Hs. simpl. unfold AskSuccList. rewrite Hd. simpl.
  unfold ReqSuccList, sameKey. rewrite bool_decide_false by done. simpl. by rewrite Hl.
Qed.

(** C17 [stabilize] holds the node's own [successorLock] while it asks the
    successor for its list, which needs the successor's lock.  Two nodes that are
    each other's successor and that both have entered [stabilize] wait for each
    other for ever, and every lookup at either of them waits too. *)
Theorem stabilize_deadlock fuel w a b ca cb sa sb la lb hash :
  w !! a = Some ca → w !! b = Some cb → identifier ca ≠ identifier cb →
  successor ca = sb :: lb → IpAddress sb = b → successor cb = sa :: la → IpAddress sa = a →
  successorLock ca = false → successorLock cb = false →
  ∃ w1 w2, Lock w a = Ret w1 ∧ Lock w1 b = Ret w2 ∧
    stabilize_locked (S fuel) w2 a = Blocked ∧ stabilize_locked (S fuel) w2 b = Blocked ∧
    findSuccessor (S fuel) w2 a hash = Blocked ∧ findSuccessor (S fuel) w2 b hash = Blocked.
Proof.
  intros Ha Hb Hid Hsa Hipb Hsb Hipa Hla Hlb.
  assert (a ≠ b) as Hab by (intros ->; by simplify_eq). set (w2 := <[b := with_lock cb true]> (<[a := with_lock ca true]> w)).
  assert (w2 !! a = Some (with_lock ca true)) as H2a
    by (unfold w2; by rewrite lookup_insert_ne, lookup_insert_eq).
  assert (w2 !! b = Some (with_lock cb true)) as H2b by (unfold w2; by rewrite lookup_insert_eq).
  exists (<[a := with_lock ca true]> w), w2. split_and!.
  - unfold Lock, node. rewrite Ha. simpl. by rewrite Hla.
  - unfold Lock, node. rewrite lookup_insert_ne, Hb by done. simpl. by rewrite Hlb.
  - by apply (locked_out fuel w2 a (with_lock ca true) sb lb (with_lock cb true)); rewrite ?Hipb.
  - apply (locked_out fuel w2 b (with_lock cb true) sa la (with_lock ca true)); rewrite ?Hipa; try done.
  - cbn [findSuccessor]. unfold node. by rewrite H2a.
  - cbn [findSuccessor]. unfold node. by rewrite H2b.
Qed.
