(* ===== verification/ChordTyped.v ===== *)
(** * Chord: the operations keep nodes well-formed

    The invariant of the data of a node that holds with or without a stable
    ring: keys are twenty bytes, the finger table has 160 entries, the successor
    list has the length that all nodes were started with, and [next] is a valid
    index or -1.  From it no operation of the maintenance panics, whichever nodes
    have left. *)
From S2P Require Import Prelude GoStrings ChordKeys Sha1 Chord ChordProof.

Record client_typed (r : nat) (c : ChordClient) : Prop := {
  ct_id : key_ok (identifier c);
  ct_table : length (fingerTable c) = 160%nat;
  ct_fingers : Forall (λ f, key_ok (Id f)) (fingerTable c);
  ct_numSucc : numSucc c = Z.of_nat r;
  ct_successor : length (successor c) = r;
  ct_successors : Forall (λ f, key_ok (Id f)) (successor c);
  ct_predecessor p : predecessor c = Some p → key_ok (Id p);
  ct_next : -1 ≤ next c ≤ 159;
}.
Definition world_typed (r : nat) (w : world) : Prop := map_Forall (λ _, client_typed r) w.

(** ** Computations that do not panic *)
Definition safe {X} (P : X → Prop) (m : go X) : Prop :=
  match m with Ret x => P x | Panic => False | Fatal | Blocked | NoFuel => True end.

Lemma safe_bind {X Y} (P : X → Prop) (Q : Y → Prop) (m : go X) (f : X → go Y) :
  safe P m → (∀ x, P x → safe Q (f x)) → safe Q (m ≫= f).
Proof. destruct m; simpl; auto. Qed.
Lemma safe_mono {X} (P Q : X → Prop) (m : go X) : safe P m → (∀ x, P x → Q x) → safe Q m.
Proof. destruct m; simpl; auto. Qed.
Lemma safe_deref {X} (o : option X) (P : X → Prop) x : o = Some x → P x → safe P (deref o).
Proof. by intros ->. Qed.

Section typed.
Context (r : nat).
Hypothesis r_pos : (0 < r)%nat.

Lemma no_finger_typed : key_ok (Id no_finger).
Proof. split; [done|]. simpl. by repeat constructor. Qed.

(** A world with the same nodes, well-formed. *)
Definition same (w w' : world) : Prop := world_typed r w' ∧ ∀ a, is_Some (w !! a) → is_Some (w' !! a).

Lemma same_world_refl w : world_typed r w → same w w.
Proof. done. Qed.
Lemma same_world_trans w1 w2 w3 : same w1 w2 → same w2 w3 → same w1 w3.
Proof. intros [_ H1] [H2 H3]. split; auto. Qed.
Lemma same_insert w a c : world_typed r w → client_typed r c → same w (<[a := c]> w).
Proof.
  intros Hw Hc. split; [by apply map_Forall_insert_2|]. intros b Hb.
  destruct (decide (a = b)) as [->|]; [rewrite lookup_insert_eq; eauto|by rewrite lookup_insert_ne].
Qed.

Lemma node_safe w a : world_typed r w → is_Some (w !! a) → safe (client_typed r) (node w a).
Proof. intros Hw [c Hc]. unfold node. rewrite Hc. simpl. by eapply Hw. Qed.

Lemma acquire_safe b : safe (λ _, True) (acquire b).
Proof. by destruct b. Qed.

Lemma index_safe (l : list finger) i :
  Forall (λ f, key_ok (Id f)) l → 0 ≤ i < Z.of_nat (length l) → safe (λ f, key_ok (Id f)) (index l i).
Proof.
  intros Hl Hi. destruct (index_lt l i Hi) as [f Hf]. rewrite Hf. simpl.
  apply index_Ret in Hf as [_ Hf]. by eapply Forall_lookup_1 in Hl.
Qed.

Lemma store_safe (l : list finger) i f :
  Forall (λ f, key_ok (Id f)) l → key_ok (Id f) → 0 ≤ i < Z.of_nat (length l) →
  safe (λ l', Forall (λ f, key_ok (Id f)) l' ∧ length l' = length l) (store l i f).
Proof.
  intros Hl Hf Hi. rewrite store_lt by done. simpl. rewrite length_insert. split; [|done].
  by apply Forall_insert.
Qed.

Lemma with_lock_typed c b : client_typed r c → client_typed r (with_lock c b).
Proof. by intros []. Qed.
Lemma with_successor_typed c l :
  client_typed r c → Forall (λ f, key_ok (Id f)) l → length l = length (successor c) →
  client_typed r (with_successor c l).
Proof. intros [] Hl Hlen. constructor; try done. simpl. congruence. Qed.
Lemma with_predecessor_typed c p :
  client_typed r c → (∀ f, p = Some f → key_ok (Id f)) → client_typed r (with_predecessor c p).
Proof. by intros []. Qed.
Lemma with_directory_typed c d : client_typed r c → client_typed r (with_directory c d).
Proof. by intros []. Qed.

(** ** The successor list *)
Lemma Lock_safe w a : world_typed r w → is_Some (w !! a) → safe (same w) (Lock w a).
Proof.
  intros Hw Ha. eapply safe_bind; [by apply node_safe|]. intros c Hc.
  eapply safe_bind; [apply acquire_safe|]. intros _ _. apply same_insert; [done|by apply with_lock_typed].
Qed.
Lemma Unlock_safe w a : world_typed r w → is_Some (w !! a) → safe (same w) (Unlock w a).
Proof.
  intros Hw Ha. eapply safe_bind; [by apply node_safe|]. intros c Hc.
  apply same_insert; [done|by apply with_lock_typed].
Qed.
Lemma set_successor_safe w a i f :
  world_typed r w → is_Some (w !! a) → 0 ≤ i < Z.of_nat r → key_ok (Id f) →
  safe (same w) (set_successor w a i f).
Proof.
  intros Hw Ha Hi Hf. eapply safe_bind; [by apply node_safe|]. intros c Hc.
  eapply safe_bind; [apply store_safe; [apply Hc|done|by rewrite (ct_successor _ _ Hc)]|].
  intros l [Hl Hlen]. apply same_insert; [done|by apply with_successor_typed].
Qed.
Lemma AskSuccList_safe w self ip :
  world_typed r w →
  safe (λ o, ∀ l, o = Some l → Forall (λ f, key_ok (Id f)) l ∧ length l = r) (AskSuccList w self ip).
Proof.
  intros Hw. unfold AskSuccList. destruct (w !! ip) as [d|] eqn:Hd; [|done].
  pose proof (Hw _ _ Hd) as Hc. unfold ReqSuccList.
  assert (∀ l, Some (successor d) = Some l → Forall (λ f, key_ok (Id f)) l ∧ length l = r)
    by (intros l [= <-]; split; apply Hc).
  case_match; [|done]. by destruct (successorLock d).
Qed.

Lemma copy_list_safe n i new l :
  Forall (λ f, key_ok (Id f)) new → Forall (λ f, key_ok (Id f)) l →
  1 ≤ i → i + Z.of_nat n ≤ Z.of_nat (length new) → i + Z.of_nat n ≤ Z.of_nat (length l) →
  safe (λ l', Forall (λ f, key_ok (Id f)) l' ∧ length l' = length l) (copy_list n i new l).
Proof.
  intros Hnew. revert i l. induction n as [|n IH]; intros i l Hl Hi H1 H2; simpl copy_list; [done|].
  eapply safe_bind; [apply index_safe; [done|lia]|]. intros f Hf.
  eapply safe_bind; [apply store_safe; [done|done|lia]|]. intros l1 [Hl1 Hlen].
  eapply safe_mono; [apply IH; [done|lia..]|]. intros l2 [? ?]. split; [done|lia].
Qed.

Lemma first_working_bound w l : 0 ≤ first_working w l ≤ Z.of_nat (length l).
Proof. induction l as [|f l IH]; simpl; [lia|]. case_match; lia. Qed.

Lemma successor_head_safe c : client_typed r c → safe (λ f, key_ok (Id f)) (index (successor c) 0).
Proof. intros Hc. apply index_safe; [apply Hc|rewrite (ct_successor _ _ Hc); lia]. Qed.

Lemma repair_safe fuel w a :
  world_typed r w → is_Some (w !! a) →
  safe (same w) (checkSuccessor fuel w a) ∧ safe (same w) (updateSuccessorList fuel w a).
Proof.
  revert w. induction fuel as [|fuel IH]; intros w Hw Ha; [done|]. split.
  - cbn [checkSuccessor]. eapply safe_bind; [by apply node_safe|]. intros c Hc.
    eapply safe_bind; [by apply successor_head_safe|]. intros s Hs. case_match; [by apply same_world_refl|].
    pose proof (first_working_bound w (successor c)) as Hfw. rewrite (ct_successor _ _ Hc) in *.
    eapply safe_bind with (P := same w).
    + case_match eqn:E; [apply set_successor_safe; [done|done|lia|apply Hc]|].
      apply Z.eqb_neq in E.
      eapply safe_bind; [apply index_safe; [apply Hc|rewrite (ct_successor _ _ Hc); lia]|].
      intros f Hf. apply set_successor_safe; [done|done|lia|done].
    + intros w1 [Hw1 Hd]. eapply safe_mono; [apply IH; auto|]. intros w2. by apply same_world_trans.
  - cbn [updateSuccessorList]. eapply safe_bind; [by apply node_safe|]. intros c Hc.
    eapply safe_bind; [by apply successor_head_safe|]. intros s Hs.
    eapply safe_bind; [by apply AskSuccList_safe|]. intros [new|] Hnew; [|by apply IH].
    destruct (Hnew new eq_refl) as [Hn Hl].
    eapply safe_bind; [apply copy_list_safe; [done|apply Hc|lia|lia|rewrite (ct_successor _ _ Hc); lia]|].
    intros l [Hls Hll]. apply same_insert; [done|by apply with_successor_typed].
Qed.

(** ** Lookup *)
Lemma last_between_safe n l id hash :
  (n ≤ length l)%nat → Forall (λ f, key_ok (Id f)) l → safe (λ f, key_ok (Id f)) (last_between n l id hash).
Proof.
  intros Hn Hl. induction n as [|n IH]; [apply no_finger_typed|]. cbn [last_between].
  eapply safe_bind; [apply index_safe; [done|lia]|]. intros f Hf. case_match; [done|]. apply IH. lia.
Qed.

Lemma closest_safe c hash : client_typed r c → safe (λ _, True) (findClosestPrecedingNode c hash).
Proof.
  intros Hc. unfold findClosestPrecedingNode. pose proof (ct_next _ _ Hc).
  eapply safe_bind; [apply last_between_safe; [rewrite (ct_table _ _ Hc); lia|apply Hc]|]. intros f _.
  eapply safe_bind; [apply acquire_safe|]. intros _ _.
  eapply safe_bind; [apply last_between_safe; [|apply Hc]|done].
  rewrite (ct_successor _ _ Hc), (ct_numSucc _ _ Hc). lia.
Qed.

Definition found (w : world) (x : world * finger) : Prop := same w x.1 ∧ key_ok (Id x.2).

Lemma findSuccessor_safe fuel w a hash :
  world_typed r w → is_Some (w !! a) → safe (found w) (findSuccessor fuel w a hash).
Proof.
  revert w a. induction fuel as [|fuel IH]; intros w a Hw Ha; [done|]. cbn [findSuccessor].
  eapply safe_bind; [by apply node_safe|]. intros c Hc.
  eapply safe_bind; [apply acquire_safe|]. intros _ _.
  eapply safe_bind; [by apply successor_head_safe|]. intros s Hs.
  case_match; [split; [by apply same_world_refl|done]|].
  eapply safe_bind; [by apply closest_safe|]. intros ip _.
  destruct (w !! ip) as [d|] eqn:Hd; [case_match; [done|by apply IH; eauto]|].
  eapply safe_bind; [by apply Lock_safe|]. intros w1 [Hw1 H1].
  eapply safe_bind; [apply repair_safe; auto|]. intros w2 [Hw2 H2].
  eapply safe_bind; [apply repair_safe; auto|]. intros w3 [Hw3 H3].
  eapply safe_bind; [apply Unlock_safe; auto|]. intros w4 [Hw4 H4].
  eapply safe_mono; [apply IH; auto 6|]. intros [w5 f] [[Hw5 H5] Hf].
  split; [split; [done|simpl in *; auto 8]|done].
Qed.

(** ** Maintenance *)
Lemma fixFinger_safe fuel w a : world_typed r w → is_Some (w !! a) → safe (same w) (fixFinger fuel w a).
Proof.
  intros Hw Ha. unfold fixFinger. eapply safe_bind; [by apply node_safe|]. intros c Hc.
  set (n := if 159 <? next c + 1 then 0 else next c + 1).
  assert (0 ≤ n ≤ 159) as Hn by (pose proof (ct_next _ _ Hc); unfold n; case_match; lia).
  assert (same w (<[a := with_next c n]> w)) as Hs0.
  { apply same_insert; [done|]. destruct Hc. constructor; try done. simpl. lia. }
  destruct Hs0 as [Hw0 H0]. eapply safe_bind; [apply findSuccessor_safe; auto|].
  intros [w1 f] [[Hw1 H1] Hf]. simpl in *. eapply safe_bind; [apply node_safe; auto|]. intros c1 Hc1.
  eapply safe_bind; [apply store_safe; [apply Hc1|done|rewrite (ct_table _ _ Hc1); lia]|].
  intros l [Hl Hlen]. eapply same_world_trans; [split; [exact Hw1|auto]|]. apply same_insert; [done|].
  destruct Hc1. constructor; try done. simpl. congruence.
Qed.

Lemma check_predecessor_safe w a :
  world_typed r w → is_Some (w !! a) → safe (same w) (check_predecessor w a).
Proof.
  intros Hw Ha. eapply safe_bind; [by apply node_safe|]. intros c Hc.
  case_match; [case_match|]; try by apply same_world_refl. apply same_insert; [done|by apply with_predecessor_typed].
Qed.

Lemma notify_typed c p : client_typed r c → key_ok (Id p) → client_typed r (notify c p).1.
Proof.
  intros Hc Hp. unfold notify. repeat case_match; simpl; try done;
    (apply with_predecessor_typed; [done|by intros ? [= <-]]).
Qed.

Lemma askUpdatePredecessor_typed w c ip :
  world_typed r w → client_typed r c → same w (askUpdatePredecessor w c ip).1.
Proof.
  intros Hw Hc. unfold askUpdatePredecessor. destruct (w !! ip) as [d|] eqn:Hd; [|by apply same_world_refl].
  unfold ReqUpdatePredecessor.
  pose proof (notify_typed d (mkFinger (identifier c) (address c)) (Hw _ _ Hd) (ct_id _ _ Hc)) as Hn.
  destruct (notify d _) as [d' b]. simpl. by apply same_insert.
Qed.

Lemma askGetPredecessor_typed w ip : world_typed r w → key_ok (Id (askGetPredecessor w ip).1).
Proof.
  intros Hw. unfold askGetPredecessor. destruct (w !! ip) as [d|] eqn:Hd; [|apply no_finger_typed].
  unfold ReqGetPredecessor. destruct (predecessor d) as [p|] eqn:Hp; [|apply no_finger_typed].
  by eapply ct_predecessor; [by eapply Hw|].
Qed.

Lemma adopt_safe fuel w a s p :
  world_typed r w → is_Some (w !! a) → key_ok (Id s) → key_ok (Id p) →
  safe (found w) (adopt fuel w a s p).
Proof.
  intros Hw Ha Hs Hp. unfold adopt. eapply safe_bind; [by apply node_safe|]. intros c Hc.
  case_match; [split; [by apply same_world_refl|done]|].
  eapply safe_bind; [by apply Lock_safe|]. intros w1 [Hw1 H1].
  eapply safe_bind; [apply node_safe; auto|]. intros c1 Hc1.
  eapply safe_bind; [by apply successor_head_safe|]. intros s0 Hs0.
  eapply safe_bind with (P := found w1).
  - case_match; [|split; [by apply same_world_refl|done]].
    eapply safe_bind; [apply set_successor_safe; auto; lia|]. intros w2 [Hw2 H2].
    eapply safe_bind; [apply repair_safe; auto|]. intros w3 [Hw3 H3]. split; [split; [done|simpl; auto]|done].
  - intros [w2 f] [[Hw2 H2] Hf]. simpl in *. eapply safe_bind; [apply Unlock_safe; auto|].
    intros w3 [Hw3 H3]. split; [split; [done|simpl; auto 6]|done].
Qed.

(** ** Files *)
(** What a call leaves, should it return. *)
Definition keeps {X} (P : X → Prop) (m : go X) : Prop := ∀ x, m = Ret x → P x.

Lemma safe_keeps {X} (P : X → Prop) (m : go X) : safe P m → keeps P m.
Proof. intros Hs x ->. exact Hs. Qed.
Lemma keeps_bind {X Y} (P : X → Prop) (Q : Y → Prop) (m : go X) (f : X → go Y) :
  keeps P m → (∀ x, P x → keeps Q (f x)) → keeps Q (m ≫= f).
Proof. intros Hm Hf y (x & Hx & Hy)%go_bind_Ret. by eapply Hf; [apply Hm|]. Qed.
Lemma keeps_ret {X} (P : X → Prop) x : P x → keeps P (mret x).
Proof. by intros ? y [= <-]. Qed.

Lemma AskStoreFile_typed creatable w ip k d : world_typed r w → same w (AskStoreFile creatable w ip k d).
Proof.
  intros Hw. unfold AskStoreFile. destruct (w !! ip) as [c|] eqn:Hc; [|by apply same_world_refl].
  apply same_insert; [done|]. unfold ReqStoreFile. case_match; simpl; [|by eapply Hw].
  apply with_directory_typed. by eapply Hw.
Qed.

Lemma foldl_typed {A} (g : world → A → world) l w :
  (∀ w x, world_typed r w → same w (g w x)) → world_typed r w → same w (foldl g w l).
Proof.
  intros Hg. revert w. induction l as [|x l IH]; intros w Hw; simpl; [by apply same_world_refl|].
  eapply same_world_trans; [by apply Hg|]. apply IH. by apply Hg.
Qed.

Lemma lookup_keeps fuel w a name :
  world_typed r w → is_Some (w !! a) → keeps (λ x, same w x.1) (lookup fuel w a name).
Proof.
  unfold lookup. generalize nbFiles 0. intros n i. revert i w. induction n as [|n IH]; intros i w Hw Ha.
  { by apply keeps_ret, same_world_refl. }
  cbn [lookup_loop]. eapply keeps_bind; [by apply safe_keeps, findSuccessor_safe|].
  intros [w1 f] [[Hw1 H1] _]. simpl in *.
  eapply keeps_bind; [apply safe_keeps, node_safe; auto|]. intros c _.
  eapply keeps_bind; [by apply safe_keeps, AskSuccList_safe|]. intros o _.
  eapply (keeps_bind (λ _, True)); [done|]. intros s _.
  eapply keeps_bind; [apply IH; auto|]. intros [w2 l] [Hw2 H2]. apply keeps_ret. split; simpl in *; auto.
Qed.

Lemma StoreFile_keeps creatable fuel w a k d :
  world_typed r w → is_Some (w !! a) → keeps (same w) (StoreFile creatable fuel w a k d).
Proof.
  intros Hw Ha. eapply keeps_bind; [by apply lookup_keeps|]. intros [w1 l] [Hw1 H1]. apply keeps_ret. simpl in *.
  eapply same_world_trans; [split; [exact Hw1|exact H1]|]. apply foldl_typed; [|done].
  intros. by apply AskStoreFile_typed.
Qed.

Lemma move_file_keeps creatable fuel w a name :
  world_typed r w → is_Some (w !! a) → keeps (same w) (move_file creatable fuel w a name).
Proof.
  intros Hw Ha. eapply keeps_bind; [by apply lookup_keeps|]. intros [w1 dest] [Hw1 H1]. simpl in *.
  eapply keeps_bind; [apply safe_keeps, node_safe; auto|]. intros c Hc.
  destruct (directory c !! name) as [data|]; [|done]. set (w2 := foldl _ _ _).
  assert (same w w2) as [Hw2 H2].
  { eapply same_world_trans; [split; [exact Hw1|exact H1]|]. apply foldl_typed; [|done]. intros w3 f Hw3. unfold offer.
    case_match; [by apply same_world_refl|by apply AskStoreFile_typed]. }
  case_match; [by apply keeps_ret|]. eapply keeps_bind; [apply safe_keeps, node_safe; auto|]. intros c2 Hc2.
  case_match; [|done]. apply keeps_ret. eapply same_world_trans; [split; [exact Hw2|exact H2]|].
  apply same_insert; [done|by apply with_directory_typed].
Qed.

Lemma move_files_keeps creatable fuel names w a :
  world_typed r w → is_Some (w !! a) → keeps (same w) (move_files creatable fuel names w a).
Proof.
  revert w. induction names as [|name names IH]; intros w Hw Ha; cbn [move_files]; [by apply keeps_ret, same_world_refl|].
  eapply keeps_bind; [by apply move_file_keeps|]. intros w1 [Hw1 H1]. intros w2 Hw2.
  eapply same_world_trans; [split; [exact Hw1|exact H1]|]. eapply IH; [done|auto|done].
Qed.

Lemma stabilize_ring_safe fuel w a :
  world_typed r w → is_Some (w !! a) → safe (λ x, same w x.1) (stabilize_ring fuel w a).
Proof.
  intros Hw Ha. unfold stabilize_ring, stabilize_locked.
  eapply safe_bind; [by apply Lock_safe|]. intros w1 [Hw1 H1].
  eapply safe_bind with (P := same w1).
  { eapply safe_bind; [apply repair_safe; auto|]. intros w2 [Hw2 H2].
    eapply safe_mono; [apply repair_safe; auto|]. intros w3. by apply same_world_trans. }
  intros w2 [Hw2 H2]. eapply safe_bind; [apply node_safe; auto|]. intros c2 Hc2.
  eapply safe_bind; [by apply successor_head_safe|]. intros s Hs.
  eapply safe_bind; [apply Unlock_safe; auto|]. intros w3 [Hw3 H3].
  assert (same w w3) as Hs3 by (split; auto). destruct (askGetPredecessor w3 (IpAddress s)) as [p ok] eqn:Ep.
  case_match.
  - eapply safe_bind; [apply node_safe; auto|]. intros c3 Hc3.
    eapply same_world_trans; [exact Hs3|]. by apply askUpdatePredecessor_typed.
  - pose proof (askGetPredecessor_typed w3 (IpAddress s) Hw3) as Hp. rewrite Ep in Hp.
    eapply safe_bind; [apply adopt_safe; auto|]. intros [w4 s4] [Hs4 _]. simpl in *.
    eapply safe_bind; [apply node_safe; [apply Hs4|by apply Hs4, Hs3]|]. intros c4 Hc4.
    eapply same_world_trans; [exact Hs3|]. eapply same_world_trans; [exact Hs4|]. apply askUpdatePredecessor_typed; [apply Hs4|done].
Qed.

(** ** Joining *)
Lemma unhex_bound c x : unhex c = Some x → 0 ≤ x < 16.
Proof. unfold unhex, in_range. repeat case_match; intros [= <-]; lia. Qed.

Lemma decode_hex_ok l b : decode_hex l = Some b → Forall byte_ok b.
Proof.
  revert l b. fix IH 1. intros [|x [|y l]] b; simpl; intros E; [by injection E as <-|done|].
  destruct (unhex x) as [u|] eqn:Hu; [|done]. destruct (unhex y) as [v|] eqn:Hv; [|done]. simpl in E.
  destruct (decode_hex l) as [t|] eqn:Ht; [|done]. injection E as <-.
  apply unhex_bound in Hu, Hv. constructor; [unfold byte_ok; lia|by eapply IH].
Qed.

Lemma parse_id_ok l : Forall byte_ok l → key_ok (parse_id l).
Proof.
  intros Hl. unfold parse_id. split; [rewrite length_take, length_app, length_replicate; lia|].
  apply Forall_take, Forall_app. split; [|done]. by apply Forall_replicate.
Qed.

Lemma create_safe IP port ID : safe (client_typed r) (create IP (Z.of_nat r) port ID).
Proof.
  unfold create. apply safe_bind with (P := key_ok).
  - case_match; [|apply Sum_ok]. destruct (DecodeString ID) as [l|] eqn:Hl; [|done].
    by eapply parse_id_ok, decode_hex_ok.
  - intros id Hid. destruct (Z.ltb_spec (Z.of_nat r) 0); [lia|]. rewrite Nat2Z.id.
    assert (Forall (λ f, key_ok (Id f)) (replicate r no_finger)) as Hr
      by apply Forall_replicate, no_finger_typed.
    eapply safe_bind; [apply store_safe; [exact Hr|exact Hid|rewrite length_replicate; lia]|].
    intros l [Hl Hlen]. rewrite length_replicate in Hlen.
    constructor; cbn -[replicate]; try done; by apply Forall_replicate, no_finger_typed.
Qed.

Lemma join_safe fuel w IP port ID ip pc :
  world_typed r w → safe (world_typed r) (join fuel w IP (Z.of_nat r) port ID ip pc).
Proof.
  intros Hw. unfold join. eapply safe_bind; [apply create_safe|]. intros c Hc. cbv zeta.
  set (w0 := <[address c := c]> w). assert (world_typed r w0) as Hw0 by by apply map_Forall_insert_2.
  eapply safe_bind with (P := λ x, same w0 x.1 ∧ ∀ f, x.2 = Some f → key_ok (Id f)).
  { unfold askFindSuccessor, ReqFindSuccessor. destruct (w0 !! _) as [d|] eqn:Hd; [|by split; [apply same_world_refl|]].
    case_match; [done|]. eapply safe_bind; [apply findSuccessor_safe; eauto|].
    intros [w1 f] [Hs Hf]. split; [done|]. by intros ? [= <-]. }
  intros [w1 [f|]] [[Hw1 H1] Hf]; simpl in *; [|done].
  assert (is_Some (w1 !! address c)) as Ha by (apply H1; unfold w0; rewrite lookup_insert_eq; eauto).
  eapply safe_bind; [apply set_successor_safe; auto; lia|]. intros w2 [Hw2 H2].
  eapply safe_bind; [apply node_safe; auto|]. intros c2 Hc2.
  pose proof (askUpdatePredecessor_typed w2 c2 (IpAddress f) Hw2 Hc2) as [Hw3 _].
  destruct (askUpdatePredecessor _ _ _) as [w3 ok]. by case_match.
Qed.
End typed.

(** [lookup] indexes the list that the owner answers with, and a failed call is
    answered by the nil slice. *)
Lemma lookup_dead_owner fuel w a name w1 f :
  findSuccessor fuel w a (keyToLook 0 (Sum (bytes name))) = Ret (w1, f) →
  is_Some (w1 !! a) → w1 !! IpAddress f = None → lookup fuel w a name = Panic.
Proof.
  intros Hf [c Hc] Hd. unfold lookup, nbFiles. cbn [lookup_loop].
  change (0 * 100) with 0. cbv zeta. rewrite Hf. simpl.
  unfold node, AskSuccList. by rewrite Hc, Hd.
Qed.

(** C18 For every fuel and every world of well-formed nodes (keys of twenty bytes, 160 fingers, successor lists
    of one length [r] > 0, [next] between -1 and 159), which need not be a stable ring:
    any node may point at nodes that have left.  [fixFinger], [check_predecessor],
    [checkSuccessor], [updateSuccessorList], [findSuccessor], [join], and [stabilize]
    while the node's directory is empty, do not panic - no index is out of range and no
    nil pointer is followed - and leave well-formed nodes; [StoreFile] and [stabilize]
    leave well-formed nodes whenever they return. *)
Theorem chord_typed (r fuel : nat) (w : world) (a : string) :
  (0 < r)%nat → world_typed r w → is_Some (w !! a) →
  safe (same r w) (fixFinger fuel w a) ∧
  safe (same r w) (check_predecessor w a) ∧
  safe (same r w) (checkSuccessor fuel w a) ∧
  safe (same r w) (updateSuccessorList fuel w a) ∧
  (∀ hash, safe (found r w) (findSuccessor fuel w a hash)) ∧
  (∀ IP port ID ip pc, safe (world_typed r) (join fuel w IP (Z.of_nat r) port ID ip pc)) ∧
  (∀ creatable, safe (same r w) (stabilize creatable (λ _, []) fuel w a)) ∧
  (∀ creatable ReadDir, keeps (same r w) (stabilize creatable ReadDir fuel w a)) ∧
  (∀ creatable k d, keeps (same r w) (StoreFile creatable fuel w a k d)).
Proof.
  intros Hr Hw Ha. split_and!.
  - by apply fixFinger_safe.
  - by apply check_predecessor_safe.
  - by apply repair_safe.
  - by apply repair_safe.
  - intros hash. by apply findSuccessor_safe.
  - intros. by apply join_safe.
  - intros creatable. unfold stabilize.
    eapply safe_bind; [by apply stabilize_ring_safe|]. intros [w1 ok] Hs. destruct ok; [|done].
    eapply safe_bind; [apply node_safe; [apply Hs|by apply Hs]|]. by intros c Hc.
  - intros creatable ReadDir. unfold stabilize.
    eapply keeps_bind; [by apply safe_keeps, stabilize_ring_safe|]. intros [w1 ok] Hs.
    destruct ok; [|by apply keeps_ret].
    eapply keeps_bind; [apply safe_keeps, node_safe; [apply Hs|by apply Hs]|]. intros c Hc w2 Hw2.
    eapply same_world_trans; [exact Hs|]. eapply move_files_keeps; [done|apply Hs|by apply Hs|done].
  - intros. by apply StoreFile_keeps.
Qed.
