(* ===== verification/ChordFiles.v ===== *)
(** * Chord: storing and finding files on a stable ring *)
From S2P Require Import Prelude GoStrings ChordKeys Sha1 Chord ChordProof.

(** A node without its files. *)
Definition erase (c : ChordClient) : ChordClient := with_directory c ∅.
Definition same_nodes (w w' : world) : Prop := ∀ a, erase <$> w' !! a = erase <$> w !! a.

Lemma same_nodes_refl w : same_nodes w w.
Proof. by intros a. Qed.
Lemma same_nodes_trans w1 w2 w3 : same_nodes w1 w2 → same_nodes w2 w3 → same_nodes w1 w3.
Proof. intros H1 H2 a. by rewrite (H2 a). Qed.

Lemma same_nodes_sym w w' : same_nodes w w' → same_nodes w' w.
Proof. intros H a. by rewrite (H a). Qed.

Lemma erase_eq c c' :
  erase c = erase c' →
  identifier c = identifier c' ∧ fingerTable c = fingerTable c' ∧ successorLock c = successorLock c' ∧
  successor c = successor c' ∧ predecessor c = predecessor c' ∧ address c = address c' ∧
  numSucc c = numSucc c' ∧ next c = next c'.
Proof. destruct c, c'. unfold erase, with_directory, address. simpl. intros [=]. by subst. Qed.

Lemma same_nodes_lookup w w' a c' :
  same_nodes w w' → w' !! a = Some c' → ∃ c, w !! a = Some c ∧ erase c' = erase c.
Proof.
  intros H Hc. specialize (H a). rewrite Hc in H. simpl in H. symmetry in H.
  apply fmap_Some in H as (c & ? & ?). by exists c.
Qed.

Lemma resolves_same w w' f : same_nodes w w' → resolves w f → resolves w' f.
Proof.
  intros H (d & Hd & Hid). destruct (same_nodes_lookup w' w _ _ (same_nodes_sym _ _ H) Hd) as (d' & Hd' & E).
  apply erase_eq in E as [E _]. exists d'. split; [done|congruence].
Qed.

Lemma linked_same w w' : same_nodes w w' → linked w → linked w'.
Proof.
  intros H Hw. constructor.
  - intros a c' Hc'. destruct (same_nodes_lookup _ _ _ _ H Hc') as (c & Hc & E).
    apply erase_eq in E as (E1 & E2 & E3 & E4 & E5 & E6 & E7 & E8).
    destruct (lk_node _ Hw _ _ Hc). constructor; rewrite ?E1, ?E2, ?E3, ?E4, ?E6, ?E7, ?E8; try done.
    intros f Hf Hip. eapply resolves_same; [done|auto].
  - intros a a' c c' Hc Hc' E. destruct (same_nodes_lookup _ _ _ _ H Hc) as (d & Hd & Ed).
    destruct (same_nodes_lookup _ _ _ _ H Hc') as (d' & Hd' & Ed').
    apply erase_eq in Ed as [Ed _]. apply erase_eq in Ed' as [Ed' _].
    eapply lk_id; [done|exact Hd|exact Hd'|congruence].
Qed.

Lemma ring_ok_same w w' : same_nodes w w' → ring_ok w → ring_ok w'.
Proof.
  intros H Hw. constructor; [by apply (linked_same w), Hw|]. intros a c' s l Hc' Hs a2 d' Hd' Hne.
  destruct (same_nodes_lookup _ _ _ _ H Hc') as (c & Hc & E).
  apply erase_eq in E as (E1 & _ & _ & E4 & _). rewrite E4 in Hs.
  destruct (same_nodes_lookup _ _ _ _ H Hd') as (d & Hd & Ed). apply erase_eq in Ed as [Ed _].
  rewrite E1 in *. rewrite Ed in *. by apply (rg_next _ Hw a c s l Hc Hs a2 d).
Qed.

Lemma owner_same w w' h s : same_nodes w w' → owner w h s → owner w' h s.
Proof.
  intros H [Hr Ho]. split; [by eapply resolves_same|]. intros a d' Hd'.
  destruct (same_nodes_lookup _ _ _ _ H Hd') as (d & Hd & Ed). apply erase_eq in Ed as [-> _]. eauto.
Qed.

Lemma dist_inj h x y : key_ok h → key_ok x → key_ok y → dist h x = dist h y → x = y.
Proof.
  intros Hh Hx Hy. rewrite same_iff_Z by done. pose proof (key_Z_bound _ Hh).
  pose proof (key_Z_bound _ Hx). pose proof (key_Z_bound _ Hy).
  destruct (dist_cases h x Hh Hx), (dist_cases h y Hh Hy); lia.
Qed.

(** The owner of a key is one node. *)
Lemma owner_unique w h o o' : linked w → key_ok h → owner w h o → owner w h o' → o = o'.
Proof.
  intros Hw Hh [Hr Ho] [Hr' Ho'].
  pose proof (resolves_key _ _ Hw Hr) as Hk. pose proof (resolves_key _ _ Hw Hr') as Hk'.
  destruct Hr as (d & Hd & Hid), Hr' as (d' & Hd' & Hid').
  pose proof (Ho _ _ Hd') as L1. pose proof (Ho' _ _ Hd) as L2. rewrite Hid in L2. rewrite Hid' in L1.
  assert (Id o = Id o') as E by (eapply dist_inj; [exact Hh|done|done|lia]).
  assert (IpAddress o = IpAddress o') as Ea by (eapply lk_id; [done|exact Hd|exact Hd'|congruence]).
  destruct o, o'. simpl in *. congruence.
Qed.

Lemma same_nodes_size w w' : same_nodes w w' → size w' = size w.
Proof.
  intros Hsame. rewrite <-!(size_dom (D := gset string)). f_equal. apply set_eq. intros ip.
  rewrite !elem_of_dom. pose proof (Hsame ip) as Hip.
  destruct (w' !! ip), (w !! ip); try done; by rewrite !is_Some_alt.
Qed.

(** ** lookup *)
Definition replica (w : world) (h : key) (os : finger * finger) : Prop :=
  owner w h os.1 ∧ ∃ d l, w !! IpAddress os.1 = Some d ∧ successor d = os.2 :: l.

Lemma lookup_loop_run n i fuel w a c name :
  ring_ok w → w !! a = Some c → (size w < fuel)%nat → 0 ≤ i →
  ∃ rs, lookup_loop n i fuel w a name = Ret (w, rs ≫= λ os, [os.1; os.2]) ∧ length rs = n ∧
    ∀ j os, rs !! j = Some os →
      replica w (keyToLook ((i + Z.of_nat j) * 100) (Sum (bytes name))) os.
Proof.
  intros Hw Hc Hf. revert i. induction n as [|n IH]; intros i Hi.
  { exists []. split_and!; [done..|]. intros j os. by rewrite lookup_nil. }
  cbn [lookup_loop]. set (h := keyToLook (i * 100) (Sum (bytes name))).
  assert (key_ok h) as Hh by apply keyToLook_key, Sum_ok.
  destruct (findSuccessor_run fuel w a c h Hw Hc Hh) as (o & -> & Ho).
  { pose proof (between_set_size w (identifier c) h). lia. }
  go_step. unfold node. rewrite Hc. cbn [deref mbind go_bind].
  pose proof (proj1 Ho) as (d & Hd & Hid).
  pose proof (nd_lock _ _ _ (lk_node _ Hw _ _ Hd)) as Hlock.
  destruct (nd_succ _ _ _ (lk_node _ Hw _ _ Hd)) as (s & l & Hs & _).
  rewrite (AskSuccList_run w c _ d Hd (or_intror Hlock)). cbn [mbind go_bind default].
  rewrite Hs. change (index (s :: l) 0) with (Ret s). go_step.
  destruct (IH (i + 1)) as (rs & -> & Hl & Hrs); [lia|]. cbn.
  exists ((o, s) :: rs). split_and!; [done|cbn; lia|]. intros [|j] os Hj.
  - simpl in Hj. injection Hj as <-. rewrite Z.add_0_r. split; [done|]. by exists d, l.
  - simpl in Hj. replace (i + Z.of_nat (S j)) with (i + 1 + Z.of_nat j) by lia. auto.
Qed.

(** ** Storing *)
Section storing.
Context (creatable : string → bool).

Lemma AskStoreFile_same w ip k x : same_nodes w (AskStoreFile creatable w ip k x).
Proof.
  intros a. unfold AskStoreFile. destruct (w !! ip) as [d|] eqn:E; [|done].
  destruct (decide (a = ip)) as [->|Hne]; [|by rewrite lookup_insert_ne].
  rewrite lookup_insert_eq, E. unfold ReqStoreFile. by destruct (creatable k).
Qed.

Definition has_file (w : world) (ip k x : string) : Prop :=
  ∃ d, w !! ip = Some d ∧ directory d !! k = Some x.

Lemma AskStoreFile_stores w ip k x :
  creatable k = true → is_Some (w !! ip) → has_file (AskStoreFile creatable w ip k x) ip k x.
Proof.
  intros Hk [d Hd]. unfold AskStoreFile, ReqStoreFile. rewrite Hd, Hk. eexists.
  rewrite lookup_insert_eq. split; [done|]. simpl. by rewrite lookup_insert_eq.
Qed.

Lemma AskStoreFile_keeps w ip ip' k x :
  creatable k = true → has_file w ip' k x → has_file (AskStoreFile creatable w ip k x) ip' k x.
Proof.
  intros Hk (d & Hd & Hx). destruct (decide (ip = ip')) as [->|Hne].
  { apply AskStoreFile_stores; [done|by eexists]. }
  exists d. split; [|done]. unfold AskStoreFile. case_match; [|done]. by rewrite lookup_insert_ne.
Qed.

Lemma store_all_spec k x dest w :
  creatable k = true →
  let w' := foldl (λ w f, AskStoreFile creatable w (IpAddress f) k x) w dest in
  same_nodes w w' ∧ (∀ ip, has_file w ip k x → has_file w' ip k x) ∧
  (∀ f, f ∈ dest → is_Some (w !! IpAddress f) → has_file w' (IpAddress f) k x).
Proof.
  intros Hk. revert w. induction dest as [|f dest IH]; intros w; simpl.
  { split_and!; [apply same_nodes_refl|done|]. intros f Hf. by apply elem_of_nil in Hf. }
  set (w1 := AskStoreFile creatable w (IpAddress f) k x).
  pose proof (AskStoreFile_same w (IpAddress f) k x) as H1. fold w1 in H1.
  destruct (IH w1) as (HA & HB & HC). split_and!.
  - by eapply same_nodes_trans.
  - intros ip Hip. by apply HB, AskStoreFile_keeps.
  - intros g [->|Hg]%elem_of_cons [d Hd]; [by apply HB, AskStoreFile_stores|].
    apply HC; [done|]. destruct (same_nodes_lookup w1 w _ _ (same_nodes_sym _ _ H1) Hd) as (d' & ? & _).
    by exists d'.
Qed.

Lemma StoreFile_found fuel w a b ca cb k x :
  ring_ok w → w !! a = Some ca → w !! b = Some cb → (size w < fuel)%nat → creatable k = true →
  ∃ w' rs, StoreFile creatable fuel w a k x = Ret w' ∧ same_nodes w w' ∧ length rs = 3%nat ∧
    lookup (S fuel) w' b k = Ret (w', rs ≫= λ os, [os.1; os.2]) ∧
    ∀ j os, rs !! j = Some os →
      replica w' (keyToLook (Z.of_nat j * 100) (Sum (bytes k))) os ∧
      AskGetFile w' (IpAddress os.1) k = (x, true).
Proof.
  intros Hw Ha Hb Hf Hk.
  destruct (lookup_loop_run nbFiles 0 fuel w a ca k Hw Ha Hf) as (rs & Hrun & Hl & Hrs); [lia|].
  set (dest := rs ≫= λ os, [os.1; os.2]) in *.
  destruct (store_all_spec k x dest w Hk) as (Hsame & _ & Hall).
  set (w' := foldl _ w dest) in *. pose proof (ring_ok_same _ _ Hsame Hw) as Hw'.
  destruct (same_nodes_lookup w' w _ _ (same_nodes_sym _ _ Hsame) Hb) as (cb' & Hb' & _).
  pose proof (same_nodes_size _ _ Hsame) as Hsize.
  destruct (lookup_loop_run nbFiles 0 (S fuel) w' b cb' k Hw' Hb') as (rs' & Hrun' & Hl' & Hrs'); [lia..|].
  exists w', rs'. split_and!; [|done..|].
  - unfold StoreFile, lookup. rewrite Hrun. done.
  - intros j os Hj. pose proof (Hrs' j os Hj) as Hrep. rewrite Z.add_0_l in Hrep. split; [done|].
    destruct Hrep as [Ho' _].
    destruct (lookup_lt_is_Some_2 rs j) as [os0 Hj0].
    { apply lookup_lt_Some in Hj. unfold nbFiles in *. lia. }
    pose proof (Hrs j os0 Hj0) as [Ho0 _]. rewrite Z.add_0_l in Ho0.
    assert (os.1 = os0.1) as ->.
    { eapply (owner_unique w'); [apply Hw'| |done|by eapply owner_same]. apply keyToLook_key, Sum_ok. }
    destruct (Hall os0.1) as (d & Hd & Hx).
    + unfold dest. apply list_elem_of_bind. exists os0. split; [left|by eapply list_elem_of_lookup_2].
    + destruct (proj1 Ho0) as (d & ? & _). by exists d.
    + unfold AskGetFile. rewrite Hd. unfold ReqGetFile. by rewrite Hx.
Qed.

(** C16 Round trip: on a stable ring, after any node has stored a file, the
    lookup that any node makes for its name answers the same six places, and
    the first of them, the owner of the first point, has the file with the
    stored contents; so have the owners of the two other points. *)
Theorem store_lookup fuel w a b ca cb k x :
  ring_ok w → w !! a = Some ca → w !! b = Some cb → (size w < fuel)%nat → creatable k = true →
  ∃ w' rs, StoreFile creatable fuel w a k x = Ret w' ∧ ring_ok w' ∧ length rs = 3%nat ∧
    lookup (S fuel) w' b k = Ret (w', rs ≫= λ os, [os.1; os.2]) ∧
    ∀ j os, rs !! j = Some os →
      owner w' (keyToLook (Z.of_nat j * 100) (Sum (bytes k))) os.1 ∧
      AskGetFile w' (IpAddress os.1) k = (x, true).
Proof.
  intros Hw Ha Hb Hf Hk.
  destruct (StoreFile_found fuel w a b ca cb k x Hw Ha Hb Hf Hk) as (w' & rs & ? & Hs & ? & ? & Hrs).
  pose proof (ring_ok_same _ _ Hs Hw).
  exists w', rs. split_and!; [done..|]. intros j os Hj. destruct (Hrs j os Hj) as [[? _] ?]. done.
Qed.
End storing.
