(* ===== verification/ChordLinked.v ===== *)
(** * Chord: linked worlds

    What every operation does when the entries of all nodes name nodes that are
    up, whether or not the successors are the right ones: lookups answer, files
    are moved, and [stabilize] takes the successor, or the successor's
    predecessor, for the node's successor and tells it. *)
From S2P Require Import Prelude GoStrings ChordKeys Sha1 Chord ChordProof ChordFiles.

(** ** Lookups and files *)
Lemma resolves_lookup w f : resolves w f → is_Some (w !! IpAddress f).
Proof. intros (d & Hd & _). by exists d. Qed.

Lemma lookup_linked fuel w a c name :
  linked w → w !! a = Some c → (size w < fuel)%nat → ∃ l, lookup fuel w a name = Ret (w, l).
Proof.
  intros Hw Hc Hf. unfold lookup. generalize nbFiles 0. intros n.
  induction n as [|n IH]; intros i; [by exists []|]. cbn [lookup_loop]. cbv zeta.
  destruct (findSuccessor_linked fuel w a c (keyToLook (i * 100) (Sum (bytes name))))
    as (o & -> & (d & Hd & _) & _); [done|done|apply keyToLook_key, Sum_ok| |].
  { pose proof (between_set_size w (identifier c) (keyToLook (i * 100) (Sum (bytes name)))). lia. }
  go_step. unfold node. rewrite Hc. cbn [deref mbind go_bind].
  destruct (nd_succ _ _ _ (lk_node _ Hw _ _ Hd)) as (s & l & Hs & _).
  rewrite (AskSuccList_run w c _ d Hd (or_intror (nd_lock _ _ _ (lk_node _ Hw _ _ Hd)))).
  cbn [mbind go_bind default]. rewrite Hs. change (index (s :: l) 0) with (Ret s). go_step.
  destruct (IH (i + 1)) as [rs ->]. by eexists.
Qed.

(** The node at [a] has a file of name [k]. *)
Definition holds (w : world) (a k : string) : Prop :=
  ∃ c, w !! a = Some c ∧ is_Some (directory c !! k).

(** What [ReadDir] answers: every name of the directory's files once. *)
Definition lists_files (ReadDir : gmap string string → list string) : Prop :=
  ∀ d, NoDup (ReadDir d) ∧ ∀ k, k ∈ ReadDir d ↔ is_Some (d !! k).

Section files.
Context (creatable : string → bool).

Lemma AskStoreFile_holds w ip a k k' x : holds w a k → holds (AskStoreFile creatable w ip k' x) a k.
Proof.
  intros (c & Hc & Hk). unfold AskStoreFile. destruct (w !! ip) as [d|] eqn:Hd; [|by exists c].
  destruct (decide (ip = a)) as [->|]; [|by exists c; rewrite lookup_insert_ne].
  simplify_eq. eexists. split; [apply lookup_insert_eq|]. unfold ReqStoreFile. case_match; [|done].
  simpl. rewrite lookup_insert_is_Some'. by right.
Qed.

Lemma offers_linked name x dest w :
  let w' := foldl (offer creatable name x) w dest in
  same_nodes w w' ∧ ∀ a k, holds w a k → holds w' a k.
Proof.
  revert w. induction dest as [|f dest IH]; intros w; [by split; [apply same_nodes_refl|]|]. cbn [foldl].
  assert (same_nodes w (offer creatable name x w f) ∧
    ∀ a k, holds w a k → holds (offer creatable name x w f) a k) as [H1 H2].
  { unfold offer. case_match; [by split; [apply same_nodes_refl|]|].
    split; [apply AskStoreFile_same|intros; by apply AskStoreFile_holds]. }
  destruct (IH (offer creatable name x w f)) as [H3 H4]. split; [by eapply same_nodes_trans|auto].
Qed.

Lemma move_file_linked fuel w a name :
  linked w → holds w a name → (size w < fuel)%nat →
  ∃ w', move_file creatable fuel w a name = Ret w' ∧ same_nodes w w' ∧
    ∀ k, k ≠ name → holds w a k → holds w' a k.
Proof.
  intros Hw Hh Hf. pose proof Hh as (c & Hc & x & Hx). unfold move_file.
  destruct (lookup_linked fuel w a c name Hw Hc Hf) as [dest ->]. go_step.
  unfold node. rewrite Hc. cbn [deref mbind go_bind]. rewrite Hx.
  destruct (offers_linked name x dest w) as [Hs Hk]. cbv zeta in *. set (w1 := foldl _ w dest) in *.
  case_match; [by exists w1; auto|].
  destruct (Hk a name Hh) as (c1 & Hc1 & Hn1). rewrite Hc1. cbn [deref mbind go_bind].
  rewrite bool_decide_true by done. eexists. split; [done|]. split.
  - eapply same_nodes_trans; [exact Hs|]. intros b. destruct (decide (a = b)) as [->|].
    + by rewrite lookup_insert_eq, Hc1.
    + by rewrite lookup_insert_ne.
  - intros k Hne (c2 & Hc2 & Hin)%Hk. simplify_eq. eexists. split; [apply lookup_insert_eq|].
    simpl. by rewrite lookup_delete_ne.
Qed.

Lemma move_files_linked fuel names w a :
  linked w → NoDup names → Forall (holds w a) names → (size w < fuel)%nat →
  ∃ w', move_files creatable fuel names w a = Ret w' ∧ same_nodes w w'.
Proof.
  revert w. induction names as [|name names IH]; intros w Hw Hnd Hh Hf.
  { exists w. split; [done|apply same_nodes_refl]. }
  apply NoDup_cons in Hnd as [Hnin Hnd]. apply Forall_cons in Hh as [Hname Hh].
  destruct (move_file_linked fuel w a name Hw Hname Hf) as (w1 & Hrun & Hs & Hk). cbn [move_files].
  rewrite Hrun. go_step. destruct (IH w1) as (w2 & -> & Hs2).
  - by eapply linked_same.
  - done.
  - rewrite Forall_forall in Hh |- *. intros k Hin. apply Hk; [congruence|auto].
  - by rewrite (same_nodes_size _ _ Hs).
  - exists w2. split; [done|]. by eapply same_nodes_trans.
Qed.

Lemma StoreFile_linked fuel w a c k x :
  linked w → w !! a = Some c → (size w < fuel)%nat →
  ∃ w', StoreFile creatable fuel w a k x = Ret w' ∧ same_nodes w w'.
Proof.
  intros Hw Hc Hf. unfold StoreFile. destruct (lookup_linked fuel w a c k Hw Hc Hf) as [l ->]. go_step.
  eexists. split; [done|]. cbn [fst snd]. clear. revert w.
  induction l as [|f l IH]; intros w; [apply same_nodes_refl|]. cbn [foldl].
  eapply same_nodes_trans; [apply AskStoreFile_same|apply IH].
Qed.
End files.

(** ** Stabilizing *)
(** All nodes were started with the same number of successors, and the known
    predecessors are up. *)
Record regular (r : nat) (w : world) : Prop := {
  rl_linked :> linked w;
  rl_length a c : w !! a = Some c → length (successor c) = r;
  rl_predecessor a c p : w !! a = Some c → predecessor c = Some p → resolves w p;
}.

(** The successor that [stabilize] decides for: the predecessor of the old one,
    when it is nearer. *)
Definition target (w : world) (c : ChordClient) (s : finger) : finger :=
  match w !! IpAddress s with
  | Some d =>
      match predecessor d with
      | Some p => if keyInBetweenExclusive (identifier c) (Id s) (Id p) then p else s
      | None => s
      end
  | None => s
  end.

(** [l] is a successor list of [t] and entries of other nodes. *)
Definition pulled (w : world) (t : finger) (l : list finger) : Prop :=
  ∃ l', l = t :: l' ∧ ∀ f, f ∈ l' → ∃ b d, w !! b = Some d ∧ f ∈ successor d.

Definition me (c : ChordClient) : finger := mkFinger (identifier c) (address c).

Lemma with_lock_false c : successorLock c = false → with_lock c false = c.
Proof. by destruct c; simpl; intros ->. Qed.
Lemma with_successor_id c s l : successor c = s :: l → with_successor c (s :: l) = c.
Proof. by destruct c; simpl; intros ->. Qed.

Lemma with_successor_twice c l l' : with_successor (with_successor c l) l' = with_successor c l'.
Proof. done. Qed.

Lemma node_run (w : world) a c : w !! a = Some c → node w a = Ret c.
Proof. unfold node. by intros ->. Qed.
Lemma Lock_run (w : world) a c :
  w !! a = Some c → successorLock c = false → Lock w a = Ret (<[a := with_lock c true]> w).
Proof. intros Hc Hl. unfold Lock. rewrite (node_run _ _ _ Hc). go_step. by rewrite Hl. Qed.
Lemma Unlock_run (w : world) a c :
  w !! a = Some (with_lock c true) → successorLock c = false → Unlock w a = Ret (<[a := c]> w).
Proof.
  intros Hc Hl. unfold Unlock. rewrite (node_run _ _ _ Hc). go_step. by rewrite <-(with_lock_false c Hl) at 2.
Qed.
Lemma set_head_run (w : world) a c s l f :
  w !! a = Some c → successor c = s :: l →
  set_successor w a 0 f = Ret (<[a := with_successor c (f :: l)]> w).
Proof.
  intros Hc Hs. unfold set_successor. rewrite (node_run _ _ _ Hc). go_step.
  rewrite Hs, store_lt by (cbn [length]; lia). done.
Qed.

(** Asking the successor for its list, with the own lock held. *)
Lemma update_locked fuel (w : world) a c s l d :
  successor c = s :: l → w !! IpAddress s = Some d → length (successor d) = length (successor c) →
  w !! a = Some c → successorLock c = false → identifier d = identifier c ∨ successorLock d = false →
  ∀ w' : world, (∀ b, b ≠ a → w' !! b = w !! b) → w' !! a = Some (with_lock c true) →
  updateSuccessorList (S fuel) w' a =
    Ret (<[a := with_lock (with_successor c (s :: take (length l) (successor d))) true]> w').
Proof.
  intros Hs Hd Hlen Hc Hlock Hl w' Hw' Ha.
  assert (∃ d', w' !! IpAddress s = Some d' ∧ successor d' = successor d ∧
    (identifier d' = identifier c ∨ successorLock d' = false)) as (d' & Hd' & Esd & Hl').
  { destruct (decide (IpAddress s = a)) as [E|E]; [|exists d; by rewrite Hw'].
    exists (with_lock c true). rewrite E in *. simplify_eq. split_and!; [done|done|by left]. }
  rewrite (updateSuccessorList_run fuel w' a (with_lock c true) s l d' Ha Hs Hd' Hl').
  - rewrite Esd, Hlen, decide_True by done. do 2 f_equal.
    change (successor (with_lock c true)) with (successor c). rewrite Hs, drop_all, app_nil_r.
    cbn [length]. by rewrite Nat.sub_succ, Nat.sub_0_r.
  - rewrite Esd. intros E. rewrite E, Hs in Hlen. done.
Qed.

Lemma askUpdatePredecessor_self w c l ip :
  askUpdatePredecessor w (with_successor c l) ip = askUpdatePredecessor w c ip.
Proof. done. Qed.

Lemma head_resolves w a c s l :
  linked w → w !! a = Some c → successor c = s :: l → resolves w s.
Proof.
  intros Hw Hc Hs. pose proof (lk_node _ Hw _ _ Hc) as Hn.
  destruct (nd_succ _ _ _ Hn) as (s' & l' & Hs' & Hip). rewrite Hs in Hs'. simplify_eq.
  apply (nd_entries _ _ _ Hn); [|done]. rewrite Hs. apply elem_of_app. right. left.
Qed.

(** One exchange with the successor [s]: its list is taken over. *)
Lemma pulled_list r w a c s d :
  regular r w → w !! a = Some c → w !! IpAddress s = Some d →
  pulled w s (s :: take (r - 1) (successor d)) ∧ length (s :: take (r - 1) (successor d)) = r.
Proof.
  intros Hw Hc Hd. split.
  - eexists. split; [done|]. intros f (i & Hf%list_elem_of_lookup_2 & _)%elem_of_take. by exists (IpAddress s), d.
  - cbn [length]. rewrite length_take, (rl_length _ _ Hw _ _ Hd).
    destruct (nd_succ _ _ _ (lk_node _ Hw _ _ Hc)) as (s' & l' & Hs' & _).
    pose proof (rl_length _ _ Hw _ _ Hc) as Hr. rewrite Hs' in Hr. cbn [length] in Hr. lia.
Qed.

Lemma adopt_run r fuel w a c s d p l1 :
  regular r w → w !! a = Some c → w !! IpAddress s = Some d → predecessor d = Some p →
  resolves w s → length (s :: l1) = r → pulled w s (s :: l1) →
  ∃ l, pulled w (target w c s) l ∧ length l = r ∧
    adopt (S fuel) (<[a := with_successor c (s :: l1)]> w) a s p =
      Ret (<[a := with_successor c l]> w, target w c s).
Proof.
  intros Hw Hc Hd Hp Hrs Hl1 Hpull. unfold target. rewrite Hd, Hp. unfold adopt, node.
  rewrite lookup_insert_eq. cbn [deref mbind go_bind identifier with_successor].
  destruct (keyInBetweenExclusive (identifier c) (Id s) (Id p)) eqn:Eb; cbn [negb].
  2: { by exists (s :: l1). }
  pose proof (lk_node _ Hw _ _ Hc) as Hn. pose proof (nd_lock _ _ _ Hn) as Hlock.
  pose proof (rl_predecessor _ _ Hw _ _ _ Hd Hp) as (dp & Hdp & Hidp).
  assert (IpAddress p ≠ a) as Hpa.
  { intros E. rewrite E in Hdp. simplify_eq. apply between_exclusive in Eb; [|apply Hn|by apply (resolves_key w s Hw)|].
    - rewrite <-Hidp, dist_self in Eb. lia.
    - rewrite <-Hidp. apply Hn. }
  pose proof (lk_node _ Hw _ _ Hdp) as Hndp.
  exists (p :: take (r - 1) (successor dp)).
  destruct (pulled_list r w a c p dp Hw Hc Hdp) as [Hpl Hll]. split_and!; [exact Hpl|exact Hll|].
  rewrite (Lock_run _ _ (with_successor c (s :: l1)) (lookup_insert_eq _ _ _) Hlock). go_step. rewrite insert_insert_eq, lookup_insert_eq.
  cbn [deref mbind go_bind]. change (index (successor _) 0) with (Ret s). go_step.
  change (identifier (with_lock _ true)) with (identifier c). rewrite Eb.
  assert (askHealthNode (<[a := with_lock (with_successor c (s :: l1)) true]> w) (IpAddress p) = true) as ->.
  { unfold askHealthNode. by rewrite lookup_insert_ne, Hdp. }
  cbn [andb]. rewrite (set_head_run _ _ (with_lock (with_successor c (s :: l1)) true) s l1 p (lookup_insert_eq _ _ _) eq_refl). go_step.
  rewrite insert_insert_eq.
  rewrite (update_locked fuel (<[a := with_successor c (p :: l1)]> w) a (with_successor c (p :: l1)) p l1 dp).
  - go_step. cbn [fst snd]. rewrite with_successor_twice, insert_insert_eq.
    cbn [mbind go_bind mret go_ret fst snd]. rewrite (Unlock_run _ _ (with_successor c _) (lookup_insert_eq _ _ _) Hlock).
    go_step. rewrite insert_insert_eq. do 3 f_equal. replace (length l1) with (r - 1)%nat by (cbn [length] in Hl1; lia). done.
  - done.
  - by rewrite lookup_insert_ne.
  - cbn [successor with_successor length] in *. by rewrite (rl_length _ _ Hw _ _ Hdp).
  - apply lookup_insert_eq.
  - done.
  - right. apply Hndp.
  - intros b Hb. by rewrite !lookup_insert_ne.
  - by rewrite lookup_insert_eq.
Qed.

Lemma stabilize_ring_run r fuel w a c s l0 :
  regular r w → w !! a = Some c → successor c = s :: l0 →
  ∃ l ok, pulled w (target w c s) l ∧ length l = r ∧
    stabilize_ring (S fuel) w a =
      Ret ((askUpdatePredecessor (<[a := with_successor c l]> w) c (IpAddress (target w c s))).1, ok).
Proof.
  intros Hw Hc Hs. pose proof (lk_node _ Hw _ _ Hc) as Hn. pose proof (nd_lock _ _ _ Hn) as Hlock.
  pose proof (head_resolves _ _ _ _ _ Hw Hc Hs) as Hrs. pose proof Hrs as (d & Hd & Hid).
  destruct (pulled_list r w a c s d Hw Hc Hd) as [Hpull Hl1].
  assert (length l0 = (r - 1)%nat) as Hl0.
  { pose proof (rl_length _ _ Hw _ _ Hc) as Hr. rewrite Hs in Hr. cbn [length] in Hr. lia. }
  set (l1 := take (r - 1) (successor d)) in *. set (w3 := <[a := with_successor c (s :: l1)]> w).
  assert (∀ X (k : world → ChordClient → finger → go X),
    (w ← Lock w a; w ← stabilize_locked (S fuel) w a; c ← node w a; s ← index (successor c) 0;
     w ← Unlock w a; k w c s) = k w3 (with_lock (with_successor c (s :: l1)) true) s) as Hpre.
  { intros X k. rewrite (Lock_run _ _ _ Hc Hlock). go_step. unfold stabilize_locked. cbn [checkSuccessor].
    rewrite (node_run _ _ _ (lookup_insert_eq _ _ _)). go_step. cbn [successor with_lock]. rewrite Hs.
    change (index (s :: l0) 0) with (Ret s). go_step.
    assert (askHealthNode (<[a := with_lock c true]> w) (IpAddress s) = true) as ->
      by (apply askHealthNode_iff, insert_live; by exists d).
    cbn [mbind go_bind mret go_ret]. rewrite (update_locked fuel w a c s l0 d); try done.
    - rewrite Hl0. go_step. rewrite (node_run _ _ _ (lookup_insert_eq _ _ _)). go_step.
      change (index (successor _) 0) with (Ret s). go_step.
      rewrite insert_insert_eq, (Unlock_run _ _ (with_successor c _) (lookup_insert_eq _ _ _) Hlock). go_step.
      by rewrite insert_insert_eq.
    - by rewrite (rl_length _ _ Hw _ _ Hd), (rl_length _ _ Hw _ _ Hc).
    - right. by apply (lk_node _ Hw _ _ Hd).
    - intros b Hb. by rewrite lookup_insert_ne.
    - apply lookup_insert_eq. }
  unfold stabilize_ring. rewrite Hpre.
  assert (askGetPredecessor w3 (IpAddress s) =
    match predecessor d with Some p => (p, true) | None => (no_finger, false) end) as ->.
  { unfold askGetPredecessor, w3. destruct (decide (IpAddress s = a)) as [E|E].
    - rewrite E in *. simplify_eq. by rewrite lookup_insert_eq.
    - by rewrite lookup_insert_ne, Hd. }
  destruct (predecessor d) as [p|] eqn:Hp; cbn [negb].
  - destruct (adopt_run r fuel w a c s d p l1 Hw Hc Hd Hp Hrs Hl1 Hpull) as (l & Hpl & Hl & Hrun).
    fold w3 in Hrun. rewrite Hrun. go_step. rewrite (node_run _ _ _ (lookup_insert_eq _ _ _)). go_step.
    rewrite askUpdatePredecessor_self. destruct (askUpdatePredecessor _ c _) as [w5 ok] eqn:E.
    exists l, ok. by rewrite E.
  - rewrite (node_run w3 a (with_successor c (s :: l1))) by apply lookup_insert_eq. go_step.
    exists (s :: l1), false. unfold target. rewrite Hd, Hp. done.
Qed.
