(* ===== verification/ChordConverge.v ===== *)
(** * Chord: joining, and converging to a stable ring

    [near]: the known predecessors are the right ones, and one [stabilize] finds
    the right successor.  A join leaves a near ring, every maintenance step keeps
    it, and once the nodes have stabilized the ring is [settled]. *)
From S2P Require Import Prelude GoStrings ChordKeys Sha1 Chord ChordProof ChordFiles ChordLinked.

(** [p] is the last other node before [d]. *)
Definition pred_ok (w : world) (d : ChordClient) (p : finger) : Prop :=
  resolves w p ∧ Id p ≠ identifier d ∧
  ∀ b x, w !! b = Some x → identifier x ≠ identifier d →
    dist (Id p) (identifier d) ≤ dist (identifier x) (identifier d).

Record near (r : nat) (w : world) : Prop := {
  nr_regular :> regular r w;
  nr_predecessor a d p : w !! a = Some d → predecessor d = Some p → pred_ok w d p;
  nr_target a c s l : w !! a = Some c → successor c = s :: l → next_node w c (target w c s);
}.

(** The successor of the node at [a] is the right one. *)
Definition right (w : world) (a : string) : Prop :=
  ∀ c s l, w !! a = Some c → successor c = s :: l → next_node w c s.

Definition settled (r : nat) (w : world) : Prop := near r w ∧ ∀ a, right w a.

Lemma settled_ring_ok r w : settled r w → ring_ok w.
Proof. intros [Hw Hr]. constructor; [apply Hw|]. intros a c s l Hc Hs. by apply (Hr a c s l). Qed.

(** ** Worlds with the same nodes *)
Definition name_of (c : ChordClient) : key * string := (identifier c, address c).
Definition same_names (w w' : world) : Prop := ∀ b, name_of <$> w' !! b = name_of <$> w !! b.

Lemma same_names_refl w : same_names w w.
Proof. by intros b. Qed.
Lemma same_names_trans w1 w2 w3 : same_names w1 w2 → same_names w2 w3 → same_names w1 w3.
Proof. intros H1 H2 b. by rewrite (H2 b). Qed.
Lemma same_names_sym w w' : same_names w w' → same_names w' w.
Proof. intros H b. by rewrite (H b). Qed.

Lemma same_names_lookup w w' b x' :
  same_names w w' → w' !! b = Some x' →
  ∃ x, w !! b = Some x ∧ identifier x' = identifier x ∧ address x' = address x.
Proof.
  intros H Hx. specialize (H b). rewrite Hx in H. simpl in H. symmetry in H.
  apply fmap_Some in H as (x & Hx' & E). exists x. split; [done|]. by injection E.
Qed.

Lemma same_names_some w w' b : same_names w w' → is_Some (w !! b) → is_Some (w' !! b).
Proof.
  intros H%same_names_sym [x Hx]. destruct (same_names_lookup _ _ _ _ H Hx) as (y & ? & _). by exists y.
Qed.

Lemma same_names_insert w a c c' :
  w !! a = Some c → identifier c' = identifier c → address c' = address c → same_names w (<[a := c']> w).
Proof.
  intros Hc Hi Ha b. destruct (decide (a = b)) as [->|]; [|by rewrite lookup_insert_ne].
  rewrite lookup_insert_eq, Hc. simpl. unfold name_of. by rewrite Hi, Ha.
Qed.

Lemma same_names_nodes w w' : same_nodes w w' → same_names w w'.
Proof.
  intros H b. specialize (H b). destruct (w' !! b) as [x'|], (w !! b) as [x|]; try done.
  simpl in *. apply (inj Some), erase_eq in H as (E1 & _ & _ & _ & _ & E2 & _). unfold name_of.
  by rewrite E1, E2.
Qed.

Lemma resolves_names w w' f : same_names w w' → resolves w f → resolves w' f.
Proof.
  intros H%same_names_sym (d & Hd & Hid).
  destruct (same_names_lookup _ _ _ _ H Hd) as (d' & Hd' & E & _). exists d'. split; [done|congruence].
Qed.

Lemma next_node_names w w' c c' s :
  same_names w w' → identifier c' = identifier c → next_node w c s → next_node w' c' s.
Proof.
  intros H E Hn a d' Hd'. destruct (same_names_lookup _ _ _ _ H Hd') as (d & Hd & Ed & _).
  rewrite E, Ed. eauto.
Qed.

Lemma pred_ok_names w w' d d' p :
  same_names w w' → identifier d' = identifier d → pred_ok w d p → pred_ok w' d' p.
Proof.
  intros H E (Hr & Hne & Hn). split; [by eapply resolves_names|]. rewrite E. split; [done|].
  intros b x' Hx'. destruct (same_names_lookup _ _ _ _ H Hx') as (x & Hx & -> & _). eauto.
Qed.

(** The fields of a node that its duties in the ring depend on, but for its
    successors and predecessor. *)
Record node_kept (w : world) (x x' : ChordClient) : Prop := {
  kp_lock : successorLock x' = successorLock x;
  kp_numSucc : numSucc x' = numSucc x;
  kp_table : length (fingerTable x') = 160%nat;
  kp_next : -1 ≤ next x' ≤ 159;
  kp_fingers f : f ∈ fingerTable x' → IpAddress f ≠ "" → resolves w f;
}.

Lemma node_kept_refl w b x : linked w → w !! b = Some x → node_kept w x x.
Proof.
  intros Hw Hx. destruct (lk_node _ Hw _ _ Hx). constructor; try done.
  intros f Hf. apply nd_entries. apply elem_of_app. by left.
Qed.

Lemma regular_kept r w w' :
  regular r w → same_names w w' →
  (∀ b x x', w !! b = Some x → w' !! b = Some x' →
     node_kept w x x' ∧ length (successor x') = r ∧
     (∃ s l, successor x' = s :: l ∧ IpAddress s ≠ "") ∧
     (∀ f, f ∈ successor x' → IpAddress f ≠ "" → resolves w f) ∧
     (∀ p, predecessor x' = Some p → resolves w p)) →
  regular r w'.
Proof.
  intros Hw Hn Hk.
  assert (∀ b x', w' !! b = Some x' → ∃ x, w !! b = Some x ∧ identifier x' = identifier x ∧
    address x' = address x) as Hback by (intros; by eapply same_names_lookup).
  constructor.
  - constructor.
    + intros b x' Hx'. destruct (Hback b x' Hx') as (x & Hx & Ei & Ea).
      destruct (Hk b x x' Hx Hx') as ([] & Hlen & Hs & He & _). pose proof (lk_node _ Hw _ _ Hx) as [].
      constructor; try done; try congruence.
      * by rewrite kp_numSucc0, nd_numSucc, Hlen, (rl_length _ _ Hw _ _ Hx).
      * intros f Hf Hip. eapply resolves_names; [done|].
        apply elem_of_app in Hf as [Hf|Hf]; [by apply kp_fingers0|by apply He].
    + intros b b' x y Hx Hy E. destruct (Hback b x Hx) as (x0 & Hx0 & Ex & _).
      destruct (Hback b' y Hy) as (y0 & Hy0 & Ey & _).
      apply (lk_id w Hw b b' x0 y0); congruence.
  - intros b x' Hx'. destruct (Hback b x' Hx') as (x & Hx & _). by destruct (Hk b x x' Hx Hx') as (_ & ? & _).
  - intros b x' p Hx' Hp. destruct (Hback b x' Hx') as (x & Hx & _).
    destruct (Hk b x x' Hx Hx') as (_ & _ & _ & _ & H). eapply resolves_names; [done|by apply H].
Qed.

(** Steps that change no successor and no predecessor. *)
Definition quiet (w w' : world) : Prop :=
  same_names w w' ∧ ∀ b x x', w !! b = Some x → w' !! b = Some x' →
    node_kept w x x' ∧ successor x' = successor x ∧ predecessor x' = predecessor x.

Lemma regular_quiet r w w' : regular r w → quiet w w' → regular r w'.
Proof.
  intros Hw [Hn Hk]. eapply (regular_kept r w); [done|done|]. intros b x x' Hx Hx'.
  destruct (Hk b x x' Hx Hx') as (Hkept & -> & ->). pose proof (lk_node _ Hw _ _ Hx) as [].
  split_and!; [done|by apply (rl_length _ _ Hw _ _ Hx)|done| |].
  - intros f Hf. apply nd_entries. apply elem_of_app. by right.
  - intros p. by apply (rl_predecessor _ _ Hw _ _ _ Hx).
Qed.

Lemma near_quiet r w w' :
  near r w → quiet w w' → near r w' ∧ ∀ b, right w b → right w' b.
Proof.
  intros Hw [Hn Hk].
  assert (∀ b x', w' !! b = Some x' → ∃ x, w !! b = Some x ∧ identifier x' = identifier x ∧
    successor x' = successor x ∧ predecessor x' = predecessor x) as Hback.
  { intros b x' Hx'. destruct (same_names_lookup _ _ _ _ Hn Hx') as (x & Hx & Ei & _).
    destruct (Hk b x x' Hx Hx') as (_ & ? & ?). by exists x. }
  assert (∀ x x' s, identifier x' = identifier x → target w' x' s = target w x s) as Ht.
  { intros x x' s E. unfold target. rewrite E. destruct (w' !! IpAddress s) as [d'|] eqn:Hd'.
    - destruct (Hback _ _ Hd') as (d & -> & _ & _ & ->). done.
    - destruct (w !! IpAddress s) as [d|] eqn:Hd; [|done].
      destruct (same_names_some w w' (IpAddress s) Hn) as [? ?]; [by exists d|congruence]. }
  split; [constructor|].
  - eapply regular_quiet; [apply Hw|by split].
  - intros b d' p Hd' Hp. destruct (Hback b d' Hd') as (d & Hd & Ei & _ & Ep). rewrite Ep in Hp.
    eapply pred_ok_names; [done|done|by eapply nr_predecessor].
  - intros b c' s l Hc' Hs. destruct (Hback b c' Hc') as (c & Hc & Ei & Es & _). rewrite Es in Hs.
    rewrite (Ht c c' s Ei). eapply next_node_names; [done|done|by eapply nr_target].
  - intros b Hr c' s l Hc' Hs. destruct (Hback b c' Hc') as (c & Hc & Ei & Es & _). rewrite Es in Hs.
    eapply next_node_names; [done|done|by eapply Hr].
Qed.

(** The finger tables, and the places that are fixed next, are the same. *)
Definition same_fingers (w w' : world) : Prop := ∀ b x x', w !! b = Some x → w' !! b = Some x' →
  fingerTable x' = fingerTable x ∧ next x' = next x.

Lemma same_fingers_nodes w w' : same_nodes w w' → same_fingers w w'.
Proof.
  intros H b x x' Hx Hx'. destruct (same_nodes_lookup _ _ _ _ H Hx') as (y & Hy & E).
  assert (y = x) as -> by congruence. by apply erase_eq in E as (_ & ? & _ & _ & _ & _ & _ & ?).
Qed.

(** ** One call of [stabilize] *)
Lemma nearest_back c t x :
  key_ok c → key_ok t → key_ok x → t ≠ c → x ≠ t → (x ≠ c → dist c t ≤ dist c x) → dist c t ≤ dist x t.
Proof.
  intros Hc Ht Hx. rewrite !same_iff_Z by done. pose proof (key_Z_bound c Hc).
  pose proof (key_Z_bound t Ht). pose proof (key_Z_bound x Hx).
  destruct (dist_cases c t Hc Ht), (dist_cases c x Hc Hx), (dist_cases x t Hx Ht); lia.
Qed.

Lemma dist_inj_l c x t : key_ok c → key_ok x → key_ok t → dist c t = dist x t → c = x.
Proof.
  intros Hc Hx Ht. rewrite same_iff_Z by done. pose proof (key_Z_bound c Hc).
  pose proof (key_Z_bound t Ht). pose proof (key_Z_bound x Hx).
  destruct (dist_cases c t Hc Ht), (dist_cases x t Hx Ht); lia.
Qed.

Lemma linked_key w a c : linked w → w !! a = Some c → key_ok (identifier c).
Proof. intros Hw Hc. apply (lk_node _ Hw _ _ Hc). Qed.

Lemma resolves_eq w a c f : linked w → w !! a = Some c → resolves w f → Id f = identifier c → f = me c.
Proof.
  intros Hw Hc (d & Hd & Hid) E. assert (IpAddress f = a) as Ea by (eapply lk_id; [done..|congruence]).
  destruct f as [i ip]. simpl in *. unfold me. by rewrite (nd_address _ _ _ (lk_node _ Hw _ _ Hc)), Ea, E.
Qed.

Section stabilizing.
Context (r : nat) (w : world) (a : string) (c : ChordClient) (s : finger) (l0 : list finger).
Hypothesis Hw : near r w.
Hypothesis Hc : w !! a = Some c.
Hypothesis Hs : successor c = s :: l0.
Local Abbreviation t := (target w c s).

Lemma target_next : next_node w c t.
Proof. by eapply nr_target. Qed.

Lemma target_resolves : resolves w t.
Proof.
  pose proof (head_resolves w a c s l0 Hw Hc Hs) as Hr. unfold target. pose proof Hr as (d & Hd & _).
  rewrite Hd. destruct (predecessor d) as [p|] eqn:Hp; [|done]. case_match; [|done].
  by apply (rl_predecessor _ _ Hw _ _ _ Hd Hp).
Qed.

Context (dt : ChordClient).
Hypothesis Hdt : w !! IpAddress t = Some dt.

Lemma target_id : identifier dt = Id t.
Proof. destruct target_resolves as (d & Hd & Hid). congruence. Qed.

(** The predecessor that the target knows, if any, is this node. *)
Lemma target_predecessor q : predecessor dt = Some q → identifier dt ≠ identifier c ∧ q = me c.
Proof.
  intros Hq. destruct (nr_predecessor _ _ Hw _ _ _ Hdt Hq) as (Hr & Hne & Hnear).
  pose proof target_next as Hnext. pose proof target_id as Hid. pose proof Hr as (dq & Hdq & Hqid).
  pose proof (linked_key _ _ _ Hw Hc) as Hck. pose proof (linked_key _ _ _ Hw Hdt) as Htk.
  assert (key_ok (Id q)) as Hqk by (by apply (resolves_key w q Hw)).
  destruct (decide (Id q = identifier c)) as [E|E].
  { split; [congruence|]. by apply (resolves_eq w a c q Hw). }
  destruct (Hnext _ dq Hdq) as [Htc Hle]; [congruence|]. rewrite <-Hid in *. split; [congruence|].
  exfalso. apply E. symmetry. apply (dist_inj_l _ _ (identifier dt)); [done..|].
  assert (dist (Id q) (identifier dt) ≤ dist (identifier c) (identifier dt)) by (eapply Hnear; [done|congruence]).
  assert (dist (identifier c) (identifier dt) ≤ dist (Id q) (identifier dt)); [|lia].
  apply nearest_back; try done. intros _. by rewrite <-Hqid.
Qed.

(** After the notification the target knows this node. *)
Lemma notify_target :
  (predecessor (notify dt (me c)).1 = predecessor dt ∨ predecessor dt = None) ∧
  predecessor (notify dt (me c)).1 = (if decide (identifier dt = identifier c) then None else Some (me c)).
Proof.
  unfold notify, sameKey. cbn [me Id]. case_decide as E.
  - rewrite bool_decide_true by done. cbn [fst]. destruct (predecessor dt) as [q|] eqn:Hq; [|by auto].
    by destruct (target_predecessor q Hq).
  - rewrite bool_decide_false by done. destruct (predecessor dt) as [q|] eqn:Hq; [|by auto].
    destruct (target_predecessor q Hq) as [_ ->]. cbn [me Id]. rewrite bool_decide_true by done.
    cbn. auto.
Qed.

Lemma me_pred_ok : identifier dt ≠ identifier c → pred_ok w dt (me c).
Proof.
  intros Hne. split; [|split; [done|]].
  - exists c. cbn. by rewrite (nd_address _ _ _ (lk_node _ Hw _ _ Hc)).
  - intros b x Hx Hxt. cbn. pose proof target_id as Hid.
    apply nearest_back; try by eapply linked_key; [apply Hw|done]. { congruence. } { done. }
    intros Hxc. rewrite Hid. by eapply target_next.
Qed.
Context (l : list finger).
Hypothesis Hl : pulled w t l.
Hypothesis Hlen : length l = r.
Local Abbreviation w' := (askUpdatePredecessor (<[a := with_successor c l]> w) c (IpAddress t)).1.

Lemma stabilized_lookup b :
  w' !! b =
    (λ x, let x := if decide (b = a) then with_successor x l else x in
          if decide (b = IpAddress t) then (notify x (me c)).1 else x) <$> w !! b.
Proof.
  unfold askUpdatePredecessor.
  assert (∃ d', <[a := with_successor c l]> w !! IpAddress t = Some d' ∧
    d' = if decide (IpAddress t = a) then with_successor dt l else dt) as (d' & -> & Hd').
  { case_decide as E; [|exists dt; by rewrite lookup_insert_ne].
    rewrite E in *. rewrite lookup_insert_eq. exists (with_successor c l). split; [done|congruence]. }
  unfold ReqUpdatePredecessor. change (mkFinger (identifier c) (address c)) with (me c).
  destruct (notify d' (me c)) as [d2 ok] eqn:E. cbn [fst].
  destruct (decide (b = IpAddress t)) as [->|Hne].
  - rewrite lookup_insert_eq, Hdt. cbn [fmap option_fmap option_map]. rewrite <-Hd', E. done.
  - rewrite lookup_insert_ne by done. destruct (decide (b = a)) as [Eb|Hba].
    + by rewrite Eb, lookup_insert_eq, Hc.
    + rewrite lookup_insert_ne by done. by destruct (w !! b).
Qed.

Lemma notify_fields d p :
  name_of (notify d p).1 = name_of d ∧ fingerTable (notify d p).1 = fingerTable d ∧
  successorLock (notify d p).1 = successorLock d ∧ numSucc (notify d p).1 = numSucc d ∧
  next (notify d p).1 = next d ∧ successor (notify d p).1 = successor d.
Proof. unfold notify. repeat case_match; done. Qed.

Lemma notify_with_successor d p l' :
  predecessor (notify (with_successor d l') p).1 = predecessor (notify d p).1.
Proof. unfold notify. cbn. repeat case_match; done. Qed.

Lemma stabilized_node b x :
  w !! b = Some x → ∃ x', w' !! b = Some x' ∧ node_kept w x x' ∧
    successor x' = (if decide (b = a) then l else successor x) ∧
    predecessor x' = (if decide (b = IpAddress t)
                      then if decide (identifier dt = identifier c) then None else Some (me c)
                      else predecessor x).
Proof.
  intros Hx. rewrite stabilized_lookup, Hx. eexists. split; [done|]. cbv zeta.
  set (y := if decide (b = a) then with_successor x l else x).
  assert (node_kept w x y ∧ successor y = (if decide (b = a) then l else successor x) ∧
    predecessor y = predecessor x ∧ ∀ p, predecessor (notify y p).1 = predecessor (notify x p).1)
    as (Hk & Hsy & Hpy & Hny).
  { unfold y. pose proof (node_kept_refl w b x Hw Hx) as []. case_decide; [|done].
    split; [constructor; done|]. split; [done|]. split; [done|]. intros p. apply notify_with_successor. }
  destruct (decide (b = IpAddress t)) as [->|]; [|done].
  destruct (notify_fields y (me c)) as (_ & E1 & E2 & E3 & E4 & E5). split; [|split].
  - destruct Hk. constructor; rewrite ?E1, ?E2, ?E3, ?E4; done.
  - by rewrite E5.
  - rewrite Hny. assert (x = dt) as -> by congruence. apply notify_target.
Qed.

Lemma stabilized_names : same_names w w'.
Proof.
  intros b. rewrite stabilized_lookup. destruct (w !! b) as [x|]; [|done]. simpl. f_equal.
  assert (∀ y, name_of (if decide (b = IpAddress t) then (notify y (me c)).1 else y) = name_of y) as ->.
  { intros y. case_decide; [apply notify_fields|done]. }
  by case_decide.
Qed.

Lemma stabilized_fingers : same_fingers w w'.
Proof.
  intros b x x' Hx. rewrite stabilized_lookup, Hx. cbv zeta. cbn [fmap option_fmap option_map]. intros [= <-].
  destruct (notify_fields (if decide (b = a) then with_successor x l else x) (me c)) as (_ & Ht & _ & _ & Hn & _).
  case_decide; rewrite ?Ht, ?Hn; by case_decide.
Qed.

Lemma head_nonempty s' : resolves w s' → IpAddress s' ≠ "".
Proof.
  intros (d & Hd & _) E. rewrite E in Hd. pose proof (nd_address _ _ _ (lk_node _ Hw _ _ Hd)) as Ha.
  unfold address in Ha. by destruct (myIp d).
Qed.

Lemma stabilized_regular : regular r w'.
Proof.
  apply (regular_kept r w); [apply Hw|apply stabilized_names|]. intros b x x' Hx Hx'.
  destruct (stabilized_node b x Hx) as (x2 & Hx2 & Hk & Es & Ep).
  assert (x2 = x') as -> by congruence. pose proof (lk_node _ Hw _ _ Hx) as Hn. split; [done|]. rewrite Es, Ep.
  destruct Hl as (l' & -> & Hent). pose proof target_resolves as Htr. split_and!.
  - case_decide; [done|]. by apply (rl_length _ _ Hw _ _ Hx).
  - case_decide; [|apply Hn]. exists t, l'. split; [done|by apply head_nonempty].
  - intros f Hf Hip. case_decide.
    + apply elem_of_cons in Hf as [->|Hf]; [done|]. destruct (Hent f Hf) as (b' & d & Hd & Hin).
      apply (nd_entries _ _ _ (lk_node _ Hw _ _ Hd)); [|done]. apply elem_of_app. by right.
    + apply (nd_entries _ _ _ Hn); [|done]. apply elem_of_app. by right.
  - intros p Hp. case_decide; [|by apply (rl_predecessor _ _ Hw _ _ _ Hx)]. case_decide; [done|].
    injection Hp as <-. exists c. cbn. by rewrite (nd_address _ _ _ (lk_node _ Hw _ _ Hc)).
Qed.

Lemma stabilized_back b x' :
  w' !! b = Some x' → ∃ x, w !! b = Some x ∧ identifier x' = identifier x ∧
    successor x' = (if decide (b = a) then l else successor x) ∧
    predecessor x' = (if decide (b = IpAddress t)
                      then if decide (identifier dt = identifier c) then None else Some (me c)
                      else predecessor x).
Proof.
  intros Hx'. destruct (same_names_lookup _ _ _ _ stabilized_names Hx') as (x & Hx & Ei & _).
  destruct (stabilized_node b x Hx) as (x2 & Hx2 & _ & Es & Ep). exists x.
  assert (x2 = x') as -> by congruence. done.
Qed.

Lemma stabilized_right : right w' a ∧ ∀ b, right w b → right w' b.
Proof.
  assert (right w' a) as Ha.
  { intros c' s' l' Hc' Hs'. destruct (stabilized_back a c' Hc') as (x & Hx & Ei & Es & _).
    rewrite decide_True in Es by done. destruct Hl as (l1 & El & _). assert (s' = t) as -> by congruence.
    eapply next_node_names; [apply stabilized_names|exact Ei|]. assert (x = c) as -> by congruence.
    apply target_next. }
  split; [done|]. intros b Hr. destruct (decide (b = a)) as [->|Hba]; [done|]. intros c' s' l' Hc' Hs'.
  destruct (stabilized_back b c' Hc') as (x & Hx & Ei & Es & _). rewrite decide_False in Es by done.
  eapply next_node_names; [apply stabilized_names|exact Ei|]. apply (Hr x s' l'); congruence.
Qed.

(** A node that has this one's target for its successor keeps its own. *)
Lemma target_unmoved x b sx lx :
  w !! b = Some x → b ≠ a → successor x = sx :: lx → IpAddress sx = IpAddress t →
  identifier dt ≠ identifier c → predecessor dt = None →
  target w x sx = sx ∧ keyInBetweenExclusive (identifier x) (Id sx) (identifier c) = false.
Proof.
  intros Hx Hba Hsx Eip Hne Hnone.
  assert (target w x sx = sx) as Et by (unfold target; by rewrite Eip, Hdt, Hnone).
  split; [done|]. pose proof (nr_target _ _ Hw _ _ _ _ Hx Hsx) as Hnext. rewrite Et in Hnext.
  assert (identifier c ≠ identifier x) as Hcx by (intros E; apply Hba; by eapply (lk_id w Hw)).
  destruct (Hnext a c Hc Hcx) as [Hsne Hle]. apply not_true_iff_false.
  rewrite between_exclusive by (by eapply linked_key; [apply Hw|]) ||
    (apply (resolves_key w sx Hw), (head_resolves w b x sx lx Hw Hx Hsx)). intros [_ [?|?]]; [lia|congruence].
Qed.

Lemma stabilized_target b x' sx lx :
  w' !! b = Some x' → successor x' = sx :: lx → next_node w' x' (target w' x' sx).
Proof.
  intros Hx' Hsx. destruct (stabilized_back b x' Hx') as (x & Hx & Ei & Es & _).
  assert (∀ f, next_node w x f → next_node w' x' f) as Hback
    by (intros f; by apply next_node_names; [apply stabilized_names|]).
  assert (∀ f d, w !! IpAddress f = Some d → target w' x' f =
    match (if decide (IpAddress f = IpAddress t)
           then if decide (identifier dt = identifier c) then None else Some (me c)
           else predecessor d) with
    | Some p => if keyInBetweenExclusive (identifier x) (Id f) (Id p) then p else f
    | None => f end) as Ht.
  { intros f d Hd. destruct (stabilized_node _ _ Hd) as (d' & Hd' & _ & _ & Ep). unfold target at 1.
    by rewrite Hd', Ep, Ei. }
  destruct (decide (b = a)) as [Eb|Hba].
  - rewrite Eb in Hx. assert (x = c) as -> by congruence. destruct Hl as (l1 & El & _).
    assert (sx = t) as -> by congruence. rewrite (Ht t dt Hdt), decide_True by done.
    assert (keyInBetweenExclusive (identifier c) (Id t) (Id (me c)) = false) as Hb.
    { pose proof target_id as Hid. apply (keyInBetween_spec (identifier c) (Id t) (identifier c));
        [|rewrite <-Hid|]; by eapply linked_key; [apply Hw|]. }
    case_decide; [by apply Hback, target_next|]. rewrite Hb. by apply Hback, target_next.
  - rewrite Es in Hsx. pose proof (nr_target _ _ Hw _ _ _ _ Hx Hsx) as Hnext.
    destruct (head_resolves w b x sx lx Hw Hx Hsx) as (d & Hd & _). rewrite (Ht sx d Hd).
    destruct (decide (IpAddress sx = IpAddress t)) as [E|E]; [|by apply Hback; unfold target in Hnext; rewrite Hd in Hnext].
    assert (d = dt) as -> by congruence. destruct notify_target as [Hsame HP].
    case_decide as Eid.
    + apply Hback. unfold target in Hnext. rewrite Hd in Hnext. destruct (predecessor dt) as [q|] eqn:Hq; [|done].
      by destruct (target_predecessor q Hq).
    + destruct (predecessor dt) as [q|] eqn:Hq.
      * destruct (target_predecessor q Hq) as [_ ->]. apply Hback. unfold target in Hnext.
        by rewrite Hd, Hq in Hnext.
      * destruct (target_unmoved x b sx lx) as [Et Hb]; try done. cbn [me Id]. rewrite Hb. apply Hback. by rewrite Et in Hnext.
Qed.

Lemma stabilized_near : near r w'.
Proof.
  constructor; [apply stabilized_regular| |apply stabilized_target].
  intros b d' p Hd' Hp. destruct (stabilized_back b d' Hd') as (d & Hd & Ei & _ & Ep). rewrite Ep in Hp.
  eapply pred_ok_names; [apply stabilized_names|exact Ei|].
  destruct (decide (b = IpAddress t)) as [->|]; [|by eapply nr_predecessor].
  assert (d = dt) as -> by congruence. case_decide; [done|]. injection Hp as <-. by apply me_pred_ok.
Qed.
End stabilizing.

(** ** The maintenance steps *)
Lemma same_names_size w w' : same_names w w' → size w' = size w.
Proof.
  intros H. rewrite <-!(size_dom (D := gset string)). f_equal. apply set_eq. intros b.
  rewrite !elem_of_dom. split; [by apply same_names_some, same_names_sym|by apply same_names_some].
Qed.

Lemma quiet_refl w : linked w → quiet w w.
Proof.
  intros Hw. split; [apply same_names_refl|]. intros b x x' Hx Hx'. simplify_eq.
  split; [by eapply node_kept_refl|done].
Qed.

Lemma quiet_insert w a c c' :
  linked w → w !! a = Some c → name_of c' = name_of c → node_kept w c c' →
  successor c' = successor c → predecessor c' = predecessor c → quiet w (<[a := c']> w).
Proof.
  intros Hw Hc [= Ei Ea] Hk Es Ep. split; [by eapply same_names_insert|]. intros b x x' Hx Hx'.
  destruct (decide (a = b)) as [->|].
  - rewrite lookup_insert_eq in Hx'. by simplify_eq.
  - rewrite lookup_insert_ne in Hx' by done. simplify_eq. split; [by eapply node_kept_refl|done].
Qed.

Lemma quiet_nodes w w' : linked w → same_nodes w w' → quiet w w'.
Proof.
  intros Hw H. split; [by apply same_names_nodes|]. intros b x x' Hx Hx'.
  destruct (same_nodes_lookup _ _ _ _ H Hx') as (y & Hy & E). assert (y = x) as -> by congruence.
  apply erase_eq in E as (_ & E2 & E3 & E4 & E5 & _ & E7 & E8).
  split; [|done]. destruct (node_kept_refl w b x Hw Hx). constructor; rewrite ?E2, ?E3, ?E7, ?E8; done.
Qed.

(** The place [fixFinger] turns to. *)
Definition next_place (c : ChordClient) : Z := if 159 <? next c + 1 then 0 else next c + 1.
Definition fixed (c : ChordClient) (f : finger) : ChordClient :=
  with_fingers (with_next c (next_place c)) (<[Z.to_nat (next_place c) := f]> (fingerTable c)).

Lemma next_place_bound w a c : node_linked w a c → 0 ≤ next_place c ≤ 159.
Proof. intros Hn. pose proof (nd_next _ _ _ Hn). unfold next_place. case_match; lia. Qed.

Lemma moved_quiet w a c : linked w → w !! a = Some c → quiet w (<[a := with_next c (next_place c)]> w).
Proof.
  intros Hw Hc. pose proof (next_place_bound _ _ _ (lk_node _ Hw _ _ Hc)).
  apply (quiet_insert w a c); [done|done..| |done|done].
  destruct (node_kept_refl w a c Hw Hc). constructor; try done. simpl. lia.
Qed.

Lemma fixFinger_run r fuel w a c (w0 := <[a := with_next c (next_place c)]> w) :
  regular r w → w !! a = Some c → (size w < fuel)%nat →
  ∃ f, findSuccessor fuel w0 a (keyToLook (next_place c) (identifier c)) = Ret (w0, f) ∧
    resolves w f ∧ fixFinger fuel w a = Ret (<[a := fixed c f]> w).
Proof.
  intros Hw Hc Hf. pose proof (lk_node _ Hw _ _ Hc) as Hn. pose proof (next_place_bound _ _ _ Hn) as Hb.
  assert (regular r w0) as Hw0 by (eapply regular_quiet; [done|by apply moved_quiet; [apply Hw|]]).
  assert (key_ok (keyToLook (next_place c) (identifier c))) as Hkey by apply keyToLook_key, Hn.
  destruct (findSuccessor_linked fuel w0 a (with_next c (next_place c)) (keyToLook (next_place c) (identifier c)))
    as (f & Hrun & Hr & _); [apply Hw0|apply lookup_insert_eq|done| |].
  { eapply Nat.le_lt_trans; [apply between_set_size|]. unfold w0. by rewrite map_size_insert_Some by eauto. }
  exists f. split; [done|]. split.
  { eapply resolves_names; [|exact Hr]. by apply same_names_sym, (same_names_insert w a c). }
  unfold fixFinger. rewrite (node_run _ _ _ Hc). go_step. fold (next_place c). fold w0. rewrite Hrun. go_step.
  cbn [fst snd]. unfold w0. rewrite (node_run _ _ _ (lookup_insert_eq _ _ _)). go_step.
  cbn [fingerTable with_next]. rewrite store_lt by (rewrite (nd_table _ _ _ Hn); lia). go_step.
  by rewrite insert_insert_eq.
Qed.

Lemma fixed_quiet w a c f : linked w → w !! a = Some c → resolves w f → quiet w (<[a := fixed c f]> w).
Proof.
  intros Hw Hc Hr. pose proof (lk_node _ Hw _ _ Hc) as Hn. pose proof (next_place_bound _ _ _ Hn) as Hb.
  apply (quiet_insert w a c); [done|done..| |done|done].
  destruct (node_kept_refl w a c Hw Hc). constructor; cbn; [done|done|by rewrite length_insert|lia|].
  intros g (i & Hi)%list_elem_of_lookup Hip. apply list_lookup_insert_Some in Hi as [(_ & <- & _)|[_ Hi]]; [done|].
  apply kp_fingers0; [by eapply list_elem_of_lookup_2|done].
Qed.

Lemma check_predecessor_run r w a c : regular r w → w !! a = Some c → check_predecessor w a = Ret w.
Proof.
  intros Hw Hc. unfold check_predecessor. rewrite (node_run _ _ _ Hc). go_step.
  destruct (predecessor c) as [p|] eqn:Hp; [|done]. destruct (rl_predecessor _ _ Hw _ _ _ Hc Hp) as (d & Hd & _).
  unfold askHealthNode. by rewrite Hd.
Qed.

Inductive action := Stabilize | FixFinger | CheckPredecessor | Store (Key Data : string).

Section maintenance.
Context (creatable : string → bool) (ReadDir : gmap string string → list string).
Hypothesis ReadDir_lists : lists_files ReadDir.

Definition act (fuel : nat) (w : world) (a : string) (k : action) : go world :=
  match k with
  | Stabilize => stabilize creatable ReadDir fuel w a
  | FixFinger => fixFinger fuel w a
  | CheckPredecessor => check_predecessor w a
  | Store key data => StoreFile creatable fuel w a key data
  end.

Fixpoint acts (fuel : nat) (w : world) (l : list (string * action)) : go world :=
  match l with
  | [] => mret w
  | (a, k) :: l => w ← act fuel w a k; acts fuel w l
  end.

Lemma stabilize_near r fuel w a c :
  near r w → w !! a = Some c → (size w < fuel)%nat →
  ∃ w', stabilize creatable ReadDir fuel w a = Ret w' ∧ near r w' ∧ same_names w w' ∧
    same_fingers w w' ∧ right w' a ∧ ∀ b, right w b → right w' b.
Proof.
  intros Hw Hc Hf. destruct fuel as [|fuel]; [lia|].
  destruct (nd_succ _ _ _ (lk_node _ Hw _ _ Hc)) as (s & l0 & Hs & _).
  destruct (stabilize_ring_run r fuel w a c s l0 Hw Hc Hs) as (l & ok & Hl & Hlen & Hrun).
  destruct (target_resolves r w a c s l0 Hw Hc Hs) as (dt & Hdt & _).
  pose proof (stabilized_near r w a c s l0 Hw Hc Hs dt Hdt l Hl Hlen) as Hn.
  pose proof (stabilized_right r w a c s l0 Hw Hc Hs dt Hdt l Hl) as [Ha Hr].
  pose proof (stabilized_names w a c s Hc dt Hdt l) as Hsn.
  pose proof (stabilized_fingers w a c s Hc dt Hdt l) as Hsf.
  set (w1 := (askUpdatePredecessor _ _ _).1) in *. unfold stabilize. rewrite Hrun. go_step.
  destruct ok; cbn [negb]; [|by exists w1].
  destruct (same_names_some w w1 a Hsn) as [c1 Hc1]; [by exists c|]. rewrite (node_run _ _ _ Hc1). go_step.
  destruct (ReadDir_lists (directory c1)) as [Hnd Hin].
  destruct (move_files_linked creatable (S fuel) (ReadDir (directory c1)) w1 a) as (w2 & -> & Hs2).
  - apply Hn.
  - done.
  - apply Forall_forall. intros k Hk%Hin. by exists c1.
  - by rewrite (same_names_size _ _ Hsn).
  - destruct (near_quiet r w1 w2 Hn) as [Hn2 Hr2]; [apply quiet_nodes; [apply Hn|done]|].
    exists w2. split_and!; auto.
    + eapply same_names_trans; [exact Hsn|by apply same_names_nodes].
    + intros b x x' Hx Hx'. destruct (same_names_some w w1 b Hsn) as [y Hy]; [by exists x|].
      destruct (Hsf b x y Hx Hy) as [<- <-]. by apply (same_fingers_nodes _ _ Hs2 b y x').
Qed.

Lemma act_near r fuel w a k :
  near r w → is_Some (w !! a) → (size w < fuel)%nat →
  ∃ w', act fuel w a k = Ret w' ∧ near r w' ∧ same_names w w' ∧
    (∀ b, right w b → right w' b) ∧ (k = Stabilize → right w' a) ∧ (k ≠ FixFinger → same_fingers w w').
Proof.
  intros Hw [c Hc] Hf.
  assert (∀ w', quiet w w' → k ≠ Stabilize → near r w' ∧ same_names w w' ∧
    (∀ b, right w b → right w' b) ∧ (k = Stabilize → right w' a)) as Hq.
  { intros w' Hq Hne. destruct (near_quiet r w w' Hw Hq) as [? ?]. split_and!; [done|apply Hq|done|done]. }
  destruct k as [| | |key data]; cbn [act].
  - destruct (stabilize_near r fuel w a c Hw Hc Hf) as (w' & -> & ? & ? & ? & ? & ?). by exists w'.
  - destruct (fixFinger_run r fuel w a c) as (f & _ & Hr & ->); [apply Hw|done|done|]. eexists. split; [done|].
    destruct (Hq _ (fixed_quiet w a c f Hw Hc Hr)) as (? & ? & ? & ?); [done|]. by split_and!.
  - rewrite (check_predecessor_run r w a c Hw Hc). exists w. split; [done|].
    destruct (Hq w) as (? & ? & ? & ?); [apply quiet_refl, Hw|done|]. split_and!; try done. by intros _ b x x' -> [= ->].
  - destruct (StoreFile_linked creatable fuel w a c key data) as (w' & -> & Hs); [apply Hw|done|done|].
    exists w'. split; [done|]. destruct (Hq w') as (? & ? & ? & ?); [apply quiet_nodes; [apply Hw|done]|done|].
    split_and!; try done. intros _. by apply same_fingers_nodes.
Qed.

Lemma acts_near r fuel w l :
  near r w → Forall (λ ak, is_Some (w !! ak.1)) l → (size w < fuel)%nat →
  ∃ w', acts fuel w l = Ret w' ∧ near r w' ∧ same_names w w' ∧
    (∀ b, right w b → right w' b) ∧ (∀ b, (b, Stabilize) ∈ l → right w' b).
Proof.
  intros Hw Hl Hf. revert w Hw Hl Hf. induction l as [|[a k] l IH]; intros w Hw Hl Hf.
  { exists w. split_and!; [done|done|apply same_names_refl|done|by intros b ?%elem_of_nil]. }
  apply Forall_cons in Hl as [Ha Hl]. destruct (act_near r fuel w a k Hw Ha Hf) as (w1 & Hrun & Hn1 & Hs1 & Hr1 & Ht1 & _).
  cbn [acts]. rewrite Hrun. go_step. destruct (IH w1) as (w2 & -> & Hn2 & Hs2 & Hr2 & Ht2).
  - done.
  - eapply Forall_impl; [exact Hl|]. intros [b k'] Hb. by eapply same_names_some.
  - by rewrite (same_names_size _ _ Hs1).
  - exists w2. split_and!; [done|done|by eapply same_names_trans|auto|].
    intros b [Hb|Hb]%elem_of_cons; [|auto]. injection Hb as -> <-. auto.
Qed.
End maintenance.
