(* ===== verification/ChordFingers.v ===== *)
(** * Chord: the finger table

    On a settled ring [fixFinger] goes through the table; after 160 calls, whatever
    runs between them, every finger is right.  [findClosestPrecedingNode] only
    looks at the fingers before the one that was fixed last. *)
From S2P Require Import Prelude GoStrings ChordKeys Sha1 Chord ChordProof ChordFiles ChordLinked ChordConverge.
#[local] Open Scope Z_scope.

#[export] Instance action_eq_dec : EqDecision action.
Proof. solve_decision. Defined.

Lemma owner_names w w' h f : same_names w w' → owner w h f → owner w' h f.
Proof.
  intros H [Hr Ho]. split; [by eapply resolves_names|]. intros a d' Hd'.
  destruct (same_names_lookup _ _ _ _ H Hd') as (d & Hd & -> & _). eauto.
Qed.

Lemma settled_quiet r w w' : settled r w → quiet w w' → settled r w'.
Proof. intros [Hw Hr] Hq. destruct (near_quiet r w w' Hw Hq) as [? Hk]. split; auto. Qed.

(** Finger [i] of the node is the owner of the key [2^i] after it. *)
Definition finger_right (w : world) (c : ChordClient) (i : Z) : Prop :=
  ∃ f, fingerTable c !! Z.to_nat i = Some f ∧ owner w (keyToLook i (identifier c)) f.

(** The last [m] calls, the first of which was at place [s], have been right. *)
Record fixed_since (w : world) (c : ChordClient) (s m : Z) : Prop := {
  fs_place : next_place c = (s + m) mod 160;
  fs_right j : 0 ≤ j < m → finger_right w c ((s + j) mod 160);
}.

Lemma finger_right_kept w w' c c' i :
  same_names w w' → identifier c' = identifier c → fingerTable c' = fingerTable c →
  finger_right w c i → finger_right w' c' i.
Proof. intros H Ei Et (f & Hf & Ho). exists f. rewrite Ei, Et. split; [done|by eapply owner_names]. Qed.

Lemma fixed_since_kept w w' a c c' s m :
  same_names w w' → same_fingers w w' → w !! a = Some c → w' !! a = Some c' →
  fixed_since w c s m → fixed_since w' c' s m.
Proof.
  intros Hn Hf Hc Hc' [Hp Hr]. destruct (Hf a c c' Hc Hc') as [Et En].
  destruct (same_names_lookup _ _ _ _ Hn Hc') as (x & Hx & Ei & _). assert (x = c) as -> by congruence.
  constructor; [unfold next_place in *; by rewrite En|]. intros j Hj. by eapply finger_right_kept, Hr.
Qed.

Lemma next_place_fixed c f : 0 ≤ next_place c ≤ 159 → next_place (fixed c f) = (next_place c + 1) mod 160.
Proof.
  intros H. unfold next_place at 1. cbn [next fixed with_fingers with_next]. destruct (159 <? next_place c + 1) eqn:E.
  - by assert (next_place c = 159) as -> by lia.
  - symmetry. apply Z.mod_small. lia.
Qed.

(** One call of [fixFinger]. *)
Lemma fixFinger_right r fuel w a c s m :
  settled r w → w !! a = Some c → (size w < fuel)%nat → fixed_since w c s m →
  ∃ f w', fixFinger fuel w a = Ret w' ∧ w' = <[a := fixed c f]> w ∧ settled r w' ∧ same_names w w' ∧
    fixed_since w' (fixed c f) s (m + 1).
Proof.
  intros Hw Hc Hf [Hp Hr]. assert (linked w) as Hl by apply Hw. pose proof (lk_node _ Hl _ _ Hc) as Hn.
  pose proof (next_place_bound _ _ _ Hn) as Hb.
  destruct (fixFinger_run r fuel w a c) as (f & Hrun & Hres & Hfix); [apply Hw|done|done|].
  pose proof (moved_quiet w a c Hl Hc) as Hq0. set (w0 := <[a := with_next c (next_place c)]> w) in *.
  assert (owner w (keyToLook (next_place c) (identifier c)) f) as Ho.
  { destruct (findSuccessor_run fuel w0 a (with_next c (next_place c)) (keyToLook (next_place c) (identifier c)))
      as (f' & Hrun' & Ho); [by eapply settled_ring_ok, settled_quiet|apply lookup_insert_eq|by apply keyToLook_key, Hn| |].
    { eapply Nat.le_lt_trans; [apply between_set_size|]. unfold w0. by rewrite map_size_insert_Some by eauto. }
    assert (f' = f) as -> by congruence. eapply owner_names; [|done]. by apply same_names_sym, Hq0. }
  pose proof (fixed_quiet w a c f Hl Hc Hres) as Hq. exists f, (<[a := fixed c f]> w).
  split; [done|]. split; [done|]. split; [by eapply settled_quiet|]. split; [apply Hq|].
  assert (∀ i, 0 ≤ i → i = next_place c ∨ finger_right w c i → finger_right (<[a := fixed c f]> w) (fixed c f) i) as Hi.
  { intros i Hi0 Hi. destruct (decide (i = next_place c)) as [->|Hne].
    - exists f. cbn [fingerTable fixed with_fingers identifier with_next]. split; [|by eapply owner_names; [apply Hq|]].
      apply list_lookup_insert_eq. rewrite (nd_table _ _ _ Hn). lia.
    - destruct Hi as [|(g & Hg & Hog)]; [done|]. exists g. split; [|by eapply owner_names; [apply Hq|]].
      cbn [fingerTable fixed with_fingers]. rewrite list_lookup_insert_ne by lia. done. }
  constructor.
  - rewrite next_place_fixed, Hp, Zplus_mod_idemp_l by done. f_equal. lia.
  - intros j Hj. apply Hi; [by apply Z.mod_pos_bound|]. destruct (decide (j = m)) as [->|]; [by left|right].
    apply Hr. lia.
Qed.

Lemma fixed_since_all w c s m i :
  fixed_since w c s m → 160 ≤ m → 0 ≤ i < 160 → finger_right w c i.
Proof.
  intros [_ Hr] Hm Hi. replace i with ((s + (i - s) mod 160) mod 160).
  - apply Hr. pose proof (Z.mod_pos_bound (i - s) 160). lia.
  - rewrite Zplus_mod_idemp_r. replace (s + (i - s)) with i by lia. by apply Z.mod_small.
Qed.
Lemma fixed_since_start w a c : node_linked w a c → fixed_since w c (next_place c) 0.
Proof. intros Hn%next_place_bound. constructor; [by rewrite Z.add_0_r, Z.mod_small by lia|lia]. Qed.

Section maintenance.
Context (creatable : string → bool) (ReadDir : gmap string string → list string).
Hypothesis ReadDir_lists : lists_files ReadDir.

Definition fixes (a : string) (l : list (string * action)) : Z :=
  Z.of_nat (length (filter (λ ak, ak = (a, FixFinger)) l)).

Lemma acts_fixed r fuel w a c s m l :
  settled r w → w !! a = Some c → (size w < fuel)%nat → fixed_since w c s m →
  Forall (λ ak, is_Some (w !! ak.1)) l →
  ∃ w' c', acts creatable ReadDir fuel w l = Ret w' ∧ settled r w' ∧ same_names w w' ∧
    w' !! a = Some c' ∧ fixed_since w' c' s (m + fixes a l).
Proof.
  intros Hw Hc Hf Hfix Hl. revert w c m Hw Hc Hf Hfix Hl. induction l as [|[b k] l IH]; intros w c m Hw Hc Hf Hfix Hl.
  { exists w, c. split_and!; try done. unfold fixes. simpl. by rewrite Z.add_0_r. }
  apply Forall_cons in Hl as [Hb Hl]. cbn [fst] in Hb.
  assert (∃ w1 c1, act creatable ReadDir fuel w b k = Ret w1 ∧ settled r w1 ∧ same_names w w1 ∧ w1 !! a = Some c1 ∧
    fixed_since w1 c1 s (m + fixes a [(b, k)])) as (w1 & c1 & Hrun & Hw1 & Hn1 & Hc1 & Hfix1).
  { unfold fixes. rewrite filter_cons, filter_nil. case_decide as Hd.
    - injection Hd as -> ->. destruct (fixFinger_right r fuel w a c s m Hw Hc Hf Hfix) as (f & w1 & Hrun & Ew & ? & ? & ?).
      exists w1, (fixed c f). split_and!; try done. by rewrite Ew, lookup_insert_eq.
    - rewrite Z.add_0_r. destruct (act_near creatable ReadDir ReadDir_lists r fuel w b k (proj1 Hw) Hb Hf)
        as (w1 & Hrun & Hnear & Hn & Hright & _ & Hsf). destruct (same_names_some w w1 a Hn) as [c1 Hc1]; [by exists c|].
      assert (settled r w1) as Hw1 by (split; [done|]; intros x; apply Hright, Hw).
      exists w1, c1. split_and!; try done. destruct (decide (k = FixFinger)) as [->|Hk].
      + destruct Hb as [d Hd']. cbn [act] in Hrun.
        destruct (fixFinger_run r fuel w b d) as (f & _ & _ & Hrun'); [apply Hw|done|done|].
        assert (a ≠ b) as Hab by congruence. assert (w1 = <[b := fixed d f]> w) as -> by congruence.
        rewrite lookup_insert_ne in Hc1 by done. assert (c1 = c) as -> by congruence.
        destruct Hfix as [Hp Hr]. constructor; [done|]. intros j Hj. by eapply finger_right_kept, Hr.
      + by eapply fixed_since_kept; [|apply Hsf|..]. }
  destruct (IH w1 c1 (m + fixes a [(b, k)]) Hw1 Hc1) as (w2 & c2 & Hrun2 & Hw2 & Hn2 & Hc2 & Hfix2); [by rewrite (same_names_size _ _ Hn1)|done| |].
  { eapply Forall_impl; [exact Hl|]. intros x. by apply same_names_some. }
  exists w2, c2. cbn [acts]. rewrite Hrun. go_step. split_and!; try done; [by eapply same_names_trans|].
  replace (m + fixes a ((b, k) :: l)) with (m + fixes a [(b, k)] + fixes a l); [done|].
  unfold fixes. rewrite (filter_cons _ _ l), (filter_cons _ _ []), filter_nil. case_decide; cbn [length]; lia.
Qed.

(** The node at [a] of a settled ring has the right fingers. *)
Definition fingers_settled (r : nat) (w : world) (a : string) : Prop :=
  settled r w ∧ ∃ c, w !! a = Some c ∧ length (fingerTable c) = 160%nat ∧ ∀ i, 0 ≤ i < 160 → finger_right w c i.

Lemma acts_settle r fuel w a l :
  settled r w → is_Some (w !! a) → (size w < fuel)%nat →
  Forall (λ ak, is_Some (w !! ak.1)) l → 160 ≤ fixes a l →
  ∃ w', acts creatable ReadDir fuel w l = Ret w' ∧ same_names w w' ∧ fingers_settled r w' a.
Proof.
  intros Hw [c Hc] Hf Hl Hm. assert (linked w) as Hlw by apply Hw.
  destruct (acts_fixed r fuel w a c (next_place c) 0 l Hw Hc Hf) as (w' & c' & Hrun & Hw' & Hn & Hc' & Hfix);
    [by eapply fixed_since_start, lk_node|done|].
  assert (linked w') as Hlw' by apply Hw'. pose proof (lk_node _ Hlw' _ _ Hc') as Hn'.
  exists w'. split; [done|]. split; [done|]. split; [done|]. exists c'. split_and!; [done|by eapply nd_table|].
  intros i Hi. by eapply fixed_since_all.
Qed.

(** [runFixFingers], alone, is such a sequence. *)
Lemma every_acts fuel w a k n :
  every (λ w, act creatable ReadDir fuel w a k) n w = acts creatable ReadDir fuel w (replicate n (a, k)).
Proof.
  revert w. induction n as [|n IH]; intros w; [done|]. cbn [every acts replicate].
  destruct (act creatable ReadDir fuel w a k); cbn [mbind go_bind]; [apply IH|done..].
Qed.
Lemma every_app {f : world → go world} n m w : every f (n + m) w = (w ← every f n w; every f m w).
Proof.
  revert w. induction n as [|n IH]; intros w; [done|]. cbn [every Nat.add].
  destruct (f w); cbn [mbind go_bind]; [apply IH|done..].
Qed.
Lemma runFixFingers_acts ticks fuel w a :
  runFixFingers ticks fuel w a = acts creatable ReadDir fuel w (replicate (160 + ticks) (a, FixFinger)).
Proof. rewrite <-every_acts. symmetry. exact (every_app 160 ticks w). Qed.
Lemma fixes_replicate a n : fixes a (replicate n (a, FixFinger)) = Z.of_nat n.
Proof.
  unfold fixes. induction n as [|n IH]; [done|]. cbn [replicate]. rewrite filter_cons_True by done. cbn [length]. lia.
Qed.
(** C20 The finger table converges: on a settled ring, when a node has called
    [fixFinger] 160 times, with any maintenance of any nodes in between, no step has
    failed and finger [i] is, for each of the 160 places, the node responsible for
    the key [2^i] after the node.  [runFixFingers] does so before its first tick. *)
Theorem fingers_converge r fuel w a :
  settled r w → is_Some (w !! a) → (size w < fuel)%nat →
  (∀ l, Forall (λ ak, is_Some (w !! ak.1)) l → 160 ≤ fixes a l →
    ∃ w', acts creatable ReadDir fuel w l = Ret w' ∧ same_names w w' ∧ fingers_settled r w' a) ∧
  (∀ ticks, ∃ w', runFixFingers ticks fuel w a = Ret w' ∧ same_names w w' ∧ fingers_settled r w' a).
Proof.
  intros Hw Ha Hf. split; [by intros l; apply acts_settle|]. intros ticks. rewrite runFixFingers_acts.
  apply acts_settle; [done..| |]; [by apply Forall_replicate|]. rewrite fixes_replicate. lia.
Qed.
End maintenance.

(** The loop of [findClosestPrecedingNode] starts below [client.next]: right after
    [next] has gone back to 0 the lookup ignores the whole table. *)
Lemma wrap_ignores_fingers c l hash :
  next c = 0 → findClosestPrecedingNode (with_fingers c l) hash = findClosestPrecedingNode c hash.
Proof. intros Hn. unfold findClosestPrecedingNode. cbn [next with_fingers]. by rewrite Hn. Qed.
