(* ===== verification/ChordDead.v ===== *)
(** * Chord: fingers of nodes that have left

    A lookup that is to go on at a node that has left repairs the successor list
    and starts again, but nothing removes the finger: it chooses the same node for
    ever, also when it is [fixFinger] that looks. *)
From S2P Require Import Prelude GoStrings ChordKeys Sha1 Chord ChordProof ChordLinked ChordConverge.
#[local] Open Scope Z_scope.

(** The lookup of [hash] at [a] goes on at the node at [d], which has left, although the
    successor is up and the successor list is up to date. *)
Record through_dead (w : world) (a d : string) (hash : key) (c : ChordClient) (s : finger) (ds : ChordClient)
    (l : list finger) : Prop := {
  td_node : w !! a = Some c;
  td_lock : successorLock c = false;
  td_successor : successor c = s :: l;
  td_other : IpAddress s ≠ a;
  td_live : w !! IpAddress s = Some ds;
  td_free : successorLock ds = false;
  td_list : copy_list (length (successor ds) - 1) 1 (successor ds) (successor c) = Ret (successor c);
  td_beyond : keyInBetweenRightInclusive (identifier c) (Id s) hash = false;
  td_choice : findClosestPrecedingNode c hash = Ret d;
  td_dead : w !! d = None;
}.

Lemma repair_idle fuel w a d hash c s ds l (w1 := <[a := with_lock c true]> w) :
  through_dead w a d hash c s ds l →
  Lock w a = Ret w1 ∧ checkSuccessor (S fuel) w1 a = Ret w1 ∧ updateSuccessorList (S fuel) w1 a = Ret w1 ∧
  Unlock w1 a = Ret w.
Proof.
  intros [Hc Hl Hs Ho Hds Hf Hlist _ _ _].
  assert (w1 !! a = Some (with_lock c true)) as H1 by apply lookup_insert_eq.
  assert (w1 !! IpAddress s = Some ds) as H2 by (unfold w1; by rewrite lookup_insert_ne).
  assert (index (successor (with_lock c true)) 0 = Ret s) as H0 by (cbn [successor with_lock]; by rewrite Hs).
  split_and!.
  - unfold Lock. rewrite (node_run w a c Hc). simpl. by rewrite Hl.
  - cbn [checkSuccessor]. rewrite (node_run w1 a _ H1). cbn [mbind go_bind]. rewrite H0. cbn [mbind go_bind].
    unfold askHealthNode. by rewrite H2.
  - cbn [updateSuccessorList]. rewrite (node_run w1 a _ H1). cbn [mbind go_bind]. rewrite H0. cbn [mbind go_bind].
    unfold AskSuccList. rewrite H2.
    assert (ReqSuccList ds (identifier (with_lock c true)) = Ret (successor ds)) as -> by
      (unfold ReqSuccList; rewrite Hf; by case_match).
    cbn [mbind go_bind mret go_ret]. cbn [successor with_lock]. rewrite Hlist. cbn [mbind go_bind]. f_equal. unfold w1.
    rewrite insert_insert_eq. by destruct c.
  - unfold Unlock. rewrite (node_run w1 a _ H1). cbn [mbind go_bind]. unfold w1. rewrite insert_insert_eq.
    change (Ret (<[a := with_lock (with_lock c true) false]> w) = Ret w). f_equal.
    apply insert_id. rewrite Hc. f_equal. destruct c; simpl in *. by subst.
Qed.

Lemma dead_lookup fuel w a d hash c s ds l :
  through_dead w a d hash c s ds l → findSuccessor fuel w a hash = NoFuel.
Proof.
  intros Hd. induction fuel as [|fuel IH]; [done|]. cbn [findSuccessor]. pose proof Hd as [Hc Hl Hs _ _ _ _ Hb Hch Hdead].
  rewrite (node_run w a c Hc). simpl. rewrite Hl, Hs. simpl. rewrite Hb, Hch. simpl. rewrite Hdead.
  destruct fuel as [|fuel].
  { unfold Lock. rewrite (node_run w a c Hc). simpl. by rewrite Hl. }
  destruct (repair_idle fuel w a d hash c s ds l Hd) as (-> & H1 & H2 & H3).
  cbn [mbind go_bind]. rewrite H1. cbn [mbind go_bind]. rewrite H2. cbn [mbind go_bind]. rewrite H3. exact IH.
Qed.

(** C21 A finger of a node that has left blocks the lookups that go through it: if the
    node that [findClosestPrecedingNode] names is down, the successor being up and the
    successor list up to date, [findSuccessor] tries for ever, whatever the number of
    calls it is given.  If this is the lookup by which [fixFinger] is to renew the next
    finger, the goroutine that fixes fingers never gets on, so that nothing renews the
    old finger either. *)
Theorem dead_finger_stuck w a d hash c s ds l :
  through_dead w a d hash c s ds l →
  (∀ fuel, findSuccessor fuel w a hash = NoFuel) ∧
  (∀ w0 c0, w0 !! a = Some c0 → w = <[a := with_next c0 (next_place c0)]> w0 →
    hash = keyToLook (next_place c0) (identifier c0) →
    ∀ ticks fuel, fixFinger fuel w0 a = NoFuel ∧ runFixFingers ticks fuel w0 a = NoFuel).
Proof.
  intros Hd. split; [intros fuel; by eapply dead_lookup|]. intros w0 c0 Hc0 Hw Hh ticks fuel.
  assert (fixFinger fuel w0 a = NoFuel) as Hfix.
  { unfold fixFinger. rewrite (node_run w0 a c0 Hc0). cbn [mbind go_bind]. fold (next_place c0).
    rewrite <-Hw, <-Hh. by erewrite dead_lookup. }
  split; [done|]. unfold runFixFingers.
  assert (∀ n f w', f w0 = NoFuel → w' = w0 → every f (S n) w' = NoFuel) as Hev by (intros n f w' E ->; simpl; by rewrite E).
  by rewrite (Hev 159%nat).
Qed.
