(* ===== verification/ChordLeave.v ===== *)
(** * Chord: a node leaves a settled ring

    The node before it finds the next one in its successor list, and once that one
    has noticed that its predecessor is gone, both point at each other. *)
From S2P Require Import Prelude GoStrings ChordKeys Sha1 Chord ChordProof ChordFiles ChordLinked ChordConverge.
#[local] Open Scope Z_scope.

(** Successors are up and the right ones, and known predecessors are. *)
Record pointers_right (w : world) : Prop := {
  pr_successor b c : w !! b = Some c → ∃ s l, successor c = s :: l ∧ resolves w s ∧ next_node w c s;
  pr_predecessor b c p : w !! b = Some c → predecessor c = Some p → pred_ok w c p;
}.

(** The part of [stabilize] under the lock, for a node that the others answer. *)
Lemma locked_run fuel w a c :
  w !! a = Some c → address c = a → successorLock c = false → w !! "" = None → answers w c →
  ∃ l, length (live_successor w c :: l) = length (successor c) ∧
    ∀ X (k : world → ChordClient → finger → go X),
      (w ← Lock w a; w ← stabilize_locked (3 + fuel) w a; c ← node w a; s ← index (successor c) 0;
       w ← Unlock w a; k w c s) =
      k (<[a := with_successor c (live_successor w c :: l)]> w)
        (with_lock (with_successor c (live_successor w c :: l)) true) (live_successor w c).
Proof.
  intros Hc Ha Hl He Hans. set (w1 := <[a := with_lock c true]> w).
  assert (∀ ip, is_Some (w1 !! ip) ↔ is_Some (w !! ip)) as Hdom.
  { intros ip. unfold w1. rewrite lookup_insert_is_Some'. naive_solver. }
  assert (live_successor w1 (with_lock c true) = live_successor w c) as Hlive.
  { unfold live_successor. cbn [successor with_lock identifier]. change (address (with_lock c true)) with (address c).
    do 2 f_equal. apply list_find_ext. intros f. by rewrite Hdom. }
  destruct (stabilize_repairs fuel w1 a (with_lock c true)) as (l & Hrun & Hlen & _).
  - apply lookup_insert_eq.
  - done.
  - destruct (w1 !! "") eqn:E; [|done]. destruct (proj1 (Hdom "")) as [? ?]; [by eexists|congruence].
  - intros ip d [(<- & <-)|[_ Hd]]%lookup_insert_Some; simpl; [split; [by left|apply (Hans a c Hc)]|exact (Hans ip d Hd)].
  - rewrite Hlive in Hrun, Hlen. exists l. split; [done|]. intros X k. rewrite (Lock_run _ _ _ Hc Hl). go_step. fold w1.
    rewrite Hrun. go_step. rewrite (node_run _ _ _ (lookup_insert_eq _ _ _)). go_step.
    change (index (successor _) 0) with (Ret (live_successor w c)). go_step.
    rewrite (Unlock_run _ _ (with_successor c (live_successor w c :: l))); [|apply lookup_insert_eq|done]. go_step.
    unfold w1. by rewrite !insert_insert_eq.
Qed.

Section leaving.
Context (r : nat) (w : world) (ap : string) (p x ds : ChordClient) (fx s : finger) (l lx : list finger).
Hypothesis Hw : settled r w.
Hypothesis Hp : w !! ap = Some p.
Hypothesis Hps : successor p = fx :: s :: l.
Hypothesis Hx : w !! IpAddress fx = Some x.
Hypothesis Hxs : successor x = s :: lx.
Hypothesis Hs : w !! IpAddress s = Some ds.
Hypothesis Hpx : IpAddress fx ≠ ap.
Hypothesis Hsp : IpAddress s ≠ ap.
Hypothesis Hsx : IpAddress s ≠ IpAddress fx.

Let w0 : world := delete (IpAddress fx) w.
Let Hlink : linked w.
Proof. apply Hw. Qed.

Lemma fx_id : identifier x = Id fx.
Proof. destruct (head_resolves w ap p fx (s :: l) Hlink Hp Hps) as (d & Hd & <-). congruence. Qed.
Lemma s_id : identifier ds = Id s.
Proof. destruct (head_resolves w _ x s lx Hlink Hx Hxs) as (d & Hd & <-). congruence. Qed.
Lemma ids_differ b b' c c' : w !! b = Some c → w !! b' = Some c' → b ≠ b' → identifier c ≠ identifier c'.
Proof. intros Hc Hc' Hne E. apply Hne. by eapply (lk_id w Hlink). Qed.

(** What the three nodes know of each other's places. *)
Lemma after_x b y : w !! b = Some y → b ≠ IpAddress fx → dist (identifier x) (Id s) ≤ dist (identifier x) (identifier y).
Proof.
  intros Hy Hb. apply (proj2 Hw _ x s lx Hx Hxs b y Hy). by eapply ids_differ.
Qed.
Lemma after_p b y : w !! b = Some y → b ≠ ap → dist (identifier p) (Id fx) ≤ dist (identifier p) (identifier y).
Proof. intros Hy Hb. apply (proj2 Hw _ p fx _ Hp Hps b y Hy). by eapply ids_differ. Qed.

Lemma keys b y : w !! b = Some y → key_ok (identifier y) ∧ 0 ≤ key_Z (identifier y) < ring.
Proof. intros Hy. pose proof (linked_key _ _ _ Hlink Hy). split; [done|by apply key_Z_bound]. Qed.

Lemma s_next : next_node w0 p s.
Proof.
  intros b y [Hb Hy]%lookup_delete_Some Hne. rewrite <-s_id. split; [by eapply ids_differ|].
  pose proof (after_x b y Hy (not_eq_sym Hb)) as H1. pose proof (after_x ap p Hp (not_eq_sym Hpx)) as H2.
  assert (b ≠ ap) as Hba by (intros ->; congruence).
  pose proof (after_p b y Hy Hba) as H3. pose proof (after_p _ ds Hs Hsp) as H4.
  rewrite <-fx_id, <-s_id in *.
  destruct (keys _ _ Hp) as [Kp ?], (keys _ _ Hx) as [Kx ?], (keys _ _ Hs) as [Ks ?], (keys _ _ Hy) as [Ky ?].
  pose proof (ids_differ _ _ _ _ Hs Hx Hsx) as N1. rewrite same_iff_Z in Hne, N1 by done.
  destruct (dist_cases (identifier p) (identifier x) Kp Kx), (dist_cases (identifier p) (identifier y) Kp Ky),
    (dist_cases (identifier p) (identifier ds) Kp Ks), (dist_cases (identifier x) (identifier ds) Kx Ks),
    (dist_cases (identifier x) (identifier y) Kx Ky), (dist_cases (identifier x) (identifier p) Kx Kp); lia.
Qed.

(** Nobody else points at the node that leaves. *)
Lemma only_p b y f lf : w !! b = Some y → b ≠ ap → b ≠ IpAddress fx → successor y = f :: lf → IpAddress f ≠ IpAddress fx.
Proof.
  intros Hy Hba Hbx Hf E. pose proof (head_resolves w b y f lf Hlink Hy Hf) as (d & Hd & Hid).
  rewrite E, Hx in Hd. injection Hd as <-.
  destruct (proj2 Hw _ y f lf Hy Hf ap p Hp) as [_ H1]; [by eapply ids_differ|]. rewrite <-Hid in H1.
  pose proof (after_p b y Hy Hba) as H2. rewrite <-fx_id in H2.
  destruct (keys _ _ Hp) as [Kp ?], (keys _ _ Hx) as [Kx ?], (keys _ _ Hy) as [Ky ?].
  pose proof (ids_differ _ _ _ _ Hp Hy (not_eq_sym Hba)) as N1. pose proof (ids_differ _ _ _ _ Hp Hx (not_eq_sym Hpx)) as N2.
  pose proof (ids_differ _ _ _ _ Hy Hx Hbx) as N3. rewrite same_iff_Z in N1, N2, N3 by done.
  destruct (dist_cases (identifier p) (identifier x) Kp Kx), (dist_cases (identifier y) (identifier x) Ky Kx),
    (dist_cases (identifier p) (identifier y) Kp Ky), (dist_cases (identifier y) (identifier p) Ky Kp); lia.
Qed.
Lemma only_s b y q : w !! b = Some y → b ≠ IpAddress fx → predecessor y = Some q → IpAddress q = IpAddress fx → b = IpAddress s.
Proof.
  intros Hy Hbx Hq E. destruct (nr_predecessor _ _ (proj1 Hw) _ _ _ Hy Hq) as ((d & Hd & Hid) & _ & Hn).
  rewrite E, Hx in Hd. injection Hd as <-. destruct (decide (b = IpAddress s)) as [|Hbs]; [done|]. exfalso.
  specialize (Hn _ ds Hs (ids_differ _ _ _ _ Hs Hy (not_eq_sym Hbs))). rewrite <-Hid in Hn.
  pose proof (after_x b y Hy Hbx) as H1. rewrite <-s_id in H1.
  destruct (keys _ _ Hs) as [Ks ?], (keys _ _ Hx) as [Kx ?], (keys _ _ Hy) as [Ky ?].
  pose proof (ids_differ _ _ _ _ Hs Hy (not_eq_sym Hbs)) as N1. pose proof (ids_differ _ _ _ _ Hs Hx Hsx) as N2.
  pose proof (ids_differ _ _ _ _ Hy Hx Hbx) as N3. rewrite same_iff_Z in N1, N2, N3 by done.
  destruct (dist_cases (identifier x) (identifier y) Kx Ky), (dist_cases (identifier ds) (identifier y) Ks Ky),
    (dist_cases (identifier x) (identifier ds) Kx Ks); lia.
Qed.

(** The successor has known the node that leaves. *)
Lemma pred_is_x q : predecessor ds = Some q → q = fx.
Proof.
  intros Hq. destruct (nr_predecessor _ _ (proj1 Hw) _ _ _ Hs Hq) as (Hr & _ & Hn).
  pose proof Hr as (d & Hd & Hid).
  assert (IpAddress q = IpAddress fx) as E.
  { destruct (decide (IpAddress q = IpAddress fx)) as [|Hqx]; [done|]. exfalso.
    specialize (Hn _ x Hx (ids_differ _ _ _ _ Hx Hs (not_eq_sym Hsx))).
    pose proof (after_x _ d Hd Hqx) as H1. rewrite <-s_id, <-Hid in *.
    assert (IpAddress q ≠ IpAddress s) as Hqs by (intros E; apply Hsx; pose proof (nr_predecessor _ _ (proj1 Hw) _ _ _ Hs Hq) as (_ & N & _); congruence).
    destruct (keys _ _ Hs) as [Ks ?], (keys _ _ Hx) as [Kx ?], (keys _ _ Hd) as [Kd ?].
    pose proof (ids_differ _ _ _ _ Hd Hx Hqx) as N1. pose proof (ids_differ _ _ _ _ Hd Hs Hqs) as N2.
    pose proof (ids_differ _ _ _ _ Hs Hx Hsx) as N3. rewrite same_iff_Z in N1, N2, N3 by done.
    destruct (dist_cases (identifier d) (identifier ds) Kd Ks), (dist_cases (identifier x) (identifier ds) Kx Ks),
      (dist_cases (identifier x) (identifier d) Kx Kd); lia. }
  assert (∀ f g : finger, Id f = Id g → IpAddress f = IpAddress g → f = g) as Hext by (intros [] []; simpl; congruence).
  apply Hext; [|done]. rewrite E, Hx in Hd. injection Hd as <-. by rewrite <-Hid, fx_id.
Qed.

Lemma x_between : keyInBetweenExclusive (identifier p) (Id s) (Id fx) = true.
Proof.
  rewrite <-s_id, <-fx_id. destruct (keys _ _ Hp) as [Kp Zp], (keys _ _ Hx) as [Kx Zx], (keys _ _ Hs) as [Ks Zs].
  apply between_exclusive; [done..|]. pose proof (after_p _ ds Hs Hsp) as A1. rewrite <-fx_id in A1.
  pose proof (ids_differ _ _ _ _ Hp Hx (not_eq_sym Hpx)) as N1. pose proof (ids_differ _ _ _ _ Hs Hx Hsx) as N2.
  rewrite same_iff_Z in N1, N2 by done.
  destruct (dist_cases (identifier p) (identifier x) Kp Kx), (dist_cases (identifier p) (identifier ds) Kp Ks); lia.
Qed.
Lemma p_outside : keyInBetweenExclusive (Id fx) (identifier ds) (identifier p) = false.
Proof.
  rewrite <-fx_id. destruct (keys _ _ Hp) as [Kp Zp], (keys _ _ Hx) as [Kx Zx], (keys _ _ Hs) as [Ks Zs].
  apply not_true_iff_false. rewrite between_exclusive by done. intros [_ [H|H]].
  - pose proof (after_x ap p Hp (not_eq_sym Hpx)) as A1. rewrite <-s_id in A1. lia.
  - by apply (ids_differ _ _ _ _ Hs Hx Hsx).
Qed.

(** ** The steps *)
(** The node before the one that left has the successors [L], the node after it is [d]. *)
Let W (L : list finger) (d : ChordClient) : world := <[IpAddress s := d]> (<[ap := with_successor p L]> w0).

Lemma W_s L d : W L d !! IpAddress s = Some d.
Proof. apply lookup_insert_eq. Qed.
Lemma W_p L d : W L d !! ap = Some (with_successor p L).
Proof. unfold W. by rewrite lookup_insert_ne, lookup_insert_eq. Qed.
Lemma W_back L d b y : W L d !! b = Some y →
  (b = IpAddress s ∧ y = d) ∨ (b = ap ∧ y = with_successor p L) ∨
  (b ≠ IpAddress s ∧ b ≠ ap ∧ b ≠ IpAddress fx ∧ w !! b = Some y).
Proof.
  unfold W. intros [[<- <-]|[H1 [[<- <-]|[H2 [H3 H4]%lookup_delete_Some]]%lookup_insert_Some]]%lookup_insert_Some; auto.
  right. right. split_and!; congruence.
Qed.
Lemma W_x L d : W L d !! IpAddress fx = None.
Proof. unfold W. rewrite !lookup_insert_ne by congruence. apply lookup_delete_eq. Qed.
Lemma W_start : W (successor p) ds = w0.
Proof.
  unfold W. rewrite (insert_id w0 ap); [apply insert_id|]; unfold w0; rewrite lookup_delete_ne by congruence; [done|].
  rewrite Hp. f_equal. by destruct p.
Qed.
Lemma W_answers L q : length L = r → answers (W L (with_predecessor ds q)) (with_successor p L).
Proof.
  intros HL b y Hy. cbn [successor with_successor].
  assert (∀ b y, w !! b = Some y → successorLock y = false ∧ (0 < length (successor y) ≤ length L)%nat) as Hok.
  { intros b' y' Hy'. pose proof (lk_node _ Hlink _ _ Hy') as Hn. split; [apply Hn|].
    rewrite HL, (rl_length _ _ (proj1 Hw) _ _ Hy'). destruct (nd_succ _ _ _ Hn) as (? & ? & E & _).
    rewrite <-(rl_length _ _ (proj1 Hw) _ _ Hy'), E. simpl. lia. }
  apply W_back in Hy as [[-> ->]|[[-> ->]|(_ & _ & _ & Hy)]]; cbn [successor with_successor with_predecessor].
  - destruct (Hok _ _ Hs). auto.
  - split; [by left|]. destruct (Hok _ _ Hs). lia.
  - destruct (Hok _ _ Hy). auto.
Qed.

Context (creatable : string → bool) (ReadDir : gmap string string → list string).

Lemma W_again L l' d : <[ap := with_successor (with_successor p L) l']> (W L d) = W l' d.
Proof. unfold W. rewrite (insert_insert_ne _ ap) by done. by rewrite insert_insert_eq. Qed.
Lemma W_tell L d d' : <[IpAddress s := d']> (W L d) = W L d'.
Proof. unfold W. by rewrite insert_insert_eq. Qed.

(** The successor's predecessor is between, but dead. *)
Lemma adopt_in_vain fuel l' d : adopt fuel (W (s :: l') d) ap s fx = Ret (W (s :: l') d, s).
Proof.
  unfold adopt. pose proof (lk_node _ Hlink _ _ Hp) as Hn. set (c := with_successor p (s :: l')).
  rewrite (node_run _ _ _ (W_p _ _)). go_step. cbn [identifier with_successor]. rewrite x_between. cbn [negb].
  rewrite (Lock_run _ _ _ (W_p _ _) (nd_lock _ _ _ Hn)). go_step.
  rewrite (node_run _ _ _ (lookup_insert_eq _ _ _)). go_step.
  change (index (successor _) 0) with (Ret s). go_step. cbn [identifier with_lock with_successor]. rewrite x_between.
  unfold askHealthNode. rewrite lookup_insert_ne, W_x by congruence. cbn [andb mbind go_bind mret go_ret fst snd].
  rewrite (Unlock_run _ _ c); [|apply lookup_insert_eq|apply Hn]. go_step.
  rewrite insert_insert_eq, insert_id by apply W_p. done.
Qed.

Lemma told L q : (q = Some fx ∨ q = None) →
  askUpdatePredecessor (W L (with_predecessor ds q)) (with_successor p L) (IpAddress s) =
  (W L (with_predecessor ds (if q is Some _ then q else Some (me p))), bool_decide (q = None)).
Proof.
  intros Hq. unfold askUpdatePredecessor. rewrite W_s. unfold ReqUpdatePredecessor, notify, sameKey.
  cbn [identifier with_successor with_predecessor predecessor Id].
  change (address (with_successor p L)) with (address p). fold (me p).
  pose proof (ids_differ _ _ _ _ Hs Hp Hsp) as N1. pose proof (ids_differ _ _ _ _ Hp Hx (not_eq_sym Hpx)) as N2.
  rewrite fx_id in N2. rewrite bool_decide_false by done. destruct Hq as [-> | ->].
  - rewrite bool_decide_false, p_outside by done. cbn [orb Done]. by rewrite W_tell.
  - cbn [Done]. by rewrite W_tell.
Qed.

(** One [stabilize]: it cannot adopt the dead predecessor of its successor, and tells
    the successor of itself in vain; once that one has none, it becomes it. *)
Lemma stabilize_after fuel L q :
  length L = r → live_successor (W L (with_predecessor ds q)) (with_successor p L) = s → (q = Some fx ∨ q = None) →
  ∃ l', length (s :: l') = r ∧ stabilize creatable ReadDir (3 + fuel) (W L (with_predecessor ds q)) ap =
    Ret (W (s :: l') (with_predecessor ds (if q is Some _ then q else Some (me p)))).
Proof.
  intros HL Hlive Hq. set (D := with_predecessor ds q) in *.
  pose proof (lk_node _ Hlink _ _ Hp) as Hn.
  destruct (locked_run fuel (W L D) ap (with_successor p L)) as (l' & Hlen & Hrun); [apply W_p|apply Hn..| | |].
  { destruct (W L D !! "") as [y|] eqn:E; [|done]. exfalso.
    apply W_back in E as [[E _]|[[E _]|(_ & _ & _ & E)]].
    - by eapply (head_nonempty r w); [apply Hw|eexists; split; [exact Hs|apply s_id]|].
    - rewrite <-E in Hn. destruct Hn. unfold address in *. by destruct (myIp p).
    - pose proof (lk_node _ Hlink _ _ E) as []. unfold address in *. by destruct (myIp y). }
  { by apply W_answers. }
  exists l'. rewrite Hlive in Hlen, Hrun. split; [by rewrite Hlen|].
  unfold stabilize, stabilize_ring.
  rewrite Hrun, W_again. unfold askGetPredecessor. rewrite W_s. unfold ReqGetPredecessor.
  assert (node (W (s :: l') D) ap = Ret (with_successor p (s :: l'))) as Hnode by (apply node_run, W_p).
  pose proof (told (s :: l') q Hq) as Htold. fold D in Htold. cbn [predecessor with_predecessor D].
  destruct Hq as [-> | ->]; cbn [negb].
  - rewrite adopt_in_vain. go_step. rewrite Hnode. go_step. by rewrite Htold.
  - rewrite Hnode. go_step. by rewrite Htold.
Qed.

Lemma live_s L d : (∃ l', L = s :: l') ∨ L = fx :: s :: l → live_successor (W L d) (with_successor p L) = s.
Proof.
  assert (IpAddress s ≠ "") as Hne by (eapply (head_nonempty r w); [apply Hw|eexists; split; [exact Hs|apply s_id]]).
  assert (is_Some (W L d !! IpAddress s)) as Hsome by (exists d; apply W_s).
  unfold live_successor. cbn [successor with_successor]. intros [[l' ->] | ->]; cbn [list_find].
  - by rewrite decide_True.
  - rewrite decide_False by (rewrite W_x; by intros [_ [? ?]]). by rewrite decide_True.
Qed.

Lemma runs fuel q : predecessor ds = Some q →
  ∃ l', acts creatable ReadDir (3 + fuel) w0
    [(ap, Stabilize); (IpAddress s, CheckPredecessor); (ap, Stabilize)] =
    Ret (W (s :: l') (with_predecessor ds (Some (me p)))).
Proof.
  intros Hq. pose proof (pred_is_x q Hq) as ->.
  assert (with_predecessor ds (Some fx) = ds) as Hds by (rewrite <-Hq; by destruct ds).
  destruct (stabilize_after fuel (successor p) (Some fx)) as (l1 & Hl1 & H1); [|apply live_s; auto|by left|].
  { by apply (rl_length _ _ (proj1 Hw) _ _ Hp). }
  rewrite Hds, W_start in H1.
  destruct (stabilize_after fuel (s :: l1) None) as (l2 & _ & H2); [done|apply live_s; eauto|by right|].
  exists l2. cbn [acts act]. rewrite H1. go_step. unfold check_predecessor.
  rewrite (node_run _ _ _ (W_s _ _)). go_step. rewrite Hq. unfold askHealthNode. rewrite W_x.
  cbn [mret go_ret mbind go_bind]. rewrite W_tell, H2. done.
Qed.

(** ** The ring afterwards *)
Lemma W_names L q : same_names w0 (W L (with_predecessor ds q)).
Proof.
  assert (same_names w0 (<[ap := with_successor p L]> w0)) as H0.
  { apply (same_names_insert _ _ p); [|done..]. unfold w0. by rewrite lookup_delete_ne. }
  eapply same_names_trans; [exact H0|]. apply (same_names_insert _ _ ds); [|done..].
  unfold w0. by rewrite lookup_insert_ne, lookup_delete_ne by congruence.
Qed.

Lemma left_resolves f : resolves w f → IpAddress f ≠ IpAddress fx → resolves w0 f.
Proof. intros (d & Hd & Hid) Hne. exists d. unfold w0. by rewrite lookup_delete_ne by congruence. Qed.

Lemma others_successor b y : w !! b = Some y → b ≠ ap → b ≠ IpAddress fx →
  ∃ f lf, successor y = f :: lf ∧ resolves w0 f ∧ next_node w0 y f.
Proof.
  intros Hy Hba Hbx. destruct (nd_succ _ _ _ (lk_node _ Hlink _ _ Hy)) as (f & lf & Hf & _).
  exists f, lf. split; [done|]. split.
  - apply left_resolves; [by eapply head_resolves|by eapply only_p].
  - intros b' z [_ Hz]%lookup_delete_Some. exact (proj2 Hw b y f lf Hy Hf b' z Hz).
Qed.

Lemma others_predecessor b y q : w !! b = Some y → b ≠ IpAddress s → b ≠ IpAddress fx → predecessor y = Some q →
  pred_ok w0 y q.
Proof.
  intros Hy Hbs Hbx Hq. destruct (nr_predecessor _ _ (proj1 Hw) _ _ _ Hy Hq) as (Hr & Hne & Hn).
  split; [|split; [done|]].
  - apply left_resolves; [done|]. intros E. apply Hbs. by eapply only_s.
  - intros b' z [_ Hz]%lookup_delete_Some. by apply (Hn b').
Qed.

Lemma p_before_s : pred_ok w0 ds (me p).
Proof.
  pose proof (lk_node _ Hlink _ _ Hp) as Hn. split; [|split].
  - apply left_resolves; [exists p|]; cbn; rewrite (nd_address _ _ _ Hn); done.
  - cbn. by eapply ids_differ.
  - intros b z Hz Hzs. pose proof Hz as [_ Hz']%lookup_delete_Some. cbn [me Id].
    apply nearest_back; [by eapply keys..| |done|]; [by eapply ids_differ|].
    rewrite s_id. intros Hzp. by apply (s_next b z Hz).
Qed.

Lemma W_right l' : pointers_right (W (s :: l') (with_predecessor ds (Some (me p)))).
Proof.
  pose proof (W_names (s :: l') (Some (me p))) as Hn. constructor.
  - intros b c Hc.
    assert (∃ c0 f lf, successor c = f :: lf ∧ identifier c = identifier c0 ∧ resolves w0 f ∧ next_node w0 c0 f)
      as (c0 & f & lf & Hf & Hid & Hr & Hnx).
    { apply W_back in Hc as [[-> ->]|[[-> ->]|(Hbs & Hba & Hbx & Hc)]].
      - destruct (others_successor _ _ Hs Hsp Hsx) as (f & lf & ? & ? & ?). exists ds, f, lf. by split_and!.
      - exists p, s, l'. split_and!; [done|done| |apply s_next]. apply left_resolves; [|done].
        exists ds. split; [done|apply s_id].
      - destruct (others_successor _ _ Hc Hba Hbx) as (f & lf & ? & ? & ?). exists c, f, lf. by split_and!. }
    exists f, lf. split_and!; [done|by eapply resolves_names|by eapply next_node_names].
  - intros b c q Hc Hq.
    assert (∃ c0, identifier c = identifier c0 ∧ pred_ok w0 c0 q) as (c0 & Hid & Hok).
    { apply W_back in Hc as [[-> ->]|[[-> ->]|(Hbs & Hba & Hbx & Hc)]].
      - injection Hq as <-. exists ds. split; [done|apply p_before_s].
      - exists p. split; [done|]. apply (others_predecessor ap); [done|by apply not_eq_sym..|done].
      - exists c. split; [done|by eapply others_predecessor]. }
    by eapply pred_ok_names.
Qed.
End leaving.

(** C22 A node that leaves a settled ring of at least three is healed over: let the
    node at [ap] have the one that leaves for its successor, with the leaver's own
    successor [s] next in its list (so that nodes keep at least two successors), and
    let [s] know a predecessor.  One [stabilize] at [ap], one [check_predecessor] at the successor's and a second
    [stabilize] at [ap] terminate, and then every successor and every known predecessor
    is up and the right one again; the two neighbours know each other, and no other
    node has been changed. *)
Theorem leave_recovers creatable ReadDir r fuel w ap p fx x s ds l lx q :
  settled r w →
  w !! ap = Some p → successor p = fx :: s :: l →
  w !! IpAddress fx = Some x → successor x = s :: lx →
  w !! IpAddress s = Some ds → predecessor ds = Some q →
  NoDup [ap; IpAddress fx; IpAddress s] →
  ∃ w' p' ds' l', acts creatable ReadDir (3 + fuel) (delete (IpAddress fx) w)
      [(ap, Stabilize); (IpAddress s, CheckPredecessor); (ap, Stabilize)] = Ret w' ∧
    pointers_right w' ∧ same_names (delete (IpAddress fx) w) w' ∧
    w' !! ap = Some p' ∧ successor p' = s :: l' ∧
    w' !! IpAddress s = Some ds' ∧ predecessor ds' = Some (me p) ∧
    ∀ b, b ≠ ap → b ≠ IpAddress s → w' !! b = delete (IpAddress fx) w !! b.
Proof.
  intros Hw Hp Hps Hx Hxs Hs Hq [H1 [H2 _]%NoDup_cons]%NoDup_cons.
  rewrite !elem_of_cons in H1. rewrite !elem_of_cons in H2.
  assert (IpAddress fx ≠ ap ∧ IpAddress s ≠ ap ∧ IpAddress s ≠ IpAddress fx) as (Hpx & Hsp & Hsx) by naive_solver.
  destruct (runs r w ap p x ds fx s l lx Hw Hp Hps Hx Hxs Hs Hpx Hsp Hsx creatable ReadDir fuel q Hq) as (l' & Hrun).
  eexists _, _, _, l'. split; [exact Hrun|]. split; [by eapply W_right|]. split; [by eapply W_names|].
  rewrite lookup_insert_ne, !lookup_insert_eq by done. split_and!; try done.
  intros b Hba Hbs. by rewrite !lookup_insert_ne.
Qed.
