(* ===== verification/ChordJoin.v ===== *)
(** * Chord: a node joins a settled ring *)
From S2P Require Import Prelude GoStrings ChordKeys Sha1 Chord ChordProof ChordTyped ChordFiles ChordLinked ChordConverge.

(** ** Creating *)
Record fresh (r : nat) (n : ChordClient) : Prop := {
  fr_id : key_ok (identifier n);
  fr_table : fingerTable n = replicate 160 no_finger;
  fr_lock : successorLock n = false;
  fr_successor : successor n = me n :: replicate (r - 1) no_finger;
  fr_predecessor : predecessor n = None;
  fr_numSucc : numSucc n = Z.of_nat r;
  fr_next : next n = -1;
}.

Lemma create_fresh r IP port ID n : (0 < r)%nat → create IP (Z.of_nat r) port ID = Ret n → fresh r n.
Proof.
  intros Hr Hn. pose proof (create_safe r Hr IP port ID) as Hsafe. rewrite Hn in Hsafe. cbn in Hsafe.
  unfold create in Hn. apply go_bind_Ret in Hn as (id & _ & Hn).
  destruct (Z.ltb_spec (Z.of_nat r) 0); [lia|]. rewrite Nat2Z.id in Hn.
  destruct r as [|r]; [lia|]. rewrite store_lt in Hn by (rewrite length_replicate; lia). go_step in Hn.
  injection Hn as <-. constructor; try done; [apply Hsafe|]. cbn. by rewrite Nat.sub_0_r.
Qed.

Lemma resolves_insert w a x f : w !! a = None → resolves w f → resolves (<[a := x]> w) f.
Proof. intros Ha (d & Hd & Hid). exists d. split; [|done]. rewrite lookup_insert_ne; [done|congruence]. Qed.

Lemma address_nonempty c : address c ≠ "".
Proof. unfold address. by destruct (myIp c). Qed.

Lemma linked_insert w n :
  linked w → w !! address n = None → node_linked (<[address n := n]> w) (address n) n →
  (∀ b d, w !! b = Some d → identifier d ≠ identifier n) → linked (<[address n := n]> w).
Proof.
  intros Hw Ha Hn Hfresh. constructor.
  - intros b c [[<- <-]|[Hne Hc]]%lookup_insert_Some; [done|]. destruct (lk_node _ Hw _ _ Hc).
    constructor; try done. intros f Hf Hip. by apply resolves_insert, nd_entries.
  - intros b b' c c' [[<- <-]|[Hne Hc]]%lookup_insert_Some [[<- <-]|[Hne' Hc']]%lookup_insert_Some E.
    + done.
    + by destruct (Hfresh b' c' Hc').
    + by destruct (Hfresh b c Hc).
    + by apply (lk_id w Hw b b' c c').
Qed.

(** A node whose entries are its successor and nothing else. *)
Lemma joined_linked r w n s l :
  fresh r n → (0 < r)%nat → resolves w s → IpAddress s ≠ "" → l = replicate (r - 1) no_finger →
  node_linked w (address n) (with_successor n (s :: l)).
Proof.
  intros [] Hr Hs Hip ->. constructor; cbn -[replicate]; try done; try lia.
  - rewrite fr_numSucc0. cbn [length]. rewrite length_replicate. lia.
  - by rewrite fr_table0.
  - intros f Hf Hfip. rewrite fr_table0 in Hf. apply elem_of_app in Hf as [[-> _]%elem_of_replicate|Hf]; [done|].
    apply elem_of_cons in Hf as [->|[-> _]%elem_of_replicate]; done.
  - by eexists _, _.
Qed.

Lemma fresh_with_successor r n : fresh r n → with_successor n (me n :: replicate (r - 1) no_finger) = n.
Proof. intros Hf. apply (with_successor_id n). apply Hf. Qed.

Lemma me_resolves (w : world) n : w !! address n = Some n → resolves w (me n).
Proof. intros Hn. by exists n. Qed.

(** A new ring of one node is settled. *)
Lemma create_settled r IP port ID n :
  (0 < r)%nat → create IP (Z.of_nat r) port ID = Ret n → settled r {[address n := n]}.
Proof.
  intros Hr Hn. pose proof (create_fresh r IP port ID n Hr Hn) as Hf.
  assert (∀ b c, ({[address n := n]} : world) !! b = Some c → b = address n ∧ c = n) as Hall
    by (by intros b c [<- <-]%lookup_singleton_Some).
  assert (∀ f, next_node {[address n := n]} n f) as Hnext.
  { intros f a d [_ ->]%Hall Hne. done. }
  assert (({[address n := n]} : world) !! address n = Some n) as Hin by apply lookup_singleton_eq.
  split; [constructor; [constructor; [constructor|..]|..]|].
  - intros b c [-> ->]%Hall. pose proof (joined_linked r {[address n := n]} n (me n) _ Hf Hr
      (me_resolves _ _ Hin) (address_nonempty n) eq_refl) as Hl. by rewrite (fresh_with_successor r n Hf) in Hl.
  - by intros b b' c c' [-> _]%Hall [-> _]%Hall.
  - intros b c [-> ->]%Hall. rewrite (fr_successor _ _ Hf). cbn [length]. rewrite length_replicate. lia.
  - intros b c p [-> ->]%Hall. by rewrite (fr_predecessor _ _ Hf).
  - intros b d p [-> ->]%Hall. by rewrite (fr_predecessor _ _ Hf).
  - by intros b c s l [-> ->]%Hall _.
  - by intros b c s l [-> ->]%Hall _.
Qed.

(** ** Joining *)
Lemma target_right r w b x sx lx :
  near r w → w !! b = Some x → successor x = sx :: lx → next_node w x sx → target w x sx = sx.
Proof.
  intros Hw Hx Hsx Hnext. unfold target.
  destruct (head_resolves w b x sx lx Hw Hx Hsx) as (d & Hd & Hid). rewrite Hd.
  destruct (predecessor d) as [p|] eqn:Hp; [|done]. case_match eqn:Eb; [|done]. exfalso.
  pose proof (rl_predecessor _ _ Hw _ _ _ Hd Hp) as Hr. pose proof Hr as (dp & Hdp & Hpid).
  pose proof (linked_key _ _ _ Hw Hx) as Hxk. pose proof (linked_key _ _ _ Hw Hd) as Hdk.
  pose proof (resolves_key w p Hw Hr) as Hpk. rewrite <-Hid in *.
  apply between_exclusive in Eb as [Hpos Hb]; [|done..].
  destruct (Hnext _ dp Hdp) as [Hne Hle].
  - intros E. rewrite <-Hpid, E, dist_self in Hpos. lia.
  - destruct Hb as [Hb|Hb]; [rewrite Hpid, <-Hid in Hle; lia|congruence].
Qed.

Section joining.
Context (r : nat) (w : world) (n : ChordClient) (s : finger) (ds : ChordClient).
Hypothesis Hw : settled r w.
Hypothesis Hr : (0 < r)%nat.
Hypothesis Hn : fresh r n.
Hypothesis Hout : w !! address n = None.
Hypothesis Hfresh : ∀ b d, w !! b = Some d → identifier d ≠ identifier n.
Hypothesis Hs : owner w (identifier n) s.
Hypothesis Hds : w !! IpAddress s = Some ds.

Let Hnear : near r w := proj1 Hw.

Lemma owner_id : identifier ds = Id s.
Proof using Hs Hds. destruct Hs as [(d & Hd & Hid) _]. congruence. Qed.
Lemma owner_ne : identifier ds ≠ identifier n.
Proof using Hfresh Hds. by eapply Hfresh. Qed.
Lemma owner_away : IpAddress s ≠ address n.
Proof using Hout Hds. intros E. rewrite E in Hds. congruence. Qed.
Lemma owner_nearest b d : w !! b = Some d → dist (identifier n) (identifier ds) ≤ dist (identifier n) (identifier d).
Proof using Hs Hds. rewrite owner_id. apply Hs. Qed.
Lemma ds_key : key_ok (identifier ds).
Proof using Hw Hds. by apply (linked_key w (IpAddress s)); [apply Hnear|]. Qed.

(** The successor takes the new node for its predecessor. *)
Lemma notify_joined : notify ds (me n) = (with_predecessor ds (Some (me n)), true).
Proof using All.
  pose proof ds_key as Hdk. pose proof (fr_id _ _ Hn) as Hnk. unfold notify, sameKey. cbn [me Id].
  rewrite bool_decide_false by apply owner_ne. destruct (predecessor ds) as [q|] eqn:Hq; [|done].
  destruct (nr_predecessor _ _ Hnear _ _ _ Hds Hq) as ((dq & Hdq & Hqid) & Hne & _).
  pose proof (linked_key _ _ _ Hnear Hdq) as Hqk. rewrite Hqid in Hqk.
  assert (keyInBetweenExclusive (Id q) (identifier ds) (identifier n) = true) as ->; [|by rewrite orb_true_r].
  apply between_exclusive; [done..|]. pose proof (owner_nearest _ _ Hdq) as Hle. rewrite Hqid in Hle.
  pose proof (Hfresh _ _ Hdq) as Hqn. rewrite Hqid in Hqn. pose proof owner_ne as Hdn.
  rewrite !same_iff_Z in * by done. pose proof (key_Z_bound _ Hqk). pose proof (key_Z_bound _ Hnk).
  pose proof (key_Z_bound _ Hdk).
  destruct (dist_cases (Id q) (identifier n) Hqk Hnk), (dist_cases (Id q) (identifier ds) Hqk Hdk),
    (dist_cases (identifier n) (identifier ds) Hnk Hdk), (dist_cases (identifier n) (Id q) Hnk Hqk); lia.
Qed.

Definition joined : world :=
  <[address n := with_successor n (s :: replicate (r - 1) no_finger)]>
    (<[IpAddress s := with_predecessor ds (Some (me n))]> w).

(** Every node of the new world: the new one, or an old one. *)
Lemma joined_cases b x' :
  joined !! b = Some x' →
  (b = address n ∧ x' = with_successor n (s :: replicate (r - 1) no_finger)) ∨
  (b ≠ address n ∧ ∃ x, w !! b = Some x ∧ identifier x' = identifier x ∧ address x' = address x ∧
     successor x' = successor x ∧ node_kept w x x' ∧
     predecessor x' = if decide (b = IpAddress s) then Some (me n) else predecessor x).
Proof using Hw Hds.
  unfold joined. intros [[<- <-]|[Hb Hx]]%lookup_insert_Some; [by left|]. right. split; [done|].
  apply lookup_insert_Some in Hx as [[<- <-]|[Hb' Hx]].
  - exists ds. rewrite decide_True by done. split_and!; try done.
    destruct (node_kept_refl w (IpAddress s) ds Hnear Hds). by constructor.
  - exists x'. rewrite decide_False by done. split_and!; try done. by apply (node_kept_refl w b); [apply Hnear|].
Qed.

Lemma joined_in : joined !! address n = Some (with_successor n (s :: replicate (r - 1) no_finger)).
Proof. apply lookup_insert_eq. Qed.

Lemma joined_old b x : w !! b = Some x → ∃ x', joined !! b = Some x' ∧ identifier x' = identifier x.
Proof using Hout Hds.
  intros Hx. assert (address n ≠ b) as Hne by (intros E; rewrite E in Hout; congruence). unfold joined.
  rewrite lookup_insert_ne by done. destruct (decide (IpAddress s = b)) as [E|E].
  - rewrite E, lookup_insert_eq. exists (with_predecessor ds (Some (me n))). split; [done|].
    rewrite <-E in Hx. cbn. congruence.
  - rewrite lookup_insert_ne by done. by exists x.
Qed.

Lemma resolves_joined f : resolves w f → resolves joined f.
Proof using Hout Hds.
  intros (d & Hd & Hid). destruct (joined_old _ _ Hd) as (d' & Hd' & E). exists d'. split; [done|congruence].
Qed.

Lemma resolves_new : resolves joined (me n).
Proof. eexists. split; [apply joined_in|done]. Qed.

Lemma joined_regular : regular r joined.
Proof using All.
  assert (resolves w s) as Hrs by apply Hs.
  assert (node_linked joined (address n) (with_successor n (s :: replicate (r - 1) no_finger))) as Hnl.
  { apply (joined_linked r); [done|done|by apply resolves_joined| |done].
    intros E. rewrite E in Hds. pose proof (nd_address _ _ _ (lk_node _ Hnear _ _ Hds)) as Ha.
    by apply (address_nonempty ds). }
  constructor; [constructor|..].
  - intros b x' [[-> ->]|(_ & x & Hx & Ei & Ea & Es & Hk & _)]%joined_cases; [done|].
    pose proof (lk_node _ Hnear _ _ Hx) as []. destruct Hk. constructor; rewrite ?Es; try congruence; try done.
    intros f Hf Hip. apply resolves_joined. apply elem_of_app in Hf as [Hf|Hf]; [by apply kp_fingers|].
    apply nd_entries; [|done]. apply elem_of_app. by right.
  - intros b b' x y [[-> ->]|(_ & x0 & Hx & Ei & _)]%joined_cases [[-> ->]|(_ & y0 & Hy & Ej & _)]%joined_cases E.
    + done.
    + destruct (Hfresh _ _ Hy). rewrite <-Ej. by rewrite <-E.
    + destruct (Hfresh _ _ Hx). by rewrite <-Ei, E.
    + apply (lk_id w Hnear b b' x0 y0); congruence.
  - intros b x' [[-> ->]|(_ & x & Hx & _ & _ & Es & _)]%joined_cases.
    + cbn [successor with_successor length]. rewrite length_replicate. lia.
    + rewrite Es. by apply (rl_length _ _ Hnear _ _ Hx).
  - intros b x' p [[-> ->]|(_ & x & Hx & _ & _ & _ & _ & Ep)]%joined_cases Hp.
    + cbn in Hp. by rewrite (fr_predecessor _ _ Hn) in Hp.
    + rewrite Ep in Hp. case_decide; [injection Hp as <-; apply resolves_new|].
      by apply resolves_joined, (rl_predecessor _ _ Hnear _ _ _ Hx).
Qed.

(** The new node comes before none of the others' predecessors. *)
Lemma joined_pred_far d q b :
  w !! b = Some d → b ≠ IpAddress s → pred_ok w d q →
  dist (Id q) (identifier d) ≤ dist (identifier n) (identifier d).
Proof using All.
  intros Hd Hb (Hrq & Hqne & Hq). pose proof ds_key as Hdk. pose proof (fr_id _ _ Hn) as Hnk.
  pose proof (linked_key _ _ _ Hnear Hd) as Hk. pose proof (resolves_key w q Hnear Hrq) as Hqk.
  assert (identifier ds ≠ identifier d) as Hne by (intros E; apply Hb; by eapply (lk_id w Hnear)).
  pose proof (Hq _ _ Hds Hne) as H1. pose proof (owner_nearest _ _ Hd) as H2. pose proof owner_ne as H3.
  pose proof (Hfresh _ _ Hd) as H4. rewrite !same_iff_Z in * by done.
  pose proof (key_Z_bound _ Hqk). pose proof (key_Z_bound _ Hnk). pose proof (key_Z_bound _ Hdk).
  pose proof (key_Z_bound _ Hk).
  destruct (dist_cases (Id q) (identifier d) Hqk Hk), (dist_cases (identifier n) (identifier d) Hnk Hk),
    (dist_cases (identifier ds) (identifier d) Hdk Hk), (dist_cases (identifier n) (identifier ds) Hnk Hdk); lia.
Qed.

Lemma joined_pred b d' p : joined !! b = Some d' → predecessor d' = Some p → pred_ok joined d' p.
Proof using All.
  intros [[-> ->]|(_ & d & Hd & Ei & _ & _ & _ & Ep)]%joined_cases Hp.
  { cbn in Hp. by rewrite (fr_predecessor _ _ Hn) in Hp. }
  rewrite Ep in Hp. case_decide as Eb.
  - injection Hp as <-. assert (d = ds) as -> by congruence. split; [apply resolves_new|]. rewrite Ei.
    split; [by intros E; apply owner_ne|]. cbn [me Id].
    intros b' x' [[-> ->]|(_ & x & Hx & Ex & _)]%joined_cases Hne; [done|]. rewrite Ex in *.
    pose proof (owner_nearest _ _ Hx). apply nearest_back; [apply Hn|apply ds_key| |apply owner_ne|done|done].
    by apply (linked_key w b'); [apply Hnear|].
  - pose proof (nr_predecessor _ _ Hnear _ _ _ Hd Hp) as Hok. pose proof Hok as (Hrp & Hne & Hq).
    split; [by apply resolves_joined|]. rewrite Ei. split; [done|].
    intros b' x' [[-> ->]|(_ & x & Hx & Ex & _)]%joined_cases Hxne; [by apply (joined_pred_far d p b)|].
    rewrite Ex in *. by apply (Hq b').
Qed.

(** A successor elsewhere stays the right one. *)
Lemma next_elsewhere b x sx lx :
  w !! b = Some x → successor x = sx :: lx → IpAddress sx ≠ IpAddress s →
  Id sx ≠ identifier x ∧ dist (identifier x) (Id sx) ≤ dist (identifier x) (identifier n).
Proof using All.
  intros Hx Hsx Hne. pose proof (proj2 Hw b x sx lx Hx Hsx) as Hnext.
  destruct (head_resolves w b x sx lx Hnear Hx Hsx) as (d & Hd & Hid). rewrite <-Hid.
  pose proof ds_key as Hdk. pose proof (fr_id _ _ Hn) as Hnk.
  pose proof (linked_key _ _ _ Hnear Hx) as Hxk. pose proof (linked_key _ _ _ Hnear Hd) as Hk.
  assert (identifier ds ≠ identifier d) as Hdd by (intros E; apply Hne; by eapply (lk_id w Hnear)).
  pose proof (owner_nearest _ _ Hd) as H2. pose proof (Hfresh _ _ Hx) as H4. pose proof owner_ne as H3.
  assert (identifier ds ≠ identifier x →
    dist (identifier x) (identifier d) ≤ dist (identifier x) (identifier ds)) as H5.
  { intros E. rewrite Hid. by apply (Hnext _ ds Hds). }
  assert (identifier d ≠ identifier x) as H6.
  { intros E. destruct (decide (identifier ds = identifier x)) as [E'|E']; [congruence|].
    destruct (Hnext _ ds Hds E') as [H7 _]. congruence. }
  split; [done|]. pose proof (owner_nearest _ _ Hx) as H7. rewrite !same_iff_Z in * by done.
  pose proof (key_Z_bound _ Hxk). pose proof (key_Z_bound _ Hnk). pose proof (key_Z_bound _ Hdk).
  pose proof (key_Z_bound _ Hk).
  destruct (dist_cases (identifier x) (identifier d) Hxk Hk), (dist_cases (identifier x) (identifier n) Hxk Hnk),
    (dist_cases (identifier x) (identifier ds) Hxk Hdk), (dist_cases (identifier n) (identifier ds) Hnk Hdk),
    (dist_cases (identifier n) (identifier d) Hnk Hk), (dist_cases (identifier n) (identifier x) Hnk Hxk); lia.
Qed.

Lemma next_joined x' x f :
  identifier x' = identifier x → next_node w x f →
  Id f ≠ identifier x ∧ dist (identifier x) (Id f) ≤ dist (identifier x) (identifier n) →
  next_node joined x' f.
Proof using Hw Hds.
  intros Ei Hnext [H1 H2] b' y' [[-> ->]|(_ & y & Hy & Ey & _)]%joined_cases Hne; rewrite Ei in *; [done|].
  rewrite Ey in *. by apply (Hnext b').
Qed.

(** The new node's own successor. *)
Lemma next_new : next_node joined (with_successor n (s :: replicate (r - 1) no_finger)) s.
Proof using All.
  intros b' y' [[-> ->]|(_ & y & Hy & Ey & _)]%joined_cases Hne; [done|]. cbn [identifier with_successor].
  rewrite Ey, <-owner_id. split; [apply owner_ne|by apply (owner_nearest b')].
Qed.

(** A node whose successor was [s] has the new node, or still [s], next. *)
Lemma next_beside b x sx lx x' :
  w !! b = Some x → successor x = sx :: lx → IpAddress sx = IpAddress s → identifier x' = identifier x →
  next_node joined x' (if keyInBetweenExclusive (identifier x) (Id sx) (identifier n) then me n else sx).
Proof using All.
  intros Hx Hsx Hip Ei. pose proof (proj2 Hw b x sx lx Hx Hsx) as Hnext.
  destruct (head_resolves w b x sx lx Hnear Hx Hsx) as (d & Hd & Hid).
  assert (d = ds) as -> by congruence. pose proof ds_key as Hdk. pose proof (fr_id _ _ Hn) as Hnk.
  pose proof (linked_key _ _ _ Hnear Hx) as Hxk. pose proof (Hfresh _ _ Hx) as Hxn.
  pose proof (dist_bound (identifier x) (identifier n)) as Hb. pose proof (dist_zero _ _ Hxk Hnk) as Hz.
  rewrite <-Hid. destruct (keyInBetweenExclusive _ _ _) eqn:E.
  - apply between_exclusive in E as [Hpos Hlt]; [|done..].
    intros b' y' [[-> ->]|(_ & y & Hy & Ey & _)]%joined_cases Hne; rewrite Ei in *; cbn [me Id]; (split; [congruence|]).
    + done.
    + rewrite Ey in *. destruct (Hnext _ y Hy Hne) as [H1 H2]. rewrite <-Hid in *.
      destruct Hlt; [lia|congruence].
  - apply (next_joined x' x); [done|done|]. rewrite <-Hid. apply not_true_iff_false in E.
    rewrite between_exclusive in E by done. destruct (decide (identifier ds = identifier x)) as [Exd|Exd].
    + exfalso. apply E. split; [|by right]. destruct (decide (dist (identifier x) (identifier n) = 0)); [|lia].
      by apply Hz in e.
    + split; [done|]. destruct (decide (dist (identifier x) (identifier n) = 0)) as [e|]; [|lia]. by apply Hz in e.
Qed.

Lemma joined_target b x' sx lx :
  joined !! b = Some x' → successor x' = sx :: lx →
  next_node joined x' (target joined x' sx) ∧
  (next_node joined x' sx ∨ next_node joined x' (me n)).
Proof using All.
  intros [[-> ->]|(Hb & x & Hx & Ei & _ & Es & _)]%joined_cases Hsx.
  - cbn in Hsx. injection Hsx as <- _. unfold target. unfold joined at 2.
    rewrite lookup_insert_ne, lookup_insert_eq by (intros E; by apply owner_away).
    cbn [predecessor with_predecessor]. cbn [identifier with_successor me Id].
    assert (keyInBetweenExclusive (identifier n) (Id s) (identifier n) = false) as ->; [|by split; [|left]; apply next_new].
    apply (keyInBetween_spec (identifier n) (Id s) (identifier n)); [apply Hn| |apply Hn].
    rewrite <-owner_id. apply ds_key.
  - rewrite Es in Hsx. destruct (decide (IpAddress sx = IpAddress s)) as [E|E].
    + assert (target joined x' sx =
        if keyInBetweenExclusive (identifier x) (Id sx) (identifier n) then me n else sx) as ->.
      { unfold target. rewrite E. unfold joined. rewrite lookup_insert_ne, lookup_insert_eq by (intros Ea; by apply owner_away).
        cbn [predecessor with_predecessor me Id]. by rewrite Ei. }
      pose proof (next_beside b x sx lx x' Hx Hsx E Ei) as Hnext. split; [exact Hnext|]. case_match; auto.
    + pose proof (proj2 Hw b x sx lx Hx Hsx) as Hnext.
      assert (next_node joined x' sx) as Hj by (apply (next_joined x' x); [done|done|by eapply next_elsewhere]).
      assert (target joined x' sx = target w x sx) as ->.
      { unfold target. rewrite Ei. destruct (head_resolves w b x sx lx Hnear Hx Hsx) as (d & Hd & _).
        unfold joined. rewrite !lookup_insert_ne; [done|done|]. intros Ea. rewrite <-Ea in Hd. congruence. }
      rewrite (target_right r w b x sx lx Hnear Hx Hsx Hnext). by split; [|left].
Qed.

Lemma joined_near : near r joined.
Proof using All.
  constructor; [apply joined_regular|apply joined_pred|]. intros b x' sx lx Hx Hsx.
  by apply (joined_target b x' sx lx).
Qed.

Lemma joined_right b : right joined b ∨ ∃ x, joined !! b = Some x ∧ next_node joined x (me n).
Proof using All.
  destruct (joined !! b) as [x|] eqn:Hx; [|left; intros c s' l' Hc; congruence].
  destruct (nd_succ _ _ _ (lk_node _ joined_regular _ _ Hx)) as (sx & lx & Hsx & _).
  destruct (joined_target b x sx lx Hx Hsx) as [_ [H|H]]; [left|right; by exists x].
  intros c s' l' Hc Hs'. assert (c = x) as -> by congruence. by assert (s' = sx) as -> by congruence.
Qed.
End joining.

Lemma join_run r fuel w IP port ID ipc pc n b :
  settled r w → (0 < r)%nat → (S (size w) < fuel)%nat → create IP (Z.of_nat r) port ID = Ret n →
  w !! address n = None → (∀ a d, w !! a = Some d → identifier d ≠ identifier n) →
  w !! (ipc +:+ ":" +:+ Itoa pc) = Some b →
  ∃ s ds, owner w (identifier n) s ∧ w !! IpAddress s = Some ds ∧
    join fuel w IP (Z.of_nat r) port ID ipc pc = Ret (joined r w n s ds).
Proof.
  intros Hw Hr Hf Hn Hout Hfresh Hb. pose proof (create_fresh r IP port ID n Hr Hn) as Hfr.
  set (contact := ipc +:+ ":" +:+ Itoa pc) in *. set (w0 := <[address n := n]> w).
  assert (address n ≠ contact) as Hac by (intros E; rewrite E in Hout; congruence).
  assert (w0 !! address n = Some n) as Hin by apply lookup_insert_eq.
  assert (linked w0) as Hw0.
  { apply linked_insert; [apply (proj1 Hw)|done| |done].
    pose proof (joined_linked r w0 n (me n) _ Hfr Hr (me_resolves _ _ Hin) (address_nonempty n) eq_refl) as Hl.
    by rewrite (fresh_with_successor r n Hfr) in Hl. }
  assert (w0 !! contact = Some b) as Hb0 by (by unfold w0; rewrite lookup_insert_ne).
  destruct (findSuccessor_linked fuel w0 contact b (identifier n) Hw0 Hb0) as (s & Hrun & _ & a' & c' & l & H1 & H2 & H3 & H4).
  { apply Hfr. }
  { eapply Nat.le_lt_trans; [apply between_set_size|]. unfold w0. by rewrite map_size_insert_None. }
  assert (w !! a' = Some c') as H1'.
  { unfold w0 in H1. rewrite lookup_insert_ne in H1; [done|]. intros <-. rewrite lookup_insert_eq in H1.
    injection H1 as <-. apply (H4 (Hfresh _ _ Hb)). done. }
  pose proof (head_resolves w a' c' s l (proj1 Hw) H1' H2) as Hrs. pose proof Hrs as (ds & Hds & _).
  assert (owner w (identifier n) s) as Hown.
  { apply (successor_owner w a' c' s l); try done; [by eapply settled_ring_ok|by apply (proj2 Hw a' c' s l)|apply Hfr]. }
  exists s, ds. split; [done|]. split; [done|]. unfold join. rewrite Hn. go_step. cbv zeta. fold contact w0.
  unfold askFindSuccessor, ReqFindSuccessor. rewrite Hb0. unfold sameKey.
  rewrite bool_decide_false by (intros E; by apply (Hfresh _ _ Hb)). rewrite Hrun.
  cbn [mbind go_bind mret go_ret fst snd].
  rewrite (set_head_run _ _ _ _ _ s Hin (fr_successor _ _ Hfr)). go_step. unfold w0. rewrite insert_insert_eq.
  rewrite (node_run _ _ _ (lookup_insert_eq _ _ _)). go_step. unfold askUpdatePredecessor.
  assert (address n ≠ IpAddress s) as Has by (intros E; rewrite E in Hout; congruence).
  rewrite lookup_insert_ne, Hds by done. unfold ReqUpdatePredecessor.
  change (mkFinger (identifier _) (address _)) with (me n).
  rewrite (notify_joined r w n s ds Hw Hr Hfr Hout Hfresh Hown Hds). cbn [Done].
  unfold joined. by rewrite insert_insert_ne.
Qed.

(** C19 A ring grows: a node that joins a settled ring through any of its members is told
    its successor and accepted by it, and whatever maintenance the nodes then run - in
    any order and number, files being stored meanwhile - no step fails, and once the
    node whose successor the new one now is has stabilized, the ring is settled again: every
    node has the right successor, every known predecessor is right, and every lookup
    names the node responsible. *)
Theorem join_converges r fuel w IP port ID ipc pc n b creatable ReadDir :
  settled r w → (0 < r)%nat → (S (size w) < fuel)%nat → create IP (Z.of_nat r) port ID = Ret n →
  w !! address n = None → (∀ a d, w !! a = Some d → identifier d ≠ identifier n) →
  w !! (ipc +:+ ":" +:+ Itoa pc) = Some b → lists_files ReadDir →
  ∃ w1, join fuel w IP (Z.of_nat r) port ID ipc pc = Ret w1 ∧
    (∀ a, is_Some (w1 !! a) ↔ a = address n ∨ is_Some (w !! a)) ∧
    ∀ l, Forall (λ ak, is_Some (w1 !! ak.1)) l →
      (∀ a x, w1 !! a = Some x → next_node w1 x (me n) → (a, Stabilize) ∈ l) →
      ∃ w2, acts creatable ReadDir fuel w1 l = Ret w2 ∧ settled r w2 ∧ same_names w1 w2 ∧
        ∀ a c hash, w2 !! a = Some c → key_ok hash →
          ∃ s, findSuccessor fuel w2 a hash = Ret (w2, s) ∧ owner w2 hash s.
Proof.
  intros Hw Hr Hf Hn Hout Hfresh Hb HRD.
  destruct (join_run r fuel w IP port ID ipc pc n b Hw Hr Hf Hn Hout Hfresh Hb) as (s & ds & Hs & Hds & ->).
  pose proof (create_fresh r IP port ID n Hr Hn) as Hfr.
  pose proof (joined_near r w n s ds Hw Hr Hfr Hout Hfresh Hs Hds) as Hnear.
  assert (size (joined r w n s ds) < fuel)%nat as Hf1.
  { unfold joined. rewrite map_size_insert_None.
    - by rewrite map_size_insert_Some by eauto.
    - rewrite lookup_insert_ne; [done|]. intros E. rewrite <-E in Hout. congruence. }
  exists (joined r w n s ds). split; [done|]. split.
  { intros a. unfold joined. rewrite !lookup_insert_is_Some'. naive_solver. }
  intros l Hl Hall.
  destruct (acts_near creatable ReadDir HRD r fuel _ l Hnear Hl Hf1) as (w2 & Hrun & Hn2 & Hsn & Hkeep & Hst).
  assert (settled r w2) as Hset.
  { split; [done|]. intros a. destruct (joined_right r w n s ds Hw Hr Hfr Hout Hfresh Hs Hds a) as [H|(x & Hx & H)];
      [by apply Hkeep|]. by eapply Hst, Hall. }
  exists w2. split_and!; [done..|]. intros a c hash Hc Hk.
  apply (findSuccessor_run fuel w2 a c); [by eapply settled_ring_ok|done|done|].
  eapply Nat.le_lt_trans; [apply between_set_size|]. by rewrite (same_names_size _ _ Hsn).
Qed.
