(* ===== verification/ChordExample.v ===== *)
(** * Chord: concrete rings *)
From S2P Require Import Prelude GoStrings ChordKeys Sha1 Chord ChordProof ChordTyped ChordFiles ChordLinked ChordConverge ChordFingers ChordDead ChordLeave ChordJoin.

Definition ex_node (id : Z) (ip port : string) (succ : list finger) (pred : option finger) : ChordClient :=
  mkClient (small_key id) (replicate 160 no_finger) false succ pred ip port (Z.of_nat (length succ)) (-1) ∅.
Definition f1 : finger := mkFinger (small_key 50) "h1:1".
Definition f2 : finger := mkFinger (small_key 200) "h2:2".
Definition n1 : ChordClient := ex_node 50 "h1" "1" [f2] None.
Definition n2 : ChordClient := ex_node 200 "h2" "2" [f1] (Some f1).
(** Two nodes, each the other's successor. *)
Definition ex_ring : world := {["h1:1" := n1; "h2:2" := n2]}.

Lemma ex_ring_cases a c : ex_ring !! a = Some c → (a = "h1:1" ∧ c = n1) ∨ (a = "h2:2" ∧ c = n2).
Proof.
  unfold ex_ring. intros [[<- <-]|[_ [<- <-]%lookup_singleton_Some]]%lookup_insert_Some; auto.
Qed.

Lemma ex_node_linked w id ip port succ pred a s l :
  0 ≤ id < 256 → a = ip +:+ ":" +:+ port → succ = s :: l → IpAddress s ≠ "" →
  Forall (resolves w) succ → node_linked w a (ex_node id ip port succ pred).
Proof.
  intros Hid -> -> Hip Hres. constructor; try done.
  - by apply small_key_ok.
  - cbn. intros f Hf Hfip. apply (elem_of_app (replicate 160 no_finger)) in Hf as [Hf|Hf].
    + apply elem_of_replicate in Hf as [-> _]. done.
    + rewrite Forall_forall in Hres. auto.
  - exists s, l. done.
Qed.

Lemma ex_ring_linked : linked ex_ring.
Proof.
  constructor.
  - intros a c [[-> ->]|[-> ->]]%ex_ring_cases; (eapply ex_node_linked; [lia|done|done|done|]);
      repeat constructor; [by exists n2|by exists n1].
  - intros a a' c c' [[-> ->]|[-> ->]]%ex_ring_cases [[-> ->]|[-> ->]]%ex_ring_cases E; done.
Qed.

Lemma ex_ring_ok : ring_ok ex_ring.
Proof.
  constructor; [apply ex_ring_linked|].
  intros a c s l [[-> ->]|[-> ->]]%ex_ring_cases [= <- _] b d [[-> ->]|[-> ->]]%ex_ring_cases Hne;
    try done; (split; [done|simpl; lia]).
Qed.

Lemma findSuccessor_stable_witness :
  ∃ s, findSuccessor 3 ex_ring "h1:1" (small_key 201) = Ret (ex_ring, s) ∧
    owner ex_ring (small_key 201) s.
Proof.
  apply (findSuccessor_stable 3 ex_ring "h1:1" n1);
    [apply ex_ring_ok|reflexivity|apply small_key_ok; lia|vm_compute; lia].
Defined.

Lemma store_lookup_witness :
  ∃ w' rs, StoreFile (λ _, true) 3 ex_ring "h1:1" "f" "data" = Ret w' ∧ ring_ok w' ∧ length rs = 3%nat ∧
    lookup 4 w' "h2:2" "f" = Ret (w', rs ≫= λ os, [os.1; os.2]) ∧
    ∀ j os, rs !! j = Some os →
      owner w' (keyToLook (Z.of_nat j * 100) (Sum (bytes "f"))) os.1 ∧
      AskGetFile w' (IpAddress os.1) "f" = ("data", true).
Proof.
  apply (store_lookup (λ _, true) 3 ex_ring "h1:1" "h2:2" n1 n2);
    [apply ex_ring_ok|reflexivity|reflexivity|vm_compute; lia|reflexivity].
Defined.


Lemma ex_answers : answers ex_ring n1.
Proof. intros a d [[-> ->]|[-> ->]]%ex_ring_cases; (split; [by right|simpl; lia]). Qed.

Lemma stabilize_deadlock_witness :
  ∃ w1 w2, Lock ex_ring "h1:1" = Ret w1 ∧ Lock w1 "h2:2" = Ret w2 ∧
    stabilize_locked 9 w2 "h1:1" = Blocked ∧ stabilize_locked 9 w2 "h2:2" = Blocked ∧
    findSuccessor 9 w2 "h1:1" (small_key 1) = Blocked ∧ findSuccessor 9 w2 "h2:2" (small_key 1) = Blocked.
Proof.
  apply (stabilize_deadlock 8 ex_ring "h1:1" "h2:2" n1 n2 f1 f2 [] []);
    [reflexivity|reflexivity|discriminate|reflexivity..].
Defined.

(** [findClosestPrecedingNode] compares the two candidates as numbers, not by
    their distance: here it names node 200 although node 20 precedes 50 more
    closely. *)
Definition wrapped : ChordClient :=
  mkClient (small_key 100) (<[O := f2]> (replicate 160 no_finger)) false
    [f2; mkFinger (small_key 20) "h3:3"] None "h0" "0" 2 1 ∅.
Lemma closest_not_closest :
  findClosestPrecedingNode wrapped (small_key 50) = Ret "h2:2" ∧
  dist (small_key 20) (small_key 50) < dist (small_key 200) (small_key 50).
Proof. split; vm_compute; reflexivity. Qed.

Lemma ex_node_typed id ip port succ pred :
  0 ≤ id < 256 → Forall (λ f, key_ok (Id f)) succ → (∀ p, pred = Some p → key_ok (Id p)) →
  client_typed (length succ) (ex_node id ip port succ pred).
Proof.
  intros Hid Hs Hp. constructor; cbn -[replicate]; try done.
  - by apply small_key_ok.
  - apply Forall_replicate, no_finger_typed.
Qed.
Lemma ex_ring_typed : world_typed 1 ex_ring.
Proof.
  intros a c [[-> ->]|[-> ->]]%ex_ring_cases; (apply (ex_node_typed _ _ _ [_]); [lia| |]); try done;
    [apply Forall_singleton; by apply small_key_ok..|].
  intros p [= <-]. by apply small_key_ok.
Qed.

Lemma chord_typed_witness :
  safe (same 1 ex_ring) (fixFinger 3 ex_ring "h1:1") ∧
  safe (found 1 ex_ring) (findSuccessor 3 ex_ring "h1:1" (small_key 201)) ∧
  is_Some (match fixFinger 3 ex_ring "h1:1" with Ret w => w !! "h1:1" | _ => None end).
Proof.
  destruct (chord_typed 1 3 ex_ring "h1:1") as (H1 & _ & _ & _ & H2 & _);
    [lia|apply ex_ring_typed|by exists n1|]. split; [exact H1|]. split; [apply H2|by vm_compute; eauto].
Defined.

(** A node whose successor has left, before it has stabilized: looking a file up, and so
    storing one, panics. *)
Lemma lookup_dead_panics :
  let w : world := {["h2:2" := n2]} in
  lookup 3 w "h2:2" "m" = Panic ∧ StoreFile (λ _, true) 3 w "h2:2" "m" "data" = Panic.
Proof. split; vm_compute; reflexivity. Qed.

(** A node creates a ring, a second one joins it. *)
Definition created (o : go ChordClient) : ChordClient := match o with Ret c => c | _ => n1 end.
Definition first_node : ChordClient := created (create "h1" 2 1 "").
Definition second_node : ChordClient := created (create "h2" 2 2 "").

Lemma ex_lists : lists_files (λ d, (map_to_list d).*1).
Proof.
  intros d. split; [apply NoDup_fst_map_to_list|]. intros k. rewrite list_elem_of_fmap. split.
  - intros ([k' x] & -> & Hx%elem_of_map_to_list). by exists x.
  - intros [x Hx%elem_of_map_to_list]. by exists (k, x).
Qed.

Lemma join_converges_witness :
  ∃ w1 w2, join 5 {[address first_node := first_node]} "h2" 2 2 "" "h1" 1 = Ret w1 ∧
    acts (λ _, true) (λ d, (map_to_list d).*1) 5 w1
      [("h2:2", Stabilize); ("h2:2", Store "f" "data"); ("h1:1", Stabilize); ("h1:1", FixFinger)] = Ret w2 ∧
    settled 2 w2.
Proof.
  assert (create "h1" 2 1 "" = Ret first_node) as H1 by (vm_compute; reflexivity).
  assert (create "h2" 2 2 "" = Ret second_node) as H2 by (vm_compute; reflexivity).
  assert (address first_node = "h1:1") as A1 by (vm_compute; reflexivity).
  assert (address second_node = "h2:2") as A2 by (vm_compute; reflexivity).
  destruct (join_converges 2 5 {[address first_node := first_node]} "h2" 2 "" "h1" 1 second_node first_node
    (λ _, true) (λ d, (map_to_list d).*1)) as (w1 & Hj & Hdom & Hall).
  - by apply (create_settled 2 "h1" 1 ""); [lia|].
  - lia.
  - rewrite map_size_singleton. lia.
  - exact H2.
  - by rewrite A1, A2.
  - intros a d [<- <-]%lookup_singleton_Some. vm_compute. discriminate.
  - by rewrite A1.
  - apply ex_lists.
  - destruct (Hall [("h2:2", Stabilize); ("h2:2", Store "f" "data"); ("h1:1", Stabilize); ("h1:1", FixFinger)])
      as (w2 & Hrun & Hset & _).
    + rewrite !Forall_cons. simpl. rewrite !Hdom, A1, A2, lookup_singleton_eq.
      assert (∀ A (x : A), is_Some (Some x)) as HS by eauto. auto 10.
    + intros a x Hx _. assert (is_Some (w1 !! a)) as Hs by eauto. rewrite Hdom, A1, A2 in Hs.
      clear -Hs. destruct Hs as [->|[? [<- _]%lookup_singleton_Some]]; [left|do 2 right; left].
    + exists w1, w2. split; [exact Hj|split; [exact Hrun|exact Hset]].
Defined.

Lemma fingers_converge_witness :
  ∃ w', acts (λ _, true) (λ d, (map_to_list d).*1) 5 {[address first_node := first_node]}
      (("h1:1", Stabilize) :: replicate 160 ("h1:1", FixFinger)) = Ret w' ∧ fingers_settled 2 w' "h1:1".
Proof.
  assert (address first_node = "h1:1") as A1 by (vm_compute; reflexivity).
  assert (create "h1" 2 1 "" = Ret first_node) as H1 by (vm_compute; reflexivity).
  assert (is_Some (({[address first_node := first_node]} : world) !! "h1:1")) as Hs.
  { rewrite A1, lookup_singleton_eq. by eexists. }
  destruct (fingers_converge (λ _, true) (λ d, (map_to_list d).*1) ex_lists 2 5 {[address first_node := first_node]} "h1:1")
    as [Hacts _].
  - by apply (create_settled 2 "h1" 1 ""); [lia|].
  - exact Hs.
  - rewrite map_size_singleton. lia.
  - destruct (Hacts (("h1:1", Stabilize) :: replicate 160 ("h1:1", FixFinger))) as (w' & Hrun & _ & Hset).
    + apply Forall_cons. split; [exact Hs|]. apply Forall_replicate. exact Hs.
    + vm_compute. discriminate.
    + exists w'. split; [exact Hrun|exact Hset].
Defined.

(** Nodes 50, 100 and 200 were up; node 50 has fixed its fingers 0 to 7, the last two
    of which are node 200.  Then node 200 leaves. *)
Definition f3 : finger := mkFinger (small_key 100) "h3:3".
Definition m1 : ChordClient :=
  mkClient (small_key 50) (replicate 6 f3 ++ [f2; f2] ++ replicate 152 no_finger) false [f3] None "h1" "1" 1 7 ∅.
Definition m3 : ChordClient := ex_node 100 "h3" "3" [f1] (Some f1).
Definition left_ring : world := {["h1:1" := m1; "h3:3" := m3]}.

Lemma dead_finger_stuck_witness :
  (∀ fuel, findSuccessor fuel (<["h1:1" := with_next m1 8]> left_ring) "h1:1" (keyToLook 8 (small_key 50)) = NoFuel) ∧
  ∀ ticks fuel, fixFinger fuel left_ring "h1:1" = NoFuel ∧ runFixFingers ticks fuel left_ring "h1:1" = NoFuel.
Proof.
  destruct (dead_finger_stuck (<["h1:1" := with_next m1 8]> left_ring) "h1:1" "h2:2"
    (keyToLook 8 (small_key 50)) (with_next m1 8) f3 m3 []) as [Hlook Hfix].
  - constructor; vm_compute; first [reflexivity|discriminate].
  - split; [exact Hlook|]. intros ticks fuel. apply (Hfix left_ring m1); reflexivity.
Defined.

(** Three nodes that have settled. *)
Definition t1 : ChordClient := ex_node 50 "h1" "1" [f3; f2] (Some f2).
Definition t2 : ChordClient := ex_node 200 "h2" "2" [f1; f3] (Some f3).
Definition t3 : ChordClient := ex_node 100 "h3" "3" [f2; f1] (Some f1).
Definition three : world := {["h1:1" := t1; "h2:2" := t2; "h3:3" := t3]}.

Lemma three_cases a c :
  three !! a = Some c → (a = "h1:1" ∧ c = t1) ∨ (a = "h2:2" ∧ c = t2) ∨ (a = "h3:3" ∧ c = t3).
Proof.
  unfold three. intros [[<- <-]|[_ [[<- <-]|[_ [<- <-]%lookup_singleton_Some]]%lookup_insert_Some]]%lookup_insert_Some; auto.
Qed.
Ltac three_nodes := repeat match goal with
  | H : three !! _ = Some _ |- _ => apply three_cases in H as [[-> ->]|[[-> ->]|[-> ->]]]
  end.

Lemma three_settled : settled 2 three.
Proof.
  assert (resolves three f1) as R1 by (by exists t1).
  assert (resolves three f2) as R2 by (by exists t2).
  assert (resolves three f3) as R3 by (by exists t3).
  assert (∀ a, right three a) as Hright.
  { intros a c s l Hc Hs b d Hd Hne. three_nodes; injection Hs as <- _; first [done|split; [done|vm_compute; discriminate]]. }
  split; [|exact Hright]. constructor.
  - constructor; [constructor|..].
    + intros a c Hc. three_nodes; (eapply ex_node_linked; [lia|done|done|done|]); repeat constructor; assumption.
    + intros a a' c c' Hc Hc' E. three_nodes; done.
    + intros a c Hc. three_nodes; done.
    + intros a c p Hc Hp. three_nodes; by injection Hp as <-.
  - intros a d p Hd Hp.
    assert (resolves three p) by (three_nodes; by injection Hp as <-).
    split; [done|]. split; [by three_nodes; injection Hp as <-|].
    intros b x Hx Hne. three_nodes; injection Hp as <-; first [done|vm_compute; discriminate].
  - intros a c s l Hc Hs. assert (target three c s = s) as -> by (three_nodes; injection Hs as <- _; vm_compute; reflexivity).
    by apply (Hright a c s l).
Qed.

Lemma leave_recovers_witness :
  ∃ w' p' ds' l', acts (λ _, true) (λ d, (map_to_list d).*1) 3 (delete "h3:3" three)
      [("h1:1", Stabilize); ("h2:2", CheckPredecessor); ("h1:1", Stabilize)] = Ret w' ∧
    pointers_right w' ∧ same_names (delete "h3:3" three) w' ∧
    w' !! "h1:1" = Some p' ∧ successor p' = f2 :: l' ∧
    w' !! "h2:2" = Some ds' ∧ predecessor ds' = Some (me t1) ∧
    ∀ b, b ≠ "h1:1" → b ≠ "h2:2" → w' !! b = delete "h3:3" three !! b.
Proof.
  apply (leave_recovers (λ _, true) (λ d, (map_to_list d).*1) 2 0 three "h1:1" t1 f3 t3 f2 t2 [] [f1] f3);
    [apply three_settled|reflexivity..|]. apply (bool_decide_unpack _). vm_compute. exact I.
Defined.
