(* ===== verification/Utf8.v ===== *)
(** * Bytes and runes: a string of ASCII runes is its bytes *)
From S2P Require Import Prelude GoStrings.
From Stdlib Require Import Ascii.
#[local] Open Scope Z_scope.
#[local] Ltac Zify.zify_post_hook ::= Z.to_euclidean_division_equations.

Definition is_byte (b : Z) : Prop := 0 ≤ b < 256.

Lemma byte_of_range a : is_byte (byte_of a).
Proof. unfold is_byte, byte_of. pose proof (N_ascii_bounded a). lia. Qed.
Lemma bytes_range s : Forall is_byte (bytes s).
Proof. apply Forall_fmap, Forall_true. intros a. apply byte_of_range. Qed.

Lemma byte_of_ascii_of z : is_byte z → byte_of (ascii_of z) = z.
Proof. intros [??]. unfold byte_of, ascii_of. rewrite N_ascii_embedding; lia. Qed.
Lemma ascii_of_byte_of a : ascii_of (byte_of a) = a.
Proof. unfold byte_of, ascii_of. by rewrite N2Z.id, ascii_N_embedding. Qed.

Lemma bytes_of_bytes l : Forall is_byte l → bytes (of_bytes l) = l.
Proof.
  intros Hl. unfold bytes, of_bytes. rewrite String.list_ascii_of_string_of_list_ascii.
  rewrite <-list_fmap_compose. rewrite <-(list_fmap_id l) at 2.
  apply list_fmap_ext. intros i x Hi. apply byte_of_ascii_of. by eapply Forall_lookup_1.
Qed.
Lemma of_bytes_bytes s : of_bytes (bytes s) = s.
Proof.
  unfold bytes, of_bytes. rewrite <-list_fmap_compose.
  rewrite <-(String.string_of_list_ascii_of_string s) at 2. f_equal.
  rewrite <-(list_fmap_id (String.list_ascii_of_string s)) at 2.
  apply list_fmap_ext. intros. apply ascii_of_byte_of.
Qed.

Lemma bytes_app s t : bytes (s +:+ t) = bytes s ++ bytes t.
Proof. induction s as [|a s IH]; [done|].
  change (byte_of a :: bytes (s +:+ t) = byte_of a :: (bytes s ++ bytes t)). by rewrite IH. Qed.
Lemma of_bytes_app l l' : of_bytes (l ++ l') = of_bytes l +:+ of_bytes l'.
Proof. induction l as [|a l IH]; [done|].
  change (String (ascii_of a) (of_bytes (l ++ l')) = String (ascii_of a) (of_bytes l +:+ of_bytes l')).
  by rewrite IH. Qed.
#[export] Instance bytes_inj : Inj (=) (=) bytes.
Proof. intros s t H. by rewrite <-(of_bytes_bytes s), <-(of_bytes_bytes t), H. Qed.

Lemma Forall_bytes (P : ascii → Prop) s :
  all_chars P s ↔ Forall (λ b, P (ascii_of b)) (bytes s).
Proof.
  unfold bytes. rewrite Forall_fmap. induction s as [|a s IH]; simpl; [done|].
  rewrite Forall_cons. unfold compose. by rewrite ascii_of_byte_of, IH.
Qed.

(** ** Multi-byte runes are not ASCII *)
Lemma lor_ge a b : 0 ≤ a → 0 ≤ b → a ≤ Z.lor a b.
Proof.
  intros Ha Hb. rewrite <-(Z2N.id a), <-(Z2N.id b) by done. rewrite <-N2Z.inj_lor.
  apply N2Z.inj_le. generalize (Z.to_N a) (Z.to_N b). intros x y.
  assert (N.land (N.lor x y) x = x) as Hx; [|rewrite <-Hx at 1; apply N.land_le_l].
  apply N.bits_inj. intros n. rewrite N.land_spec, N.lor_spec.
  destruct (N.testbit x n); [done|apply andb_false_r].
Qed.

Lemma land_mask b n : 0 ≤ n → Z.land b (2 ^ n - 1) = b mod 2 ^ n.
Proof. intros. rewrite <-Z.land_ones by done. by rewrite Z.ones_equiv, <-Z.sub_1_r. Qed.
Lemma low6_mod z : low6 z = z mod 64.
Proof. apply (land_mask z 6). done. Qed.
Lemma low6_nonneg z : 0 ≤ low6 z.
Proof. rewrite low6_mod. apply Z.mod_pos_bound. lia. Qed.

Lemma rune2_high b0 b1 r : rune2 b0 b1 = Some r → 128 ≤ r.
Proof.
  unfold rune2, in_range. intros H. case_match eqn:E; simplify_eq.
  apply andb_prop in E as [[? ?]%andb_prop _].
  etrans; [|apply lor_ge; [apply Z.shiftl_nonneg, Z.land_nonneg; lia|apply low6_nonneg]].
  rewrite Z.shiftl_mul_pow2 by lia.
    change 31 with (2 ^ 5 - 1).
    rewrite land_mask by done. change (2 ^ 5) with 32. change (2 ^ 6) with 64. lia.
Qed.

Lemma rune3_high b0 b1 b2 r : rune3 b0 b1 b2 = Some r → 128 ≤ r.
Proof.
  unfold rune3, in_range, second. intros H. case_match eqn:E; simplify_eq.
  pose proof (low6_nonneg b2). pose proof (low6_nonneg b1).
  assert (0 ≤ Z.shiftl (low6 b1) 6) by (by apply Z.shiftl_nonneg).
  assert (0 ≤ Z.lor (Z.shiftl (low6 b1) 6) (low6 b2)) by (apply Z.lor_nonneg; done).
  assert (0 ≤ Z.shiftl (Z.land b0 15) 12) by (apply Z.shiftl_nonneg, Z.land_nonneg; lia).
  destruct (b0 =? 224) eqn:E0.
  - rewrite Z.lor_comm. etrans; [|by apply lor_ge]. etrans; [|by apply lor_ge].
    rewrite low6_mod, Z.shiftl_mul_pow2 by lia. change (2 ^ 6) with 64. simpl in E. lia.
  - etrans; [|by apply lor_ge]. rewrite Z.shiftl_mul_pow2 by lia.
    change 15 with (2 ^ 4 - 1).
    rewrite land_mask by done. change (2 ^ 4) with 16. change (2 ^ 12) with 4096. lia.
Qed.

Lemma rune4_high b0 b1 b2 b3 r : rune4 b0 b1 b2 b3 = Some r → 128 ≤ r.
Proof.
  unfold rune4, in_range, second. intros H. case_match eqn:E; simplify_eq.
  pose proof (low6_nonneg b3). pose proof (low6_nonneg b2). pose proof (low6_nonneg b1).
  assert (0 ≤ Z.shiftl (low6 b2) 6) by (by apply Z.shiftl_nonneg).
  assert (0 ≤ Z.lor (Z.shiftl (low6 b2) 6) (low6 b3)) by (apply Z.lor_nonneg; done).
  assert (0 ≤ Z.shiftl (low6 b1) 12) by (by apply Z.shiftl_nonneg).
  assert (0 ≤ Z.shiftl (Z.land b0 7) 18) by (apply Z.shiftl_nonneg, Z.land_nonneg; lia).
  assert (0 ≤ Z.lor (Z.shiftl (low6 b1) 12) (Z.lor (Z.shiftl (low6 b2) 6) (low6 b3)))
    by (apply Z.lor_nonneg; done).
  destruct (b0 =? 240) eqn:E0.
  - rewrite Z.lor_comm. etrans; [|by apply lor_ge]. etrans; [|by apply lor_ge].
    rewrite low6_mod, Z.shiftl_mul_pow2 by lia. change (2 ^ 12) with 4096. simpl in E.
    destruct (b0 =? 224) eqn:?, (b0 =? 237) eqn:?; try lia. simpl in E. lia.
  - etrans; [|by apply lor_ge]. rewrite Z.shiftl_mul_pow2 by lia.
    change 7 with (2 ^ 3 - 1).
    rewrite land_mask by done. change (2 ^ 3) with 8. change (2 ^ 18) with 262144. lia.
Qed.

(** ** ASCII strings *)
Definition ascii_byte (b : Z) : Prop := 0 ≤ b < 128.
Lemma ascii_is_byte l : Forall ascii_byte l → Forall is_byte l.
Proof. intros Hl. eapply Forall_impl; [exact Hl|]. unfold ascii_byte, is_byte. simpl. lia. Qed.

Lemma decode_ascii l : Forall ascii_byte l → (decode_runes l).*1 = l.
Proof.
  induction 1 as [|b l [? ?] _ IH]; cbn [decode_runes]; [done|].
  destruct (Z.ltb_spec b 128); [|lia]. csimpl. by rewrite IH.
Qed.

Lemma decode_ascii_inv n l :
  (length l ≤ n)%nat → Forall is_byte l → Forall (λ r, r < 128) (decode_runes l).*1 →
  Forall ascii_byte l.
Proof.
  revert l. induction n as [|n IH]; intros l Hn Hl Hr.
  { destruct l; [constructor|simpl in Hn; lia]. }
  destruct l as [|b0 l1]; [constructor|]. apply Forall_cons in Hl as [Hb0 Hl].
  simpl in Hn. cbn [decode_runes] in Hr. destruct (Z.ltb_spec b0 128).
  { csimpl in Hr. apply Forall_cons in Hr as [_ Hr]. constructor; [split; [apply Hb0|done]|].
    apply IH; [lia|done..]. }
  exfalso. repeat case_match; csimpl in Hr; apply Forall_cons in Hr as [Hr _];
    try (unfold RuneError in Hr; lia).
  - apply rune2_high in H1. lia.
  - apply rune3_high in H3. lia.
  - apply rune4_high in H5. lia.
Qed.

Lemma encode_ascii l : Forall ascii_byte l → concat (encode_rune <$> l) = l.
Proof.
  induction 1 as [|b l [? ?] _ IH]; csimpl; [done|]. rewrite IH. unfold encode_rune, in_range.
  destruct (Z.leb_spec 55296 b); [lia|]. destruct (Z.leb_spec 0 b); [|lia].
  destruct (Z.leb_spec b 1114111); [|lia]. simpl. by destruct (Z.ltb_spec b 128); [|lia].
Qed.

Lemma encode_high r : ¬ ascii_byte r → ∃ b bs, encode_rune r = b :: bs ∧ 128 ≤ b < 256.
Proof.
  intros Hr. unfold encode_rune.
  set (r' := if _ || _ then RuneError else r).
  assert (128 ≤ r' ≤ 1114111) as Hr'.
  { subst r'. unfold in_range, RuneError, ascii_byte in *. case_match eqn:E; [lia|].
    apply orb_false_iff in E as [_ E]. apply negb_false_iff in E. lia. }
  clearbody r'. destruct (Z.ltb_spec r' 128); [lia|].
  repeat case_match; eexists _, _; (split; [done|]); rewrite Z.shiftr_div_pow2 by lia;
    change (2 ^ 6) with 64; change (2 ^ 12) with 4096; change (2 ^ 18) with 262144; lia.
Qed.

Lemma string_of_ascii l : Forall ascii_byte l → string_of_runes l = of_bytes l.
Proof. intros. unfold string_of_runes. by rewrite encode_ascii. Qed.

Lemma string_of_runes_ascii l s :
  string_of_runes l = s → Forall ascii_byte (bytes s) → Forall ascii_byte l.
Proof.
  intros <-. induction l as [|r l IH]; intros Hs; [constructor|].
  unfold string_of_runes in Hs. csimpl in Hs. rewrite of_bytes_app, bytes_app in Hs.
  apply Forall_app in Hs as [Hr Hs]. constructor; [|by apply IH].
  destruct (decide (0 ≤ r < 128)) as [|Hn]; [done|].
  destruct (encode_high r Hn) as (b & bs & Hb & Hlt). rewrite Hb in Hr.
  unfold of_bytes, bytes in Hr. cbn in Hr. apply Forall_cons in Hr as [Hr _].
  rewrite byte_of_ascii_of in Hr by (unfold is_byte; lia). unfold ascii_byte in Hr. lia.
Qed.
