(* ===== verification/Numbers.v ===== *)
(** * Reading integers: [strconv.Atoi] and the verb [%d] of [fmt.Sscanf] *)
From S2P Require Import Prelude GoStrings Utf8.
From Stdlib Require Import Ascii.
#[local] Open Scope Z_scope.

Definition is_digit (r : Z) : bool := in_range 48 57 r.

(** [ParseUint] of decimal digits: a syntax error, a range error that is seen as
    soon as 64 bits do not hold the number, or the number. *)
Inductive parsed : Type := Syntax | Range | Value (z : Z).
Fixpoint ParseUint (l : list Z) (n : Z) : parsed :=
  match l with
  | [] => Value n
  | r :: l =>
      if negb (is_digit r) then Syntax else
      let n1 := n * 10 + (r - 48) in
      if 2 ^ 64 <=? n1 then Range else ParseUint l n1
  end.
(** A sign, if there is one, and the rest. *)
Definition read_sign (l : list Z) : list Z * list Z :=
  match l with
  | r :: l' => if (r =? 43) || (r =? 45) then ([r], l') else ([], l)
  | [] => ([], [])
  end.
(** The result, and whether there was no error. *)
Definition ParseInt (l : list Z) : Z * bool :=
  let '(sign, l) := read_sign l in
  let neg := bool_decide (sign = [45]) in
  match l with
  | [] => (0, false)
  | _ =>
      match ParseUint l 0 with
      | Syntax => (0, false)
      | Range => (if neg then - 2 ^ 63 else 2 ^ 63 - 1, false)
      | Value un =>
          if negb neg && (2 ^ 63 <=? un) then (2 ^ 63 - 1, false)
          else if neg && (2 ^ 63 <? un) then (- 2 ^ 63, false)
          else (if neg then - un else un, true)
      end
  end.
Definition Atoi (s : string) : Z * bool := ParseInt (bytes s).

(** ** fmt.Sscanf *)
Definition isSpace (r : Z) : bool :=
  in_range 9 13 r || (r =? 32) || (r =? 133) || (r =? 160) || (r =? 5760) || in_range 8192 8202 r ||
  in_range 8232 8233 r || (r =? 8239) || (r =? 8287) || (r =? 12288).
(** A newline is an error where the pattern has none. *)
Fixpoint SkipSpace (l : list Z) : option (list Z) :=
  match l with
  | r :: l' => if r =? 10 then None else if isSpace r then SkipSpace l' else Some l
  | [] => Some []
  end.
Fixpoint scanNumber (l : list Z) : list Z :=
  match l with
  | r :: l => if is_digit r then r :: scanNumber l else []
  | [] => []
  end.
(** What [%d] stores for the runes of the input; what follows is left unread. *)
Definition scanInt (l : list Z) : option Z :=
  match SkipSpace l with
  | None => None
  | Some l =>
      let '(sign, l) := read_sign l in
      match scanNumber l with
      | [] => None
      | tok => let '(i, ok) := ParseInt (sign ++ tok) in if (ok : bool) then Some i else None
      end
  end.
(** [Sscanf(name, prefix + "%d", &x)] for a prefix without spaces and [%]. *)
Fixpoint strip (prefix l : list Z) : option (list Z) :=
  match prefix, l with
  | [], l => Some l
  | p :: prefix, r :: l => if p =? r then strip prefix l else None
  | _ :: _, [] => None
  end.
Definition Sscanf_d (prefix name : string) : option Z :=
  strip (runes prefix) (runes name) ≫= scanInt.

(** ** The digits that [Itoa] prints *)
Lemma pretty_digit d : (d < 10)%N → byte_of (pretty_N_char d) = 48 + Z.of_N d.
Proof.
  intros Hd. destruct d as [|p]; [done|]. do 4 (destruct p as [p|p|]; try done; try lia).
Qed.
Lemma is_digit_of d : (d < 10)%N → is_digit (48 + Z.of_N d) = true.
Proof. intros Hd. unfold is_digit, in_range. lia. Qed.

(** The digits of [x] before the string [s]. *)
Lemma pretty_N_go_parse x s :
  (x < 2 ^ 64)%N → ∃ ds, bytes (pretty_N_go x s) = ds ++ bytes s ∧ Forall (λ r, is_digit r = true) ds ∧
    (x = 0%N ∨ ds ≠ []) ∧ ∀ l, ParseUint (ds ++ l) 0 = ParseUint l (Z.of_N x).
Proof.
  revert s. induction (N.lt_wf_0 x) as [x _ IH]. intros s Hx.
  destruct (decide (0 < x)%N) as [Hp|Hp].
  2: { assert (x = 0)%N as -> by lia. exists []. rewrite pretty_N_go_0. split_and!; [done..|by left|done]. }
  rewrite pretty_N_go_step by done. assert (x `mod` 10 < 10)%N as Hd by (apply N.mod_lt; lia).
  pose proof (N.div_mod' x 10) as Hdm.
  destruct (IH (x `div` 10)%N) with (s := String (pretty_N_char (x `mod` 10)) s) as (ds & Hb & Hf & _ & Hparse);
    [apply N.div_lt; lia|etransitivity; [apply N.div_lt; lia|exact Hx]|].
  exists (ds ++ [48 + Z.of_N (x `mod` 10)]). split_and!.
  - rewrite Hb, <-app_assoc. f_equal. unfold bytes. cbn [String.list_ascii_of_string]. csimpl. by rewrite pretty_digit.
  - apply Forall_app. split; [done|]. apply Forall_singleton. by apply is_digit_of.
  - right. by destruct ds.
  - intros l. rewrite <-app_assoc, Hparse. cbn [app ParseUint]. rewrite is_digit_of by done. cbn [negb].
    replace (Z.of_N (x `div` 10) * 10 + (48 + Z.of_N (x `mod` 10) - 48)) with (Z.of_N x) by lia.
    destruct (Z.leb_spec (2 ^ 64) (Z.of_N x)); [lia|done].
Qed.

Lemma Itoa_parse z : 0 ≤ z < 2 ^ 64 →
  Forall (λ r, is_digit r = true) (bytes (Itoa z)) ∧ bytes (Itoa z) ≠ [] ∧ ParseUint (bytes (Itoa z)) 0 = Value z.
Proof.
  intros Hz. unfold Itoa, pretty, pretty_Z. destruct z as [|p|p]; [by repeat constructor| |lia].
  unfold pretty, pretty_positive, pretty, pretty_N. case_decide; [done|].
  destruct (pretty_N_go_parse (N.pos p) "") as (ds & -> & Hf & Hne & Hp); [lia|].
  change (bytes "") with (@nil Z). rewrite app_nil_r. split_and!; [done|by destruct Hne|].
  by rewrite <-(app_nil_r ds), Hp.
Qed.

Lemma digit_range r : is_digit r = true → 48 ≤ r ≤ 57.
Proof. unfold is_digit, in_range. lia. Qed.
Lemma read_sign_digits l : Forall (λ r, is_digit r = true) l → read_sign l = ([], l).
Proof.
  intros Hl. destruct l as [|r l]; [done|]. apply Forall_cons in Hl as [Hr%digit_range _]. simpl.
  destruct (Z.eqb_spec r 43), (Z.eqb_spec r 45); try lia. done.
Qed.
Lemma ParseInt_digits l z : Forall (λ r, is_digit r = true) l → l ≠ [] → ParseUint l 0 = Value z → z < 2 ^ 63 →
  ParseInt l = (z, true).
Proof.
  intros Hl Hne Hp Hz. unfold ParseInt. rewrite read_sign_digits by done. destruct l as [|r l]; [done|].
  rewrite Hp. cbn [negb andb]. rewrite bool_decide_false by done. cbn [negb andb].
  destruct (Z.leb_spec (2 ^ 63) z); [lia|done].
Qed.

(** [Atoi] reads back what [Itoa] writes. *)
Lemma Atoi_Itoa z : 0 ≤ z < 2 ^ 63 → Atoi (Itoa z) = (z, true).
Proof. intros Hz. destruct (Itoa_parse z) as (? & ? & ?); [lia|]. apply ParseInt_digits; [done..|lia]. Qed.

(** ** A number after a prefix *)
Lemma scanNumber_digits l rest : Forall (λ r, is_digit r = true) l →
  (∀ r l, rest = r :: l → is_digit r = false) → scanNumber (l ++ rest) = l.
Proof.
  intros Hl Hrest. induction Hl as [|r l Hr _ IH]; cbn [app scanNumber]; [|by rewrite Hr, IH].
  destruct rest as [|r rest]; [done|]. cbn [scanNumber]. by rewrite (Hrest r rest).
Qed.
Lemma scanInt_digits l z : Forall (λ r, is_digit r = true) l → l ≠ [] → ParseUint l 0 = Value z → z < 2 ^ 63 →
  scanInt l = Some z.
Proof.
  intros Hl Hne Hp Hz. pose proof (scanNumber_digits l [] Hl) as Hn. rewrite app_nil_r in Hn.
  assert (SkipSpace l = Some l) as Hs.
  { destruct Hl as [|r l Hr%digit_range _]; [done|]. cbn [SkipSpace]. destruct (Z.eqb_spec r 10); [lia|].
    unfold isSpace, in_range. by assert (_ || _ = false) as -> by lia. }
  unfold scanInt. rewrite Hs, read_sign_digits, Hn by done. destruct l as [|r l]; [done|]. cbn [app].
  by rewrite (ParseInt_digits _ z).
Qed.

Lemma strip_app p l : strip p (p ++ l) = Some l.
Proof. induction p as [|r p IH]; [done|]. cbn [app strip]. by rewrite Z.eqb_refl. Qed.

Lemma Sscanf_Itoa prefix z : Forall ascii_byte (bytes prefix) → 0 ≤ z < 2 ^ 63 →
  Sscanf_d prefix (prefix +:+ Itoa z) = Some z.
Proof.
  intros Hp Hz. destruct (Itoa_parse z) as (Hd & Hne & Hv); [lia|]. unfold Sscanf_d, runes.
  rewrite bytes_app, !decode_ascii; [|apply Forall_app; split; [done|]|done].
  - rewrite strip_app. by apply scanInt_digits; [..|lia].
  - eapply Forall_impl; [exact Hd|]. intros r Hr%digit_range. unfold ascii_byte. simpl. lia.
Qed.
