(* ===== verification/Timing.v ===== *)
(** * The MapReduce applications that observe the workers ([mrapps/mtiming.go],
    [rtiming.go], [jobcount.go])

    They count the files that running workers leave in the working directory.
    [nparallel] runs while other workers change the directory, so that its parts
    take the directory they find; [alive k pid] is what the [k]-th [syscall.Kill]
    of signal 0 finds.  The process number, the time and what [%.1f] prints of it
    are arguments, and [Readdirnames] is the order in which the system lists a
    directory. *)
From S2P Require Import Prelude GoStrings Utf8 Numbers Coordinator Worker.
From Stdlib Require Import Ascii.
#[local] Open Scope Z_scope.

Section timing.
Context (writable : string → bool) (Readdirnames : filesystem → list string).
Context (sort : ∀ A, (A → A → bool) → list A → list A).

Definition WriteFile (fs : filesystem) (name data : string) : go filesystem :=
  if writable name then mret (<[name := data]> fs) else Panic.
Definition Remove (fs : filesystem) (name : string) : go filesystem :=
  if decide (is_Some (fs !! name)) then mret (delete name fs) else Panic.

(** ** nparallel *)
Definition myfilename (phase : string) (pid : Z) : string :=
  "mr-worker-" +:+ phase +:+ "-" +:+ Itoa pid.
(** [pat] without its verb [%d]. *)
Definition pat (phase : string) : string := "mr-worker-" +:+ phase +:+ "-".

Definition appear (phase : string) (pid : Z) (fs : filesystem) : go filesystem :=
  WriteFile fs (myfilename phase pid) "x".
Fixpoint count_alive (phase : string) (alive : nat → Z → bool) (names : list string) (ret : Z) : Z :=
  match names with
  | [] => ret
  | name :: names =>
      match Sscanf_d (pat phase) name with
      | Some xpid =>
          count_alive phase (λ k, alive (S k)) names (if alive O xpid then ret + 1 else ret)
      | None => count_alive phase alive names ret
      end
  end.
Definition scan (phase : string) (alive : nat → Z → bool) (fs : filesystem) : Z :=
  count_alive phase alive (take (Z.to_nat 1000000) (Readdirnames fs)) 0.
Definition disappear (phase : string) (pid : Z) (fs : filesystem) : go filesystem :=
  Remove fs (myfilename phase pid).
(** [others1] and [others2] are what other processes do to the directory before
    it is read and while this one sleeps. *)
Definition nparallel (phase : string) (pid : Z) (alive : nat → Z → bool)
    (others1 others2 : filesystem → filesystem) (fs : filesystem) : go (filesystem * Z) :=
  fs ← appear phase pid fs;
  let fs := others1 fs in
  let ret := scan phase alive fs in
  fs ← disappear phase pid (others2 fs);
  mret (fs, ret).

(** ** mtiming.go and rtiming.go *)
Definition mtiming_Map (pid : Z) (ts : string) (n : Z) : list KeyValue :=
  [mkKeyValue ("times-" +:+ Itoa pid) ts; mkKeyValue ("parallel-" +:+ Itoa pid) (Itoa n)].
Definition mtiming_Map_run (pid : Z) (ts : string) alive others1 others2 (fs : filesystem)
    : go (filesystem * list KeyValue) :=
  r ← nparallel "map" pid alive others1 others2 fs;
  mret (r.1, mtiming_Map pid ts r.2).
Definition mtiming_Reduce (key : string) (values : list string) : string :=
  Join (sort _ String.ltb values) " ".
Definition rtiming_Map (filename contents : string) : list KeyValue :=
  (λ k, mkKeyValue k "1") <$> ["a"; "b"; "c"; "d"; "e"; "f"; "g"; "h"; "i"; "j"].
(** The program has its own copy. *)
Definition rtiming_nparallel := nparallel.
Definition rtiming_Reduce (pid : Z) alive others1 others2 (fs : filesystem) : go (filesystem * string) :=
  r ← rtiming_nparallel "reduce" pid alive others1 others2 fs;
  mret (r.1, Itoa r.2).

(** ** jobcount.go: [count] is the counter of the process *)
Definition jobcount_file (me count : Z) : string := "mr-worker-jobcount-" +:+ Itoa me +:+ "-" +:+ Itoa count.
Definition jobcount_Map (me count : Z) (fs : filesystem) : go (filesystem * Z * list KeyValue) :=
  fs ← WriteFile fs (jobcount_file me count) "x";
  mret (fs, count + 1, [mkKeyValue "a" "x"]).
Definition jobcount_files (fs : filesystem) : list string :=
  filter (λ f, String.prefix "mr-worker-jobcount" f = true) (elements (dom fs)).
Definition jobcount_Reduce (fs : filesystem) : string := Itoa (Z.of_nat (length (jobcount_files fs))).

(** ** What [nparallel] counts *)
Lemma pat_ascii phase : Forall ascii_byte (bytes phase) → Forall ascii_byte (bytes (pat phase)).
Proof.
  intros Hp. unfold pat. rewrite !bytes_app. apply Forall_app. split; [by repeat constructor|].
  apply Forall_app. split; [done|by repeat constructor].
Qed.
Lemma myfilename_pat phase pid : myfilename phase pid = pat phase +:+ Itoa pid.
Proof. unfold myfilename, pat. by rewrite !append_assoc. Qed.
Lemma own_file phase pid : Forall ascii_byte (bytes phase) → 0 ≤ pid < 2 ^ 63 →
  Sscanf_d (pat phase) (myfilename phase pid) = Some pid.
Proof. intros Hp Hz. rewrite myfilename_pat. by apply Sscanf_Itoa; [apply pat_ascii|]. Qed.

(** The processes of the phase that a listing names. *)
Definition named (phase : string) (names : list string) : list Z := omap (Sscanf_d (pat phase)) names.

Lemma count_alive_named phase (live : Z → bool) names ret :
  count_alive phase (λ _, live) names ret = ret + Z.of_nat (length (filter (λ p, live p = true) (named phase names))).
Proof.
  revert ret. induction names as [|name names IH]; intros ret; [unfold named; simpl; lia|].
  cbn [count_alive]. unfold named in *. cbn [omap list_omap]. destruct (Sscanf_d (pat phase) name) as [x|]; [|apply IH].
  rewrite IH, filter_cons. destruct (live x); case_decide; try done; cbn [length]; lia.
Qed.

(** With the files of the processes [ps] in the directory, and files of no
    process of the phase, [nparallel] counts those of [ps] that are alive. *)
Lemma scan_counts phase (live : Z → bool) fs ps others :
  Forall ascii_byte (bytes phase) → Forall (λ p, 0 ≤ p < 2 ^ 63) ps →
  Forall (λ name, Sscanf_d (pat phase) name = None) others →
  Readdirnames fs ≡ₚ (myfilename phase <$> ps) ++ others → Z.of_nat (length ps + length others) ≤ 1000000 →
  scan phase (λ _, live) fs = Z.of_nat (length (filter (λ p, live p = true) ps)).
Proof.
  intros Hph Hps Hothers Hdir Hsize. unfold scan.
  rewrite take_ge by (rewrite Hdir, length_app, length_fmap; lia).
  rewrite count_alive_named. assert (named phase (Readdirnames fs) ≡ₚ ps) as Hn; [|by rewrite Hn].
  unfold named. rewrite Hdir, omap_app. assert (omap (Sscanf_d (pat phase)) others = []) as ->.
  { clear -Hothers. induction Hothers as [|o os Ho _ IH]; [done|]. cbn [omap list_omap]. by rewrite Ho. }
  rewrite app_nil_r. clear -Hph Hps. induction Hps as [|p ps Hp _ IH]; [done|].
  cbn [fmap list_fmap omap list_omap]. rewrite own_file by done. by constructor.
Qed.

(** [nparallel] does not fail, and counts at least itself, when its file can be
    made and the others leave that file alone. *)
Lemma nparallel_runs phase pid live others1 others2 fs :
  writable (myfilename phase pid) = true →
  (∀ fs, is_Some (others2 fs !! myfilename phase pid) ↔ is_Some (fs !! myfilename phase pid)) →
  (∀ fs, is_Some (others1 fs !! myfilename phase pid) ↔ is_Some (fs !! myfilename phase pid)) →
  ∃ fs', nparallel phase pid live others1 others2 fs =
    Ret (fs', scan phase live (others1 (<[myfilename phase pid := "x"]> fs))) ∧ fs' !! myfilename phase pid = None.
Proof.
  intros Hw H2 H1. unfold nparallel, appear, WriteFile, disappear, Remove. rewrite Hw. cbn [mbind go_bind mret go_ret]. cbv zeta.
  rewrite decide_True.
  - cbn [mbind go_bind]. eexists. split; [done|]. apply lookup_delete_eq.
  - apply H2, H1. rewrite lookup_insert_eq. by eexists.
Qed.

(** [jobcount] counts the calls of [Map]: each call of a process makes another
    file, and [Reduce] answers how many there are. *)
Lemma jobcount_file_inj me c me' c' :
  0 ≤ me → 0 ≤ me' → jobcount_file me c = jobcount_file me' c' → me = me' ∧ c = c'.
Proof.
  intros Hm Hm' E. unfold jobcount_file in E. apply (append_inj_l "mr-worker-jobcount-") in E.
  apply (sep_inj "-"%char) in E as [E1%(inj Itoa) E2%(inj Itoa)]; [done|by apply Itoa_no_dash..].
Qed.
Lemma jobcount_file_prefix me c : String.prefix "mr-worker-jobcount" (jobcount_file me c) = true.
Proof. done. Qed.

Definition map_calls (calls : list (Z * Z)) (fs : filesystem) : filesystem :=
  foldl (λ fs mc, <[jobcount_file mc.1 mc.2 := "x"]> fs) fs calls.

Lemma jobcount_files_insert fs me c :
  fs !! jobcount_file me c = None →
  length (jobcount_files (<[jobcount_file me c := "x"]> fs)) = S (length (jobcount_files fs)).
Proof.
  intros Hnone. unfold jobcount_files. rewrite dom_insert_L, elements_disj_union by (apply not_elem_of_dom in Hnone; set_solver).
  by rewrite elements_singleton, filter_app, length_app, filter_cons_True by apply jobcount_file_prefix.
Qed.
Lemma jobcount_counts calls fs :
  NoDup calls → Forall (λ mc, 0 ≤ mc.1) calls → (∀ me c, fs !! jobcount_file me c = None) → jobcount_files fs = [] →
  jobcount_Reduce (map_calls calls fs) = Itoa (Z.of_nat (length calls)).
Proof.
  intros Hnd Hpos Hnone Hfiles.
  assert (∀ fs, (∀ mc, mc ∈ calls → fs !! jobcount_file mc.1 mc.2 = None) →
    length (jobcount_files (map_calls calls fs)) = (length calls + length (jobcount_files fs))%nat) as H.
  { clear fs Hnone Hfiles. induction Hnd as [|[me c] calls Hnin Hnd IH]; intros fs Hfs; [done|].
    apply Forall_cons in Hpos as [Hme Hpos].
    change (map_calls ((me, c) :: calls) fs) with (map_calls calls (<[jobcount_file me c := "x"]> fs)). cbn [length].
    rewrite IH; [|done|].
    - rewrite jobcount_files_insert; [lia|]. apply (Hfs (me, c)). by left.
    - intros [me' c'] Hin. rewrite lookup_insert_ne; [apply (Hfs (me', c')); by right|]. simpl. intros E.
      rewrite Forall_forall in Hpos. apply jobcount_file_inj in E as [-> ->]; [done|done|by apply (Hpos _ Hin)]. }
  unfold jobcount_Reduce. by rewrite H, Hfiles, Nat.add_0_r by done.
Qed.
End timing.
