(* ===== verification/EntryPoints.v ===== *)
(** * The programs of the MapReduce lab ([main/mrcoordinator.go], [mrworker.go],
    [mrsequential.go]) and where they meet ([mr/coordinator.go], [mr/rpc.go],
    [mr/worker.go])

    A plugin is what package [plugin] opens, known by [plugin_Open] and [Lookup]; a
    program that exits with an error is [Fatal].  Environment variables are
    arguments, [None] when unset. *)
From S2P Require Import Prelude GoStrings Utf8 Numbers Coordinator Worker.
#[local] Open Scope Z_scope.

(** ** Plugins *)
Section plugins.
Context {P : Type}.
Inductive symbol : Type :=
| SymMap (f : string → string → go (list KeyValue))
| SymReduce (f : string → list string → go string)
| SymOther.
Context (plugin_Open : string → option P) (Lookup : P → string → option symbol).

(** The type assertions panic. *)
Definition loadPlugin (filename : string)
    : go ((string → string → go (list KeyValue)) * (string → list string → go string)) :=
  match plugin_Open filename with
  | None => Fatal
  | Some p =>
      match Lookup p "Map" with
      | None => Fatal
      | Some xmapf =>
          mapf ← (match xmapf with SymMap f => mret f | _ => Panic end);
          match Lookup p "Reduce" with
          | None => Fatal
          | Some xreducef =>
              reducef ← (match xreducef with SymReduce f => mret f | _ => Panic end);
              mret (mapf, reducef)
          end
      end
  end.

Section programs.
Context {HC : Codec} (sort : ∀ A, (A → A → bool) → list A → list A) (writable : string → bool).

Definition mrworker (args : list string) (fuel : nat) (nets : nat → net * net) (clock : nat → Z → Z * Z) (s : system) : go system :=
  if negb (Z.of_nat (length args) =? 2) then Fatal else
  name ← index args 1;
  fns ← loadPlugin name;
  let '(mapf, reducef) := (fns : (string → string → go (list KeyValue)) * (string → list string → go string)) in
  Worker sort writable mapf reducef fuel nets clock s.
Definition mrsequential_main (args : list string) (fs : filesystem) : go filesystem :=
  if Z.of_nat (length args) <? 3 then Fatal else
  name ← index args 1;
  fns ← loadPlugin name;
  let '(mapf, reducef) := (fns : (string → string → go (list KeyValue)) * (string → list string → go string)) in
  mrsequential sort writable mapf reducef (drop 2 args) fs.
End programs.
End plugins.

(** ** The coordinator's loop: [state k] is what the [k]-th call of [Done] finds *)
Fixpoint await (fuel : nat) (state : nat → Coordinator) (k : nat) : go nat :=
  match fuel with
  | O => NoFuel
  | S fuel => b ← Done (state k); if (b : bool) then mret k else await fuel state (S k)
  end.
(** [serve] is what the handlers make of the coordinator, as it is started. *)
Definition mrcoordinator (fuel : nat) (args : list string) (serve : Coordinator → nat → Coordinator) : go nat :=
  if Z.of_nat (length args) <? 2 then Fatal else
  let m := MakeCoordinator (drop 1 args) 10 in
  await fuel (serve m) 0.

(** ** Where they meet *)
Definition coordinatorSock (uid : Z) : string := "/var/tmp/5840-mr-" +:+ Itoa uid.
(** The error of [Atoi] is dropped. *)
Definition server_address (COORDINATOR_PORT : option string) (uid : Z) : string * string :=
  match COORDINATOR_PORT with
  | Some portStr => let port := (Atoi portStr).1 in ("tcp", ":" +:+ Itoa port)
  | None => ("unix", coordinatorSock uid)
  end.
Definition call_address (COORDINATOR_IP : option string) (uid : Z) : string * string :=
  match COORDINATOR_IP with
  | Some coordinatorIp => ("tcp", coordinatorIp)
  | None => ("unix", coordinatorSock uid)
  end.

(** ** Lemmas *)

(** Without the variables the worker calls where the coordinator of the same user
    listens; with a port, the number is the one that was given. *)
Lemma meet uid : server_address None uid = call_address None uid.
Proof. done. Qed.
Lemma server_address_port p uid : 0 ≤ p < 2 ^ 63 → server_address (Some (Itoa p)) uid = ("tcp", ":" +:+ Itoa p).
Proof. intros Hp. unfold server_address. by rewrite Atoi_Itoa. Qed.
(** A value that is no number is port 0, which the system chooses. *)
Lemma server_address_garbage uid : server_address (Some "8080x") uid = ("tcp", ":0").
Proof. reflexivity. Qed.

(** The coordinator's program ends at the first call of [Done] that finds all the
    tasks done. *)
Lemma await_ends fuel state k m :
  (k ≤ m)%nat → (m - k < fuel)%nat → Done (state m) = Ret true →
  (∀ j, (k ≤ j < m)%nat → Done (state j) = Ret false) → await fuel state k = Ret m.
Proof.
  intros Hkm Hf Hm Hb. revert k Hkm Hf Hb. induction fuel as [|fuel IH]; intros k Hkm Hf Hb; [lia|]. cbn [await].
  destruct (decide (k = m)) as [->|]; [by rewrite Hm|]. rewrite (Hb k) by lia. cbn [mbind go_bind].
  apply IH; [lia..|]. intros j Hj. apply Hb. lia.
Qed.
