(* ===== verification/FileSystem.v ===== *)
(** * Files: the part of the operating system that the web server uses

    Directories and regular files below a root, without links.  A location is
    the list of the names from the file up to the root.  A path is resolved
    from the working directory component by component, and each directory it
    goes through has to exist, also the one a [..] leaves.  The functions of
    package [os] are given their results; the text of their errors is not used
    by the programs. *)
From S2P Require Import Prelude GoStrings.
From Stdlib Require Import Ascii.
From stdpp Require Import gmap.
#[local] Open Scope Z_scope.

Definition location : Type := list string.
Inductive entry : Type := EDir | EFile (data : string).
#[export] Instance entry_eq_dec : EqDecision entry.
Proof. solve_decision. Defined.

Record Disk : Type := MkDisk {
  entries : gmap location entry;
  cwd : location;
  denied : gset location;   (* files the process may not open *)
  stuck : gset location;    (* files that cannot be truncated *)
  space : Z;                (* bytes that the disk still takes in one write *)
}.
Definition with_entries (fs : Disk) (es : gmap location entry) : Disk :=
  MkDisk es (cwd fs) (denied fs) (stuck fs) (space fs).

(** The components of a path: the strings between its slashes. *)
Definition components (s : string) : list string := Split s "/".

Definition is_dir (fs : Disk) (l : location) : bool := bool_decide (entries fs !! l = Some EDir).

(** One component: [None] when the kernel reports an error. *)
Definition enter (fs : Disk) (l : location) (c : string) : option location :=
  if negb (is_dir fs l) then None
  else if decide (c = "" ∨ c = ".") then Some l
  else if decide (c = "..") then Some (tail l)
  else if decide (entries fs !! (c :: l) = None) then None else Some (c :: l).
Fixpoint walk (fs : Disk) (l : location) (cs : list string) : option location :=
  match cs with [] => Some l | c :: cs => enter fs l c ≫= λ l', walk fs l' cs end.
Definition start (fs : Disk) (path : string) : location :=
  if String.prefix "/" path then [] else cwd fs.
Definition resolve (fs : Disk) (path : string) : option location :=
  walk fs (start fs path) (components path).

(** [os.ReadFile] *)
Definition ReadFile (fs : Disk) (path : string) : option string :=
  l ← resolve fs path;
  if decide (l ∈ denied fs) then None else
  match entries fs !! l with Some (EFile data) => Some data | _ => None end.

(** [os.Create] opens an existing file with its contents dropped, or makes an
    empty one; its parent has to exist. *)
Definition target (fs : Disk) (path : string) : option location :=
  let cs := components path in
  dir ← walk fs (start fs path) (removelast cs);
  let name := List.last cs "" in
  if decide (is_dir fs dir = true ∧ name ∉ [""; "."; ".."]) then Some (name :: dir) else None.
Definition Create (fs : Disk) (path : string) : option (location * Disk) :=
  l ← target fs path;
  if decide (l ∈ denied fs ∨ is_dir fs l = true) then None
  else Some (l, with_entries fs (<[l := EFile ""]> (entries fs))).

(** [file.Truncate(0)] and [file.Write(data)] of a file just opened. *)
Definition Truncate (fs : Disk) (l : location) : option Disk :=
  if decide (l ∈ stuck fs) then None
  else Some (with_entries fs (<[l := EFile ""]> (entries fs))).
Definition Write (fs : Disk) (l : location) (data : string) : Disk * bool :=
  if decide (Z.of_nat (String.length data) ≤ space fs)
  then (with_entries fs (<[l := EFile data]> (entries fs)), true)
  else (with_entries fs (<[l := EFile (String.substring 0 (Z.to_nat (space fs)) data)]> (entries fs)), false).

(** ** Lemmas *)
Lemma components_slash s t :
  all_chars (λ a, a ≠ "/"%char) s → components (s +:+ String "/"%char t) = s :: components t.
Proof. apply Split_sep. Qed.

Lemma components_name s : all_chars (λ a, a ≠ "/"%char) s → components s = [s].
Proof.
  apply Split_none.
Qed.

Lemma walk_app fs l cs cs' : walk fs l (cs ++ cs') = walk fs l cs ≫= λ l', walk fs l' cs'.
Proof. revert l. induction cs as [|c cs IH]; intros l; simpl; [done|]. destruct (enter fs l c); simpl; auto. Qed.

(** Without [..] a walk stays below the directory it starts in. *)
Lemma walk_below fs l cs l' :
  Forall (λ c, c ≠ "..") cs → walk fs l cs = Some l' → l `suffix_of` l'.
Proof.
  intros Hcs. revert l. induction Hcs as [|c cs Hc Hcs IH]; simpl; intros l Hw; [by simplify_eq|].
  destruct (enter fs l c) as [l1|] eqn:E; [|done]. apply IH in Hw.
  etrans; [|exact Hw]. unfold enter in E. repeat (case_decide || case_match); simplify_eq; try done.
  by apply suffix_cons_r.
Qed.

(** Adding or rewriting a regular file where no directory was keeps every walk
    that does not end in it. *)
Lemma is_dir_insert fs l d l' :
  is_dir fs l = false → is_dir (with_entries fs (<[l := EFile d]> (entries fs))) l' = is_dir fs l'.
Proof.
  unfold is_dir. intros Hl. simpl. destruct (decide (l = l')) as [->|].
  - rewrite lookup_insert_eq. symmetry. rewrite Hl. done.
  - by rewrite lookup_insert_ne.
Qed.

Lemma enter_insert fs l d dir c :
  is_dir fs l = false → entries fs !! l ≠ None ∨ c :: dir ≠ l →
  enter (with_entries fs (<[l := EFile d]> (entries fs))) dir c = enter fs dir c.
Proof.
  intros Hl Hc. unfold enter. rewrite is_dir_insert by done.
  destruct (is_dir fs dir); simpl; [|done]. repeat case_decide; simplify_eq; try done.
  - apply lookup_insert_None in H1 as [??]. done.
  - destruct (decide (l = c :: dir)) as [->|].
    + destruct Hc; done.
    + by rewrite lookup_insert_ne in H1.
Qed.
