(* ===== verification/HttpServer.v ===== *)
(** * The web server of Lab01 ([http_server/requestHandler.go], [fileHandler.go])

    A request is what [http.ReadRequest] gives: its method, the escaped path of
    its URL, its host, its header and its body.  A handler gets the file system
    and the connection; what it does to the connection is a list of events. *)
From S2P Require Import Prelude GoStrings FileSystem.
From Stdlib Require Import Ascii.
From stdpp Require Import gmap.
#[local] Open Scope Z_scope.

(** Short-circuit conjunction of conditions that may panic. *)
Definition go_and (a b : go bool) : go bool := x ← a; if (x : bool) then b else Ret false.
Infix "&&&" := go_and (at level 40, left associativity) : go_scope.

(** ** [net/http] values *)
Definition upper (a : ascii) : ascii :=
  let n := byte_of a in if in_range 97 122 n then ascii_of (n - 32) else a.
Definition lower (a : ascii) : ascii :=
  let n := byte_of a in if in_range 65 90 n then ascii_of (n + 32) else a.
(** Header names are stored with the first letter and each one after a dash in
    upper case. *)
Fixpoint canonical_from (up : bool) (s : string) : string :=
  match s with
  | EmptyString => EmptyString
  | String a s => String (if up then upper a else lower a) (canonical_from (bool_decide (a = "-"%char)) s)
  end.
Definition canonical : string → string := canonical_from true.
Definition Header : Type := gmap string (list string).
Definition header_add (h : Header) (k v : string) : Header :=
  <[canonical k := default [] (h !! canonical k) ++ [v]]> h.
Definition header_get (h : Header) (k : string) : string :=
  match h !! canonical k with Some (v :: _) => v | _ => "" end.

Record Request : Type := MkRequest {
  Method : string;
  EscapedPath : string;           (* request.URL.EscapedPath() *)
  URLHost : string;               (* request.URL.Host *)
  reqHeader : Header;
  reqBody : string + string;      (* io.ReadAll(request.Body): its error or the data *)
}.
Record Response : Type := MkResponse {
  Status : string;
  StatusCode : Z;
  Proto : string; ProtoMajor : Z; ProtoMinor : Z;
  Body : string;
  ContentLength : Z;
  respRequest : option Request;
  respHeader : Header;
}.
Inductive event : Type := Send (r : Response) | CloseBody | Release | CloseConn.
Record World : Type := MkWorld { files : Disk; events : list event }.
Definition emit (e : event) (w : World) : World := MkWorld (files w) (events w ++ [e]).
Definition set_files (fs : Disk) (w : World) : World := MkWorld fs (events w).

(** ** [fileHandler.go] *)
Definition BASE_PATH : string := "public".
Definition ERROR_PATH_INVALID : string := "path is not valid".
Definition ERROR_PATH_NOT_FOUND : string := "path not found".
Definition ERROR_CREATING_FILE : string := "failed creating file".
Definition ERROR_TRUNCATING_FILE : string := "failed truncating file".
Definition ERROR_WRITING_FILE : string := "failed to write the file".

Definition byte_is (p : list Z) (i : Z) (c : ascii) : go bool :=
  x ← index p i; Ret (x =? byte_of c).
Fixpoint checkPath_loop (p : list Z) (n : nat) (i depth : Z) : go bool :=
  match n with
  | O => Ret true
  | S n =>
      down ← go_and (byte_is p i "/") (Ret (negb (i =? 0)));
      let depth := if (down : bool) then depth + 1 else depth in
      up ← go_and (go_and (go_and (byte_is p i "/") (byte_is p (i + 1) ".")) (byte_is p (i + 2) "."))
             (byte_is p (i + 3) "/");
      if (up : bool) then
        let depth := depth - 1 in
        if depth <? 0 then Ret false else checkPath_loop p n (i + 1) depth
      else checkPath_loop p n (i + 1) depth
  end.
Definition checkPath (path : string) : go bool :=
  let p := bytes path in checkPath_loop p (Z.to_nat (Z.of_nat (length p) - 4)) 0 0.

(** An operation answers with its error's text or its result. *)
Definition readBinaryFile (fs : Disk) (path : string) : go (string + string) :=
  ok ← checkPath path;
  if negb (ok : bool) then Ret (inl ERROR_PATH_INVALID) else
  match ReadFile fs (BASE_PATH +:+ path) with
  | None => Ret (inl ERROR_PATH_NOT_FOUND)
  | Some data => Ret (inr data)
  end.
Definition writeBinaryFile (fs : Disk) (path data : string) : go (option string * Disk) :=
  ok ← checkPath path;
  if negb (ok : bool) then Ret (Some ERROR_PATH_INVALID, fs) else
  match Create fs (BASE_PATH +:+ path) with
  | None => Ret (Some ERROR_CREATING_FILE, fs)
  | Some (file, fs) =>
      match Truncate fs file with
      | None => Ret (Some ERROR_TRUNCATING_FILE, fs)
      | Some fs =>
          match Write fs file data with
          | (fs, false) => Ret (Some ERROR_WRITING_FILE, fs)
          | (fs, true) => Ret (None, fs)
          end
      end
  end.

(** ** [requestHandler.go] *)
Definition fileFormats : gmap string string := list_to_map
  [("html", "text/html"); ("css", "text/css"); ("txt", "text/plain");
   ("jpg", "image/jpeg"); ("jpeg", "image/jpeg"); ("gif", "image/gif")].
Definition format (t : string) : string := default "" (fileFormats !! t).

Fixpoint Reverse_loop (fuel : nat) (r : list Z) (i j : Z) : go (list Z) :=
  if i <? j then
    match fuel with
    | O => NoFuel
    | S fuel =>
        rj ← index r j; ri ← index r i;
        r ← store r i rj; r ← store r j ri;
        Reverse_loop fuel r (i + 1) (j - 1)
    end
  else Ret r.
Definition Reverse (s : string) : go string :=
  let r := runes s in
  r ← Reverse_loop (length r) r 0 (Z.of_nat (length r) - 1);
  Ret (string_of_runes r).

(** [n] is [i + 1]; the bytes are written to the builder from the last one on. *)
Fixpoint getFileType_loop (p : list Z) (n : nat) (builder : list Z) : go (list Z) :=
  match n with
  | O => Ret builder
  | S n =>
      c ← index p (Z.of_nat n);
      if c =? byte_of "." then Ret builder else getFileType_loop p n (builder ++ [c])
  end.
Definition getFileType (path : string) : go (string + string) :=
  let p := bytes path in
  builder ← getFileType_loop p (length p) [];
  res ← Reverse (of_bytes builder);
  match fileFormats !! res with
  | Some _ => Ret (inr res)
  | None => Ret (inl "file type not supported")
  end.

Definition getErrorResponse (err : string) (request : option Request) : Response :=
  let '(status, statusCode) :=
    if decide (err = ERROR_PATH_INVALID) then ("Forbidden", 403)
    else if decide (err = ERROR_PATH_NOT_FOUND) then ("Not Found", 404)
    else if decide (err = ERROR_CREATING_FILE) then ("Internal Server Error", 500)
    else if decide (err = ERROR_WRITING_FILE) then ("Internal Server Error", 500)
    else if decide (err = ERROR_TRUNCATING_FILE) then ("Internal Server Error", 500)
    else ("Bad Request", 400) in
  let header := header_add ∅ "connection" "close" in
  let header := header_add header "content-type" "text/plain" in
  MkResponse status statusCode "HTTP/1.1" 1 1 err 0 request header.
Definition writeErrorResponse (err : string) (request : option Request) (w : World) : World :=
  emit (Send (getErrorResponse err request)) w.

Definition handleGet (request : Request) (w : World) : go World :=
  fileType ← getFileType (EscapedPath request);
  match fileType with
  | inl err => Ret (writeErrorResponse err (Some request) w)
  | inr fileType =>
      data ← readBinaryFile (files w) (EscapedPath request);
      match data with
      | inl err => Ret (writeErrorResponse err (Some request) w)
      | inr data =>
          let header := header_add ∅ "content-type" (format fileType) in
          let header := header_add header "connection" "close" in
          let response := MkResponse "200 OK" 200 "HTTP/1.1" 1 1 data
            (Z.of_nat (String.length data)) (Some request) header in
          Ret (emit (Send response) w)
      end
  end.

Definition handlePost (request : Request) (w : World) : go World :=
  typeOfFile ← getFileType (EscapedPath request);
  match typeOfFile with
  | inl err => Ret (writeErrorResponse err (Some request) w)
  | inr typeOfFile =>
      if negb (format typeOfFile =? header_get (reqHeader request) "Content-Type")%string
      then Ret (writeErrorResponse "filetype mismatch" (Some request) w) else
      match reqBody request with
      | inl err => Ret (writeErrorResponse err (Some request) w)
      | inr data =>
          r ← writeBinaryFile (files w) (EscapedPath request) data;
          let w := set_files r.2 w in
          match r.1 with
          | Some err => Ret (writeErrorResponse err (Some request) w)
          | None =>
              let header := header_add ∅ "connection" "close" in
              Ret (emit (Send (MkResponse "200 OK" 200 "HTTP/1.1" 1 1 "" 0 (Some request) header)) w)
          end
      end
  end.

(** What a connection brings: the error of [http.ReadRequest] or the request.
    The deferred calls run last first. *)
Definition handleConnection (incoming : string + Request) (fs : Disk) : go World :=
  let w := MkWorld fs [] in
  let deferred w := emit CloseConn (emit Release w) in
  match incoming with
  | inl err => Ret (deferred (writeErrorResponse err None w))
  | inr request =>
      w ← (if (Method request =? "GET")%string then handleGet request w
           else if (Method request =? "POST")%string then handlePost request w
           else
             let header := header_add ∅ "connection" "close" in
             Ret (emit (Send (MkResponse "Not Implemented" 501 "HTTP/1.1" 1 1 "" 0 (Some request) header)) w));
      Ret (deferred (emit CloseBody w))
  end.
