(* ===== verification/HttpProof.v ===== *)
(** * The web server: file types, the path check and the handlers *)
From S2P Require Import Prelude GoStrings Utf8 FileSystem HttpServer.
From Stdlib Require Import Ascii.
From stdpp Require Import gmap.
#[local] Open Scope Z_scope.

(** ** Reverse *)
Lemma Reverse_loop_spec fuel (pre mid post : list Z) :
  (length mid ≤ fuel)%nat → length pre = length post →
  Reverse_loop fuel (pre ++ mid ++ post) (Z.of_nat (length pre))
    (Z.of_nat (length pre + length mid) - 1) = Ret (pre ++ reverse mid ++ post).
Proof.
  revert pre mid post. induction fuel as [|fuel IH]; intros pre mid post Hf Hl.
  { destruct mid; [|simpl in Hf; lia]. simpl. destruct (Z.ltb_spec (Z.of_nat (length pre)) (Z.of_nat (length pre + 0) - 1)); [lia|done]. }
  cbn [Reverse_loop]. destruct (Z.ltb_spec (Z.of_nat (length pre)) (Z.of_nat (length pre + length mid) - 1)).
  2: { do 2 f_equal. f_equal. destruct mid as [|x [|y mid]]; [done|done|simpl in *; lia]. }
  destruct mid as [|x mid]; [simpl in *; lia|].
  destruct mid as [|y mid _] using rev_ind; [simpl in *; lia|].
  assert (length (x :: mid ++ [y]) = S (S (length mid))) as Hlen
    by (simpl; rewrite length_app; simpl; lia).
  rewrite Hlen in *.
  set (r := pre ++ _). set (j := Z.of_nat _ - 1).
  assert (j = Z.of_nat (S (length pre + length mid))) as ->.
  { subst j. lia. }
  assert (r = (pre ++ x :: mid) ++ y :: post) as Hr1 by (subst r; simpl; by rewrite <-!app_assoc).
  rewrite (index_lookup r (S (length pre + length mid)) y).
  2: { rewrite Hr1. apply list_lookup_middle. rewrite length_app. cbn [length]. lia. }
  simpl. rewrite (index_lookup r (length pre) x).
  2: { subst r. apply list_lookup_middle. done. }
  simpl. rewrite store_lt.
  2: { subst r. rewrite !length_app. simpl. lia. }
  simpl. rewrite Nat2Z.id. subst r. rewrite store_lt.
  2: { rewrite length_insert, !length_app. simpl. rewrite length_app. simpl. lia. }
  simpl. rewrite Nat2Z.id. rewrite insert_app_r_alt, Nat.sub_diag by lia. simpl.
  rewrite insert_app_r_alt by lia.
  replace (S (length pre + length mid) - length pre)%nat with (S (length mid)) by lia. simpl.
  rewrite <-app_assoc, insert_app_r_alt, Nat.sub_diag by lia. simpl.
  specialize (IH (pre ++ [y]) mid (x :: post)). rewrite length_app in IH. simpl in IH.
  rewrite <-!app_assoc in IH. simpl in IH.
  replace (Z.of_nat (length pre) + 1) with (Z.of_nat (length pre + 1)) by lia.
  replace (Z.of_nat (S (length pre + length mid)) - 1) with (Z.of_nat (length pre + 1 + length mid) - 1) by lia.
  rewrite IH by (simpl; lia). rewrite reverse_cons, reverse_snoc, <-!app_assoc. done.
Qed.

Lemma Reverse_runes s : Reverse s = Ret (string_of_runes (reverse (runes s))).
Proof.
  unfold Reverse. pose proof (Reverse_loop_spec (length (runes s)) [] (runes s) [] ltac:(done) eq_refl) as H.
  simpl in H. rewrite !app_nil_r in H. change (Z.of_nat 0) with 0 in H. by rewrite H.
Qed.

(** ** File types *)
Definition has_type (path t : string) : Prop :=
  t ∈ dom fileFormats ∧ (path = t ∨ ∃ stem, path = stem +:+ "." +:+ t).

#[local] Notation "'dot'" := (byte_of ".") (at level 0).

Lemma last_field (l : list Z) :
  ∃ stem x, l = stem ++ x ∧ (dot ∉ x) ∧ (stem = [] ∨ ∃ s, stem = s ++ [dot]).
Proof.
  induction l as [|c l IH] using rev_ind.
  { exists [], []. split; [done|]. split; [by apply not_elem_of_nil|by left]. }
  destruct (decide (c = dot)) as [->|Hc].
  { exists (l ++ [dot]), []. rewrite app_nil_r. split; [done|].
    split; [by apply not_elem_of_nil|eauto]. }
  destruct IH as (stem & x & -> & Hx & Hs). exists stem, (x ++ [c]).
  rewrite app_assoc. split; [done|]. split; [set_solver|done].
Qed.

Lemma getFileType_loop_spec stem x post b :
  dot ∉ x → (stem = [] ∨ ∃ s, stem = s ++ [dot]) →
  getFileType_loop (stem ++ x ++ post) (length (stem ++ x)) b = Ret (b ++ reverse x).
Proof.
  intros Hx Hs. revert post b. induction x as [|c x IH] using rev_ind; intros post b.
  - change (reverse (@nil Z)) with (@nil Z). rewrite !app_nil_r. destruct Hs as [->|[s ->]]; [done|].
    rewrite length_app, Nat.add_comm. simpl. rewrite (index_lookup _ _ dot); [done|].
    rewrite <-app_assoc. by apply list_lookup_middle.
  - replace (length (stem ++ x ++ [c])) with (S (length (stem ++ x))) by (rewrite !length_app; simpl; lia).
    cbn [getFileType_loop]. rewrite (index_lookup _ _ c).
    2: { rewrite <-(app_assoc x), (app_assoc stem). by apply list_lookup_middle. }
    simpl. destruct (Z.eqb_spec c dot) as [->|Hc]; [set_solver|].
    rewrite <-app_assoc. simpl. rewrite IH by set_solver.
    rewrite reverse_snoc, <-app_assoc. done.
Qed.

Lemma fileFormats_ascii t : t ∈ dom fileFormats → Forall ascii_byte (bytes t) ∧ dot ∉ bytes t.
Proof.
  intros Ht. assert (t ∈ ["html"; "css"; "txt"; "jpg"; "jpeg"; "gif"]) as Hin.
  { apply elem_of_dom in Ht as [v Hv]. apply elem_of_list_to_map_2 in Hv. set_solver. }
  rewrite !elem_of_cons in Hin. unfold ascii_byte.
  destruct_or! Hin; subst; try (by apply not_elem_of_nil in Hin); split;
    (apply (bool_decide_eq_true_1 _); vm_compute; reflexivity).
Qed.

Lemma field_of_type path t stem x :
  has_type path t → bytes path = stem ++ x → dot ∉ x → (stem = [] ∨ ∃ s, stem = s ++ [dot]) →
  x = bytes t.
Proof.
  intros [Ht Hp] Hb Hx Hs. destruct (fileFormats_ascii t Ht) as [_ Hdot].
  assert (∃ stem', bytes path = stem' ++ bytes t ∧ (stem' = [] ∨ ∃ s, stem' = s ++ [dot]))
    as (stem' & Hb' & Hs').
  { destruct Hp as [->|[s ->]]; [exists []; auto|]. exists (bytes s ++ [dot]).
    rewrite !bytes_app, app_assoc. eauto. }
  rewrite Hb in Hb'. clear Hb Hp. revert Hb' Hx Hs.
  generalize dependent (bytes t). intros y Hy Heq Hx Hs.
  apply app_eq_inv in Heq as [(k & -> & ->)|(k & -> & ->)]; destruct k as [|c k _] using rev_ind;
    try (by rewrite ?app_nil_l, ?app_nil_r); exfalso.
  - destruct Hs as [Hs|[s Hs]]; [by destruct stem', k|].
    rewrite app_assoc in Hs. apply app_inj_tail in Hs as [_ ->]. set_solver.
  - destruct Hs' as [Hs'|[s Hs']]; [by destruct stem, k|].
    rewrite app_assoc in Hs'. apply app_inj_tail in Hs' as [_ ->]. set_solver.
Qed.

Lemma getFileType_cases path :
  (∃ t, getFileType path = Ret (inr t) ∧ has_type path t) ∨
  (getFileType path = Ret (inl "file type not supported") ∧ ∀ t, ¬ has_type path t).
Proof.
  destruct (last_field (bytes path)) as (stem & x & Hb & Hx & Hs).
  assert (Forall is_byte x) as Hbx.
  { pose proof (bytes_range path) as H. rewrite Hb in H. by apply Forall_app in H as [_ ?]. }
  unfold getFileType. pose proof (getFileType_loop_spec stem x [] [] Hx Hs) as Hl.
  rewrite app_nil_r in Hl. rewrite Hb, Hl. simpl. rewrite Reverse_runes. simpl.
  set (res := string_of_runes _).
  assert (Forall ascii_byte x → res = of_bytes x) as Hres.
  { intros Ha. subst res. unfold runes. rewrite bytes_of_bytes by by apply Forall_reverse.
    rewrite decode_ascii by by apply Forall_reverse.
    rewrite reverse_involutive. by apply string_of_ascii. }
  assert (Forall ascii_byte (bytes res) → Forall ascii_byte x) as Hinv.
  { intros Ha. apply (string_of_runes_ascii _ _ eq_refl) in Ha.
    apply (proj1 (Forall_reverse _ _)) in Ha. unfold runes in Ha.
    rewrite bytes_of_bytes in Ha by by apply Forall_reverse.
    apply Forall_reverse. eapply decode_ascii_inv; [done|by apply Forall_reverse|].
    eapply Forall_impl; [exact Ha|]. unfold ascii_byte. simpl. lia. }
  clearbody res. destruct (fileFormats !! res) as [v|] eqn:E.
  - left. exists res. split; [done|]. assert (res ∈ dom fileFormats) as Hd by by eapply elem_of_dom_2.
    split; [done|]. destruct (fileFormats_ascii res Hd) as [Ha _].
    rewrite Hres by auto. destruct Hs as [->|[s ->]].
    + left. simpl in Hb. by rewrite <-Hb, of_bytes_bytes.
    + right. exists (of_bytes s). rewrite <-(of_bytes_bytes path), Hb, <-app_assoc, !of_bytes_app. done.
  - right. split; [done|]. intros t Ht. assert (x = bytes t) as -> by by eapply field_of_type.
    destruct Ht as [Hd _]. destruct (fileFormats_ascii t Hd) as [Ha _].
    rewrite Hres, of_bytes_bytes in E by done. by apply not_elem_of_dom in E.
Qed.

(** ** The path check *)
Definition climbs (path : string) : Prop := ∃ c s, path = "/../" +:+ String c s.

Lemma byte_is_lt p i c x :
  0 ≤ i → p !! Z.to_nat i = Some x → byte_is p i c = Ret (x =? byte_of c).
Proof. intros Hi Hx. unfold byte_is, index. rewrite decide_True by done. by rewrite Hx. Qed.

Lemma byte_is_total p i c : 0 ≤ i < Z.of_nat (length p) → ∃ b, byte_is p i c = Ret b.
Proof.
  intros Hi. destruct (lookup_lt_is_Some_2 p (Z.to_nat i)) as [x Hx]; [lia|].
  exists (x =? byte_of c). apply byte_is_lt; [lia|done].
Qed.

Lemma go_and_Ret (a b : bool) : go_and (Ret a) (Ret b) = Ret (a && b).
Proof. by destruct a. Qed.

(** Away from the first byte, a step that goes up has just gone down. *)
Lemma checkPath_loop_true p n i depth :
  1 ≤ i → 0 ≤ depth → i + Z.of_nat n + 4 ≤ Z.of_nat (length p) →
  checkPath_loop p n i depth = Ret true.
Proof.
  revert i depth. induction n as [|n IH]; intros i depth Hi Hd Hn; [done|].
  cbn [checkPath_loop]. destruct (byte_is_total p i "/"%char) as [b0 E0]; [lia|].
  destruct (byte_is_total p (i + 1) "."%char) as [b1 E1]; [lia|].
  destruct (byte_is_total p (i + 2) "."%char) as [b2 E2]; [lia|].
  destruct (byte_is_total p (i + 3) "/"%char) as [b3 E3]; [lia|].
  rewrite E0, E1, E2, E3, !go_and_Ret. simpl.
  destruct (Z.eqb_spec i 0); [lia|]. destruct b0; simpl.
  - destruct (b1 && b2 && b3); simpl; [|by apply IH; lia].
    destruct (Z.ltb_spec (depth + 1 - 1) 0); [lia|]. apply IH; lia.
  - by apply IH; lia.
Qed.

Lemma climbs_bytes path :
  climbs path ↔ ∃ c l, bytes path = byte_of "/" :: byte_of "." :: byte_of "." :: byte_of "/" :: c :: l.
Proof.
  split.
  - intros (c & s & ->). by exists (byte_of c), (bytes s).
  - intros (c & l & Hb). pose proof (bytes_range path) as Hr. rewrite Hb in Hr.
    do 4 apply Forall_inv_tail in Hr. exists (ascii_of c), (of_bytes l).
    apply (inj bytes). rewrite bytes_app, Hb.
    change (bytes (String (ascii_of c) (of_bytes l))) with (byte_of (ascii_of c) :: bytes (of_bytes l)).
    apply Forall_cons in Hr as [??]. by rewrite byte_of_ascii_of, bytes_of_bytes.
Qed.

Lemma checkPath_cases path :
  (checkPath path = Ret true ∧ ¬ climbs path) ∨ (checkPath path = Ret false ∧ climbs path).
Proof.
  rewrite climbs_bytes. unfold checkPath. generalize (bytes path). intros p.
  destruct p as [|b0 [|b1 [|b2 [|b3 [|b4 l]]]]]; try (left; split; [done|naive_solver]).
  set (p := b0 :: _). replace (Z.to_nat (Z.of_nat (length p) - 4)) with (S (length l))
    by (subst p; simpl; lia).
  cbn [checkPath_loop].
  rewrite (byte_is_lt p 0 _ b0), (byte_is_lt p (0 + 1) _ b1), (byte_is_lt p (0 + 2) _ b2),
    (byte_is_lt p (0 + 3) _ b3), !go_and_Ret, andb_false_r by done. simpl.
  destruct (_ && _ && _ && _) eqn:E; simpl.
  - right. split; [done|]. rewrite !andb_true_iff, !Z.eqb_eq in E. destruct E as [[[-> ->] ->] ->].
    unfold p. eauto.
  - left. split; [apply checkPath_loop_true; subst p; simpl; lia|].
    intros (c & l' & Hp). subst p. by simplify_eq.
Qed.

(** The path check never panics, and it refuses exactly the paths that
    begin with [/../] and go on: a [..] anywhere else, or at the end, passes. *)
Lemma checkPath_spec path :
  ∃ ok, checkPath path = Ret ok ∧ (ok = false ↔ climbs path).
Proof. destruct (checkPath_cases path) as [[-> H]|[-> H]]; eexists; split; naive_solver. Qed.

(** The file type of a path is the supported extension that follows its
    last dot (or the whole path); any other path is an error.  The bytewise
    reversal and the one by runes cancel out on every type that is accepted. *)
Lemma getFileType_spec path :
  (∃ t, getFileType path = Ret (inr t) ∧ has_type path t) ∨
  (getFileType path = Ret (inl "file type not supported") ∧ ∀ t, ¬ has_type path t).
Proof. apply getFileType_cases. Qed.

(** ** Where a path leads *)
Lemma start_public fs path : start fs (BASE_PATH +:+ path) = cwd fs.
Proof. done. Qed.
Lemma components_public path : components (BASE_PATH +:+ String "/"%char path) = BASE_PATH :: components path.
Proof. apply components_slash. simpl. naive_solver. Qed.

(** The location that a request's path names. *)
Definition served (fs : Disk) (path : string) : option location := resolve fs (BASE_PATH +:+ path).

Lemma is_dir_Some fs l : is_dir fs l = true → entries fs !! l ≠ None.
Proof. unfold is_dir. rewrite bool_decide_eq_true. by intros ->. Qed.
Lemma enter_child fs l c :
  is_dir fs l = true → c ∉ [""; "."; ".."] → entries fs !! (c :: l) ≠ None →
  enter fs l c = Some (c :: l).
Proof.
  intros Hl Hc He. unfold enter. rewrite Hl. simpl. rewrite !decide_False by set_solver. done.
Qed.
Lemma enter_up fs l : is_dir fs l = true → enter fs l ".." = Some (tail l).
Proof. intros Hl. unfold enter. by rewrite Hl. Qed.

(** A path of a URL (it begins with a slash) whose components are not [..]
    is only ever read from and written to below the directory [public]. *)
Lemma served_below_public fs path l :
  Forall (λ c, c ≠ "..") (components path) →
  served fs (String "/"%char path) = Some l ∨ target fs (BASE_PATH +:+ String "/"%char path) = Some l →
  (BASE_PATH :: cwd fs) `suffix_of` l.
Proof.
  intros Hc [Hr|Ht].
  - unfold served, resolve in Hr. rewrite start_public, components_public in Hr.
    simpl in Hr. destruct (enter fs (cwd fs) BASE_PATH) as [l0|] eqn:E; [|done].
    apply walk_below in Hr; [|done]. unfold enter in E. simpl in E. by repeat case_match; simplify_eq.
  - unfold target in Ht. rewrite start_public, components_public in Ht.
    destruct (split_from_cons "/" path "") as (c & cs & Hcs). unfold components, Split in Hc, Ht. rewrite Hcs in Hc, Ht.
    change (removelast (BASE_PATH :: c :: cs)) with (BASE_PATH :: removelast (c :: cs)) in Ht.
    change (List.last (BASE_PATH :: c :: cs) "") with (List.last (c :: cs) "") in Ht.
    cbn [walk] in Ht. destruct (enter fs (cwd fs) BASE_PATH) as [l0|] eqn:E; [|done]. simpl in Ht.
    destruct (walk fs l0 _) as [dir|] eqn:Ew; [|done]. simpl in Ht. case_decide; simplify_eq.
    apply suffix_cons_r. apply walk_below in Ew.
    + unfold enter in E. simpl in E. by repeat case_match; simplify_eq.
    + rewrite (app_removelast_last "" (l := c :: cs)) in Hc by done.
      by apply Forall_app in Hc as [? _].
Qed.

(** C25 The path check does not confine a request to [public]: below any
    directory [d] of [public], the path [/d/../../f] reads the file [f] next to
    [public]. *)
Theorem served_outside_public fs d f data :
  all_chars (λ a, a ≠ "/"%char) d → d ∉ [""; "."; ".."] →
  all_chars (λ a, a ≠ "/"%char) f → f ∉ [""; "."; ".."] →
  is_dir fs (cwd fs) = true → is_dir fs (BASE_PATH :: cwd fs) = true →
  is_dir fs (d :: BASE_PATH :: cwd fs) = true →
  entries fs !! (f :: cwd fs) = Some (EFile data) → f :: cwd fs ∉ denied fs →
  readBinaryFile fs ("/" +:+ d +:+ "/../../" +:+ f) = Ret (inr data).
Proof.
  intros Hd Hd' Hf Hf' H0 H1 H2 He Hn. unfold readBinaryFile.
  destruct (checkPath_cases ("/" +:+ d +:+ "/../../" +:+ f)) as [[-> _]|[_ (c & s & Hs)]].
  2: { change (String "/"%char (d +:+ "/../../" +:+ f) = String "/"%char ("../" +:+ String c s)) in Hs.
       injection Hs as Hs. exfalso. apply Hd'.
       destruct (sep_inj "/" d ".." ("../../" +:+ f) (String c s)) as [-> _]; [done|simpl; naive_solver|exact Hs|set_solver]. }
  simpl. unfold ReadFile, resolve. rewrite start_public.
  change ("/" +:+ d +:+ "/../../" +:+ f) with (String "/"%char (d +:+ String "/"%char (".." +:+ String "/"%char (".." +:+ String "/"%char f)))).
  rewrite components_public, !components_slash, components_name by (done || (simpl; naive_solver)).
  assert (BASE_PATH ∉ [""; "."; ".."]) as HB by (apply (bool_decide_eq_true_1 _); vm_compute; done).
  pose proof (is_dir_Some fs _ H1). pose proof (is_dir_Some fs _ H2).
  cbn [walk]. rewrite (enter_child fs (cwd fs)) by done. simpl.
  rewrite (enter_child fs _ d) by done. simpl.
  rewrite (enter_up fs (d :: _)) by done. simpl. rewrite enter_up by done. simpl.
  rewrite (enter_child fs _ f) by (done || by rewrite He). simpl.
  rewrite decide_False by done. unfold location in *. by rewrite He.
Qed.

Lemma served_outside_public_witness :
  let fs := MkDisk (list_to_map [([], EDir); (["public"], EDir); (["img"; "public"], EDir);
                                 (["secret.txt"], EFile "key")]) [] ∅ ∅ 100 in
  readBinaryFile fs "/img/../../secret.txt" = Ret (inr "key").
Proof.
  apply (served_outside_public _ "img" "secret.txt" "key").
  all: try (vm_compute; reflexivity).
  all: try (simpl; repeat split; discriminate).
  all: apply (bool_decide_eq_true_1 _); vm_compute; reflexivity.
Defined.
