(* ===== verification/HttpService.v ===== *)
(** * The web server: what a connection is answered, and posted files *)
From S2P Require Import Prelude GoStrings Utf8 FileSystem HttpServer HttpProof.
From Stdlib Require Import Ascii.
From stdpp Require Import gmap.
#[local] Open Scope Z_scope.

(** ** The contract of the service *)
Definition status_of (err : string) : Z :=
  if decide (err = ERROR_PATH_INVALID) then 403
  else if decide (err = ERROR_PATH_NOT_FOUND) then 404
  else if decide (err ∈ [ERROR_CREATING_FILE; ERROR_WRITING_FILE; ERROR_TRUNCATING_FILE]) then 500
  else 400.

(** [serves fs req status body fs']: the status and the body that a request is
    answered, and the files afterwards. *)
Inductive serves (fs : Disk) (req : Request) : Z → string → Disk → Prop :=
| serves_method :
    Method req ≠ "GET" → Method req ≠ "POST" → serves fs req 501 "" fs
| serves_no_type :
    Method req = "GET" ∨ Method req = "POST" → (∀ t, ¬ has_type (EscapedPath req) t) →
    serves fs req 400 "file type not supported" fs
| serves_get_forbidden t :
    Method req = "GET" → has_type (EscapedPath req) t → climbs (EscapedPath req) →
    serves fs req 403 ERROR_PATH_INVALID fs
| serves_get_missing t :
    Method req = "GET" → has_type (EscapedPath req) t → ¬ climbs (EscapedPath req) →
    ReadFile fs (BASE_PATH +:+ EscapedPath req) = None →
    serves fs req 404 ERROR_PATH_NOT_FOUND fs
| serves_get t data :
    Method req = "GET" → has_type (EscapedPath req) t → ¬ climbs (EscapedPath req) →
    ReadFile fs (BASE_PATH +:+ EscapedPath req) = Some data →
    serves fs req 200 data fs
| serves_mismatch t :
    Method req = "POST" → has_type (EscapedPath req) t →
    format t ≠ header_get (reqHeader req) "Content-Type" →
    serves fs req 400 "filetype mismatch" fs
| serves_body t err :
    Method req = "POST" → has_type (EscapedPath req) t →
    format t = header_get (reqHeader req) "Content-Type" → reqBody req = inl err →
    serves fs req (status_of err) err fs
| serves_post_forbidden t data :
    Method req = "POST" → has_type (EscapedPath req) t →
    format t = header_get (reqHeader req) "Content-Type" → reqBody req = inr data →
    climbs (EscapedPath req) →
    serves fs req 403 ERROR_PATH_INVALID fs
| serves_create t data :
    Method req = "POST" → has_type (EscapedPath req) t →
    format t = header_get (reqHeader req) "Content-Type" → reqBody req = inr data →
    ¬ climbs (EscapedPath req) → Create fs (BASE_PATH +:+ EscapedPath req) = None →
    serves fs req 500 ERROR_CREATING_FILE fs
| serves_truncate t data l fs1 :
    Method req = "POST" → has_type (EscapedPath req) t →
    format t = header_get (reqHeader req) "Content-Type" → reqBody req = inr data →
    ¬ climbs (EscapedPath req) → Create fs (BASE_PATH +:+ EscapedPath req) = Some (l, fs1) →
    l ∈ stuck fs →
    serves fs req 500 ERROR_TRUNCATING_FILE fs1
| serves_write t data l fs1 :
    Method req = "POST" → has_type (EscapedPath req) t →
    format t = header_get (reqHeader req) "Content-Type" → reqBody req = inr data →
    ¬ climbs (EscapedPath req) → Create fs (BASE_PATH +:+ EscapedPath req) = Some (l, fs1) →
    l ∉ stuck fs → space fs < Z.of_nat (String.length data) →
    serves fs req 500 ERROR_WRITING_FILE
      (with_entries fs (<[l := EFile (String.substring 0 (Z.to_nat (space fs)) data)]> (entries fs)))
| serves_post t data l fs1 :
    Method req = "POST" → has_type (EscapedPath req) t →
    format t = header_get (reqHeader req) "Content-Type" → reqBody req = inr data →
    ¬ climbs (EscapedPath req) → Create fs (BASE_PATH +:+ EscapedPath req) = Some (l, fs1) →
    l ∉ stuck fs → Z.of_nat (String.length data) ≤ space fs →
    serves fs req 200 "" (with_entries fs (<[l := EFile data]> (entries fs))).

Lemma getErrorResponse_spec err request :
  StatusCode (getErrorResponse err request) = status_of err ∧
  Body (getErrorResponse err request) = err ∧
  respRequest (getErrorResponse err request) = request ∧
  header_get (respHeader (getErrorResponse err request)) "connection" = "close".
Proof.
  unfold getErrorResponse, status_of. repeat case_decide; simplify_eq/=; try done; exfalso; set_solver.
Qed.

(** What every answer to a request has. *)
Definition answers (req : Request) (status : Z) (body : string) (r : Response) : Prop :=
  StatusCode r = status ∧ Body r = body ∧ respRequest r = Some req ∧
  header_get (respHeader r) "connection" = "close".
Definition answered (req : Request) (status : Z) (body : string) (w w' : World) (fs' : Disk) : Prop :=
  ∃ r, w' = MkWorld fs' (events w ++ [Send r]) ∧ answers req status body r.

Lemma error_answered err req w :
  answered req (status_of err) err w (writeErrorResponse err (Some req) w) (files w).
Proof. eexists. split; [done|]. apply getErrorResponse_spec. Qed.

Lemma handleGet_serves req w :
  Method req = "GET" →
  ∃ w' status body, handleGet req w = Ret w' ∧ serves (files w) req status body (files w) ∧
    answered req status body w w' (files w).
Proof.
  intros Hm. unfold handleGet.
  destruct (getFileType_cases (EscapedPath req)) as [(t & -> & Ht)|[-> Ht]]; go_step.
  2: { do 3 eexists. split; [done|]. split; [by apply serves_no_type; [left|]|].
       apply (error_answered "file type not supported"). }
  unfold readBinaryFile.
  destruct (checkPath_cases (EscapedPath req)) as [[-> Hc]|[-> Hc]]; cbn [mbind go_bind negb].
  2: { do 3 eexists. split; [done|]. split; [by eapply serves_get_forbidden|].
       apply (error_answered ERROR_PATH_INVALID). }
  destruct (ReadFile (files w) (BASE_PATH +:+ EscapedPath req)) as [data|] eqn:E; go_step.
  - do 3 eexists. split; [done|]. split; [by eapply serves_get|]. eexists. split; [done|]. done.
  - do 3 eexists. split; [done|]. split; [by eapply serves_get_missing|].
    apply (error_answered ERROR_PATH_NOT_FOUND).
Qed.

Lemma handlePost_serves req w :
  Method req = "POST" →
  ∃ w' status body fs', handlePost req w = Ret w' ∧ serves (files w) req status body fs' ∧
    answered req status body w w' fs'.
Proof.
  intros Hm. unfold handlePost.
  destruct (getFileType_cases (EscapedPath req)) as [(t & -> & Ht)|[-> Ht]]; go_step.
  2: { do 4 eexists. split; [done|]. split; [by apply serves_no_type; [right|]|].
       apply (error_answered "file type not supported"). }
  destruct (String.eqb_spec (format t) (header_get (reqHeader req) "Content-Type")) as [He|He]; cbn [negb].
  2: { do 4 eexists. split; [done|]. split; [by eapply serves_mismatch|].
       apply (error_answered "filetype mismatch"). }
  destruct (reqBody req) as [err|data] eqn:Eb.
  { do 4 eexists. split; [done|]. split; [by eapply serves_body|]. apply error_answered. }
  unfold writeBinaryFile.
  destruct (checkPath_cases (EscapedPath req)) as [[-> Hc]|[-> Hc]]; cbn [mbind go_bind negb].
  2: { do 4 eexists. split; [done|]. split; [by eapply serves_post_forbidden|].
       apply (error_answered ERROR_PATH_INVALID _ (set_files (files w) w)). }
  destruct (Create (files w) (BASE_PATH +:+ EscapedPath req)) as [[l fs1]|] eqn:E.
  2: { do 4 eexists. split; [done|]. split; [by eapply serves_create|].
       apply (error_answered ERROR_CREATING_FILE _ (set_files (files w) w)). }
  assert (fs1 = with_entries (files w) (<[l := EFile ""]> (entries (files w)))) as Hfs1.
  { unfold Create in E. destruct (target _ _); simpl in E; repeat case_decide; by simplify_eq. }
  unfold Truncate. replace (stuck fs1) with (stuck (files w)) by by rewrite Hfs1.
  case_decide as Hs.
  { do 4 eexists. split; [done|]. split; [by eapply serves_truncate|].
    apply (error_answered ERROR_TRUNCATING_FILE _ (set_files fs1 w)). }
  unfold Write. cbn [space with_entries entries]. replace (space fs1) with (space (files w)) by by rewrite Hfs1.
  assert (∀ d, with_entries (with_entries fs1 (<[l:=EFile ""]> (entries fs1)))
      (<[l := EFile d]> (<[l := EFile ""]> (entries fs1))) =
    with_entries (files w) (<[l := EFile d]> (entries (files w)))) as Heq.
  { intros d. rewrite Hfs1. unfold with_entries. simpl. by rewrite !insert_insert_eq. }
  rewrite !Heq. case_decide as Hsp; go_step.
  - do 4 eexists. split; [done|]. split; [by eapply serves_post|]. eexists. split; [done|]. done.
  - do 4 eexists. split; [done|]. split; [eapply serves_write; eauto; lia|].
    apply (error_answered ERROR_WRITING_FILE _ (set_files _ w)).
Qed.

Lemma handleConnection_answered req fs :
  ∃ r fs', handleConnection (inr req) fs =
      Ret (MkWorld fs' [Send r; CloseBody; Release; CloseConn]) ∧
    serves fs req (StatusCode r) (Body r) fs' ∧ respRequest r = Some req ∧
    header_get (respHeader r) "connection" = "close".
Proof.
  unfold handleConnection.
  destruct (String.eqb_spec (Method req) "GET") as [Hg|Hg].
  { destruct (handleGet_serves req (MkWorld fs []) Hg) as (w' & st & b & -> & Hs & (r & -> & <- & <- & ? & ?)).
    exists r, fs. by split_and!. }
  destruct (String.eqb_spec (Method req) "POST") as [Hp|Hp].
  { destruct (handlePost_serves req (MkWorld fs []) Hp) as (w' & st & b & fs' & -> & Hs & (r & -> & <- & <- & ? & ?)).
    exists r, fs'. by split_and!. }
  eexists _, fs. split; [done|]. split; [|done]. by apply serves_method.
Qed.

(** C23 Every connection is answered exactly once: whatever the request and the
    files, the handler neither panics nor blocks, writes one response, which is
    the one the contract [serves] gives (with the files it leaves), and then
    closes the body, gives the semaphore back and closes the connection, in
    this order.  A request that cannot be parsed gets one error response. *)
Theorem handleConnection_serves incoming fs :
  match incoming with
  | inr req => ∃ r fs', handleConnection incoming fs =
      Ret (MkWorld fs' [Send r; CloseBody; Release; CloseConn]) ∧
    serves fs req (StatusCode r) (Body r) fs' ∧ respRequest r = Some req ∧
    header_get (respHeader r) "connection" = "close"
  | inl err => ∃ r, handleConnection incoming fs = Ret (MkWorld fs [Send r; Release; CloseConn]) ∧
    StatusCode r = status_of err ∧ Body r = err ∧ respRequest r = None
  end.
Proof.
  destruct incoming as [err|req]; [|apply handleConnection_answered].
  eexists. split; [done|]. destruct (getErrorResponse_spec err None) as (? & ? & ? & _). done.
Qed.

(** ** Files that were posted *)
Section write.
Context (fs : Disk) (l : location) (data : string) (Hl : is_dir fs l = false).
Notation fs' := (with_entries fs (<[l := EFile data]> (entries fs))).

Lemma enter_mono d c x : enter fs d c = Some x → enter fs' d c = Some x.
Proof.
  unfold enter. rewrite is_dir_insert by done. destruct (is_dir fs d); simpl; [|done].
  case_decide; [done|]. case_decide; [done|]. case_decide as Hn; [done|].
  rewrite decide_False; [done|]. rewrite lookup_insert_None. tauto.
Qed.
Lemma walk_mono d cs x : walk fs d cs = Some x → walk fs' d cs = Some x.
Proof.
  revert d. induction cs as [|c cs IH]; intros d; simpl; [done|].
  destruct (enter fs d c) as [y|] eqn:E; [|done]. rewrite (enter_mono d c y E). simpl. apply IH.
Qed.

Lemma target_resolve path : target fs path = Some l → resolve fs' path = Some l.
Proof.
  unfold target, resolve. destruct (split_from_cons "/" path "") as (c & cs & Hcs).
  unfold components, Split. rewrite Hcs. intros Ht.
  destruct (walk fs (start fs path) (removelast (c :: cs))) as [dir|] eqn:Ew; [|done].
  cbn [mbind option_bind] in Ht. case_decide as Hd; [|done]. destruct Hd as [Hd Hn].
  rewrite (app_removelast_last "" (l := c :: cs)), walk_app by done.
  change (start fs' path) with (start fs path). rewrite (walk_mono _ _ _ Ew).
  cbn [mbind option_bind walk]. rewrite enter_child.
  - exact Ht.
  - by rewrite is_dir_insert.
  - done.
  - assert (List.last (c :: cs) "" :: dir = l) as -> by congruence. cbn [entries with_entries]. by rewrite lookup_insert_eq.
Qed.

Lemma ReadFile_kept path l' d :
  resolve fs path = Some l' → l' ≠ l → ReadFile fs path = Some d → ReadFile fs' path = Some d.
Proof.
  unfold ReadFile. intros Hr Hne. rewrite Hr. unfold resolve in *.
  change (start fs' path) with (start fs path). rewrite (walk_mono _ _ _ Hr).
  cbn [mbind option_bind]. change (denied fs') with (denied fs). case_decide; [done|].
  cbn [entries with_entries]. by rewrite lookup_insert_ne.
Qed.
End write.

Lemma has_type_unique path t t' : has_type path t → has_type path t' → t = t'.
Proof.
  intros Ht Ht'. destruct (last_field (bytes path)) as (stem & x & Hb & Hx & Hs).
  apply (inj bytes). rewrite <-(field_of_type path t stem x), <-(field_of_type path t' stem x); done.
Qed.

(** The answer to a GET of a file that is there. *)
Definition found (get : Request) (t data : string) : Response :=
  MkResponse "200 OK" 200 "HTTP/1.1" 1 1 data (Z.of_nat (String.length data)) (Some get)
    (header_add (header_add ∅ "content-type" (format t)) "connection" "close").

Lemma handleGet_found get fs t data :
  Method get = "GET" → has_type (EscapedPath get) t → ¬ climbs (EscapedPath get) →
  ReadFile fs (BASE_PATH +:+ EscapedPath get) = Some data →
  handleConnection (inr get) fs =
    Ret (MkWorld fs [Send (found get t data); CloseBody; Release; CloseConn]).
Proof.
  intros Hg Ht Hc Hr. unfold handleConnection. rewrite Hg. simpl. unfold handleGet.
  destruct (getFileType_cases (EscapedPath get)) as [(t' & -> & Ht')|[_ Hn]]; [|by destruct (Hn t)].
  rewrite (has_type_unique _ _ _ Ht' Ht). go_step. unfold readBinaryFile.
  destruct (checkPath_cases (EscapedPath get)) as [[-> _]|[_ Hc']]; [|done].
  cbn [mbind go_bind negb files]. by rewrite Hr.
Qed.

(** C24 A file that was posted is served: after a POST that is answered 200,
    every GET of the same path is answered 200 with the posted bytes, their
    number and the content type of the POST, and a file at any other location
    still reads the same. *)
Theorem post_then_get fs post w r rest :
  Method post = "POST" → handleConnection (inr post) fs = Ret w →
  events w = Send r :: rest → StatusCode r = 200 →
  ∃ data l, reqBody post = inr data ∧ target fs (BASE_PATH +:+ EscapedPath post) = Some l ∧
    (∀ get, Method get = "GET" → EscapedPath get = EscapedPath post →
     ∃ r', handleConnection (inr get) (files w) =
         Ret (MkWorld (files w) [Send r'; CloseBody; Release; CloseConn]) ∧
       StatusCode r' = 200 ∧ Body r' = data ∧ ContentLength r' = Z.of_nat (String.length data) ∧
       header_get (respHeader r') "content-type" = header_get (reqHeader post) "Content-Type") ∧
    (∀ path l' d, resolve fs path = Some l' → l' ≠ l → ReadFile fs path = Some d →
     ReadFile (files w) path = Some d).
Proof.
  intros Hm Hh He Hst. destruct (handleConnection_answered post fs) as (r0 & fs' & Hh' & Hs & _).
  rewrite Hh in Hh'. injection Hh' as ->. simpl in He. injection He as -> _. clear Hh.
  rewrite Hst in Hs. inversion Hs as [| | | |? ? Hg| |t err _ _ _ _ Hbad| | | | |t data l fs1 _ Ht Hf Hb Hc Hcr Hsk Hsp];
    try congruence; clear Hs.
  { unfold status_of in Hbad. repeat case_decide; lia. }
  assert (target fs (BASE_PATH +:+ EscapedPath post) = Some l ∧ l ∉ denied fs ∧ is_dir fs l = false)
    as (Htg & Hden & Hdir).
  { unfold Create in Hcr. destruct (target fs _) as [l0|]; [|done]. simpl in Hcr.
    case_decide as Hd; [done|]. simplify_eq. split_and!; [done|set_solver|].
    destruct (is_dir fs l); [set_solver|done]. }
  exists data, l. split; [done|]. split; [done|]. cbn [files].
  assert (ReadFile (with_entries fs (<[l:=EFile data]> (entries fs))) (BASE_PATH +:+ EscapedPath post) = Some data) as Hrd.
  { unfold ReadFile. rewrite target_resolve by done. cbn [mbind option_bind].
    rewrite decide_False by done. cbn [entries with_entries]. by rewrite lookup_insert_eq. }
  split; [|intros; by eapply ReadFile_kept].
  intros get Hg Hp. rewrite <-Hp in *.
  rewrite (handleGet_found get _ t data) by done.
  eexists. by rewrite <-Hf.
Qed.

Module HttpExample.
Definition disk : Disk :=
  MkDisk (list_to_map [([], EDir); (["public"], EDir); (["a.txt"; "public"], EFile "old")]) [] ∅ ∅ 100.
Definition post : Request :=
  MkRequest "POST" "/x.html" "" (header_add ∅ "content-type" "text/html") (inr "<p>hi</p>").
End HttpExample.
Import HttpExample.

Lemma post_then_get_witness :
  ∃ w r rest, handleConnection (inr post) disk = Ret w ∧ events w = Send r :: rest ∧
  ∃ data l, reqBody post = inr data ∧ target disk (BASE_PATH +:+ EscapedPath post) = Some l ∧
    (∀ get, Method get = "GET" → EscapedPath get = EscapedPath post →
     ∃ r', handleConnection (inr get) (files w) =
         Ret (MkWorld (files w) [Send r'; CloseBody; Release; CloseConn]) ∧
       StatusCode r' = 200 ∧ Body r' = data ∧ ContentLength r' = Z.of_nat (String.length data) ∧
       header_get (respHeader r') "content-type" = header_get (reqHeader post) "Content-Type") ∧
    (∀ path l' d, resolve disk path = Some l' → l' ≠ l → ReadFile disk path = Some d →
     ReadFile (files w) path = Some d).
Proof.
  do 3 eexists. split; [vm_compute; reflexivity|]. split; [reflexivity|].
  eapply (post_then_get disk post); [reflexivity|vm_compute; reflexivity|reflexivity|reflexivity].
Defined.

