(* ===== verification/Proxy.v ===== *)
(** * The proxy of Lab01 ([proxy/connectionHandler.go])

    The network is what the proxy finds at an address: nobody, or a server that
    answers a request or fails to.  [url.Parse], which [http.NewRequest] calls,
    takes what follows two slashes as an authority; the check of the
    authority's own syntax is a parameter. *)
From S2P Require Import Prelude GoStrings HttpServer.
From Stdlib Require Import Ascii.
From stdpp Require Import gmap.
#[local] Open Scope Z_scope.

Definition ERROR_BAD_REQUEST : string := "unable to contact server".

(** A request that the proxy writes: method, host of its URL, path, and what reading
    its body gives.  [Request.Write] frames a body that is there as chunks, since
    [http.NewRequest] does not know its length, and closes it. *)
Record ServerReq : Type := MkServerReq {
  srMethod : string; srHost : string; srPath : string; srBody : string + string }.
Definition Network : Type := string → option (ServerReq → string + Response).

Inductive pevent : Type :=
| PSend (r : Response)       (* a response of the proxy's own *)
| Forward (r : Response)     (* the server's answer, to the client *)
| Dial (address : string)
| Ask (r : ServerReq)        (* [serverReq.Write] *)
| CloseServer | PCloseBody | PClose | PRelease.

Fixpoint getFullAdressString_loop (address : list Z) (n : nat) (i : Z) : go bool :=
  match n with
  | O => Ret false
  | S n => c ← index address i;
           if c =? byte_of ":" then Ret true else getFullAdressString_loop address n (i + 1)
  end.
Definition getFullAdressString (address : string) : go string :=
  let a := bytes address in
  found ← getFullAdressString_loop a (length a) 0;
  Ret (if (found : bool) then address else address +:+ ":80").

Definition getErrorResponse (err : string) (request : option Request) : Response :=
  let '(status, statusCode) :=
    if decide (err = ERROR_BAD_REQUEST) then ("Bad Gateway", 502) else ("Bad Request", 400) in
  let header := header_add ∅ "connection" "close" in
  let header := header_add header "content-type" "text/plain" in
  MkResponse status statusCode "HTTP/1.1" 1 1 err 0 request header.
Definition writeErrorResponse (err : string) (request : option Request) : list pevent :=
  [PSend (getErrorResponse err request)].

(** The part of a string before its first slash, and the rest. *)
Fixpoint before_slash (s : string) : string * string :=
  match s with
  | EmptyString => ("", "")
  | String c s' =>
      if decide (c = "/"%char) then ("", s)
      else let '(a, rest) := before_slash s' in (String c a, rest)
  end.

Section proxy.
Context (parseAuthority : string → string + string) (net : Network).

(** [url.Parse] of an escaped path: a host and a path. *)
Definition urlParse (path : string) : string + (string * string) :=
  match path with
  | String "/" (String "/" s) =>
      if String.prefix "/" s then inr ("", path) else
      let '(authority, rest) := before_slash s in
      match parseAuthority authority with
      | inl err => inl err
      | inr host => inr (host, rest)
      end
  | _ => inr ("", path)
  end.
Definition NewRequest (method path : string) (body : string + string) : string + ServerReq :=
  match urlParse path with
  | inl err => inl err
  | inr (host, path) => inr (MkServerReq method host path body)
  end.

Definition handleGet (request : Request) : go (list pevent) :=
  address ← getFullAdressString (URLHost request);
  match net address with
  | None => Ret (Dial address :: writeErrorResponse ERROR_BAD_REQUEST (Some request))
  | Some server =>
      let path := EscapedPath request in
      match NewRequest (Method request) path (reqBody request) with
      | inl err => Ret (Dial address :: writeErrorResponse err (Some request) ++ [CloseServer])
      | inr serverReq =>
          match server serverReq with
          | inl err => Ret (Dial address :: Ask serverReq :: PCloseBody ::
                            writeErrorResponse err (Some request) ++ [CloseServer])
          | inr answer => Ret [Dial address; Ask serverReq; PCloseBody; Forward answer; CloseServer]
          end
      end
  end.

Definition handleConnection (incoming : string + Request) : go (list pevent) :=
  let deferred := [PClose; PRelease] in
  match incoming with
  | inl err => Ret (writeErrorResponse err None ++ deferred)
  | inr request =>
      es ← (if (Method request =? "GET")%string then handleGet request
            else
              let header := header_add ∅ "connection" "close" in
              Ret [PSend (MkResponse "Not Implemented" 501 "HTTP/1.1" 1 1 "" 0 (Some request) header)]);
      Ret (es ++ PCloseBody :: deferred)
  end.
End proxy.

(** ** The address *)
Definition has_port (address : string) : Prop := byte_of ":" ∈ bytes address.
#[export] Instance has_port_dec address : Decision (has_port address).
Proof. unfold has_port. apply _. Defined.

Lemma getFullAdressString_loop_spec pre l :
  getFullAdressString_loop (pre ++ l) (length l) (Z.of_nat (length pre)) =
    Ret (bool_decide (byte_of ":" ∈ l)).
Proof.
  revert pre. induction l as [|c l IH]; intros pre; [done|]. cbn [getFullAdressString_loop length].
  rewrite (index_lookup _ _ c) by by apply list_lookup_middle.
  go_step. destruct (Z.eqb_spec c (byte_of ":")) as [->|Hc].
  - rewrite bool_decide_true by set_solver. done.
  - specialize (IH (pre ++ [c])). rewrite length_app, <-app_assoc in IH. simpl in IH.
    replace (Z.of_nat (length pre) + 1) with (Z.of_nat (length pre + 1)) by lia. rewrite IH.
    f_equal. apply bool_decide_ext. set_solver.
Qed.

Lemma getFullAdressString_eq address :
  getFullAdressString address =
    Ret (if decide (has_port address) then address else address +:+ ":80").
Proof.
  unfold getFullAdressString. pose proof (getFullAdressString_loop_spec [] (bytes address)) as H.
  change (Z.of_nat (length [])) with 0 in H. cbn [app] in H. rewrite H.
  go_step. unfold has_port. by repeat case_decide || case_bool_decide.
Qed.

(** ** The relay *)

(** The path of an ordinary request: it is not taken for an authority. *)
Definition plain_path (path : string) : Prop :=
  String.prefix "//" path = true → String.prefix "///" path = true.

Lemma urlParse_plain pa path : plain_path path → urlParse pa path = inr ("", path).
Proof.
  unfold plain_path, urlParse. destruct path as [|a [|b s]]; try done; [by repeat case_match|].
  intros H. destruct (decide (a = "/"%char)) as [->|Ha].
  - destruct (decide (b = "/"%char)) as [->|Hb]; [|by repeat case_match].
    simpl in H. rewrite H; [done|]. by destruct s.
  - by repeat case_match.
Qed.

(** What the proxy does for a request, by cases on the network. *)
Definition relayed (net : Network) (request : Request) (es : list pevent) : Prop :=
  let address := if decide (has_port (URLHost request)) then URLHost request
                 else URLHost request +:+ ":80" in
  let ask := MkServerReq "GET" "" (EscapedPath request) (reqBody request) in
  match net address with
  | None => ∃ r, es = [Dial address; PSend r] ∧ StatusCode r = 502
  | Some server =>
      match server ask with
      | inr answer => es = [Dial address; Ask ask; PCloseBody; Forward answer; CloseServer]
      | inl err => ∃ r, es = [Dial address; Ask ask; PCloseBody; PSend r; CloseServer] ∧ Body r = err ∧
          (err ≠ ERROR_BAD_REQUEST → StatusCode r = 400)
      end
  end.

Lemma connection_relayed pa net request :
  Method request = "GET" → plain_path (EscapedPath request) →
  ∃ es, handleConnection pa net (inr request) = Ret (es ++ [PCloseBody; PClose; PRelease]) ∧
    relayed net request es.
Proof.
  intros Hm Hp. unfold handleConnection. rewrite Hm. simpl. unfold handleGet, relayed.
  rewrite getFullAdressString_eq, Hm. go_step. unfold NewRequest.
  rewrite urlParse_plain by done.
  destruct (net _) as [server|]; go_step.
  - destruct (server _) as [err|answer]; go_step; eexists; (split; [done|]); [|done].
    eexists. split; [done|]. unfold getErrorResponse. case_decide; done.
  - eexists. split; [done|]. by eexists.
Qed.
