(* ===== verification/ProxyService.v ===== *)
(** * The proxy in front of the web server *)
From S2P Require Import Prelude GoStrings FileSystem HttpServer HttpProof HttpService Proxy.
From Stdlib Require Import Ascii.
From stdpp Require Import gmap.
#[local] Open Scope Z_scope.

(** What [EscapedPath] gives for a request that [http.ReadRequest] has read, other
    than [*]: nothing, or a slash and bytes that need no escape. *)
Definition path_bytes : list Z :=
  bytes "abcdefghijklmnopqrstuvwxyzABCDEFGHIJKLMNOPQRSTUVWXYZ0123456789-_.~!$&'()*+,;=:@[]/".
Definition hex_bytes : list Z := bytes "0123456789abcdefABCDEF".
Fixpoint escaped (l : list Z) : bool :=
  match l with
  | [] => true
  | c :: l =>
      if c =? byte_of "%"%char then
        match l with
        | a :: b :: l => bool_decide (a ∈ hex_bytes) && bool_decide (b ∈ hex_bytes) && escaped l
        | _ => false
        end
      else bool_decide (c ∈ path_bytes) && escaped l
  end.
Definition url_path (path : string) : Prop :=
  path = "" ∨ (String.prefix "/" path = true ∧ escaped (bytes path) = true).

Lemma no_type path : path = "" ∨ path = "/" → ∀ t, ¬ has_type path t.
Proof.
  intros Hp. destruct (getFileType_cases path) as [(t & Ht & _)|[_ H]]; [|done]. exfalso.
  revert Ht. by destruct Hp as [-> | ->].
Qed.

Section service.
(** What the server's [http.ReadRequest] reads when the proxy has written a GET whose
    body can be read: net/http keeps the method and the path, and writes a slash for
    an empty path. *)
Context (deliver : ServerReq → Request).
Definition written (q : ServerReq) : Prop :=
  srMethod q = "GET" ∧ srHost q = "" ∧ url_path (srPath q) ∧ ∃ data, srBody q = inr data.
Hypothesis deliver_method : ∀ q, written q → Method (deliver q) = srMethod q.
Hypothesis deliver_path : ∀ q, written q →
  EscapedPath (deliver q) = if decide (srPath q = "") then "/" else srPath q.

(** The web server as the proxy finds it at an address, with the files [fs]. *)
Definition web_server (fs : Disk) (q : ServerReq) : string + Response :=
  match HttpServer.handleConnection (inr (deliver q)) fs with
  | Ret w => match events w with Send r :: _ => inr r | _ => inl "EOF" end
  | _ => inl "EOF"
  end.

Lemma serves_get_same fs req req' status body fs' :
  Method req = "GET" → Method req' = "GET" →
  EscapedPath req = (if decide (EscapedPath req' = "") then "/" else EscapedPath req') →
  serves fs req status body fs' → serves fs req' status body fs' ∧ fs' = fs.
Proof.
  intros Hm Hm' Hp Hs. case_decide as He.
  - pose proof (no_type _ (or_intror Hp)) as Hno.
    destruct Hs; try congruence; first [by edestruct Hno|split; [|done]].
    apply serves_no_type; [auto|]. apply no_type. auto.
  - destruct Hs; rewrite ?Hp in *; try congruence; (split; [|done]).
    + apply serves_no_type; auto.
    + by eapply serves_get_forbidden.
    + by eapply serves_get_missing.
    + by eapply serves_get.
Qed.

(** C26 For a GET whose path does not begin with exactly two slashes, the proxy dials
    the host of the request's URL, at port 80 when it has no colon, asks it for the
    path alone (no query, no header, no host) with the request's body, and passes the
    answer on unchanged; an unreachable server is answered 502 and a broken answer
    400.  Writing the request closes the body, which the handler closes again at the
    end; the server's connection and the client's are closed once each, and then the
    semaphore is given back.  When this repository's web server is at that address
    and the body can be read, the client gets one response, with the status and the
    body that the contract of the server gives for the client's own request. *)
Theorem handleConnection_relays pa net request :
  Method request = "GET" → plain_path (EscapedPath request) →
  ∃ es, Proxy.handleConnection pa net (inr request) = Ret (es ++ [PCloseBody; PClose; PRelease]) ∧
    relayed net request es ∧
    ∀ fs data, url_path (EscapedPath request) → reqBody request = inr data →
      net (if decide (has_port (URLHost request)) then URLHost request else URLHost request +:+ ":80") =
        Some (web_server fs) →
      ∃ d q r, es = [Dial d; Ask q; PCloseBody; Forward r; CloseServer] ∧
        serves fs request (StatusCode r) (Body r) fs.
Proof.
  intros Hm Hp. destruct (connection_relayed pa net request Hm Hp) as (es & Hrun & Hrel).
  exists es. split; [done|]. split; [done|]. intros fs data Hurl Hbody Hnet. unfold relayed in Hrel. cbv zeta in Hrel.
  rewrite Hnet in Hrel. set (q := MkServerReq "GET" "" (EscapedPath request) (reqBody request)) in *.
  assert (written q) as Hq by (split_and!; [done..|by exists data]). unfold web_server in Hrel.
  destruct (handleConnection_answered (deliver q) fs) as (r & fs' & Hr & Hs & _). rewrite Hr in Hrel.
  cbn [events] in Hrel. eexists _, q, r. split; [exact Hrel|].
  destruct (serves_get_same fs (deliver q) request _ _ fs' (deliver_method q Hq) Hm (deliver_path q Hq) Hs) as [Hs' ->].
  exact Hs'.
Qed.
End service.

Module ProxyExample.
Definition deliver (q : ServerReq) : Request :=
  MkRequest (srMethod q) (if decide (srPath q = "") then "/" else srPath q) "" ∅ (srBody q).
Definition net : Network :=
  λ a, if (a =? "h:80")%string then Some (web_server deliver HttpExample.disk) else None.
Definition get : Request := MkRequest "GET" "/a.txt" "h" ∅ (inr "body").

Example get_through_proxy :
  match Proxy.handleConnection inr net (inr get) with
  | Ret [_; _; _; Forward r; _; _; _; _] => (StatusCode r, Body r)
  | _ => (0, "")
  end = (200, "old").
Proof. vm_compute. reflexivity. Qed.
End ProxyExample.
Import ProxyExample.

Lemma handleConnection_relays_witness :
  ∃ es r, Proxy.handleConnection inr net (inr get) = Ret (es ++ [PCloseBody; PClose; PRelease]) ∧
    Forward r ∈ es ∧ serves HttpExample.disk get (StatusCode r) (Body r) HttpExample.disk.
Proof.
  destruct (handleConnection_relays deliver ltac:(done) ltac:(done) inr net get) as (es & H1 & _ & H2).
  - reflexivity.
  - vm_compute. auto.
  - destruct (H2 HttpExample.disk "body") as (d & q & r & -> & Hs); [right; vm_compute; auto|done|reflexivity|].
    eexists _, r. split; [exact H1|]. split; [do 3 right; left|exact Hs].
Defined.
