(* ===== verification/Listener.v ===== *)
(** * The accept loops of Lab01 ([http_server.go] and [proxy_server.go])

    Both programs accept connections for ever; a weighted semaphore of the
    package [golang.org/x/sync] limits the handlers.  The semaphore is known by
    its interface.  A running handler is the list of what it still has to do,
    as [handleConnection] gives it. *)
From S2P Require Import Prelude GoStrings FileSystem HttpServer HttpService Proxy.
From stdpp Require Import relations.
#[local] Open Scope Z_scope.

Definition MAX_SOCKETS_WORKERS : Z := 10.

(** The port: the only argument, or the default. *)
Definition port (default : string) (args : list string) : string :=
  match args with [_; p] => p | _ => default end.
Definition listenAddress (default : string) (args : list string) : string :=
  ":" +:+ port default args.

(** ** The semaphore

    [acquire] is [Acquire(ctx, 1)] under a context that is never cancelled: it
    waits ([None]) exactly when all the weight is held. *)
Class Semaphore (S : Type) : Type := {
  NewWeighted : Z → S;
  acquire : S → option S;
  release : S → S;
  held : S → Z;
  weight : S → Z;
}.
Class SemaphoreLaws (S : Type) `{Semaphore S} : Prop := {
  new_held n : 0 ≤ n → held (NewWeighted n) = 0 ∧ weight (NewWeighted n) = n;
  acquire_Some s s' : acquire s = Some s' → held s' = held s + 1 ∧ held s' ≤ weight s ∧ weight s' = weight s;
  acquire_None s : acquire s = None → weight s ≤ held s;
  release_held s : 1 ≤ held s → held (release s) = held s - 1 ∧ weight (release s) = weight s;
}.

#[export] Instance counter : Semaphore (Z * Z) := {|
  NewWeighted n := (0, n);
  acquire s := if decide (s.1 < s.2) then Some (s.1 + 1, s.2) else None;
  release s := (s.1 - 1, s.2);
  held := fst; weight := snd;
|}.
#[export] Instance counter_laws : SemaphoreLaws (Z * Z).
Proof.
  split; simpl; intros; repeat case_decide; simplify_eq/=; try done; split_and?; try done; lia.
Qed.

(** ** The loop *)
Inductive effect : Type := Other | GivesBack | ClosesConn.
Inductive control (E : Type) : Type := AtAccept | InAcquire (handler : list E) | Exited.
Arguments AtAccept {E}.
Arguments InAcquire {E} _.
Arguments Exited {E}.

Record Loop (S E : Type) : Type := MkLoop { sem : S; main : control E; handlers : list (list E) }.
Arguments MkLoop {S E} _ _ _.
Arguments sem {S E} _.
Arguments main {S E} _.
Arguments handlers {S E} _.

Section loop.
Context {S : Type} `{Semaphore S} {E : Type} (kind : E → effect) (serves : list E → Prop).

Definition after (e : E) (s : S) : S :=
  match kind e with GivesBack => release s | _ => s end.

(** [ln.Accept] gives a connection, an error, or the error of a closed
    listener, which ends the process; [sem.Acquire] then waits for a place; a
    handler does its next thing. *)
Inductive step : Loop S E → Loop S E → Prop :=
| step_accept s hs h : serves h → step (MkLoop s AtAccept hs) (MkLoop s (InAcquire h) hs)
| step_error s hs : step (MkLoop s AtAccept hs) (MkLoop s AtAccept hs)
| step_closed s hs : step (MkLoop s AtAccept hs) (MkLoop s Exited hs)
| step_acquire s s' h hs :
    acquire s = Some s' → step (MkLoop s (InAcquire h) hs) (MkLoop s' AtAccept (hs ++ [h]))
| step_handler s c hs hs' e h :
    c ≠ Exited → step (MkLoop s c (hs ++ (e :: h) :: hs')) (MkLoop (after e s) c (hs ++ h :: hs')).

Definition initial : Loop S E := MkLoop (NewWeighted MAX_SOCKETS_WORKERS) AtAccept [].
Definition reachable (st : Loop S E) : Prop := rtc step initial st.

(** Handlers that hold a place, and connections that are open. *)
Definition still (k : effect) (h : list E) : bool :=
  existsb (λ e, match kind e, k with GivesBack, GivesBack | ClosesConn, ClosesConn => true | _, _ => false end) h.
Definition working (st : Loop S E) : Z := count (still GivesBack) (handlers st).
Definition open_sockets (st : Loop S E) : Z :=
  match main st with InAcquire h => Z.b2z (still ClosesConn h) | _ => 0 end +
  count (still ClosesConn) (handlers st).
End loop.

(** ** At most ten handlers *)
Section invariant.
Context {S : Type} `{SemaphoreLaws S} {E : Type} (kind : E → effect) (serves : list E → Prop).

Definition gives (h : list E) : Z := count (λ e, match kind e with GivesBack => true | _ => false end) h.
(** A handler gives its place back once, and closes its connection first. *)
Context (serves_once : ∀ h, serves h → gives h = 1).

Lemma gives_still h : 0 ≤ gives h ≤ 1 → gives h = Z.b2z (still kind GivesBack h).
Proof.
  unfold gives, still. induction h as [|e h IH]; simpl; intros Hg; [done|].
  pose proof (count_nonneg (λ e, match kind e with GivesBack => true | _ => false end) h).
  destruct (kind e); simpl in *; [apply IH; lia| |apply IH; lia]. lia.
Qed.

Record inv (st : Loop S E) : Prop := {
  inv_held : held (sem st) = working kind st;
  inv_weight : weight (sem st) = MAX_SOCKETS_WORKERS;
  inv_le : working kind st ≤ MAX_SOCKETS_WORKERS;
  inv_handlers : Forall (λ h, 0 ≤ gives h ≤ 1) (handlers st);
  inv_pending h : main st = InAcquire h → gives h = 1;
}.

Lemma inv_initial : inv initial.
Proof.
  destruct (new_held MAX_SOCKETS_WORKERS) as [Hh Hw]; [done|].
  by split.
Qed.

Lemma inv_step st st' : step kind serves st st' → inv st → inv st'.
Proof.
  intros Hst [Hh Hw Hl Hf Hp]. destruct Hst as [| | |s s' h hs Ha|s c hs hs' e h Hc]; simpl in *.
  - split; try done. simpl. intros ? [= <-]. auto.
  - by split.
  - by split.
  - destruct (acquire_Some _ _ Ha) as (Hh' & Hle & Hw'). specialize (Hp h eq_refl).
    assert (working kind (MkLoop s' AtAccept (hs ++ [h])) = working kind (MkLoop s (InAcquire h) hs) + 1) as E1.
    { unfold working. simpl. rewrite count_app. simpl.
      rewrite <-gives_still by lia. lia. }
    split; simpl; rewrite ?E1; try done; try lia.
    apply Forall_app. split; [done|]. repeat constructor; lia.
  - apply Forall_app in Hf as [Hf1 [Hf2 Hf3]%Forall_cons].
    set (n := match kind e with GivesBack => 1 | _ => 0 end).
    assert (gives (e :: h) = n + gives h) as Hg by (unfold gives, n; simpl; by destruct (kind e)).
    assert (0 ≤ gives h) as Hg0 by apply count_nonneg.
    assert (0 ≤ n) as Hn by (unfold n; destruct (kind e); lia).
    assert (working kind (MkLoop (after kind e s) c (hs ++ h :: hs')) =
            working kind (MkLoop s c (hs ++ (e :: h) :: hs')) - n) as Hw'.
    { unfold working. cbn [handlers]. rewrite !count_app. cbn [count foldr].
      rewrite <-!gives_still by lia. lia. }
    assert (0 ≤ working kind (MkLoop (after kind e s) c (hs ++ h :: hs'))) as Hpos by apply count_nonneg.
    assert (held (after kind e s) = held s - n ∧ weight (after kind e s) = weight s) as [Ha1 Ha2].
    { unfold after, n in *. destruct (kind e); [lia|apply release_held; lia|lia]. }
    split; cbn [sem main handlers]; try (done || lia).
    apply Forall_app. split; [done|]. constructor; [lia|done].
Qed.

Lemma inv_reachable st : reachable kind serves st → inv st.
Proof.
  unfold reachable. intros Hr. generalize inv_initial. revert Hr. generalize (initial (S:=S) (E:=E)).
  intros st0. induction 1; eauto using inv_step.
Qed.

(** A handler that closes first holds a place as long as its connection is open. *)
Definition closes_first (h : list E) : Prop :=
  ∀ h1 h2, h = h1 ++ h2 → still kind ClosesConn h2 = true → still kind GivesBack h2 = true.
Context (serves_closes : ∀ h, serves h → closes_first h).

Definition inv_close (st : Loop S E) : Prop :=
  Forall closes_first (handlers st) ∧ ∀ h, main st = InAcquire h → closes_first h.
Lemma inv_close_step st st' : step kind serves st st' → inv_close st → inv_close st'.
Proof.
  intros Hst [Hf Hp]. destruct Hst as [s hs h Hs| | |s s' h hs Ha|s c hs hs' e h Hc]; split; simpl in *; try done.
  - intros ? [= <-]. auto.
  - apply Forall_app. split; [done|]. repeat constructor. auto.
  - apply Forall_app in Hf as [Hf1 [Hf2 Hf3]%Forall_cons]. apply Forall_app. split; [done|].
    constructor; [|done]. intros h1 h2 ->. by apply (Hf2 (e :: h1)).
Qed.

Lemma sockets_working st : reachable kind serves st → open_sockets kind st ≤ 1 + working kind st.
Proof.
  intros Hr. assert (inv_close st) as [Hf _].
  { unfold reachable in Hr. assert (inv_close (initial (S:=S) (E:=E))) as Hi by by split.
    revert Hr Hi. generalize (initial (S:=S) (E:=E)). induction 1; eauto using inv_close_step. }
  unfold open_sockets, working.
  assert (count (still kind ClosesConn) (handlers st) ≤ count (still kind GivesBack) (handlers st)).
  { induction Hf as [|h hs Hh _ IH]; simpl; [lia|]. specialize (Hh [] h eq_refl).
    destruct (still kind ClosesConn h); [rewrite Hh by done|]; simpl; [lia|].
    destruct (still kind GivesBack h); simpl; lia. }
  destruct (main st); try lia. destruct (still kind ClosesConn handler); simpl; lia.
Qed.
End invariant.

(** ** The two programs *)
Definition http_kind (e : event) : effect :=
  match e with Release => GivesBack | CloseConn => ClosesConn | _ => Other end.
Definition http_serves (h : list event) : Prop :=
  ∃ incoming fs w, HttpServer.handleConnection incoming fs = Ret w ∧ h = events w.
Definition proxy_kind (e : pevent) : effect :=
  match e with PRelease => GivesBack | PClose => ClosesConn | _ => Other end.
Definition proxy_serves (h : list pevent) : Prop :=
  ∃ pa net incoming, Proxy.handleConnection pa net incoming = Ret h.

Lemma http_serves_events h :
  http_serves h → ∃ r, h = [Send r; CloseBody; Release; CloseConn] ∨ h = [Send r; Release; CloseConn].
Proof.
  intros ([err|req] & fs & w & Hw & ->).
  - simpl in Hw. simplify_eq. eexists. by right.
  - destruct (handleConnection_answered req fs) as (r & fs' & Hr & _). rewrite Hr in Hw.
    simplify_eq. exists r. by left.
Qed.

Lemma proxy_serves_events h :
  proxy_serves h → ∃ es, Forall (λ e, proxy_kind e = Other) es ∧ h = es ++ [PClose; PRelease].
Proof.
  intros (pa & net & [err|req] & Hw); simpl in Hw.
  - injection Hw as <-. exists (Proxy.writeErrorResponse err None). split; [by repeat constructor|done].
  - apply go_bind_Ret in Hw as (es & He & Hh). injection Hh as <-. exists (es ++ [PCloseBody]).
    rewrite <-app_assoc. split; [|done]. apply Forall_app. split; [|by repeat constructor].
    destruct (_ =? _)%string; [|injection He as <-; by repeat constructor].
    unfold Proxy.handleGet in He. rewrite getFullAdressString_eq in He. go_step in He.
    repeat case_match; injection He as <-; by repeat constructor.
Qed.

Lemma http_gives h : http_serves h → gives http_kind h = 1.
Proof. intros (r & [->| ->])%http_serves_events; done. Qed.
Lemma quiet_gives es : Forall (λ e, proxy_kind e = Other) es → gives proxy_kind es = 0.
Proof. induction 1 as [|e es He _ IH]; [done|]. unfold gives in *. simpl. by rewrite He. Qed.
Lemma proxy_gives h : proxy_serves h → gives proxy_kind h = 1.
Proof.
  intros (es & Hes & ->)%proxy_serves_events. unfold gives. rewrite count_app.
  pose proof (quiet_gives es Hes) as H. unfold gives in H. rewrite H. done.
Qed.
Lemma proxy_closes h : proxy_serves h → closes_first proxy_kind h.
Proof.
  intros (es & _ & ->)%proxy_serves_events. intros h1 h2 Heq Hc.
  apply app_eq_inv in Heq as [(k & -> & ->)|(k & -> & Hk)].
  - unfold still. rewrite existsb_app. simpl. apply orb_true_r.
  - destruct k as [|x [|y [|z k]]]; simplify_eq/=; done.
Qed.

Section programs.
Context {S : Type} `{SemaphoreLaws S}.

(** C27 However the loop and the handlers interleave, at most ten handlers of
    the web server, and of the proxy, have not given back the semaphore; and the
    proxy never has more than eleven client connections open: those of its
    handlers, which close before they release, and the one accepted while the
    loop waits for the semaphore. *)
Theorem handlers_bounded :
  (∀ st : Loop S event, reachable http_kind http_serves st → working http_kind st ≤ MAX_SOCKETS_WORKERS) ∧
  (∀ st : Loop S pevent, reachable proxy_kind proxy_serves st →
   working proxy_kind st ≤ MAX_SOCKETS_WORKERS ∧ open_sockets proxy_kind st ≤ 1 + MAX_SOCKETS_WORKERS).
Proof.
  split; intros st Hr.
  - eapply inv_le, inv_reachable; [apply http_gives|done].
  - pose proof (sockets_working proxy_kind proxy_serves proxy_closes st Hr).
    pose proof (inv_le _ _ (inv_reachable proxy_kind proxy_serves proxy_gives st Hr)). lia.
Qed.

Definition bad_request : list event := [Send (HttpServer.getErrorResponse "malformed" None); Release; CloseConn].
Lemma bad_request_serves : http_serves bad_request.
Proof. exists (inl "malformed"), (MkDisk ∅ [] ∅ ∅ 0). by eexists. Qed.

Lemma http_more n : ∃ s, held s = 0 ∧ weight s = MAX_SOCKETS_WORKERS ∧
  reachable http_kind http_serves (MkLoop (S:=S) s AtAccept (replicate n [CloseConn])).
Proof.
  induction n as [|n (s & Hs & Hw & Hr)].
  - exists (NewWeighted MAX_SOCKETS_WORKERS). destruct (new_held MAX_SOCKETS_WORKERS); [done|].
    split_and!; try done. constructor.
  - destruct (acquire s) as [s'|] eqn:E; [|apply acquire_None in E; unfold MAX_SOCKETS_WORKERS in *; lia].
    apply acquire_Some in E as Hs'. destruct Hs' as (Hh & _ & Hw').
    destruct (release_held s') as [Hh2 Hw2]; [lia|].
    exists (release s'). split_and!; [lia|congruence|].
    rewrite replicate_S_end. unfold reachable in *. etrans; [exact Hr|].
    eapply rtc_l; [apply step_accept, bad_request_serves|].
    eapply rtc_l; [by apply step_acquire|].
    eapply rtc_l; [by apply (step_handler _ _ s' AtAccept (replicate n [CloseConn]) [] _ [Release; CloseConn])|].
    apply rtc_once.
    exact (step_handler http_kind http_serves s' AtAccept (replicate n [CloseConn]) [] Release [CloseConn] ltac:(done)).
Qed.

(** The web server's handlers give the semaphore back before they close, so
    that it does not bound the open connections: any number can be open. *)
Lemma http_sockets_unbounded (n : nat) :
  ∃ st : Loop S event, reachable http_kind http_serves st ∧ open_sockets http_kind st = Z.of_nat n.
Proof.
  destruct (http_more n) as (s & _ & _ & Hr). eexists. split; [exact Hr|].
  unfold open_sockets. cbn [main handlers]. rewrite count_all, length_replicate; [done|].
  by apply Forall_replicate.
Qed.
End programs.

(** A handler at work and a connection that the loop has accepted. *)
Definition one_waiting : list pevent :=
  [PSend (Proxy.getErrorResponse "malformed" None); PClose; PRelease].
Lemma handlers_bounded_witness :
  ∃ st : Loop (Z * Z) pevent, reachable proxy_kind proxy_serves st ∧ open_sockets proxy_kind st = 2 ∧
    open_sockets proxy_kind st ≤ 1 + MAX_SOCKETS_WORKERS.
Proof.
  assert (proxy_serves one_waiting) as Hs by (exists inr, (λ _, None), (inl "malformed"); reflexivity).
  assert (reachable proxy_kind proxy_serves
    (MkLoop ((1, 10) : Z * Z) (InAcquire one_waiting) [one_waiting])) as Hr.
  { eapply rtc_l; [apply step_accept, Hs|]. eapply rtc_l; [apply step_acquire; reflexivity|].
    apply rtc_once. by apply step_accept. }
  exists (MkLoop (1, 10) (InAcquire one_waiting) [one_waiting]).
  split; [exact Hr|]. split; [reflexivity|]. apply (proj2 (proj2 (handlers_bounded (S:=Z * Z)) _ Hr)).
Defined.
