(* ===== verification/Command.v ===== *)
(** * The Chord client (src/Lab03/client.go)

    The flags, the start of a node and the commands it reads from its standard
    input.  MD5 and AES-GCM belong to the library [crypto]: of the cipher only
    the interface is used. *)
From S2P Require Import Prelude GoStrings FileSystem ChordKeys Sha1 Chord ChordProof ChordFiles.
From Stdlib Require Import Ascii.
#[local] Open Scope Z_scope.

(** ** Authenticated encryption *)
Class Aead : Type := {
  md5 : string → string;
  NonceSize : nat;
  Seal : string → string → string → string;           (* key, nonce, plain text *)
  Open : string → string → string → option string;    (* key, nonce, sealed text *)
}.
Class AeadLaws `{Aead} : Prop := {
  Open_Seal k n p : String.length n = NonceSize → Open k n (Seal k n p) = Some p;
}.

Section client.
Context `{Aead}.

(** [gcmInstance.Seal(nonce, nonce, file, nil)] appends to the nonce. *)
Definition encyptFile (nonce file keyPhrase : string) : string :=
  let hash := md5 keyPhrase in nonce +:+ Seal hash nonce file.

Inductive out : Type := Line (s : string) | Finger (f : finger) | Data (s : string) | Err.

Definition decryptFile (file keyPhrase : string) : go (string * list out) :=
  let hash := md5 keyPhrase in
  let nonceSize := NonceSize in
  if decide (nonceSize ≤ String.length file)%nat then
    let nonce := String.substring 0 nonceSize file in
    let encryptedFile := String.substring nonceSize (String.length file - nonceSize) file in
    match Open hash nonce encryptedFile with
    | Some decryptedFile => Ret (decryptedFile, [])
    | None => Ret ("", [Err])
    end
  else Panic.

Definition getFileName (path : string) : go string :=
  let elements := Split path "/" in index elements (Z.of_nat (length elements) - 1).

(** ** Commands of the node at [a]

    [rand] gives the nonces, [disk] is where the user's files are, [fuel] bounds
    the calls of a lookup. *)
Context (creatable : string → bool) (disk : Disk) (fuel : nat) (a : string).

Definition printFinger (f : finger) : list out := [Finger f].

Fixpoint find_all (w : world) (host : list finger) : go (world * list out) :=
  match host with
  | [] => Ret (w, [])
  | h :: host =>
      r ← findSuccessor fuel w a (Id h);
      rest ← find_all r.1 host;
      Ret (rest.1, printFinger r.2 ++ rest.2)
  end.
Fixpoint get_first (w : world) (host : list finger) (file : string) : go (list out) :=
  match host with
  | [] => Ret []
  | h :: host =>
      let '(encryptedFile, fileExists) := AskGetFile w (IpAddress h) file in
      if (fileExists : bool) then
        d ← decryptFile encryptedFile "123";
        Ret (d.2 ++ [Data d.1])
      else rest ← get_first w host file; Ret (Line "File Does not Exist" :: rest)
  end.
Definition lookup (w : world) (file : string) : go (world * list out) :=
  r ← Chord.lookup fuel w a file;
  let '(w, host) := (r : world * list finger) in
  f ← find_all w host;
  g ← get_first f.1 host file;
  Ret (f.1, Line ("LOOKUP FILE: " +:+ file) :: f.2 ++ g).

Definition storeFile (nonce : string) (w : world) (file : string) : go (world * list out) :=
  fileName ← getFileName file;
  let o := [Line ("STORING FILE: " +:+ fileName)] in
  match ReadFile disk file with
  | None => Ret (w, o ++ [Err])
  | Some data =>
      let encryptedData := encyptFile nonce data "123" in
      w ← StoreFile creatable fuel w a fileName encryptedData;
      Ret (w, o)
  end.

Definition print_state (w : world) : go (list out) :=
  c ← node w a;
  _ ← Chord.acquire (successorLock c);
  let table := Line "------FINGER TABLE-----" in
  let list_ := Line "------SUCCESSOR LIST-----" in
  Ret ([Line ("My Address: " +:+ myIp c +:+ ":" +:+ myPort c); table] ++ map Finger (fingerTable c) ++
    [table; list_] ++ map Finger (successor c) ++ [list_] ++
    match predecessor c with Some p => [Line "Predecessor: "; Finger p] | None => [] end).

(** One line of the input; the nonce is the one a StoreFile would draw. *)
Definition command (nonce : string) (w : world) (line : string) : go (world * list out) :=
  let input := Split line " " in
  if (2 <? length input)%nat then Fatal else
  cmd ← index input 0;
  if (cmd =? "Lookup")%string then file ← index input 1; lookup w file
  else if (cmd =? "StoreFile")%string then file ← index input 1; storeFile nonce w file
  else if (cmd =? "PrintState")%string then o ← print_state w; Ret (w, o)
  else Ret (w, [Line "WRONG COMMAND"]).

Fixpoint session (rand : nat → string) (n : nat) (w : world) (lines : list string) : go (world * list out) :=
  match lines with
  | [] => Ret (w, [Line "END CHORD"])
  | line :: lines =>
      r ← command (rand n) w line;
      rest ← session rand (S n) r.1 lines;
      Ret (rest.1, r.2 ++ rest.2)
  end.
End client.

(** ** Starting *)
Record flags : Type := MkFlags {
  ipAddress : string; port : Z; peerAddress : string; peerPort : Z;
  stabilizeTime : Z; fixFingersTime : Z; checkPredecessorTime : Z;
  numberOfSuccessor : Z; idClient : string;
}.
Definition initFlag (f : flags) : option string :=
  if (bool_decide (peerAddress f ≠ "") && (peerPort f =? 0)) ||
     (bool_decide (peerAddress f = "") && negb (peerPort f =? 0)) then Some "ERROR IN FLAG"
  else if bool_decide (ipAddress f = "") || (port f =? 0) then Some "ERROR IN FLAG"
  else None.

(** [time.NewTicker] panics unless the interval, in nanoseconds, is positive;
    the three goroutines that a node starts each make one. *)
Definition NewTicker (interval : Z) : go unit :=
  if 0 <? i64 (interval * 1000000) then Ret tt else Panic.
Definition tickers (f : flags) : go unit :=
  _ ← NewTicker (stabilizeTime f); _ ← NewTicker (fixFingersTime f); NewTicker (checkPredecessorTime f).

(** The nil pointer of the last line is [None]. *)
Definition initializeClient (fuel : nat) (w : world) (f : flags) : go (option world) :=
  if bool_decide (peerAddress f ≠ "") && negb (peerPort f =? 0) then
    w ← join fuel w (ipAddress f) (numberOfSuccessor f) (port f) (idClient f) (peerAddress f) (peerPort f);
    _ ← tickers f; Ret (Some w)
  else if bool_decide (peerAddress f = "") && (peerPort f =? 0) then
    c ← create (ipAddress f) (numberOfSuccessor f) (port f) (idClient f);
    _ ← tickers f; Ret (Some (<[address c := c]> w))
  else Ret None.
