(* ===== verification/CommandProof.v ===== *)
(** * The Chord client: files, commands and flags *)
From S2P Require Import Prelude GoStrings FileSystem ChordKeys Sha1 Chord ChordProof ChordFiles Command.
From S2P Require Import ChordExample.
From Stdlib Require Import Ascii.
#[local] Open Scope Z_scope.

(** The last component of a path. *)
Definition base_name (path name : string) : Prop :=
  all_chars (λ c, c ≠ "/"%char) name ∧ (path = name ∨ ∃ dir, path = dir +:+ String "/"%char name).

Lemma getFileName_base path name : base_name path name → getFileName path = Ret name.
Proof.
  intros [Hn Hp]. unfold getFileName.
  assert (∃ l, Split path "/" = l ++ [name]) as [l ->].
  { destruct Hp as [->|[dir ->]]; [exists []; by apply Split_none|].
    destruct (split_from_last "/" dir name "") as (c & l & Hl). exists (c :: l). unfold Split at 1. rewrite Hl.
    by rewrite Split_none. }
  rewrite length_app. simpl. replace (Z.of_nat (length l + 1) - 1) with (Z.of_nat (length l)) by lia.
  apply index_lookup. by apply list_lookup_middle.
Qed.

Section sealed.
Context `{AeadLaws}.

Lemma decrypt_encrypt nonce data k :
  String.length nonce = NonceSize → decryptFile (encyptFile nonce data k) k = Ret (data, []).
Proof.
  intros Hn. unfold decryptFile, encyptFile. rewrite length_append, decide_True by lia.
  rewrite <-Hn. replace (String.length nonce + _ - String.length nonce)%nat
    with (String.length (Seal (md5 k) nonce data)) by lia.
  rewrite substring_prefix, substring_suffix. by rewrite Open_Seal.
Qed.

Lemma find_all_run fuel a w c host :
  ring_ok w → w !! a = Some c → (size w < fuel)%nat → Forall (resolves w) host →
  ∃ fs, find_all fuel a w host = Ret (w, map Finger fs) ∧ length fs = length host.
Proof.
  intros Hw Hc Hf. induction 1 as [|h host Hh _ (fs & IH & Hl)]; [by exists []|].
  cbn [find_all]. destruct (findSuccessor_run fuel w a c (Id h)) as (s & -> & _); [done|done| |..].
  - by apply (resolves_key w h Hw).
  - pose proof (between_set_size w (identifier c) (Id h)). lia.
  - cbn [mbind go_bind fst snd]. rewrite IH. cbn. exists (s :: fs). split; [done|simpl; by rewrite Hl].
Qed.

Lemma replica_resolves w h os : ring_ok w → replica w h os → resolves w os.1 ∧ resolves w os.2.
Proof.
  intros Hw [[Hr _] (d & l & Hd & Hs)]. split; [done|].
  pose proof (lk_node _ Hw _ _ Hd) as Hn.
  destruct (nd_succ _ _ _ Hn) as (s & l' & Hs' & Hip). rewrite Hs in Hs'. simplify_eq.
  apply (nd_entries _ _ _ Hn); [|done]. rewrite Hs. apply elem_of_app. right. left.
Qed.

Lemma command_split nonce creatable disk fuel a w cmd arg :
  all_chars (λ c, c ≠ " "%char) cmd → all_chars (λ c, c ≠ " "%char) arg →
  command creatable disk fuel a nonce w (cmd +:+ String " "%char arg) =
    if (cmd =? "Lookup")%string then Command.lookup fuel a w arg
    else if (cmd =? "StoreFile")%string then storeFile creatable disk fuel a nonce w arg
    else if (cmd =? "PrintState")%string then o ← print_state a w; Ret (w, o)
    else Ret (w, [Line "WRONG COMMAND"]).
Proof. intros Hc Ha. unfold command. rewrite Split_sep, Split_none by done. done. Qed.

Lemma get_first_found w host h file nonce data :
  AskGetFile w (IpAddress h) file = (encyptFile nonce data "123", true) →
  String.length nonce = NonceSize →
  get_first w (h :: host) file = Ret [Data data].
Proof. intros Hg Hn. cbn [get_first]. rewrite Hg. by rewrite decrypt_encrypt. Qed.

(** C28 From end to end: on a stable ring, after a user of the node [a] has
    entered "StoreFile path", any user who enters "Lookup name" for the last
    component of the path gets the contents of the file, decrypted, after the
    six places of its replicas. *)
Theorem StoreFile_then_Lookup creatable diska diskb fuel a b w ca cb nonce nonce' path name data :
  ring_ok w → w !! a = Some ca → w !! b = Some cb → (size w < fuel)%nat →
  base_name path name → all_chars (λ c, c ≠ " "%char) path → creatable name = true →
  ReadFile diska path = Some data → String.length nonce = NonceSize →
  ∃ w' fs, command creatable diska fuel a nonce w ("StoreFile " +:+ path) =
      Ret (w', [Line ("STORING FILE: " +:+ name)]) ∧ ring_ok w' ∧ length fs = 6%nat ∧
    command creatable diskb (S fuel) b nonce' w' ("Lookup " +:+ name) =
      Ret (w', Line ("LOOKUP FILE: " +:+ name) :: map Finger fs ++ [Data data]).
Proof.
  intros Hw Ha Hb Hf Hbase Hsp Hcr Hrd Hn.
  destruct (StoreFile_found creatable fuel w a b ca cb name (encyptFile nonce data "123") Hw Ha Hb Hf Hcr)
    as (w' & rs & Hst & Hsame & Hl & Hlk & Hrs).
  pose proof (ring_ok_same _ _ Hsame Hw) as Hw'. pose proof (same_nodes_size _ _ Hsame) as Hsize.
  destruct (same_nodes_lookup w' w _ _ (same_nodes_sym _ _ Hsame) Hb) as (cb' & Hb' & _).
  destruct (find_all_run (S fuel) b w' cb' (rs ≫= λ os, [os.1; os.2])) as (fs & Hfs & Hlen); [done|done|lia|..].
  { apply Forall_bind, Forall_lookup. intros j os Hj. destruct (Hrs j os Hj) as [Hrep _].
    destruct (replica_resolves _ _ _ Hw' Hrep). by repeat constructor. }
  destruct rs as [|os rs]; [done|]. destruct (Hrs O os eq_refl) as [_ Hget].
  assert (∃ rest, (os :: rs) ≫= (λ os, [os.1; os.2]) = os.1 :: rest) as [rest Hrest] by (by eexists).
  assert (length ((os :: rs) ≫= (λ os, [os.1; os.2])) = 6%nat) as H6
    by (by destruct rs as [|? [|? [|]]]).
  set (host := (os :: rs) ≫= _) in *. clearbody host.
  exists w', fs. split_and!; [|done| |].
  - change ("StoreFile " +:+ path) with ("StoreFile" +:+ String " "%char path).
    rewrite command_split by (done || (simpl; naive_solver)). simpl. unfold storeFile.
    rewrite (getFileName_base path name Hbase). go_step. by rewrite Hrd, Hst.
  - by rewrite Hlen.
  - change ("Lookup " +:+ name) with ("Lookup" +:+ String " "%char name).
    rewrite command_split; [|simpl; naive_solver|].
    2: { destruct Hbase as [_ [->|[dir ->]]]; [done|]. apply all_chars_app in Hsp. simpl in Hsp. tauto. }
    simpl. unfold Command.lookup. rewrite Hlk. go_step. rewrite Hfs. cbn [mbind go_bind fst snd].
    rewrite Hrest, (get_first_found w' _ os.1 name nonce data) by done. done.
Qed.
End sealed.

(** ** Errors of the commands *)

(** A command line with more than one blank ends the process, and [Lookup]
    or [StoreFile] without a file name is an index out of range that crashes
    the node; an unknown command is reported and changes nothing. *)
Lemma command_errors `{Aead} creatable disk fuel a nonce w :
  (∀ x y z, command creatable disk fuel a nonce w (x +:+ " " +:+ y +:+ " " +:+ z) = Fatal) ∧
  command creatable disk fuel a nonce w "Lookup" = Panic ∧
  command creatable disk fuel a nonce w "StoreFile" = Panic ∧
  (∀ x, all_chars (λ c, c ≠ " "%char) x → x ∉ ["Lookup"; "StoreFile"; "PrintState"] →
   command creatable disk fuel a nonce w x = Ret (w, [Line "WRONG COMMAND"])).
Proof.
  split; [|split_and!; [done..|]].
  - intros x y z. unfold command.
    change (x +:+ " " +:+ y +:+ " " +:+ z) with (x +:+ String " "%char (y +:+ String " "%char z)).
    unfold Split. destruct (split_from_last " " x (y +:+ String " "%char z) "") as (c1 & l1 & ->).
    unfold Split. destruct (split_from_last " " y z "") as (c2 & l2 & ->).
    unfold Split. destruct (split_from_cons " " z "") as (c3 & l3 & ->).
    destruct (Nat.ltb_spec 2 (length (c1 :: l1 ++ c2 :: l2 ++ c3 :: l3))) as [_|Hl]; [done|].
    simpl in Hl. rewrite length_app in Hl. simpl in Hl. rewrite length_app in Hl. simpl in Hl. lia.
  - intros x Hx Hn. unfold command. rewrite Split_none by done. simpl.
    destruct (String.eqb_spec x "Lookup"), (String.eqb_spec x "StoreFile"),
      (String.eqb_spec x "PrintState"); try done; exfalso; set_solver.
Qed.

(** ** Starting a node *)

Lemma NewTicker_ok n : 0 ≤ n < 2 ^ 43 → NewTicker n = if decide (0 < n) then Ret tt else Panic.
Proof.
  intros Hn. unfold NewTicker. rewrite i64_id by lia.
  destruct (Z.ltb_spec 0 (n * 1000000)); case_decide; done || lia.
Qed.

Lemma create_alone ip n p :
  0 ≤ n → let a := ip +:+ ":" +:+ Itoa p in
  if decide (0 < n) then
    ∃ c, create ip n p "" = Ret c ∧ address c = a ∧ identifier c = Sum (bytes a) ∧
      head (successor c) = Some (mkFinger (Sum (bytes a)) a) ∧ predecessor c = None
  else create ip n p "" = Panic.
Proof.
  intros Hn a. unfold create. rewrite bool_decide_false by tauto. cbn [mbind go_bind mret go_ret].
  destruct (Z.ltb_spec n 0); [lia|]. case_decide as Hd.
  - rewrite store_lt by (rewrite length_replicate; lia). cbn [mbind go_bind mret go_ret].
    eexists. split; [reflexivity|]. split; [done|]. split; [done|]. split; [|done].
    cbn [successor]. by replace (Z.to_nat n) with (S (Z.to_nat (n - 1))) by lia.
  - unfold store. rewrite decide_False; [done|]. rewrite length_replicate. lia.
Qed.

(** A first node starts with the flags that are accepted exactly when the
    length of its successor list and the three intervals are positive, and then
    it is its own successor; with the flags' default, zero, it crashes. *)
Lemma start_spec fuel w f :
  initFlag f = None → peerAddress f = "" → idClient f = "" → 0 ≤ numberOfSuccessor f →
  0 ≤ stabilizeTime f < 2 ^ 43 → 0 ≤ fixFingersTime f < 2 ^ 43 → 0 ≤ checkPredecessorTime f < 2 ^ 43 →
  let a := ipAddress f +:+ ":" +:+ Itoa (port f) in
  if decide (0 < numberOfSuccessor f ∧ 0 < stabilizeTime f ∧ 0 < fixFingersTime f ∧ 0 < checkPredecessorTime f)
  then ∃ c, initializeClient fuel w f = Ret (Some (<[a := c]> w)) ∧
    identifier c = Sum (bytes a) ∧ head (successor c) = Some (mkFinger (Sum (bytes a)) a) ∧
    predecessor c = None
  else initializeClient fuel w f = Panic.
Proof.
  intros Hf Hp Hid Hr Hs Hff Hcp a.
  assert (peerPort f = 0) as Hpp.
  { unfold initFlag in Hf. rewrite Hp in Hf. simpl in Hf.
    destruct (Z.eqb_spec (peerPort f) 0); [done|]. by simpl in Hf. }
  unfold initializeClient. rewrite Hp, Hpp, Hid. cbn [bool_decide andb negb Z.eqb].
  rewrite bool_decide_false, bool_decide_true by tauto. cbn [andb].
  pose proof (create_alone (ipAddress f) (numberOfSuccessor f) (port f) Hr) as Hc. fold a in Hc. simpl in Hc.
  unfold tickers. rewrite !NewTicker_ok by done.
  destruct (decide (0 < numberOfSuccessor f)) as [Hr'|Hr'].
  - destruct Hc as (c & -> & Ha & Hi & Hh & Hpr). go_step.
    repeat (case_decide; go_step); try (exfalso; tauto); try done.
    exists c. by rewrite Ha.
  - rewrite decide_False by tauto. by rewrite Hc.
Qed.

(** ** Instances *)

(** A toy cipher: a tag of the key behind the text. *)
#[local] Instance toy_aead : Aead := {|
  md5 k := k; NonceSize := 2; Seal k n p := k +:+ p;
  Open k n c := if String.prefix k c
                then Some (String.substring (String.length k) (String.length c - String.length k) c) else None;
|}.
#[local] Instance toy_laws : AeadLaws.
Proof.
  split. intros k n p _. simpl.
  assert (String.prefix k (k +:+ p) = true) as ->.
  { induction k as [|c k IH]; [by destruct p|].
    change (String.prefix (String c k) (String c (k +:+ p)) = true). simpl.
    by destruct (ascii_dec c c). }
  rewrite length_append. replace (_ + _ - _)%nat with (String.length p) by lia.
  by rewrite substring_suffix.
Qed.

Definition ex_disk : Disk := MkDisk {[ ["a.txt"; "home"] := EFile "hello"; ["home"] := EDir; [] := EDir ]} [] ∅ ∅ 9.
Lemma StoreFile_then_Lookup_witness :
  ∃ w' fs, command (λ _, true) ex_disk 3 "h1:1" "no" ex_ring "StoreFile home/a.txt" =
      Ret (w', [Line "STORING FILE: a.txt"]) ∧ ring_ok w' ∧ length fs = 6%nat ∧
    command (λ _, true) ex_disk 4 "h2:2" "" w' "Lookup a.txt" =
      Ret (w', Line "LOOKUP FILE: a.txt" :: map Finger fs ++ [Data "hello"]).
Proof.
  apply (StoreFile_then_Lookup (λ _, true) ex_disk ex_disk 3 "h1:1" "h2:2" ex_ring n1 n2 "no" "" "home/a.txt" "a.txt" "hello").
  - apply ex_ring_ok.
  - reflexivity.
  - reflexivity.
  - vm_compute. lia.
  - split; [simpl; repeat split; discriminate|]. right. by exists "home".
  - simpl. repeat split; discriminate.
  - reflexivity.
  - vm_compute. reflexivity.
  - reflexivity.
Defined.


