(* ===== verification/Labrpc.v ===== *)
(** * The simulated network of Lab02 ([labrpc/labrpc.go])

    Client ends call servers through a network that may lose or delay messages
    and that forgets servers.  A request is a thread of the client's call, of
    [processReq] and of the goroutine that runs the handler; the threads, the
    harness that reconfigures the network and the network's own goroutine
    interleave step by step.  Times and probabilities are not modelled: a random
    choice is any choice.  A method is what its dispatch does to the state of the
    server with the encoded argument: decoding, the call, encoding; it takes
    effect in one step, at which it returns. *)
From S2P Require Import Prelude GoStrings.
From Stdlib Require Import Ascii.
From stdpp Require Import relations.
#[local] Open Scope Z_scope.

Record reqMsg : Type := MkReq { endname : string; svcMeth : string; args : string }.
Record replyMsg : Type := MkReply { ok : bool; reply : string }.
Definition failed : replyMsg := MkReply false "".

(** ** Servers and services *)
Section server.
Context {S : Type}.

Definition Method : Type := S → string → S * string.
Record Service : Type := MkService { name : string; methods : gmap string Method }.
Record Server : Type := MkServer { services : gmap string Service; calls : Z; app : S }.

(** What reflection tells of a method: its name, whether it is exported, the
    kinds of what it takes (the receiver first) and how many results it has. *)
Inductive Kind : Type := Ptr | OtherKind.
Record MethodType : Type := MkMethodType {
  mname : string; PkgPath : string; In_ : list Kind; NumOut : Z; Func : Method }.
Definition not_handler (m : MethodType) : go bool :=
  if bool_decide (PkgPath m ≠ "") then Ret true else
  if negb (Z.of_nat (length (In_ m)) =? 3) then Ret true else
  k ← index (In_ m) 2;
  Ret (match k with Ptr => false | OtherKind => true end || negb (NumOut m =? 0)).
Definition MakeService (name : string) (l : list MethodType) : go Service :=
  ms ← go_fold (λ ms m,
    bad ← not_handler m;
    mret (if (bad : bool) then ms else <[mname m := Func m]> ms)) l ∅;
  mret (MkService name ms).

Definition newServer (s : S) : Server := MkServer ∅ 0 s.
Definition AddService (rs : Server) (svc : Service) : Server :=
  MkServer (<[name svc := svc]> (services rs)) (calls rs) (app rs).
Definition GetServerCount (rs : Server) : Z := calls rs.

Fixpoint LastIndex_from (l : list Z) (i found c : Z) : Z :=
  match l with [] => found | x :: l => LastIndex_from l (i + 1) (if x =? c then i else found) c end.
Definition LastIndex (s : string) (c : ascii) : Z := LastIndex_from (bytes s) 0 (-1) (byte_of c).
(** [s[:n]] and [s[n:]] *)
Definition slice_to (s : string) (n : Z) : go string :=
  if decide (0 ≤ n ≤ Z.of_nat (String.length s)) then Ret (String.substring 0 (Z.to_nat n) s) else Panic.
Definition slice_from (s : string) (n : Z) : go string :=
  if decide (0 ≤ n ≤ Z.of_nat (String.length s))
  then Ret (String.substring (Z.to_nat n) (String.length s - Z.to_nat n) s) else Panic.

Definition dispatch_service (svc : Service) (methname : string) (rs : Server) (req : reqMsg)
    : go (Server * replyMsg) :=
  match methods svc !! methname with
  | Some method =>
      let '(a, r) := method (app rs) (args req) in
      Ret (MkServer (services rs) (calls rs) a, MkReply true r)
  | None => Fatal
  end.
Definition dispatch (rs : Server) (req : reqMsg) : go (Server * replyMsg) :=
  let rs := MkServer (services rs) (calls rs + 1) (app rs) in
  let dot := LastIndex (svcMeth req) "." in
  serviceName ← slice_to (svcMeth req) dot;
  methodName ← slice_from (svcMeth req) (dot + 1);
  match services rs !! serviceName with
  | Some service => dispatch_service service methodName rs req
  | None => Fatal
  end.
End server.
Arguments Method : clear implicits.
Arguments Service : clear implicits.
Arguments Server : clear implicits.

(** ** The network

    Names are strings; a server is known by the address of its structure, and a
    map gives nil for what it does not hold. *)
Abbreviation ptr := nat.
Record Network : Type := MkNetwork {
  reliable : bool; longDelays : bool; longReordering : bool;
  ends : gset string;
  enabled : gmap string bool;
  servers : gmap string (option ptr);
  connections : gmap string (option string);
  alive : bool;    (* the goroutine that takes requests *)
  done : bool;     (* rn.done is closed *)
  count : Z;       (* int32 *)
  nbytes : Z;      (* int64 *)
}.
Definition i32 (z : Z) : Z := (z + 2 ^ 31) mod 2 ^ 32 - 2 ^ 31.

Definition MakeNetwork : Network := MkNetwork true false false ∅ ∅ ∅ ∅ true false 0 0.
Definition Reliable (yes : bool) (rn : Network) : Network :=
  MkNetwork yes (longDelays rn) (longReordering rn) (ends rn) (enabled rn) (servers rn) (connections rn)
    (alive rn) (done rn) (count rn) (nbytes rn).
Definition LongDelays (yes : bool) (rn : Network) : Network :=
  MkNetwork (reliable rn) yes (longReordering rn) (ends rn) (enabled rn) (servers rn) (connections rn)
    (alive rn) (done rn) (count rn) (nbytes rn).
Definition LongReordering (yes : bool) (rn : Network) : Network :=
  MkNetwork (reliable rn) (longDelays rn) yes (ends rn) (enabled rn) (servers rn) (connections rn)
    (alive rn) (done rn) (count rn) (nbytes rn).
Definition with_servers (rn : Network) (m : gmap string (option ptr)) : Network :=
  MkNetwork (reliable rn) (longDelays rn) (longReordering rn) (ends rn) (enabled rn) m (connections rn)
    (alive rn) (done rn) (count rn) (nbytes rn).
Definition AddServer (servername : string) (rs : ptr) (rn : Network) : Network :=
  with_servers rn (<[servername := Some rs]> (servers rn)).
Definition DeleteServer (servername : string) (rn : Network) : Network :=
  with_servers rn (<[servername := None]> (servers rn)).
Definition Connect (e servername : string) (rn : Network) : Network :=
  MkNetwork (reliable rn) (longDelays rn) (longReordering rn) (ends rn) (enabled rn) (servers rn)
    (<[e := Some servername]> (connections rn)) (alive rn) (done rn) (count rn) (nbytes rn).
Definition Enable (e : string) (b : bool) (rn : Network) : Network :=
  MkNetwork (reliable rn) (longDelays rn) (longReordering rn) (ends rn) (<[e := b]> (enabled rn))
    (servers rn) (connections rn) (alive rn) (done rn) (count rn) (nbytes rn).
Definition MakeEnd (e : string) (rn : Network) : go Network :=
  if decide (e ∈ ends rn) then Fatal else
  Ret (MkNetwork (reliable rn) (longDelays rn) (longReordering rn) ({[e]} ∪ ends rn)
    (<[e := false]> (enabled rn)) (servers rn) (<[e := None]> (connections rn))
    (alive rn) (done rn) (count rn) (nbytes rn)).
(** Closing a closed channel panics. *)
Definition Cleanup (rn : Network) : go Network :=
  if done rn then Panic else
  Ret (MkNetwork (reliable rn) (longDelays rn) (longReordering rn) (ends rn) (enabled rn) (servers rn)
    (connections rn) (alive rn) true (count rn) (nbytes rn)).
Definition exit_loop (rn : Network) : Network :=
  MkNetwork (reliable rn) (longDelays rn) (longReordering rn) (ends rn) (enabled rn) (servers rn)
    (connections rn) false (done rn) (count rn) (nbytes rn).
(** The counters of [MakeNetwork]'s goroutine, and of a reply that is sent. *)
Definition counted (req : reqMsg) (rn : Network) : Network :=
  MkNetwork (reliable rn) (longDelays rn) (longReordering rn) (ends rn) (enabled rn) (servers rn)
    (connections rn) (alive rn) (done rn) (i32 (count rn + 1))
    (i64 (nbytes rn + Z.of_nat (String.length (args req)))).
Definition sent (r : replyMsg) (rn : Network) : Network :=
  MkNetwork (reliable rn) (longDelays rn) (longReordering rn) (ends rn) (enabled rn) (servers rn)
    (connections rn) (alive rn) (done rn) (count rn)
    (i64 (nbytes rn + Z.of_nat (String.length (reply r)))).
Definition GetTotalCount (rn : Network) : Z := count rn.
Definition GetTotalBytes (rn : Network) : Z := nbytes rn.

(** [GetCount] of the network: a server that was deleted is a nil pointer. *)
Definition GetCount {S} (heap : gmap ptr (Server S)) (rn : Network) (servername : string) : go Z :=
  p ← deref (default None (servers rn !! servername));
  svr ← deref (heap !! p);
  mret (GetServerCount svr).

(** What [readEndnameInfo] reads in one critical section. *)
Record info : Type := MkInfo {
  i_enabled : bool; i_servername : option string; i_server : option ptr;
  i_reliable : bool; i_longreordering : bool;
}.
Definition server_of (rn : Network) (servername : string) : option ptr :=
  default None (servers rn !! servername).
Definition readEndnameInfo (rn : Network) (e : string) : info :=
  let servername := default None (connections rn !! e) in
  MkInfo (default false (enabled rn !! e)) servername
    (match servername with Some s => server_of rn s | None => None end)
    (reliable rn) (longReordering rn).
Definition isServerDead (rn : Network) (e servername : string) (server : ptr) : bool :=
  negb (default false (enabled rn !! e)) || bool_decide (server_of rn servername ≠ Some server).

(** The delay before the failure of a request that reaches nobody, from a
    random number. *)
Definition noReplyDelay (rn : Network) (r : Z) : Z :=
  if longDelays rn then Z.rem r 7000 else Z.rem r 100.

(** ** Threads *)
Inductive phase : Type :=
| Calling                                   (* Call is about to send the request *)
| Received                                  (* processReq has been started *)
| Waiting (i : info) (s : string) (p : ptr)                (* the loop on ech *)
| Checking (i : info) (s : string) (p : ptr) (replyOK : bool) (r : replyMsg)   (* after it *)
| Delayed (r : replyMsg)                    (* time.AfterFunc *)
| Returned (r : replyMsg).                  (* Call has the reply *)
(** The goroutine of the handler. *)
Inductive goroutine : Type := NotStarted | Running (p : ptr) | HandlerReturned (r : replyMsg).
Record thread : Type := MkThread { request : reqMsg; at_ : phase; handler : goroutine }.

Section world.
Context {S : Type}.

Record World : Type := MkWorld {
  net : Network;
  heap : gmap ptr (Server S);
  threads : list thread;
  executed : list (nat * replyMsg);   (* the handlers that returned, for which request *)
  crashed : bool;
}.
Definition with_net (w : World) (rn : Network) : World :=
  MkWorld rn (heap w) (threads w) (executed w) (crashed w).
Definition with_thread (w : World) (i : nat) (t : thread) : World :=
  MkWorld (net w) (heap w) (<[i := t]> (threads w)) (executed w) (crashed w).
Definition move (w : World) (i : nat) (t : thread) (ph : phase) : World :=
  with_thread w i (MkThread (request t) ph (handler t)).
Definition crash (w : World) : World := MkWorld (net w) (heap w) (threads w) (executed w) true.

(** What the harness and the goroutines do. *)
Inductive action : Type :=
| DoReliable (b : bool) | DoLongDelays (b : bool) | DoLongReordering (b : bool)
| DoAddServer (s : string) (p : ptr) (rs : Server S) | DoDeleteServer (s : string)
| DoConnect (e s : string) | DoEnable (e : string) (b : bool) | DoMakeEnd (e : string) | DoCleanup
| LoopExits | DoCall (req : reqMsg) | Runs (i : nat).

Definition harness (w : World) (m : go Network) : World :=
  match m with Ret rn => with_net w rn | _ => crash w end.

(** A thread's own steps; [b] is the random choice or the ready case of a
    select. *)
Inductive thread_step (w : World) (i : nat) (t : thread) : World → Prop :=
| ts_send :
    at_ t = Calling → alive (net w) = true →
    thread_step w i t (move (with_net w (counted (request t) (net w))) i t Received)
| ts_destroyed :
    at_ t = Calling → done (net w) = true → thread_step w i t (move w i t (Returned failed))
| ts_drop_request inf :
    at_ t = Received → inf = readEndnameInfo (net w) (endname (request t)) →
    i_enabled inf = true → is_Some (i_servername inf) → is_Some (i_server inf) → i_reliable inf = false →
    thread_step w i t (move w i t (Returned failed))
| ts_start inf s p :
    at_ t = Received → inf = readEndnameInfo (net w) (endname (request t)) →
    i_enabled inf = true → i_servername inf = Some s → i_server inf = Some p →
    thread_step w i t (with_thread w i (MkThread (request t) (Waiting inf s p) (Running p)))
| ts_nobody inf :
    at_ t = Received → inf = readEndnameInfo (net w) (endname (request t)) →
    i_enabled inf = false ∨ i_servername inf = None ∨ i_server inf = None →
    thread_step w i t (move w i t (Delayed failed))
| ts_handler p rs rs' r :
    handler t = Running p → heap w !! p = Some rs → dispatch rs (request t) = Ret (rs', r) →
    thread_step w i t
      (MkWorld (net w) (<[p := rs']> (heap w)) (<[i := MkThread (request t) (at_ t) (HandlerReturned r)]> (threads w))
         (executed w ++ [(i, r)]) (crashed w))
| ts_handler_crash p rs :
    handler t = Running p → heap w !! p = Some rs →
    dispatch rs (request t) = Fatal ∨ dispatch rs (request t) = Panic →
    thread_step w i t (crash w)
| ts_reply inf s p r :
    at_ t = Waiting inf s p → handler t = HandlerReturned r →
    thread_step w i t (move w i t (Checking inf s p true r))
| ts_timeout inf s p :
    at_ t = Waiting inf s p →
    thread_step w i t
      (if isServerDead (net w) (endname (request t)) s p
       then move w i t (Checking inf s p false failed) else w)
| ts_dead inf s p replyOK r :
    at_ t = Checking inf s p replyOK r →
    replyOK = false ∨ isServerDead (net w) (endname (request t)) s p = true →
    thread_step w i t (move w i t (Returned failed))
| ts_drop_reply inf s p r :
    at_ t = Checking inf s p true r → isServerDead (net w) (endname (request t)) s p = false →
    i_reliable inf = false →
    thread_step w i t (move w i t (Returned failed))
| ts_reorder inf s p r :
    at_ t = Checking inf s p true r → isServerDead (net w) (endname (request t)) s p = false →
    i_longreordering inf = true →
    thread_step w i t (move w i t (Delayed r))
| ts_answer inf s p r :
    at_ t = Checking inf s p true r → isServerDead (net w) (endname (request t)) s p = false →
    thread_step w i t (move (with_net w (sent r (net w))) i t (Returned r))
| ts_delayed r :
    at_ t = Delayed r → thread_step w i t (move (with_net w (sent r (net w))) i t (Returned r)).

Inductive step (w : World) : action → World → Prop :=
| step_reliable b : crashed w = false → step w (DoReliable b) (with_net w (Reliable b (net w)))
| step_delays b : crashed w = false → step w (DoLongDelays b) (with_net w (LongDelays b (net w)))
| step_reordering b : crashed w = false → step w (DoLongReordering b) (with_net w (LongReordering b (net w)))
| step_add s p rs :
    crashed w = false → heap w !! p = None ∨ heap w !! p = Some rs →
    step w (DoAddServer s p rs)
      (MkWorld (AddServer s p (net w)) (<[p := rs]> (heap w)) (threads w) (executed w) (crashed w))
| step_delete s : crashed w = false → step w (DoDeleteServer s) (with_net w (DeleteServer s (net w)))
| step_connect e s : crashed w = false → step w (DoConnect e s) (with_net w (Connect e s (net w)))
| step_enable e b : crashed w = false → step w (DoEnable e b) (with_net w (Enable e b (net w)))
| step_make_end e : crashed w = false → step w (DoMakeEnd e) (harness w (MakeEnd e (net w)))
| step_cleanup : crashed w = false → step w DoCleanup (harness w (Cleanup (net w)))
| step_loop_exits :
    crashed w = false → done (net w) = true → step w LoopExits (with_net w (exit_loop (net w)))
| step_call req :
    crashed w = false → endname req ∈ ends (net w) →
    step w (DoCall req)
      (MkWorld (net w) (heap w) (threads w ++ [MkThread req Calling NotStarted]) (executed w) (crashed w))
| step_thread i t w' :
    crashed w = false → threads w !! i = Some t → thread_step w i t w' → step w (Runs i) w'.

Definition initial : World := MkWorld MakeNetwork ∅ [] [] false.

(** Runs, with their actions. *)
Inductive run : World → list action → World → Prop :=
| run_nil w : run w [] w
| run_cons w a w' as_ w'' : step w a w' → run w' as_ w'' → run w (a :: as_) w''.
Definition reachable (w : World) : Prop := ∃ as_, run initial as_ w.
End world.
Arguments World : clear implicits.
Arguments action : clear implicits.
