(* ===== verification/LabrpcProof.v ===== *)
(** * The simulated network: at most one execution, and what a reply means *)
From S2P Require Import Prelude GoStrings Utf8 Labrpc.
From Stdlib Require Import Ascii.
#[local] Open Scope Z_scope.

(** ** Dispatch *)
(** ** The methods of a service *)
Definition handler_shape {S} (m : MethodType (S := S)) : Prop :=
  PkgPath m = "" ∧ (∃ a b, In_ m = [a; b; Ptr]) ∧ NumOut m = 0.

Lemma not_handler_spec {S} (m : MethodType (S := S)) :
  ∃ bad, not_handler m = Ret bad ∧ (bad = false ↔ handler_shape m).
Proof.
  unfold not_handler, handler_shape. case_bool_decide as Hp; [exists true; split; [done|naive_solver]|].
  assert (PkgPath m = "") as -> by (destruct (decide (PkgPath m = "")); tauto).
  destruct (In_ m) as [|a [|b [|k [|? ?]]]] eqn:E; cbn [length];
    try (exists true; split; [done|]; split; [done|]; by intros (_ & (? & ? & ?) & _)).
  - change (index [a; b; k] 2) with (Ret k). go_step. eexists. split; [done|].
    destruct k, (Z.eqb_spec (NumOut m) 0); cbn; naive_solver.
  - rewrite (proj2 (Z.eqb_neq _ _)) by lia. exists true.
    split; [done|]. split; [done|]. by intros (_ & (? & ? & ?) & _).
Qed.

(** [MakeService] looks at every method without a panic, and offers those of
    the shape of a handler, by name. *)
Lemma MakeService_spec {S} nm (l : list (MethodType (S := S))) :
  NoDup (mname <$> l) →
  ∃ svc, MakeService nm l = Ret svc ∧ name svc = nm ∧
    ∀ k f, methods svc !! k = Some f ↔ ∃ m, m ∈ l ∧ mname m = k ∧ Func m = f ∧ handler_shape m.
Proof.
  intros Hnd. unfold MakeService.
  assert (∀ ms : gmap string (Method S), (∀ m, m ∈ l → ms !! mname m = None) →
    ∃ ms', go_fold (λ ms m, bad ← not_handler m; mret (if (bad : bool) then ms else <[mname m := Func m]> ms)) l ms =
      Ret ms' ∧ ∀ k f, ms' !! k = Some f ↔
        ms !! k = Some f ∨ ∃ m, m ∈ l ∧ mname m = k ∧ Func m = f ∧ handler_shape m) as H.
  { induction l as [|m l IH]; intros ms Hms.
    { exists ms. split; [done|]. intros k f. split; [by left|]. intros [?|(? & ?%elem_of_nil & _)]; done. }
    cbn [go_fold]. apply NoDup_cons in Hnd as [Hm Hnd].
    destruct (not_handler_spec m) as (bad & -> & Hbad). cbn [mbind go_bind mret go_ret].
    assert (∀ m', m' ∈ l → mname m' ≠ mname m) as Hne.
    { intros m' Hin E. apply Hm. rewrite <-E. by apply list_elem_of_fmap_2. }
    destruct (IH Hnd (if bad then ms else <[mname m := Func m]> ms)) as (ms' & -> & Hms').
    { intros m' Hin. destruct bad; [apply Hms; by right|].
      rewrite lookup_insert_ne by (intros E; by apply (Hne m' Hin)). apply Hms. by right. }
    exists ms'. split; [done|]. intros k f. rewrite Hms'. destruct bad.
    - setoid_rewrite elem_of_cons. split; [naive_solver|].
      intros [?|(m' & [->|Hin] & Hk & Hf & Hs)]; [by left|by apply Hbad in Hs|right; by exists m'].
    - rewrite lookup_insert_Some. pose proof (proj1 Hbad eq_refl) as Hs. pose proof (Hms m ltac:(left)) as Hmn.
      setoid_rewrite elem_of_cons. split.
      + intros [[[<- <-]|[? ?]]|(m' & ? & ?)]; [right; exists m; by auto|by left|right; by exists m'; auto].
      + intros [Hk|(m' & [->|Hin] & Hk & Hf & Hs')]; [|by left; left|right; by exists m'].
        left. right. split; [congruence|done]. }
  destruct (H ∅) as (ms & -> & Hms); [intros; apply lookup_empty|].
  eexists. split; [done|]. split; [done|]. intros k f. cbn [methods]. rewrite Hms, lookup_empty. naive_solver.
Qed.

Lemma dispatch_result {S} (rs : Server S) req :
  (∃ rs' r, dispatch rs req = Ret (rs', r) ∧ ok r = true) ∨
  dispatch rs req = Fatal ∨ dispatch rs req = Panic.
Proof.
  unfold dispatch, slice_to, slice_from. repeat case_decide; go_step; auto.
  case_match; [|auto]. unfold dispatch_service. case_match; [|auto]. case_match. left. by eexists _, _.
Qed.

(** The server has the service and the method that a request names, before and after
    its last dot. *)
Definition offers {S} (rs : Server S) (req : reqMsg) : Prop :=
  ∃ s m svc f, svcMeth req = s +:+ (String "."%char m) ∧ (byte_of "."%char ∉ bytes m) ∧
    services rs !! s = Some svc ∧ methods svc !! m = Some f.

Lemma LastIndex_from_none l i found c : c ∉ l → LastIndex_from l i found c = found.
Proof.
  revert i found. induction l as [|x l IH]; intros i found Hc; [done|]. simpl.
  apply not_elem_of_cons in Hc as [Hx Hc]. rewrite (proj2 (Z.eqb_neq x c)) by done. by apply IH.
Qed.
Lemma LastIndex_from_last l1 l2 i found c :
  c ∉ l2 → LastIndex_from (l1 ++ c :: l2) i found c = i + Z.of_nat (length l1).
Proof.
  intros Hc. revert i found. induction l1 as [|x l1 IH]; intros i found; simpl.
  - rewrite Z.eqb_refl, LastIndex_from_none by done. lia.
  - rewrite IH. lia.
Qed.

Lemma bytes_length s : length (bytes s) = String.length s.
Proof. induction s as [|c s IH]; [done|]. simpl. by f_equal. Qed.

Lemma dispatch_offers {S} (rs : Server S) req :
  offers rs req → ∃ rs' r, dispatch rs req = Ret (rs', r) ∧ ok r = true.
Proof.
  intros (s & m & svc & f & Hs & Hm & Hsvc & Hf). unfold dispatch. rewrite Hs.
  assert (LastIndex (s +:+ String "."%char m) "." = Z.of_nat (String.length s)) as ->.
  { unfold LastIndex. rewrite bytes_app. change (bytes (String "."%char m)) with (byte_of "."%char :: bytes m).
    rewrite LastIndex_from_last by done. by rewrite bytes_length. }
  assert (String.length (s +:+ String "."%char m) = String.length s + Datatypes.S (String.length m))%nat as Hlen
    by apply length_append.
  unfold slice_to, slice_from. rewrite Hlen, !decide_True by lia. rewrite Nat2Z.id, substring_prefix. go_step.
  replace (Z.to_nat (Z.of_nat (String.length s) + 1)) with (String.length (s +:+ ".")) by
    (rewrite length_append; simpl; lia).
  replace (String.length s + Datatypes.S (String.length m) - String.length (s +:+ "."))%nat with (String.length m) by
    (rewrite length_append; simpl; lia).
  replace (s +:+ String "."%char m) with ((s +:+ ".") +:+ m) by by rewrite <-append_assoc.
  rewrite substring_suffix. cbn [services]. rewrite Hsvc. unfold dispatch_service.
  assert (∀ o, methods svc !! m = o → o = Some f) as Ho by (intros o <-; exact Hf).
  case_match eqn:E; apply Ho in E; [|done]. case_match. by eexists _, _.
Qed.

Lemma noReplyDelay_bound rn r :
  0 ≤ r → 0 ≤ noReplyDelay rn r < (if longDelays rn then 7000 else 100).
Proof. intros. unfold noReplyDelay. destruct (longDelays rn); rewrite Z.rem_mod_nonneg by lia; apply Z.mod_pos_bound; lia. Qed.

(** ** The invariant *)
Definition thread_wf (t : thread) : Prop :=
  match at_ t with
  | Calling | Received => handler t = NotStarted
  | Waiting _ _ _ => handler t ≠ NotStarted
  | Checking _ _ _ true r => handler t = HandlerReturned r
  | Checking _ _ _ false _ => True
  | Delayed r | Returned r => ok r = true → handler t = HandlerReturned r
  end.

Section proofs.
Context {S : Type}.
Implicit Types (w : World S) (t : thread) (r : replyMsg) (rn : Network).

Record rpc_inv w : Prop := {
  rpc_inv_wf : ∀ i t, threads w !! i = Some t → thread_wf t;
  rpc_inv_log : ∀ i r, (i, r) ∈ executed w ↔ ∃ t, threads w !! i = Some t ∧ handler t = HandlerReturned r;
  rpc_inv_once : NoDup (executed w).*1;
  rpc_inv_running : ∀ i t p, threads w !! i = Some t → handler t = Running p → is_Some (heap w !! p);
  rpc_inv_servers : ∀ s p, server_of (net w) s = Some p → is_Some (heap w !! p);
  rpc_inv_alive : alive (net w) = false → done (net w) = true;
}.

Lemma rpc_inv_initial : rpc_inv initial.
Proof.
  split; simpl; try done.
  - intros i r. split; [by intros ?%elem_of_nil|by intros (t & ? & _)].
  - constructor.
Qed.

Lemma rpc_inv_crash w : rpc_inv w → rpc_inv (crash w).
Proof. intros []. by split. Qed.

Lemma rpc_inv_net w rn :
  (∀ s p, server_of rn s = Some p → is_Some (heap w !! p)) → (alive rn = false → done rn = true) →
  rpc_inv w → rpc_inv (with_net w rn).
Proof. intros ? ? []. by split. Qed.

Lemma rpc_inv_same_servers w rn :
  servers rn = servers (net w) → alive rn = alive (net w) → done rn = done (net w) →
  rpc_inv w → rpc_inv (with_net w rn).
Proof.
  intros Hs Ha Hd Hw. apply rpc_inv_net; [|rewrite Ha, Hd; apply Hw|done].
  unfold server_of. rewrite Hs. apply Hw.
Qed.

Lemma rpc_inv_thread w i t t' :
  rpc_inv w → threads w !! i = Some t → thread_wf t' → (∀ r, handler t' = HandlerReturned r ↔ handler t = HandlerReturned r) →
  (∀ p, handler t' = Running p → is_Some (heap w !! p)) → rpc_inv (with_thread w i t').
Proof.
  intros [H1 H2 H3 H4 H5 H6] Hi Hwf Hh Hp. split; try done; simpl.
  - intros j tj [(-> & -> & _)|[_ Hj]]%list_lookup_insert_Some; [done|eauto].
  - intros j r. rewrite H2. split; intros (tj & Hj & Hr).
    + destruct (decide (i = j)) as [->|Hne].
      * exists t'. split; [by eapply list_lookup_insert_eq, lookup_lt_Some|]. apply Hh. congruence.
      * exists tj. by rewrite list_lookup_insert_ne.
    + apply list_lookup_insert_Some in Hj as [(-> & -> & _)|[_ Hj]]; [|eauto]. exists t. split; [done|by apply Hh].
  - intros j tj p [(-> & -> & _)|[_ Hj]]%list_lookup_insert_Some; eauto.
Qed.

Lemma rpc_inv_handler w i t p rs rs' r :
  rpc_inv w → threads w !! i = Some t → handler t = Running p → heap w !! p = Some rs →
  dispatch rs (request t) = Ret (rs', r) →
  rpc_inv (MkWorld (net w) (<[p := rs']> (heap w)) (<[i := MkThread (request t) (at_ t) (HandlerReturned r)]> (threads w))
         (executed w ++ [(i, r)]) (crashed w)).
Proof.
  intros [H1 H2 H3 H4 H5 H6] Hi Hh Hp Hd.
  assert (∀ q, is_Some (heap w !! q) → is_Some (<[p := rs']> (heap w) !! q)) as Hheap.
  { intros q Hq. destruct (decide (p = q)) as [->|]; [by rewrite lookup_insert_eq|by rewrite lookup_insert_ne]. }
  assert (∀ r', (i, r') ∉ executed w) as Hnew.
  { intros r' (t' & Ht' & Hr')%H2. congruence. }
  split; simpl; eauto.
  - intros j tj [(-> & <- & _)|[_ Hj]]%list_lookup_insert_Some; [|eauto].
    pose proof (H1 _ _ Hi) as Hwf. unfold thread_wf in *. cbn [at_ handler]. rewrite Hh in Hwf.
    repeat case_match; simplify_eq/=; try done; naive_solver.
  - intros j r'. rewrite elem_of_app, list_elem_of_singleton, H2. split.
    + intros [(tj & Hj & Hr)|[= -> ->]].
      * destruct (decide (i = j)) as [->|Hne]; [congruence|]. exists tj. by rewrite list_lookup_insert_ne.
      * eexists. split; [by eapply list_lookup_insert_eq, lookup_lt_Some|done].
    + intros (tj & Hj & Hr). apply list_lookup_insert_Some in Hj as [(-> & <- & _)|[_ Hj]]; [|eauto].
      injection Hr as ->. by right.
  - rewrite fmap_app. apply NoDup_app. split; [done|]. split; [|repeat constructor; by intros ?%elem_of_nil].
    intros j Hj [= ->]%list_elem_of_singleton. apply list_elem_of_fmap in Hj as ([j r'] & [= ->] & Hj).
    by apply (Hnew r').
  - intros j tj q [(-> & <- & _)|[_ Hj]]%list_lookup_insert_Some Hq; [done|eauto].
Qed.

Lemma rpc_inv_thread_step w i t w' : rpc_inv w → threads w !! i = Some t → thread_step w i t w' → rpc_inv w'.
Proof.
  intros Hw Hi Hs. pose proof (rpc_inv_wf _ Hw _ _ Hi) as Hwf.
  assert (∀ ph, thread_wf (MkThread (request t) ph (handler t)) → rpc_inv (move w i t ph)) as Hmove.
  { intros ph Hph. apply (rpc_inv_thread w i t); try done. intros p Hp. by eapply rpc_inv_running. }
  destruct Hs; unfold thread_wf in Hwf;
    try match goal with E : at_ t = _ |- _ => rewrite E in Hwf end; simplify_eq/=;
    try (by apply Hmove; unfold thread_wf; simpl; auto).
  - apply (rpc_inv_thread (with_net w _) i t); try done; [by apply rpc_inv_same_servers|].
    simpl. intros p. by rewrite Hwf.
  - apply (rpc_inv_thread w i t); try done; simpl.
    + intros r. by rewrite Hwf.
    + intros q [= <-]. unfold readEndnameInfo in *. simpl in *. destruct (default None _); [|done].
      by eapply rpc_inv_servers.
  - by eapply rpc_inv_handler.
  - by apply rpc_inv_crash.
  - case_match; [by apply Hmove|done].
  - apply (rpc_inv_thread (with_net w _) i t); [by apply rpc_inv_same_servers|done|by unfold thread_wf; simpl|done|].
    simpl. intros q Hq. by eapply rpc_inv_running.
  - apply (rpc_inv_thread (with_net w _) i t); [by apply rpc_inv_same_servers|done|by unfold thread_wf; simpl|done|].
    simpl. intros q Hq. by eapply rpc_inv_running.
Qed.

Lemma rpc_inv_step w a w' : rpc_inv w → step w a w' → rpc_inv w'.
Proof.
  intros Hw Hs. destruct Hs; try (by apply rpc_inv_same_servers).
  - (* AddServer *)
    assert (∀ q, is_Some (heap w !! q) → is_Some (<[p := rs]> (heap w) !! q)) as Hheap.
    { intros q Hq. destruct (decide (p = q)) as [->|]; [by rewrite lookup_insert_eq|by rewrite lookup_insert_ne]. }
    destruct Hw as [H1 H2 H3 H4 H5 H6]. split; simpl; eauto. unfold server_of. simpl. intros s' q.
    destruct (decide (s = s')) as [->|]; [rewrite lookup_insert_eq|rewrite lookup_insert_ne by done]; [|by eauto].
    simpl. intros [= ->]. by rewrite lookup_insert_eq.
  - apply rpc_inv_net; [|apply Hw|done]. unfold server_of. simpl. intros s' p.
    destruct (decide (s = s')) as [->|]; [by rewrite lookup_insert_eq|rewrite lookup_insert_ne by done].
    apply Hw.
  - unfold MakeEnd. case_decide; simpl; [by apply rpc_inv_crash|by apply rpc_inv_same_servers].
  - unfold Cleanup. case_match; simpl; [by apply rpc_inv_crash|]. apply rpc_inv_net; [apply Hw|done|done].
  - apply rpc_inv_net; [apply Hw|done|done].
  - (* Call *)
    destruct Hw as [H1 H2 H3 H4 H5 H6]. split; simpl; eauto.
    + intros i t [[_ Hi]|[_ <-]]%lookup_snoc_Some; eauto. done.
    + intros i r. rewrite H2. setoid_rewrite lookup_snoc_Some. split.
      * intros (t & Ht & Hr). exists t. split; [|done]. left. split; [by eapply lookup_lt_Some|done].
      * intros (t & [[_ Ht]|[_ <-]] & Hr); [by exists t|done].
    + intros i t p [[_ Hi]|[_ <-]]%lookup_snoc_Some; eauto. done.
  - by eapply rpc_inv_thread_step.
Qed.

Lemma rpc_inv_run w as_ w' : run w as_ w' → rpc_inv w → rpc_inv w'.
Proof. induction 1; eauto using rpc_inv_step. Qed.
Lemma rpc_inv_reachable w : reachable w → rpc_inv w.
Proof. intros [as_ Hr]. eapply rpc_inv_run; [done|apply rpc_inv_initial]. Qed.

Lemma executed_of w i r : rpc_inv w → (i, r) ∈ executed w → filter (λ e, e.1 = i) (executed w) = [(i, r)].
Proof.
  intros Hw. pose proof (rpc_inv_once _ Hw) as Hn. revert Hn. clear Hw. generalize (executed w). intros l.
  induction l as [|[j r'] l IH]; intros Hn Hin; [by apply elem_of_nil in Hin|]. csimpl in Hn.
  apply NoDup_cons in Hn as [Hj Hn]. apply elem_of_cons in Hin as [[= -> ->]|Hin].
  - rewrite filter_cons_True by done. f_equal. clear IH Hn.
    induction l as [|[k r''] l IH]; [done|]. csimpl in Hj. apply not_elem_of_cons in Hj as [Hk Hj].
    rewrite filter_cons_False by (simpl; congruence). by apply IH.
  - rewrite filter_cons_False; [by apply IH|]. simpl. intros ->. apply Hj. apply list_elem_of_fmap. by exists (i, r).
Qed.

(** C29 However requests, handlers and the changes of the network interleave,
    the handler of a request is executed at most once, and a call that returns
    true has had its handler executed, and returns its reply. *)
Theorem rpc_at_most_once w i t :
  reachable w → threads w !! i = Some t →
  (length (filter (λ e, e.1 = i) (executed w)) ≤ 1)%nat ∧
  (∀ r, at_ t = Returned r → ok r = true → filter (λ e, e.1 = i) (executed w) = [(i, r)]).
Proof.
  intros Hr%rpc_inv_reachable Hi. split.
  - destruct (filter _ _) as [|[j r] l] eqn:E; simpl; [lia|].
    assert ((j, r) ∈ filter (λ e, e.1 = i) (executed w)) as Hin by (rewrite E; left).
    apply list_elem_of_filter in Hin as [Hj Hin]. simpl in Hj. subst j.
    rewrite (executed_of w i r Hr Hin) in E. injection E as <-. done.
  - intros r Hat Hok. apply executed_of; [done|]. apply (rpc_inv_log _ Hr). exists t. split; [done|].
    pose proof (rpc_inv_wf _ Hr _ _ Hi) as Hwf. unfold thread_wf in Hwf. rewrite Hat in Hwf. auto.
Qed.

(** ** Deleted servers *)

(** A call that has been sent to the server [p] as [s] and is not answered yet,
    or has failed. *)
Definition sent_to (s : string) (p : ptr) (t : thread) : Prop :=
  match at_ t with
  | Waiting _ s' p' | Checking _ s' p' _ _ => s' = s ∧ p' = p
  | Returned r => ok r = false
  | _ => False
  end.

Lemma dead_server rn e s p : server_of rn s ≠ Some p → isServerDead rn e s p = true.
Proof. intros H. unfold isServerDead. rewrite bool_decide_true by done. apply orb_true_r. Qed.

Lemma sent_to_step w a w' i t s p :
  step w a w' → (∀ rs, a ≠ DoAddServer s p rs) → server_of (net w) s ≠ Some p →
  threads w !! i = Some t → sent_to s p t →
  server_of (net w') s ≠ Some p ∧ ∃ t', threads w' !! i = Some t' ∧ sent_to s p t'.
Proof.
  intros Hs Ha Hp Hi Ht. destruct Hs as [| | |s0 p0 rs Hc _|s0| | |e|Hc| |req|j t0 w' Hc Hj Hs]; simpl; eauto.
  - split; [|by exists t]. unfold server_of. simpl.
    destruct (decide (s0 = s)) as [->|]; [|by rewrite lookup_insert_ne].
    rewrite lookup_insert_eq. simpl. intros [= ->]. by destruct (Ha rs).
  - split; [|by exists t]. unfold server_of. simpl.
    destruct (decide (s0 = s)) as [->|]; [by rewrite lookup_insert_eq|by rewrite lookup_insert_ne].
  - unfold MakeEnd. case_decide; simpl; eauto.
  - unfold Cleanup. case_match; simpl; eauto.
  - split; [done|]. exists t. split; [|done]. by apply lookup_app_l_Some.
  - destruct (decide (i = j)) as [->|Hne].
    + assert (t0 = t) as -> by congruence.
      assert (∀ t', <[j := t']> (threads w) !! j = Some t') as Hins.
      { intros. by eapply list_lookup_insert_eq, lookup_lt_Some. }
      pose proof Ht as Ht0. unfold sent_to in Ht. destruct Hs; simpl; try match goal with |- context [if ?b then _ else _] => destruct b end;
        simpl; (split; [done|]); try (by eexists; split; [apply Hins|]);
        try match goal with E : at_ t = _ |- _ => rewrite E in Ht end; try done.
      * by exists t.
      * eexists. by split; [apply Hins|].
      * eexists. by split; [apply Hins|].
      * by exists t.
      * destruct Ht as [-> ->]. rewrite dead_server in *; done.
      * destruct Ht as [-> ->]. rewrite dead_server in *; done.
    + assert (∀ t', <[j := t']> (threads w) !! i = Some t) as Hins by (intros; by rewrite list_lookup_insert_ne).
      destruct Hs; simpl; try match goal with |- context [if ?b then _ else _] => destruct b end;
        simpl; (split; [done|]); exists t; try (split; [apply Hins|done]); done.
Qed.

(** A server that has been deleted acknowledges nothing any more: a call
    that is waiting for a server which the network no longer has under its name,
    and never gets back, does not return true, whatever happens. *)
Lemma no_reply_after_delete w as_ w' i t inf s p :
  threads w !! i = Some t → at_ t = Waiting inf s p ∨ (∃ b r, at_ t = Checking inf s p b r) →
  server_of (net w) s ≠ Some p → run w as_ w' → (∀ rs, DoAddServer s p rs ∉ as_) →
  ∃ t', threads w' !! i = Some t' ∧ ∀ r, at_ t' = Returned r → ok r = false.
Proof.
  intros Hi Hat Hp Hr. assert (sent_to s p t) as Ht.
  { unfold sent_to. destruct Hat as [->|(b & r & ->)]; done. }
  clear Hat. revert t Hi Ht Hp. induction Hr as [w|w a w1 as_ w' Hs Hr IH]; intros t Hi Ht Hp Ha.
  - exists t. split; [done|]. intros r E. unfold sent_to in Ht. by rewrite E in Ht.
  - destruct (sent_to_step _ _ _ i t s p Hs) as (Hp' & t1 & Hi1 & Ht1); [set_solver|done..|].
    apply (IH t1); [done..|]. intros rs Hin. apply (Ha rs). by right.
Qed.

(** ** A call can return *)
Definition finished (w : World S) (i : nat) : Prop :=
  crashed w = false ∧ ∃ t r, threads w !! i = Some t ∧ at_ t = Returned r.
Definition can_finish (w : World S) (i : nat) : Prop :=
  ∃ n w', run w (replicate n (Runs i)) w' ∧ finished w' i.

(** The server whose handler runs for a call, or to which its request would go now. *)
Definition addressed (w : World S) (t : thread) (p : ptr) : Prop :=
  handler t = Running p ∨
  (handler t = NotStarted ∧ i_server (readEndnameInfo (net w) (endname (request t))) = Some p).
(** It has the method that the call names. *)
Definition answerable (w : World S) (t : thread) : Prop :=
  ∀ p rs, addressed w t p → heap w !! p = Some rs → offers rs (request t).

Section returns.
Context (i : nat).

Lemma finish_step w t w' :
  crashed w = false → threads w !! i = Some t → thread_step w i t w' → can_finish w' i → can_finish w i.
Proof.
  intros Hc Hi Hs (n & w2 & Hr & Hf). exists (Datatypes.S n), w2. split; [|done].
  simpl. by eapply run_cons; [by eapply step_thread|].
Qed.
Lemma finish_returned w t r : crashed w = false → threads w !! i = Some t → at_ t = Returned r → can_finish w i.
Proof. intros Hc Hi Hr. exists O, w. split; [constructor|split; eauto]. Qed.

Lemma moved w t ph : threads w !! i = Some t → threads (move w i t ph) !! i = Some (MkThread (request t) ph (handler t)).
Proof. intros. by eapply list_lookup_insert_eq, lookup_lt_Some. Qed.

Lemma finish_delayed w t r : crashed w = false → threads w !! i = Some t → at_ t = Delayed r → can_finish w i.
Proof.
  intros Hc Hi Hr. eapply finish_step; [done..|by apply ts_delayed|].
  eapply finish_returned; [done|by apply (moved (with_net w _))|done].
Qed.

Lemma finish_checking w t inf s p b r :
  crashed w = false → threads w !! i = Some t → at_ t = Checking inf s p b r → can_finish w i.
Proof.
  intros Hc Hi Hr. destruct (decide (b = false ∨ isServerDead (net w) (endname (request t)) s p = true)) as [Hd|Hd].
  - eapply finish_step; [done..|by eapply ts_dead|]. eapply finish_returned; [done|by apply moved|done].
  - destruct b; [|tauto]. destruct (isServerDead _ _ _ _) eqn:E; [tauto|].
    eapply finish_step; [done..|by eapply ts_answer|].
    eapply finish_returned; [done|by apply (moved (with_net w _))|done].
Qed.

Lemma finish_waiting w t inf s p :
  rpc_inv w → crashed w = false → threads w !! i = Some t → answerable w t → at_ t = Waiting inf s p → can_finish w i.
Proof.
  intros Hw Hc Hi Ha Hr. assert (∀ w t r, crashed w = false → threads w !! i = Some t → at_ t = Waiting inf s p →
    handler t = HandlerReturned r → can_finish w i) as Hret.
  { clear. intros w t r Hc Hi Hr Hh. eapply finish_step; [done..|by eapply ts_reply|].
    eapply finish_checking; [|by apply moved|done]. done. }
  destruct (handler t) as [|q|r] eqn:Hh; [|..].
  - pose proof (rpc_inv_wf _ Hw _ _ Hi) as Hwf. unfold thread_wf in Hwf. by rewrite Hr in Hwf.
  - destruct (rpc_inv_running _ Hw _ _ _ Hi Hh) as [rs Hq].
    destruct (dispatch_offers rs (request t)) as (rs' & r & Hd & _); [by apply (Ha q); [left|]|].
    eapply finish_step; [done..|by eapply ts_handler|].
    eapply (Hret _ (MkThread (request t) (at_ t) (HandlerReturned r)) r); simpl; try done.
    by eapply list_lookup_insert_eq, lookup_lt_Some.
  - by eapply Hret.
Qed.

Lemma finish_received w t :
  rpc_inv w → crashed w = false → threads w !! i = Some t → answerable w t → at_ t = Received → can_finish w i.
Proof.
  intros Hw Hc Hi Ha Hr. set (inf := readEndnameInfo (net w) (endname (request t))).
  assert ((i_enabled inf = false ∨ i_servername inf = None ∨ i_server inf = None) → can_finish w i) as Hnobody.
  { intros Hn. eapply finish_step; [done..|by eapply ts_nobody|].
    eapply finish_delayed; [|by apply moved|done]. done. }
  destruct (i_enabled inf) eqn:E1; [|auto]. destruct (i_servername inf) as [s|] eqn:E2; [|auto].
  destruct (i_server inf) as [p|] eqn:E3; [|auto].
  assert (thread_step w i t (with_thread w i (MkThread (request t) (Waiting inf s p) (Running p)))) as Hs
    by by apply ts_start.
  pose proof (rpc_inv_wf _ Hw _ _ Hi) as Hwf. unfold thread_wf in Hwf. rewrite Hr in Hwf.
  eapply finish_step; [done..|exact Hs|].
  eapply (finish_waiting _ (MkThread (request t) (Waiting inf s p) (Running p))); try done.
  - by eapply rpc_inv_thread_step.
  - by eapply list_lookup_insert_eq, lookup_lt_Some.
  - intros q rs [[= <-]|[? _]]; [|done]. apply Ha. by right.
Qed.

Lemma finish_any w t :
  rpc_inv w → crashed w = false → threads w !! i = Some t → answerable w t → can_finish w i.
Proof.
  intros Hw Hc Hi Hans. destruct (at_ t) eqn:Hat.
  - destruct (alive (net w)) eqn:Ha.
    + assert (thread_step w i t (move (with_net w (counted (request t) (net w))) i t Received)) as Hs by by apply ts_send.
      eapply finish_step; [done..|exact Hs|].
      eapply finish_received; [by eapply rpc_inv_thread_step|done|by apply (moved (with_net w _))| |done].
      intros q rs Hq. by apply Hans.
    + pose proof (rpc_inv_alive _ Hw Ha). eapply finish_step; [done..|by apply ts_destroyed|].
      eapply finish_returned; [done|by apply moved|done].
  - by eapply finish_received.
  - by eapply finish_waiting.
  - by eapply finish_checking.
  - by eapply finish_delayed.
  - by eapply finish_returned.
Qed.
End returns.

(** C30 "Call() is guaranteed to return" when the handler does: in every reachable
    state in which the process is up, a call can return, with the process still up,
    by the steps of its own goroutines alone, whatever the network has become in the
    meantime, if the server that has its request, or would get it now, offers the
    service and the method it names (a request for another one ends the process). *)
Theorem call_can_return w i t :
  reachable w → threads w !! i = Some t → crashed w = false → answerable w t → can_finish w i.
Proof. intros Hr%rpc_inv_reachable Hi Hc. by apply finish_any. Qed.
End proofs.

(** ** A run *)
Module RpcExample.
Definition incr : Method Z := λ s _, (s + 1, "ok").
Definition server : Server Z := AddService (newServer 0) (MkService "KV" {["Incr" := incr]}).
Definition req : reqMsg := MkReq "e" "KV.Incr" "".
Definition setup : list (action Z) :=
  [DoMakeEnd "e"; DoAddServer "s" 7%nat server; DoConnect "e" "s"; DoEnable "e" true; DoCall req].

(** The state after [setup] and [n] steps of a call that is answered. *)
Definition rn : Network := Enable "e" true (Connect "e" "s" (AddServer "s" 7%nat
  (with_servers (MkNetwork true false false ({["e"]} ∪ ∅) {["e" := false]} ∅ {["e" := None]} true false 0 0) ∅))).
Definition inf : info := MkInfo true (Some "s") (Some 7%nat) true false.
Definition waiting : World Z :=
  MkWorld (counted req rn) {[7%nat := server]} [MkThread req (Waiting inf "s" 7) (Running 7)] [] false.
Definition answered : World Z :=
  MkWorld (sent (MkReply true "ok") (counted req rn))
    {[7%nat := MkServer (services server) 1 1]}
    [MkThread req (Returned (MkReply true "ok")) (HandlerReturned (MkReply true "ok"))]
    [(0%nat, MkReply true "ok")] false.

Lemma waiting_reachable : run initial (setup ++ [Runs 0; Runs 0]) waiting.
Proof.
  repeat (eapply run_cons; [first [by apply step_make_end|apply step_add; [reflexivity|by left]|by apply step_connect
    |by apply step_enable|apply step_call; [reflexivity|vm_compute; reflexivity]
    |eapply step_thread; [reflexivity|reflexivity|by apply ts_send]
    |eapply step_thread; [reflexivity|reflexivity|by eapply ts_start]]|]).
  apply run_nil.
Qed.
Lemma answered_reachable : run waiting [Runs 0; Runs 0; Runs 0] answered.
Proof.
  eapply run_cons; [eapply step_thread; [reflexivity|reflexivity|by eapply ts_handler]|].
  eapply run_cons; [eapply step_thread; [reflexivity|reflexivity|by eapply ts_reply]|].
  eapply run_cons; [eapply step_thread; [reflexivity|reflexivity|by eapply ts_answer]|].
  apply run_nil.
Qed.
Lemma run_app {S} (w w' w'' : World S) as1 as2 : run w as1 w' → run w' as2 w'' → run w (as1 ++ as2) w''.
Proof. induction 1; simpl; [done|]. intros. eapply run_cons; eauto. Qed.
Lemma reachable_answered : reachable answered.
Proof. eexists. eapply run_app; [apply waiting_reachable|apply answered_reachable]. Qed.

(** The server is deleted while its handler runs. *)
Definition deleted : World Z := with_net waiting (DeleteServer "s" (net waiting)).
Definition late : World Z :=
  MkWorld (net deleted) {[7%nat := MkServer (services server) 1 1]}
    [MkThread req (Checking inf "s" 7 true (MkReply true "ok")) (HandlerReturned (MkReply true "ok"))]
    [(0%nat, MkReply true "ok")] false.
Lemma late_run : run deleted [Runs 0; Runs 0] late.
Proof.
  eapply run_cons; [eapply step_thread; [reflexivity|reflexivity|by eapply ts_handler]|].
  eapply run_cons; [eapply step_thread; [reflexivity|reflexivity|by eapply ts_reply]|].
  apply run_nil.
Qed.
End RpcExample.
Import RpcExample.

Lemma rpc_at_most_once_witness :
  reachable answered ∧ filter (λ e, e.1 = 0%nat) (executed answered) = [(0%nat, MkReply true "ok")].
Proof.
  split; [apply reachable_answered|].
  apply (proj2 (rpc_at_most_once answered 0 _ reachable_answered eq_refl) (MkReply true "ok")); reflexivity.
Defined.

Lemma call_can_return_witness : can_finish waiting 0.
Proof.
  eapply (call_can_return waiting 0); [eexists; apply waiting_reachable|reflexivity|reflexivity|].
  intros p rs [E|[? _]] Hrs; [|done]. injection E as <-.
  assert (heap waiting !! 7%nat = Some server) as Hs by reflexivity. rewrite Hs in Hrs. injection Hrs as <-. exists "KV", "Incr", (MkService "KV" {["Incr" := incr]}), incr.
  split_and!; [reflexivity|by apply (bool_decide_unpack _)|reflexivity|reflexivity].
Defined.
