(* ===== verification/Persister.v ===== *)
(** * Persisted state of a Raft peer ([raft/persister.go])

    A [Persister] is shared by reference between the tester and a server, so
    that it lives in a heap.  The byte slices inside are never written in place:
    [Save] stores copies and the readers give copies, hence a slice is a value;
    a reader never gives the nil slice. *)
From S2P Require Import Prelude GoStrings Utf8.
#[local] Open Scope Z_scope.

Record Persister : Type := mkPersister { raftstate : string; snapshot : string }.
Notation PersisterHeap := (gmap nat Persister).

Definition MakePersister : Persister := mkPersister "" "".
(** [make] and [copy]: the bytes of the original. *)
Definition clone (orig : string) : string := of_bytes (bytes orig).
Definition Copy (ps : Persister) : Persister := mkPersister (raftstate ps) (snapshot ps).
Definition ReadRaftState (ps : Persister) : string := clone (raftstate ps).
Definition RaftStateSize (ps : Persister) : Z := Z.of_nat (String.length (raftstate ps)).
Definition ReadSnapshot (ps : Persister) : string := clone (snapshot ps).
Definition SnapshotSize (ps : Persister) : Z := Z.of_nat (String.length (snapshot ps)).
(** [ps.Save] replaces both fields at once. *)
Definition Save (h : PersisterHeap) (ps : nat) (rs snap : string) : go PersisterHeap :=
  _ ← deref (h !! ps); mret (<[ps := mkPersister (clone rs) (clone snap)]> h).

Lemma clone_id s : clone s = s.
Proof. apply of_bytes_bytes. Qed.
Lemma Copy_id ps : Copy ps = ps.
Proof. by destruct ps. Qed.

(** What was saved is what is read, also through a copy, and another persister
    is not touched. *)
Lemma Save_spec h ps rs snap :
  is_Some (h !! ps) →
  Save h ps rs snap = Ret (<[ps := mkPersister rs snap]> h).
Proof. intros [p Hp]. unfold Save. rewrite Hp. simpl. by rewrite !clone_id. Qed.
