(* ===== verification/Raft.v ===== *)
(** * Raft peers and the servers on top of them, as the labs ship them
    ([raft/raft.go], [kvraft/server.go], [shardctrler/server.go],
    [shardkv/server.go])

    The peers are outlines: the consensus is left to the reader of the labs, so
    that a peer has no term and is never a leader.  What the testers use of a
    peer is an interface, [RaftApi], which the outline implements; the testers'
    theorems hold for any implementation.  A client end is its name. *)
From S2P Require Import Prelude GoStrings Persister.
#[local] Open Scope Z_scope.

Record ApplyMsg (C : Type) : Type := mkApplyMsg {
  CommandValid : bool; Command : C; CommandIndex : Z;
  SnapshotValid : bool; Snapshot : option string; SnapshotTerm : Z; SnapshotIndex : Z }.
Arguments mkApplyMsg {C} _ _ _ _ _ _ _.
Arguments CommandValid {C} _.
Arguments Command {C} _.
Arguments CommandIndex {C} _.
Arguments SnapshotValid {C} _.
Arguments Snapshot {C} _.
Arguments SnapshotTerm {C} _.
Arguments SnapshotIndex {C} _.

(** The operations of a peer: [rf_alive] is that [Kill] has not been called. *)
Class RaftApi (R C : Type) : Type := {
  Make : list string → Z → nat → PersisterHeap → R;
  GetState : R → Z * bool;
  Start : R → C → R * (Z * Z * bool);
  TakeSnapshot : R → Z → string → R;
  Kill : R → R;
  rf_alive : R → bool;
  rf_persister : R → nat;
}.
Class RaftLaws (R C : Type) `{RaftApi R C} : Prop := {
  Make_alive ends me ps h : rf_alive (Make ends me ps h) = true;
  Make_persister ends me ps h : rf_persister (Make ends me ps h) = ps;
  Kill_dead rf : rf_alive (Kill rf) = false;
  Kill_persister rf : rf_persister (Kill rf) = rf_persister rf;
}.

(** ** The outline *)
Module Outline.
Record Raft : Type := mkRaft { peers : list string; persister : nat; me : Z; dead : Z }.

Definition getState (rf : Raft) : Z * bool := (0, false).
Definition persist (rf : Raft) : Raft := rf.
Definition readPersist (rf : Raft) (data : string) : Raft := rf.
Definition snapshot_ (rf : Raft) (index : Z) (snapshot : string) : Raft := rf.
Definition RequestVote (rf : Raft) (args : unit) : Raft * unit := (rf, tt).
Definition start {C} (rf : Raft) (command : C) : Raft * (Z * Z * bool) := (rf, (-1, -1, true)).
Definition kill (rf : Raft) : Raft := mkRaft (peers rf) (persister rf) (me rf) 1.
Definition killed (rf : Raft) : bool := dead rf =? 1.
Definition make (ends : list string) (i : Z) (ps : nat) (h : PersisterHeap) : Raft :=
  let rf := mkRaft ends ps i 0 in
  readPersist rf (match h !! ps with Some p => ReadRaftState p | None => "" end).
End Outline.

#[export] Instance outline C : RaftApi Outline.Raft C := {|
  Make := Outline.make; GetState := Outline.getState; Start := Outline.start;
  TakeSnapshot := Outline.snapshot_; Kill := Outline.kill;
  rf_alive rf := negb (Outline.killed rf); rf_persister := Outline.persister |}.
#[export] Instance outline_laws C : RaftLaws Outline.Raft C.
Proof. by split. Qed.

(** ** Key-value servers and shard controllers *)
Section servers.
Context {R C : Type} `{RaftApi R C}.

Record KVServer : Type := mkKVServer { kv_me : Z; kv_rf : R; kv_dead : Z; kv_maxraftstate : Z }.
Definition StartKVServer (ends : list string) (i : Z) (ps : nat) (maxraftstate : Z) (h : PersisterHeap) : KVServer :=
  mkKVServer i (Make ends i ps h) 0 maxraftstate.
Definition KVKill (kv : KVServer) : KVServer :=
  mkKVServer (kv_me kv) (Kill (kv_rf kv)) 1 (kv_maxraftstate kv).
Definition KVkilled (kv : KVServer) : bool := kv_dead kv =? 1.
End servers.
Arguments KVServer : clear implicits.

(** What the testers of these labs use of a server: it is started with its ends,
    number, persister and a parameter [P] of its lab, and killed. *)
Class LabServer (R P S : Type) : Type := {
  start_server : list string → Z → nat → P → PersisterHeap → S;
  kill_server : S → S;
  server_raft : S → R;
}.
Class LabServerLaws (R C P S : Type) `{RaftApi R C} `{LabServer R P S} : Prop := {
  start_server_raft ends i ps p h : server_raft (start_server ends i ps p h) = Make ends i ps h;
  kill_server_raft s : server_raft (kill_server s) = Kill (server_raft s);
}.

#[export] Instance kv_server {R C} `{RaftApi R C} : LabServer R Z (KVServer R) := {|
  start_server := StartKVServer; kill_server := KVKill; server_raft := kv_rf |}.
#[export] Instance kv_server_laws {R C} `{RaftApi R C} : LabServerLaws R C Z (KVServer R).
Proof. by split. Qed.
