(* ===== verification/Harness.v ===== *)
(** * The tester of the key-value labs ([kvraft/config.go])

    It is stated for any kind of server, since [shardctrler/config.go] is a copy
    of it for shard controllers (CtrlerConfig).

    A configuration owns a simulated network, the servers with the names of
    their sending ends, their persisters and the clerks.  Names are drawn by
    [randstring]: [rnd k] is the [k]-th draw.  Pointers to servers, persisters
    and clerks are numbers.  Times are arguments, as is whether the test has
    failed; each function runs under [cfg.mu] or is called by one
    goroutine. *)
From S2P Require Import Prelude GoStrings Persister Raft Labrpc.
#[local] Open Scope Z_scope.

(** [rand.Intn(i + 1)] is [draws i]. *)
Definition random_handles {A} (draws : nat → Z) (kvh : list A) : go (list A) :=
  go_fold (λ sa i, swap sa (Z.of_nat i) (draws i)) (seq 0 (length kvh)) kvh.

(** The limit of two minutes for a test that has not failed, in nanoseconds. *)
Definition checkTimeout (failed : bool) (elapsed : Z) : go unit :=
  if negb failed && (120 * 10 ^ 9 <? elapsed) then Fatal else mret tt.

Section harness.
Context {R C Prm Srv : Type} `{RaftApi R C} `{LabServer R Prm Srv} (rnd : nat → string).

Record config : Type := mkConfig {
  net : Network;
  n : Z;
  instances : gmap nat Srv;       (* the servers ever started *)
  kvservers : list (option nat);
  persisters : PersisterHeap;
  saved : list (option nat);
  endnames : list (option (list string));
  clerks : gmap nat (list string);
  nextClientId : Z;
  maxraftstate : Prm;
  drawn : nat;                             (* names drawn so far *)
  allocated : nat;                         (* the next pointer *)
}.
Definition with_net (cfg : config) (rn : Network) : config :=
  mkConfig rn (n cfg) (instances cfg) (kvservers cfg) (persisters cfg) (saved cfg) (endnames cfg)
    (clerks cfg) (nextClientId cfg) (maxraftstate cfg) (drawn cfg) (allocated cfg).
Definition with_endnames (cfg : config) (l : list (option (list string))) : config :=
  mkConfig (net cfg) (n cfg) (instances cfg) (kvservers cfg) (persisters cfg) (saved cfg) l
    (clerks cfg) (nextClientId cfg) (maxraftstate cfg) (drawn cfg) (allocated cfg).
Definition with_saved (cfg : config) (h : PersisterHeap) (l : list (option nat)) (next : nat) : config :=
  mkConfig (net cfg) (n cfg) (instances cfg) (kvservers cfg) h l (endnames cfg)
    (clerks cfg) (nextClientId cfg) (maxraftstate cfg) (drawn cfg) next.
Definition with_servers_of (cfg : config) (m : gmap nat Srv) (l : list (option nat)) (next : nat) : config :=
  mkConfig (net cfg) (n cfg) m l (persisters cfg) (saved cfg) (endnames cfg)
    (clerks cfg) (nextClientId cfg) (maxraftstate cfg) (drawn cfg) next.
Definition with_clerks (cfg : config) (m : gmap nat (list string)) (id : Z) (next : nat) : config :=
  mkConfig (net cfg) (n cfg) (instances cfg) (kvservers cfg) (persisters cfg) (saved cfg) (endnames cfg)
    m id (maxraftstate cfg) (drawn cfg) next.
Definition with_drawn (cfg : config) (k : nat) : config :=
  mkConfig (net cfg) (n cfg) (instances cfg) (kvservers cfg) (persisters cfg) (saved cfg) (endnames cfg)
    (clerks cfg) (nextClientId cfg) (maxraftstate cfg) k (allocated cfg).

Definition randstring (cfg : config) : config * string :=
  (with_drawn cfg (S (drawn cfg)), rnd (drawn cfg)).

(** ** Sizes *)
Definition fold_max (size : Persister → Z) (cfg : config) : go Z :=
  go_fold (λ m i,
    ps ← index (saved cfg) i; p ← deref (ps ≫= λ q, persisters cfg !! q);
    mret (if m <? size p then size p else m)) (seqZ 0 (n cfg)) 0.
Definition LogSize (cfg : config) : go Z := fold_max RaftStateSize cfg.
Definition SnapshotSize_ (cfg : config) : go Z := fold_max SnapshotSize cfg.

(** ** Connections *)

(** [cfg.net.Enable(cfg.endnames[i][j], b)] *)
Definition enable_end (cfg : config) (i j : Z) (b : bool) : go config :=
  row ← index (endnames cfg) i;
  endname ← index (default [] row) j;
  mret (with_net cfg (Enable endname b (net cfg))).

Definition connectUnlocked (cfg : config) (i : Z) (to : list Z) : go config :=
  cfg ← go_fold (λ cfg j, enable_end cfg i j true) to cfg;
  go_fold (λ cfg j, enable_end cfg j i true) to cfg.

(** The nil check of the second loop is at [cfg.endnames[j]], [j] being the
    place in [from]. *)
Definition disconnectUnlocked (cfg : config) (i : Z) (from : list Z) : go config :=
  cfg ← go_fold (λ cfg j,
    row ← index (endnames cfg) i;
    if decide (row = None) then mret cfg else enable_end cfg i j false) from cfg;
  go_fold (λ cfg jx,
    row ← index (endnames cfg) (Z.of_nat jx.1);
    if decide (row = None) then mret cfg else enable_end cfg jx.2 i false) (imap pair from) cfg.

Definition connect : config → Z → list Z → go config := connectUnlocked.
Definition disconnect : config → Z → list Z → go config := disconnectUnlocked.
Definition All (cfg : config) : list Z := seqZ 0 (n cfg).
Definition ConnectAll (cfg : config) : go config :=
  go_fold (λ cfg i, connectUnlocked cfg i (All cfg)) (All cfg) cfg.

Definition partition (cfg : config) (p1 p2 : list Z) : go config :=
  cfg ← go_fold (λ cfg i, cfg ← disconnectUnlocked cfg i p2; connectUnlocked cfg i p1) p1 cfg;
  go_fold (λ cfg i, cfg ← disconnectUnlocked cfg i p1; connectUnlocked cfg i p2) p2 cfg.

(** ** Ends and clerks *)

(** [k] fresh names. *)
Fixpoint draw (k : nat) (cfg : config) : config * list string :=
  match k with
  | O => (cfg, [])
  | S k => let '(cfg, s) := randstring cfg in let '(cfg, l) := draw k cfg in (cfg, s :: l)
  end.
(** [MakeEnd] and [Connect] to server [j] for each name. *)
Definition make_ends (cfg : config) (names : list string) : go config :=
  go_fold (λ cfg js,
    rn ← MakeEnd js.2 (net cfg);
    mret (with_net cfg (Connect js.2 (Itoa (Z.of_nat js.1)) rn))) (imap pair names) cfg.

Definition ConnectClientUnlocked (cfg : config) (ck : nat) (to : list Z) : go config :=
  let endnames := default [] (clerks cfg !! ck) in
  go_fold (λ cfg j, s ← index endnames j; mret (with_net cfg (Enable s true (net cfg)))) to cfg.
Definition DisconnectClientUnlocked (cfg : config) (ck : nat) (from : list Z) : go config :=
  let endnames := default [] (clerks cfg !! ck) in
  go_fold (λ cfg j, s ← index endnames j; mret (with_net cfg (Enable s false (net cfg)))) from cfg.
Definition ConnectClient : config → nat → list Z → go config := ConnectClientUnlocked.
Definition DisconnectClient : config → nat → list Z → go config := DisconnectClientUnlocked.
(** The clerk gets its ends in a random order, which only it sees. *)
Definition makeClient (draws : nat → Z) (cfg : config) (to : list Z) : go (config * nat * list string) :=
  let '(cfg, names) := draw (Z.to_nat (n cfg)) cfg in
  cfg ← make_ends cfg names;
  handles ← random_handles draws names;
  let ck := allocated cfg in
  let cfg := with_clerks cfg (<[ck := names]> (clerks cfg)) (nextClientId cfg + 1) (S ck) in
  cfg ← ConnectClientUnlocked cfg ck to;
  mret (cfg, ck, handles).
Definition deleteClient (cfg : config) (ck : nat) : config :=
  with_clerks cfg (delete ck (clerks cfg)) (nextClientId cfg) (allocated cfg).

(** ** Starting and stopping servers *)

(** [if cfg.saved[i] != nil { cfg.saved[i] = cfg.saved[i].Copy() }] *)
Definition copy_saved (cfg : config) (i : Z) : go config :=
  ps ← index (saved cfg) i;
  match ps with
  | Some q =>
      p ← deref (persisters cfg !! q);
      let q' := allocated cfg in
      l ← store (saved cfg) i (Some q');
      mret (with_saved cfg (<[q' := Copy p]> (persisters cfg)) l (S q'))
  | None => mret cfg
  end.

Definition ShutdownServer (cfg : config) (i : Z) : go config :=
  cfg ← disconnectUnlocked cfg i (All cfg);
  let cfg := with_net cfg (DeleteServer (Itoa i) (net cfg)) in
  cfg ← copy_saved cfg i;
  kv ← index (kvservers cfg) i;
  match kv with
  | Some k =>
      s ← deref (instances cfg !! k);
      l ← store (kvservers cfg) i None;
      mret (with_servers_of cfg (<[k := kill_server s]> (instances cfg)) l (allocated cfg))
  | None => mret cfg
  end.

Definition StartServer (cfg : config) (i : Z) : go config :=
  let '(cfg, names) := draw (Z.to_nat (n cfg)) cfg in
  l ← store (endnames cfg) i (Some names);
  cfg ← make_ends (with_endnames cfg l) names;
  ps ← index (saved cfg) i;
  cfg ← (match ps with
         | Some _ => copy_saved cfg i
         | None =>
             let q := allocated cfg in
             l ← store (saved cfg) i (Some q);
             mret (with_saved cfg (<[q := MakePersister]> (persisters cfg)) l (S q))
         end);
  ps ← index (saved cfg) i;
  q ← deref ps;
  let k := allocated cfg in
  let kv := start_server names i q (maxraftstate cfg) (persisters cfg) in
  l ← store (kvservers cfg) i (Some k);
  let cfg := with_servers_of cfg (<[k := kv]> (instances cfg)) l (S k) in
  mret (with_net cfg (AddServer (Itoa i) k (net cfg))).

(** ** Leaders and partitions *)

(** The server of [i] is dereferenced without a check. *)
Fixpoint Leader_loop (cfg : config) (l : list Z) : go (bool * Z) :=
  match l with
  | [] => mret (false, 0)
  | i :: l =>
      kv ← index (kvservers cfg) i;
      s ← deref (kv ≫= λ k, instances cfg !! k);
      if (GetState (server_raft s)).2 then mret (true, i) else Leader_loop cfg l
  end.
Definition Leader (cfg : config) : go (bool * Z) := Leader_loop cfg (All cfg).

(** The loop that puts everyone but [l] in [p1] and then in [p2]. *)
Definition deal (l : Z) (st : list Z * list Z * Z) (i : Z) : go (list Z * list Z * Z) :=
  let '(p1, p2, j) := st in
  if i =? l then mret st else
  if j <? Z.of_nat (length p1) then p1 ← store p1 j i; mret (p1, p2, j + 1)
  else p2 ← store p2 (j - Z.of_nat (length p1)) i; mret (p1, p2, j + 1).
Definition split_around (m l : Z) : go (list Z * list Z) :=
  let p1 := replicate (Z.to_nat (Z.quot m 2 + 1)) 0 in
  let p2 := replicate (Z.to_nat (Z.quot m 2)) 0 in
  st ← go_fold (deal l) (seqZ 0 m) (p1, p2, 0);
  let '(p1, p2, _) := (st : list Z * list Z * Z) in
  p2 ← store p2 (Z.of_nat (length p2) - 1) l;
  mret (p1, p2).
Definition make_partition (cfg : config) : go (list Z * list Z) :=
  l ← Leader cfg; split_around (n cfg) l.2.

(** ** The whole configuration *)
Definition make_config (m : Z) (unreliable : bool) (maxstate : Prm) : go config :=
  let k := Z.to_nat m in
  let cfg := mkConfig MakeNetwork m ∅ (replicate k None) ∅ (replicate k None) (replicate k None) ∅
    (m + 1000) maxstate O O in
  cfg ← go_fold StartServer (seqZ 0 m) cfg;
  cfg ← ConnectAll cfg;
  mret (with_net cfg (Reliable (negb unreliable) (net cfg))).
Definition cleanup (cfg : config) (failed : bool) (elapsed : Z) : go config :=
  cfg ← go_fold (λ cfg kv,
    match kv with
    | Some k => s ← deref (instances cfg !! k);
                mret (with_servers_of cfg (<[k := kill_server s]> (instances cfg)) (kvservers cfg) (allocated cfg))
    | None => mret cfg
    end) (kvservers cfg) cfg;
  rn ← Cleanup (net cfg);
  _ ← checkTimeout failed elapsed;
  mret (with_net cfg rn).

(** ** Statistics *)
Record statistics : Type := mkStatistics { t0 : Z; rpcs0 : Z; ops : Z }.
Definition rpcTotal (cfg : config) : Z := GetTotalCount (net cfg).
Definition begin (cfg : config) (now : Z) : statistics := mkStatistics now (rpcTotal cfg) 0.
Definition op (st : statistics) : statistics := mkStatistics (t0 st) (rpcs0 st) (i32 (ops st + 1)).
(** The time, the number of peers, of requests and of the clerks' operations. *)
Definition end_ (cfg : config) (st : statistics) (failed : bool) (elapsed now : Z) : go (option (Z * Z * Z * Z)) :=
  _ ← checkTimeout failed elapsed;
  mret (if failed then None else Some (now - t0 st, n cfg, rpcTotal cfg - rpcs0 st, ops st)).
End harness.
Arguments config : clear implicits.
