(* ===== verification/HarnessProof.v ===== *)
(** * The tester of the key-value labs: connectivity, partitions, restarts *)
From S2P Require Import Prelude GoStrings Persister Raft Labrpc Harness.
#[local] Open Scope Z_scope.
#[local] Ltac Zify.zify_post_hook ::= Z.to_euclidean_division_equations.

(** ** Shuffling *)
(** Whatever the random numbers, the clerk gets all its ends, once each. *)
Lemma random_handles_perm {A} draws (l : list A) :
  (∀ i, (i < length l)%nat → 0 ≤ draws i ≤ Z.of_nat i) → ∃ sa, random_handles draws l = Ret sa ∧ sa ≡ₚ l.
Proof.
  intros Hd. unfold random_handles.
  assert (∀ is_ sa, Forall (λ i, (i < length l)%nat) is_ → sa ≡ₚ l →
    ∃ sa', go_fold (λ sa i, swap sa (Z.of_nat i) (draws i)) is_ sa = Ret sa' ∧ sa' ≡ₚ l) as H.
  { induction is_ as [|i is_ IH]; intros sa Hall Hp; [by exists sa|]. apply Forall_cons in Hall as [Hi Hall].
    cbn [go_fold]. pose proof (Permutation_length Hp) as Hl. specialize (Hd i Hi).
    destruct (swap_perm sa (Z.of_nat i) (draws i)) as (sa1 & -> & Hp1); [lia..|]. go_step.
    apply IH; [done|]. by rewrite Hp1. }
  apply H; [|done]. apply Forall_forall. intros i Hi%elem_of_seq. lia.
Qed.

Section harness.
Context {R C Prm Srv : Type} `{RaftApi R C} `{LabServer R Prm Srv}.
Implicit Types (cfg : config Prm Srv).

(** ** The matrix of connections *)
Definition valid cfg (i : Z) : Prop := 0 ≤ i < n cfg.
Definition name_of cfg (i j : Z) : option string :=
  row ← endnames cfg !! Z.to_nat i; names ← row; names !! Z.to_nat j.
(** Whether server [i] can send to server [j]. *)
Definition enabled_at cfg (i j : Z) : bool :=
  match name_of cfg i j with Some s => default false (enabled (net cfg) !! s) | None => false end.

Record wf cfg : Prop := {
  wf_n : 0 ≤ n cfg;
  wf_rows : length (endnames cfg) = Z.to_nat (n cfg);
  wf_row k names : endnames cfg !! k = Some (Some names) → length names = Z.to_nat (n cfg);
  wf_inj i j i' j' s : valid cfg i → valid cfg j → valid cfg i' → valid cfg j' →
    name_of cfg i j = Some s → name_of cfg i' j' = Some s → i = i' ∧ j = j';
}.
(** Every server has been started. *)
Definition full cfg : Prop := ∀ k, endnames cfg !! k ≠ Some None.

Definition set_enabled (rn : Network) (m : gmap string bool) : Network :=
  MkNetwork (reliable rn) (longDelays rn) (longReordering rn) (ends rn) m (servers rn)
    (connections rn) (alive rn) (done rn) (count rn) (nbytes rn).
(** The flags of ends that are not between servers now are kept, those of clerks and
    of former instances among them. *)
Definition same_but_enabled cfg cfg' : Prop :=
  ∃ m, cfg' = with_net cfg (set_enabled (net cfg) m) ∧
    ∀ s, (∀ i j, name_of cfg i j ≠ Some s) → m !! s = enabled (net cfg) !! s.

Lemma same_refl cfg : same_but_enabled cfg cfg.
Proof. exists (enabled (net cfg)). split; [by destruct cfg as [[] ?]|done]. Qed.
Lemma same_trans cfg1 cfg2 cfg3 :
  same_but_enabled cfg1 cfg2 → same_but_enabled cfg2 cfg3 → same_but_enabled cfg1 cfg3.
Proof. intros [m1 [-> H1]] [m2 [-> H2]]. exists m2. split; [done|]. intros s Hs. by rewrite H2, H1. Qed.
Lemma same_name cfg cfg' i j : same_but_enabled cfg cfg' → name_of cfg' i j = name_of cfg i j.
Proof. by intros [m [-> _]]. Qed.
Lemma same_wf cfg cfg' : same_but_enabled cfg cfg' → wf cfg → wf cfg'.
Proof. intros [m [-> _]] []. by split. Qed.
Lemma same_full cfg cfg' : same_but_enabled cfg cfg' → full cfg → full cfg'.
Proof. by intros [m [-> _]]. Qed.

Lemma some_row cfg i : wf cfg → endnames cfg !! Z.to_nat i ≠ Some None → valid cfg i →
  ∃ names, index (endnames cfg) i = Ret (Some names) ∧ endnames cfg !! Z.to_nat i = Some (Some names) ∧
    length names = Z.to_nat (n cfg).
Proof.
  intros Hw Hf Hi. unfold valid in Hi.
  destruct (lookup_lt_is_Some_2 (endnames cfg) (Z.to_nat i)) as [row Hr]; [rewrite wf_rows by done; lia|].
  destruct row as [names|]; [|done]. exists names. split_and!; [|done|by eapply wf_row].
  apply index_Ret. split; [lia|done].
Qed.
Lemma full_row cfg i : wf cfg → full cfg → valid cfg i →
  ∃ names, index (endnames cfg) i = Ret (Some names) ∧ endnames cfg !! Z.to_nat i = Some (Some names) ∧
    length names = Z.to_nat (n cfg).
Proof. intros Hw Hf Hi. apply some_row; [done|apply Hf|done]. Qed.

Lemma enable_end_spec cfg i j b :
  wf cfg → endnames cfg !! Z.to_nat i ≠ Some None → valid cfg i → valid cfg j →
  ∃ cfg', enable_end cfg i j b = Ret cfg' ∧ same_but_enabled cfg cfg' ∧
    ∀ a c, valid cfg a → valid cfg c →
      enabled_at cfg' a c = if decide ((a, c) = (i, j)) then b else enabled_at cfg a c.
Proof.
  intros Hw Hf Hi Hj. destruct (some_row cfg i Hw Hf Hi) as (names & Hix & Hr & Hl).
  destruct (lookup_lt_is_Some_2 names (Z.to_nat j)) as [s Hs]; [unfold valid in Hj; lia|].
  assert (name_of cfg i j = Some s) as Hn by (unfold name_of; by rewrite Hr).
  unfold enable_end. rewrite Hix. go_step.
  change (default [] (Some names)) with names.
  assert (index names j = Ret s) as ->; [apply index_Ret; split; [apply Hj|done]|].
  eexists. split; [reflexivity|]. split.
  { eexists. split; [reflexivity|]. intros s' Hs'. apply lookup_insert_ne. intros ->. by apply (Hs' i j). }
  intros a c Ha Hc. unfold enabled_at.
  change (name_of (with_net cfg _) a c) with (name_of cfg a c).
  destruct (name_of cfg a c) as [s'|] eqn:E; [|by case_decide; simplify_eq].
  cbn [net with_net enabled Enable]. case_decide as Hd.
  - simplify_eq. by rewrite lookup_insert_eq.
  - rewrite lookup_insert_ne; [done|]. intros ->. apply Hd.
    destruct (wf_inj cfg Hw a c i j s') as [-> ->]; done.
Qed.

(** A loop over ends that are all set to [b]. *)
Lemma fold_enable {A} (f : config Prm Srv → A → go (config Prm Srv)) (g : A → Z * Z) b (l : list A) cfg :
  wf cfg →
  (∀ x cfg', x ∈ l → same_but_enabled cfg cfg' → f cfg' x = enable_end cfg' (g x).1 (g x).2 b) →
  (∀ x, x ∈ l → valid cfg (g x).1 ∧ valid cfg (g x).2 ∧ endnames cfg !! Z.to_nat (g x).1 ≠ Some None) →
  ∃ cfg', go_fold f l cfg = Ret cfg' ∧ same_but_enabled cfg cfg' ∧
    ∀ a c, valid cfg a → valid cfg c →
      enabled_at cfg' a c = if decide ((a, c) ∈ g <$> l) then b else enabled_at cfg a c.
Proof.
  intros Hw Hx Hv.
  pose (P (done : list A) cfg' := same_but_enabled cfg cfg' ∧
    ∀ a c, valid cfg a → valid cfg c →
      enabled_at cfg' a c = if decide ((a, c) ∈ g <$> done) then b else enabled_at cfg a c).
  apply (go_fold_inv f P); unfold P; clear P.
  { split; [apply same_refl|]. intros. rewrite decide_False by (by intros ?%elem_of_nil). done. }
  intros d x rest cfg1 Hl [Hs1 Hm1]. assert (x ∈ l) as Hin by set_solver.
  destruct (Hv x Hin) as (Hv1 & Hv2 & Hrow). rewrite (Hx x cfg1) by done.
  assert (n cfg1 = n cfg) as Hn by by destruct Hs1 as [m [-> _]].
  destruct (enable_end_spec cfg1 (g x).1 (g x).2 b) as (cfg2 & -> & Hs2 & Hm2).
  { by eapply same_wf. } { by destruct Hs1 as [m [-> _]]. }
  { unfold valid. by rewrite Hn. } { unfold valid. by rewrite Hn. }
  exists cfg2. split; [done|]. split; [by eapply same_trans|]. intros a c Ha Hc.
  rewrite Hm2, Hm1 by (unfold valid in *; by rewrite ?Hn). rewrite <-surjective_pairing, fmap_app.
  destruct (decide ((a, c) = g x)) as [->|Hne].
  - rewrite decide_True; [done|]. apply elem_of_app. right. by left.
  - destruct (decide ((a, c) ∈ g <$> d)) as [Hd|Hd].
    + rewrite decide_True; [done|]. apply elem_of_app. by left.
    + rewrite decide_False; [done|]. intros [?|Hx']%elem_of_app; [done|].
      by apply list_elem_of_singleton in Hx'.
Qed.

(** ** Connecting and disconnecting one server *)
Definition between (i : Z) (l : list Z) (a c : Z) : Prop := (a = i ∧ c ∈ l) ∨ (c = i ∧ a ∈ l).
#[local] Instance between_dec i l a c : Decision (between i l a c).
Proof. unfold between. apply _. Defined.

Lemma between_ends i l a c :
  ((a, c) ∈ (λ j, (i, j)) <$> l) ∨ ((a, c) ∈ (λ j, (j, i)) <$> l) ↔ between i l a c.
Proof. unfold between. rewrite !list_elem_of_fmap. naive_solver. Qed.

(** Two loops in a row, over the rows and the columns. *)
Lemma two_loops cfg i l b (f1 f2 : config Prm Srv → go (config Prm Srv)) :
  (∃ cfg1, f1 cfg = Ret cfg1 ∧ same_but_enabled cfg cfg1 ∧ ∀ a c, valid cfg a → valid cfg c →
    enabled_at cfg1 a c = if decide ((a, c) ∈ (λ j, (i, j)) <$> l) then b else enabled_at cfg a c) →
  (∀ cfg1, same_but_enabled cfg cfg1 → ∃ cfg2, f2 cfg1 = Ret cfg2 ∧ same_but_enabled cfg1 cfg2 ∧
   ∀ a c, valid cfg1 a → valid cfg1 c →
    enabled_at cfg2 a c = if decide ((a, c) ∈ (λ j, (j, i)) <$> l) then b else enabled_at cfg1 a c) →
  ∃ cfg', (cfg1 ← f1 cfg; f2 cfg1) = Ret cfg' ∧ same_but_enabled cfg cfg' ∧
    ∀ a c, valid cfg a → valid cfg c →
      enabled_at cfg' a c = if decide (between i l a c) then b else enabled_at cfg a c.
Proof.
  intros (cfg1 & -> & Hs1 & Hm1) Hf2. destruct (Hf2 cfg1 Hs1) as (cfg2 & Hr & Hs2 & Hm2).
  exists cfg2. go_step. split; [done|]. split; [by eapply same_trans|]. intros a c Ha Hc.
  rewrite Hm2, Hm1 by (done || by destruct Hs1 as [m [-> _]]).
  pose proof (between_ends i l a c). repeat case_decide; tauto.
Qed.

Lemma connectUnlocked_spec cfg i to :
  wf cfg → full cfg → valid cfg i → Forall (valid cfg) to →
  ∃ cfg', connectUnlocked cfg i to = Ret cfg' ∧ same_but_enabled cfg cfg' ∧
    ∀ a c, valid cfg a → valid cfg c →
      enabled_at cfg' a c = if decide (between i to a c) then true else enabled_at cfg a c.
Proof.
  intros Hw Hf Hi Hto. rewrite Forall_forall in Hto. unfold connectUnlocked. apply two_loops.
  - apply (fold_enable _ (λ j, (i, j))); try done. intros j Hj. split_and!; [done|by apply Hto|apply Hf].
  - intros cfg1 Hs1. apply (fold_enable _ (λ j, (j, i))); try done.
    + by eapply same_wf.
    + intros j Hj. destruct Hs1 as [m [-> _]]. split_and!; [by apply Hto|done|apply Hf].
Qed.

Lemma disconnectUnlocked_spec cfg i from :
  wf cfg → full cfg → valid cfg i → Forall (valid cfg) from → Z.of_nat (length from) ≤ n cfg →
  ∃ cfg', disconnectUnlocked cfg i from = Ret cfg' ∧ same_but_enabled cfg cfg' ∧
    ∀ a c, valid cfg a → valid cfg c →
      enabled_at cfg' a c = if decide (between i from a c) then false else enabled_at cfg a c.
Proof.
  intros Hw Hf Hi Hfrom Hlen. rewrite Forall_forall in Hfrom. unfold disconnectUnlocked. apply two_loops.
  - apply (fold_enable _ (λ j, (i, j))); try done; [|intros j Hj; split_and!; [done|by apply Hfrom|apply Hf]].
    intros j cfg' _ Hs. destruct (full_row cfg i Hw Hf Hi) as (names & Hix & _).
    destruct Hs as [m [-> _]]. cbn [endnames with_net]. by rewrite Hix.
  - intros cfg1 Hs1.
    assert ((λ jx : nat * Z, (jx.2, i)) <$> imap pair from = (λ j, (j, i)) <$> from) as <-.
    { rewrite <-(imap_pair_snd from) at 2. by rewrite <-list_fmap_compose. }
    apply (fold_enable _ (λ jx : nat * Z, (jx.2, i))); [by eapply same_wf| |].
    + intros [j x] cfg' Hj Hs. apply elem_of_lookup_imap in Hj as (j' & x' & [= -> ->] & Hx).
      apply lookup_lt_Some in Hx. destruct (full_row cfg (Z.of_nat j') Hw Hf) as (names & Hix & _).
      { unfold valid. lia. }
      destruct Hs1 as [m [-> _]], Hs as [m' [-> _]]. cbn [endnames with_net fst snd]. by rewrite Hix.
    + intros [j x] Hj. apply elem_of_lookup_imap in Hj as (j' & x' & [= -> ->] & Hx).
      destruct Hs1 as [m [-> _]]. split_and!; [apply Hfrom; by eapply list_elem_of_lookup_2|done|apply Hf].
Qed.

(** ** Partitions *)

(** One side of [partition]: the servers [p], away from [q]. *)
Definition crosses (p q : list Z) (a c : Z) : Prop := (a ∈ p ∧ c ∈ q) ∨ (c ∈ p ∧ a ∈ q).
#[local] Instance crosses_dec p q a c : Decision (crosses p q a c).
Proof. unfold crosses. apply _. Defined.

Lemma one_side cfg p q :
  wf cfg → full cfg → Forall (valid cfg) p → Forall (valid cfg) q →
  Z.of_nat (length q) ≤ n cfg → p ## q →
  ∃ cfg', go_fold (λ cfg i, cfg ← disconnectUnlocked cfg i q; connectUnlocked cfg i p) p cfg = Ret cfg' ∧
    same_but_enabled cfg cfg' ∧ ∀ a c, valid cfg a → valid cfg c →
      enabled_at cfg' a c = if decide (crosses p q a c) then false
        else if decide (crosses p p a c) then true else enabled_at cfg a c.
Proof.
  intros Hw Hf Hp Hq Hlen Hdis.
  pose (P (done : list Z) cfg' := same_but_enabled cfg cfg' ∧ ∀ a c, valid cfg a → valid cfg c →
      enabled_at cfg' a c = if decide (crosses done q a c) then false
        else if decide (crosses done p a c) then true else enabled_at cfg a c).
  apply (go_fold_inv _ P); unfold P; clear P.
  { split; [apply same_refl|]. intros a c _ _. unfold crosses.
    rewrite !decide_False; [done|..]; rewrite !elem_of_nil; tauto. }
  intros d x rest cfg1 Hl [Hs1 Hm1].
  assert (valid cfg x) as Hx by (rewrite Forall_forall in Hp; apply Hp; set_solver).
  assert (wf cfg1) as Hw1 by by eapply same_wf. assert (full cfg1) as Hf1 by by eapply same_full.
  assert (∀ y, valid cfg1 y ↔ valid cfg y) as Hval by by destruct Hs1 as [m [-> _]].
  assert (n cfg1 = n cfg) as Hn by by destruct Hs1 as [m [-> _]].
  assert (∀ l, Forall (valid cfg) l → Forall (valid cfg1) l) as HF1 by by destruct Hs1 as [m [-> _]].
  destruct (disconnectUnlocked_spec cfg1 x q) as (cfg2 & -> & Hs2 & Hm2);
    [done|done|by apply Hval|by apply HF1|lia|].
  assert (∀ y, valid cfg2 y ↔ valid cfg y) as Hval2 by by destruct Hs1 as [m [-> _]], Hs2 as [m' [-> _]].
  assert (∀ l, Forall (valid cfg) l → Forall (valid cfg2) l) as HF2
    by by destruct Hs1 as [m [-> _]], Hs2 as [m' [-> _]].
  destruct (connectUnlocked_spec cfg2 x p) as (cfg3 & Hr & Hs3 & Hm3);
    [by eapply same_wf|by eapply same_full|by apply Hval2|by apply HF2|].
  exists cfg3. go_step. split; [done|]. split; [exact (same_trans _ _ _ Hs1 (same_trans _ _ _ Hs2 Hs3))|].
  intros a c Ha Hc. rewrite Hm3, Hm2, Hm1 by (first [by apply Hval2|by apply Hval|done]).
  assert (x ∈ p) by set_solver. assert (d ⊆ p) by set_solver.
  assert (∀ y, y ∈ p → y ∈ q → False) as Hpq by set_solver.
  assert (∀ y, y ∈ d ++ [x] ↔ y ∈ d ∨ y = x) as Hdx.
  { intros y. by rewrite elem_of_app, list_elem_of_singleton. }
  pose proof (Hdx a). pose proof (Hdx c). pose proof (Hpq a). pose proof (Hpq c).
  unfold between, crosses. repeat case_decide; try done; exfalso; naive_solver.
Qed.
Lemma valid_length cfg p : wf cfg → NoDup p → Forall (valid cfg) p → Z.of_nat (length p) ≤ n cfg.
Proof.
  intros Hw Hn Hv. pose proof (wf_n cfg Hw). assert (p ⊆+ seqZ 0 (n cfg)) as Hs%submseteq_length.
  { apply NoDup_submseteq; [done|]. intros x Hx. rewrite Forall_forall in Hv.
    apply elem_of_seqZ. pose proof (Hv x Hx). unfold valid in *. lia. }
  rewrite length_seqZ in Hs. lia.
Qed.

Lemma disjoint_bool (p q : list Z) x : p ## q → bool_decide (x ∈ p) && bool_decide (x ∈ q) = false.
Proof.
  intros Hd. rewrite <-bool_decide_and. apply bool_decide_eq_false. intros [Hp Hq]. exact (Hd x Hp Hq).
Qed.

Lemma crosses_bool p q a c :
  bool_decide (crosses p q a c) =
    bool_decide (a ∈ p) && bool_decide (c ∈ q) || bool_decide (c ∈ p) && bool_decide (a ∈ q).
Proof. rewrite <-!bool_decide_and, <-bool_decide_or. by apply bool_decide_ext. Qed.

(** C31 [partition] isolates two disjoint groups of servers: afterwards a
    server of the groups can send to another exactly when both are in the same
    group; nothing else has changed ([same_but_enabled]: neither another field nor
    the flag of an end that is not between two servers, such as a clerk's), and no
    index is out of range.  All servers must have been started. *)
Theorem partition_connectivity cfg p1 p2 :
  wf cfg → full cfg → Forall (valid cfg) p1 → Forall (valid cfg) p2 → NoDup p1 → NoDup p2 → p1 ## p2 →
  ∃ cfg', partition cfg p1 p2 = Ret cfg' ∧ same_but_enabled cfg cfg' ∧
    ∀ a c, valid cfg a → valid cfg c →
      enabled_at cfg' a c =
        if decide (a ∈ p1 ++ p2 ∧ c ∈ p1 ++ p2) then bool_decide ((a ∈ p1 ∧ c ∈ p1) ∨ (a ∈ p2 ∧ c ∈ p2))
        else enabled_at cfg a c.
Proof.
  intros Hw Hf Hp1 Hp2 Hn1 Hn2 Hdis. unfold partition.
  pose proof (valid_length cfg p1 Hw Hn1 Hp1). pose proof (valid_length cfg p2 Hw Hn2 Hp2).
  destruct (one_side cfg p1 p2) as (cfg1 & -> & Hs1 & Hm1); [done..|].
  assert (∀ y, valid cfg1 y ↔ valid cfg y) as Hval by by destruct Hs1 as [m [-> _]].
  assert (∀ l, Forall (valid cfg) l → Forall (valid cfg1) l) as HF1 by by destruct Hs1 as [m [-> _]].
  destruct (one_side cfg1 p2 p1) as (cfg2 & Hr & Hs2 & Hm2);
    [by eapply same_wf|by eapply same_full|by apply HF1|by apply HF1|by destruct Hs1 as [m [-> _]]|set_solver|].
  exists cfg2. go_step. split; [done|]. split; [by eapply same_trans|].
  intros a c Ha Hc. rewrite Hm2, Hm1 by first [by apply Hval|done].
  rewrite (decide_ext (a ∈ p1 ++ p2 ∧ c ∈ p1 ++ p2) ((a ∈ p1 ∨ a ∈ p2) ∧ (c ∈ p1 ∨ c ∈ p2))) by (rewrite !elem_of_app; reflexivity).
  rewrite !decide_bool_decide, !crosses_bool, !bool_decide_or, !bool_decide_and, !bool_decide_or.
  pose proof (disjoint_bool p1 p2 a Hdis) as Da. pose proof (disjoint_bool p1 p2 c Hdis) as Dc.
  revert Da Dc. clear. by destruct (bool_decide (a ∈ p1)), (bool_decide (a ∈ p2)), (bool_decide (c ∈ p1)), (bool_decide (c ∈ p2)).
Qed.

(** ** Choosing a partition *)
Definition pad (k : nat) (l : list Z) : list Z := l ++ replicate (k - length l) 0.
Lemma pad_length k l : (length l ≤ k)%nat → length (pad k l) = k.
Proof. intros. unfold pad. rewrite length_app, length_replicate. lia. Qed.
Lemma pad_store k l x :
  (length l < k)%nat → store (pad k l) (Z.of_nat (length l)) x = Ret (pad k (l ++ [x])).
Proof.
  intros Hk. rewrite store_lt by (rewrite pad_length; lia). rewrite Nat2Z.id. unfold pad.
  rewrite insert_app_r_alt, Nat.sub_diag by lia. rewrite length_app. simpl.
  replace (k - length l)%nat with (S (k - (length l + 1))) by lia. simpl. by rewrite <-app_assoc.
Qed.
Lemma pad_full k l : length l = k → pad k l = l.
Proof. intros. unfold pad. replace (k - length l)%nat with O by lia. simpl. apply app_nil_r. Qed.

(** The servers other than [l]. *)
Definition others (l m : Z) : list Z := filter (λ i, i ≠ l) (seqZ 0 m).

Lemma others_length l m : 0 ≤ l < m → length (others l m) = Z.to_nat (m - 1).
Proof.
  intros Hl. assert (l :: others l m ≡ₚ seqZ 0 m) as Hp%Permutation_length.
  { apply NoDup_Permutation.
    - constructor; [intros [? _]%list_elem_of_filter; done|]. apply NoDup_filter, NoDup_seqZ.
    - apply NoDup_seqZ.
    - intros x. unfold others. rewrite elem_of_cons, list_elem_of_filter, elem_of_seqZ.
      destruct (decide (x = l)); lia. }
  rewrite length_seqZ in Hp. simpl in Hp. lia.
Qed.

Lemma deal_loop l m (h := Z.to_nat (Z.quot m 2)) :
  2 ≤ m → 0 ≤ l < m →
  go_fold (deal l) (seqZ 0 m) (replicate (S h) 0, replicate h 0, 0) =
    Ret (pad (S h) (take (S h) (others l m)), pad h (drop (S h) (others l m)), Z.of_nat (length (others l m))).
Proof.
  intros Hm Hl. pose proof (others_length l m Hl) as Hlen.
  assert (Z.of_nat h = m `div` 2) as Hh by (unfold h; rewrite Z.quot_div_nonneg, Z2Nat.id by lia; done).
  set (P (done : list Z) (st : list Z * list Z * Z) :=
    let o := filter (λ i, i ≠ l) done in
    st = (pad (S h) (take (S h) o), pad h (drop (S h) o), Z.of_nat (length o))).
  destruct (go_fold_inv (deal l) P (seqZ 0 m) (replicate (S h) 0, replicate h 0, 0)) as (st & -> & HP);
    [| |by rewrite HP].
  - unfold P, pad. simpl. by rewrite Nat.sub_0_r.
  - intros d x rest st Hd ->. unfold P, deal. rewrite filter_app.
    assert (filter (λ i, i ≠ l) (d ++ x :: rest) = others l m) as Ho by (unfold others; by rewrite <-Hd).
    rewrite filter_app in Ho. set (o := filter (λ i, i ≠ l) d) in *.
    destruct (Z.eqb_spec x l) as [->|Hne].
    { rewrite filter_cons_False by naive_solver. simpl. rewrite app_nil_r. by eexists. }
    rewrite filter_cons_True in Ho by done. rewrite filter_cons_True by done.
    change (filter (λ i, i ≠ l) []) with (@nil Z).
    assert (length o < Z.to_nat (m - 1))%nat as Hlo.
    { rewrite <-Hlen, <-Ho, length_app. simpl. lia. }
    rewrite pad_length by (rewrite length_take; lia).
    destruct (Z.ltb_spec (Z.of_nat (length o)) (Z.of_nat (S h))).
    + assert (length o < S h)%nat as Hoh by lia. assert (length (o ++ [x]) <= S h)%nat as Hoh' by (rewrite length_app; simpl; lia).
      rewrite !take_ge, !drop_ge by lia. 
      rewrite pad_store by lia. go_step. eexists. split; [done|].
      rewrite length_app. simpl. by replace (Z.of_nat (length o + 1)) with (Z.of_nat (length o) + 1) by lia.
    + rewrite take_app_le, drop_app_le by lia.
      replace (Z.of_nat (length o) - Z.of_nat (S h)) with (Z.of_nat (length (drop (S h) o)))
        by (rewrite length_drop; lia).
      rewrite pad_store by (rewrite length_drop; lia). go_step. eexists. split; [done|].
      rewrite length_app. simpl. by replace (Z.of_nat (length o + 1)) with (Z.of_nat (length o) + 1) by lia.
Qed.

Lemma split_around_spec m l :
  2 ≤ m → 0 ≤ l < m →
  ∃ p1 p2, split_around m l = Ret (p1, p2) ∧
    (Z.odd m = true → p1 ++ p2 ≡ₚ seqZ 0 m ∧ l ∈ p2 ∧ (length p2 < length p1)%nat) ∧
    (Z.odd m = false → 4 ≤ m → l ≠ 0 → 0 ∈ p1 ∧ 0 ∈ p2 ∧ l ∈ p2).
Proof.
  intros Hm Hl. pose proof (others_length l m Hl) as Hlen.
  set (o := others l m) in *. set (h := Z.to_nat (Z.quot m 2)).
  assert (Z.of_nat h = m `div` 2) as Hh by (unfold h; rewrite Z.quot_div_nonneg, Z2Nat.id by lia; done).
  unfold split_around. replace (Z.to_nat (Z.quot m 2 + 1)) with (S h) by (unfold h; lia).
  fold h. rewrite deal_loop by done. go_step. fold h o.
  assert (length (drop (S h) o) < h)%nat as Hd by (rewrite length_drop; lia).
  rewrite pad_length by lia. rewrite store_lt by (rewrite pad_length; lia). go_step.
  eexists _, _. split; [reflexivity|].
  assert (l ∈ <[Z.to_nat (Z.of_nat h - 1) := l]> (pad h (drop (S h) o))) as Hin.
  { eapply list_elem_of_lookup_2, list_lookup_insert_eq. rewrite pad_length by lia. lia. }
  assert (m = 2 * (m `div` 2) + Z.b2z (Z.odd m)) as Hodd by (rewrite <-Z.div2_div; apply Z.div2_odd).
  split.
  - intros Ho. rewrite Ho in Hodd. cbn [Z.b2z] in Hodd.
    assert (Z.to_nat (Z.of_nat h - 1) = length (drop (S h) o)) as Hlast by (rewrite length_drop; lia).
    pose proof (pad_store h (drop (S h) o) l Hd) as Hst. apply store_Ret in Hst as [_ Hst].
    rewrite Nat2Z.id in Hst. rewrite Hlast, <-Hst.
    rewrite !pad_full by (rewrite ?length_app, ?length_drop, ?length_take; cbn [length]; lia).
    split_and!.
    + rewrite app_assoc, take_drop. rewrite (Permutation_app_comm o [l]). simpl.
      apply NoDup_Permutation.
      * constructor; [intros [? _]%list_elem_of_filter; done|]. apply NoDup_filter, NoDup_seqZ.
      * apply NoDup_seqZ.
      * intros x. unfold o, others. rewrite elem_of_cons, list_elem_of_filter, elem_of_seqZ.
        destruct (decide (x = l)); lia.
    + set_solver.
    + rewrite length_app, length_take, length_drop. cbn [length]. lia.
  - intros Ho Hm4 Hl0. rewrite Ho in Hodd. cbn [Z.b2z] in Hodd. split_and!; [| |done].
    + unfold pad. apply elem_of_app. left. unfold o, others. rewrite seqZ_cons by lia.
      rewrite filter_cons_True by done. simpl. left.
    + assert (length (drop (S h) o) = h - 2)%nat as Hd2 by (rewrite length_drop; lia).
      apply (list_elem_of_lookup_2 _ (h - 2)). rewrite list_lookup_insert_ne by lia. unfold pad.
      rewrite lookup_app_r by lia. apply lookup_replicate_2. lia.
Qed.

Lemma Leader_loop_range cfg is_ b i : Leader_loop cfg is_ = Ret (b, i) → i ∈ is_ ∨ i = 0.
Proof.
  induction is_ as [|j is_ IH]; cbn [Leader_loop]; [intros [= _ <-]; by right|].
  intros (kv & _ & (s & _ & Hl)%go_bind_Ret)%go_bind_Ret. destruct (GetState (server_raft s)).2.
  - injection Hl as _ <-. left. by left.
  - destruct (IH Hl); [left; by right|by right].
Qed.

(** C33 [make_partition], when [Leader] answers (it panics on a server that is shut
    down): with at least two servers no index is out of range.  With an odd number
    they are split in a majority and a minority that has the leader, each server
    once.  With an even number of at least four the minority gets server 0 a second
    time (its slot before the last is never written): for a leader that is not
    server 0, server 0 is then on both sides.  With fewer than two servers the
    minority is empty, and writing the leader to it panics. *)
Theorem make_partition_spec cfg found l :
  Leader cfg = Ret (found, l) → 0 ≤ n cfg →
  (2 ≤ n cfg → ∃ p1 p2, make_partition cfg = Ret (p1, p2) ∧
     (Z.odd (n cfg) = true → p1 ++ p2 ≡ₚ seqZ 0 (n cfg) ∧ l ∈ p2 ∧ (length p2 < length p1)%nat) ∧
     (Z.odd (n cfg) = false → 4 ≤ n cfg → l ≠ 0 → 0 ∈ p1 ∧ 0 ∈ p2 ∧ l ∈ p2)) ∧
  (n cfg < 2 → make_partition cfg = Panic).
Proof.
  intros Hl Hn. unfold make_partition. rewrite Hl. go_step. cbn [snd].
  assert (2 ≤ n cfg → 0 ≤ l < n cfg) as Hrange.
  { intros H2. destruct (Leader_loop_range _ _ _ _ Hl) as [Hin%elem_of_seqZ|]; lia. }
  split; [intros H2; by apply split_around_spec; auto|]. intros H2.
  assert (∀ i, 0 ≤ i < n cfg → i = 0) as Hzero by lia.
  assert (n cfg = 0 ∨ n cfg = 1) as [-> | E] by lia; [done|].
  destruct (Leader_loop_range _ _ _ _ Hl) as [Hin%elem_of_seqZ| ->]; [|by rewrite E].
  rewrite E in *. by assert (l = 0) as -> by lia.
Qed.
End harness.
