(* ===== verification/HarnessRestart.v ===== *)
(** * The tester of the key-value labs: starting and stopping servers *)
From S2P Require Import Prelude GoStrings Persister Raft Labrpc Harness HarnessProof.
#[local] Open Scope Z_scope.

Section restart.
Context {R C Prm Srv : Type} `{RaftLaws R C} `{!LabServer R Prm Srv} `{!LabServerLaws R C Prm Srv} (rnd : nat → string) `{Inj nat string (=) (=) rnd}.
Implicit Types (cfg : config Prm Srv).

(** The names in use are ends of the network, the names still to be drawn are
    not, and the pointers given out are below the next one. *)
Record sane cfg : Prop := {
  sn_wf : wf cfg;
  sn_ends k names s : endnames cfg !! k = Some (Some names) → s ∈ names → s ∈ ends (net cfg);
  sn_fresh d : (drawn cfg ≤ d)%nat → (rnd d ∉ ends (net cfg));
  sn_alloc q : (allocated cfg ≤ q)%nat → persisters cfg !! q = None ∧ instances cfg !! q = None;
  sn_saved_len : length (saved cfg) = Z.to_nat (n cfg);
  sn_saved k q : saved cfg !! k = Some (Some q) → is_Some (persisters cfg !! q);
  sn_kv_len : length (kvservers cfg) = Z.to_nat (n cfg);
  sn_kv k q : kvservers cfg !! k = Some (Some q) → is_Some (instances cfg !! q);
}.

Lemma draw_spec k cfg :
  draw rnd k cfg = (with_drawn cfg (drawn cfg + k), rnd <$> seq (drawn cfg) k).
Proof.
  revert cfg. induction k as [|k IH]; intros cfg; simpl.
  - rewrite Nat.add_0_r. by destruct cfg.
  - rewrite IH. simpl. by replace (S (drawn cfg + k)) with (drawn cfg + S k)%nat by lia.
Qed.

Record ends_made cfg (names : list string) (rn : Network) : Prop := {
  em_servers : servers rn = servers (net cfg);
  em_ends : ends rn = list_to_set names ∪ ends (net cfg);
  em_new s : s ∈ names → enabled rn !! s = Some false;
  em_old s : s ∉ names → enabled rn !! s = enabled (net cfg) !! s;
  em_to j s : names !! j = Some s → connections rn !! s = Some (Some (Itoa (Z.of_nat j)));
  em_kept s : s ∉ names → connections rn !! s = connections (net cfg) !! s;
}.

Lemma make_ends_spec cfg names :
  NoDup names → (∀ s, s ∈ names → s ∉ ends (net cfg)) →
  ∃ rn, make_ends cfg names = Ret (with_net cfg rn) ∧ ends_made cfg names rn.
Proof.
  intros Hn Hfresh.
  pose (P (dn : list (nat * string)) cfg' := ∃ rn, cfg' = with_net cfg rn ∧
    servers rn = servers (net cfg) ∧ ends rn = list_to_set dn.*2 ∪ ends (net cfg) ∧
    (∀ s, s ∈ dn.*2 → enabled rn !! s = Some false) ∧
    (∀ s, s ∉ dn.*2 → enabled rn !! s = enabled (net cfg) !! s) ∧
    (∀ j s, (j, s) ∈ dn → connections rn !! s = Some (Some (Itoa (Z.of_nat j)))) ∧
    (∀ s, s ∉ dn.*2 → connections rn !! s = connections (net cfg) !! s)).
  unfold make_ends.
  match goal with |- context [go_fold ?f _ _] => pose proof (go_fold_inv f P (imap pair names) cfg) as Hfold end.
  destruct Hfold as (cfg' & -> & rn & -> & H1' & H2 & H3 & H4 & H5 & H6).
  3: { exists rn. split; [done|]. rewrite imap_pair_snd in *. split; try done.
       intros j s Hj. apply H5. apply elem_of_lookup_imap. by exists j, s. }
  - exists (net cfg). split; [by destruct cfg|]. split; [done|]. split; [set_solver|].
    split_and!; try done; intros *; by intros ?%elem_of_nil.
  - intros d [j s] rest cfg' Hl (rn & -> & H1' & H2 & H3 & H4 & H5 & H6).
    assert (d.*2 ++ s :: rest.*2 = names) as Hnames.
    { rewrite <-(imap_pair_snd names), Hl, fmap_app. done. }
    assert (s ∉ d.*2) as Hs by (rewrite <-Hnames in Hn; apply NoDup_app in Hn as (_ & Hd & _); set_solver).
    cbn [fst snd net with_net]. unfold MakeEnd. rewrite decide_False.
    2: { rewrite H2, elem_of_union, elem_of_list_to_set. intros [?|?]; [done|].
         eapply Hfresh; [|done]. rewrite <-Hnames. set_solver. }
    go_step. eexists. split; [done|]. eexists. split; [done|].
    cbn [Connect servers ends enabled connections]. rewrite fmap_app. cbn [fmap list_fmap snd].
    split; [done|]. split; [rewrite H2; set_solver|]. split_and!.
    + intros t [Ht|Ht%list_elem_of_singleton]%elem_of_app.
      * rewrite lookup_insert_ne by set_solver. auto.
      * subst t. by rewrite lookup_insert_eq.
    + intros t Ht. rewrite lookup_insert_ne by set_solver. apply H4. set_solver.
    + intros j' t [Ht|[= -> ->]%list_elem_of_singleton]%elem_of_app.
      * assert (t ∈ d.*2) by (apply list_elem_of_fmap; by exists (j', t)).
        rewrite !lookup_insert_ne by set_solver. auto.
      * by rewrite lookup_insert_eq.
    + intros t Ht. rewrite !lookup_insert_ne by set_solver. apply H6. set_solver.
Qed.

Lemma copy_saved_spec cfg i :
  length (saved cfg) = Z.to_nat (n cfg) → valid cfg i →
  (∀ k q, saved cfg !! k = Some (Some q) → is_Some (persisters cfg !! q)) →
  copy_saved cfg i = Ret (
    match saved cfg !! Z.to_nat i with
    | Some (Some q) => with_saved cfg (<[allocated cfg := default MakePersister (persisters cfg !! q)]> (persisters cfg))
        (<[Z.to_nat i := Some (allocated cfg)]> (saved cfg)) (S (allocated cfg))
    | _ => cfg end).
Proof.
  intros Hl Hi Hsome. unfold valid in Hi. unfold copy_saved.
  destruct (lookup_lt_is_Some_2 (saved cfg) (Z.to_nat i)) as [ps Hps]; [lia|].
  rewrite (proj2 (index_Ret (saved cfg) i ps)) by (split; [lia|done]). go_step. rewrite Hps.
  destruct ps as [q|]; [|done]. destruct (Hsome _ _ Hps) as [p Hp]. rewrite Hp.
  cbn [deref mbind go_bind]. rewrite store_lt by lia.
  go_step. by rewrite Copy_id.
Qed.

(** The persister of a server that starts: a copy of the one it had, or a new
    one. *)
Definition contents cfg (i : Z) : Persister :=
  match saved cfg !! Z.to_nat i with
  | Some (Some q) => default MakePersister (persisters cfg !! q)
  | _ => MakePersister
  end.
Lemma place_persister cfg i :
  length (saved cfg) = Z.to_nat (n cfg) → valid cfg i →
  (∀ k q, saved cfg !! k = Some (Some q) → is_Some (persisters cfg !! q)) →
  (ps ← index (saved cfg) i;
   match ps with
   | Some _ => copy_saved cfg i
   | None => l ← store (saved cfg) i (Some (allocated cfg));
       mret (with_saved cfg (<[allocated cfg := MakePersister]> (persisters cfg)) l (S (allocated cfg)))
   end) = Ret (with_saved cfg (<[allocated cfg := contents cfg i]> (persisters cfg))
                 (<[Z.to_nat i := Some (allocated cfg)]> (saved cfg)) (S (allocated cfg))).
Proof.
  unfold valid. intros Hl Hi Hsome.
  destruct (lookup_lt_is_Some_2 (saved cfg) (Z.to_nat i)) as [ps Hps]; [lia|].
  rewrite (proj2 (index_Ret (saved cfg) i ps)) by (split; [lia|done]). go_step.
  unfold contents. rewrite Hps. destruct ps as [q|].
  - rewrite copy_saved_spec by done. by rewrite Hps.
  - rewrite store_lt by lia. done.
Qed.

(** ** StartServer *)
Record started cfg (i : Z) cfg' (names : list string) (q k : nat) : Prop := {
  st_n : n cfg' = n cfg;
  st_endnames : endnames cfg' = <[Z.to_nat i := Some names]> (endnames cfg);
  st_length : length names = Z.to_nat (n cfg);
  st_fresh s : s ∈ names → s ∉ ends (net cfg);
  st_new s : s ∈ names → enabled (net cfg') !! s = Some false;
  st_old s : s ∉ names → enabled (net cfg') !! s = enabled (net cfg) !! s;
  st_to j s : names !! j = Some s → connections (net cfg') !! s = Some (Some (Itoa (Z.of_nat j)));
  st_kept s : s ∉ names → connections (net cfg') !! s = connections (net cfg) !! s;
  st_servers : servers (net cfg') = <[Itoa i := Some k]> (servers (net cfg));
  st_saved : saved cfg' = <[Z.to_nat i := Some q]> (saved cfg);
  st_persisters : persisters cfg !! q = None ∧ persisters cfg' = <[q := contents cfg i]> (persisters cfg);
  st_kv : kvservers cfg' = <[Z.to_nat i := Some k]> (kvservers cfg);
  st_instances : instances cfg !! k = None ∧ ∃ kv, instances cfg' = <[k := kv]> (instances cfg) ∧
    rf_persister (server_raft kv) = q ∧ rf_alive (server_raft kv) = true;
}.

Lemma rnd_names_NoDup k d : NoDup (rnd <$> seq d k).
Proof. apply NoDup_fmap_2; [done|]. apply NoDup_seq. Qed.

Lemma name_of_insert cfg cfg' i names a c :
  endnames cfg' = <[Z.to_nat i := Some names]> (endnames cfg) → length (endnames cfg) = Z.to_nat (n cfg) →
  valid cfg i → valid cfg a →
  name_of cfg' a c = if decide (a = i) then names !! Z.to_nat c else name_of cfg a c.
Proof.
  unfold name_of, valid. intros -> Hl Hi Ha. case_decide as Hd.
  - subst a. rewrite list_lookup_insert_eq by lia. done.
  - rewrite list_lookup_insert_ne by lia. done.
Qed.

Lemma wf_insert cfg cfg' i names :
  wf cfg → n cfg' = n cfg → endnames cfg' = <[Z.to_nat i := Some names]> (endnames cfg) → valid cfg i →
  length names = Z.to_nat (n cfg) → NoDup names →
  (∀ a c s, name_of cfg a c = Some s → s ∉ names) → wf cfg'.
Proof.
  intros Hw Hn He Hi Hl HN Hnew. pose proof (wf_rows cfg Hw) as Hrows. split.
  - rewrite Hn. apply Hw.
  - by rewrite He, length_insert, Hn.
  - intros k l. rewrite He, Hn. intros [(_ & [= <-] & _)|[_ Hk]]%list_lookup_insert_Some; [done|by eapply wf_row].
  - unfold valid. rewrite Hn. intros a c a' c' s Ha Hc Ha' Hc'.
    rewrite !(name_of_insert cfg cfg' i names) by done.
    repeat case_decide; subst; intros E1 E2.
    + split; [done|]. pose proof (NoDup_lookup _ _ _ _ HN E1 E2). lia.
    + by apply list_elem_of_lookup_2, (Hnew _ _ _ E2) in E1.
    + by apply list_elem_of_lookup_2, (Hnew _ _ _ E1) in E2.
    + by eapply (wf_inj cfg Hw).
Qed.

Lemma name_of_row cfg a c s :
  name_of cfg a c = Some s → ∃ names, endnames cfg !! Z.to_nat a = Some (Some names) ∧ s ∈ names.
Proof.
  unfold name_of. destruct (endnames cfg !! Z.to_nat a) as [[names|]|]; [|done..]. intros Hs.
  exists names. split; [done|]. by eapply list_elem_of_lookup_2.
Qed.


Lemma sane_after cfg i cfg' names q k :
  sane cfg → valid cfg i → length names = Z.to_nat (n cfg) → NoDup names →
  ends (net cfg') = list_to_set names ∪ ends (net cfg) →
  (∀ d, (drawn cfg' ≤ d)%nat → (rnd d ∉ names) ∧ (drawn cfg ≤ d)%nat) →
  q = allocated cfg → k = S q → allocated cfg' = S k →
  started cfg i cfg' names q k → sane cfg'.
Proof.
  intros [] Hi Hl HN He Hd Hq Hk Ha []. unfold valid in Hi.
  destruct st_persisters0 as [_ Hp], st_instances0 as [_ (kv & Hin & _)]. subst q k. split.
  - eapply wf_insert; try done. intros a c s (nm & Hr & Hs)%name_of_row Hin'.
    eapply st_fresh0; [done|]. by eapply sn_ends0.
  - rewrite st_endnames0, He. intros j nm s. set_unfold.
    intros [(_ & [= <-] & _)|[_ Hj]]%list_lookup_insert_Some Hs; [by left|right]. by eapply sn_ends0.
  - intros d Hd'. destruct (Hd d Hd') as [Hd1 Hd2]. rewrite He. set_unfold. intros [?|?]; [done|].
    by eapply sn_fresh0.
  - rewrite Ha, Hp, Hin. intros p Hp'. rewrite lookup_insert_ne, lookup_insert_ne by lia.
    apply sn_alloc0. lia.
  - by rewrite st_saved0, length_insert, st_n0.
  - rewrite st_saved0, Hp. intros j p [(_ & [= <-] & _)|[_ Hj]]%list_lookup_insert_Some.
    + by rewrite lookup_insert_eq.
    + destruct (sn_saved0 _ _ Hj) as [x Hx]. destruct (decide (p = allocated cfg)) as [->|Hne].
      * by rewrite lookup_insert_eq.
      * rewrite lookup_insert_ne by done. by eexists.
  - by rewrite st_kv0, length_insert, st_n0.
  - rewrite st_kv0, Hin. intros j p [(_ & [= <-] & _)|[_ Hj]]%list_lookup_insert_Some.
    + by rewrite lookup_insert_eq.
    + destruct (sn_kv0 _ _ Hj) as [x Hx]. destruct (decide (p = S (allocated cfg))) as [->|Hne].
      * by rewrite lookup_insert_eq.
      * rewrite lookup_insert_ne by done. by eexists.
Qed.

Lemma StartServer_spec cfg i :
  sane cfg → valid cfg i →
  ∃ cfg' names q k, StartServer rnd cfg i = Ret cfg' ∧ sane cfg' ∧ started cfg i cfg' names q k.
Proof.
  intros Hs Hi. pose proof (sn_wf cfg Hs) as Hw. pose proof (wf_n cfg Hw) as Hn0.
  set (m := Z.to_nat (n cfg)). set (names := rnd <$> seq (drawn cfg) m).
  assert (length names = m) as Hlen by (unfold names; by rewrite length_fmap, length_seq).
  assert (NoDup names) as HN by apply rnd_names_NoDup.
  assert (∀ s, s ∈ names → s ∉ ends (net cfg)) as Hfresh.
  { intros s Hin. unfold names in Hin. apply list_elem_of_fmap in Hin as (d & -> & Hd%elem_of_seq).
    apply (sn_fresh cfg Hs). lia. }
  unfold StartServer. fold m. rewrite draw_spec. cbn [endnames with_drawn]. fold names.
  pose proof Hi as Hi'. unfold valid in Hi'.
  rewrite store_lt by (rewrite wf_rows by done; lia). go_step.
  set (cfg1 := with_endnames (with_drawn cfg (drawn cfg + m)) (<[Z.to_nat i:=Some names]> (endnames cfg))).
  destruct (make_ends_spec cfg1 names HN Hfresh) as (rn & -> & [E1 E2 E3 E4 E5 E6]). go_step.
  pose proof (place_persister (with_net cfg1 rn) i (sn_saved_len cfg Hs) Hi (sn_saved cfg Hs)) as Hpl.
  destruct (index (saved (with_net cfg1 rn)) i) as [ps| | | |] eqn:Eps; try done.
  go_step in Hpl; go_step. rewrite Hpl. clear Hpl. cbn [mbind go_bind saved with_saved with_net cfg1 with_endnames with_drawn].
  rewrite (proj2 (index_Ret _ i (Some (allocated cfg)))).
  2: { split; [lia|]. apply list_lookup_insert_eq. rewrite sn_saved_len by done. lia. }
  cbn [mbind go_bind deref kvservers with_saved with_net cfg1 with_endnames with_drawn].
  rewrite store_lt by (rewrite sn_kv_len by done; lia). go_step.
  eexists _, names, (allocated cfg), (S (allocated cfg)). split; [done|].
  match goal with |- sane ?c ∧ _ => set (cfg' := c) end.
  assert (started cfg i cfg' names (allocated cfg) (S (allocated cfg))) as Hst.
  { pose proof (sn_alloc cfg Hs (allocated cfg)) as Ha1. pose proof (sn_alloc cfg Hs (S (allocated cfg))) as Ha2.
    split; try done.
    - simpl. by rewrite E1.
    - split; [apply Ha1; lia|done].
    - split; [apply Ha2; lia|]. eexists. split; [done|]. simpl.
      by rewrite start_server_raft, Make_persister, Make_alive. }
  split; [|done].
  eapply sane_after; try done.
  intros d Hd. simpl in Hd. unfold names. rewrite list_elem_of_fmap. split; [|lia].
  intros (d' & E%(inj rnd) & Hd'%elem_of_seq). lia.
Qed.

(** ** ShutdownServer *)
Record stopped cfg (i : Z) cfg' : Prop := {
  sp_n : n cfg' = n cfg;
  sp_endnames : endnames cfg' = endnames cfg;
  sp_ends : ends (net cfg') = ends (net cfg);
  sp_connections : connections (net cfg') = connections (net cfg);
  sp_enabled a c : valid cfg a → valid cfg c →
    enabled_at cfg' a c = if decide (a = i ∨ c = i) then false else enabled_at cfg a c;
  sp_servers : servers (net cfg') = <[Itoa i := None]> (servers (net cfg));
  sp_saved q : saved cfg !! Z.to_nat i = Some (Some q) →
    persisters cfg !! allocated cfg = None ∧
    saved cfg' = <[Z.to_nat i := Some (allocated cfg)]> (saved cfg) ∧
    persisters cfg' = <[allocated cfg := contents cfg i]> (persisters cfg);
  sp_kv k : kvservers cfg !! Z.to_nat i = Some (Some k) →
    kvservers cfg' = <[Z.to_nat i := None]> (kvservers cfg) ∧
    ∃ s, instances cfg !! k = Some s ∧ instances cfg' = <[k := kill_server s]> (instances cfg);
}.

Lemma All_valid cfg : Forall (valid cfg) (All cfg).
Proof. apply Forall_forall. intros x Hx%elem_of_seqZ. unfold valid. lia. Qed.
Lemma elem_of_All cfg a : a ∈ All cfg ↔ valid cfg a.
Proof. unfold All, valid. rewrite elem_of_seqZ. lia. Qed.

Lemma wf_rows_eq cfg cfg' : n cfg' = n cfg → endnames cfg' = endnames cfg → wf cfg → wf cfg'.
Proof.
  intros En Ee [H1' H2 H3 H4]. split; unfold valid, name_of in *; rewrite ?En, ?Ee; done.
Qed.

Lemma sane_net cfg rn : sane cfg → ends rn = ends (net cfg) → sane (with_net cfg rn).
Proof.
  intros [] He. split; try done; cbn [net with_net]; rewrite ?He; try done. by apply (wf_rows_eq cfg).
Qed.

(** The configuration after [copy_saved]. *)
Lemma sane_copied cfg i :
  sane cfg → valid cfg i → ∃ cfg', copy_saved cfg i = Ret cfg' ∧ sane cfg' ∧
    net cfg' = net cfg ∧ n cfg' = n cfg ∧ endnames cfg' = endnames cfg ∧ kvservers cfg' = kvservers cfg ∧
    instances cfg' = instances cfg ∧
    ∀ q, saved cfg !! Z.to_nat i = Some (Some q) →
      persisters cfg !! allocated cfg = None ∧
      saved cfg' = <[Z.to_nat i := Some (allocated cfg)]> (saved cfg) ∧
      persisters cfg' = <[allocated cfg := contents cfg i]> (persisters cfg).
Proof.
  intros Hs Hi. rewrite copy_saved_spec by (done || apply Hs).
  destruct (saved cfg !! Z.to_nat i) as [[q|]|] eqn:E; eexists; (split; [done|]); split_and!; try done.
  - destruct Hs. split; try done; cbn [allocated with_saved persisters instances saved n].
    + by apply (wf_rows_eq cfg).
    + intros p Hp. rewrite lookup_insert_ne by lia. apply sn_alloc0. lia.
    + by rewrite length_insert.
    + intros j p. rewrite list_lookup_insert_Some. intros [(_ & [= <-] & _)|[_ Hj]].
      * by rewrite lookup_insert_eq.
      * destruct (decide (p = allocated cfg)) as [->|].
        -- by rewrite lookup_insert_eq.
        -- rewrite lookup_insert_ne by done. by eapply sn_saved0.
  - intros q' _. unfold contents. rewrite E. split_and!; try done. apply Hs. lia.
Qed.

Lemma same_sane cfg cfg' : same_but_enabled cfg cfg' → sane cfg → sane cfg'.
Proof. intros [m [-> _]] ?. by apply sane_net. Qed.

Lemma sane_stopped cfg i k s :
  sane cfg → valid cfg i → is_Some (instances cfg !! k) →
  sane (with_servers_of cfg (<[k := s]> (instances cfg)) (<[Z.to_nat i := None]> (kvservers cfg)) (allocated cfg)).
Proof.
  intros [] Hi [s0 Hk]. split; try done; cbn [allocated with_servers_of instances kvservers n].
  - by apply (wf_rows_eq cfg).
  - intros q Hq. destruct (sn_alloc0 q Hq) as [? Hn]. split; [done|].
    rewrite lookup_insert_ne; [done|]. intros ->. by rewrite Hk in Hn.
  - by rewrite length_insert.
  - intros j q. rewrite list_lookup_insert_Some. intros [(_ & [=] & _)|[_ Hj]].
    destruct (decide (q = k)) as [->|].
    + by rewrite lookup_insert_eq.
    + rewrite lookup_insert_ne by done. by eapply sn_kv0.
Qed.

Lemma ShutdownServer_spec cfg i :
  sane cfg → full cfg → valid cfg i →
  ∃ cfg', ShutdownServer cfg i = Ret cfg' ∧ sane cfg' ∧ full cfg' ∧ stopped cfg i cfg'.
Proof.
  intros Hs Hf Hi. unfold ShutdownServer.
  destruct (disconnectUnlocked_spec cfg i (All cfg)) as (cfg1 & -> & Hsame & Hen);
    [apply Hs|done|done|apply All_valid| |].
  { unfold All. rewrite length_seqZ. pose proof (wf_n cfg (sn_wf cfg Hs)). lia. }
  assert (Hs1 : sane cfg1) by by eapply same_sane.
  destruct Hsame as [m [-> _]]. go_step.
  match goal with |- context [copy_saved ?c i] => destruct (sane_copied c i) as
    (cfg2 & -> & Hs2 & En & Em & Ee & Ek & Ei & Hsaved); [by apply sane_net|done|] end.
  go_step. pose proof Hi as Hi'. unfold valid in Hi'.
  destruct (lookup_lt_is_Some_2 (kvservers cfg) (Z.to_nat i)) as [kv Hkv]; [rewrite sn_kv_len by done; lia|].
  rewrite (proj2 (index_Ret (kvservers cfg2) i kv)) by (rewrite Ek; split; [lia|done]). go_step.
  assert (∀ cfg3, n cfg3 = n cfg2 → net cfg3 = net cfg2 → endnames cfg3 = endnames cfg2 →
    saved cfg3 = saved cfg2 → persisters cfg3 = persisters cfg2 →
    (∀ k, kv = Some k → kvservers cfg3 = <[Z.to_nat i := None]> (kvservers cfg) ∧
      ∃ s, instances cfg !! k = Some s ∧ instances cfg3 = <[k := kill_server s]> (instances cfg)) →
    full cfg3 ∧ stopped cfg i cfg3) as Hgoal.
  { intros cfg3 E1 E2 E3 E4 E5 Hk. split; [intros k; rewrite E3, Ee; apply Hf|]. split.
    - by rewrite E1, Em.
    - by rewrite E3, Ee.
    - by rewrite E2, En.
    - by rewrite E2, En.
    - intros a c Ha Hc. pose proof (Hen a c Ha Hc) as Hac. unfold enabled_at, name_of in *.
      rewrite E2, E3, En, Ee. cbn [endnames with_net net] in *. unfold between in Hac.
      pose proof (elem_of_All cfg a). pose proof (elem_of_All cfg c).
      etransitivity; [exact Hac|]. repeat case_decide; tauto.
    - by rewrite E2, En.
    - intros q Hq. rewrite E4, E5. by apply (Hsaved q).
    - intros k Hk'. apply Hk. congruence. }
  destruct kv as [k|].
  - destruct (sn_kv cfg2 Hs2 (Z.to_nat i) k) as [s His]; [by rewrite Ek|]. rewrite His. cbn [deref mbind go_bind].
    rewrite store_lt by (rewrite Ek; cbn; rewrite sn_kv_len by done; lia). go_step.
    eexists. split; [done|]. split; [by apply sane_stopped; [done|unfold valid in *; rewrite Em|]|].
    apply Hgoal; try done. intros k' [= <-]. cbn [kvservers with_servers_of instances]. rewrite Ek, Ei in *.
    split; [done|]. by exists s.
  - exists cfg2. split; [done|]. split; [done|]. by apply Hgoal.
Qed.

(** ** A restart *)
Lemma enabled_started cfg i cfg' names q k a c :
  sane cfg → valid cfg i → started cfg i cfg' names q k → valid cfg a → valid cfg c →
  enabled_at cfg' a c = if decide (a = i) then false else enabled_at cfg a c.
Proof.
  intros Hs Hi Hst Ha Hc. unfold enabled_at.
  rewrite (name_of_insert cfg cfg' i names) by (done || apply Hst || apply Hs). case_decide as Hd.
  - destruct (names !! Z.to_nat c) as [s|] eqn:E; [|done].
    by rewrite (st_new _ _ _ _ _ _ Hst s) by by eapply list_elem_of_lookup_2.
  - destruct (name_of cfg a c) as [s|] eqn:E; [|done].
    rewrite (st_old _ _ _ _ _ _ Hst s); [done|]. intros Hin.
    apply name_of_row in E as (nm & Hr & Hs'). eapply (st_fresh _ _ _ _ _ _ Hst); [done|].
    by eapply (sn_ends cfg Hs).
Qed.

Lemma disabled_name cfg a c s :
  name_of cfg a c = Some s → enabled_at cfg a c = false → enabled (net cfg) !! s ≠ Some true.
Proof. unfold enabled_at. intros ->. destruct (enabled (net cfg) !! s) as [[]|]; done. Qed.

Lemma started_full cfg i cfg' names q k : full cfg → started cfg i cfg' names q k → full cfg'.
Proof.
  intros Hf [] j. rewrite st_endnames0. rewrite list_lookup_insert_Some. intros [(_ & [=] & _)|[_ Hj]].
  by apply Hf in Hj.
Qed.

(** What the stopped server had persisted is what the next one gets. *)
Lemma stopped_contents cfg i cfg1 q p :
  sane cfg → valid cfg i → stopped cfg i cfg1 → saved cfg !! Z.to_nat i = Some (Some q) →
  persisters cfg !! q = Some p → contents cfg1 i = p.
Proof.
  intros Hs Hi Hsp Hq Hp. destruct (sp_saved _ _ _ Hsp q Hq) as (Hnew & Hsv & Hps). unfold valid in Hi.
  unfold contents. rewrite Hsv, list_lookup_insert_eq by (rewrite sn_saved_len by done; lia).
  rewrite Hps, lookup_insert_eq. unfold contents. by rewrite Hq, Hp.
Qed.

Lemma restart_fresh cfg i cfg1 cfg2 names q q' k k' :
  stopped cfg i cfg1 → started cfg1 i cfg2 names q' k' →
  saved cfg !! Z.to_nat i = Some (Some q) → kvservers cfg !! Z.to_nat i = Some (Some k) →
  (∀ q0, is_Some (persisters cfg !! q0) → q0 ≠ q') ∧ k ≠ k'.
Proof.
  intros Hsp Hst Hq Hk. destruct (sp_saved _ _ _ Hsp q Hq) as (Hnew & Hsv & Hps).
  destruct (sp_kv _ _ _ Hsp k Hk) as (Hkv & s & His & Hin).
  pose proof (st_persisters _ _ _ _ _ _ Hst) as [Hn2 _]. pose proof (st_instances _ _ _ _ _ _ Hst) as [Hn3 _].
  split.
  - intros q0 [p0 Hp0] ->. destruct (decide (q' = allocated cfg)) as [->|Hd]; [by rewrite Hnew in Hp0|].
    rewrite Hps, lookup_insert_ne in Hn2 by done. by rewrite Hn2 in Hp0.
  - intros ->. rewrite Hin, lookup_insert_eq in Hn3. done.
Qed.

Lemma old_names_disabled cfg i cfg1 cfg2 names q k c s :
  valid cfg i → sane cfg1 → stopped cfg i cfg1 → started cfg1 i cfg2 names q k →
  valid cfg c → name_of cfg i c = Some s → (s ∉ names) ∧ enabled (net cfg2) !! s ≠ Some true.
Proof.
  intros Hi Hs1 Hsp Hst Hc Hns.
  assert (name_of cfg1 i c = Some s) as Hns1 by (unfold name_of in *; by rewrite (sp_endnames _ _ _ Hsp)).
  assert (s ∉ names) as Hnot.
  { intros Hin'. pose proof Hns1 as (nm & Hr & Hs')%name_of_row.
    eapply (st_fresh _ _ _ _ _ _ Hst); [done|]. by eapply (sn_ends cfg1 Hs1). }
  split; [done|]. rewrite (st_old _ _ _ _ _ _ Hst) by done. eapply disabled_name; [done|].
  rewrite (sp_enabled _ _ _ Hsp) by done. apply decide_True. by left.
Qed.

(** C32 Restarting a server: [ShutdownServer] removes it from the network and
    from everyone's reach; [StartServer] then puts a new instance in its place,
    with new ends and with a new persister that holds what the old one held.
    The old instance has been killed; what it still writes does not reach the
    new persister, the ends it still has are disabled, and nobody reaches the
    new instance before it is connected. *)
Theorem restart_isolates cfg i q p k :
  sane cfg → full cfg → valid cfg i →
  saved cfg !! Z.to_nat i = Some (Some q) → persisters cfg !! q = Some p →
  kvservers cfg !! Z.to_nat i = Some (Some k) →
  ∃ cfg1 cfg2 names q' k',
    ShutdownServer cfg i = Ret cfg1 ∧ servers (net cfg1) !! Itoa i = Some None ∧
    StartServer rnd cfg1 i = Ret cfg2 ∧ sane cfg2 ∧ full cfg2 ∧
    endnames cfg2 !! Z.to_nat i = Some (Some names) ∧
    (∀ a c, valid cfg a → valid cfg c →
       enabled_at cfg2 a c = if decide (a = i ∨ c = i) then false else enabled_at cfg a c) ∧
    (∀ c s, valid cfg c → name_of cfg i c = Some s → (s ∉ names) ∧ enabled (net cfg2) !! s ≠ Some true) ∧
    saved cfg2 !! Z.to_nat i = Some (Some q') ∧ q' ≠ q ∧ persisters cfg2 !! q' = Some p ∧
    (∀ q0 rs snap h, is_Some (persisters cfg !! q0) →
       Save (persisters cfg2) q0 rs snap = Ret h → h !! q' = Some p) ∧
    kvservers cfg2 !! Z.to_nat i = Some (Some k') ∧ k' ≠ k ∧
    servers (net cfg2) !! Itoa i = Some (Some k') ∧
    (∃ s, instances cfg !! k = Some s ∧ instances cfg2 !! k = Some (kill_server s) ∧
       rf_alive (server_raft (kill_server s)) = false) ∧
    (∃ s, instances cfg2 !! k' = Some s ∧ rf_alive (server_raft s) = true ∧ rf_persister (server_raft s) = q').
Proof.
  intros Hs Hf Hi Hq Hp Hk.
  destruct (ShutdownServer_spec cfg i Hs Hf Hi) as (cfg1 & Hr1 & Hs1 & Hf1 & Hsp).
  destruct (sp_saved _ _ _ Hsp q Hq) as (Hnew & Hsv & Hps).
  destruct (sp_kv _ _ _ Hsp k Hk) as (Hkv & s & His & Hin).
  assert (∀ a, valid cfg1 a ↔ valid cfg a) as Hval by (intros a; unfold valid; by rewrite (sp_n _ _ _ Hsp)).
  destruct (StartServer_spec cfg1 i Hs1) as (cfg2 & names & q' & k' & Hr2 & Hs2 & Hst); [by apply Hval|].
  pose proof Hi as Hi'. unfold valid in Hi'.
  pose proof (stopped_contents cfg i cfg1 q p Hs Hi Hsp Hq Hp) as Hc2.
  pose proof (st_persisters _ _ _ _ _ _ Hst) as [Hn2 Hp2].
  pose proof (st_instances _ _ _ _ _ _ Hst) as (Hn3 & kv & Hi3 & Hper & Hal).
  destruct (restart_fresh cfg i cfg1 cfg2 names q q' k k' Hsp Hst Hq Hk) as [Hne Hkk].
  exists cfg1, cfg2, names, q', k'. split_and!; try done.
  - by rewrite (sp_servers _ _ _ Hsp), lookup_insert_eq.
  - by eapply started_full.
  - rewrite (st_endnames _ _ _ _ _ _ Hst), list_lookup_insert_eq; [done|].
    rewrite wf_rows by apply Hs1. rewrite (sp_n _ _ _ Hsp). lia.
  - intros a c Ha Hc. rewrite (enabled_started cfg1 i cfg2 names q' k') by (done || by apply Hval).
    rewrite (sp_enabled _ _ _ Hsp) by done. repeat case_decide; tauto.
  - intros c s' Hc Hns. by eapply (old_names_disabled cfg i cfg1 cfg2 names q' k' c s').
  - rewrite (st_saved _ _ _ _ _ _ Hst), list_lookup_insert_eq; [done|].
    rewrite sn_saved_len by done. rewrite (sp_n _ _ _ Hsp). lia.
  - symmetry. apply Hne. by eexists.
  - by rewrite Hp2, lookup_insert_eq, Hc2.
  - intros q0 rs snap h Hq0. pose proof (Hne q0 Hq0) as Hd. unfold Save.
    destruct (persisters cfg2 !! q0); [|done]. intros [= <-].
    rewrite lookup_insert_ne by done.
    by rewrite Hp2, lookup_insert_eq, Hc2.
  - rewrite (st_kv _ _ _ _ _ _ Hst), list_lookup_insert_eq; [done|].
    rewrite sn_kv_len by done. rewrite (sp_n _ _ _ Hsp). lia.
  - by rewrite (st_servers _ _ _ _ _ _ Hst), lookup_insert_eq.
  - exists s. split; [done|]. rewrite Hi3, lookup_insert_ne by done.
    rewrite Hin, lookup_insert_eq. split; [done|]. by rewrite kill_server_raft, Kill_dead.
  - exists kv. split; [|done]. by rewrite Hi3, lookup_insert_eq.
Qed.

(** ** The initial configuration *)

(** The ends of the servers lead to the servers. *)
Record linked cfg : Prop := {
  lk_conn a c s : valid cfg a → valid cfg c → name_of cfg a c = Some s →
    connections (net cfg) !! s = Some (Some (Itoa c));
  lk_server k q : kvservers cfg !! k = Some (Some q) → servers (net cfg) !! Itoa (Z.of_nat k) = Some (Some q);
}.

Lemma started_linked cfg i cfg' names q k :
  sane cfg → valid cfg i → linked cfg → started cfg i cfg' names q k → linked cfg'.
Proof.
  intros Hs Hi [Hl1 Hl2] Hst. pose proof (st_n _ _ _ _ _ _ Hst) as En. split.
  - intros a c s Ha Hc. unfold valid in Ha, Hc. rewrite En in Ha, Hc. fold (valid cfg a) in Ha. fold (valid cfg c) in Hc. rewrite (name_of_insert cfg cfg' i names) by (done || apply Hst || apply Hs).
    case_decide as Hd.
    + intros Hn. rewrite (st_to _ _ _ _ _ _ Hst _ _ Hn). rewrite Z2Nat.id by apply Hc. done.
    + intros Hn. rewrite (st_kept _ _ _ _ _ _ Hst); [by apply (Hl1 a c)|]. intros Hin.
      apply name_of_row in Hn as (nm & Hr & Hs'). eapply (st_fresh _ _ _ _ _ _ Hst); [done|].
      by eapply (sn_ends cfg Hs).
  - intros j p. rewrite (st_kv _ _ _ _ _ _ Hst), (st_servers _ _ _ _ _ _ Hst), list_lookup_insert_Some.
    unfold valid in Hi. intros [(<- & [= <-] & _)|[Hj Hp]].
    + by rewrite Z2Nat.id, lookup_insert_eq by lia.
    + rewrite lookup_insert_ne; [by apply Hl2|]. intros E%(inj Itoa). lia.
Qed.

Lemma replicate_None {A} k j (x : A) : replicate k (@None A) !! j = Some (Some x) → False.
Proof. intros [? _]%lookup_replicate. done. Qed.

Lemma start_all m cfg :
  sane cfg → linked cfg → n cfg = m → (∀ k, endnames cfg !! k ≠ Some None ∨ (k < Z.to_nat m)%nat) →
  ∃ cfg', go_fold (StartServer rnd) (seqZ 0 m) cfg = Ret cfg' ∧ sane cfg' ∧ linked cfg' ∧ n cfg' = m ∧ full cfg'
    ∧ (∀ k, (k < Z.to_nat m)%nat → ∃ q, kvservers cfg' !! k = Some (Some q)).
Proof.
  intros Hs Hl Hn Hall.
  pose (P (done : list Z) cfg' := sane cfg' ∧ linked cfg' ∧ n cfg' = m ∧
    (∀ k, endnames cfg' !! k ≠ Some None ∨ ((k < Z.to_nat m)%nat ∧ Z.of_nat k ∉ done)) ∧
    (∀ k, Z.of_nat k ∈ done → ∃ q, kvservers cfg' !! k = Some (Some q))).
  destruct (go_fold_inv (StartServer rnd) P (seqZ 0 m) cfg) as (cfg' & Hr & H1' & H2 & H3 & H4 & H5); unfold P.
  - split_and!; try done; [|intros k Hk; by apply elem_of_nil in Hk].
    intros k. destruct (Hall k); [by left|right]. split; [done|apply not_elem_of_nil].
  - intros d i rest cfg1 Hd (Hs1 & Hl1 & Hn1 & Hk1 & Hq1).
    assert (0 ≤ i < m) as Hi by (assert (i ∈ seqZ 0 m) as Hi%elem_of_seqZ by (rewrite Hd; set_solver); lia).
    assert (valid cfg1 i) as Hv by (unfold valid; lia).
    destruct (StartServer_spec cfg1 i Hs1 Hv) as (cfg2 & names & q & k & Hr & Hs2 & Hst).
    exists cfg2. split; [done|]. split_and!; [done|by apply (started_linked cfg1 i cfg2 names q k)|by rewrite (st_n _ _ _ _ _ _ Hst)| |].
    + intros j. rewrite (st_endnames _ _ _ _ _ _ Hst). destruct (decide (j = Z.to_nat i)) as [->|Hj].
      * left. rewrite list_lookup_insert_eq; [done|]. rewrite wf_rows by apply Hs1. lia.
      * rewrite list_lookup_insert_ne by done. destruct (Hk1 j) as [?|[? Hj1]]; [by left|right].
        split; [done|]. intros [?|E%list_elem_of_singleton]%elem_of_app; [done|lia].
    + intros j [Hj|E%list_elem_of_singleton]%elem_of_app; rewrite (st_kv _ _ _ _ _ _ Hst).
      * destruct (Hq1 j Hj) as [q' Hq']. destruct (decide (j = Z.to_nat i)) as [->|Hne].
        -- exists k. apply list_lookup_insert_eq. by eapply lookup_lt_Some.
        -- exists q'. by rewrite list_lookup_insert_ne.
      * subst i. exists k. rewrite Nat2Z.id. apply list_lookup_insert_eq. rewrite sn_kv_len by done. lia.
  - exists cfg'. split_and!; try done.
    + intros k. destruct (H4 k) as [?|[? Hk]]; [done|]. destruct Hk. apply elem_of_seqZ. lia.
    + intros k Hk. apply H5, elem_of_seqZ. lia.
Qed.

Lemma make_config_made m unreliable maxstate :
  0 ≤ m →
  ∃ cfg, make_config rnd m unreliable maxstate = Ret cfg ∧ n cfg = m ∧ sane cfg ∧ full cfg ∧ linked cfg ∧
    (∀ a c, valid cfg a → valid cfg c → enabled_at cfg a c = true) ∧
    (∀ k, (k < Z.to_nat m)%nat → ∃ q, kvservers cfg !! k = Some (Some q)).
Proof.
  intros Hm. unfold make_config. match goal with |- context [go_fold (StartServer rnd) _ ?c] => set (cfg0 := c) end.
  assert (sane cfg0) as Hs0.
  { split; try done; simpl; try by rewrite length_replicate.
    - split; simpl; [done|by rewrite length_replicate|by intros ? ? ?%replicate_None|].
      by intros i j i' j' s _ _ _ _ (? & ?%replicate_None & _)%name_of_row.
    - by intros ? ? ? ?%replicate_None.
    - by intros ? ? ?%replicate_None.
    - by intros ? ? ?%replicate_None. }
  assert (linked cfg0) as Hl0.
  { split; [|by intros ? ? ?%replicate_None]. by intros a c s _ _ (? & ?%replicate_None & _)%name_of_row. }
  destruct (start_all m cfg0 Hs0 Hl0 eq_refl) as (cfg1 & -> & Hs1 & Hl1 & Hn1 & Hf1 & Hq1).
  { intros k. destruct (decide (k < Z.to_nat m)%nat); [by right|left]. cbn [endnames cfg0].
    rewrite (proj2 (lookup_ge_None _ _)); [done|]. rewrite length_replicate. lia. }
  go_step. unfold ConnectAll.
  pose (P (done : list Z) cfg' := same_but_enabled cfg1 cfg' ∧ ∀ a c, valid cfg1 a → valid cfg1 c →
    a ∈ done → enabled_at cfg' a c = true).
  destruct (go_fold_inv (λ cfg i, connectUnlocked cfg i (All cfg)) P (All cfg1) cfg1) as (cfg2 & -> & [mm [-> _]] & Hen).
  { split; [apply same_refl|]. by intros a c _ _ ?%elem_of_nil. }
  { intros d i rest cfg' Hd [Hsame Hen].
    assert (i ∈ All cfg1) as Hi%elem_of_All by (rewrite Hd; set_solver).
    destruct (connectUnlocked_spec cfg' i (All cfg')) as (cfg2 & -> & Hs2 & Hm2).
    { eapply same_wf; [done|apply Hs1]. } { by eapply same_full. }
    { by destruct Hsame as [mm [-> _]]. } { apply All_valid. }
    exists cfg2. split; [done|]. split; [by eapply same_trans|]. intros a c Ha Hc Hin.
    destruct Hsame as [mm [-> _]]. rewrite Hm2 by done. case_decide as Hb; [done|]. apply Hen; try done.
    apply elem_of_app in Hin as [Hin|Ea%list_elem_of_singleton]; [done|]. subst a. destruct Hb. left.
    split; [done|]. by apply elem_of_All. }
  go_step. eexists. split; [done|]. split; [done|].
  split; [by apply sane_net; [apply (sane_net cfg1)|]|]. split; [exact Hf1|].
  split; [by destruct Hl1; split|]. split; [|exact Hq1].
  intros a c Ha Hc. by apply Hen; [..|apply elem_of_All].
Qed.

(** [make_config]: [m] servers run, each is the one its name in the network
    leads to, every server has an end to every server, enabled and connected to
    it, and the configuration has the invariants the other operations need. *)
Lemma make_config_connected m unreliable maxstate :
  0 ≤ m →
  ∃ cfg, make_config rnd m unreliable maxstate = Ret cfg ∧ n cfg = m ∧ sane cfg ∧ full cfg ∧
    ∀ a, valid cfg a →
      (∃ k, kvservers cfg !! Z.to_nat a = Some (Some k) ∧ servers (net cfg) !! Itoa a = Some (Some k)) ∧
      ∀ c, valid cfg c → enabled_at cfg a c = true ∧
        ∃ s, name_of cfg a c = Some s ∧ connections (net cfg) !! s = Some (Some (Itoa c)).
Proof.
  intros Hm. destruct (make_config_made m unreliable maxstate Hm) as (cfg & Hr & Hn & Hs & Hf & Hl & Hen & Hq).
  exists cfg. split_and!; try done. intros a Ha. split.
  - destruct (Hq (Z.to_nat a)) as [k Hk]; [unfold valid in Ha; lia|]. exists k. split; [done|].
    apply (lk_server _ Hl) in Hk. by rewrite Z2Nat.id in Hk by apply Ha.
  - intros c Hc. split; [by apply Hen|].
    destruct (full_row cfg a (sn_wf _ Hs) Hf Ha) as (names & _ & Hr' & Hlen).
    destruct (lookup_lt_is_Some_2 names (Z.to_nat c)) as [s Hs']; [unfold valid in Hc; lia|].
    assert (name_of cfg a c = Some s) as Hnm by (unfold name_of; by rewrite Hr').
    exists s. split; [done|]. by apply (lk_conn _ Hl a c).
Qed.

(** ** Leaders *)

(** The server in place [i] runs and says that it leads. *)
Definition leads cfg (i : Z) : bool :=
  match kvservers cfg !! Z.to_nat i with
  | Some (Some k) => from_option (λ s, (GetState (server_raft s)).2) false (instances cfg !! k)
  | _ => false
  end.
Definition down cfg (i : Z) : bool := bool_decide (kvservers cfg !! Z.to_nat i = Some None).

Lemma place_cases cfg i : sane cfg → valid cfg i →
  (index (kvservers cfg) i = Ret None ∧ down cfg i = true ∧ leads cfg i = false) ∨
  ∃ k s, index (kvservers cfg) i = Ret (Some k) ∧ instances cfg !! k = Some s ∧ down cfg i = false ∧
    leads cfg i = (GetState (server_raft s)).2.
Proof.
  intros Hs [Hi Hn]. destruct (lookup_lt_is_Some_2 (kvservers cfg) (Z.to_nat i)) as [kv Hkv]; [rewrite sn_kv_len by done; lia|].
  assert (index (kvservers cfg) i = Ret kv) as Hx by (by apply index_Ret). unfold down, leads. rewrite Hx, Hkv.
  destruct kv as [k|]; [right|left]; [|by rewrite bool_decide_true].
  destruct (sn_kv cfg Hs _ _ Hkv) as [s Hk]. exists k, s. by rewrite Hk, bool_decide_false.
Qed.

(** [Leader] finds the first leader, but panics at a server that is down. *)
Lemma Leader_spec cfg : sane cfg →
  Leader cfg = match list_find (λ i, leads cfg i || down cfg i) (All cfg) with
               | Some (_, i) => if down cfg i then Panic else Ret (true, i)
               | None => Ret (false, 0)
               end.
Proof.
  intros Hs. unfold Leader. pose proof (All_valid cfg) as Hall.
  induction Hall as [|i l Hi Hall IH]; [done|]. cbn [Leader_loop list_find].
  destruct (place_cases cfg i Hs Hi) as [(Hx & Hd & Hl)|(k & s & Hx & Hk & Hd & Hl)]; rewrite Hx, Hd, Hl; go_step.
  - simpl. by rewrite Hd.
  - simpl. rewrite Hk. simpl. destruct (GetState (server_raft s)).2; simpl; [by rewrite Hd|].
    rewrite IH. by destruct (list_find _ l) as [[? ?]|].
Qed.
End restart.
