(* ===== verification/HarnessExample.v ===== *)
(** * The tester of the key-value labs at work: three servers that are
    partitioned and restarted *)
From S2P Require Import Prelude GoStrings Persister Raft Labrpc Harness HarnessProof HarnessRestart.
#[local] Open Scope Z_scope.

Module Three.
Definition name (k : nat) : string := Itoa (Z.of_nat k).
#[export] Instance name_inj : Inj (=) (=) name.
Proof. intros i j E%(inj Itoa). lia. Qed.

#[export] Instance server : LabServer Outline.Raft Z (KVServer Outline.Raft) := kv_server (C := string).
#[export] Instance server_laws : LabServerLaws Outline.Raft string Z (KVServer Outline.Raft).
Proof. apply kv_server_laws. Qed.
Definition made : go (config Z (KVServer Outline.Raft)) := make_config name 3 false (-1).

Lemma made_spec :
  ∃ cfg, made = Ret cfg ∧ n cfg = 3 ∧ sane name cfg ∧ full cfg ∧
    saved cfg !! 1%nat = Some (Some 2%nat) ∧ persisters cfg !! 2%nat = Some MakePersister ∧
    kvservers cfg !! 1%nat = Some (Some 3%nat) ∧
    ∀ a c, valid cfg a → valid cfg c → enabled_at cfg a c = true.
Proof.
  destruct (make_config_made (C := string) name 3 false (-1)) as
    (cfg & Hr & Hn & Hs & Hf & _ & Hen & _); [done|].
  assert ((c ← made; mret (saved c !! 1%nat, persisters c !! 2%nat, kvservers c !! 1%nat)) =
    Ret (Some (Some 2%nat), Some MakePersister, Some (Some 3%nat))) as Hc by (vm_compute; reflexivity).
  unfold made in *. rewrite Hr in Hc. go_step in Hc. injection Hc as E1 E2 E3.
  exists cfg. split_and!; done.
Qed.
Lemma made_leader cfg : made = Ret cfg → Leader (C := string) cfg = Ret (false, 0).
Proof.
  assert ((c ← made; Leader (C := string) c) = Ret (false, 0)) as H by (vm_compute; reflexivity).
  intros E. by rewrite E in H.
Qed.
#[global] Opaque made.

Lemma sides :
  Forall (λ x, 0 ≤ x < 3) [0; 2] ∧ Forall (λ x, 0 ≤ x < 3) [1] ∧ NoDup [0; 2] ∧ NoDup [1] ∧ [0; 2] ## [1].
Proof. split_and!; [by repeat constructor..| | |set_solver]; by apply (bool_decide_unpack _). Qed.
Lemma valid_three (cfg : config Z (KVServer Outline.Raft)) x : n cfg = 3 → 0 ≤ x < 3 → valid cfg x.
Proof. unfold valid. by intros ->. Qed.
Lemma valid_012 (cfg : config Z (KVServer Outline.Raft)) : n cfg = 3 → valid cfg 0 ∧ valid cfg 1 ∧ valid cfg 2.
Proof. intros Hn. by split_and!; apply valid_three. Qed.
End Three.
#[local] Existing Instance Three.server.
#[local] Existing Instance Three.server_laws.

Example partition_connectivity_witness :
  ∃ cfg cfg', Three.made = Ret cfg ∧ partition cfg [0; 2] [1] = Ret cfg' ∧
    enabled_at cfg' 0 2 = true ∧ enabled_at cfg' 0 1 = false ∧ enabled_at cfg' 1 1 = true.
Proof.
  destruct Three.made_spec as (cfg & Hr & Hn & Hs & Hf & _ & _ & _ & _).
  destruct Three.sides as (H1 & H2 & H3 & H4 & H5). pose proof (λ x, Three.valid_three cfg x Hn) as Hv.
  destruct (partition_connectivity cfg [0; 2] [1] (sn_wf _ cfg Hs) Hf) as (cfg' & Hp & _ & Hen);
    [exact (Forall_impl _ _ _ H1 Hv)|exact (Forall_impl _ _ _ H2 Hv)|exact H3|exact H4|exact H5|].
  exists cfg, cfg'. split; [exact Hr|]. split; [exact Hp|].
  destruct (Three.valid_012 cfg Hn) as (V0 & V1 & V2).
  rewrite (Hen 0 2 V0 V2), (Hen 0 1 V0 V1), (Hen 1 1 V1 V1). repeat split; reflexivity.
Defined.

Example make_partition_spec_witness :
  (∃ cfg p1 p2, Three.made = Ret cfg ∧ make_partition (C := string) cfg = Ret (p1, p2) ∧ p1 ++ p2 ≡ₚ seqZ 0 3 ∧ 0 ∈ p2) ∧
  split_around 5 3 = Ret ([0; 1; 2], [4; 3]) ∧ split_around 4 3 = Ret ([0; 1; 2], [0; 3]).
Proof.
  split; [|split; reflexivity].
  destruct Three.made_spec as (cfg & Hr & Hn & _).
  destruct (make_partition_spec (C := string) cfg false 0 (Three.made_leader cfg Hr)) as [Hp _]; [rewrite Hn; lia|].
  destruct Hp as (p1 & p2 & Hrun & Hodd & _); [rewrite Hn; lia|]. rewrite Hn in Hodd.
  destruct (Hodd eq_refl) as (Hperm & Hin & _).
  exists cfg, p1, p2. exact (conj Hr (conj Hrun (conj Hperm Hin))).
Defined.

Example restart_isolates_witness :
  ∃ cfg cfg1 cfg2 q', Three.made = Ret cfg ∧ ShutdownServer cfg 1 = Ret cfg1 ∧
    StartServer Three.name cfg1 1 = Ret cfg2 ∧
    enabled_at cfg2 0 1 = false ∧ enabled_at cfg2 0 2 = true ∧ persisters cfg2 !! q' = Some MakePersister.
Proof.
  destruct Three.made_spec as (cfg & Hr & Hn & Hs & Hf & Hq & Hp & Hk & Hen).
  destruct (Three.valid_012 cfg Hn) as (V0 & V1 & V2).
  destruct (restart_isolates (C := string) Three.name cfg 1 2 MakePersister 3 Hs Hf)
    as (cfg1 & cfg2 & names & q' & k' & H1 & _ & H2 & _ & _ & _ & He & _ & _ & _ & Hp' & _);
    [exact V1|exact Hq|exact Hp|exact Hk|].
  exists cfg, cfg1, cfg2, q'. rewrite (He 0 1 V0 V1), (He 0 2 V0 V2), (Hen 0 2 V0 V2).
  exact (conj Hr (conj H1 (conj H2 (conj eq_refl (conj eq_refl Hp'))))).
Defined.
