(* ===== verification/Labgob.v ===== *)
(** * Checks of the RPC encoder ([labgob/labgob.go])

    A type is a node of a finite graph: [desc] gives what [reflect] says of it,
    so that a type may contain itself.  [unicode.IsUpper] is a parameter.  The
    package's globals are a record; [encoding/gob] is what the checks are
    followed by. *)
From S2P Require Import Prelude GoStrings.
#[local] Open Scope Z_scope.

Inductive Desc (T : Type) : Type :=
| Struct (tname : string) (fields : list (string * T))
| Slice (elem : T) | Array (elem : T) | Ptr (elem : T)
| Map (key elem : T)
| OtherKind (tname : string).
Arguments Struct {T} _ _.
Arguments Slice {T} _.
Arguments Array {T} _.
Arguments Ptr {T} _.
Arguments Map {T} _ _.
Arguments OtherKind {T} _.

Inductive Message : Type := LowerCase (field tname : string) | NonDefault (what : string).

(** A value to decode into, as far as [reflect] walks it: pointers lead into a
    heap.  The [tname] of a basic value is its type's name; a float is its 64
    bits. *)
Inductive value : Type :=
| VStruct (fields : list (string * value))
| VPtr (to : option nat)
| VBool (tname : string) (b : bool)
| VInt (tname : string) (z : Z)
| VFloat (tname : string) (bits : Z)
| VString (tname : string) (s : string)
| VOther.

Definition DecodeRuneInString (s : string) : Z :=
  match decode_runes (bytes s) with (r, _) :: _ => r | [] => RuneError end.

Section labgob.
Context (IsUpper : Z → bool) {T : Type} `{Countable T} (desc : T → Desc T).

Record Globals : Type := mkGlobals { checked : gset T; errorCount : Z; printed : list Message }.

Definition mark (t : T) (g : Globals) : Globals :=
  mkGlobals ({[t]} ∪ checked g) (errorCount g) (printed g).
(** The message of a lower-case field. *)
Definition complain (field tname : string) (g : Globals) : Globals :=
  mkGlobals (checked g) (errorCount g + 1) (printed g ++ [LowerCase field tname]).
Definition is_lower (name : string) : bool := negb (IsUpper (DecodeRuneInString name)).

Fixpoint checkType (fuel : nat) (g : Globals) (t : T) : go Globals :=
  match fuel with
  | O => NoFuel
  | S fuel =>
      if decide (t ∈ checked g) then mret g else
      let g := mark t g in
      match desc t with
      | Struct tname fields =>
          go_fold (λ g f,
            let g := if is_lower f.1 then complain f.1 tname g else g in
            checkType fuel g f.2) fields g
      | Slice e | Array e | Ptr e => checkType fuel g e
      | Map k e => g ← checkType fuel g e; checkType fuel g k
      | OtherKind _ => mret g
      end
  end.

(** [reflect.TypeOf(nil)] is the nil type, of which no method can be called. *)
Definition checkValue (fuel : nat) (g : Globals) (t : option T) : go Globals :=
  match t with Some t => checkType fuel g t | None => Panic end.

(** ** Values decoded into *)
Definition float_zero (bits : Z) : bool := (bits =? 0) || (bits =? 2 ^ 63).
(** The type's name and whether the value is the zero of its type. *)
Definition basic (v : value) : option (string * bool) :=
  match v with
  | VBool t b => Some (t, negb b)
  | VInt t z => Some (t, z =? 0)
  | VFloat t bits => Some (t, float_zero bits)
  | VString t s => Some (t, bool_decide (s = ""))
  | _ => None
  end.
Definition warn (what : string) (g : Globals) : Globals :=
  mkGlobals (checked g) (errorCount g + 1)
    (if errorCount g <? 1 then printed g ++ [NonDefault what] else printed g).

Fixpoint checkDefault1 (fuel : nat) (heap : gmap nat value) (g : Globals) (v : value) (depth : Z) (name : string)
    : go Globals :=
  match fuel with
  | O => NoFuel
  | S fuel =>
      if 3 <? depth then mret g else
      match v with
      | VStruct fields =>
          go_fold (λ g f,
            let name1 := if bool_decide (name = "") then f.1 else name +:+ "." +:+ f.1 in
            checkDefault1 fuel heap g f.2 (depth + 1) name1) fields g
      | VPtr None => mret g
      | VPtr (Some p) => v ← deref (heap !! p); checkDefault1 fuel heap g v (depth + 1) name
      | _ =>
          match basic v with
          | Some (tname, zero) =>
              if zero then mret g else mret (warn (if bool_decide (name = "") then tname else name) g)
          | None => mret g
          end
      end
  end.
Definition checkDefault (heap : gmap nat value) (g : Globals) (v : option value) : go Globals :=
  match v with Some v => checkDefault1 4 heap g v 1 "" | None => mret g end.

(** ** The wrapper: checks, then [encoding/gob] *)
Context {D : Type}.
Definition Encode (fuel : nat) (gob_Encode : option T → D) (g : Globals) (t : option T) : go (Globals * D) :=
  g ← checkValue fuel g t; mret (g, gob_Encode t).
Definition Decode (fuel : nat) (gob_Decode : option value → D) (heap : gmap nat value) (g : Globals)
    (t : option T) (v : option value) : go (Globals * D) :=
  g ← checkValue fuel g t; g ← checkDefault heap g v; mret (g, gob_Decode v).
Definition Register (fuel : nat) (gob_Register : option T → D) (g : Globals) (t : option T) : go (Globals * D) :=
  g ← checkValue fuel g t; mret (g, gob_Register t).

(** ** Several goroutines

    [checked] is consulted and marked in one critical section, and a complaint
    counted in another; between them other goroutines run.  What a goroutine has
    still to do is a stack. *)
Inductive work : Type := Visit (t : T) | Complain (field tname : string).

Definition field_work (tname : string) (f : string * T) : list work :=
  (if is_lower f.1 then [Complain f.1 tname] else []) ++ [Visit f.2].
Definition expand (t : T) : list work :=
  match desc t with
  | Struct tname fields => fields ≫= field_work tname
  | Slice e | Array e | Ptr e => [Visit e]
  | Map k e => [Visit e; Visit k]
  | OtherKind _ => []
  end.

Inductive check_step : Globals * list (list work) → Globals * list (list work) → Prop :=
| step_known g gs i t rest :
    gs !! i = Some (Visit t :: rest) → t ∈ checked g →
    check_step (g, gs) (g, <[i := rest]> gs)
| step_new g gs i t rest :
    gs !! i = Some (Visit t :: rest) → t ∉ checked g →
    check_step (g, gs) (mark t g, <[i := expand t ++ rest]> gs)
| step_complain g gs i f n rest :
    gs !! i = Some (Complain f n :: rest) →
    check_step (g, gs) (complain f n g, <[i := rest]> gs).
End labgob.
Arguments Globals T {_ _}.
