(* ===== verification/LabgobProof.v ===== *)
(** * Checks of the RPC encoder: every type once, each lower-case field counted *)
From S2P Require Import Prelude GoStrings Labgob.
#[local] Open Scope Z_scope.

Section labgob.
Context (IsUpper : Z → bool) {T : Type} `{Countable T} (desc : T → Desc T).
Implicit Types (g : Globals T) (t u : T).
#[local] Abbreviation checkType := (checkType IsUpper desc).
#[local] Abbreviation expand := (expand IsUpper desc).
#[local] Abbreviation is_lower := (is_lower IsUpper).

(** ** Types and their parts *)
Definition parts t : list T :=
  match desc t with
  | Struct _ fields => fields.*2
  | Slice e | Array e | Ptr e => [e]
  | Map k e => [e; k]
  | OtherKind _ => []
  end.
Definition part t u : Prop := u ∈ parts t.
Definition lower_fields t : nat :=
  match desc t with Struct _ fields => length (filter (λ f, is_lower f.1 = true) fields) | _ => O end.
(** The lower-case fields of a set of types. *)
Definition total (X : gset T) : nat := sum_list_with lower_fields (elements X).

Lemma total_insert t X : t ∉ X → total ({[t]} ∪ X) = (lower_fields t + total X)%nat.
Proof. intros Ht. unfold total. by rewrite (elements_union_singleton X t Ht). Qed.

Lemma total_disjoint X Y : X ## Y → total (X ∪ Y) = (total X + total Y)%nat.
Proof. intros Hd. unfold total. by rewrite elements_disj_union, sum_list_with_app. Qed.

(** A finite set of types that holds the parts of its members. *)
Definition closed (U : gset T) : Prop := ∀ t u, t ∈ U → part t u → u ∈ U.
Lemma closed_rtc U t u : closed U → t ∈ U → rtc part t u → u ∈ U.
Proof. intros Hc Ht. induction 1; eauto. Qed.

(** ** One goroutine *)

(** [ts] has been explored from [g] to [g'], and [k] complaints were made that
    belong to a type marked before. *)
Record explored (k : nat) (ts : list T) g g' : Prop := {
  ex_old : checked g ⊆ checked g';
  ex_visited t : t ∈ ts → t ∈ checked g';
  ex_parts t u : t ∈ checked g' → t ∉ checked g → part t u → u ∈ checked g';
  ex_from u : u ∈ checked g' → u ∉ checked g → ∃ t, t ∈ ts ∧ rtc part t u;
  ex_count : errorCount g' + Z.of_nat (total (checked g)) =
             errorCount g + Z.of_nat k + Z.of_nat (total (checked g'));
}.

Lemma explored_refl ts g : (∀ t, t ∈ ts → t ∈ checked g) → explored 0 ts g g.
Proof. split; [done|done| | |lia]; intros *; done. Qed.
Lemma explored_complain f n g : explored 1 [] g (complain f n g).
Proof.
  split; cbn [checked complain errorCount]; [done|by intros ? ?%elem_of_nil|intros *; done|intros *; done|lia].
Qed.

Lemma explored_trans k1 k2 ts us g1 g2 g3 :
  explored k1 ts g1 g2 → explored k2 us g2 g3 → explored (k1 + k2) (ts ++ us) g1 g3.
Proof.
  intros [O1 V1 P1 F1 C1] [O2 V2 P2 F2 C2]. split.
  - set_solver.
  - intros t [?|?]%elem_of_app; [by apply O2, V1|by apply V2].
  - intros t u Ht Hn Hp. destruct (decide (t ∈ checked g2)); [apply O2|]; eauto.
  - intros u Hu Hn. destruct (decide (u ∈ checked g2)) as [Hu2|Hu2].
    + destruct (F1 u Hu2 Hn) as (t & ? & ?). exists t. set_solver.
    + destruct (F2 u Hu Hu2) as (t & ? & ?). exists t. set_solver.
  - lia.
Qed.

(** Marking [t], then exploring its parts and complaining of its fields. *)
Lemma explored_mark t g g' :
  t ∉ checked g → explored (lower_fields t) (parts t) (mark t g) g' → explored 0 [t] g g'.
Proof.
  intros Ht [O1 V1 P1 F1 C1]. cbn [checked errorCount mark] in *. split.
  - set_solver.
  - intros u ->%list_elem_of_singleton. set_solver.
  - intros u v Hu Hn Hp. destruct (decide (u = t)) as [->|Hne]; [by apply V1|].
    eapply P1; [exact Hu| |exact Hp]. set_solver.
  - intros u Hu Hn. destruct (decide (u = t)) as [->|Hne].
    + exists t. split; [by left|done].
    + destruct (F1 u Hu) as (v & Hv & Hr); [set_solver|]. exists t. split; [by left|].
      by eapply rtc_l.
  - rewrite total_insert in C1 by done. lia.
Qed.

(** The loop over the fields of a struct. *)
Lemma fields_explored fuel tname fields g (U : gset T) :
  (∀ g t, t ∈ U → (size (U ∖ checked g) < fuel)%nat → ∃ g', checkType fuel g t = Ret g' ∧ explored 0 [t] g g') →
  (∀ f, f ∈ fields → f.2 ∈ U) → (size (U ∖ checked g) < fuel)%nat →
  ∃ g', go_fold (λ g f, checkType fuel (if is_lower f.1 then complain f.1 tname g else g) f.2) fields g = Ret g' ∧
    explored (length (filter (λ f, is_lower f.1 = true) fields)) fields.*2 g g'.
Proof.
  intros IH. revert g. induction fields as [|f fields IHf]; intros g HU Hf; cbn [go_fold].
  - exists g. split; [done|]. apply explored_refl. by intros ? ?%elem_of_nil.
  - set (g1 := if is_lower f.1 then complain f.1 tname g else g).
    assert (checked g1 = checked g) as E1 by (unfold g1; by destruct (is_lower f.1)).
    assert (explored (if is_lower f.1 then 1 else 0) [] g g1) as X1.
    { unfold g1. destruct (is_lower f.1); [apply explored_complain|apply explored_refl].
      by intros ? ?%elem_of_nil. }
    destruct (IH g1 f.2) as (g2 & -> & X2); [apply HU; by left|by rewrite E1|]. go_step.
    pose proof (explored_trans _ _ _ _ _ _ _ X1 X2) as X12.
    destruct (IHf g2) as (g3 & -> & X3).
    { intros f' Hf'. apply HU. by right. }
    { eapply Nat.le_lt_trans; [|exact Hf]. apply subseteq_size. pose proof (ex_old _ _ _ _ X12). set_solver. }
    exists g3. split; [done|]. pose proof (explored_trans _ _ _ _ _ _ _ X12 X3) as X.
    rewrite filter_cons. destruct (is_lower f.1) eqn:E; case_decide; try done; congruence.
Qed.

Lemma checkType_explored (U : gset T) fuel g t :
  closed U → t ∈ U → (size (U ∖ checked g) < fuel)%nat →
  ∃ g', checkType fuel g t = Ret g' ∧ explored 0 [t] g g'.
Proof.
  intros Hc. revert g t. induction fuel as [|fuel IH]; intros g t Ht Hf; [lia|]. simpl checkType.
  case_decide as Hd.
  { exists g. split; [done|]. apply explored_refl. by intros u ->%list_elem_of_singleton. }
  assert (size (U ∖ checked (mark t g)) < fuel)%nat as Hf'.
  { apply Nat.lt_le_trans with (size (U ∖ checked g)); [|lia]. apply subset_size. cbn [checked mark]. set_solver. }
  assert (∀ u, u ∈ parts t → u ∈ U) as Hparts by (intros u Hu; by eapply Hc).
  cut (∃ g', match desc t with
      | Struct tname fields => go_fold (λ g f, checkType fuel (if is_lower f.1 then complain f.1 tname g else g) f.2)
          fields (mark t g)
      | Slice e | Array e | Ptr e => checkType fuel (mark t g) e
      | Map k e => g ← checkType fuel (mark t g) e; checkType fuel g k
      | OtherKind _ => mret (mark t g)
      end = Ret g' ∧ explored (lower_fields t) (parts t) (mark t g) g').
  { intros (g' & Hr & Hx). exists g'. split; [exact Hr|]. by apply explored_mark. }
  unfold parts in *. unfold lower_fields. destruct (desc t) as [n fields|e|e|e|k e|n].
  - apply (fields_explored fuel n fields (mark t g) U); [exact IH| |done].
    intros f Hf2. apply Hparts. apply list_elem_of_fmap. by exists f.
  - apply IH; [|done]. apply Hparts. by left.
  - apply IH; [|done]. apply Hparts. by left.
  - apply IH; [|done]. apply Hparts. by left.
  - destruct (IH (mark t g) e) as (g2 & -> & X2); [apply Hparts; by left|done|]. go_step.
    destruct (IH g2 k) as (g3 & -> & X3); [apply Hparts; by right; left| |].
    { eapply Nat.le_lt_trans; [|exact Hf']. apply subseteq_size. pose proof (ex_old _ _ _ _ X2). set_solver. }
    exists g3. split; [done|]. exact (explored_trans _ _ _ _ _ _ _ X2 X3).
  - eexists. split; [done|]. apply explored_refl. by intros ? ?%elem_of_nil.
Qed.

(** [checkType] on any type, even one that contains itself: it terminates
    (one more level of recursion than there are types is enough), afterwards
    exactly the types reachable from it have been added to the checked ones,
    and the error count has grown by the number of the lower-case fields of the
    types that are new, each counted once. *)
Lemma checkType_reaches (U : gset T) fuel g t :
  closed U → t ∈ U → closed (checked g) → (size U < fuel)%nat →
  ∃ g', checkType fuel g t = Ret g' ∧
    (∀ u, u ∈ checked g' ↔ u ∈ checked g ∨ rtc part t u) ∧
    errorCount g' = errorCount g + Z.of_nat (total (checked g' ∖ checked g)).
Proof.
  intros Hc Ht Hg Hf. destruct (checkType_explored U fuel g t Hc Ht) as (g' & Hr & [HO HV HP HF HC]).
  { eapply Nat.le_lt_trans; [|exact Hf]. apply subseteq_size. set_solver. }
  assert (closed (checked g')) as Hg'.
  { intros u v Hu Hp. destruct (decide (u ∈ checked g)); [apply HO; by eapply Hg|by eapply HP]. }
  exists g'. split; [done|]. split.
  - intros u. split.
    + intros Hu. destruct (decide (u ∈ checked g)) as [|Hn]; [by left|right].
      by destruct (HF u Hu Hn) as (? & ->%list_elem_of_singleton & ?).
    + intros [Hu|Hu]; [by apply HO|]. eapply closed_rtc; [done| |exact Hu]. apply HV. by left.
  - assert (total (checked g') = total (checked g) + total (checked g' ∖ checked g))%nat as E; [|lia].
    rewrite <-total_disjoint by set_solver. f_equal. by apply union_difference_L.
Qed.

(** ** Several goroutines *)
#[local] Abbreviation check_step := (check_step IsUpper desc).

Definition is_complaint (w : work (T:=T)) : bool := match w with Complain _ _ => true | Visit _ => false end.
Definition complaints (l : list (work (T:=T))) : nat :=
  length (filter (λ w, is_complaint w = true) l).
Lemma complaints_app l l' : complaints (l ++ l') = (complaints l + complaints l')%nat.
Proof. unfold complaints. by rewrite filter_app, length_app. Qed.
#[local] Instance complaints_perm : Proper ((≡ₚ) ==> (=)) complaints.
Proof. intros l l' Hp. unfold complaints. by rewrite Hp. Qed.

Lemma field_work_visits n fields u :
  Visit u ∈ (fields ≫= field_work IsUpper n) ↔ u ∈ fields.*2.
Proof.
  rewrite list_elem_of_bind, list_elem_of_fmap. split.
  - intros (f & [Hw|Hw]%elem_of_app & Hf).
    + destruct (is_lower f.1); [|by apply elem_of_nil in Hw]. by apply list_elem_of_singleton in Hw.
    + apply list_elem_of_singleton in Hw as [= ->]. by exists f.
  - intros (f & -> & Hf). exists f. split; [|done]. apply elem_of_app. right. by left.
Qed.
Lemma expand_visits t u : Visit u ∈ expand t ↔ part t u.
Proof.
  unfold expand, part, parts. destruct (desc t); rewrite ?field_work_visits; try done; set_solver.
Qed.
Lemma expand_complaints t : complaints (expand t) = lower_fields t.
Proof.
  unfold expand, lower_fields. destruct (desc t) as [n fields| | | | |]; try done.
  induction fields as [|f fields IH]; [done|]. rewrite bind_cons, complaints_app, IH. clear IH.
  rewrite filter_cons. unfold field_work. destruct (is_lower f.1); case_decide; done.
Qed.

Lemma concat_insert (gs : list (list (work (T:=T)))) i e r :
  gs !! i = Some r → concat (<[i := e ++ r]> gs) ≡ₚ e ++ concat gs.
Proof.
  revert i. induction gs as [|x gs IH]; intros [|i] Hi; simplify_eq/=; [by rewrite app_assoc|].
  rewrite (IH i Hi). rewrite !app_assoc. by rewrite (Permutation_app_comm x e).
Qed.

(** A step takes one piece of work from what is pending and adds others. *)
Lemma pending_step (gs : list (list (work (T:=T)))) i w rest e :
  gs !! i = Some (w :: rest) →
  ∃ q, concat gs ≡ₚ w :: q ∧ concat (<[i := e ++ rest]> gs) ≡ₚ e ++ q.
Proof.
  intros Hi. assert (<[i := rest]> gs !! i = Some rest) as Hi'.
  { apply list_lookup_insert_eq. by eapply lookup_lt_Some. }
  exists (concat (<[i := rest]> gs)). split.
  - pose proof (concat_insert _ i [w] rest Hi') as E. rewrite list_insert_insert_eq in E.
    rewrite <-E. simpl. by rewrite (list_insert_id gs i).
  - rewrite <-(concat_insert _ i e rest Hi'). by rewrite list_insert_insert_eq.
Qed.

(** What a step does to the pending work, without its place. *)
Inductive moved : Globals T → list (work (T:=T)) → Globals T → list (work (T:=T)) → Prop :=
| moved_known g t q : t ∈ checked g → moved g (Visit t :: q) g q
| moved_new g t q : t ∉ checked g → moved g (Visit t :: q) (mark t g) (expand t ++ q)
| moved_complain g f n q : moved g (Complain f n :: q) (complain f n g) q.
Lemma check_step_moved g gs g' gs' :
  check_step (g, gs) (g', gs') → ∃ p p', concat gs ≡ₚ p ∧ concat gs' ≡ₚ p' ∧ moved g p g' p'.
Proof.
  intros Hs. inversion Hs; subst.
  - edestruct (pending_step gs i (Visit t) rest []) as (q & E1 & E2); [done|].
    exists (Visit t :: q), q. split_and!; [done|exact E2|by constructor].
  - edestruct (pending_step gs i (Visit t) rest (expand t)) as (q & E1 & E2); [done|].
    exists (Visit t :: q), (expand t ++ q). split_and!; [done|done|by constructor].
  - edestruct (pending_step gs i (Complain f n) rest []) as (q & E1 & E2); [done|].
    exists (Complain f n :: q), q. split_and!; [done|exact E2|by constructor].
Qed.

Record lab_inv (roots : list T) g (p : list (work (T:=T))) : Prop := {
  li_roots t : t ∈ roots → t ∈ checked g ∨ Visit t ∈ p;
  li_parts t u : t ∈ checked g → part t u → u ∈ checked g ∨ Visit u ∈ p;
  li_from u : u ∈ checked g ∨ Visit u ∈ p → ∃ r, r ∈ roots ∧ rtc part r u;
  li_count : errorCount g + Z.of_nat (complaints p) = Z.of_nat (total (checked g));
}.
Lemma lab_inv_perm roots g p p' : p ≡ₚ p' → lab_inv roots g p → lab_inv roots g p'.
Proof. intros E []. split; intros *; rewrite <-?E; eauto. Qed.

Lemma lab_inv_moved roots g p g' p' : lab_inv roots g p → moved g p g' p' → lab_inv roots g' p'.
Proof.
  intros Hi Hm. destruct Hm as [g t q Ht|g t q Ht|g f n q]; destruct Hi as [IR IP IF IC].
  - split; [| | |exact IC].
    + intros u Hu. destruct (IR u Hu) as [?|[[= ->]|?]%elem_of_cons]; auto.
    + intros u v Hu Hp. destruct (IP u v Hu Hp) as [?|[[= ->]|?]%elem_of_cons]; auto.
    + intros u Hu. apply IF. set_solver.
  - assert (∀ u, u ∈ checked g ∨ Visit u ∈ Visit t :: q → u ∈ {[t]} ∪ checked g ∨ Visit u ∈ expand t ++ q) as Hk.
    { intros u [?|[[= ->]|?]%elem_of_cons]; [left; set_solver..|right]. apply elem_of_app. by right. }
    split; cbn [checked mark errorCount].
    + auto.
    + intros u v [->%elem_of_singleton|Hu]%elem_of_union Hp; [|by eauto].
      right. apply elem_of_app. left. by apply expand_visits.
    + intros u [[->%elem_of_singleton|Hu]%elem_of_union|[Hu|Hu]%elem_of_app].
      * apply IF. right. by left.
      * apply IF. by left.
      * apply expand_visits in Hu. destruct (IF t) as (r & Hr & Hrt); [right; by left|].
        exists r. split; [done|]. by eapply rtc_r.
      * apply IF. right. by right.
    + rewrite total_insert, complaints_app, expand_complaints by done. change (complaints (Visit t :: q)) with (complaints q) in IC. lia.
  - split; cbn [checked complain errorCount].
    + intros u Hu. destruct (IR u Hu) as [?|[[=]|?]%elem_of_cons]; auto.
    + intros u v Hu Hp. destruct (IP u v Hu Hp) as [?|[[=]|?]%elem_of_cons]; auto.
    + intros u [?|?]; apply IF; [by left|right; by right].
    + change (complaints (Complain f n :: q)) with (S (complaints q)) in IC. lia.
Qed.

(** Each step takes one unit of what the types hold. *)
Definition size_of (U : gset T) : nat := sum_list_with (λ t, length (expand t)) (elements U).
Lemma size_of_insert t X : t ∉ X → size_of ({[t]} ∪ X) = (length (expand t) + size_of X)%nat.
Proof. intros Ht. unfold size_of. by rewrite (elements_union_singleton X t Ht). Qed.

Definition start (roots : list T) : Globals T * list (list (work (T:=T))) :=
  (mkGlobals ∅ 0 [], (λ t, [Visit t]) <$> roots).
Lemma start_pending roots : concat (start roots).2 = Visit <$> roots.
Proof. induction roots as [|t roots IH]; [done|]. csimpl. by f_equal. Qed.
Lemma start_inv roots : lab_inv roots (start roots).1 (concat (start roots).2).
Proof.
  rewrite start_pending. split; cbn [checked start fst errorCount].
  - intros t Ht. right. by apply list_elem_of_fmap_2.
  - intros t u Ht. set_solver.
  - intros u [Hu|(t & [= ->] & Ht)%list_elem_of_fmap]; [set_solver|]. by exists t.
  - unfold total. rewrite elements_empty. simpl. induction roots; [done|exact IHroots].
Qed.
Lemma lab_inv_step roots s s' :
  lab_inv roots s.1 (concat s.2) → check_step s s' → lab_inv roots s'.1 (concat s'.2).
Proof.
  destruct s as [g gs], s' as [g' gs']. intros Hi (p & p' & E & E' & Hm)%check_step_moved. cbn [fst snd] in *.
  eapply lab_inv_perm; [by symmetry|]. eapply lab_inv_moved; [|exact Hm]. by eapply lab_inv_perm.
Qed.
Lemma lab_inv_reachable roots s : rtc check_step (start roots) s → lab_inv roots s.1 (concat s.2).
Proof.
  revert s. apply (rtc_ind_r (λ s, lab_inv roots s.1 (concat s.2))).
  - apply start_inv.
  - intros s s' _ Hs Hi. by eapply lab_inv_step.
Qed.

(** The steps that are left. *)
Definition potential (U : gset T) (s : Globals T * list (list (work (T:=T)))) : nat :=
  length (concat s.2) + size_of (U ∖ checked s.1).
Lemma potential_step (U : gset T) roots s s' :
  closed U → (∀ t, t ∈ roots → t ∈ U) → lab_inv roots s.1 (concat s.2) → check_step s s' →
  potential U s = S (potential U s').
Proof.
  intros Hc HU Hi. destruct s as [g gs], s' as [g' gs']. intros (p & p' & E & E' & Hm)%check_step_moved.
  unfold potential. cbn [fst snd] in *. rewrite E, E'. inversion Hm; subst; try done.
  assert (t ∈ U) as Ht.
  { destruct (li_from _ _ _ Hi t) as (r & Hr & Hrt); [right; rewrite E; by left|].
    eapply closed_rtc; [done| |done]. by apply HU. }
  assert (U ∖ checked g = {[t]} ∪ (U ∖ checked (mark t g))) as ->.
  { apply set_eq. intros u. cbn [checked mark]. destruct (decide (u = t)) as [->|]; set_solver. }
  rewrite size_of_insert by (cbn [checked mark]; set_solver). rewrite length_app. cbn [length]. lia.
Qed.

(** C34 Several goroutines that check types at once: in every interleaving the
    checks end (within a number of steps that the types and the calls bound), a
    goroutine that has something to do can always go on, and when all are done
    the checked types are exactly the reachable ones and every lower-case field
    of them has been counted once. *)
Theorem checkType_interleaved (U : gset T) roots :
  closed U → (∀ t, t ∈ roots → t ∈ U) →
  (∀ k s, nsteps check_step k (start roots) s → (k ≤ length roots + size_of U)%nat) ∧
  ∀ g gs, rtc check_step (start roots) (g, gs) →
    (∃ s, check_step (g, gs) s) ∨
    (Forall (λ l, l = []) gs ∧ (∀ u, u ∈ checked g ↔ ∃ r, r ∈ roots ∧ rtc part r u) ∧
     errorCount g = Z.of_nat (total (checked g))).
Proof.
  intros Hc HU. split.
  - intros k s Hk. assert (potential U (start roots) = length roots + size_of U)%nat as <-.
    { unfold potential. rewrite start_pending, length_fmap. cbn [start fst checked]. by rewrite difference_empty_L. }
    pose proof (start_inv roots) as Hi. revert Hi. induction Hk as [|k s1 s2 s3 Hs Hk IH]; intros Hi; [lia|].
    rewrite (potential_step U roots s1 s2) by done. apply le_n_S, IH. by eapply lab_inv_step.
  - intros g gs Hr. pose proof (lab_inv_reachable roots _ Hr) as [IR IP IF IC]. cbn [fst snd] in *.
    destruct (decide (Forall (λ l, l = []) gs)) as [Hall|Hn].
    + right. assert (concat gs = []) as E.
      { clear -Hall. induction Hall as [|l gs -> _ IH]; [done|]. exact IH. }
      rewrite E in *. split; [done|]. split; [|change (complaints []) with O in IC; lia].
      intros u. split; [intros Hu; apply IF; by left|]. intros (r & Hr' & Hru).
      assert (closed (checked g)) as Hcl.
      { intros a b Ha Hp. destruct (IP a b Ha Hp) as [?|?%elem_of_nil]; done. }
      eapply closed_rtc; [done| |exact Hru]. destruct (IR r Hr') as [?|?%elem_of_nil]; done.
    + left. apply not_Forall_Exists, Exists_exists in Hn as (l & [i Hi]%list_elem_of_lookup & Hl); [|apply _].
      destruct l as [|[t|f n] rest]; [by destruct Hl| |].
      * destruct (decide (t ∈ checked g)); eexists; [by eapply step_known|by eapply step_new].
      * eexists. by eapply step_complain.
Qed.
End labgob.

(** ** Decoding into a value *)
Section decode.
Context (heap : gmap nat value) {T : Type} `{Countable T}.
Implicit Types (g : Globals T).

(** What can be reached from a value: [W] holds its fields and what its pointers
    lead to. *)
Definition walked (W : value → Prop) : Prop :=
  (∀ fields f, W (VStruct fields) → f ∈ fields → W f.2) ∧
  ∀ p, W (VPtr (Some p)) → ∃ v, heap !! p = Some v ∧ W v.

Lemma checkDefault1_total W fuel g v depth name :
  walked W → W v → 5 ≤ Z.of_nat fuel + depth → (0 < fuel)%nat →
  ∃ g', checkDefault1 fuel heap g v depth name = Ret g' ∧ errorCount g ≤ errorCount g' ∧
    ((∀ v t z, W v → basic v = Some (t, z) → z = true) → g' = g).
Proof.
  intros [HW1 HW2]. revert g v depth name. induction fuel as [|fuel IH]; intros g v depth name Hv Hf H0; [lia|].
  simpl checkDefault1. destruct (Z.ltb_spec 3 depth); [by exists g|].
  assert (0 < fuel)%nat as Hf0 by lia.
  assert (∀ t z, basic v = Some (t, z) → ∃ g', (if z then mret g else
    mret (warn (if bool_decide (name = "") then t else name) g)) = Ret g' ∧ errorCount g ≤ errorCount g' ∧
    ((∀ v t z, W v → basic v = Some (t, z) → z = true) → g' = g)) as Hbasic.
  { intros t [] Hb; eexists; (split; [done|]); [done|]. split; [cbn; lia|].
    intros Hall. by apply Hall in Hb. }
  destruct v as [fields|[p|]|t b|t z|t b|t s|]; try (by eapply Hbasic); try (by exists g).
  - match goal with |- context [go_fold ?f _ _] => destruct (go_fold_inv f (λ _ g', errorCount g ≤ errorCount g' ∧
      ((∀ v t z, W v → basic v = Some (t, z) → z = true) → g' = g)) fields g) as (g' & ? & ?) end; [done| |by exists g'].
    intros d x rest g1 Hl [Hle Heq].
    destruct (IH g1 x.2 (depth + 1) (if bool_decide (name = "") then x.1 else name +:+ "." +:+ x.1))
      as (g2 & -> & Hle2 & Heq2); [eapply HW1; [exact Hv|set_solver]|lia|done|].
    exists g2. split; [done|]. split; [lia|]. intros Hall. rewrite (Heq2 Hall). by apply Heq.
  - destruct (HW2 p Hv) as (v & -> & Hw). cbn [deref mbind go_bind]. apply IH; [done|lia|done].
Qed.

(** [checkDefault] looks at most four levels deep, also through pointers that
    lead back: it always returns, and is silent when all it sees is zero. *)
Lemma checkDefault_total W g v :
  walked W → W v →
  ∃ g', checkDefault heap g (Some v) = Ret g' ∧ errorCount g ≤ errorCount g' ∧
    ((∀ v t z, W v → basic v = Some (t, z) → z = true) → g' = g).
Proof. intros HW Hv. apply (checkDefault1_total W); [done|done|lia|lia]. Qed.
End decode.

(** ** Examples: the types of the package's tests, and a type that contains itself *)
Module Types.
Definition upper (r : Z) : bool := (65 <=? r) && (r <=? 90).
(** 0: [[]map[*T4]int], 1: [map[*T4]int], 2: [*T4], 3: [T4], 4: [int],
    5: a struct with a pointer to itself, 6: that pointer. *)
Definition desc (t : nat) : Desc nat :=
  match t with
  | 0 => Slice 1 | 1 => Map 2 4 | 2 => Ptr 3
  | 3 => Struct "T4" [("Yes", 4); ("no", 4)] | 4 => OtherKind "int"
  | 5 => Struct "node" [("Next", 6); ("val", 4)] | 6 => Ptr 5
  | _ => OtherKind ""
  end%nat.
Definition all : gset nat := list_to_set (seq 0 7).
Lemma all_closed : closed desc all.
Proof.
  intros t u Ht Hu. unfold all in *. rewrite elem_of_list_to_set, elem_of_seq in *. unfold part, parts in Hu.
  do 7 (destruct t as [|t]; [cbn in Hu; rewrite ?elem_of_cons, elem_of_nil in Hu; lia|]). lia.
Qed.
Lemma empty_closed : closed desc ∅.
Proof. intros t u Ht. set_solver. Qed.
Definition none : Globals nat := mkGlobals ∅ 0 [].
End Types.

Example checkType_interleaved_witness :
  (∀ k s, nsteps (check_step Types.upper Types.desc) k (start [0; 5]%nat) s → (k ≤ 13)%nat) ∧
  ∀ g gs, rtc (check_step Types.upper Types.desc) (start [0; 5]%nat) (g, gs) →
    (∃ s, check_step Types.upper Types.desc (g, gs) s) ∨ errorCount g = Z.of_nat (total Types.upper Types.desc (checked g)).
Proof.
  destruct (checkType_interleaved Types.upper Types.desc Types.all [0; 5]%nat) as [Hk Hr];
    [apply Types.all_closed|intros t Ht; set_unfold in Ht; destruct Ht as [->|[->|[]]]; by apply (bool_decide_unpack _)|].
  split.
  - intros k s Hs. etransitivity; [by eapply Hk|]. vm_compute. lia.
  - intros g gs Hs. destruct (Hr g gs Hs) as [?|(_ & _ & ?)]; [by left|by right].
Defined.
