(* ===== verification/RaftTester.v ===== *)
(** * The tester of Raft ([raft/config.go])

    The configuration: the simulated network, the peers with their ends and
    persisters, and what each server has applied.  [interface{}] values are
    [option V], nil being [None]; pointers are numbers; [rnd k] is the [k]-th
    random name.  [log.Fatalf] and [t.Fatal] are [Fatal].  [gob_encode] and
    [gob_decode] are what the encoder makes of an index and a log. *)
From S2P Require Import Prelude GoStrings Persister Raft Labrpc.
From S2P Require Harness.
#[local] Open Scope Z_scope.

Inductive ApplyError : Type :=
| CommitMismatch (index server other : Z)
| OutOfOrder (server index : Z)
| Unexpected (server expected got : Z)
| SnapshotMismatch (server : Z).

Section tester.
Context {R V : Type} `{EqDecision V} `{RaftApi R (option V)} (rnd : nat → string).
Context (gob_encode : Z → list (option V) → string) (gob_decode : string → option (Z * list (option V))).

Record config : Type := mkConfig {
  net : Network;
  n : Z;
  instances : gmap nat R;
  rafts : list (option nat);
  applyErr : list string;
  connected : list bool;
  persisters : PersisterHeap;
  saved : list (option nat);
  endnames : list (option (list string));
  logs : list (gmap Z (option V));
  lastApplied : list Z;
  maxIndex : Z;
  finished : bool;
  drawn : nat;
  allocated : nat;
}.
Definition with_net (cfg : config) (rn : Network) (l : list bool) : config :=
  mkConfig rn (n cfg) (instances cfg) (rafts cfg) (applyErr cfg) l (persisters cfg) (saved cfg)
    (endnames cfg) (logs cfg) (lastApplied cfg) (maxIndex cfg) (finished cfg) (drawn cfg) (allocated cfg).
Definition with_rafts (cfg : config) (m : gmap nat R) (l : list (option nat)) (next : nat) : config :=
  mkConfig (net cfg) (n cfg) m l (applyErr cfg) (connected cfg) (persisters cfg) (saved cfg)
    (endnames cfg) (logs cfg) (lastApplied cfg) (maxIndex cfg) (finished cfg) (drawn cfg) next.
Definition with_saved (cfg : config) (h : PersisterHeap) (l : list (option nat)) (next : nat) : config :=
  mkConfig (net cfg) (n cfg) (instances cfg) (rafts cfg) (applyErr cfg) (connected cfg) h l
    (endnames cfg) (logs cfg) (lastApplied cfg) (maxIndex cfg) (finished cfg) (drawn cfg) next.
Definition with_ends (cfg : config) (rn : Network) (l : list (option (list string))) (k : nat) : config :=
  mkConfig rn (n cfg) (instances cfg) (rafts cfg) (applyErr cfg) (connected cfg) (persisters cfg) (saved cfg)
    l (logs cfg) (lastApplied cfg) (maxIndex cfg) (finished cfg) k (allocated cfg).
Definition with_logs (cfg : config) (l : list (gmap Z (option V))) (la : list Z) (mx : Z) : config :=
  mkConfig (net cfg) (n cfg) (instances cfg) (rafts cfg) (applyErr cfg) (connected cfg) (persisters cfg) (saved cfg)
    (endnames cfg) l la mx (finished cfg) (drawn cfg) (allocated cfg).

(** ** What the servers apply *)

(** The loop of [checkLogs]: the last server with another value is reported. *)
Definition conflict (ls : list (gmap Z (option V))) (i : Z) (m : ApplyMsg (option V)) : option ApplyError :=
  foldl (λ err jl,
    match jl.2 !! CommandIndex m with
    | Some old => if decide (old = Command m) then err else Some (CommitMismatch (CommandIndex m) i (Z.of_nat jl.1))
    | None => err
    end) None (imap pair ls).
Definition checkLogs (cfg : config) (i : Z) (m : ApplyMsg (option V)) : go (config * option ApplyError * bool) :=
  let err_msg := conflict (logs cfg) i m in
  log ← index (logs cfg) i;
  let prevok := bool_decide (is_Some (log !! (CommandIndex m - 1))) in
  l ← store (logs cfg) i (<[CommandIndex m := Command m]> log);
  let mx := if maxIndex cfg <? CommandIndex m then CommandIndex m else maxIndex cfg in
  mret (with_logs cfg l (lastApplied cfg) mx, err_msg, prevok).
(** The error after [checkLogs]. *)
Definition verdict (i : Z) (m : ApplyMsg (option V)) (err : option ApplyError) (prevok : bool) : option ApplyError :=
  if (1 <? CommandIndex m) && negb prevok then Some (OutOfOrder i (CommandIndex m)) else err.
(** One message of [applier]. *)
Definition applier (cfg : config) (i : Z) (m : ApplyMsg (option V)) : go config :=
  if CommandValid m then
    r ← checkLogs cfg i m;
    let '(cfg, err, prevok) := (r : config * option ApplyError * bool) in
    match verdict i m err prevok with Some _ => Fatal | None => mret cfg end
  else mret cfg.

Definition ingestSnap (cfg : config) (i : Z) (snapshot : option string) (idx : Z) : go (config * option ApplyError) :=
  match snapshot with
  | None => Fatal
  | Some data =>
      match gob_decode data with
      | None => Fatal
      | Some (lastIncludedIndex, xlog) =>
          if negb (idx =? -1) && negb (idx =? lastIncludedIndex) then mret (cfg, Some (SnapshotMismatch i)) else
          l ← store (logs cfg) i (map_seqZ 0 xlog);
          la ← store (lastApplied cfg) i lastIncludedIndex;
          mret (with_logs cfg l la (maxIndex cfg), None)
      end
  end.

Definition SnapShotInterval : Z := 10.
(** [cfg.logs[i][j]] for [j] up to the index; an absent entry reads as nil. *)
Definition snapshot_log (log : gmap Z (option V)) (idx : Z) : list (option V) :=
  (λ j, default None (log !! j)) <$> seqZ 0 (idx + 1).
(** One message of [applierSnap], [rf] being the peer it was started with. *)
Definition applierSnap (cfg : config) (i : Z) (rf : nat) (m : ApplyMsg (option V)) : go config :=
  r ← (if SnapshotValid m then ingestSnap cfg i (Snapshot m) (SnapshotIndex m)
       else if CommandValid m then
         last ← index (lastApplied cfg) i;
         r ← (if negb (CommandIndex m =? last + 1)
              then mret (cfg, Some (Unexpected i (last + 1) (CommandIndex m)))
              else r ← checkLogs cfg i m;
                   let '(cfg, err, prevok) := (r : config * option ApplyError * bool) in
                   mret (cfg, verdict i m err prevok));
         let '(cfg, err) := (r : config * option ApplyError) in
         la ← store (lastApplied cfg) i (CommandIndex m);
         let cfg := with_logs cfg (logs cfg) la (maxIndex cfg) in
         cfg ← (if Z.rem (CommandIndex m + 1) SnapShotInterval =? 0 then
                  log ← index (logs cfg) i;
                  p ← deref (instances cfg !! rf);
                  let data := gob_encode (CommandIndex m) (snapshot_log log (CommandIndex m)) in
                  mret (with_rafts cfg (<[rf := TakeSnapshot p (CommandIndex m) data]> (instances cfg)) (rafts cfg) (allocated cfg))
                else mret cfg);
         mret (cfg, err)
       else mret (cfg, None));
  let '(cfg, err) := (r : config * option ApplyError) in
  match err with Some _ => Fatal | None => mret cfg end.

(** ** Connections *)

(** [cfg.net.Enable(cfg.endnames[i][j], b)] *)
Definition enable_end (names : list (option (list string))) (i j : Z) (b : bool) (rn : Network) : go Network :=
  row ← index names i;
  endname ← index (default [] row) j;
  mret (Enable endname b rn).

Definition connect (cfg : config) (i : Z) : go config :=
  conn ← store (connected cfg) i true;
  rn ← go_fold (λ rn j, c ← index conn j; if (c : bool) then enable_end (endnames cfg) i j true rn else mret rn)
         (seqZ 0 (n cfg)) (net cfg);
  rn ← go_fold (λ rn j, c ← index conn j; if (c : bool) then enable_end (endnames cfg) j i true rn else mret rn)
         (seqZ 0 (n cfg)) rn;
  mret (with_net cfg rn conn).
Definition disconnect (cfg : config) (i : Z) : go config :=
  conn ← store (connected cfg) i false;
  rn ← go_fold (λ rn j, row ← index (endnames cfg) i;
           if decide (row = None) then mret rn else enable_end (endnames cfg) i j false rn)
         (seqZ 0 (n cfg)) (net cfg);
  rn ← go_fold (λ rn j, row ← index (endnames cfg) j;
           if decide (row = None) then mret rn else enable_end (endnames cfg) j i false rn)
         (seqZ 0 (n cfg)) rn;
  mret (with_net cfg rn conn).

(** ** Crashes and starts *)

(** [if cfg.saved[i] != nil { cfg.saved[i] = cfg.saved[i].Copy() }] *)
Definition copy_saved (cfg : config) (i : Z) : go config :=
  ps ← index (saved cfg) i;
  match ps with
  | Some q =>
      p ← deref (persisters cfg !! q);
      l ← store (saved cfg) i (Some (allocated cfg));
      mret (with_saved cfg (<[allocated cfg := Copy p]> (persisters cfg)) l (S (allocated cfg)))
  | None => mret cfg
  end.
Definition kill_raft (cfg : config) (i : Z) : go config :=
  rf ← index (rafts cfg) i;
  match rf with
  | Some k =>
      r ← deref (instances cfg !! k);
      l ← store (rafts cfg) i None;
      mret (with_rafts cfg (<[k := Kill r]> (instances cfg)) l (allocated cfg))
  | None => mret cfg
  end.
(** The persisted data is moved to one more persister. *)
Definition resave (cfg : config) (i : Z) : go config :=
  ps ← index (saved cfg) i;
  match ps with
  | Some q =>
      p ← deref (persisters cfg !! q);
      let raftlog := ReadRaftState p in
      let snapshot := ReadSnapshot p in
      l ← store (saved cfg) i (Some (allocated cfg));
      h ← Save (<[allocated cfg := mkPersister "" ""]> (persisters cfg)) (allocated cfg) raftlog snapshot;
      mret (with_saved cfg h l (S (allocated cfg)))
  | None => mret cfg
  end.
Definition crash1 (cfg : config) (i : Z) : go config :=
  cfg ← disconnect cfg i;
  let cfg := with_net cfg (DeleteServer (Itoa i) (net cfg)) (connected cfg) in
  cfg ← copy_saved cfg i;
  cfg ← kill_raft cfg i;
  resave cfg i.

Definition make_ends (names : list string) (rn : Network) : go Network :=
  go_fold (λ rn js, rn ← MakeEnd js.2 rn; mret (Connect js.2 (Itoa (Z.of_nat js.1)) rn)) (imap pair names) rn.
(** The persister of a peer that starts; the snapshot in it is applied. *)
Definition load_saved (cfg : config) (i : Z) : go config :=
  ps ← index (saved cfg) i;
  match ps with
  | Some _ =>
      cfg ← copy_saved cfg i;
      ps ← index (saved cfg) i;
      p ← deref (ps ≫= λ q, persisters cfg !! q);
      let snapshot := ReadSnapshot p in
      if 0 <? Z.of_nat (String.length snapshot) then
        r ← ingestSnap cfg i (Some snapshot) (-1);
        let '(cfg, err) := (r : config * option ApplyError) in
        match err with Some _ => Fatal | None => mret cfg end
      else mret cfg
  | None =>
      l ← store (saved cfg) i (Some (allocated cfg));
      mret (with_saved cfg (<[allocated cfg := MakePersister]> (persisters cfg)) l (S (allocated cfg)))
  end.
(** The goroutine of the applier, started at the end, is a thread of its own. *)
Definition start1 (cfg : config) (i : Z) : go config :=
  cfg ← crash1 cfg i;
  let names := rnd <$> seq (drawn cfg) (Z.to_nat (n cfg)) in
  rows ← store (endnames cfg) i (Some names);
  rn ← make_ends names (net cfg);
  let cfg := with_ends cfg rn rows (drawn cfg + Z.to_nat (n cfg)) in
  la ← store (lastApplied cfg) i 0;
  cfg ← load_saved (with_logs cfg (logs cfg) la (maxIndex cfg)) i;
  ps ← index (saved cfg) i;
  q ← deref ps;
  let k := allocated cfg in
  let rf := Make names i q (persisters cfg) in
  l ← store (rafts cfg) i (Some k);
  let cfg := with_rafts cfg (<[k := rf]> (instances cfg)) l (S k) in
  mret (with_net cfg (AddServer (Itoa i) k (net cfg)) (connected cfg)).

Definition setunreliable (cfg : config) (unrel : bool) : config :=
  with_net cfg (Reliable (negb unrel) (net cfg)) (connected cfg).
Definition setlongreordering (cfg : config) (longrel : bool) : config :=
  with_net cfg (LongReordering longrel (net cfg)) (connected cfg).
Definition make_config (m : Z) (unreliable : bool) : go config :=
  let k := Z.to_nat m in
  let cfg := mkConfig MakeNetwork m ∅ (replicate k None) (replicate k "") (replicate k false) ∅
    (replicate k None) (replicate k None) (replicate k ∅) (replicate k 0) 0 false O O in
  let cfg := setunreliable cfg unreliable in
  let cfg := with_net cfg (LongDelays true (net cfg)) (connected cfg) in
  cfg ← go_fold start1 (seqZ 0 m) cfg;
  go_fold connect (seqZ 0 m) cfg.
Definition finish (cfg : config) : config :=
  mkConfig (net cfg) (n cfg) (instances cfg) (rafts cfg) (applyErr cfg) (connected cfg) (persisters cfg) (saved cfg)
    (endnames cfg) (logs cfg) (lastApplied cfg) (maxIndex cfg) true (drawn cfg) (allocated cfg).
Definition checkFinished (cfg : config) : bool := finished cfg.
Definition checkTimeout (failed : bool) (elapsed : Z) : go unit := Harness.checkTimeout failed elapsed.
Definition cleanup (cfg : config) (failed : bool) (elapsed : Z) : go config :=
  let cfg := finish cfg in
  cfg ← go_fold (λ cfg rf,
    match rf with
    | Some k => r ← deref (instances cfg !! k);
                mret (with_rafts cfg (<[k := Kill r]> (instances cfg)) (rafts cfg) (allocated cfg))
    | None => mret cfg
    end) (rafts cfg) cfg;
  rn ← Cleanup (net cfg);
  _ ← checkTimeout failed elapsed;
  mret (with_net cfg rn (connected cfg)).
Definition LogSize (cfg : config) : go Z :=
  go_fold (λ logsize i,
    ps ← index (saved cfg) i; p ← deref (ps ≫= λ q, persisters cfg !! q);
    mret (if logsize <? RaftStateSize p then RaftStateSize p else logsize)) (seqZ 0 (n cfg)) 0.

(** ** The report of a test *)

(** [servers] are the servers of the network. *)
Definition rpcCount {S} (servers : gmap ptr (Server S)) (cfg : config) (server : Z) : go Z :=
  GetCount servers (net cfg) (Itoa server).
Definition rpcTotal (cfg : config) : Z := GetTotalCount (net cfg).
Definition bytesTotal (cfg : config) : Z := GetTotalBytes (net cfg).
Record statistics : Type := mkStatistics { t0 : Z; rpcs0 : Z; cmds0 : Z; bytes0 : Z; maxIndex0 : Z }.
Definition begin (cfg : config) (now : Z) : statistics :=
  mkStatistics now (rpcTotal cfg) 0 (bytesTotal cfg) (maxIndex cfg).
(** The time, and the numbers of peers, requests, bytes and agreements. *)
Definition end_ (cfg : config) (st : statistics) (failed : bool) (elapsed now : Z)
    : go (option (Z * Z * Z * Z * Z)) :=
  _ ← checkTimeout failed elapsed;
  mret (if failed then None
        else Some (now - t0 st, n cfg, rpcTotal cfg - rpcs0 st, i64 (bytesTotal cfg - bytes0 st),
                   maxIndex cfg - maxIndex0 st)).

(** ** The appliers as goroutines

    These are runs with [applier], those in which [make_config] is not asked for
    snapshots: no server takes one, so [start1] finds none to load and the tester
    leaves the applied logs alone.  [applierSnap] and [ingestSnap], which replaces a
    log, are above, one message at a time.  [checkLogs] runs under the lock; the
    verdict follows outside, and ends the process if there is an error. *)
Inductive applier_pc : Type := Receiving | Checked (m : ApplyMsg (option V)) (err : option ApplyError) (prevok : bool).
Record World : Type := mkWorld { cfg_of : config; appliers : list (Z * applier_pc); stopped : bool }.
Inductive apply_step : World → World → Prop :=
| apply_tester cfg cfg' l more :
    (* the tester, outside the applied logs; it may start appliers *)
    logs cfg' = logs cfg →
    apply_step (mkWorld cfg l false) (mkWorld cfg' (l ++ ((λ i, (i, Receiving)) <$> more)) false)
| apply_ignored cfg l k i (m : ApplyMsg (option V)) :
    l !! k = Some (i, Receiving) → CommandValid m = false →
    apply_step (mkWorld cfg l false) (mkWorld cfg l false)
| apply_checked cfg l k i m cfg' err prevok :
    l !! k = Some (i, Receiving) → CommandValid m = true → checkLogs cfg i m = Ret (cfg', err, prevok) →
    apply_step (mkWorld cfg l false) (mkWorld cfg' (<[k := (i, Checked m err prevok)]> l) false)
| apply_passed cfg l k i m err prevok :
    l !! k = Some (i, Checked m err prevok) → verdict i m err prevok = None →
    apply_step (mkWorld cfg l false) (mkWorld cfg (<[k := (i, Receiving)]> l) false)
| apply_failed cfg l k i m err prevok e :
    l !! k = Some (i, Checked m err prevok) → verdict i m err prevok = Some e →
    apply_step (mkWorld cfg l false) (mkWorld cfg l true).
End tester.
Arguments config : clear implicits.
Arguments World : clear implicits.
