(* ===== verification/RaftTesterProof.v ===== *)
(** * The tester of Raft: the applied logs agree *)
From S2P Require Import Prelude GoStrings Persister Raft Labrpc RaftTester.
#[local] Open Scope Z_scope.

Section appliers.
Context {R V : Type} `{EqDecision V} `{RaftApi R (option V)}.
Implicit Types (cfg : config R V) (m : ApplyMsg (option V)) (w : World R V).

(** No two servers have applied different commands at an index. *)
Definition agree (ls : list (gmap Z (option V))) : Prop :=
  ∀ i j li lj idx v v', ls !! i = Some li → ls !! j = Some lj →
    li !! idx = Some v → lj !! idx = Some v' → v = v'.
(** A server applies no index before the one below it. *)
Definition contiguous (ls : list (gmap Z (option V))) : Prop :=
  ∀ i li idx, ls !! i = Some li → 1 < idx → is_Some (li !! idx) → is_Some (li !! (idx - 1)).
(** An applier has found an error and is about to stop the process. *)
Definition failing (l : list (Z * applier_pc)) : Prop :=
  ∃ k i m err prevok e, l !! k = Some (i, Checked m err prevok) ∧ verdict i m err prevok = Some e.

Lemma foldl_None {A B} (f : option B → A → option B) (Q : A → Prop) l err :
  (∀ err x, f err x = None → err = None ∧ Q x) → foldl f err l = None → err = None ∧ Forall Q l.
Proof.
  intros Hf. revert err. induction l as [|x l IH]; intros err; simpl; [done|].
  intros [Hx Hl]%IH. apply Hf in Hx as [-> ?]. split; [done|by constructor].
Qed.
Lemma conflict_None (ls : list (gmap Z (option V))) i m j lj v :
  conflict ls i m = None → ls !! j = Some lj → lj !! CommandIndex m = Some v → v = Command m.
Proof.
  intros Hc Hj Hv.
  apply (foldl_None _ (λ jl, ∀ v, jl.2 !! CommandIndex m = Some v → v = Command m)) in Hc as [_ Hall].
  - eapply (Forall_lookup_1 _ _ j (j, lj)) in Hall; [by apply Hall|]. rewrite list_lookup_imap, Hj. done.
  - intros err [k l]. cbn [snd fst]. destruct (l !! CommandIndex m) as [old|].
    + case_decide; [|done]. intros ->. split; [done|]. by intros ? [= ->].
    + intros ->. by split.
Qed.

Lemma checkLogs_Ret cfg i m cfg' err prevok :
  checkLogs cfg i m = Ret (cfg', err, prevok) →
  ∃ log, 0 ≤ i ∧ logs cfg !! Z.to_nat i = Some log ∧ err = conflict (logs cfg) i m ∧
    prevok = bool_decide (is_Some (log !! (CommandIndex m - 1))) ∧
    logs cfg' = <[Z.to_nat i := <[CommandIndex m := Command m]> log]> (logs cfg).
Proof.
  unfold checkLogs. intros Hr.
  destruct (index (logs cfg) i) as [log| | | |] eqn:E; try done. apply index_Ret in E as [Hi Hl].
  go_step in Hr.
  rewrite store_lt in Hr by (apply lookup_lt_Some in Hl; lia). go_step in Hr.
  injection Hr as <- <- <-. exists log. split_and!; done.
Qed.

(** An entry that passes keeps the logs in agreement. *)
Lemma insert_agree (ls : list (gmap Z (option V))) i log m :
  agree ls → ls !! i = Some log → (∀ j lj v, ls !! j = Some lj → lj !! CommandIndex m = Some v → v = Command m) →
  agree (<[i := <[CommandIndex m := Command m]> log]> ls).
Proof.
  intros Ha Hi Hc.
  assert (∀ j lj idx v, <[i := <[CommandIndex m := Command m]> log]> ls !! j = Some lj → lj !! idx = Some v →
    (idx = CommandIndex m ∧ v = Command m) ∨ ∃ l0, ls !! j = Some l0 ∧ l0 !! idx = Some v) as Hcase.
  { intros j lj idx v. rewrite list_lookup_insert_Some. intros [(<- & <- & _)|[_ Hj]] Hv; [|right; by exists lj].
    apply lookup_insert_Some in Hv as [[<- <-]|[_ Hv]]; [by left|right; by exists log]. }
  intros j k lj lk idx v v' Hj Hk Hv Hv'.
  destruct (Hcase j lj idx v Hj Hv) as [[E1 ->]|(l1 & H1 & H1')], (Hcase k lk idx v' Hk Hv') as [[E2 ->]|(l2 & H2 & H2')];
    subst; try done.
  - symmetry. by eapply Hc.
  - by eapply Hc.
  - by eapply (Ha j k).
Qed.

Lemma insert_contiguous (ls : list (gmap Z (option V))) i log idx v :
  contiguous ls → ls !! i = Some log → (1 < idx → is_Some (log !! (idx - 1))) →
  contiguous (<[i := <[idx := v]> log]> ls).
Proof.
  intros Hc Hi Hprev j lj k. rewrite list_lookup_insert_Some. intros [(<- & <- & _)|[_ Hj]] Hk.
  - intros [<-|[_ Hs]]%lookup_insert_is_Some.
    + rewrite lookup_insert_ne by lia. auto.
    + apply lookup_insert_is_Some. destruct (decide (idx = k - 1)); [by left|right; split; [done|]].
      by eapply Hc.
  - by eapply Hc.
Qed.

Definition apply_inv w : Prop :=
  stopped w = true ∨ failing (appliers w) ∨ (agree (logs (cfg_of w)) ∧ contiguous (logs (cfg_of w))).

Lemma failing_insert (l : list (Z * applier_pc)) k i pc :
  (∀ m err prevok, l !! k = Some (i, Checked m err prevok) → verdict i m err prevok = None) →
  is_Some (l !! k) → (∃ i0, l !! k = Some (i0, Receiving) ∨ ∃ pc0, l !! k = Some (i, pc0)) →
  failing l → failing (<[k := pc]> l).
Proof.
  intros Hn _ Hk (k' & i' & m & err & prevok & e & Hl & Hv).
  destruct (decide (k' = k)) as [->|Hne].
  - exfalso. destruct Hk as (i0 & [Hk|[pc0 Hk]]); rewrite Hl in Hk; simplify_eq.
    by rewrite (Hn m err prevok Hl) in Hv.
  - exists k', i', m, err, prevok, e. by rewrite list_lookup_insert_ne.
Qed.

Lemma apply_inv_step w w' : apply_inv w → apply_step w w' → apply_inv w'.
Proof.
  intros Hi Hs. destruct Hs as [cfg cfg' l more Hlogs|cfg l k i m Hk Hm|cfg l k i m cfg' err prevok Hk Hm Hr
    |cfg l k i m err prevok Hk Hv|cfg l k i m err prevok e Hk Hv]; unfold apply_inv in *; cbn [stopped appliers cfg_of] in *;
    [right|done|right|right|by left].
  - destruct Hi as [?|[(k & i & m & err & prevok & e & Hl & Hv)|Hi]]; [done|left|right; by rewrite Hlogs].
    exists k, i, m, err, prevok, e. by rewrite lookup_app_l by by eapply lookup_lt_Some.
  - destruct Hi as [?|[Hf|[Ha Hc]]]; [done|left|].
    + eapply (failing_insert _ _ i); [|by eexists|by exists i; left|done]. intros *. by rewrite Hk.
    + destruct (verdict i m err prevok) as [e|] eqn:Hv.
      { left. exists k, i, m, err, prevok, e. split; [|done]. apply list_lookup_insert_eq. by eapply lookup_lt_Some. }
      right. apply checkLogs_Ret in Hr as (log & _ & Hl & -> & -> & ->).
      unfold verdict in Hv. destruct ((1 <? CommandIndex m) && negb _) eqn:Hp; [done|]. split.
      * apply insert_agree; [done..|]. intros j lj v. by apply (conflict_None _ i).
      * apply insert_contiguous; [done..|]. intros Hgt. apply Z.ltb_lt in Hgt. rewrite Hgt in Hp.
        by apply negb_false_iff, bool_decide_eq_true in Hp.
  - destruct Hi as [?|[Hf|Hg]]; [done|left|by right].
    eapply (failing_insert _ _ i); [|by eexists|exists i; right; by eexists|done]. intros * Hk'. rewrite Hk in Hk'. by simplify_eq.
Qed.

(** C35 In every interleaving of the goroutines that run [applier] (not
    [applierSnap]) with each other and with a tester that loads no snapshots, as long as the process has not been stopped and no applier is about
    to stop it, all servers have applied the same command at every index and
    none has skipped an index: a divergence is always reported. *)
Theorem appliers_agree cfg l w :
  (∀ i log, logs cfg !! i = Some log → log = ∅) →
  rtc apply_step (mkWorld cfg l false) w →
  stopped w = true ∨ failing (appliers w) ∨
  (agree (logs (cfg_of w)) ∧
   ∀ i log idx k, logs (cfg_of w) !! i = Some log → is_Some (log !! idx) → 1 ≤ k ≤ idx → is_Some (log !! k)).
Proof.
  intros H0 Hr. assert (apply_inv w) as [?|[?|[Ha Hc]]]; [|by left|by right; left|right; right].
  { revert w Hr. apply (rtc_ind_r apply_inv); [|intros w w' _ Hs Hi; by eapply apply_inv_step].
    right; right. split.
    - intros i j li lj idx v v' Hi%H0 Hj%H0. by subst.
    - intros i li idx Hi%H0 _. subst. by intros [? ?]. }
  split; [done|]. intros i log idx k Hi Hs Hk.
  assert (∀ d : nat, Z.of_nat d < idx → is_Some (log !! (idx - Z.of_nat d))) as Hd.
  { induction d as [|d IH]; intros Hlt; [by rewrite Z.sub_0_r|].
    replace (idx - Z.of_nat (S d)) with (idx - Z.of_nat d - 1) by lia. eapply Hc; [done|lia|]. apply IH. lia. }
  replace k with (idx - Z.of_nat (Z.to_nat (idx - k))) by lia. apply Hd. lia.
Qed.

(** ** Snapshots *)
Section snapshots.
Context (gob_encode : Z → list (option V) → string) (gob_decode : string → option (Z * list (option V))).
Context (gob_roundtrip : ∀ idx l, gob_decode (gob_encode idx l) = Some (idx, l)).

(** The snapshot that [applierSnap] takes at an index, given to [ingestSnap],
    restores the entries up to it (and a nil entry at 0, which is what an absent
    one reads as); the index is the last one applied. *)
Lemma snapshot_restores cfg i log idx ms :
  0 ≤ i → (Z.to_nat i < length (logs cfg))%nat → (Z.to_nat i < length (lastApplied cfg))%nat → 0 ≤ idx →
  (∀ j, 1 ≤ j ≤ idx → is_Some (log !! j)) → ms = -1 ∨ ms = idx →
  ∃ cfg' log', ingestSnap gob_decode cfg i (Some (gob_encode idx (snapshot_log log idx))) ms = Ret (cfg', None) ∧
    logs cfg' = <[Z.to_nat i := log']> (logs cfg) ∧
    lastApplied cfg' = <[Z.to_nat i := idx]> (lastApplied cfg) ∧
    (∀ j, 1 ≤ j ≤ idx → log' !! j = log !! j) ∧ log' !! 0 = Some (default None (log !! 0)) ∧
    (∀ j, j < 0 ∨ idx < j → log' !! j = None).
Proof.
  intros Hi Hl Hla Hidx Hlog Hms. unfold ingestSnap. rewrite gob_roundtrip.
  replace (negb (ms =? -1) && negb (ms =? idx)) with false by (destruct Hms; subst; rewrite Z.eqb_refl; [done|by rewrite andb_false_r]).
  rewrite !store_lt by lia. go_step.
  assert (∀ j, (map_seqZ 0 (snapshot_log log idx) : gmap Z (option V)) !! j =
    if decide (0 ≤ j ≤ idx) then Some (default None (log !! j)) else None) as Hm.
  { intros j. case_decide as Hj.
    - rewrite lookup_map_seqZ, option_guard_True, Z.sub_0_r by lia. unfold snapshot_log.
      rewrite list_lookup_fmap. erewrite (proj2 (lookup_seqZ 0 (idx + 1) (Z.to_nat j) j)); [done|lia].
    - apply lookup_map_seqZ_None. unfold snapshot_log. rewrite length_fmap, length_seqZ. lia. }
  eexists _, _. split; [done|]. split; [done|]. split; [done|]. split_and!.
  - intros j Hj. rewrite Hm, decide_True by lia. by destruct (Hlog j Hj) as [v ->].
  - by rewrite Hm, decide_True by lia.
  - intros j Hj. by rewrite Hm, decide_False by lia.
Qed.
End snapshots.
End appliers.
