(* ===== verification/RaftChecks.v ===== *)
(** * The tester of Raft: what a test observes ([raft/config.go])

    A test is a goroutine that runs beside the peers and the appliers.  What it
    reads is [world k], the configuration at its [k]-th look, and [clock k], the
    time in nanoseconds at its [k]-th reading of the clock; the two share a
    counter.  Sleeping only lets [k] grow and is left out. *)
From S2P Require Import Prelude GoStrings Persister Raft RaftTester.
#[local] Open Scope Z_scope.

Section checks.
Context {R V : Type} `{EqDecision V} `{RaftApi R (option V)}.
Context (world : nat → config R V) (clock : nat → Z).

(** A test's computation: the counter is the state. *)
Definition tester (A : Type) : Type := nat → go (A * nat).
#[local] Instance tester_ret : MRet tester := λ A a k, Ret (a, k).
#[local] Instance tester_bind : MBind tester := λ A B f m k, r ← m k; f r.1 r.2.
Definition look : tester (config R V) := λ k, Ret (world k, S k).
Definition now : tester Z := λ k, Ret (clock k, S k).
Definition lift {A} (m : go A) : tester A := λ k, a ← m; Ret (a, k).
Definition fatal {A} : tester A := λ _, Fatal.
Definition no_fuel {A} : tester A := λ _, NoFuel.
Fixpoint t_fold {S A} (f : S → A → tester S) (l : list A) (s : S) : tester S :=
  match l with [] => mret s | x :: l => f s x ≫= t_fold f l end.

(** A peer of the configuration; a crashed one is nil. *)
Definition peer (cfg : config R V) (i : Z) : go (option nat) := index (rafts cfg) i.
Definition is_connected (cfg : config R V) (i : Z) : go bool := index (connected cfg) i.
(** [cfg.rafts[i].GetState()] *)
Definition peer_state (cfg : config R V) (i : Z) : go (Z * bool) :=
  rf ← peer cfg i; r ← deref (rf ≫= λ k, instances cfg !! k); mret (GetState r).

(** ** Leaders and terms *)

(** One look at server [i]. *)
Definition see_leader (leaders : gmap Z (list Z)) (i : Z) : tester (gmap Z (list Z)) :=
  cfg ← look;
  conn ← lift (is_connected cfg i);
  if (conn : bool) then
    s ← lift (peer_state cfg i);
    let '(term, leader) := (s : Z * bool) in
    mret (if leader then <[term := default [] (leaders !! term) ++ [i]]> leaders else leaders)
  else mret leaders.
Definition two_leaders (leaders : gmap Z (list Z)) : bool :=
  existsb (λ tl, 1 <? Z.of_nat (length tl.2)) (map_to_list leaders).
Definition last_term (leaders : gmap Z (list Z)) : Z :=
  foldl (λ last tl, if last <? tl.1 then tl.1 else last) (-1) (map_to_list leaders).
Fixpoint checkOneLeader_loop (iters : nat) : tester Z :=
  match iters with
  | O => fatal
  | S iters =>
      cfg ← look;
      leaders ← t_fold see_leader (seqZ 0 (n cfg)) ∅;
      if two_leaders leaders then fatal else
      if negb (bool_decide (leaders = ∅)) then
        lift (index (default [] (leaders !! last_term leaders)) 0)
      else checkOneLeader_loop iters
  end.
Definition checkOneLeader : tester Z := checkOneLeader_loop 10.

Definition checkTerms : tester Z :=
  cfg ← look;
  t_fold (λ term i,
    cfg ← look;
    conn ← lift (is_connected cfg i);
    if (conn : bool) then
      s ← lift (peer_state cfg i);
      let '(xterm, _) := (s : Z * bool) in
      if term =? -1 then mret xterm else if negb (term =? xterm) then fatal else mret term
    else mret term) (seqZ 0 (n cfg)) (-1).

Definition checkNoLeader : tester unit :=
  cfg ← look;
  t_fold (λ _ i,
    cfg ← look;
    conn ← lift (is_connected cfg i);
    if (conn : bool) then
      s ← lift (peer_state cfg i);
      if (s : Z * bool).2 then fatal else mret tt
    else mret tt) (seqZ 0 (n cfg)) tt.

(** ** Agreement *)
Definition count_committed (idx : Z) (st : Z * option V) (i : Z) : tester (Z * option V) :=
  cfg ← look;
  err ← lift (index (applyErr cfg) i);
  if negb (bool_decide (err = "")) then fatal else
  cfg ← look;
  log ← lift (index (logs cfg) i);
  match log !! idx with
  | Some cmd1 =>
      if (0 <? st.1) && negb (bool_decide (st.2 = cmd1)) then fatal else mret (st.1 + 1, cmd1)
  | None => mret st
  end.
Definition nCommitted (idx : Z) : tester (Z * option V) :=
  cfg ← look;
  t_fold (count_committed idx) (seqZ 0 (Z.of_nat (length (rafts cfg)))) (0, None).

(** [wait] answers the command, or -1 when someone has moved on. *)
Definition moved_on (startTerm : Z) : tester bool :=
  if -1 <? startTerm then
    cfg ← look;
    t_fold (λ (b : bool) rf,
      if b then mret true else
      cfg ← look;
      r ← lift (deref (rf ≫= λ k, instances cfg !! k));
      mret (startTerm <? (GetState r).1)) (rafts cfg) false
  else mret false.
Fixpoint wait_loop (iters : nat) (idx want startTerm : Z) : tester bool :=
  match iters with
  | O => mret false
  | S iters =>
      nd ← nCommitted idx;
      if want <=? (nd : Z * option V).1 then mret false else
      b ← moved_on startTerm;
      if (b : bool) then mret true else wait_loop iters idx want startTerm
  end.
Definition wait (idx want startTerm : Z) : tester (option (option V)) :=
  b ← wait_loop 30 idx want startTerm;
  if (b : bool) then mret None else
  nd ← nCommitted idx;
  if (nd : Z * option V).1 <? want then fatal else mret (Some nd.2).

(** ** [one] *)
Definition seconds (s : Z) : Z := s * 10 ^ 9.

(** The servers are tried in turn until one accepts the command. *)
Fixpoint try_servers (tries : nat) (cmd : option V) (starts : Z) : tester (Z * Z) :=
  match tries with
  | O => mret (starts, -1)
  | S tries =>
      cfg ← look;
      let starts := Z.rem (starts + 1) (n cfg) in
      conn ← lift (is_connected cfg starts);
      rf ← lift (if (conn : bool) then peer cfg starts else mret None);
      match rf with
      | Some k =>
          cfg ← look;
          r ← lift (deref (instances cfg !! k));
          let '(index1, _, ok) := (Start r cmd).2 in
          if (ok : bool) then mret (starts, index1) else try_servers tries cmd starts
      | None => try_servers tries cmd starts
      end
  end.
(** Two seconds for [expectedServers] to commit the command at the index. *)
Fixpoint agreement (fuel : nat) (cmd : option V) (idx expectedServers t1 : Z) : tester bool :=
  match fuel with
  | O => no_fuel
  | S fuel =>
      t ← now;
      if t - t1 <? seconds 2 then
        nd ← nCommitted idx;
        let '(n, cmd1) := (nd : Z * option V) in
        if (0 <? n) && (expectedServers <=? n) && bool_decide (cmd1 = cmd) then mret true
        else agreement fuel cmd idx expectedServers t1
      else mret false
  end.
Fixpoint one_loop (fuel : nat) (cmd : option V) (expectedServers : Z) (retry : bool) (t0 starts : Z) : tester Z :=
  match fuel with
  | O => no_fuel
  | S fuel =>
      t ← now;
      cfg ← look;
      if (t - t0 <? seconds 10) && negb (checkFinished cfg) then
        r ← try_servers (Z.to_nat (n cfg)) cmd starts;
        let '(starts, idx) := (r : Z * Z) in
        if negb (idx =? -1) then
          t1 ← now;
          b ← agreement fuel cmd idx expectedServers t1;
          if (b : bool) then mret idx else
          if negb retry then fatal else one_loop fuel cmd expectedServers retry t0 starts
        else one_loop fuel cmd expectedServers retry t0 starts
      else
        cfg ← look;
        if checkFinished cfg then mret (-1) else fatal
  end.
Definition one (fuel : nat) (cmd : option V) (expectedServers : Z) (retry : bool) : tester Z :=
  t0 ← now; one_loop fuel cmd expectedServers retry t0 0.
End checks.
