(* ===== verification/RaftChecksProof.v ===== *)
(** * The tester of Raft: what its checks establish, and that they end *)
From S2P Require Import Prelude GoStrings Persister Raft RaftTester RaftChecks.
#[local] Open Scope Z_scope.

Section checks.
Context {R V : Type} `{EqDecision V} `{RaftApi R (option V)}.
Context (world : nat → config R V) (clock : nat → Z).
#[local] Existing Instance tester_ret.
#[local] Existing Instance tester_bind.
#[local] Abbreviation nCommitted := (nCommitted world).
#[local] Abbreviation agreement := (agreement world clock).
#[local] Abbreviation one_loop := (one_loop world clock).
#[local] Abbreviation try_servers := (try_servers world).

(** ** The monad *)
Lemma bind_Ret {A B} (m : tester A) (f : A → tester B) k b k' :
  (m ≫= f) k = Ret (b, k') → ∃ a k1, m k = Ret (a, k1) ∧ f a k1 = Ret (b, k').
Proof.
  unfold mbind, tester_bind. destruct (m k) as [[a k1]| | | |] eqn:E; try done. intros Hf. by exists a, k1.
Qed.
Lemma lift_Ret {A} (m : go A) k a k' : lift m k = Ret (a, k') → m = Ret a ∧ k' = k.
Proof. unfold lift. destruct m; try done. intros [= -> ->]. done. Qed.

Lemma t_fold_inv {S A} (f : S → A → tester S) (P : list A → S → nat → Prop) l s k s' k' :
  P [] s k →
  (∀ d x rest s k s1 k1, l = d ++ x :: rest → P d s k → f s x k = Ret (s1, k1) → P (d ++ [x]) s1 k1) →
  t_fold f l s k = Ret (s', k') → P l s' k'.
Proof.
  intros H0 Hf. cut (∀ l' d s k, l = d ++ l' → P d s k → t_fold f l' s k = Ret (s', k') → P l s' k').
  { intros Hc. by apply (Hc l []). }
  clear H0 s k. induction l' as [|x l' IH]; intros d s k Hl HP; simpl.
  - rewrite app_nil_r in Hl. intros [= <- <-]. by subst d.
  - intros (s1 & k1 & Hx & Hr)%bind_Ret. apply (IH (d ++ [x]) s1 k1); [by rewrite <-app_assoc|by eapply Hf|done].
Qed.

(** A computation that has enough fuel and only goes forward. *)
Definition steady {A} (m : tester A) : Prop := ∀ k, m k ≠ NoFuel ∧ ∀ a k', m k = Ret (a, k') → (k ≤ k')%nat.
Lemma steady_ret {A} (a : A) : steady (mret a).
Proof. intros k. split; [done|]. by intros ? ? [= _ <-]. Qed.
Lemma steady_fatal {A} : steady (@fatal A).
Proof. by intros k. Qed.
Lemma steady_look : steady (look world).
Proof. intros k. split; [done|]. intros ? ? [= _ <-]. lia. Qed.
Lemma steady_now : steady (now clock).
Proof. intros k. split; [done|]. intros ? ? [= _ <-]. lia. Qed.
Lemma steady_lift {A} (m : go A) : m ≠ NoFuel → steady (lift m).
Proof. intros Hm k. unfold lift. destruct m; (split; [done|]); try done. by intros ? ? [= _ <-]. Qed.
Lemma steady_bind {A B} (m : tester A) (f : A → tester B) : steady m → (∀ a, steady (f a)) → steady (m ≫= f).
Proof.
  intros Hm Hf k. unfold mbind, tester_bind. destruct (Hm k) as [Hn Hk].
  destruct (m k) as [[a k1]| | | |] eqn:E; try done. pose proof (Hk a k1 eq_refl) as Hk1.
  destruct (Hf a k1) as [Hn' Hk']. split; [done|]. intros b k' Hr. etransitivity; [done|by eapply Hk'].
Qed.
Lemma steady_fold {S A} (f : S → A → tester S) l s : (∀ s x, steady (f s x)) → steady (t_fold f l s).
Proof.
  intros Hf. revert s. induction l as [|x l IH]; intros s; simpl; [apply steady_ret|].
  by apply steady_bind.
Qed.
Lemma index_fuel {A} (l : list A) i : index l i ≠ NoFuel.
Proof. unfold index. case_decide; [|done]. by destruct (l !! Z.to_nat i). Qed.
Lemma deref_fuel {A} (o : option A) : deref o ≠ NoFuel.
Proof. by destruct o. Qed.
Create HintDb steady.
#[local] Hint Resolve steady_ret steady_fatal steady_look steady_now index_fuel deref_fuel : steady.
(** Walks down a computation. *)
Ltac steady_tac :=
  repeat first
    [ progress intros
    | apply steady_bind | apply steady_fold | apply steady_lift
    | solve [auto with steady]
    | match goal with |- steady (match ?x with _ => _ end) => destruct x end
    | match goal with |- steady (if ?x then _ else _) => destruct x end
    | match goal with |- (match ?x with _ => _ end) ≠ NoFuel => destruct x end ].

Lemma steady_nCommitted idx : steady (nCommitted idx).
Proof. unfold RaftChecks.nCommitted, count_committed. steady_tac. Qed.
Lemma steady_try_servers tries cmd starts : steady (try_servers tries cmd starts).
Proof. revert starts. induction tries as [|tries IH]; intros starts; simpl; unfold is_connected, peer; steady_tac; auto. Qed.

(** ** nCommitted *)

(** Server [i] had applied [cmd] at [idx] when it was looked at. *)
Definition committed_by (idx : Z) (cmd : option V) (k k' : nat) (i : Z) : Prop :=
  ∃ t log, (k ≤ t < k')%nat ∧ logs (world t) !! Z.to_nat i = Some log ∧ log !! idx = Some cmd.
Lemma committed_later idx cmd k k1 k2 i :
  (k1 ≤ k2)%nat → committed_by idx cmd k k1 i → committed_by idx cmd k k2 i.
Proof. intros Hk (t & log & ? & ? & ?). exists t, log. split; [lia|done]. Qed.
Lemma committed_earlier idx cmd k0 k k' i :
  (k0 ≤ k)%nat → committed_by idx cmd k k' i → committed_by idx cmd k0 k' i.
Proof. intros Hk (t & log & ? & ? & ?). exists t, log. split; [lia|done]. Qed.

Lemma count_committed_Ret idx st i k st' k' :
  count_committed world idx st i k = Ret (st', k') →
  (k < k')%nat ∧ (st' = st ∨ (st'.1 = st.1 + 1 ∧ (0 < st.1 → st.2 = st'.2) ∧ committed_by idx st'.2 k k' i)).
Proof.
  unfold count_committed. intros (c1 & k1 & [= <- <-] & Hr)%bind_Ret.
  apply bind_Ret in Hr as (e & k2 & [_ ->]%lift_Ret & Hr).
  destruct (negb (bool_decide (e = ""))); [done|].
  apply bind_Ret in Hr as (c2 & k3 & [= <- <-] & Hr).
  apply bind_Ret in Hr as (log & k4 & [Hl ->]%lift_Ret & Hr). apply index_Ret in Hl as [_ Hl].
  destruct (log !! idx) as [cmd1|] eqn:E.
  - destruct ((0 <? st.1) && negb (bool_decide (st.2 = cmd1))) eqn:Hd; [done|]. injection Hr as <- <-.
    split; [lia|right]. split; [done|]. split.
    + intros Hp. apply Z.ltb_lt in Hp. rewrite Hp in Hd. by apply negb_false_iff, bool_decide_eq_true in Hd.
    + exists (S k), log. split; [lia|done].
  - injection Hr as <- <-. split; [lia|by left].
Qed.

Lemma nCommitted_sound idx k cnt cmd k' :
  nCommitted idx k = Ret ((cnt, cmd), k') →
  (k < k')%nat ∧ ∃ S, NoDup S ∧ Z.of_nat (length S) = cnt ∧ ∀ i, i ∈ S → committed_by idx cmd k k' i.
Proof.
  unfold RaftChecks.nCommitted. intros (c & k1 & [= <- <-] & Hr)%bind_Ret.
  set (servers := seqZ 0 (Z.of_nat (length (rafts (world k))))) in *.
  pose (P (d : list Z) (st : Z * option V) (k2 : nat) := (k < k2)%nat ∧ ∃ S, S `sublist_of` d ∧
    Z.of_nat (length S) = st.1 ∧ ∀ i, i ∈ S → committed_by idx st.2 k k2 i).
  assert (P servers (cnt, cmd) k') as (Hk & S & Hs & Hl & Hc).
  { eapply t_fold_inv; [|clear Hr|exact Hr].
    { split; [lia|]. exists []. split; [done|]. split; [done|]. by intros i ?%elem_of_nil. }
    intros d i rest st k2 st' k3 _ (Hk & S & Hs & Hl & Hc) Hr.
    apply count_committed_Ret in Hr as (Hk' & [->|(E1 & E2 & Hi)]); (split; [lia|]).
    - exists S. split; [by apply sublist_inserts_r|]. split; [done|]. intros j Hj.
      eapply committed_later; [|by apply Hc]. lia.
    - exists (S ++ [i]). split; [by apply sublist_app|]. split; [rewrite length_app; simpl; lia|].
      intros j [Hj|Ej%list_elem_of_singleton]%elem_of_app; [|subst j; eapply committed_earlier; [|done]; lia].
      rewrite <-E2 by (destruct S; [by apply elem_of_nil in Hj|simpl in Hl; lia]).
      eapply committed_later; [|by apply Hc]. lia. }
  split; [done|]. exists S. split; [|done]. eapply sublist_NoDup; [apply NoDup_seqZ|done].
Qed.

(** ** one *)

Lemma agreement_later fuel cmd idx expected t1 k b k' :
  agreement fuel cmd idx expected t1 k = Ret (b, k') → (k ≤ k')%nat.
Proof.
  revert k. induction fuel as [|fuel IH]; intros k; simpl; [done|].
  intros (t & k1 & [= <- <-] & Hr)%bind_Ret. destruct (clock k - t1 <? seconds 2); [|injection Hr; lia].
  apply bind_Ret in Hr as ([cnt cmd1] & k2 & Hn%steady_nCommitted & Hr).
  destruct (_ && _); [injection Hr as _ <-; lia|]. apply IH in Hr. lia.
Qed.

(** [expected] servers, and one at least, had applied [cmd] at [idx]. *)
Definition agreed (idx : Z) (cmd : option V) (expected : Z) (k k' : nat) : Prop :=
  ∃ S, NoDup S ∧ 1 ≤ Z.of_nat (length S) ∧ expected ≤ Z.of_nat (length S) ∧
    ∀ i, i ∈ S → committed_by idx cmd k k' i.
(** A connected peer accepted the command at [idx]. *)
Definition accepted (idx : Z) (cmd : option V) (k k' : nat) : Prop :=
  ∃ t t' i p r, (k ≤ t < t')%nat ∧ (t' < k')%nat ∧ connected (world t) !! Z.to_nat i = Some true ∧
    rafts (world t) !! Z.to_nat i = Some (Some p) ∧ instances (world t') !! p = Some r ∧
    ∃ term, (Start r cmd).2 = (idx, term, true).

Lemma agreement_true fuel cmd idx expected t1 k k' :
  agreement fuel cmd idx expected t1 k = Ret (true, k') → agreed idx cmd expected k k'.
Proof.
  revert k. induction fuel as [|fuel IH]; intros k; simpl; [done|].
  intros (t & k1 & [= <- <-] & Hr)%bind_Ret. destruct (clock k - t1 <? seconds 2); [|by injection Hr].
  apply bind_Ret in Hr as ([cnt cmd1] & k2 & Hn & Hr). apply nCommitted_sound in Hn as (Hk & S & HS & Hl & Hc).
  destruct ((0 <? cnt) && (expected <=? cnt) && bool_decide (cmd1 = cmd)) eqn:E.
  - injection Hr as <-. apply andb_true_iff in E as [[?%Z.ltb_lt ?%Z.leb_le]%andb_true_iff Ec%bool_decide_eq_true]. subst cmd1.
    exists S. split_and!; [done|lia|lia|]. intros i Hi. eapply committed_earlier; [|by apply Hc]. lia.
  - destruct (IH _ Hr) as (S' & ? & ? & ? & Hc'). exists S'. split_and!; [done..|].
    intros i Hi. eapply committed_earlier; [|by apply Hc']. lia.
Qed.

Lemma try_servers_Ret tries cmd starts k starts' idx k' :
  try_servers tries cmd starts k = Ret ((starts', idx), k') → idx = -1 ∨ accepted idx cmd k k'.
Proof.
  revert starts k. induction tries as [|tries IH]; intros starts k; simpl; [by intros [= _ <- _]; left|].
  intros (c & k1 & [= <- <-] & Hr)%bind_Ret. set (i := Z.rem (starts + 1) (n (world k))) in *.
  apply bind_Ret in Hr as (conn & k2 & [Hconn ->]%lift_Ret & Hr).
  apply bind_Ret in Hr as (rf & k3 & [Hrf ->]%lift_Ret & Hr).
  assert (∀ k1, (k ≤ k1)%nat → accepted idx cmd k1 k' → accepted idx cmd k k') as Hearly.
  { intros k4 Hk4 (t & t' & j & p & r & ? & ? & Hrest). exists t, t', j, p, r. split_and!; try lia; apply Hrest. }
  destruct rf as [p|].
  - destruct conn; [|done]. apply index_Ret in Hconn as [_ Hconn]. apply index_Ret in Hrf as [_ Hrf].
    apply bind_Ret in Hr as (c & k2 & [= <- <-] & Hr).
    apply bind_Ret in Hr as (r & k3 & [Hd%deref_Ret ->]%lift_Ret & Hr).
    destruct (Start r cmd).2 as [[idx1 term] ok] eqn:Es. destruct ok.
    + injection Hr as <- <- <-. right. exists k, (S k), i, p, r. split_and!; try done; try lia. by exists term.
    + destruct (IH _ _ Hr) as [?|?]; [by left|right]. eapply Hearly; [|done]. lia.
  - destruct (IH _ _ Hr) as [?|?]; [by left|right]. eapply Hearly; [|done]. lia.
Qed.

Lemma agreed_earlier idx cmd expected k0 k k' : (k0 ≤ k)%nat → agreed idx cmd expected k k' → agreed idx cmd expected k0 k'.
Proof.
  intros Hk (S & ? & ? & ? & Hc). exists S. split_and!; [done..|]. intros i Hi. by eapply committed_earlier, Hc.
Qed.
Lemma accepted_wider idx cmd k0 k k1 k' :
  (k0 ≤ k)%nat → (k1 ≤ k')%nat → accepted idx cmd k k1 → accepted idx cmd k0 k'.
Proof. intros ? ? (t & t' & j & p & r & ? & ? & Hrest). exists t, t', j, p, r. split_and!; try lia; apply Hrest. Qed.

(** What [one] promises when it returns. *)
Definition one_result (cmd : option V) (expected : Z) (k : nat) (idx : Z) (k' : nat) : Prop :=
  (idx = -1 ∧ ∃ t, (k ≤ t < k')%nat ∧ checkFinished (world t) = true) ∨
  (idx ≠ -1 ∧ accepted idx cmd k k' ∧ agreed idx cmd expected k k').
Lemma one_result_earlier cmd expected k0 k idx k' :
  (k0 ≤ k)%nat → one_result cmd expected k idx k' → one_result cmd expected k0 idx k'.
Proof.
  intros Hk [(-> & t & ? & ?)|(? & ? & ?)]; [left|right].
  - split; [done|]. exists t. split; [lia|done].
  - split_and!; [done|by eapply accepted_wider|by eapply agreed_earlier].
Qed.

Lemma one_loop_sound fuel cmd expected retry t0 starts k idx k' :
  one_loop fuel cmd expected retry t0 starts k = Ret (idx, k') → one_result cmd expected k idx k'.
Proof.
  revert starts k. induction fuel as [|fuel IH]; intros starts k; simpl; [done|].
  intros (t & k1 & [= <- <-] & Hr)%bind_Ret. apply bind_Ret in Hr as (c & k2 & [= <- <-] & Hr).
  destruct ((clock k - t0 <? seconds 10) && negb (checkFinished (world (S k)))).
  - apply bind_Ret in Hr as ([starts' idx'] & k3 & Ht & Hr).
    pose proof (proj2 (steady_try_servers _ _ _ _) _ _ Ht) as Hk3. apply try_servers_Ret in Ht.
    destruct (Z.eqb_spec idx' (-1)) as [->|Hne]; cbn [negb] in Hr.
    + eapply one_result_earlier; [|by eapply IH]. lia.
    + apply bind_Ret in Hr as (t1 & k4 & [= <- <-] & Hr). apply bind_Ret in Hr as (b & k5 & Ha & Hr).
      pose proof (agreement_later _ _ _ _ _ _ _ _ Ha) as Hk5. destruct b.
      * injection Hr as <- <-. right. split; [done|]. destruct Ht as [?|Ht]; [done|].
        apply agreement_true in Ha. split; [eapply accepted_wider; [| |done]; lia|eapply agreed_earlier; [|done]; lia].
      * destruct retry; cbn [negb] in Hr; [|done]. eapply one_result_earlier; [|exact (IH _ _ Hr)]. lia.
  - apply bind_Ret in Hr as (c & k3 & [= <- <-] & Hr). destruct (checkFinished (world (S (S k)))) eqn:E; [|done].
    injection Hr as <- <-. left. split; [done|]. exists (S (S k)). split; [lia|done].
Qed.

(** C37 What [one] establishes: when it returns an index, a connected peer has
    accepted the command at that index, and the expected number of servers, one
    at least, have been seen with that command applied there; it returns -1 only
    when the test is finished. *)
Theorem one_sound fuel cmd expected retry k idx k' :
  one world clock fuel cmd expected retry k = Ret (idx, k') → one_result cmd expected k idx k'.
Proof.
  unfold one. intros (t0 & k1 & [= <- <-] & Hr)%bind_Ret.
  eapply one_result_earlier; [|by eapply one_loop_sound]. lia.
Qed.

(** ** The checks end *)
Section time.
Hypothesis Htime : ∀ k, clock k < clock (S k).

Lemma clock_mono k k' : (k ≤ k')%nat → clock k + Z.of_nat (k' - k) ≤ clock k'.
Proof.
  induction 1 as [|k' Hk IH]; [by rewrite Nat.sub_diag; lia|].
  pose proof (Htime k'). replace (S k' - k)%nat with (S (k' - k)) by lia. lia.
Qed.

Lemma agreement_ends fuel cmd idx expected t1 k :
  seconds 2 - (clock k - t1) < Z.of_nat fuel → (0 < fuel)%nat → agreement fuel cmd idx expected t1 k ≠ NoFuel.
Proof.
  revert k. induction fuel as [|fuel IH]; intros k Hf H0; [lia|]. simpl.
  unfold mbind at 1, tester_bind, now. cbn [mbind go_bind fst snd].
  destruct (Z.ltb_spec (clock k - t1) (seconds 2)) as [Hlt|]; [|done].
  destruct (steady_nCommitted idx (S k)) as [Hn Hk]. unfold mbind, tester_bind.
  destruct (nCommitted idx (S k)) as [[[cnt cmd1] k2]| | | |] eqn:E; try done. cbn [mbind go_bind fst snd].
  destruct (_ && _); [done|]. pose proof (Hk _ _ eq_refl). pose proof (clock_mono k k2).
  apply IH; lia.
Qed.

Lemma one_loop_ends fuel cmd expected retry t0 starts k :
  seconds 12 - (clock k - t0) < Z.of_nat fuel → (0 < fuel)%nat →
  one_loop fuel cmd expected retry t0 starts k ≠ NoFuel.
Proof.
  revert starts k. induction fuel as [|fuel IH]; intros starts k Hf H0; [lia|]. simpl.
  unfold mbind at 1, tester_bind, now. cbn [mbind go_bind fst snd].
  unfold mbind at 1, tester_bind, look. cbn [mbind go_bind fst snd].
  destruct (Z.ltb_spec (clock k - t0) (seconds 10)) as [Hlt|]; cbn [andb].
  2: { unfold mbind, tester_bind. cbn [mbind go_bind fst snd]. by destruct (checkFinished (world (S (S k)))). }
  destruct (checkFinished (world (S k))); cbn [negb].
  { unfold mbind, tester_bind. cbn [mbind go_bind fst snd]. by destruct (checkFinished (world (S (S k)))). }
  assert (seconds 12 = seconds 2 + seconds 10) as E12 by done.
  assert (0 < seconds 2) as E2 by done.
  unfold mbind at 1, tester_bind.
  destruct (steady_try_servers (Z.to_nat (n (world (S k)))) cmd starts (S (S k))) as [Hn Hk].
  destruct (try_servers _ _ _ _) as [[[starts' idx] k3]| | | |] eqn:E; try done. cbn [mbind go_bind fst snd].
  pose proof (Hk _ _ eq_refl). pose proof (clock_mono k k3).
  destruct (negb (idx =? -1)); [|apply IH; lia].
  unfold mbind at 1, tester_bind. cbn [mbind go_bind fst snd].
  unfold mbind at 1, tester_bind.
  pose proof (agreement_later fuel cmd idx expected (clock k3) (S k3)) as Hk'.
  pose proof (agreement_ends fuel cmd idx expected (clock k3) (S k3)) as Hend.
  pose proof (Htime k3).
  destruct (agreement _ _ _ _ _ _) as [[b k5]| | | |] eqn:Ea; try done. 2: { exfalso. apply Hend; [lia|lia|done]. }
  cbn [mbind go_bind fst snd]. destruct b; [done|]. destruct retry; [|done]. cbn [negb].
  pose proof (Hk' _ _ eq_refl). pose proof (clock_mono k k5). apply IH; lia.
Qed.

(** [one] gives up: if every reading of the clock is at least a nanosecond
    after the one before, it comes to an end within the rounds of twelve
    seconds, whatever the peers do. *)
Lemma one_terminates fuel cmd expected retry k :
  seconds 12 < Z.of_nat fuel → one world clock fuel cmd expected retry k ≠ NoFuel.
Proof.
  intros Hf. unfold one, mbind, tester_bind, now. cbn [mbind go_bind fst snd].
  pose proof (Htime k). assert (0 < seconds 12) by done. apply one_loop_ends; lia.
Qed.
End time.

(** ** checkOneLeader *)

(** At its look number [k], server [i] was connected and leader of [term]. *)
Definition leads (k : nat) (i term : Z) : Prop :=
  is_connected (world k) i = Ret true ∧ peer_state (world k) i = Ret (term, true).

(** The map built from the servers of [d], each at its own look. *)
Definition leaders_of (k0 : nat) (d : list Z) (leaders : gmap Z (list Z)) : Prop :=
  (∀ term l, leaders !! term = Some l → l ≠ []) ∧
  ∀ term j, j ∈ default [] (leaders !! term) ↔
    ∃ p : nat, d !! p = Some j ∧ leads (k0 + p) j term.

Lemma leaders_snoc k0 d i leaders k leaders' k' :
  leaders_of k0 d leaders → k = (k0 + length d)%nat →
  see_leader world leaders i k = Ret (leaders', k') → leaders_of k0 (d ++ [i]) leaders' ∧ k' = S k.
Proof.
  clear clock. intros [Hne Hin] Hk. unfold see_leader. intros (c & k1 & [= <- <-] & Hr)%bind_Ret.
  apply bind_Ret in Hr as (conn & k2 & [Hconn ->]%lift_Ret & Hr).
  assert (∀ term j, (∃ p : nat, (d ++ [i]) !! p = Some j ∧ leads (k0 + p) j term) ↔
    (∃ p : nat, d !! p = Some j ∧ leads (k0 + p) j term) ∨ (j = i ∧ leads k i term)) as Hsnoc.
  { intros term j. split.
    - intros (p & Hp & Hl). apply lookup_app_Some in Hp as [Hp|[Hge Hp]]; [left; by exists p|right].
      apply list_lookup_singleton_Some in Hp as [Hp0 <-]. split; [done|]. by replace k with (k0 + p)%nat by lia.
    - intros [(p & Hp & Hl)|[-> Hl]]; [exists p; split; [by apply lookup_app_l_Some|done]|].
      exists (length d). split; [by apply list_lookup_middle|]. by rewrite <-Hk. }
  destruct conn.
  - apply bind_Ret in Hr as ([term leader] & k3 & [Hs ->]%lift_Ret & Hr). injection Hr as <- <-. split; [|done].
    destruct leader.
    + split.
      * intros t l. rewrite lookup_insert_Some. intros [[_ <-]|[_ Hl]]; [by destruct (default _ _)|by eapply Hne].
      * intros t j. rewrite Hsnoc, <-Hin. destruct (decide (t = term)) as [->|Hd].
        -- rewrite lookup_insert_eq. cbn [from_option]; unfold id. rewrite elem_of_app, list_elem_of_singleton.
           unfold leads. naive_solver.
        -- rewrite lookup_insert_ne by done. split; [by left|]. intros [?|[_ [_ Hl]]]; [done|congruence].
    + split; [done|]. intros t j. rewrite Hsnoc, <-Hin. split; [by left|]. intros [?|[_ [_ Hl]]]; [done|congruence].
  - injection Hr as <- <-. split; [|done]. split; [done|]. intros t j. rewrite Hsnoc, <-Hin.
    split; [by left|]. intros [?|[_ [Hl _]]]; [done|congruence].
Qed.

Lemma last_term_max leaders term l : leaders !! term = Some l → term ≤ last_term leaders.
Proof.
  intros Hl. unfold last_term. apply elem_of_map_to_list in Hl. revert Hl. generalize (-1).
  induction (map_to_list leaders) as [|[t l'] ts IH]; intros z Hin; [by apply elem_of_nil in Hin|].
  assert (∀ ts z, z ≤ foldl (λ last (tl : Z * list Z), if last <? tl.1 then tl.1 else last) z ts) as Hmono.
  { clear. induction ts as [|[t l] ts IH]; intros z; simpl; [lia|].
    etransitivity; [|apply IH]. destruct (Z.ltb_spec z t); lia. }
  simpl. apply elem_of_cons in Hin as [[= <- <-]|Hin]; [|by apply IH].
  etransitivity; [|apply Hmono]. destruct (Z.ltb_spec z term); lia.
Qed.

Lemma one_leader_each leaders term l : two_leaders leaders = false → leaders !! term = Some l → (length l ≤ 1)%nat.
Proof.
  intros Ht Hl%elem_of_map_to_list%list_elem_of_In. unfold two_leaders in Ht.
  rewrite <-not_true_iff_false, existsb_exists in Ht.
  destruct (Nat.le_gt_cases (length l) 1); [done|]. destruct Ht. exists (term, l). split; [done|].
  apply Z.ltb_lt. simpl. lia.
Qed.

(** C38 [checkOneLeader] looks at all servers of the configuration in one pass, one
    after the other, and returns one that was connected and leader when it was looked
    at, in a term above that of every other server that was. *)
Theorem checkOneLeader_spec k i k' :
  checkOneLeader world k = Ret (i, k') →
  ∃ k0 term, (k < k0)%nat ∧ let m := n (world (pred k0)) in
    0 ≤ i < m ∧ leads (k0 + Z.to_nat i) i term ∧
    ∀ j term', 0 ≤ j < m → leads (k0 + Z.to_nat j) j term' → j = i ∨ term' < term.
Proof.
  clear clock. unfold checkOneLeader. generalize 10%nat. intros iters. revert k.
  induction iters as [|iters IH]; intros k; simpl; [done|].
  intros (c & k1 & [= <- <-] & Hr)%bind_Ret. apply bind_Ret in Hr as (leaders & k2 & Hfold & Hr).
  assert (leaders_of (S k) (seqZ 0 (n (world k))) leaders ∧ k2 = (S k + length (seqZ 0 (n (world k))))%nat) as [[Hne Hin] Hk2].
  { apply (t_fold_inv _ (λ d ls k2, leaders_of (S k) d ls ∧ k2 = (S k + length d)%nat)) in Hfold; [done| |].
    - split; [|simpl; lia]. split; [by intros ? ?; rewrite lookup_empty|]. intros t j. rewrite lookup_empty. simpl.
      split; [by intros ?%elem_of_nil|by intros (p & ? & _)].
    - intros d x rest ls k3 ls' k4 _ [Hl ->] Hs. eapply leaders_snoc in Hs as [Hs ->]; [|done|done].
      split; [done|]. rewrite length_app. simpl. lia. }
  destruct (two_leaders leaders) eqn:Htwo; [done|].
  destruct (negb (bool_decide (leaders = ∅))).
  2: { destruct (IH _ Hr) as (k0 & term & ? & Hrest). exists k0, term. split; [lia|done]. }
  apply lift_Ret in Hr as [[_ Hi]%index_Ret ->]. set (term := last_term leaders) in *.
  destruct (leaders !! term) as [l|] eqn:El; [|done]. cbn [from_option] in Hi; unfold id in Hi.
  assert (∀ p j, seqZ 0 (n (world k)) !! p = Some j → p = Z.to_nat j ∧ 0 ≤ j < n (world k)) as Hseq.
  { intros p j [-> Hp]%lookup_seqZ. lia. }
  destruct (proj1 (Hin term i)) as (p & Hp & Hlead).
  { rewrite El. by eapply list_elem_of_lookup_2. }
  destruct (Hseq p i Hp) as [-> Hi']. exists (S k), term. split; [lia|]. cbn [pred]. split; [done|]. split; [done|].
  intros j term' Hj Hlj.
  assert (j ∈ default [] (leaders !! term')) as Hjl.
  { apply Hin. exists (Z.to_nat j). split; [|done]. apply lookup_seqZ. lia. }
  destruct (leaders !! term') as [l'|] eqn:El'; [|by apply elem_of_nil in Hjl].
  pose proof (last_term_max _ _ _ El') as Hmax. fold term in Hmax.
  destruct (decide (term' = term)) as [->|]; [left|right; lia].
  pose proof (one_leader_each _ _ _ Htwo El) as Hlen. simplify_eq.
  destruct l as [|x [|y l]]; simpl in *; [done| |lia]. apply list_elem_of_singleton in Hjl. congruence.
Qed.
End checks.
