(* ===== verification/RaftNetProof.v ===== *)
(** * The tester of Raft: who can talk to whom, crashes and restarts

    The ends of the Raft tester are those of the key-value tester: [view] is its
    network as a configuration of that one. *)
From S2P Require Import Prelude GoStrings Utf8 Persister Raft Labrpc.
From S2P Require Harness.
From S2P Require Import HarnessProof HarnessRestart RaftTester.
#[local] Open Scope Z_scope.

Section links.
Context {R V : Type} `{EqDecision V} `{RaftLaws R (option V)} (rnd : nat → string) `{Inj nat string (=) (=) rnd}.
Context (gob_decode : string → option (Z * list (option V))).
Implicit Types (cfg : config R V) (rn : Network).

Definition view_of (rn : Network) (m : Z) (names : list (option (list string))) (k : nat) : Harness.config Z (KVServer R) :=
  Harness.mkConfig rn m ∅ (replicate (Z.to_nat m) None) ∅ (replicate (Z.to_nat m) None) names ∅ 0 0 k 0.
Definition view cfg : Harness.config Z (KVServer R) := view_of (net cfg) (n cfg) (endnames cfg) (drawn cfg).

(** Two loops whose states correspond; a loop that skips elements. *)
Lemma go_fold_hom {S S' A} (h : S → S') (f : S → A → go S) (f' : S' → A → go S') l s :
  (∀ s x, x ∈ l → f' (h s) x = (s' ← f s x; mret (h s'))) →
  go_fold f' l (h s) = (s' ← go_fold f l s; mret (h s')).
Proof.
  revert s. induction l as [|x l IH]; intros s Hf; simpl; [done|].
  rewrite Hf by by left. destruct (f s x) as [s1| | | |]; try done. simpl. apply IH. intros *. intros ?.
  apply Hf. by right.
Qed.
Lemma go_fold_skip {S A} (p : A → bool) (f g : S → A → go S) l s :
  (∀ s x, x ∈ l → f s x = if p x then g s x else mret s) →
  go_fold f l s = go_fold g (filter (λ x, p x = true) l) s.
Proof.
  revert s. induction l as [|x l IH]; intros s Hf; simpl; [done|]. rewrite Hf by by left.
  rewrite filter_cons. destruct (p x); case_decide; try done; simpl.
  - destruct (g s x); try done. simpl. apply IH. intros *. intros ?. apply Hf. by right.
  - apply IH. intros *. intros ?. apply Hf. by right.
Qed.

Lemma view_enable rn m names k i j b :
  Harness.enable_end (view_of rn m names k) i j b =
    (rn' ← enable_end names i j b rn; mret (view_of rn' m names k)).
Proof.
  unfold Harness.enable_end, enable_end. cbn [Harness.endnames view_of].
  destruct (index names i) as [row| | | |]; try done. simpl. by destruct (index (default [] row) j).
Qed.

(** A loop that sets the ends [g j] of the [j] that [p] chooses. *)
Lemma fold_links rn m names k (p : Z → bool) (g : Z → Z * Z) b (f : Network → Z → go Network) :
  let hc := view_of rn m names k in
  wf hc →
  (∀ rn j, 0 ≤ j < m → f rn j = if p j then enable_end names (g j).1 (g j).2 b rn else mret rn) →
  (∀ j, 0 ≤ j < m → p j = true → valid hc (g j).1 ∧ valid hc (g j).2 ∧ names !! Z.to_nat (g j).1 ≠ Some None) →
  ∃ rn', go_fold f (seqZ 0 m) rn = Ret rn' ∧ same_but_enabled hc (view_of rn' m names k) ∧
    ∀ a c, valid hc a → valid hc c → enabled_at (view_of rn' m names k) a c =
      if decide ((a, c) ∈ g <$> filter (λ j, p j = true) (seqZ 0 m)) then b else enabled_at hc a c.
Proof.
  intros hc Hw Hf Hg. set (l := filter (λ j, p j = true) (seqZ 0 m)).
  assert (∀ j, j ∈ l → 0 ≤ j < m ∧ p j = true) as Hl.
  { intros j [Hp Hj%elem_of_seqZ]%list_elem_of_filter. split; [lia|done]. }
  rewrite (go_fold_skip p f (λ rn j, enable_end names (g j).1 (g j).2 b rn)).
  2: { intros rn1 j Hj%elem_of_seqZ. apply Hf. lia. }
  destruct (fold_enable (λ hc j, Harness.enable_end hc (g j).1 (g j).2 b) g b l hc Hw) as (hc' & Hr & Hs & Hen).
  { done. }
  { intros j [Hj Hp]%Hl. by apply Hg. }
  unfold hc in Hr. rewrite (go_fold_hom (λ rn, view_of rn m names k) (λ rn j, enable_end names (g j).1 (g j).2 b rn)) in Hr.
  2: { intros rn1 j _. apply view_enable. }
  fold l. destruct (go_fold (λ rn j, enable_end names (g j).1 (g j).2 b rn) l rn) as [rn'| | | |]; try done.
  injection Hr as <-. exists rn'. split; [done|]. split; [done|exact Hen].
Qed.

Lemma elem_of_ends {m} (p : Z → bool) (g : Z → Z * Z) ac :
  ac ∈ g <$> filter (λ j, p j = true) (seqZ 0 m) ↔ ∃ j, 0 ≤ j < m ∧ p j = true ∧ ac = g j.
Proof.
  rewrite list_elem_of_fmap. split.
  - intros (j & -> & [Hp Hj%elem_of_seqZ]%list_elem_of_filter). exists j. split_and!; [lia..|done|done].
  - intros (j & Hj & Hp & ->). exists j. split; [done|]. apply list_elem_of_filter. split; [done|].
    apply elem_of_seqZ. lia.
Qed.

(** ** The invariant *)
Definition conn cfg (i : Z) : bool := default false (connected cfg !! Z.to_nat i).
Record tester_ok cfg : Prop := {
  tk_sane : sane rnd (view cfg);
  tk_conn : length (connected cfg) = Z.to_nat (n cfg);
  tk_row a : conn cfg a = true → endnames cfg !! Z.to_nat a ≠ Some None;
  tk_links a c : valid (view cfg) a → valid (view cfg) c → enabled_at (view cfg) a c = conn cfg a && conn cfg c;
  tk_rafts : length (rafts cfg) = Z.to_nat (n cfg);
  tk_raft k q : rafts cfg !! k = Some (Some q) → is_Some (instances cfg !! q);
  tk_saved : length (saved cfg) = Z.to_nat (n cfg);
  tk_persister k q : saved cfg !! k = Some (Some q) → is_Some (persisters cfg !! q);
  tk_logs : length (logs cfg) = Z.to_nat (n cfg);
  tk_applied : length (lastApplied cfg) = Z.to_nat (n cfg);
  tk_alloc q : (allocated cfg ≤ q)%nat → persisters cfg !! q = None ∧ instances cfg !! q = None;
}.

Lemma sane_view rn m names k rn' : same_but_enabled (view_of rn m names k) (view_of rn' m names k) →
  sane rnd (view_of rn m names k) → sane rnd (view_of rn' m names k).
Proof. intros. by eapply same_sane. Qed.

Lemma tester_ok_net cfg rn l :
  tester_ok cfg → same_but_enabled (view cfg) (view_of rn (n cfg) (endnames cfg) (drawn cfg)) →
  length l = Z.to_nat (n cfg) →
  (∀ a, default false (l !! Z.to_nat a) = true → endnames cfg !! Z.to_nat a ≠ Some None) →
  (∀ a c, valid (view cfg) a → valid (view cfg) c →
    enabled_at (view_of rn (n cfg) (endnames cfg) (drawn cfg)) a c =
      default false (l !! Z.to_nat a) && default false (l !! Z.to_nat c)) →
  tester_ok (with_net cfg rn l).
Proof. intros [] Hs Hl Hr He. split; try done. by eapply sane_view. Qed.

(** Two loops in a row, over row [i] and column [i]. *)
Lemma two_loops_links cfg i (p1 p2 : Z → bool) b (f1 f2 : Network → Z → go Network) :
  let names := endnames cfg in
  wf (view cfg) → valid (view cfg) i →
  (∀ rn j, 0 ≤ j < n cfg → f1 rn j = if p1 j then enable_end names i j b rn else mret rn) →
  (∀ rn j, 0 ≤ j < n cfg → f2 rn j = if p2 j then enable_end names j i b rn else mret rn) →
  (∀ j, 0 ≤ j < n cfg → p1 j = true → names !! Z.to_nat i ≠ Some None) →
  (∀ j, 0 ≤ j < n cfg → p2 j = true → names !! Z.to_nat j ≠ Some None) →
  ∃ rn', (rn ← go_fold f1 (seqZ 0 (n cfg)) (net cfg); go_fold f2 (seqZ 0 (n cfg)) rn) = Ret rn' ∧
    same_but_enabled (view cfg) (view_of rn' (n cfg) names (drawn cfg)) ∧
    ∀ a c, valid (view cfg) a → valid (view cfg) c → enabled_at (view_of rn' (n cfg) names (drawn cfg)) a c =
      if decide ((a = i ∧ p1 c = true) ∨ (c = i ∧ p2 a = true)) then b else enabled_at (view cfg) a c.
Proof.
  intros names Hw Hi Hf1 Hf2 Hp1 Hp2.
  destruct (fold_links (net cfg) (n cfg) names (drawn cfg) p1 (λ j, (i, j)) b f1) as (rn1 & -> & Hs1 & He1);
    [done|done| |].
  { intros j Hj Hp. split_and!; [done|exact Hj|by eapply Hp1]. }
  destruct (fold_links rn1 (n cfg) names (drawn cfg) p2 (λ j, (j, i)) b f2) as (rn2 & Hr & Hs2 & He2);
    [by eapply same_wf|done| |].
  { intros j Hj Hp. split_and!; [exact Hj|done|by apply Hp2]. }
  exists rn2. go_step. split; [done|]. split; [by eapply same_trans|]. intros a c Ha Hc.
  rewrite He2, He1 by done. pose proof (@elem_of_ends (n cfg) p1 (λ j, (i, j)) (a, c)) as E1.
  pose proof (@elem_of_ends (n cfg) p2 (λ j, (j, i)) (a, c)) as E2.
  repeat case_decide; try done; exfalso; unfold valid in Ha, Hc; cbn in Ha, Hc; naive_solver.
Qed.

Lemma conn_insert cfg i b a :
  tester_ok cfg → valid (view cfg) i →
  default false (<[Z.to_nat i := b]> (connected cfg) !! Z.to_nat a) =
    if decide (Z.to_nat a = Z.to_nat i) then b else conn cfg a.
Proof.
  intros Hok Hi. unfold conn. case_decide as Hd.
  - rewrite Hd, list_lookup_insert_eq; [done|]. rewrite (tk_conn cfg Hok). unfold valid in Hi. cbn in Hi. lia.
  - by rewrite list_lookup_insert_ne.
Qed.

Lemma index_conn (l : list bool) m j :
  length l = Z.to_nat m → 0 ≤ j < m → index l j = Ret (default false (l !! Z.to_nat j)).
Proof.
  intros Hl Hj. destruct (lookup_lt_is_Some_2 l (Z.to_nat j)) as [b Hb]; [lia|]. rewrite Hb.
  apply index_Ret. split; [lia|done].
Qed.
Lemma index_row cfg j : tester_ok cfg → 0 ≤ j < n cfg →
  ∃ row, index (endnames cfg) j = Ret row ∧ endnames cfg !! Z.to_nat j = Some row.
Proof.
  intros Hok Hj. destruct (lookup_lt_is_Some_2 (endnames cfg) (Z.to_nat j)) as [row Hr].
  { pose proof (wf_rows _ (sn_wf _ _ (tk_sane cfg Hok))) as Hl. cbn in Hl. lia. }
  exists row. split; [|done]. apply index_Ret. split; [lia|done].
Qed.

Lemma connect_spec cfg i :
  tester_ok cfg → valid (view cfg) i → endnames cfg !! Z.to_nat i ≠ Some None →
  ∃ rn', connect cfg i = Ret (with_net cfg rn' (<[Z.to_nat i := true]> (connected cfg))) ∧
    tester_ok (with_net cfg rn' (<[Z.to_nat i := true]> (connected cfg))) ∧
    same_but_enabled (view cfg) (view_of rn' (n cfg) (endnames cfg) (drawn cfg)).
Proof.
  intros Hok Hi Hrow. unfold connect. pose proof Hi as Hi'. unfold valid in Hi'. cbn in Hi'.
  rewrite store_lt by (rewrite tk_conn by done; lia). go_step.
  set (l := <[Z.to_nat i := true]> (connected cfg)).
  assert (length l = Z.to_nat (n cfg)) as Hl by (unfold l; rewrite length_insert; apply Hok).
  set (p := λ j : Z, default false (l !! Z.to_nat j)).
  assert (∀ j, 0 ≤ j < n cfg → p j = true → endnames cfg !! Z.to_nat j ≠ Some None) as Hrows.
  { intros j Hj. unfold p, l. rewrite conn_insert by done. case_decide as Hd; [by rewrite Hd|].
    intros Hc. by apply (tk_row cfg Hok). }
  destruct (two_loops_links cfg i p p true
    (λ rn j, c ← index l j; if (c : bool) then enable_end (endnames cfg) i j true rn else mret rn)
    (λ rn j, c ← index l j; if (c : bool) then enable_end (endnames cfg) j i true rn else mret rn))
    as (rn' & Hr & Hs & He); [apply Hok|done| | |done|done|].
  1-2: intros rn j Hj; by rewrite (index_conn l (n cfg)).
  exists rn'. destruct (go_fold _ (seqZ 0 (n cfg)) (net cfg)) as [rn1| | | |]; try done.
  go_step in Hr; go_step. rewrite Hr. go_step. split; [done|]. split; [|done].
  apply tester_ok_net; try done.
  - intros a Ha. unfold l in Ha. rewrite conn_insert in Ha by done. case_decide as Hd; [by rewrite Hd|].
    by apply (tk_row cfg Hok).
  - intros a c Ha Hc. rewrite He by done. unfold p, l. rewrite !conn_insert by done.
    rewrite (tk_links cfg Hok) by done. unfold valid in *. cbn in *.
    repeat case_decide; destruct (conn cfg a), (conn cfg c); try done; exfalso; intuition (try lia; try done).
Qed.

Lemma disconnect_spec cfg i :
  tester_ok cfg → valid (view cfg) i →
  ∃ rn', disconnect cfg i = Ret (with_net cfg rn' (<[Z.to_nat i := false]> (connected cfg))) ∧
    tester_ok (with_net cfg rn' (<[Z.to_nat i := false]> (connected cfg))) ∧
    same_but_enabled (view cfg) (view_of rn' (n cfg) (endnames cfg) (drawn cfg)).
Proof.
  intros Hok Hi. unfold disconnect. pose proof Hi as Hi'. unfold valid in Hi'. cbn in Hi'.
  rewrite store_lt by (rewrite tk_conn by done; lia). go_step.
  set (l := <[Z.to_nat i := false]> (connected cfg)).
  set (p := λ j : Z, negb (bool_decide (endnames cfg !! Z.to_nat j = Some None))).
  assert (∀ j, p j = true → endnames cfg !! Z.to_nat j ≠ Some None) as Hrows.
  { intros j Hp. by apply negb_true_iff, bool_decide_eq_false in Hp. }
  destruct (two_loops_links cfg i (λ _, p i) p false
    (λ rn j, row ← index (endnames cfg) i; if decide (row = None) then mret rn else enable_end (endnames cfg) i j false rn)
    (λ rn j, row ← index (endnames cfg) j; if decide (row = None) then mret rn else enable_end (endnames cfg) j i false rn))
    as (rn' & Hr & Hs & He); [apply Hok|done| | |intros; by apply Hrows|intros; by apply Hrows|].
  { intros rn j Hj. destruct (index_row cfg i Hok Hi') as (row & -> & Hrow). go_step.
    unfold p. rewrite Hrow. destruct row; simpl; rewrite ?decide_True by done; done. }
  { intros rn j Hj. destruct (index_row cfg j Hok Hj) as (row & -> & Hrow). go_step.
    unfold p. rewrite Hrow. destruct row; simpl; rewrite ?decide_True by done; done. }
  exists rn'. destruct (go_fold _ (seqZ 0 (n cfg)) (net cfg)) as [rn1| | | |]; try done.
  go_step in Hr; go_step. rewrite Hr. go_step. split; [done|]. split; [|done].
  assert (∀ a, conn cfg a = true → p a = true) as Hcp.
  { intros a Ha. apply negb_true_iff, bool_decide_eq_false. by apply (tk_row cfg Hok). }
  apply tester_ok_net; [done|done|unfold l; rewrite length_insert; apply Hok| |].
  - intros a Ha. unfold l in Ha. rewrite conn_insert in Ha by done. case_decide as Hd; [done|].
    by apply (tk_row cfg Hok).
  - intros a c Ha Hc. rewrite He by done. unfold l. rewrite !conn_insert by done.
    rewrite (tk_links cfg Hok) by done. unfold valid in *. cbn in *.
    pose proof (Hcp a). pose proof (Hcp c).
    assert (∀ x, Z.to_nat x = Z.to_nat i → 0 ≤ x → x = i) as Hxi by lia.
    pose proof (Hxi a). pose proof (Hxi c).
    repeat case_decide; destruct (conn cfg a) eqn:Ea, (conn cfg c) eqn:Ec; try done; exfalso; naive_solver lia.
Qed.

(** ** Crashes *)
Lemma tester_ok_servers cfg rn :
  tester_ok cfg → ends rn = ends (net cfg) → enabled rn = enabled (net cfg) →
  tester_ok (with_net cfg rn (connected cfg)).
Proof.
  intros [] He Hen. split; try done.
  - apply (sane_net rnd (view cfg) rn); done.
  - intros a c Ha Hc. etransitivity; [|by apply tk_links0]. unfold enabled_at, name_of. cbn. by rewrite Hen.
Qed.

(** Server [i] gets a new persister with the contents [p]. *)
Definition with_persister cfg i (p : Persister) : config R V :=
  with_saved cfg (<[allocated cfg := p]> (persisters cfg)) (<[Z.to_nat i := Some (allocated cfg)]> (saved cfg)) (S (allocated cfg)).
Lemma tester_ok_persister cfg i p : tester_ok cfg → tester_ok (with_persister cfg i p).
Proof.
  intros []. split; try done; cbn.
  - by rewrite length_insert.
  - intros k q [(_ & [= <-] & _)|[_ Hk]]%list_lookup_insert_Some; [by rewrite lookup_insert_eq|].
    destruct (tk_persister0 k q Hk) as [x Hx]. destruct (decide (q = allocated cfg)) as [->|].
    + by rewrite lookup_insert_eq.
    + by rewrite lookup_insert_ne.
  - intros q Hq. rewrite lookup_insert_ne by lia. apply tk_alloc0. lia.
Qed.
Lemma store_saved cfg i x : tester_ok cfg → valid (view cfg) i → store (saved cfg) i x = Ret (<[Z.to_nat i := x]> (saved cfg)).
Proof. intros Hok Hi. apply store_lt. rewrite tk_saved by done. unfold valid in Hi. cbn in Hi. lia. Qed.

(** What is persisted for server [i]. *)
Definition persisted cfg (i : Z) : option Persister :=
  match saved cfg !! Z.to_nat i with Some (Some q) => persisters cfg !! q | _ => None end.
Lemma persisted_with cfg i p : tester_ok cfg → valid (view cfg) i → persisted (with_persister cfg i p) i = Some p.
Proof.
  intros Hok Hi. unfold persisted. cbn. unfold valid in Hi. cbn in Hi.
  rewrite list_lookup_insert_eq by (rewrite tk_saved by done; lia). by rewrite lookup_insert_eq.
Qed.
Lemma index_saved cfg i : tester_ok cfg → valid (view cfg) i →
  (persisted cfg i = None ∧ index (saved cfg) i = Ret None) ∨
  ∃ q p, persisted cfg i = Some p ∧ index (saved cfg) i = Ret (Some q) ∧ persisters cfg !! q = Some p.
Proof.
  intros Hok Hi. unfold valid in Hi. cbn in Hi. unfold persisted.
  destruct (lookup_lt_is_Some_2 (saved cfg) (Z.to_nat i)) as [ps Hps]; [rewrite tk_saved by done; lia|].
  assert (index (saved cfg) i = Ret ps) as -> by (apply index_Ret; split; [lia|done]). rewrite Hps.
  destruct ps as [q|]; [|by left]. destruct (tk_persister cfg Hok _ _ Hps) as [p Hp]. right. by exists q, p.
Qed.

Lemma copy_saved_ok cfg i : tester_ok cfg → valid (view cfg) i →
  copy_saved cfg i = Ret (match persisted cfg i with Some p => with_persister cfg i p | None => cfg end).
Proof.
  intros Hok Hi. unfold copy_saved. destruct (index_saved cfg i Hok Hi) as [[-> ->]|(q & p & -> & -> & Hp)]; [done|].
  go_step. rewrite Hp. cbn [deref mbind go_bind]. rewrite store_saved by done. go_step.
  by rewrite Copy_id.
Qed.
Lemma resave_ok cfg i : tester_ok cfg → valid (view cfg) i →
  resave cfg i = Ret (match persisted cfg i with Some p => with_persister cfg i p | None => cfg end).
Proof.
  intros Hok Hi. unfold resave. destruct (index_saved cfg i Hok Hi) as [[-> ->]|(q & p & -> & -> & Hp)]; [done|].
  go_step. rewrite Hp. cbn [deref mbind go_bind]. rewrite store_saved by done. go_step.
  rewrite Save_spec by (rewrite lookup_insert_eq; by eexists). go_step. rewrite insert_insert_eq.
  unfold ReadRaftState, ReadSnapshot. rewrite !clone_id. by destruct p.
Qed.

Lemma kill_raft_ok cfg i : tester_ok cfg → valid (view cfg) i →
  ∃ m, kill_raft cfg i = Ret (with_rafts cfg m (<[Z.to_nat i := None]> (rafts cfg)) (allocated cfg)) ∧
    tester_ok (with_rafts cfg m (<[Z.to_nat i := None]> (rafts cfg)) (allocated cfg)) ∧
    ∀ q, rafts cfg !! Z.to_nat i = Some (Some q) → ∃ r, instances cfg !! q = Some r ∧ m !! q = Some (Kill r).
Proof.
  intros Hok Hi. pose proof Hi as Hi'. unfold valid in Hi'. cbn in Hi'. unfold kill_raft.
  destruct (lookup_lt_is_Some_2 (rafts cfg) (Z.to_nat i)) as [rf Hrf]; [rewrite tk_rafts by done; lia|].
  assert (index (rafts cfg) i = Ret rf) as -> by (apply index_Ret; split; [lia|done]). go_step.
  assert (∀ m, (∀ q, is_Some (m !! q) ↔ is_Some (instances cfg !! q)) →
    tester_ok (with_rafts cfg m (<[Z.to_nat i := None]> (rafts cfg)) (allocated cfg))) as Hgoal.
  { intros m Hm. destruct Hok. split; try done; cbn.
    - by rewrite length_insert.
    - intros k q [(_ & [=] & _)|[_ Hk]]%list_lookup_insert_Some. apply Hm. by eapply tk_raft0.
    - intros q Hq. destruct (tk_alloc0 q Hq) as [? Hn]. split; [done|]. apply eq_None_not_Some.
      rewrite Hm, Hn. by intros [? ?]. }
  destruct rf as [q|].
  - destruct (tk_raft cfg Hok _ _ Hrf) as [r Hr]. rewrite Hr. cbn [deref mbind go_bind].
    rewrite store_lt by (rewrite tk_rafts by done; lia). go_step. eexists. split; [done|]. split.
    + apply Hgoal. intros k. destruct (decide (k = q)) as [->|].
      * rewrite lookup_insert_eq, Hr. split; by eexists.
      * by rewrite lookup_insert_ne.
    + intros q' Hq'. rewrite Hrf in Hq'. injection Hq' as <-. exists r. split; [done|]. by rewrite lookup_insert_eq.
  - exists (instances cfg). assert (<[Z.to_nat i := None]> (rafts cfg) = rafts cfg) as E by by apply list_insert_id.
    split_and!; [|by apply Hgoal|intros q'; by rewrite Hrf]. rewrite E. by destruct cfg.
Qed.

(** What [crash1] has done. *)
Record crashed cfg (i : Z) cfg' : Prop := {
  cr_ok : tester_ok cfg';
  cr_n : n cfg' = n cfg;
  cr_drawn : drawn cfg' = drawn cfg;
  cr_ends : ends (net cfg') = ends (net cfg);
  cr_endnames : endnames cfg' = endnames cfg;
  cr_connected : connected cfg' = <[Z.to_nat i := false]> (connected cfg);
  cr_server : servers (net cfg') = <[Itoa i := None]> (servers (net cfg));
  cr_persisted : persisted cfg' i = persisted cfg i;
  cr_raft : rafts cfg' = <[Z.to_nat i := None]> (rafts cfg);
  cr_logs : logs cfg' = logs cfg;
  cr_saved j : j ≠ Z.to_nat i → saved cfg' !! j = saved cfg !! j;
  cr_killed q : rafts cfg !! Z.to_nat i = Some (Some q) →
    ∃ r, instances cfg !! q = Some r ∧ instances cfg' !! q = Some (Kill r);
}.

Lemma persisted_opt cfg i : tester_ok cfg → valid (view cfg) i →
  let cfg' := match persisted cfg i with Some p => with_persister cfg i p | None => cfg end in
  tester_ok cfg' ∧ persisted cfg' i = persisted cfg i.
Proof.
  intros Hok Hi. simpl. destruct (persisted cfg i) as [p|] eqn:E; [|done].
  split; [by apply tester_ok_persister|by apply persisted_with].
Qed.

Lemma crash1_spec cfg i :
  tester_ok cfg → valid (view cfg) i → ∃ cfg', crash1 cfg i = Ret cfg' ∧ crashed cfg i cfg'.
Proof.
  intros Hok Hi. unfold crash1. destruct (disconnect_spec cfg i Hok Hi) as (rn' & -> & Hok1 & [mm [Hs _]]).
  go_step. apply (tester_ok_servers _ (DeleteServer (Itoa i) rn')) in Hok1; [|done..].
  assert (Hrn : ends rn' = ends (net cfg) ∧ servers rn' = servers (net cfg)).
  { injection Hs as ->. done. }
  cbn [net connected with_net] in *.
  match type of Hok1 with tester_ok ?c => set (cfg1 := c) in * end.
  assert (valid (view cfg1) i) as Hi1 by done.
  destruct (persisted_opt cfg1 i Hok1 Hi1) as [Hok2 Hp2]. rewrite copy_saved_ok by done. go_step.
  set (cfg2 := match persisted cfg1 i with Some p => with_persister cfg1 i p | None => cfg1 end) in *.
  assert (valid (view cfg2) i) as Hi2 by (unfold cfg2; by destruct (persisted cfg1 i)).
  destruct (kill_raft_ok cfg2 i Hok2 Hi2) as (m & -> & Hok3 & Hkill). go_step.
  match type of Hok3 with tester_ok ?c => set (cfg3 := c) in * end.
  destruct (persisted_opt cfg3 i Hok3 Hi2) as [Hok4 Hp4]. rewrite resave_ok by done.
  eexists. split; [done|]. set (cfg4 := match persisted cfg3 i with Some p => with_persister cfg3 i p | None => cfg3 end) in *.
  destruct Hrn as [Hends Hservers].
  assert (persisted cfg4 i = persisted cfg i) as Hpers.
  { rewrite Hp4. transitivity (persisted cfg2 i); [done|]. rewrite Hp2. done. }
  assert (∀ q, rafts cfg !! Z.to_nat i = Some (Some q) →
    ∃ r, instances cfg !! q = Some r ∧ instances cfg4 !! q = Some (Kill r)) as Hk4.
  { intros q Hq. destruct (Hkill q) as (r & Hr & Hm); [unfold cfg2; by destruct (persisted cfg1 i)|].
    exists r. split; [revert Hr; unfold cfg2; by destruct (persisted cfg1 i)|].
    unfold cfg4. by destruct (persisted cfg3 i). }
  clear Hp2 Hp4 Hok1 Hok2 Hok3 Hkill Hi2.
  split; try done; clear Hpers Hk4 Hok4; unfold cfg4; destruct (persisted cfg3 i); unfold cfg3, cfg2;
    destruct (persisted cfg1 i); cbn; rewrite ?Hservers; try done; intros j Hj; by rewrite ?list_lookup_insert_ne.
Qed.

(** ** Starts *)
Lemma make_ends_view cfg names :
  Harness.make_ends (view cfg) names = (rn ← make_ends names (net cfg); mret (Harness.with_net (view cfg) rn)).
Proof.
  unfold Harness.make_ends, make_ends.
  refine (go_fold_hom (λ rn, Harness.with_net (view cfg) rn)
    (λ rn js, rn ← MakeEnd js.2 rn; mret (Connect js.2 (Itoa (Z.of_nat js.1)) rn)) _ (imap pair names) (net cfg) _).
  intros rn [j s] _. cbn [fst snd Harness.net Harness.with_net]. by destruct (MakeEnd s rn).
Qed.

Lemma sane_new_ends cfg i names rn k :
  sane rnd (view cfg) → valid (view cfg) i → NoDup names → length names = Z.to_nat (n cfg) →
  (∀ s, s ∈ names → s ∉ ends (net cfg)) → ends rn = list_to_set names ∪ ends (net cfg) →
  (∀ d, (k ≤ d)%nat → (rnd d ∉ names) ∧ (drawn cfg ≤ d)%nat) →
  sane rnd (view_of rn (n cfg) (<[Z.to_nat i := Some names]> (endnames cfg)) k).
Proof.
  intros Hs Hi HN Hl Hfresh He Hd. pose proof Hs as []. split; try done.
  - eapply (wf_insert (view cfg) _ i names); try done. intros a c s (nm & Hr & Hin)%name_of_row Hin'.
    eapply Hfresh; [done|]. by eapply sn_ends.
  - cbn. rewrite He. intros j nm s. set_unfold.
    intros [(_ & [= <-] & _)|[_ Hj]]%list_lookup_insert_Some Hs'; [by left|right]. by eapply sn_ends.
  - cbn. intros d Hd'. destruct (Hd d Hd') as [Hd1 Hd2]. rewrite He. set_unfold. intros [?|?]; [done|].
    by eapply sn_fresh.
Qed.

Lemma tester_ok_ends cfg i :
  tester_ok cfg → valid (view cfg) i → conn cfg i = false →
  let names := rnd <$> seq (drawn cfg) (Z.to_nat (n cfg)) in
  ∃ rn, make_ends names (net cfg) = Ret rn ∧ servers rn = servers (net cfg) ∧
    tester_ok (with_ends cfg rn (<[Z.to_nat i := Some names]> (endnames cfg)) (drawn cfg + Z.to_nat (n cfg))) ∧
    (∀ s, s ∈ names → s ∉ ends (net cfg)) ∧ (∀ s, s ∉ names → enabled rn !! s = enabled (net cfg) !! s).
Proof.
  intros Hok Hi Hci names.
  assert (∀ s, s ∈ names → s ∉ ends (net cfg)) as Hfresh.
  { intros s (d & -> & Hd%elem_of_seq)%list_elem_of_fmap. apply (sn_fresh _ _ (tk_sane cfg Hok)). cbn. lia. }
  assert (NoDup names) as HN by apply (rnd_names_NoDup rnd).
  destruct (make_ends_spec rnd (view cfg) names HN Hfresh) as (rn & Hr & Hem).
  rewrite make_ends_view in Hr. destruct (make_ends names (net cfg)) as [rn0| | | |]; try done.
  go_step in Hr. injection Hr as E. exists rn. destruct Hem as [E1 E2 E3 E4 _ _].
  split; [by rewrite E|]. split; [done|]. split; [|split; [done|exact E4]].
  assert (length names = Z.to_nat (n cfg)) as Hlen by (unfold names; by rewrite length_fmap, length_seq).
  pose proof Hi as Hi'. unfold valid in Hi'. cbn in Hi'.
  destruct Hok. split; try done.
  - apply (sane_new_ends cfg i names); try done. intros d Hd. cbn in Hd. split; [|lia].
    intros (d' & Ed%(inj rnd) & Hd'%elem_of_seq)%list_elem_of_fmap. lia.
  - cbn. intros a Ha. destruct (decide (Z.to_nat a = Z.to_nat i)) as [->|Hne].
    + rewrite list_lookup_insert_eq; [done|]. pose proof (wf_rows _ (sn_wf _ _ tk_sane0)) as Hrows. cbn in Hrows. lia.
    + rewrite list_lookup_insert_ne by done. by apply tk_row0.
  - intros a c Ha Hc. unfold enabled_at.
    rewrite (name_of_insert (view cfg) (view (with_ends cfg rn _ _)) i names); [|done|apply tk_sane0|done|done].
    change (conn (with_ends _ _ _ _)) with (conn cfg). cbn [Harness.net view view_of net with_ends].
    case_decide as Hd.
    + subst a. rewrite Hci. cbn [andb]. destruct (names !! Z.to_nat c) as [s|] eqn:Es; [|done].
      by rewrite (E3 s) by by eapply list_elem_of_lookup_2.
    + rewrite <-(tk_links0 a c) by done. unfold enabled_at. destruct (name_of (view cfg) a c) as [s|] eqn:Es; [|done].
      cbn. rewrite E4; [done|]. intros Hin. apply name_of_row in Es as (nm & Hr & Hs').
      eapply Hfresh; [done|]. by eapply (sn_ends _ _ tk_sane0).
Qed.

Lemma tester_ok_logs cfg l la mx :
  tester_ok cfg → length l = Z.to_nat (n cfg) → length la = Z.to_nat (n cfg) → tester_ok (with_logs cfg l la mx).
Proof. intros [] Hl Hla. by split. Qed.

(** The snapshot that a server finds can be decoded. *)
Definition loadable cfg (i : Z) : Prop :=
  ∀ p, persisted cfg i = Some p → snapshot p = "" ∨ is_Some (gob_decode (snapshot p)).
Lemma load_saved_ok cfg i :
  tester_ok cfg → valid (view cfg) i → loadable cfg i →
  ∃ cfg', load_saved gob_decode cfg i = Ret cfg' ∧ tester_ok cfg' ∧
    persisted cfg' i = Some (default MakePersister (persisted cfg i)) ∧
    n cfg' = n cfg ∧ net cfg' = net cfg ∧ connected cfg' = connected cfg ∧ endnames cfg' = endnames cfg ∧
    drawn cfg' = drawn cfg ∧ rafts cfg' = rafts cfg ∧ instances cfg' = instances cfg ∧
    ∀ j, j ≠ Z.to_nat i → saved cfg' !! j = saved cfg !! j.
Proof.
  intros Hok Hi Hload. pose proof Hi as Hi'. unfold valid in Hi'. cbn in Hi'. unfold load_saved.
  destruct (index_saved cfg i Hok Hi) as [[Ep ->]|(q & p & Ep & -> & Hp)]; go_step.
  - rewrite store_saved by done. go_step. eexists. split; [done|]. rewrite Ep. cbn [default].
    split; [by apply tester_ok_persister|]. split; [by apply persisted_with|]. split_and!; try done.
    intros j Hj. cbn. by rewrite list_lookup_insert_ne.
  - rewrite copy_saved_ok by done. rewrite Ep. go_step.
    pose proof (tester_ok_persister cfg i p Hok) as Hok'.
    set (cfg1 := with_persister cfg i p) in *. pose proof (persisted_with cfg i p Hok Hi) as Hp1. fold cfg1 in Hp1.
    destruct (index_saved cfg1 i Hok' Hi) as [[E _]|(q1 & p1 & E & -> & Hq1)]; [congruence|].
    assert (∀ j, j ≠ Z.to_nat i → saved cfg1 !! j = saved cfg !! j) as Hoth.
    { intros j Hj. cbn. by rewrite list_lookup_insert_ne. }
    rewrite Hp1 in E. injection E as <-. cbn [mbind go_bind option_bind]. rewrite Hq1. cbn [deref mbind go_bind].
    unfold ReadSnapshot. rewrite clone_id. destruct (Z.ltb_spec 0 (Z.of_nat (String.length (snapshot p)))) as [Hlt|].
    + destruct (Hload p Ep) as [E|[[last xlog] Hdec]]; [rewrite E in Hlt; simpl in Hlt; lia|].
      unfold ingestSnap. rewrite Hdec. cbn [negb andb Z.eqb Pos.eqb].
      rewrite (store_lt (logs cfg1)) by (cbn; rewrite (tk_logs cfg Hok); lia). go_step.
      rewrite (store_lt (lastApplied cfg1)) by (cbn; rewrite (tk_applied cfg Hok); lia). go_step.
      eexists. split; [done|]. split; [|done]. apply tester_ok_logs; [done|..]; rewrite length_insert; apply Hok'.
    + eexists. split; [done|]. done.
Qed.

Lemma load_saved_fatal cfg i p :
  tester_ok cfg → valid (view cfg) i → persisted cfg i = Some p → snapshot p ≠ "" → gob_decode (snapshot p) = None →
  load_saved gob_decode cfg i = Fatal.
Proof.
  intros Hok Hi Hp Hne Hdec. unfold load_saved.
  destruct (index_saved cfg i Hok Hi) as [[Ep _]|(q & p' & Ep & -> & _)]; [congruence|]. go_step.
  rewrite copy_saved_ok by done. rewrite Hp. go_step.
  pose proof (tester_ok_persister cfg i p Hok) as Hok'. pose proof (persisted_with cfg i p Hok Hi) as Hp1.
  set (cfg1 := with_persister cfg i p) in *.
  destruct (index_saved cfg1 i Hok' Hi) as [[E _]|(q1 & p1 & E & -> & Hq1)]; [congruence|].
  rewrite Hp1 in E. injection E as <-. cbn [mbind go_bind option_bind]. rewrite Hq1. cbn [deref mbind go_bind].
  unfold ReadSnapshot. rewrite clone_id. rewrite (proj2 (Z.ltb_lt _ _)).
  - unfold ingestSnap. by rewrite Hdec.
  - destruct (snapshot p); [done|]. simpl. lia.
Qed.

Lemma tester_ok_raft cfg i r :
  tester_ok cfg → tester_ok (with_rafts cfg (<[allocated cfg := r]> (instances cfg))
    (<[Z.to_nat i := Some (allocated cfg)]> (rafts cfg)) (S (allocated cfg))).
Proof.
  intros []. split; try done; cbn.
  - by rewrite length_insert.
  - intros k q [(_ & [= <-] & _)|[_ Hk]]%list_lookup_insert_Some; [by rewrite lookup_insert_eq|].
    destruct (tk_raft0 k q Hk) as [x Hx]. destruct (decide (q = allocated cfg)) as [->|].
    + by rewrite lookup_insert_eq.
    + by rewrite lookup_insert_ne.
  - intros q Hq. rewrite lookup_insert_ne by lia. apply tk_alloc0. lia.
Qed.

Lemma start1_cases cfg i :
  tester_ok cfg → valid (view cfg) i →
  (∀ p, persisted cfg i = Some p → snapshot p ≠ "" → gob_decode (snapshot p) = None →
     start1 rnd gob_decode cfg i = Fatal) ∧
  (loadable cfg i → ∃ cfg' k names, start1 rnd gob_decode cfg i = Ret cfg' ∧ tester_ok cfg' ∧ n cfg' = n cfg ∧
    connected cfg' = <[Z.to_nat i := false]> (connected cfg) ∧
    endnames cfg' = <[Z.to_nat i := Some names]> (endnames cfg) ∧ (∀ s, s ∈ names → s ∉ ends (net cfg)) ∧
    persisted cfg' i = Some (default MakePersister (persisted cfg i)) ∧
    rafts cfg' = <[Z.to_nat i := Some k]> (rafts cfg) ∧ servers (net cfg') !! Itoa i = Some (Some k) ∧
    (∃ r, instances cfg' !! k = Some r ∧ rf_alive r = true) ∧
    (∀ j, j ≠ Z.to_nat i → saved cfg' !! j = saved cfg !! j) ∧
    (∀ q, rafts cfg !! Z.to_nat i = Some (Some q) → ∃ r, instances cfg !! q = Some r ∧ instances cfg' !! q = Some (Kill r))).
Proof.
  intros Hok Hi. unfold start1. destruct (crash1_spec cfg i Hok Hi) as (cfg1 & -> & Hcr).
  go_step. pose proof (cr_ok _ _ _ Hcr) as Hok1.
  assert (valid (view cfg1) i) as Hi1.
  { unfold valid in *. cbn in *. by rewrite (cr_n _ _ _ Hcr). }
  assert (conn cfg1 i = false) as Hc1.
  { unfold conn. rewrite (cr_connected _ _ _ Hcr), conn_insert by done. by rewrite decide_True. }
  pose proof Hi1 as Hi'. unfold valid in Hi'. cbn in Hi'.
  rewrite store_lt.
  2: { pose proof (wf_rows _ (sn_wf _ _ (tk_sane cfg1 Hok1))) as Hrows. cbn in Hrows. lia. }
  go_step. destruct (tester_ok_ends cfg1 i Hok1 Hi1 Hc1) as (rn & -> & Hsv & Hok2 & Hfresh & _).
  set (names := rnd <$> seq (drawn cfg1) (Z.to_nat (n cfg1))) in *. go_step.
  match type of Hok2 with tester_ok ?c => set (cfg2 := c) in * end.
  rewrite store_lt by (cbn; rewrite (tk_applied cfg1 Hok1); lia). go_step.
  match goal with |- context [load_saved _ ?c i] => set (cfg3 := c) end.
  assert (tester_ok cfg3) as Hok3.
  { apply tester_ok_logs; [done|apply Hok2|]. rewrite length_insert. apply Hok2. }
  assert (persisted cfg3 i = persisted cfg i) as Hp3 by apply (cr_persisted _ _ _ Hcr).
  split.
  { intros p Hp Hne Hdec. rewrite (load_saved_fatal cfg3 i p); try done. by rewrite Hp3. }
  intros Hload. destruct (load_saved_ok cfg3 i Hok3 Hi1) as (cfg4 & -> & Hok4 & Hp4 & En & Enet & Ecn & Een & Edr & Erf & Ein & Esv).
  { intros p. rewrite Hp3. apply Hload. }
  go_step.
  assert (valid (view cfg4) i) as Hi4 by (unfold valid; cbn; by rewrite En).
  destruct (index_saved cfg4 i Hok4 Hi4) as [[E _]|(q & p & _ & -> & _)]; [by rewrite Hp4 in E|].
  cbn [mbind go_bind deref]. rewrite store_lt by (rewrite (tk_rafts cfg4 Hok4), En; cbn; lia).
  go_step.
  set (k := allocated cfg4). set (rf := Make names i q (persisters cfg4)).
  pose proof (tester_ok_raft cfg4 i rf Hok4) as Hok5. fold k in Hok5.
  match type of Hok5 with tester_ok ?c => set (cfg5 := c) in * end.
  pose proof (tester_ok_servers cfg5 (AddServer (Itoa i) k (net cfg5)) Hok5 eq_refl eq_refl) as Hok6.
  match type of Hok6 with tester_ok ?c => exists c, k, names end. split; [done|]. split; [done|]. cbn.
  split; [by rewrite En; cbn; apply (cr_n _ _ _ Hcr)|].
  split; [by rewrite Ecn; cbn; apply (cr_connected _ _ _ Hcr)|].
  split; [by rewrite Een; cbn; rewrite (cr_endnames _ _ _ Hcr)|].
  split; [by intros s Hs; rewrite <-(cr_ends _ _ _ Hcr); apply Hfresh|].
  split; [by rewrite <-Hp3; exact Hp4|].
  split; [by rewrite Erf; cbn; rewrite (cr_raft _ _ _ Hcr), list_insert_insert_eq|].
  split; [by rewrite lookup_insert_eq|].
  split; [exists rf; split; [by rewrite lookup_insert_eq|apply Make_alive]|].
  split; [by intros j Hj; rewrite Esv by done; apply (cr_saved _ _ _ Hcr)|].
  intros q0 Hq0. destruct (cr_killed _ _ _ Hcr q0 Hq0) as (r & Hr & Hr'). exists r. split; [done|].
  rewrite lookup_insert_ne; [by rewrite Ein|]. intros Hkq.
  destruct (tk_alloc cfg4 Hok4 k) as [_ Hnone]; [done|]. rewrite Hkq, Ein in Hnone. cbn in Hnone. congruence.
Qed.

Lemma start1_spec cfg i :
  tester_ok cfg → valid (view cfg) i → loadable cfg i →
  ∃ cfg' k names, start1 rnd gob_decode cfg i = Ret cfg' ∧ tester_ok cfg' ∧ n cfg' = n cfg ∧
    connected cfg' = <[Z.to_nat i := false]> (connected cfg) ∧
    endnames cfg' = <[Z.to_nat i := Some names]> (endnames cfg) ∧ (∀ s, s ∈ names → s ∉ ends (net cfg)) ∧
    persisted cfg' i = Some (default MakePersister (persisted cfg i)) ∧
    rafts cfg' = <[Z.to_nat i := Some k]> (rafts cfg) ∧ servers (net cfg') !! Itoa i = Some (Some k) ∧
    (∃ r, instances cfg' !! k = Some r ∧ rf_alive r = true) ∧
    (∀ j, j ≠ Z.to_nat i → saved cfg' !! j = saved cfg !! j) ∧
    (∀ q, rafts cfg !! Z.to_nat i = Some (Some q) → ∃ r, instances cfg !! q = Some r ∧ instances cfg' !! q = Some (Kill r)).
Proof. intros Hok Hi. by apply start1_cases. Qed.

Lemma go_fold_panics {S A} (f : S → A → go S) l s :
  (∀ x, x ∈ l → f s x = Ret s ∨ f s x = Panic) → Exists (λ x, f s x = Panic) l → go_fold f l s = Panic.
Proof.
  induction l as [|x l IH]; intros Hall Hex; [by apply Exists_nil in Hex|]. cbn [go_fold].
  destruct (Hall x ltac:(left)) as [E|E]; rewrite E; go_step; [|done].
  apply IH; [intros y Hy; apply Hall; by right|]. apply Exists_cons in Hex as [Hx|Hx]; [congruence|done].
Qed.

(** A server that has never been started has no ends. *)
Lemma connect_panics cfg i :
  tester_ok cfg → valid (view cfg) i → endnames cfg !! Z.to_nat i = Some None → connect cfg i = Panic.
Proof.
  intros Hok Hi Hrow. unfold connect. pose proof Hi as Hi'. unfold valid in Hi'. cbn in Hi'.
  rewrite store_lt by (rewrite tk_conn by done; lia). go_step.
  set (l := <[Z.to_nat i := true]> (connected cfg)).
  assert (length l = Z.to_nat (n cfg)) as Hl by (unfold l; rewrite length_insert; apply Hok).
  assert (∀ j, enable_end (endnames cfg) i j true (net cfg) = Panic) as Hp.
  { intros j. unfold enable_end. rewrite (proj2 (index_Ret _ _ _) (conj (proj1 Hi') Hrow)). go_step.
    cbn [default]. unfold index. by case_decide. }
  rewrite go_fold_panics; [done| |].
  - intros j Hj%elem_of_seqZ. rewrite (index_conn l (n cfg)) by (done || lia). go_step. rewrite Hp. case_match; auto.
  - apply Exists_exists. exists i. split; [apply elem_of_seqZ; lia|].
    rewrite (index_conn l (n cfg)) by done. go_step. unfold l. rewrite list_lookup_insert_eq; [apply Hp|].
    rewrite (tk_conn cfg Hok). lia.
Qed.

(** C36 In the Raft tester two servers can send to each other exactly when both
    are connected ([tk_links] of the invariant), and every operation keeps it:
    [connect] of a server that has been started (it panics on one that has no
    ends), [disconnect], [crash1], which also kills the peer and takes the server
    off the network, and [start1], which leaves a live peer with new ends and the
    persisted data under the server's name, not yet connected, if a snapshot that
    was saved can be decoded (otherwise it stops the process). *)
Theorem links_kept cfg i :
  tester_ok cfg → valid (view cfg) i →
  (∀ a c, valid (view cfg) a → valid (view cfg) c → enabled_at (view cfg) a c = conn cfg a && conn cfg c) ∧
  (endnames cfg !! Z.to_nat i ≠ Some None → ∃ cfg', connect cfg i = Ret cfg' ∧ tester_ok cfg' ∧
     connected cfg' = <[Z.to_nat i := true]> (connected cfg)) ∧
  (endnames cfg !! Z.to_nat i = Some None → connect cfg i = Panic) ∧
  (∃ cfg', disconnect cfg i = Ret cfg' ∧ tester_ok cfg' ∧ connected cfg' = <[Z.to_nat i := false]> (connected cfg)) ∧
  (∃ cfg', crash1 cfg i = Ret cfg' ∧ crashed cfg i cfg') ∧
  (loadable cfg i → ∃ cfg' k names, start1 rnd gob_decode cfg i = Ret cfg' ∧ tester_ok cfg' ∧ n cfg' = n cfg ∧
     connected cfg' = <[Z.to_nat i := false]> (connected cfg) ∧
     endnames cfg' = <[Z.to_nat i := Some names]> (endnames cfg) ∧ (∀ s, s ∈ names → s ∉ ends (net cfg)) ∧
     persisted cfg' i = Some (default MakePersister (persisted cfg i)) ∧
     rafts cfg' = <[Z.to_nat i := Some k]> (rafts cfg) ∧ servers (net cfg') !! Itoa i = Some (Some k) ∧
     (∃ r, instances cfg' !! k = Some r ∧ rf_alive r = true) ∧
     (∀ q, rafts cfg !! Z.to_nat i = Some (Some q) → ∃ r, instances cfg !! q = Some r ∧ instances cfg' !! q = Some (Kill r))) ∧
  (¬ loadable cfg i → start1 rnd gob_decode cfg i = Fatal).
Proof.
  intros Hok Hi. split_and!.
  - apply Hok.
  - intros Hrow. destruct (connect_spec cfg i Hok Hi Hrow) as (rn & Hr & Hok' & _). by eexists.
  - by apply connect_panics.
  - destruct (disconnect_spec cfg i Hok Hi) as (rn & Hr & Hok' & _). by eexists.
  - by apply crash1_spec.
  - intros Hload. destruct (start1_spec cfg i Hok Hi Hload) as (cfg' & k & names & Hst). exists cfg', k, names.
    intuition.
  - intros Hno. destruct (persisted cfg i) as [p|] eqn:Hp; [|by destruct Hno; intros p; rewrite Hp].
    destruct (decide (snapshot p = "")) as [Hs|Hs]; [by destruct Hno; intros p'; rewrite Hp; intros [= <-]; left|].
    destruct (gob_decode (snapshot p)) as [x|] eqn:Hd.
    + destruct Hno. intros p'. rewrite Hp. intros [= <-]. right. rewrite Hd. by eexists.
    + by apply (proj1 (start1_cases cfg i Hok Hi) p).
Qed.

(** ** The initial configuration *)
Lemma replicate_ok m (b : bool) rn :
  0 ≤ m → ends rn = ∅ → enabled rn = ∅ →
  tester_ok (mkConfig rn m ∅ (replicate (Z.to_nat m) None) (replicate (Z.to_nat m) "") (replicate (Z.to_nat m) false) ∅
    (replicate (Z.to_nat m) None) (replicate (Z.to_nat m) None) (replicate (Z.to_nat m) ∅) (replicate (Z.to_nat m) 0)
    0 false O O).
Proof.
  intros Hm He Hen.
  assert (∀ j (x : nat), replicate (Z.to_nat m) (@None nat) !! j = Some (Some x) → False) as Hnone.
  { by intros j x ?%replicate_None. }
  assert (∀ a : Z, default false (replicate (Z.to_nat m) false !! Z.to_nat a) = false) as Hconn.
  { intros a. destruct (replicate (Z.to_nat m) false !! Z.to_nat a) as [b'|] eqn:E; [|done].
    by apply lookup_replicate in E as [-> _]. }
  split; cbn; try by rewrite length_replicate.
  - split; cbn; try by rewrite length_replicate.
    + split; cbn; [done|by rewrite length_replicate|by intros ? ? ?%replicate_None|].
      by intros i j i' j' s _ _ _ _ (? & ?%replicate_None & _)%name_of_row.
    + by intros ? ? ? ?%replicate_None.
    + intros d _. rewrite He. apply not_elem_of_empty.
    + done.
    + by intros ? ? ?%replicate_None.
    + by intros ? ? ?%replicate_None.
  - intros a. unfold conn. cbn. by rewrite Hconn.
  - intros a c _ _. unfold conn. cbn. rewrite Hconn. cbn [andb].
    unfold enabled_at, name_of. cbn. destruct (replicate _ _ !! _) as [[row|]|] eqn:E; [|done..].
    by apply replicate_None in E.
  - by intros ? ? ?%replicate_None.
  - by intros ? ? ?%replicate_None.
  - done.
Qed.

(** [make_config]: every server runs and is connected to every server. *)
Lemma make_config_ok m unreliable :
  0 ≤ m →
  ∃ cfg, make_config rnd gob_decode m unreliable = Ret cfg ∧ tester_ok cfg ∧ n cfg = m ∧
    ∀ a, 0 ≤ a < m → conn cfg a = true.
Proof.
  intros Hm. unfold make_config. match goal with |- context [go_fold (start1 _ _) _ ?c] => set (cfg0 := c) end.
  assert (tester_ok cfg0) as Hok0 by by apply replicate_ok.
  pose (P (d : list Z) cfg := tester_ok cfg ∧ n cfg = m ∧
    (∀ j, Z.of_nat j ∉ d → saved cfg !! j = saved cfg0 !! j) ∧
    (∀ j, j ∈ d → endnames cfg !! Z.to_nat j ≠ Some None)).
  destruct (go_fold_inv (start1 rnd gob_decode) P (seqZ 0 m) cfg0) as (cfg1 & -> & Hok1 & Hn1 & _ & Hrow).
  { split_and!; try done. by intros j ?%elem_of_nil. }
  { intros d i rest cfg Hl (Hok & Hn & Hsv & Hrow).
    assert (0 ≤ i < m) as Hi by (assert (i ∈ seqZ 0 m) as Hi%elem_of_seqZ by (rewrite Hl; set_solver); lia).
    assert (i ∉ d) as Hid.
    { pose proof (NoDup_seqZ 0 m) as HN. rewrite Hl in HN. apply NoDup_app in HN as (_ & HN & _). set_solver. }
    destruct (start1_spec cfg i) as (cfg' & k & names & Hr & Hok' & Hn' & _ & He' & _ & _ & _ & _ & _ & Hsv' & _);
      [done|unfold valid; cbn; lia| |].
    { intros p. unfold persisted. rewrite Hsv by (by rewrite Z2Nat.id by lia).
      destruct (saved cfg0 !! Z.to_nat i) as [[q|]|] eqn:E; [|done..]. by apply replicate_None in E. }
    exists cfg'. split; [done|]. split_and!; [done|by rewrite Hn'| |].
    - intros j Hj. rewrite elem_of_app, list_elem_of_singleton in Hj. rewrite Hsv' by lia. apply Hsv. tauto.
    - intros j Hj. rewrite He'. destruct (decide (Z.to_nat j = Z.to_nat i)) as [->|Hne].
      + rewrite list_lookup_insert_eq; [done|].
        pose proof (wf_rows _ (sn_wf _ _ (tk_sane cfg Hok))) as Hrows. cbn in Hrows. lia.
      + rewrite list_lookup_insert_ne by done. apply Hrow. apply elem_of_app in Hj as [?|Ej%list_elem_of_singleton]; [done|].
        by subst j. }
  go_step.
  pose (Q (d : list Z) cfg := tester_ok cfg ∧ n cfg = m ∧ endnames cfg = endnames cfg1 ∧ ∀ j, j ∈ d → conn cfg j = true).
  destruct (go_fold_inv connect Q (seqZ 0 m) cfg1) as (cfg2 & -> & Hok2 & Hn2 & _ & Hc2).
  { split_and!; try done. by intros j ?%elem_of_nil. }
  { intros d i rest cfg Hl (Hok & Hn & He & Hc). assert (i ∈ seqZ 0 m) as Hin by (rewrite Hl; set_solver).
    destruct (connect_spec cfg i) as (rn & Hr & Hok' & _);
      [done|apply elem_of_seqZ in Hin; unfold valid; cbn; lia|rewrite He; by apply Hrow|].
    eexists. split; [done|]. split_and!; try done. intros j Hj. unfold conn. cbn.
    rewrite conn_insert by (done || (apply elem_of_seqZ in Hin; unfold valid; cbn; lia)).
    case_decide; [done|]. apply Hc. apply elem_of_app in Hj as [?|Ej%list_elem_of_singleton]; [done|]. by subst j. }
  exists cfg2. split; [done|]. split_and!; try done. intros a Ha. apply Hc2, elem_of_seqZ. lia.
Qed.
End links.
