(* ===== verification/RaftExample.v ===== *)
(** * The tester of Raft at work *)
From S2P Require Import Prelude GoStrings Persister Raft Labrpc HarnessProof HarnessRestart HarnessExample.
From S2P Require Import RaftTester RaftTesterProof RaftChecks RaftChecksProof RaftNetProof.
#[local] Open Scope Z_scope.

(** A peer that is leader of term 1 when it is [true], and accepts every command
    at index 1. *)
Module OneServer.
#[global] Instance api : RaftApi bool (option Z) := {|
  Make _ _ _ _ := true; GetState r := (1, r); Start r _ := (r, (1, 1, r));
  TakeSnapshot r _ _ := r; Kill r := r; rf_alive r := r; rf_persister _ := O |}.
Definition cfg : config bool Z :=
  mkConfig MakeNetwork 1 {[O := true]} [Some O] [""] [true] ∅ [None] [None] [{[1 := Some 5]}] [0] 1 false O 1.
Definition world (k : nat) : config bool Z := cfg.
Definition clock (k : nat) : Z := Z.of_nat k.

Definition msg (v : Z) : ApplyMsg (option Z) := mkApplyMsg true (Some v) 1 false None 0 0.
Definition empty : config bool Z :=
  mkConfig MakeNetwork 2 ∅ [None; None] [""; ""] [false; false] ∅ [None; None] [None; None] [∅; ∅] [0; 0] 0 false O O.
End OneServer.

Example one_sound_witness :
  ∃ k', one OneServer.world OneServer.clock 3 (Some 5) 1 false 0%nat = Ret (1, k') ∧
    one_result OneServer.world (Some 5) 1 0%nat 1 k'.
Proof.
  eexists. split; [vm_compute; reflexivity|]. apply (one_sound OneServer.world OneServer.clock 3 (Some 5) 1 false 0%nat 1).
  vm_compute. reflexivity.
Defined.

Example checkOneLeader_spec_witness :
  checkOneLeader OneServer.world 0%nat = Ret (0, 2%nat) ∧ ∃ k0 term, (0 < k0)%nat ∧
    let m := n (OneServer.world (pred k0)) in 0 ≤ 0 < m ∧ leads OneServer.world (k0 + Z.to_nat 0)%nat 0 term ∧
    ∀ j term', 0 ≤ j < m → leads OneServer.world (k0 + Z.to_nat j)%nat j term' → j = 0 ∨ term' < term.
Proof.
  assert (checkOneLeader OneServer.world 0%nat = Ret (0, 2%nat)) as Hr by (vm_compute; reflexivity).
  split; [exact Hr|]. exact (checkOneLeader_spec OneServer.world 0%nat 0 2%nat Hr).
Defined.

Example appliers_agree_witness :
  let start := mkWorld OneServer.empty [(0, Receiving); (1, Receiving)] false in
  ∃ w, rtc apply_step start w ∧ logs (cfg_of w) = [{[1 := Some 5]}; ∅] ∧
    (stopped w = true ∨ failing (appliers w) ∨ agree (logs (cfg_of w))).
Proof.
  assert (∃ w, rtc apply_step (mkWorld OneServer.empty [(0, Receiving); (1, Receiving)] false) w ∧
    logs (cfg_of w) = [{[1 := Some 5]}; ∅]) as (w & Hw & Hl).
  { eexists. split; [|shelve]. eapply rtc_l; [|apply rtc_refl].
    eapply (apply_checked _ _ 0%nat 0 (OneServer.msg 5)); [reflexivity|reflexivity|]. reflexivity. Unshelve. reflexivity. }
  exists w. split; [exact Hw|]. split; [exact Hl|].
  destruct (appliers_agree OneServer.empty [(0, Receiving); (1, Receiving)] w) as [?|[?|[? _]]];
    [|exact Hw|by left|by right; left|by right; right].
  intros [|[|i]] log Hi; simpl in Hi; by simplify_eq.
Defined.

Example links_kept_witness :
  ∃ cfg cfg', make_config (R := Outline.Raft) (V := Z) Three.name (λ _, None) 3 false = Ret cfg ∧
    crash1 cfg 1 = Ret cfg' ∧ connected cfg' = <[1%nat := false]> (connected cfg).
Proof.
  destruct (make_config_ok (R := Outline.Raft) (V := Z) Three.name (λ _, None) 3 false) as (cfg & Hr & Hok & Hn & _); [lia|].
  destruct (links_kept Three.name (λ _, None) cfg 1 Hok) as (_ & _ & _ & _ & (cfg' & Hc & Hcr) & _).
  { unfold valid. cbn. rewrite Hn. lia. }
  exists cfg, cfg'. exact (conj Hr (conj Hc (cr_connected _ _ _ _ Hcr))).
Defined.
