(* ===== verification/ShardClerk.v ===== *)
(** * The clerks of the sharded key-value service: [shardctrler/common.go],
    [shardctrler/client.go], [shardkv/common.go], [shardkv/client.go]

    A clerk asks servers over the network until it gets an answer that counts.
    What it has done is its history, a list of calls with their answers and of
    sleeps; a network is, for every RPC, the answer to a call made after a given
    history.  A client end is its name; the servers of a group are their names,
    for which [make_end], called at every request, gives an end. *)
From S2P Require Import Prelude GoStrings.
From stdpp Require Import vector.
#[local] Open Scope Z_scope.

(** ** shardctrler/common.go *)
Definition NShards : nat := 10.
Record Config := mkConfig { Num : Z; Shards : vec Z NShards; Groups : gmap Z (list string) }.
Definition zero_config : Config := mkConfig 0 (vreplicate NShards 0) ∅.

Record JoinArgs := mkJoinArgs { Servers : gmap Z (list string) }.
Record LeaveArgs := mkLeaveArgs { GIDs : list Z }.
Record MoveArgs := mkMoveArgs { Shard : Z; GID : Z }.
Record QueryArgs := mkQueryArgs { qa_Num : Z }.
(** [JoinReply], [LeaveReply] and [MoveReply]. *)
Record ChangeReply := mkChangeReply { c_WrongLeader : bool; c_Err : string }.
Record QueryReply := mkQueryReply { q_WrongLeader : bool; q_Err : string; q_Config : Config }.

(** ** shardkv/common.go *)
Definition OK : string := "OK".
Definition ErrNoKey : string := "ErrNoKey".
Definition ErrWrongGroup : string := "ErrWrongGroup".
Definition ErrWrongLeader : string := "ErrWrongLeader".
Record PutAppendArgs := mkPutAppendArgs { pa_Key : string; pa_Value : string; pa_Op : string }.
Record PutAppendReply := mkPutAppendReply { pr_Err : string }.
Record GetArgs := mkGetArgs { ga_Key : string }.
Record GetReply := mkGetReply { gr_Err : string; gr_Value : string }.

(** ** The network *)
Inductive event : Type :=
| EvSleep
| EvQuery (srv : string) (args : QueryArgs) (ok : bool) (reply : QueryReply)
| EvJoin (srv : string) (args : JoinArgs) (ok : bool) (reply : ChangeReply)
| EvLeave (srv : string) (args : LeaveArgs) (ok : bool) (reply : ChangeReply)
| EvMove (srv : string) (args : MoveArgs) (ok : bool) (reply : ChangeReply)
| EvGet (srv : string) (args : GetArgs) (ok : bool) (reply : GetReply)
| EvPutAppend (srv : string) (args : PutAppendArgs) (ok : bool) (reply : PutAppendReply).
Abbreviation history := (list event).

Record network : Type := mkNetwork {
  callQuery : history → string → QueryArgs → bool * QueryReply;
  callJoin : history → string → JoinArgs → bool * ChangeReply;
  callLeave : history → string → LeaveArgs → bool * ChangeReply;
  callMove : history → string → MoveArgs → bool * ChangeReply;
  callGet : history → string → GetArgs → bool * GetReply;
  callPutAppend : history → string → PutAppendArgs → bool * PutAppendReply;
}.

(** ** The loops of a clerk

    One request: how a server answers it, which answers end the loop over all
    rounds, which end a round, and the event of a call. *)
Record request (E Rep : Type) : Type := mkRequest {
  rq_call : history → E → bool * Rep;
  rq_final : Rep → bool;
  rq_break : Rep → bool;
  rq_event : E → bool → Rep → event;
}.
Arguments mkRequest {E Rep}.
Arguments rq_call {E Rep}.
Arguments rq_final {E Rep}.
Arguments rq_break {E Rep}.
Arguments rq_event {E Rep}.

Section loops.
Context {E Rep : Type} (rq : request E Rep).

(** [for _, srv := range servers] *)
Fixpoint try_each (servers : list E) (h : history) : option Rep * history :=
  match servers with
  | [] => (None, h)
  | srv :: servers =>
      let '(ok, reply) := rq_call rq h srv in
      let h := h ++ [rq_event rq srv ok reply] in
      if ok && rq_final rq reply then (Some reply, h) else
      if ok && rq_break rq reply then (None, h) else try_each servers h
  end.

(** The controller's loop: [fuel] bounds the rounds. *)
Fixpoint retry (fuel : nat) (servers : list E) (h : history) : go (Rep * history) :=
  match fuel with
  | O => NoFuel
  | S fuel =>
      match try_each servers h with
      | (Some reply, h) => mret (reply, h)
      | (None, h) => retry fuel servers (h ++ [EvSleep])
      end
  end.
End loops.

Section clerk.
Context (net : network).

(** ** shardctrler/client.go *)
Record CtrlerClerk := mkCtrlerClerk { ck_servers : list string }.
Definition MakeCtrlerClerk (servers : list string) : CtrlerClerk := mkCtrlerClerk servers.

Definition query_request (args : QueryArgs) : request string QueryReply := mkRequest
  (λ h srv, callQuery net h srv args) (λ r, negb (q_WrongLeader r)) (λ _, false) (λ srv, EvQuery srv args).
Definition join_request (args : JoinArgs) : request string ChangeReply := mkRequest
  (λ h srv, callJoin net h srv args) (λ r, negb (c_WrongLeader r)) (λ _, false) (λ srv, EvJoin srv args).
Definition leave_request (args : LeaveArgs) : request string ChangeReply := mkRequest
  (λ h srv, callLeave net h srv args) (λ r, negb (c_WrongLeader r)) (λ _, false) (λ srv, EvLeave srv args).
Definition move_request (args : MoveArgs) : request string ChangeReply := mkRequest
  (λ h srv, callMove net h srv args) (λ r, negb (c_WrongLeader r)) (λ _, false) (λ srv, EvMove srv args).

Definition Query (fuel : nat) (ck : CtrlerClerk) (num : Z) (h : history) : go (Config * history) :=
  r ← retry (query_request (mkQueryArgs num)) fuel (ck_servers ck) h;
  mret (q_Config r.1, r.2).
Definition Join (fuel : nat) (ck : CtrlerClerk) (servers : gmap Z (list string)) (h : history) : go history :=
  r ← retry (join_request (mkJoinArgs servers)) fuel (ck_servers ck) h; mret r.2.
Definition Leave (fuel : nat) (ck : CtrlerClerk) (gids : list Z) (h : history) : go history :=
  r ← retry (leave_request (mkLeaveArgs gids)) fuel (ck_servers ck) h; mret r.2.
Definition Move (fuel : nat) (ck : CtrlerClerk) (shard gid : Z) (h : history) : go history :=
  r ← retry (move_request (mkMoveArgs shard gid)) fuel (ck_servers ck) h; mret r.2.

(** ** shardkv/client.go *)
Definition key2shard (key : string) : Z :=
  let shard := match key with String a _ => byte_of a | EmptyString => 0 end in
  Z.rem shard (Z.of_nat NShards).

Record Clerk := mkClerk { sm : CtrlerClerk; ck_config : Config }.
Definition MakeClerk (ctrlers : list string) : Clerk := mkClerk (MakeCtrlerClerk ctrlers) zero_config.

Definition get_request (args : GetArgs) : request string GetReply := mkRequest
  (λ h srv, callGet net h srv args)
  (λ r, String.eqb (gr_Err r) OK || String.eqb (gr_Err r) ErrNoKey)
  (λ r, String.eqb (gr_Err r) ErrWrongGroup) (λ srv, EvGet srv args).
Definition put_request (args : PutAppendArgs) : request string PutAppendReply := mkRequest
  (λ h srv, callPutAppend net h srv args)
  (λ r, String.eqb (pr_Err r) OK) (λ r, String.eqb (pr_Err r) ErrWrongGroup) (λ srv, EvPutAppend srv args).

(** The loop of [Get] and of [PutAppend]. *)
Section kv_loop.
Context {Rep : Type} (rq : request string Rep).
Fixpoint kv_loop (fuel : nat) (ck : Clerk) (key : string) (h : history) : go (Rep * Clerk * history) :=
  match fuel with
  | O => NoFuel
  | S fuel =>
      gid ← index (vec_to_list (Shards (ck_config ck))) (key2shard key);
      let '(r, h) := match Groups (ck_config ck) !! gid with
        | Some servers => try_each rq servers h
        | None => (None, h)
        end in
      match r with
      | Some reply => mret (reply, ck, h)
      | None =>
          q ← Query fuel (sm ck) (-1) (h ++ [EvSleep]);
          kv_loop fuel (mkClerk (sm ck) q.1) key q.2
      end
  end.
End kv_loop.

Definition Get (fuel : nat) (ck : Clerk) (key : string) (h : history) : go (string * Clerk * history) :=
  r ← kv_loop (get_request (mkGetArgs key)) fuel ck key h;
  mret (gr_Value r.1.1, r.1.2, r.2).
Definition PutAppend (fuel : nat) (ck : Clerk) (key value op : string) (h : history) : go (Clerk * history) :=
  r ← kv_loop (put_request (mkPutAppendArgs key value op)) fuel ck key h;
  mret (r.1.2, r.2).
Definition Put fuel ck key value h := PutAppend fuel ck key value "Put" h.
Definition Append fuel ck key value h := PutAppend fuel ck key value "Append" h.
End clerk.
