(* ===== verification/ShardClerkProof.v ===== *)
(** * The clerks return the first answer that counts, and return once the
    service has settled *)
From S2P Require Import Prelude GoStrings ShardClerk.
From stdpp Require Import vector.
#[local] Open Scope Z_scope.

(** [key2shard] is an index of [Shards]. *)
Lemma key2shard_range key : 0 ≤ key2shard key < Z.of_nat NShards.
Proof.
  unfold key2shard. destruct key as [|a s]; [done|].
  apply Z.rem_bound_pos; [unfold byte_of; lia|done].
Qed.
Lemma shard_of (c : Config) key : ∃ gid, index (vec_to_list (Shards c)) (key2shard key) = Ret gid.
Proof. apply index_lt. rewrite length_vec_to_list. apply key2shard_range. Qed.

Section network.
Context (net : network).

(** ** Histories that the network can answer *)
Definition answered (h : history) (e : event) : Prop :=
  match e with
  | EvSleep => True
  | EvQuery srv args ok reply => callQuery net h srv args = (ok, reply)
  | EvJoin srv args ok reply => callJoin net h srv args = (ok, reply)
  | EvLeave srv args ok reply => callLeave net h srv args = (ok, reply)
  | EvMove srv args ok reply => callMove net h srv args = (ok, reply)
  | EvGet srv args ok reply => callGet net h srv args = (ok, reply)
  | EvPutAppend srv args ok reply => callPutAppend net h srv args = (ok, reply)
  end.
Inductive extends (h : history) : history → Prop :=
| extends_refl : extends h h
| extends_snoc h' e : extends h h' → answered h' e → extends h (h' ++ [e]).

Lemma extends_trans h1 h2 h3 : extends h1 h2 → extends h2 h3 → extends h1 h3.
Proof. intros H12. induction 1; [done|by constructor]. Qed.
Lemma extends_prefix h h' : extends h h' → ∃ evs, h' = h ++ evs.
Proof.
  induction 1 as [|h' e _ [evs ->] _]; [exists []; by rewrite app_nil_r|].
  exists (evs ++ [e]). by rewrite app_assoc.
Qed.

Definition is_sleep (e : event) : bool := match e with EvSleep => true | _ => false end.
Definition sleeps (h : history) : Z := count is_sleep h.
Lemma sleeps_snoc h e : sleeps (h ++ [e]) = sleeps h + Z.b2z (is_sleep e).
Proof. unfold sleeps. rewrite count_app. simpl. lia. Qed.
Lemma sleeps_extends h h' : extends h h' → sleeps h ≤ sleeps h'.
Proof. induction 1; [done|]. rewrite sleeps_snoc. destruct (is_sleep e); simpl; lia. Qed.

(** ** One round *)
Section request.
Context {E Rep : Type} (rq : request E Rep).
(** What the five requests have in common. *)
Record request_ok : Prop := {
  ro_event h srv : answered h (rq_event rq srv (rq_call rq h srv).1 (rq_call rq h srv).2);
  ro_inj srv ok rep srv' ok' rep' : rq_event rq srv ok rep = rq_event rq srv' ok' rep' →
    srv = srv' ∧ ok = ok' ∧ rep = rep';
  ro_sleep srv ok rep : is_sleep (rq_event rq srv ok rep) = false;
}.
Hypothesis Hrq : request_ok.

(** No final answer among the events. *)
Definition undecided (evs : list event) : Prop :=
  ∀ srv rep, rq_event rq srv true rep ∈ evs → rq_final rq rep = false.
Lemma undecided_nil : undecided [].
Proof. by intros srv rep ?%elem_of_nil. Qed.
Lemma undecided_app l1 l2 : undecided l1 → undecided l2 → undecided (l1 ++ l2).
Proof. intros H1 H2 srv rep [?|?]%elem_of_app; eauto. Qed.
Lemma undecided_one srv ok rep : ok && rq_final rq rep = false → undecided [rq_event rq srv ok rep].
Proof.
  intros Hf srv' rep' Heq%list_elem_of_singleton. apply (ro_inj Hrq) in Heq as (_ & <- & ->). done.
Qed.
Lemma undecided_sleep : undecided [EvSleep].
Proof.
  intros srv rep Heq%list_elem_of_singleton. pose proof (ro_sleep Hrq srv true rep) as Hs.
  by rewrite Heq in Hs.
Qed.

(** A round that ends with an answer was stopped by it; one that does not
    has seen none that counts. *)
Lemma try_each_spec servers h r h' :
  try_each rq servers h = (r, h') → extends h h' ∧ sleeps h' = sleeps h ∧ ∃ evs, h' = h ++ evs ∧
  match r with
  | Some rep => rq_final rq rep = true ∧ ∃ pre srv, evs = pre ++ [rq_event rq srv true rep] ∧
      srv ∈ servers ∧ undecided pre
  | None => undecided evs
  end.
Proof.
  revert h. induction servers as [|srv servers IH]; intros h.
  { intros [= <- <-]. split_and!; [constructor|done|]. exists []. split; [by rewrite app_nil_r|apply undecided_nil]. }
  cbn [try_each]. pose proof (ro_event Hrq h srv) as Ha.
  destruct (rq_call rq h srv) as [ok rep]. cbn [fst snd] in Ha.
  set (e := rq_event rq srv ok rep) in *.
  assert (extends h (h ++ [e])) as He by (constructor; [constructor|done]).
  assert (sleeps (h ++ [e]) = sleeps h) as Hs by (rewrite sleeps_snoc; unfold e; rewrite (ro_sleep Hrq); simpl; lia).
  destruct (ok && rq_final rq rep) eqn:Ef.
  { intros [= <- <-]. apply andb_true_iff in Ef as [-> Hf]. split_and!; [done|done|]. exists [e]. split; [done|].
    split; [done|]. exists [], srv. split_and!; [done|by left|apply undecided_nil]. }
  pose proof (undecided_one srv ok rep Ef) as Hu.
  destruct (ok && rq_break rq rep).
  { intros [= <- <-]. split_and!; [done|done|]. by exists [e]. }
  intros (Hx & Hs' & evs & -> & Hr)%IH. split_and!; [by eapply extends_trans|lia|].
  exists (e :: evs). rewrite <-app_assoc. split; [done|]. destruct r as [rep'|].
  - destruct Hr as (Hf & pre & srv' & -> & Hin & Hpre). split; [done|]. exists (e :: pre), srv'.
    split_and!; [done|by right|exact (undecided_app [e] pre Hu Hpre)].
  - exact (undecided_app [e] evs Hu Hr).
Qed.

Lemma try_each_final servers h k srv :
  srv ∈ servers → k ≤ sleeps h →
  (∀ h, k ≤ sleeps h → ∃ rep, rq_call rq h srv = (true, rep) ∧ rq_final rq rep = true) →
  (∀ h srv rep, k ≤ sleeps h → srv ∈ servers → rq_call rq h srv = (true, rep) → rq_break rq rep = false) →
  ∃ rep h', try_each rq servers h = (Some rep, h').
Proof.
  intros Hin Hk Hfin. revert h Hk Hin. induction servers as [|s servers IH]; intros h Hk Hin Hbr.
  { by apply elem_of_nil in Hin. }
  cbn [try_each]. destruct (rq_call rq h s) as [ok rep] eqn:Ec.
  destruct (ok && rq_final rq rep) eqn:Ef; [eauto|].
  destruct (ok && rq_break rq rep) eqn:Eb.
  { apply andb_true_iff in Eb as [-> Eb]. rewrite (Hbr h s rep) in Eb by (done || by left). done. }
  apply elem_of_cons in Hin as [<-|Hin].
  { destruct (Hfin h Hk) as (rep' & Hc & Hf). rewrite Ec in Hc. injection Hc as -> ->. by rewrite Hf in Ef. }
  apply IH; [|done|].
  - rewrite sleeps_snoc. destruct (is_sleep _); simpl; lia.
  - intros h' s' rep' ? ?. apply Hbr; [done|by right].
Qed.

(** ** Rounds *)
Lemma retry_spec fuel servers h rep h' :
  retry rq fuel servers h = Ret (rep, h') →
  extends h h' ∧ rq_final rq rep = true ∧
  ∃ pre srv, h' = h ++ pre ++ [rq_event rq srv true rep] ∧ srv ∈ servers ∧ undecided pre.
Proof.
  revert h. induction fuel as [|fuel IH]; intros h; [done|]. cbn [retry].
  destruct (try_each rq servers h) as [r h1] eqn:Et. apply try_each_spec in Et as (Hx & _ & evs & -> & Hr).
  destruct r as [rep1|].
  - intros [= -> <-]. destruct Hr as (Hf & pre & srv & -> & ? & ?). split_and!; [done|done|]. by exists pre, srv.
  - intros (Hx' & Hf & pre & srv & -> & Hin & Hpre)%IH. split_and!; [|done|].
    + eapply extends_trans; [exact Hx|]. eapply extends_trans; [|exact Hx']. by repeat constructor.
    + exists (evs ++ [EvSleep] ++ pre), srv. rewrite <-!app_assoc. split_and!; [done|done|].
      apply undecided_app; [done|]. apply undecided_app; [apply undecided_sleep|done].
Qed.

(** Only these calls and sleeps are made. *)
Definition calls_only (evs : list event) : Prop :=
  Forall (λ e, e = EvSleep ∨ ∃ srv ok rep, e = rq_event rq srv ok rep) evs.
Lemma try_each_calls servers h r evs : try_each rq servers h = (r, h ++ evs) → calls_only evs.
Proof.
  cut (∀ h', try_each rq servers h = (r, h') → ∃ evs, h' = h ++ evs ∧ calls_only evs).
  { intros H (evs' & Heq & ?)%H. by apply app_inv_head in Heq as <-. }
  clear evs. revert h. induction servers as [|srv servers IH]; intros h h'.
  { intros [= <- <-]. exists []. split; [by rewrite app_nil_r|constructor]. }
  cbn [try_each]. destruct (rq_call rq h srv) as [ok rep].
  assert (calls_only [rq_event rq srv ok rep]) as He by (repeat constructor; eauto).
  destruct (ok && rq_final rq rep); [intros [= <- <-]; eauto|].
  destruct (ok && rq_break rq rep); [intros [= <- <-]; eauto|].
  intros (evs & -> & ?)%IH. exists (rq_event rq srv ok rep :: evs). rewrite <-app_assoc. split; [done|].
  constructor; eauto.
Qed.
Lemma retry_calls fuel servers h rep evs : retry rq fuel servers h = Ret (rep, h ++ evs) → calls_only evs.
Proof.
  cut (∀ h', retry rq fuel servers h = Ret (rep, h') → ∃ evs, h' = h ++ evs ∧ calls_only evs).
  { intros H (evs' & Heq & ?)%H. by apply app_inv_head in Heq as <-. }
  clear evs. revert h. induction fuel as [|fuel IH]; intros h h'; [done|]. cbn [retry].
  destruct (try_each rq servers h) as [r h1] eqn:Et.
  destruct (try_each_spec _ _ _ _ Et) as (_ & _ & evs & -> & _). apply try_each_calls in Et.
  destruct r as [rep1|]; [intros [= -> <-]; eauto|].
  intros (evs2 & -> & ?)%IH. exists (evs ++ [EvSleep] ++ evs2). rewrite <-!app_assoc. split; [done|].
  apply Forall_app. split; [done|]. constructor; [by left|done].
Qed.

Lemma retry_mono fuel fuel' servers h r :
  retry rq fuel servers h = Ret r → (fuel ≤ fuel')%nat → retry rq fuel' servers h = Ret r.
Proof.
  revert fuel' h. induction fuel as [|fuel IH]; intros fuel' h; [done|].
  destruct fuel' as [|fuel']; [lia|]. cbn [retry]. destruct (try_each rq servers h) as [[rep|] h1]; [done|].
  intros H ?. apply IH; [done|lia].
Qed.

(** The loop ends if, some time after, one server always gives an answer that
    counts. *)
Lemma retry_returns servers h k srv :
  (∀ rep, rq_break rq rep = false) → srv ∈ servers →
  (∀ h, k ≤ sleeps h → ∃ rep, rq_call rq h srv = (true, rep) ∧ rq_final rq rep = true) →
  ∃ fuel rep h', retry rq fuel servers h = Ret (rep, h').
Proof.
  intros Hbr Hin Hfin. assert (∃ d, k ≤ sleeps h + Z.of_nat d) as [d Hd] by (exists (Z.to_nat (k - sleeps h)); lia).
  revert h Hd. induction d as [|d IH]; intros h Hd.
  - destruct (try_each_final servers h k srv) as (rep & h' & Ht); [done|lia|done|by intros|].
    exists 1%nat, rep, h'. cbn [retry]. by rewrite Ht.
  - destruct (try_each rq servers h) as [[rep|] h1] eqn:Et.
    { exists 1%nat, rep, h1. cbn [retry]. by rewrite Et. }
    pose proof (try_each_spec _ _ _ _ Et) as (_ & Hs & _).
    destruct (IH (h1 ++ [EvSleep])) as (fuel & rep & h' & Hr).
    { rewrite sleeps_snoc. simpl. lia. }
    exists (S fuel), rep, h'. cbn [retry]. by rewrite Et.
Qed.
End request.

Lemma query_ok args : request_ok (query_request net args).
Proof. split; [|intros ?????? [=]; auto|done]. intros h srv. simpl. by destruct (callQuery _ _ _ _). Qed.
Lemma join_ok args : request_ok (join_request net args).
Proof. split; [|intros ?????? [=]; auto|done]. intros h srv. simpl. by destruct (callJoin _ _ _ _). Qed.
Lemma leave_ok args : request_ok (leave_request net args).
Proof. split; [|intros ?????? [=]; auto|done]. intros h srv. simpl. by destruct (callLeave _ _ _ _). Qed.
Lemma move_ok args : request_ok (move_request net args).
Proof. split; [|intros ?????? [=]; auto|done]. intros h srv. simpl. by destruct (callMove _ _ _ _). Qed.
Lemma get_ok args : request_ok (get_request net args).
Proof. split; [|intros ?????? [=]; auto|done]. intros h srv. simpl. by destruct (callGet _ _ _ _). Qed.
Lemma put_ok args : request_ok (put_request net args).
Proof. split; [|intros ?????? [=]; auto|done]. intros h srv. simpl. by destruct (callPutAppend _ _ _ _). Qed.

(** ** The loop of the key-value clerk *)
Section kv_loop.
Context {Rep : Type} (rq : request string Rep).
Hypothesis Hrq : request_ok rq.
(** A request to a group is none to the controller. *)
Hypothesis Hkv : ∀ srv ok rep s args ok' q, rq_event rq srv ok rep ≠ EvQuery s args ok' q.

(** The servers that the configuration assigns to a key. *)
Definition group_of (c : Config) (key : string) : option (list string) :=
  match index (vec_to_list (Shards c)) (key2shard key) with
  | Ret gid => Groups c !! gid
  | _ => None
  end.
Definition no_query (evs : list event) : Prop :=
  ∀ s args q, EvQuery s args true q ∈ evs → q_WrongLeader q = true.
(** [c] is what the last answer of the controller says; there was an answer,
    or [c] is [c0]. *)
Definition latest (c0 c : Config) (evs : list event) : Prop :=
  (c = c0 ∧ no_query evs) ∨
  ∃ pre s q post, evs = pre ++ EvQuery s (mkQueryArgs (-1)) true q :: post ∧
    q_WrongLeader q = false ∧ q_Config q = c ∧ no_query post.

Lemma calls_no_query evs : calls_only rq evs → no_query evs.
Proof.
  intros Hc s args q Hin. unfold calls_only in Hc. rewrite Forall_forall in Hc.
  destruct (Hc _ Hin) as [?|(srv & ok & rep & Heq)]; [done|]. by apply eq_sym, Hkv in Heq.
Qed.
Lemma query_undecided args evs : calls_only (query_request net args) evs → undecided rq evs.
Proof.
  intros Hc srv rep Hin. unfold calls_only in Hc. rewrite Forall_forall in Hc.
  destruct (Hc _ Hin) as [Heq|(s & ok & q & Heq)]; [|by apply Hkv in Heq].
  pose proof (ro_sleep rq Hrq srv true rep) as Hs. by rewrite Heq in Hs.
Qed.
Lemma latest_app c0 c1 c pre post :
  latest c0 c1 pre → latest c1 c post → latest c0 c (pre ++ post).
Proof.
  intros H1 [[-> Hn]|(a & s & q & b & -> & ? & ? & ?)].
  - destruct H1 as [[-> Hn1]|(a & s & q & b & -> & ? & ? & Hb)].
    + left. split; [done|]. intros s args q [?|?]%elem_of_app; eauto.
    + right. exists a, s, q, (b ++ post). rewrite <-app_assoc. split_and!; [done..|].
      intros s' args q' [?|?]%elem_of_app; eauto.
  - right. exists (pre ++ a), s, q, b. by rewrite <-app_assoc.
Qed.

(** One round: the servers of the group, if the configuration has it. *)
Definition round (ck : Clerk) (key : string) (h : history) : option Rep * history :=
  match group_of (ck_config ck) key with Some servers => try_each rq servers h | None => (None, h) end.
Lemma kv_loop_unfold fuel ck key h :
  kv_loop net rq (S fuel) ck key h =
  match round ck key h with
  | (Some reply, h) => Ret (reply, ck, h)
  | (None, h) => q ← Query net fuel (sm ck) (-1) (h ++ [EvSleep]);
                 kv_loop net rq fuel (mkClerk (sm ck) q.1) key q.2
  end.
Proof.
  cbn [kv_loop]. unfold round, group_of. destruct (shard_of (ck_config ck) key) as [gid ->]. go_step.
  destruct (Groups (ck_config ck) !! gid); [|done]. by destruct (try_each rq l h) as [[?|] ?].
Qed.
Lemma round_spec ck key h r h' : round ck key h = (r, h') →
  extends h h' ∧ sleeps h' = sleeps h ∧ ∃ evs, h' = h ++ evs ∧ calls_only rq evs ∧
  match r with
  | Some rep => rq_final rq rep = true ∧ ∃ pre srv servers, evs = pre ++ [rq_event rq srv true rep] ∧
      group_of (ck_config ck) key = Some servers ∧ srv ∈ servers ∧ undecided rq pre
  | None => undecided rq evs
  end.
Proof.
  unfold round. destruct (group_of (ck_config ck) key) as [servers|].
  - intros Ht. destruct (try_each_spec _ Hrq _ _ _ _ Ht) as (? & ? & evs & -> & Hr).
    apply try_each_calls in Ht. split_and!; [done|done|]. exists evs. split_and!; [done|done|].
    destruct r; [|done]. destruct Hr as (? & pre & srv & ? & ? & ?). split; [done|]. by exists pre, srv, servers.
  - intros [= <- <-]. split_and!; [constructor|done|]. exists []. split_and!; [by rewrite app_nil_r|constructor|apply undecided_nil].
Qed.

Lemma Query_events fuel ck num h c h' : Query net fuel ck num h = Ret (c, h') →
  extends h h' ∧ ∃ pre s q, h' = h ++ pre ++ [EvQuery s (mkQueryArgs num) true q] ∧
    s ∈ ck_servers ck ∧ q_WrongLeader q = false ∧ q_Config q = c ∧
    undecided (query_request net (mkQueryArgs num)) pre ∧
    calls_only (query_request net (mkQueryArgs num)) (pre ++ [EvQuery s (mkQueryArgs num) true q]).
Proof.
  unfold Query. intros ([q h1] & Hr & [= <- <-])%go_bind_Ret. cbn [fst snd].
  destruct (retry_spec _ (query_ok _) _ _ _ _ _ Hr) as (Hx & Hf & pre & s & -> & Hs & Hu).
  apply (retry_calls _ (query_ok _)) in Hr. split; [done|]. exists pre, s, q.
  split_and!; [done|done| |done|done|done]. simpl in Hf. by apply negb_true_iff in Hf.
Qed.

Lemma kv_loop_spec fuel ck key h rep ck' h' :
  kv_loop net rq fuel ck key h = Ret (rep, ck', h') →
  extends h h' ∧ rq_final rq rep = true ∧ sm ck' = sm ck ∧
  ∃ pre srv servers, h' = h ++ pre ++ [rq_event rq srv true rep] ∧ undecided rq pre ∧
    group_of (ck_config ck') key = Some servers ∧ srv ∈ servers ∧
    latest (ck_config ck) (ck_config ck') pre.
Proof.
  revert ck h. induction fuel as [|fuel IH]; intros ck h; [done|]. rewrite kv_loop_unfold.
  destruct (round ck key h) as [r h1] eqn:Er. destruct (round_spec _ _ _ _ _ Er) as (Hx & _ & evs & -> & Hc & Hr).
  destruct r as [rep1|].
  - intros [= -> <- <-]. destruct Hr as (Hf & pre & srv & servers & -> & ? & ? & ?).
    split_and!; [done|done|done|]. exists pre, srv, servers. split_and!; [done|done|done|done|].
    left. split; [done|]. apply Forall_app in Hc as [Hc _]. by apply calls_no_query.
  - intros ([c h2] & Hq & Hk)%go_bind_Ret. cbn [fst snd] in Hk.
    destruct (Query_events _ _ _ _ _ _ Hq) as (Hx2 & pre2 & s & q & -> & Hs & Hw & Hqc & _ & Hc2).
    destruct (IH _ _ Hk) as (Hx3 & Hf & Hsm & pre3 & srv & servers & -> & Hu3 & Hg & Hin & Hl).
    split_and!; [|done|done|].
    { eapply extends_trans; [exact Hx|]. eapply extends_trans; [|eapply extends_trans; [exact Hx2|exact Hx3]].
      by repeat constructor. }
    exists (evs ++ [EvSleep] ++ (pre2 ++ [EvQuery s (mkQueryArgs (-1)) true q]) ++ pre3), srv, servers.
    split_and!; [by rewrite <-!app_assoc| |done|done|].
    + exact (undecided_app rq _ _ Hr (undecided_app rq _ _ (undecided_sleep rq Hrq)
        (undecided_app rq _ _ (query_undecided _ _ Hc2) Hu3))).
    + apply (latest_app _ (ck_config ck)).
      { left. split; [done|]. by apply calls_no_query. }
      apply (latest_app _ (ck_config ck)).
      { left. split; [done|]. by intros ??? ?%list_elem_of_singleton. }
      apply (latest_app _ c); [|done].
      right. exists pre2, s, q, []. split_and!; [done|done|done|]. by intros ??? ?%elem_of_nil.
Qed.

Lemma kv_loop_mono fuel fuel' ck key h r :
  kv_loop net rq fuel ck key h = Ret r → (fuel ≤ fuel')%nat → kv_loop net rq fuel' ck key h = Ret r.
Proof.
  revert fuel' ck h. induction fuel as [|fuel IH]; intros fuel' ck h; [done|].
  destruct fuel' as [|fuel']; [lia|]. rewrite !kv_loop_unfold.
  destruct (round ck key h) as [[rep|] h1]; [done|].
  intros ([c h2] & Hq & Hk)%go_bind_Ret Hf. unfold Query in *.
  apply go_bind_Ret in Hq as (x & Hq & Hc). rewrite (retry_mono _ _ fuel' _ _ _ Hq) by lia.
  go_step. injection Hc as <- <-. apply IH; [done|lia].
Qed.

Lemma extends_last h pre e : extends h (h ++ pre ++ [e]) → extends h (h ++ pre) ∧ answered (h ++ pre) e.
Proof.
  intros Hx. remember (h ++ pre ++ [e]) as h' eqn:Heq. destruct Hx as [|h' e' Hx Ha].
  - apply (f_equal length) in Heq. rewrite !length_app in Heq. simpl in Heq. lia.
  - rewrite app_assoc in Heq. apply app_inj_tail in Heq as [-> ->]. done.
Qed.

(** After [k] sleeps the service has settled: some controller answers, the
    controllers that answer agree on [c], and of the servers of the key's group
    none sends the clerk away and one gives an answer that counts. *)
Record settled (ctrlers : list string) (key : string) (c : Config) (servers : list string) (k : Z) : Prop := {
  se_ctrl : ∃ s, s ∈ ctrlers ∧ ∀ h, k ≤ sleeps h →
    ∃ q, callQuery net h s (mkQueryArgs (-1)) = (true, q) ∧ q_WrongLeader q = false;
  se_config s h q : s ∈ ctrlers → k ≤ sleeps h → callQuery net h s (mkQueryArgs (-1)) = (true, q) →
    q_WrongLeader q = false → q_Config q = c;
  se_group : group_of c key = Some servers;
  se_right s h rep : s ∈ servers → k ≤ sleeps h → rq_call rq h s = (true, rep) → rq_break rq rep = false;
  se_final : ∃ s, s ∈ servers ∧ ∀ h, k ≤ sleeps h →
    ∃ rep, rq_call rq h s = (true, rep) ∧ rq_final rq rep = true;
}.

Section settled.
Context (ctrlers : list string) (key : string) (c : Config) (servers : list string) (k : Z).
Hypothesis Hset : settled ctrlers key c servers k.

Lemma Query_settled ck h : ck_servers ck = ctrlers →
  ∃ fuel c' h', Query net fuel ck (-1) h = Ret (c', h') ∧ sleeps h ≤ sleeps h' ∧ (k ≤ sleeps h → c' = c).
Proof using Hset.
  intros Hck. destruct (se_ctrl _ _ _ _ _ Hset) as (s & Hs & Hfin).
  destruct (retry_returns (query_request net (mkQueryArgs (-1))) (query_ok _) ctrlers h k s)
    as (fuel & q & h' & Hr); [done|done|..].
  { intros h1 Hk. destruct (Hfin h1 Hk) as (q & Hc & Hw). exists q. split; [done|]. simpl. by rewrite Hw. }
  assert (Query net fuel ck (-1) h = Ret (q_Config q, h')) as HQ by (unfold Query; by rewrite Hck, Hr).
  exists fuel, (q_Config q), h'. split; [done|].
  destruct (Query_events _ _ _ _ _ _ HQ) as (Hx & pre & s' & q' & -> & Hs' & Hw & <- & _).
  split; [by apply sleeps_extends|]. intros Hk. apply extends_last in Hx as [Hx Ha]. simpl in Ha.
  eapply (se_config _ _ _ _ _ Hset); [by rewrite <-Hck| |exact Ha|done].
  apply sleeps_extends in Hx. lia.
Qed.

Lemma kv_loop_settled ck h : ck_config ck = c → k ≤ sleeps h →
  ∃ r, kv_loop net rq 1 ck key h = Ret r.
Proof using Hset Hrq.
  intros Hc Hk. destruct (se_final _ _ _ _ _ Hset) as (s & Hs & Hfin).
  rewrite kv_loop_unfold. unfold round. rewrite Hc, (se_group _ _ _ _ _ Hset).
  destruct (try_each_final rq servers h k s) as (rep & h' & ->); [done|done|done| |by eexists].
  intros h1 s1 rep ? ?. by apply (se_right _ _ _ _ _ Hset).
Qed.

Lemma kv_loop_returns ck h : ck_servers (sm ck) = ctrlers → ∃ fuel r, kv_loop net rq fuel ck key h = Ret r.
Proof using Hset Hrq.
  intros Hck. assert (∃ d, k ≤ sleeps h + 1 + Z.of_nat d) as [d Hd] by (exists (Z.to_nat (k - sleeps h)); lia).
  revert ck h Hck Hd. induction d as [|d IH]; intros ck h Hck Hd.
  all: destruct (round ck key h) as [[rep|] h1] eqn:Er; [exists 1%nat; rewrite kv_loop_unfold, Er; by eexists|].
  all: destruct (round_spec _ _ _ _ _ Er) as (_ & Hs & _).
  all: destruct (Query_settled (sm ck) (h1 ++ [EvSleep]) Hck) as (f1 & c' & h2 & HQ & Hs2 & Hc').
  all: rewrite sleeps_snoc in Hs2, Hc'; simpl in Hs2, Hc'.
  all: assert (∃ f2 r, kv_loop net rq f2 (mkClerk (sm ck) c') key h2 = Ret r) as (f2 & r & Hr);
    [|exists (S (f1 + f2)), r; rewrite kv_loop_unfold, Er].
  - destruct (kv_loop_settled (mkClerk (sm ck) c') h2) as [r Hr]; [apply Hc'; lia|lia|]. by exists 1%nat, r.
  - unfold Query in *. apply go_bind_Ret in HQ as (x & Hx & [= <- <-]).
    rewrite (retry_mono _ _ (f1 + f2) _ _ _ Hx) by lia. simpl. apply (kv_loop_mono f2); [done|lia].
  - apply IH; [done|]. simpl in *. lia.
  - unfold Query in *. apply go_bind_Ret in HQ as (x & Hx & [= <- <-]).
    rewrite (retry_mono _ _ (f1 + f2) _ _ _ Hx) by lia. simpl. apply (kv_loop_mono f2); [done|lia].
Qed.
End settled.
End kv_loop.

(** ** What the clerks promise *)

(** C39 A value that [Get] returns was the answer, [OK] or [ErrNoKey], to its
    last call, which went to a server that the clerk's configuration assigns to
    the key; it is the first such answer of this [Get]; and that configuration
    is what the controllers answered last, or, if they were not asked, the one
    the clerk had. *)
Theorem Get_first_answer fuel ck key h v ck' h' :
  Get net fuel ck key h = Ret (v, ck', h') →
  extends h h' ∧ ∃ pre srv servers err,
    h' = h ++ pre ++ [EvGet srv (mkGetArgs key) true (mkGetReply err v)] ∧
    (err = OK ∨ err = ErrNoKey) ∧
    (∀ s e w, EvGet s (mkGetArgs key) true (mkGetReply e w) ∈ pre → e ≠ OK ∧ e ≠ ErrNoKey) ∧
    group_of (ck_config ck') key = Some servers ∧ srv ∈ servers ∧
    latest (ck_config ck) (ck_config ck') pre.
Proof.
  unfold Get. intros ([[rep ck1] h1] & Hk & [= <- <- <-])%go_bind_Ret. cbn [fst snd] in *.
  destruct (kv_loop_spec _ (get_ok _) ltac:(done) _ _ _ _ _ _ _ Hk)
    as (Hx & Hf & _ & pre & srv & servers & -> & Hu & Hg & Hin & Hl).
  split; [done|]. exists pre, srv, servers, (gr_Err rep). destruct rep as [err v]. simpl in *.
  split_and!; [done| | |done|done|done].
  - by apply orb_true_iff in Hf as [?%String.eqb_eq|?%String.eqb_eq]; [left|right].
  - intros s e w Hin'. specialize (Hu s (mkGetReply e w) Hin'). simpl in Hu.
    apply orb_false_iff in Hu as [?%String.eqb_neq ?%String.eqb_neq]. done.
Qed.

(** C40 If from some time on a controller answers, all that answer give the
    same configuration, and among the servers it assigns to the key one answers
    [OK] or [ErrNoKey] and none [ErrWrongGroup], then [Get] returns, whatever
    happened before. *)
Theorem Get_returns ck key h c servers k :
  settled (get_request net (mkGetArgs key)) (ck_servers (sm ck)) key c servers k →
  ∃ fuel v ck' h', ∀ fuel', (fuel ≤ fuel')%nat → Get net fuel' ck key h = Ret (v, ck', h').
Proof.
  intros Hset. destruct (kv_loop_returns _ (get_ok _) _ _ _ _ _ Hset ck h eq_refl) as (fuel & [[rep ck'] h'] & Hr).
  exists fuel, (gr_Value rep), ck', h'. intros fuel' Hf. unfold Get. by rewrite (kv_loop_mono _ _ _ _ _ _ _ Hr Hf).
Qed.

(** [PutAppend] sends its request until one [OK]. *)
Lemma PutAppend_once_ok fuel ck key value op h ck' h' :
  PutAppend net fuel ck key value op h = Ret (ck', h') →
  extends h h' ∧ ∃ pre srv servers,
    h' = h ++ pre ++ [EvPutAppend srv (mkPutAppendArgs key value op) true (mkPutAppendReply OK)] ∧
    (∀ s e, EvPutAppend s (mkPutAppendArgs key value op) true (mkPutAppendReply e) ∈ pre → e ≠ OK) ∧
    group_of (ck_config ck') key = Some servers ∧ srv ∈ servers ∧
    latest (ck_config ck) (ck_config ck') pre.
Proof.
  unfold PutAppend. intros ([[rep ck1] h1] & Hk & [= <- <-])%go_bind_Ret. cbn [fst snd] in *.
  destruct (kv_loop_spec _ (put_ok _) ltac:(done) _ _ _ _ _ _ _ Hk)
    as (Hx & Hf & _ & pre & srv & servers & -> & Hu & Hg & Hin & Hl).
  split; [done|]. exists pre, srv, servers. destruct rep as [err]. simpl in Hf. apply String.eqb_eq in Hf as ->.
  split_and!; [done| |done|done|done].
  intros s e Hin'. specialize (Hu s (mkPutAppendReply e) Hin'). simpl in Hu. by apply String.eqb_neq in Hu.
Qed.
End network.

(** ** A service with two controllers and one group *)
Module ShardExample.
Definition c1 : Config := mkConfig 1 (vreplicate NShards 100) {[ 100 := ["server-100-0"; "server-100-1"] ]}.

(** Controller 1 and server 1 lead; the first [PutAppend] is executed but its
    reply is lost. *)
Definition net1 : network := mkNetwork
  (λ _ srv _, (true, mkQueryReply (String.eqb srv "c0") "" c1))
  (λ _ srv _, (true, mkChangeReply (String.eqb srv "c0") ""))
  (λ _ srv _, (true, mkChangeReply (String.eqb srv "c0") ""))
  (λ _ srv _, (true, mkChangeReply (String.eqb srv "c0") ""))
  (λ _ srv _, if String.eqb srv "server-100-1" then (true, mkGetReply OK "v") else (true, mkGetReply ErrWrongLeader ""))
  (λ h srv _, if String.eqb srv "server-100-1"
              then (2 <=? sleeps h, mkPutAppendReply OK) else (true, mkPutAppendReply ErrWrongLeader)).

Definition q (srv : string) : event := EvQuery srv (mkQueryArgs (-1)) true (mkQueryReply (String.eqb srv "c0") "" c1).
Definition get_events : history :=
  [EvSleep; q "c0"; q "c1"; EvGet "server-100-0" (mkGetArgs "k") true (mkGetReply ErrWrongLeader "");
   EvGet "server-100-1" (mkGetArgs "k") true (mkGetReply OK "v")].
Lemma shard_get_run : Get net1 5 (MakeClerk ["c0"; "c1"]) "k" [] = Ret ("v", mkClerk (mkCtrlerClerk ["c0"; "c1"]) c1, get_events).
Proof. vm_compute. reflexivity. Qed.

(** The request whose reply was lost is sent again: it is executed twice. *)
Example append_twice :
  (r ← Append net1 9 (MakeClerk ["c0"; "c1"]) "k" "x" [];
   Ret (count (λ e, match e with EvPutAppend srv _ _ _ => String.eqb srv "server-100-1" | _ => false end) r.2))
  = Ret 2.
Proof. vm_compute. reflexivity. Qed.

(** A clerk without servers never returns. *)
Lemma no_servers fuel h : Query net1 fuel (MakeCtrlerClerk []) (-1) h = NoFuel.
Proof.
  unfold Query. cut (∀ h, retry (query_request net1 (mkQueryArgs (-1))) fuel [] h = NoFuel); [by intros ->|].
  induction fuel as [|fuel IH]; intros h'; [done|]. apply IH.
Qed.

Lemma settled1 : settled net1 (get_request net1 (mkGetArgs "k")) ["c0"; "c1"] "k" c1 ["server-100-0"; "server-100-1"] 0.
Proof.
  split.
  - exists "c1"%string. split; [by right; left|]. intros h _. by eexists.
  - intros s h r _ _ [= <-] _. done.
  - reflexivity.
  - intros s h rep _ _. simpl. destruct (String.eqb s _); by intros [= <-].
  - exists "server-100-1"%string. split; [by right; left|]. intros h _. by eexists.
Qed.
End ShardExample.

Lemma Get_first_answer_witness :
  extends ShardExample.net1 [] ShardExample.get_events ∧ ∃ pre srv servers err,
    ShardExample.get_events = [] ++ pre ++ [EvGet srv (mkGetArgs "k") true (mkGetReply err "v")] ∧
    (err = OK ∨ err = ErrNoKey) ∧
    (∀ s e w, EvGet s (mkGetArgs "k") true (mkGetReply e w) ∈ pre → e ≠ OK ∧ e ≠ ErrNoKey) ∧
    group_of ShardExample.c1 "k" = Some servers ∧ srv ∈ servers ∧
    latest zero_config ShardExample.c1 pre.
Proof. exact (Get_first_answer ShardExample.net1 5 _ "k" [] "v" _ _ ShardExample.shard_get_run). Defined.

Lemma Get_returns_witness :
  ∃ fuel v ck' h', ∀ fuel', (fuel ≤ fuel')%nat →
    Get ShardExample.net1 fuel' (MakeClerk ["c0"; "c1"]) "k" [] = Ret (v, ck', h').
Proof. exact (Get_returns ShardExample.net1 (MakeClerk ["c0"; "c1"]) "k" [] _ _ 0 ShardExample.settled1). Defined.
