(* ===== verification/ShardTester.v ===== *)
(** * The tester of the sharded service ([shardkv/config.go], and the servers
    it starts: [shardctrler/server.go], [shardkv/server.go])

    As in the tester of the key-value labs, names are drawn by [randstring], the
    [k]-th draw being [rnd k], a client end is its name, and pointers are numbers;
    a nil slice is the empty one.  A group is a record of [groups], since nothing
    else keeps a pointer to it.  Times are arguments, as is whether the test has
    failed. *)
From S2P Require Import Prelude GoStrings Persister Raft Labrpc ShardClerk.
From S2P Require Harness.
#[local] Open Scope Z_scope.

Section tester.
Context {R C : Type} `{RaftApi R C} (rnd : nat → string).

(** ** shardctrler/server.go, shardkv/server.go *)
Record ShardCtrler : Type := mkShardCtrler { sc_me : Z; sc_rf : R; sc_configs : list Config }.
Definition StartCtrler (servers : list string) (me : Z) (ps : nat) (h : PersisterHeap) : ShardCtrler :=
  mkShardCtrler me (Make servers me ps h) [zero_config].
Definition KillCtrler (sc : ShardCtrler) : ShardCtrler :=
  mkShardCtrler (sc_me sc) (Kill (sc_rf sc)) (sc_configs sc).

Record ShardKV : Type := mkShardKV {
  skv_me : Z; skv_rf : R; skv_gid : Z; skv_ctrlers : list string; skv_maxraftstate : Z }.
Definition StartShardKV (servers : list string) (me : Z) (ps : nat) (maxraftstate gid : Z)
    (ctrlers : list string) (h : PersisterHeap) : ShardKV :=
  mkShardKV me (Make servers me ps h) gid ctrlers maxraftstate.
Definition KillShardKV (kv : ShardKV) : ShardKV :=
  mkShardKV (skv_me kv) (Kill (skv_rf kv)) (skv_gid kv) (skv_ctrlers kv) (skv_maxraftstate kv).

(** ** The configuration of a test *)
Record group : Type := mkGroup {
  gid : Z;
  g_servers : list (option nat);
  g_saved : list (option nat);
  g_endnames : list (list string);
  g_mendnames : list (list string);
}.
Record config : Type := mkTester {
  net : Network;
  ctrlerservers : list (option nat);
  mck : list string;                       (* the ends of the tester's own clerk *)
  n : Z;                                   (* servers per group *)
  groups : list (option group);
  clerks : gmap nat (list string);
  nextClientId : Z;
  maxraftstate : Z;
  ctrlers : gmap nat ShardCtrler;          (* what has been allocated *)
  kvs : gmap nat ShardKV;
  persisters : PersisterHeap;
  allocated : nat;                         (* the next pointer *)
  drawn : nat;                             (* names drawn so far *)
}.
(** [nctrlers] and [ngroups] are only set by [make_config], to 3. *)
Definition nctrlers : Z := 3.
Definition ngroups : Z := 3.

Definition with_net (cfg : config) (rn : Network) (d : nat) : config :=
  mkTester rn (ctrlerservers cfg) (mck cfg) (n cfg) (groups cfg) (clerks cfg) (nextClientId cfg)
    (maxraftstate cfg) (ctrlers cfg) (kvs cfg) (persisters cfg) (allocated cfg) d.
Definition with_groups (cfg : config) (l : list (option group)) : config :=
  mkTester (net cfg) (ctrlerservers cfg) (mck cfg) (n cfg) l (clerks cfg) (nextClientId cfg)
    (maxraftstate cfg) (ctrlers cfg) (kvs cfg) (persisters cfg) (allocated cfg) (drawn cfg).
Definition with_ctrlers (cfg : config) (l : list (option nat)) (m : gmap nat ShardCtrler) : config :=
  mkTester (net cfg) l (mck cfg) (n cfg) (groups cfg) (clerks cfg) (nextClientId cfg)
    (maxraftstate cfg) m (kvs cfg) (persisters cfg) (allocated cfg) (drawn cfg).
Definition with_kvs (cfg : config) (m : gmap nat ShardKV) : config :=
  mkTester (net cfg) (ctrlerservers cfg) (mck cfg) (n cfg) (groups cfg) (clerks cfg) (nextClientId cfg)
    (maxraftstate cfg) (ctrlers cfg) m (persisters cfg) (allocated cfg) (drawn cfg).
Definition with_persisters (cfg : config) (h : PersisterHeap) (next : nat) : config :=
  mkTester (net cfg) (ctrlerservers cfg) (mck cfg) (n cfg) (groups cfg) (clerks cfg) (nextClientId cfg)
    (maxraftstate cfg) (ctrlers cfg) (kvs cfg) h next (drawn cfg).
Definition with_clerks (cfg : config) (m : gmap nat (list string)) (id : Z) (next : nat) : config :=
  mkTester (net cfg) (ctrlerservers cfg) (mck cfg) (n cfg) (groups cfg) m id
    (maxraftstate cfg) (ctrlers cfg) (kvs cfg) (persisters cfg) next (drawn cfg).
Definition with_mck (cfg : config) (l : list string) : config :=
  mkTester (net cfg) (ctrlerservers cfg) l (n cfg) (groups cfg) (clerks cfg) (nextClientId cfg)
    (maxraftstate cfg) (ctrlers cfg) (kvs cfg) (persisters cfg) (allocated cfg) (drawn cfg).

Definition randstring (cfg : config) : config * string := (with_net cfg (net cfg) (S (drawn cfg)), rnd (drawn cfg)).
Definition ctrlername (i : Z) : string := "ctrler" +:+ Itoa i.
Definition servername (gid i : Z) : string := "server-" +:+ Itoa gid +:+ "-" +:+ Itoa i.

(** [cfg.groups[gi]]: dereferenced wherever it is used. *)
Definition group_at (cfg : config) (gi : Z) : go group := g ← index (groups cfg) gi; deref g.
Definition set_group (cfg : config) (gi : Z) (gg : group) : go config :=
  l ← store (groups cfg) gi (Some gg); mret (with_groups cfg l).

(** ** Ends *)

(** [MakeEnd], [Connect] and [Enable] for a name that was drawn. *)
Definition open_end (cfg : config) (name target : string) : go config :=
  rn ← MakeEnd name (net cfg);
  mret (with_net cfg (Enable name true (Connect name target rn)) (drawn cfg)).
(** The closure that a server or a clerk gets as [make_end]. *)
Definition make_end (cfg : config) (target : string) : go (config * string) :=
  let '(cfg, name) := randstring cfg in
  cfg ← open_end cfg name target; mret (cfg, name).
(** The loops that make the ends to all the controllers. *)
Definition ctrler_ends (cfg : config) : go (config * list string) :=
  go_fold (λ '(cfg, names) j,
    r ← make_end cfg (ctrlername j); mret (r.1, names ++ [r.2])) (seqZ 0 nctrlers) (cfg, []).

Definition shardclerk (cfg : config) : go (config * list string) := ctrler_ends cfg.

(** [endnames] has [cfg.n] places, and one is filled for every controller. *)
Definition makeClient (cfg : config) : go (config * nat) :=
  r ← go_fold (λ '(cfg, endnames) j,
    let '(cfg, name) := randstring cfg in
    endnames ← store endnames j name;
    cfg ← open_end cfg name (ctrlername j);
    mret (cfg, endnames)) (seqZ 0 nctrlers) (cfg, replicate (Z.to_nat (n cfg)) ""%string);
  let '(cfg, endnames) := (r : config * list string) in
  let ck := allocated cfg in
  mret (with_clerks cfg (<[ck := endnames]> (clerks cfg)) (nextClientId cfg + 1) (S ck), ck).
Definition deleteClient (cfg : config) (ck : nat) : config :=
  with_clerks cfg (delete ck (clerks cfg)) (nextClientId cfg) (allocated cfg).

(** ** Controllers *)
Definition StartCtrlerserver (cfg : config) (i : Z) : go config :=
  r ← ctrler_ends cfg;
  let '(cfg, ends) := (r : config * list string) in
  let p := allocated cfg in
  let cfg := with_persisters cfg (<[p := MakePersister]> (persisters cfg)) (S (S p)) in
  let k := S p in
  l ← store (ctrlerservers cfg) i (Some k);
  let cfg := with_ctrlers cfg l (<[k := StartCtrler ends i p (persisters cfg)]> (ctrlers cfg)) in
  mret (with_net cfg (AddServer (ctrlername i) k (net cfg)) (drawn cfg)).

(** ** Servers of a group *)
Definition disable_all (cfg : config) (names : list string) : config :=
  with_net cfg (foldl (λ rn name, Enable name false rn) (net cfg) names) (drawn cfg).

(** [for j := 0; j < len(gg.servers); j++ { name := gg.endnames[i][j]; ... }] *)
Definition disable_row (cfg : config) (row : list string) (len : nat) : go config :=
  go_fold (λ cfg j, name ← index row j; mret (with_net cfg (Enable name false (net cfg)) (drawn cfg)))
    (seqZ 0 (Z.of_nat len)) cfg.

(** The copy of the persister, if there is one. *)
Definition copy_persister (cfg : config) (gg : group) (i : Z) : go (config * group) :=
  ps ← index (g_saved gg) i;
  match ps with
  | Some q =>
      p ← deref (persisters cfg !! q);
      let q' := allocated cfg in
      l ← store (g_saved gg) i (Some q');
      mret (with_persisters cfg (<[q' := Copy p]> (persisters cfg)) (S q'),
            mkGroup (gid gg) (g_servers gg) l (g_endnames gg) (g_mendnames gg))
  | None => mret (cfg, gg)
  end.

Definition ShutdownServer (cfg : config) (gi i : Z) : go config :=
  gg ← group_at cfg gi;
  cfg ← (match g_servers gg with
         | [] => mret cfg
         | _ => row ← index (g_endnames gg) i; disable_row cfg row (length (g_servers gg))
         end);
  mrow ← index (g_mendnames gg) i;
  let cfg := disable_all cfg mrow in
  let cfg := with_net cfg (DeleteServer (servername (gid gg) i) (net cfg)) (drawn cfg) in
  r ← copy_persister cfg gg i;
  let '(cfg, gg) := (r : config * group) in
  kv ← index (g_servers gg) i;
  match kv with
  | Some k =>
      s ← deref (kvs cfg !! k);
      l ← store (g_servers gg) i None;
      set_group (with_kvs cfg (<[k := KillShardKV s]> (kvs cfg))) gi
        (mkGroup (gid gg) l (g_saved gg) (g_endnames gg) (g_mendnames gg))
  | None => set_group cfg gi gg
  end.
Definition ShutdownGroup (cfg : config) (gi : Z) : go config :=
  go_fold (λ cfg i, ShutdownServer cfg gi i) (seqZ 0 (n cfg)) cfg.

(** The names of the ends to the group, drawn before the ends are made. *)
Fixpoint draw (k : nat) (cfg : config) : config * list string :=
  match k with
  | O => (cfg, [])
  | S k => let '(cfg, s) := randstring cfg in let '(cfg, l) := draw k cfg in (cfg, s :: l)
  end.
Definition open_group (cfg : config) (g : Z) (names : list string) : go config :=
  go_fold (λ cfg js, open_end cfg js.2 (servername g (Z.of_nat js.1))) (imap pair names) cfg.

Definition StartServer (cfg : config) (gi i : Z) : go config :=
  gg ← group_at cfg gi;
  let '(cfg, names) := draw (Z.to_nat (n cfg)) cfg in
  rows ← store (g_endnames gg) i names;
  cfg ← open_group cfg (gid gg) names;
  (* gg.mendnames[i] is set before the loop that fills it *)
  _ ← store (g_mendnames gg) i [];
  r ← ctrler_ends cfg;
  let '(cfg, mends) := (r : config * list string) in
  mrows ← store (g_mendnames gg) i mends;
  ps ← index (g_saved gg) i;
  r ← (match ps with
       | Some _ => copy_persister cfg (mkGroup (gid gg) (g_servers gg) (g_saved gg) rows mrows) i
       | None =>
           let q := allocated cfg in
           l ← store (g_saved gg) i (Some q);
           mret (with_persisters cfg (<[q := MakePersister]> (persisters cfg)) (S q),
                 mkGroup (gid gg) (g_servers gg) l rows mrows)
       end);
  let '(cfg, gg) := (r : config * group) in
  q ← (ps ← index (g_saved gg) i; deref ps);
  let k := allocated cfg in
  l ← store (g_servers gg) i (Some k);
  let kv := StartShardKV names i q (maxraftstate cfg) (gid gg) mends (persisters cfg) in
  cfg ← set_group (with_persisters (with_kvs cfg (<[k := kv]> (kvs cfg))) (persisters cfg) (S k)) gi
          (mkGroup (gid gg) l (g_saved gg) (g_endnames gg) (g_mendnames gg));
  mret (with_net cfg (AddServer (servername (gid gg) i) k (net cfg)) (drawn cfg)).
Definition StartGroup (cfg : config) (gi : Z) : go config :=
  go_fold (λ cfg i, StartServer cfg gi i) (seqZ 0 (n cfg)) cfg.

(** ** Joining and leaving *)
Definition join_servers (cfg : config) (gis : list Z) : go (gmap Z (list string)) :=
  go_fold (λ m g,
    gg ← group_at cfg g;
    mret (<[gid gg := servername (gid gg) <$> seqZ 0 (n cfg)]> m)) gis ∅.
Definition joinm (net : network) (fuel : nat) (cfg : config) (gis : list Z) (h : history) : go history :=
  m ← join_servers cfg gis; Join net fuel (MakeCtrlerClerk (mck cfg)) m h.
Definition join net fuel cfg gi h := joinm net fuel cfg [gi] h.
Definition leavem (net : network) (fuel : nat) (cfg : config) (gis : list Z) (h : history) : go history :=
  gids ← mapM (λ g, gid <$> group_at cfg g) gis; Leave net fuel (MakeCtrlerClerk (mck cfg)) gids h.
Definition leave net fuel cfg gi h := leavem net fuel cfg [gi] h.

Definition random_handles (draws : nat → Z) (kvh : list string) : go (list string) :=
  Harness.random_handles draws kvh.

(** ** The logs *)
Definition checklogs (cfg : config) : go unit :=
  go_fold (λ _ gi, go_fold (λ _ i,
    gg ← group_at cfg gi;
    ps ← index (g_saved gg) i;
    p ← deref (ps ≫= λ q, persisters cfg !! q);
    let raft := RaftStateSize p in
    let snap := SnapshotSize p in
    if (0 <=? maxraftstate cfg) && (i64 (8 * maxraftstate cfg) <? raft) then Fatal else
    if (maxraftstate cfg <? 0) && (0 <? snap) then Fatal else mret tt)
    (seqZ 0 (n cfg)) tt) (seqZ 0 ngroups) tt.

(** ** The whole configuration *)
Definition new_group (m gi : Z) : group :=
  mkGroup (100 + gi) (replicate (Z.to_nat m) None) (replicate (Z.to_nat m) None)
    (replicate (Z.to_nat m) []) (replicate (Z.to_nat nctrlers) []).
Definition make_config (m : Z) (unreliable : bool) (maxstate : Z) : go config :=
  let cfg := mkTester MakeNetwork (replicate (Z.to_nat nctrlers) None) [] 0 [] ∅ 0 maxstate ∅ ∅ ∅ O O in
  cfg ← go_fold StartCtrlerserver (seqZ 0 nctrlers) cfg;
  r ← shardclerk cfg;
  let '(cfg, ends) := (r : config * list string) in
  let cfg := mkTester (net cfg) (ctrlerservers cfg) ends m (replicate (Z.to_nat ngroups) None) (clerks cfg)
    (nextClientId cfg) (maxraftstate cfg) (ctrlers cfg) (kvs cfg) (persisters cfg) (allocated cfg) (drawn cfg) in
  cfg ← go_fold (λ cfg gi, cfg ← set_group cfg gi (new_group m gi); StartGroup cfg gi) (seqZ 0 ngroups) cfg;
  let cfg := with_clerks cfg ∅ (m + 1000) (allocated cfg) in
  mret (with_net cfg (Reliable (negb unreliable) (net cfg)) (drawn cfg)).
Definition checkTimeout (failed : bool) (elapsed : Z) : go unit := Harness.checkTimeout failed elapsed.
Definition cleanup (cfg : config) (failed : bool) (elapsed : Z) : go config :=
  cfg ← go_fold ShutdownGroup (seqZ 0 ngroups) cfg;
  cfg ← go_fold (λ cfg i,
    sc ← index (ctrlerservers cfg) i;
    k ← deref sc; s ← deref (ctrlers cfg !! k);
    mret (with_ctrlers cfg (ctrlerservers cfg) (<[k := KillCtrler s]> (ctrlers cfg)))) (seqZ 0 nctrlers) cfg;
  rn ← Cleanup (net cfg);
  _ ← checkTimeout failed elapsed;
  mret (with_net cfg rn (drawn cfg)).
End tester.
Arguments config : clear implicits.
