(* ===== verification/CtrlerConfig.v ===== *)
(** * The tester of the shard controllers ([shardctrler/config.go])

    A copy of the tester of the key-value labs (Harness) that starts shard
    controllers, which take no parameter.  It differs in [Leader], which skips the
    servers that are down, and has no statistics. *)
From S2P Require Import Prelude GoStrings Persister Raft Labrpc ShardTester Harness.
#[local] Open Scope Z_scope.

(** [StartServer] of [shardctrler/server.go] and its [Kill] and [Raft]. *)
#[export] Instance ctrler_server {R C} `{RaftApi R C} : LabServer R unit (ShardTester.ShardCtrler (R := R)) := {|
  start_server ends i ps _ h := ShardTester.StartCtrler ends i ps h;
  kill_server := ShardTester.KillCtrler; server_raft := ShardTester.sc_rf |}.
#[export] Instance ctrler_server_laws {R C} `{RaftApi R C} :
  LabServerLaws R C unit (ShardTester.ShardCtrler (R := R)).
Proof. by split. Qed.

Section ctrlers.
Context {R C : Type} `{RaftApi R C} (rnd : nat → string).

Definition config : Type := Harness.config unit (ShardTester.ShardCtrler (R := R)).
Implicit Types (cfg : config).

(** ** Clerks *)
Definition random_handles (draws : nat → Z) (kvh : list string) : go (list string) :=
  Harness.random_handles draws kvh.
Definition makeClient (draws : nat → Z) (cfg : config) (to : list Z) : go (config * nat * list string) :=
  Harness.makeClient rnd draws cfg to.
Definition deleteClient (cfg : config) (ck : nat) : config := Harness.deleteClient cfg ck.
Definition ConnectClientUnlocked (cfg : config) (ck : nat) (to : list Z) : go config :=
  Harness.ConnectClientUnlocked cfg ck to.
Definition ConnectClient (cfg : config) (ck : nat) (to : list Z) : go config := ConnectClientUnlocked cfg ck to.
Definition DisconnectClientUnlocked (cfg : config) (ck : nat) (from : list Z) : go config :=
  Harness.DisconnectClientUnlocked cfg ck from.
Definition DisconnectClient (cfg : config) (ck : nat) (from : list Z) : go config :=
  DisconnectClientUnlocked cfg ck from.

(** ** Connections *)
Definition connectUnlocked (cfg : config) (i : Z) (to : list Z) : go config := Harness.connectUnlocked cfg i to.
Definition connect : config → Z → list Z → go config := connectUnlocked.
Definition disconnectUnlocked (cfg : config) (i : Z) (from : list Z) : go config :=
  Harness.disconnectUnlocked cfg i from.
Definition disconnect : config → Z → list Z → go config := disconnectUnlocked.
Definition All (cfg : config) : list Z := Harness.All cfg.
Definition ConnectAll (cfg : config) : go config := Harness.ConnectAll cfg.
Definition partition (cfg : config) (p1 p2 : list Z) : go config := Harness.partition cfg p1 p2.
Definition LogSize (cfg : config) : go Z := Harness.LogSize cfg.

(** ** Servers *)
Definition ShutdownServer (cfg : config) (i : Z) : go config := Harness.ShutdownServer cfg i.
Definition StartServer (cfg : config) (i : Z) : go config := Harness.StartServer rnd cfg i.
Definition make_config (m : Z) (unreliable : bool) : go config := Harness.make_config rnd m unreliable tt.
Definition checkTimeout (failed : bool) (elapsed : Z) : go unit := Harness.checkTimeout failed elapsed.
Definition cleanup (cfg : config) (failed : bool) (elapsed : Z) : go config := Harness.cleanup cfg failed elapsed.

(** ** Leaders *)
Fixpoint Leader_loop (cfg : config) (l : list Z) : go (bool * Z) :=
  match l with
  | [] => mret (false, 0)
  | i :: l =>
      kv ← index (Harness.kvservers cfg) i;
      match kv with
      | Some k =>
          s ← deref (Harness.instances cfg !! k);
          if (GetState (server_raft s)).2 then mret (true, i) else Leader_loop cfg l
      | None => Leader_loop cfg l
      end
  end.
Definition Leader (cfg : config) : go (bool * Z) := Leader_loop cfg (All cfg).
Definition make_partition (cfg : config) : go (list Z * list Z) :=
  l ← Leader cfg; Harness.split_around (Harness.n cfg) l.2.
End ctrlers.
Arguments config R : clear implicits.
