(* ===== verification/CtrlerConfigProof.v ===== *)
(** * The tester of the shard controllers: its configuration and its leaders *)
From S2P Require Import Prelude GoStrings Persister Raft Labrpc ShardTester Harness HarnessProof HarnessRestart CtrlerConfig.
#[local] Open Scope Z_scope.

Section ctrlers.
Context {R C : Type} `{RaftLaws R C} (rnd : nat → string) `{Inj nat string (=) (=) rnd}.
Implicit Types (cfg : CtrlerConfig.config R).

(** The controllers' [Leader] finds the first leader whatever is down. *)
Lemma ctrler_Leader_spec cfg : sane rnd cfg →
  CtrlerConfig.Leader (C := C) cfg =
    Ret (from_option (λ r, (true, r.2)) (false, 0) (list_find (λ i, leads (C := C) cfg i) (CtrlerConfig.All cfg))).
Proof.
  intros Hs. unfold CtrlerConfig.Leader, CtrlerConfig.All. pose proof (All_valid cfg) as Hall.
  induction Hall as [|i l Hi Hall IH]; [done|]. cbn [CtrlerConfig.Leader_loop list_find].
  destruct (place_cases (C := C) rnd cfg i Hs Hi) as [(Hx & _ & Hl)|(k & s & Hx & Hk & _ & Hl)]; rewrite Hx, Hl; go_step.
  - simpl. rewrite IH. by destruct (list_find _ l) as [[? ?]|].
  - rewrite Hk. simpl. destruct (GetState (ShardTester.sc_rf s)).2; simpl; [done|].
    rewrite IH. by destruct (list_find _ l) as [[? ?]|].
Qed.

(** The two testers' [Leader] agree when no server is down before the first
    leader; when one is, that of the key-value tester panics. *)
Lemma two_Leaders cfg : sane rnd cfg →
  Harness.Leader (C := C) cfg = CtrlerConfig.Leader (C := C) cfg ∨
  Harness.Leader (C := C) cfg = Panic ∧ ∃ i, valid cfg i ∧ down cfg i = true ∧
    ∀ j, valid cfg j → j < i → leads (C := C) cfg j = false.
Proof.
  intros Hs. rewrite (Leader_spec rnd), ctrler_Leader_spec by done. unfold CtrlerConfig.All, Harness.All.
  destruct (list_find (λ i, leads cfg i || down cfg i) _) as [[k i]|] eqn:E.
  - apply list_find_Some in E as (Hk & Hp & Hmin). apply lookup_seqZ in Hk as [-> Hk].
    destruct (down cfg (0 + Z.of_nat k)) eqn:Hd.
    + right. split; [done|]. exists (0 + Z.of_nat k). split_and!; [unfold valid; lia|done|]. intros j [Hj _] Hji.
      destruct (leads cfg j) eqn:Hl; [|done]. destruct (Hmin (Z.to_nat j) j); [by apply lookup_seqZ; lia|lia|].
      by rewrite Hl.
    + left. rewrite orb_false_r in Hp.
      assert (list_find (λ i, leads (C := C) cfg i) (seqZ 0 (n cfg)) = Some (k, 0 + Z.of_nat k)) as ->; [|done].
      apply list_find_Some. split_and!; [by apply lookup_seqZ|done|]. intros j y Hy Hjk Hl.
      apply (Hmin j y Hy Hjk). apply orb_True. by left.
  - left. apply list_find_None in E. assert (list_find (λ i, leads (C := C) cfg i) (seqZ 0 (n cfg)) = None) as ->; [|done].
    apply list_find_None. eapply Forall_impl; [exact E|]. intros i Hi Hl. apply Hi, orb_True. by left.
Qed.

(** [make_config] starts all the controllers, each at its name in the network,
    with enabled ends from every one to every one. *)
Lemma ctrler_config_connected m unreliable :
  0 ≤ m →
  ∃ cfg, CtrlerConfig.make_config (C := C) rnd m unreliable = Ret cfg ∧ n cfg = m ∧ sane rnd cfg ∧ full cfg ∧
    ∀ a, valid cfg a →
      (∃ k, kvservers cfg !! Z.to_nat a = Some (Some k) ∧ servers (net cfg) !! Itoa a = Some (Some k)) ∧
      ∀ c, valid cfg c → enabled_at cfg a c = true ∧
        ∃ s, name_of cfg a c = Some s ∧ connections (net cfg) !! s = Some (Some (Itoa c)).
Proof. intros Hm. by apply (make_config_connected (C := C) rnd). Qed.
End ctrlers.
