(* ===== verification/Outlines.v ===== *)
(** * What the labs ship of the services, and what their clients make of it
    ([raft/raft.go], [kvraft], [shardctrler/server.go], [shardkv/server.go])

    The handlers are empty: a reply stays the zero value that labrpc has allocated
    for it, and the state stays as it was.  The second half says what that means
    for the code that is complete: the clerk of the sharded service never returns
    and the tester of Raft finds neither a leader nor an agreement. *)
From S2P Require Import Prelude GoStrings Persister Raft RaftTester RaftChecks RaftChecksProof ShardClerk ShardClerkProof.
From S2P Require ShardTester.
#[local] Open Scope Z_scope.

(** ** raft.go *)
Section raft.
(** [peers[server].Call] *)
Context (Call : string → string → unit → bool * unit).
Definition sendRequestVote (rf : Outline.Raft) (server : Z) (args : unit) : go (bool * unit) :=
  peer ← index (Outline.peers rf) server;
  mret (Call peer "Raft.RequestVote" args).
(** The pauses of the ticker: [state k] is the peer at its [k]-th look. *)
Fixpoint ticker (fuel : nat) (state : nat → Outline.Raft) (random : nat → Z) (k : nat) : go (list Z) :=
  match fuel with
  | O => NoFuel
  | S fuel =>
      if Outline.killed (state k) then mret [] else
      let ms := 50 + Z.rem (random k) 300 in
      rest ← ticker fuel state random (S k);
      mret (ms * 1000000 :: rest)
  end.
End raft.

(** ** kvraft/client.go and common.go *)
Module KvRaft.
Definition OK : string := "OK".
Definition ErrNoKey : string := "ErrNoKey".
Definition ErrWrongLeader : string := "ErrWrongLeader".
Record PutAppendArgs := mkPutAppendArgs { pa_Key : string; pa_Value : string; pa_Op : string }.
Record PutAppendReply := mkPutAppendReply { pr_Err : string }.
Record GetArgs := mkGetArgs { ga_Key : string }.
Record GetReply := mkGetReply { gr_Err : string; gr_Value : string }.

Record Clerk := mkClerk { servers : list string }.
Definition MakeClerk (servers : list string) : Clerk := mkClerk servers.
Definition Get (ck : Clerk) (key : string) : string := "".
Definition PutAppend (ck : Clerk) (key value op : string) : Clerk := ck.
Definition Put (ck : Clerk) (key value : string) : Clerk := PutAppend ck key value "Put".
Definition Append (ck : Clerk) (key value : string) : Clerk := PutAppend ck key value "Append".

Section server.
Context {R : Type}.
Definition ServerGet (kv : KVServer R) (args : GetArgs) (reply : GetReply) : KVServer R * GetReply := (kv, reply).
Definition ServerPutAppend (kv : KVServer R) (args : PutAppendArgs) (reply : PutAppendReply)
    : KVServer R * PutAppendReply := (kv, reply).
End server.
End KvRaft.

(** ** shardctrler/server.go and shardkv/server.go *)
Section servers.
Context {R : Type}.
Implicit Types (sc : ShardTester.ShardCtrler (R := R)) (kv : ShardTester.ShardKV (R := R)).
Definition CtrlerJoin sc (args : JoinArgs) (reply : ChangeReply) := (sc, reply).
Definition CtrlerLeave sc (args : LeaveArgs) (reply : ChangeReply) := (sc, reply).
Definition CtrlerMove sc (args : MoveArgs) (reply : ChangeReply) := (sc, reply).
Definition CtrlerQuery sc (args : QueryArgs) (reply : QueryReply) := (sc, reply).
Definition CtrlerRaft sc : R := ShardTester.sc_rf sc.
Definition ShardGet kv (args : GetArgs) (reply : GetReply) := (kv, reply).
Definition ShardPutAppend kv (args : PutAppendArgs) (reply : PutAppendReply) := (kv, reply).

(** A network on which a call that arrives is served by these handlers. *)
Record served (net : network) (sc : ShardTester.ShardCtrler (R := R)) (kv : ShardTester.ShardKV (R := R)) : Prop := {
  sv_Query h srv args reply : callQuery net h srv args = (true, reply) →
    reply = (CtrlerQuery sc args (mkQueryReply false "" zero_config)).2;
  sv_Get h srv args reply : callGet net h srv args = (true, reply) →
    reply = (ShardGet kv args (mkGetReply "" "")).2;
  sv_PutAppend h srv args reply : callPutAppend net h srv args = (true, reply) →
    reply = (ShardPutAppend kv args (mkPutAppendReply "")).2;
}.
End servers.

(** ** The ticker stops when the peer is killed *)
Lemma ticker_stops fuel state random k m :
  (k ≤ m)%nat → (m - k < fuel)%nat → Outline.killed (state m) = true →
  (∀ j, (k ≤ j < m)%nat → Outline.killed (state j) = false) → (∀ j, 0 ≤ random j) →
  ∃ ms, ticker fuel state random k = Ret ms ∧ length ms = (m - k)%nat ∧
    Forall (λ d, 50 * 10 ^ 6 ≤ d < 350 * 10 ^ 6) ms.
Proof.
  intros Hkm Hf Hm Hb Hr. revert k Hkm Hf Hb. induction fuel as [|fuel IH]; intros k Hkm Hf Hb; [lia|]. cbn [ticker].
  destruct (decide (k = m)) as [->|].
  { rewrite Hm. exists []. split_and!; [done|simpl; lia|done]. }
  rewrite (Hb k) by lia. destruct (IH (S k)) as (ms & -> & Hl & Hd); [lia..|intros j Hj; apply Hb; lia|].
  eexists. split; [done|]. cbn [length]. split; [lia|]. constructor; [|done].
  pose proof (Z.rem_bound_pos (random k) 300 (Hr k) ltac:(lia)). lia.
Qed.

(** ** The clerk of the sharded service *)
Section clerk.
Context {R : Type} (net : network) (sc : ShardTester.ShardCtrler (R := R)) (kv : ShardTester.ShardKV (R := R)).
Hypothesis Hnet : served net sc kv.

Lemma query_zero fuel servers num h q h' :
  retry (query_request net (mkQueryArgs num)) fuel servers h = Ret (q, h') → q_Config q = zero_config.
Proof.
  revert h. induction fuel as [|fuel IH]; intros h; [done|]. cbn [retry].
  assert (∀ servers h q h', try_each (query_request net (mkQueryArgs num)) servers h = (Some q, h') →
    q_Config q = zero_config) as Ht.
  { clear servers h IH q h'. induction servers as [|srv servers IH]; intros h q h'; [done|]. cbn [try_each].
    cbn [rq_call query_request]. destruct (callQuery net h srv (mkQueryArgs num)) as [ok reply] eqn:E.
    destruct (ok && rq_final _ _) eqn:Eok; [|destruct (ok && rq_break _ _); [done|apply IH]]. apply andb_prop in Eok as [-> _].
    intros [= <- _]. apply (sv_Query _ _ _ Hnet) in E as ->. done. }
  destruct (try_each _ servers h) as [[rep|] h1] eqn:E; [|apply IH]. intros [= <- _]. by eapply Ht.
Qed.

Lemma retry_outcome {E Rep} (rq : request E Rep) fuel servers h :
  retry rq fuel servers h = NoFuel ∨ ∃ r, retry rq fuel servers h = Ret r.
Proof.
  revert h. induction fuel as [|fuel IH]; intros h; [by left|]. cbn [retry].
  destruct (try_each rq servers h) as [[rep|] h1]; [right; by eexists|apply IH].
Qed.

(** [Get], [Put] and [Append] never return: the configurations that the clerk is
    told assign every shard to group 0, which is in none of them. *)
Lemma kv_loop_never {Rep} (rq : request string Rep) fuel ck key h :
  ck_config ck = zero_config → kv_loop net rq fuel ck key h = NoFuel.
Proof.
  revert ck h. induction fuel as [|fuel IH]; intros ck h Hc; [done|]. rewrite kv_loop_unfold.
  assert (round rq ck key h = (None, h)) as ->.
  { unfold round, group_of. rewrite Hc. by destruct (index _ _). }
  unfold Query. destruct (retry_outcome (query_request net (mkQueryArgs (-1))) fuel (ck_servers (sm ck)) (h ++ [EvSleep]))
    as [->|[[q h1] E]]; [done|]. rewrite E. cbn [mbind go_bind fst snd]. apply IH. by eapply query_zero.
Qed.
Lemma outline_Get ctrlers fuel key h : Get net fuel (MakeClerk ctrlers) key h = NoFuel.
Proof. unfold Get. by rewrite kv_loop_never. Qed.
Lemma outline_Put ctrlers fuel key value op h : PutAppend net fuel (MakeClerk ctrlers) key value op h = NoFuel.
Proof. unfold PutAppend. by rewrite kv_loop_never. Qed.
End clerk.

(** ** The tester of Raft *)
Section tester.
Context {V : Type} `{EqDecision V}.
Context (world : nat → RaftTester.config Outline.Raft V) (clock : nat → Z).

(** No peer is ever a leader: [checkOneLeader] fails the test, unless a look at a
    server panics. *)
Lemma outline_see_leader leaders i k leaders' k' :
  see_leader world leaders i k = Ret (leaders', k') → leaders' = leaders.
Proof.
  unfold see_leader. intros (c & k1 & _ & Hr)%bind_Ret. apply bind_Ret in Hr as (conn & k2 & _ & Hr).
  destruct conn; [|by injection Hr]. apply bind_Ret in Hr as ([term leader] & k3 & [Hs _]%lift_Ret & Hr).
  unfold peer_state in Hs. apply go_bind_Ret in Hs as (rf & _ & Hs). apply go_bind_Ret in Hs as (r & _ & [= _ <-]).
  by injection Hr.
Qed.
Lemma outline_no_leader k i k' : checkOneLeader world k ≠ Ret (i, k').
Proof.
  unfold checkOneLeader. generalize 10%nat. intros iters. revert k. induction iters as [|iters IH]; intros k; [done|].
  cbn [checkOneLeader_loop]. intros (c & k1 & [= <- <-] & Hr)%bind_Ret.
  apply bind_Ret in Hr as (leaders & k2 & Hfold & Hr).
  assert (leaders = ∅) as ->.
  { apply (t_fold_inv _ (λ _ ls _, ls = ∅)) in Hfold; [done|done|]. by intros d x rest ls k3 ls' k4 _ -> ?%outline_see_leader. }
  rewrite bool_decide_true in Hr by done. cbn [two_leaders] in Hr. by apply IH in Hr.
Qed.

(** [Start] says that the peer leads, with the index -1: [one] takes that as no
    index and tries until its ten seconds are over. *)
Lemma outline_one fuel cmd expected retry k idx k' :
  one world clock fuel cmd expected retry k = Ret (idx, k') →
  idx = -1 ∧ ∃ t, (k ≤ t < k')%nat ∧ checkFinished (world t) = true.
Proof.
  unfold one. intros (t0 & k1 & [= <- <-] & Hr)%bind_Ret. apply one_loop_sound in Hr.
  destruct Hr as [(-> & t & ? & ?)|(Hne & (t & t' & i & p & r & _ & _ & _ & _ & _ & term & Hs) & _)].
  - split; [done|]. exists t. split; [lia|done].
  - cbn in Hs. congruence.
Qed.
End tester.
