(* ===== verification/ShardTesterProof.v ===== *)
(** * The tester of the sharded service: what a configuration provides *)
From S2P Require Import Prelude GoStrings Persister Raft Labrpc ShardClerk ShardTester.
From Stdlib Require Import Ascii.
#[local] Open Scope Z_scope.

(** ** Names of servers *)
Lemma servername_inj g i g' i' :
  0 ≤ g → 0 ≤ g' → servername g i = servername g' i' → g = g' ∧ i = i'.
Proof.
  unfold servername. intros Hg Hg' Heq%append_inj_l.
  destruct (sep_inj "-"%char (Itoa g) (Itoa g') (Itoa i) (Itoa i')) as [E1%(inj Itoa) E2%(inj Itoa)];
    [by apply Itoa_no_dash|by apply Itoa_no_dash|exact Heq|done].
Qed.
Lemma ctrlername_servername c g i : ctrlername c ≠ servername g i.
Proof. unfold ctrlername, servername. intros E. discriminate E. Qed.

Section tester.
Context {R C : Type} `{RaftLaws R C} (rnd : nat → string) `{Inj nat string (=) (=) rnd}.
Implicit Types (cfg : config R) (names : list string).

(** ** Ends *)

(** The names still to be drawn are none of the network's. *)
Definition fresh cfg : Prop := ∀ d, (drawn cfg ≤ d)%nat → rnd d ∉ ends (net cfg).
(** An end through which requests reach the server called [target]. *)
Definition open cfg (name target : string) : Prop :=
  name ∈ ends (net cfg) ∧ enabled (net cfg) !! name = Some true ∧
  connections (net cfg) !! name = Some (Some target).

(** A step that only makes ends, and leaves those there were as they are. *)
Record grows cfg cfg' : Prop := {
  gr_net : cfg' = with_net cfg (net cfg') (drawn cfg');
  gr_servers : servers (net cfg') = servers (net cfg);
  gr_open name target : open cfg name target → open cfg' name target;
  gr_fresh : fresh cfg → fresh cfg';
  gr_drawn : (drawn cfg ≤ drawn cfg')%nat;
}.
#[local] Instance grows_preorder : PreOrder grows.
Proof.
  split.
  - intros cfg. split; try done. by destruct cfg.
  - intros c1 c2 c3 [E1 S1 O1 F1 D1] [E2 S2 O2 F2 D2]. split.
    + rewrite E2. by rewrite E1.
    + congruence.
    + auto.
    + auto.
    + lia.
Qed.

Lemma open_end_spec cfg name target :
  name ∉ ends (net cfg) → (∀ d, (drawn cfg ≤ d)%nat → rnd d ≠ name) →
  ∃ cfg', open_end cfg name target = Ret cfg' ∧ grows cfg cfg' ∧ open cfg' name target ∧
    ends (net cfg') = {[name]} ∪ ends (net cfg) ∧ drawn cfg' = drawn cfg.
Proof.
  intros Hn Hd. unfold open_end, MakeEnd. rewrite decide_False by done. go_step.
  eexists. split; [done|]. split_and!; [split| |done|done]; try done.
  - intros s t (He & Hen & Hc). assert (s ≠ name) by congruence. unfold open. cbn [with_net net Enable Connect ends enabled connections].
    rewrite !lookup_insert_ne by done. split_and!; [set_solver|done|done].
  - intros Hf d Hle. cbn [with_net net drawn Enable Connect ends] in *. set_unfold.
    intros [E|E]; [by apply (Hd d)|by apply (Hf d)].
  - unfold open. cbn [with_net net Enable Connect ends enabled connections]. rewrite !lookup_insert_eq. set_solver.
Qed.

Lemma make_end_spec cfg target :
  fresh cfg → ∃ cfg' name, make_end rnd cfg target = Ret (cfg', name) ∧ grows cfg cfg' ∧ open cfg' name target.
Proof.
  intros Hf. unfold make_end, randstring.
  set (cfg0 := with_net cfg (net cfg) (S (drawn cfg))).
  destruct (open_end_spec cfg0 (rnd (drawn cfg)) target) as (cfg' & Hr & Hg & Ho & _ & _).
  - by apply Hf.
  - intros d Hd E%(inj rnd). simpl in Hd. lia.
  - exists cfg', (rnd (drawn cfg)). rewrite Hr. split; [done|]. split; [|done].
    transitivity cfg0; [|done]. split; try done; [|simpl; lia].
    intros Hf' d Hd. simpl in Hd. apply Hf'. lia.
Qed.

(** The ends to the controllers, in order. *)
Definition opened cfg (target : Z → string) names : Prop :=
  ∀ j name, names !! j = Some name → open cfg name (target (Z.of_nat j)).
Lemma opened_grows cfg cfg' target names : grows cfg cfg' → opened cfg target names → opened cfg' target names.
Proof. intros Hg Ho j name Hj. eapply gr_open; [exact Hg|]. by apply Ho. Qed.
Lemma opened_snoc cfg target names name :
  opened cfg target names → open cfg name (target (Z.of_nat (length names))) → opened cfg target (names ++ [name]).
Proof.
  intros Ho Hn j s [Hj|[Hj E]]%lookup_app_Some; [by apply Ho|].
  assert (j = length names ∧ s = name) as [-> ->]; [|done].
  destruct (j - length names)%nat eqn:Ej; simpl in E; [|done]. injection E as ->. split; [lia|done].
Qed.

Lemma ctrler_ends_spec cfg :
  fresh cfg → ∃ cfg' names, ctrler_ends rnd cfg = Ret (cfg', names) ∧ grows cfg cfg' ∧
    length names = 3%nat ∧ opened cfg' ctrlername names.
Proof.
  intros Hf. unfold ctrler_ends.
  match goal with |- context [go_fold ?f _ _] =>
    destruct (go_fold_inv f (λ d st, grows cfg st.1 ∧ length st.2 = length d ∧ opened st.1 ctrlername st.2)
      (seqZ 0 nctrlers) (cfg, [])) as ([cfg' names] & Hr & Hg & Hl & Ho) end.
  - split_and!; [done|done|]. by intros j s.
  - intros d j rest [cfg1 names] Hd (Hg & Hl & Ho). cbn [fst snd] in *.
    apply seqZ_split in Hd as [-> _].
    destruct (make_end_spec cfg1 (ctrlername (Z.of_nat (length d)))) as (cfg2 & name & Hr & Hg2 & Ho2).
    { by eapply gr_fresh. }
    exists (cfg2, names ++ [name]). rewrite Z.add_0_l, Hr. split; [done|]. cbn [fst snd]. split_and!.
    + by transitivity cfg1.
    + rewrite !length_app. simpl. lia.
    + apply opened_snoc; [by eapply opened_grows|]. by rewrite Hl.
  - exists cfg', names. split_and!; [done|done|done|done].
Qed.

Lemma shard_draw_spec k cfg :
  draw rnd k cfg = (with_net cfg (net cfg) (drawn cfg + k), rnd <$> seq (drawn cfg) k).
Proof.
  revert cfg. induction k as [|k IH]; intros cfg; simpl.
  - rewrite Nat.add_0_r. by destruct cfg.
  - rewrite IH. simpl. by replace (S (drawn cfg + k)) with (drawn cfg + S k)%nat by lia.
Qed.

(** The ends to the servers of a group, drawn first. *)
Lemma open_group_spec cfg g k :
  fresh cfg → ∃ cfg', open_group (with_net cfg (net cfg) (drawn cfg + k)) g (rnd <$> seq (drawn cfg) k) = Ret cfg' ∧
    grows cfg cfg' ∧ opened cfg' (servername g) (rnd <$> seq (drawn cfg) k).
Proof.
  intros Hf. set (cfg0 := with_net cfg (net cfg) (drawn cfg + k)). set (names := rnd <$> seq (drawn cfg) k).
  assert (grows cfg cfg0) as H0'.
  { split; try done; [|simpl; lia]. intros _ d Hd. simpl in *. apply Hf. lia. }
  unfold open_group.
  match goal with |- context [go_fold ?f _ _] =>
    destruct (go_fold_inv f (λ d cfg1, grows cfg0 cfg1 ∧ drawn cfg1 = drawn cfg0 ∧ opened cfg1 (servername g) d.*2 ∧
      ends (net cfg1) = list_to_set d.*2 ∪ ends (net cfg)) (imap pair names) cfg0) as (cfg' & Hr & Hg & _ & Ho & _) end.
  - split_and!; [done|done|by intros j s|set_solver].
  - intros d [j s] rest cfg1 Hd (Hg & Hdr & Ho & He). cbn [fst snd].
    apply imap_pair_split in Hd as (-> & Hs & Htake). pose proof Hs as Hs'.
    unfold names in Hs'. rewrite list_lookup_fmap in Hs'.
    apply fmap_Some in Hs' as (x & Hx & ->). apply lookup_seq in Hx as [-> Hlt].
    destruct (open_end_spec cfg1 (rnd (drawn cfg + length d)) (servername g (Z.of_nat (length d)))) as (cfg2 & Hr & Hg2 & Ho2 & He2 & Hdr2).
    { rewrite He, Htake. set_unfold. intros [Hin|Hin]; [|by apply (Hf (drawn cfg + length d)%nat); [lia|]].
      apply list_elem_of_lookup in Hin as [j Hj]. apply lookup_take_Some in Hj as [Hj Hjl].
      unfold names in Hj. rewrite list_lookup_fmap in Hj. apply fmap_Some in Hj as (y & Hy & E%(inj rnd)).
      apply lookup_seq in Hy as [-> _]. lia. }
    { intros x Hx E%(inj rnd). rewrite Hdr in Hx. simpl in Hx. lia. }
    exists cfg2. split; [done|]. split_and!.
    + by transitivity cfg1.
    + congruence.
    + rewrite fmap_app. apply opened_snoc; [by eapply opened_grows|]. by rewrite length_fmap.
    + rewrite He2, He, fmap_app. simpl. set_solver.
  - exists cfg'. split; [done|]. split; [by transitivity cfg0|]. intros j s Hj. apply Ho.
    rewrite list_lookup_fmap, list_lookup_imap, Hj. done.
Qed.

(** ** Servers *)

(** Pointers given out are below the next one. *)
Definition bounded cfg : Prop :=
  ∀ k, (allocated cfg ≤ k)%nat → kvs cfg !! k = None ∧ ctrlers cfg !! k = None.

(** Server [i] of the group [gg] runs, under its name, with ends to the servers
    of its group and to the controllers. *)
Definition up cfg (gg : group) (i : Z) : Prop :=
  ∃ k kv names mends,
    g_servers gg !! Z.to_nat i = Some (Some k) ∧ kvs cfg !! k = Some kv ∧
    servers (net cfg) !! servername (gid gg) i = Some (Some k) ∧
    rf_alive (skv_rf kv) = true ∧ skv_gid kv = gid gg ∧
    g_endnames gg !! Z.to_nat i = Some names ∧ length names = Z.to_nat (n cfg) ∧
    opened cfg (servername (gid gg)) names ∧
    g_mendnames gg !! Z.to_nat i = Some mends ∧ length mends = 3%nat ∧ opened cfg ctrlername mends.

(** A step that keeps the servers that run under the names of [P], and the
    ends. *)
Record keeps (P : string → Prop) cfg cfg' : Prop := {
  kp_n : n cfg' = n cfg;
  kp_mck : mck cfg' = mck cfg;
  kp_open name target : open cfg name target → open cfg' name target;
  kp_servers name : P name → servers (net cfg') !! name = servers (net cfg) !! name;
  kp_kvs k kv : kvs cfg !! k = Some kv → kvs cfg' !! k = Some kv;
  kp_ctrlers k sc : ctrlers cfg !! k = Some sc → ctrlers cfg' !! k = Some sc;
}.
Lemma keeps_refl P cfg : keeps P cfg cfg.
Proof. by split. Qed.
Lemma keeps_trans (P Q : string → Prop) c1 c2 c3 :
  keeps P c1 c2 → keeps Q c2 c3 → keeps (λ s, P s ∧ Q s) c1 c3.
Proof.
  intros [N1 M1 O1 S1 K1 C1] [N2 M2 O2 S2 K2 C2]. split; [congruence|congruence|auto| |auto|auto].
  intros name [? ?]. rewrite S2, S1 by done. done.
Qed.
Lemma keeps_weaken (P Q : string → Prop) c1 c2 : (∀ s, Q s → P s) → keeps P c1 c2 → keeps Q c1 c2.
Proof. intros HPQ []. split; auto. Qed.
Lemma grows_keeps cfg cfg' : grows cfg cfg' → keeps (λ _, True) cfg cfg'.
Proof. intros [E S O _ _]. split; [by rewrite E|by rewrite E|done|by rewrite S|by rewrite E|by rewrite E]. Qed.
Lemma opened_keeps P cfg cfg' target names : keeps P cfg cfg' → opened cfg target names → opened cfg' target names.
Proof. intros Hk Ho j name Hj. eapply kp_open; [exact Hk|]. by apply Ho. Qed.

Lemma up_keeps P cfg cfg' gg i : keeps P cfg cfg' → P (servername (gid gg) i) → up cfg gg i → up cfg' gg i.
Proof.
  intros Hk HP (k & kv & names & mends & H1' & H2 & H3 & H4 & H5 & H6 & H7 & H8 & H9 & H10 & H11).
  exists k, kv, names, mends. rewrite (kp_servers _ _ _ Hk) by done. rewrite (kp_n _ _ _ Hk).
  split_and!; eauto using kp_kvs, opened_keeps.
Qed.

(** The persister of server [i]: a copy of the last one, or a new one. *)
Definition place_persister cfg (gg : group) (i : Z) : go (config R * group) :=
  ps ← index (g_saved gg) i;
  match ps with
  | Some _ => copy_persister cfg gg i
  | None =>
      let q := allocated cfg in
      l ← store (g_saved gg) i (Some q);
      mret (with_persisters cfg (<[q := MakePersister]> (persisters cfg)) (S q),
            mkGroup (gid gg) (g_servers gg) l (g_endnames gg) (g_mendnames gg))
  end.
Definition saved_ok cfg (gg : group) : Prop :=
  ∀ i q, g_saved gg !! i = Some (Some q) → is_Some (persisters cfg !! q).
Lemma place_persister_spec cfg gg i :
  0 ≤ i < Z.of_nat (length (g_saved gg)) → saved_ok cfg gg →
  ∃ p, place_persister cfg gg i =
    Ret (with_persisters cfg (<[allocated cfg := p]> (persisters cfg)) (S (allocated cfg)),
         mkGroup (gid gg) (g_servers gg) (<[Z.to_nat i := Some (allocated cfg)]> (g_saved gg))
           (g_endnames gg) (g_mendnames gg)).
Proof.
  intros Hi Hok. unfold place_persister. destruct (index_lt (g_saved gg) i Hi) as [ps Hps]. rewrite Hps. go_step.
  destruct ps as [q|].
  - unfold copy_persister. rewrite Hps. go_step. apply index_Ret in Hps as [_ Hq].
    destruct (Hok _ _ Hq) as [p ->]. exists (Copy p). cbn [deref]. go_step. by rewrite store_lt by done.
  - exists MakePersister. by rewrite store_lt by done.
Qed.

(** What [StartServer] leaves of the group, and of the rest. *)
Record started cfg (gi i : Z) (gg : group) cfg' (gg' : group) : Prop := {
  sd_groups : groups cfg' = <[Z.to_nat gi := Some gg']> (groups cfg);
  sd_gid : gid gg' = gid gg;
  sd_servers : ∃ k, g_servers gg' = <[Z.to_nat i := Some k]> (g_servers gg);
  sd_saved : ∃ q, g_saved gg' = <[Z.to_nat i := Some q]> (g_saved gg) ∧ is_Some (persisters cfg' !! q);
  sd_endnames : ∃ l, g_endnames gg' = <[Z.to_nat i := l]> (g_endnames gg);
  sd_mendnames : ∃ l, g_mendnames gg' = <[Z.to_nat i := l]> (g_mendnames gg);
  sd_keeps : keeps (λ s, s ≠ servername (gid gg) i) cfg cfg';
  sd_persisters q : is_Some (persisters cfg !! q) → is_Some (persisters cfg' !! q);
  sd_ctrlers : ctrlerservers cfg' = ctrlerservers cfg;
  sd_fresh : fresh cfg';
  sd_bounded : bounded cfg';
  sd_up : up cfg' gg' i;
}.

(** The tables of a group of [m] servers have room for server [i]. *)
Record room cfg (gg : group) (i : Z) : Prop := {
  rm_nonneg : 0 ≤ i;
  rm_servers : i < Z.of_nat (length (g_servers gg));
  rm_saved : i < Z.of_nat (length (g_saved gg));
  rm_endnames : i < Z.of_nat (length (g_endnames gg));
  rm_mendnames : i < Z.of_nat (length (g_mendnames gg));
}.

Lemma group_at_lookup cfg gi gg :
  group_at cfg gi = Ret gg ↔ 0 ≤ gi ∧ groups cfg !! Z.to_nat gi = Some (Some gg).
Proof.
  unfold group_at. rewrite go_bind_Ret. setoid_rewrite index_Ret. setoid_rewrite deref_Ret. naive_solver.
Qed.
Lemma set_group_lookup cfg gi gg gg' :
  group_at cfg gi = Ret gg → set_group cfg gi gg' = Ret (with_groups cfg (<[Z.to_nat gi := Some gg']> (groups cfg))).
Proof.
  intros [Hgi Hl]%group_at_lookup. unfold set_group. apply lookup_lt_Some in Hl. by rewrite store_lt by lia.
Qed.

Lemma StartServer_unfold cfg gi i gg :
  group_at cfg gi = Ret gg → room cfg gg i → fresh cfg →
  ∃ names mends cfg1, StartServer rnd cfg gi i =
    (r ← place_persister cfg1 (mkGroup (gid gg) (g_servers gg) (g_saved gg)
           (<[Z.to_nat i := names]> (g_endnames gg)) (<[Z.to_nat i := mends]> (g_mendnames gg))) i;
     let '(cfg, gg) := (r : config R * group) in
     q ← (ps ← index (g_saved gg) i; deref ps);
     let k := allocated cfg in
     l ← store (g_servers gg) i (Some k);
     let kv := StartShardKV names i q (maxraftstate cfg) (gid gg) mends (persisters cfg) in
     cfg ← set_group (with_persisters (with_kvs cfg (<[k := kv]> (kvs cfg))) (persisters cfg) (S k)) gi
          (mkGroup (gid gg) l (g_saved gg) (g_endnames gg) (g_mendnames gg));
     mret (with_net cfg (AddServer (servername (gid gg) i) k (net cfg)) (drawn cfg))) ∧
    grows cfg cfg1 ∧ length names = Z.to_nat (n cfg) ∧ opened cfg1 (servername (gid gg)) names ∧
    length mends = 3%nat ∧ opened cfg1 ctrlername mends.
Proof.
  intros Hg [Hi1 Hi2 Hi3 Hi4 Hi5] Hf.
  destruct (open_group_spec cfg (gid gg) (Z.to_nat (n cfg)) Hf) as (cfg1 & Ho & Hg1 & Hop).
  destruct (ctrler_ends_spec cfg1 (gr_fresh _ _ Hg1 Hf)) as (cfg2 & mends & Hm & Hg2 & Hml & Hmo).
  exists (rnd <$> seq (drawn cfg) (Z.to_nat (n cfg))), mends, cfg2. split_and!.
  - unfold StartServer. rewrite Hg. go_step. rewrite shard_draw_spec. rewrite (store_lt (g_mendnames gg) i []) by lia.
    rewrite store_lt by lia. go_step. rewrite Ho. go_step. rewrite Hm. go_step.
    rewrite (store_lt (g_mendnames gg) i mends) by lia. go_step.
    unfold place_persister. cbn [g_saved g_servers gid g_endnames g_mendnames].
    destruct (index (g_saved gg) i) as [[q|]| | | |]; go_step; reflexivity.
  - by transitivity cfg1.
  - by rewrite length_fmap, length_seq.
  - by eapply opened_grows.
  - done.
  - done.
Qed.

Lemma StartServer_up cfg gi i gg :
  group_at cfg gi = Ret gg → room cfg gg i → fresh cfg → bounded cfg → saved_ok cfg gg →
  ∃ cfg' gg', StartServer rnd cfg gi i = Ret cfg' ∧ started cfg gi i gg cfg' gg'.
Proof.
  intros Hg Hr Hf Hb Hs. pose proof Hr as [Hi1 Hi2 Hi3 Hi4 Hi5].
  destruct (StartServer_unfold cfg gi i gg Hg Hr Hf) as (names & mends & cfg1 & -> & Hg1 & Hnl & Hno & Hml & Hmo).
  destruct (place_persister_spec cfg1 (mkGroup (gid gg) (g_servers gg) (g_saved gg)
    (<[Z.to_nat i := names]> (g_endnames gg)) (<[Z.to_nat i := mends]> (g_mendnames gg))) i) as (p & ->).
  { simpl. lia. }
  { intros j q Hq. rewrite (gr_net _ _ Hg1). by apply (Hs j q). }
  go_step. cbn [g_saved g_servers gid g_endnames g_mendnames].
  pose proof (gr_net _ _ Hg1) as E1. pose proof (gr_servers _ _ Hg1) as Es.
  assert (allocated cfg1 = allocated cfg ∧ kvs cfg1 = kvs cfg ∧ groups cfg1 = groups cfg ∧ ctrlers cfg1 = ctrlers cfg ∧
    persisters cfg1 = persisters cfg ∧ ctrlerservers cfg1 = ctrlerservers cfg ∧ n cfg1 = n cfg) as (A1 & A2 & A3 & A4 & A5 & A6 & A7)
    by (rewrite E1; done).
  assert (index (<[Z.to_nat i:=Some (allocated cfg1)]> (g_saved gg)) i = Ret (Some (allocated cfg1))) as ->.
  { apply index_Ret. split; [lia|]. apply list_lookup_insert_eq. lia. }
  go_step. cbn [deref]. rewrite store_lt by lia. go_step.
  erewrite set_group_lookup. 2:{ apply group_at_lookup. apply group_at_lookup in Hg. simpl. by rewrite A3. }
  go_step. set (k := S (allocated cfg1)). cbn [allocated with_persisters].
  eexists _, (mkGroup (gid gg) (<[Z.to_nat i := Some k]> (g_servers gg))
    (<[Z.to_nat i := Some (allocated cfg1)]> (g_saved gg)) (<[Z.to_nat i := names]> (g_endnames gg))
    (<[Z.to_nat i := mends]> (g_mendnames gg))). split; [reflexivity|].
  match goal with |- started _ _ _ _ ?x _ => set (cfg' := x) end.
  assert (kvs cfg !! k = None) as Hk by (apply Hb; lia).
  assert (keeps (λ s, s ≠ servername (gid gg) i) cfg cfg') as Hkeep.
  { split; simpl.
    - done.
    - by rewrite E1.
    - intros s t Ho. by apply (gr_open _ _ Hg1) in Ho.
    - intros s Hne. rewrite lookup_insert_ne by done. by rewrite Es.
    - intros k' kv Hk'. rewrite A2. apply lookup_insert_Some. right. split; [|done]. intros ->. by rewrite Hk in Hk'.
    - by rewrite A4. }
  split; simpl; rewrite ?A3; try done.
  - by eexists.
  - eexists. split; [done|]. rewrite lookup_insert_eq. by eexists.
  - by eexists.
  - by eexists.
  - intros q [x Hx]. destruct (decide (q = allocated cfg1)) as [->|]; [rewrite lookup_insert_eq; by eexists|].
    rewrite lookup_insert_ne, A5, Hx by done. by eexists.
  - apply (gr_fresh _ _ Hg1 Hf).
  - intros j Hj. simpl in Hj. simpl. rewrite A2, A4, lookup_insert_ne by lia. apply Hb. lia.
  - eexists k, _, names, mends. cbn [cfg' with_net with_groups with_persisters with_kvs kvs net n].
    split_and!; [|apply lookup_insert_eq|..].
    + apply list_lookup_insert_eq. lia.
    + apply lookup_insert_eq.
    + apply Make_alive.
    + done.
    + apply list_lookup_insert_eq. lia.
    + by rewrite A7.
    + done.
    + apply list_lookup_insert_eq. lia.
    + done.
    + done.
Qed.

Lemma up_other cfg gi j gg cfg' gg' i :
  started cfg gi j gg cfg' gg' → 0 ≤ gid gg → 0 ≤ i → 0 ≤ j → i ≠ j → up cfg gg i → up cfg' gg' i.
Proof.
  intros [_ Eg [k' Es] _ [l1 E1] [l2 E2] Hk _ _ _ _ _] Hgid Hi Hj Hne.
  intros (k & kv & names & mends & H1' & H2 & H3 & H4 & H5 & H6 & H7 & H8 & H9 & H10 & H11).
  exists k, kv, names, mends. rewrite Es, E1, E2, Eg, !list_lookup_insert_ne by lia.
  rewrite (kp_servers _ _ _ Hk), (kp_n _ _ _ Hk).
  2:{ intros E%servername_inj; [|done..]. lia. }
  split_and!; eauto using kp_kvs, opened_keeps.
Qed.

(** The first [j] servers of a new group of [m]. *)
Record group_started cfg (m gi j : Z) cfg' (gg : group) : Prop := {
  gs_groups : groups cfg' = <[Z.to_nat gi := Some gg]> (groups cfg);
  gs_gid : gid gg = 100 + gi;
  gs_room i : 0 ≤ i < m → i < 3 → room cfg' gg i;
  gs_mend : length (g_mendnames gg) = 3%nat;
  gs_tables i : 0 ≤ i < m → i < Z.of_nat (length (g_endnames gg));
  gs_saved : saved_ok cfg' gg;
  gs_up i : 0 ≤ i < j → up cfg' gg i;
  gs_keeps : keeps (λ s, ∀ i, s ≠ servername (100 + gi) i) cfg cfg';
  gs_ctrlers : ctrlerservers cfg' = ctrlerservers cfg;
  gs_fresh : fresh cfg';
  gs_bounded : bounded cfg';
}.

Lemma new_group_started cfg m gi :
  0 ≤ gi → groups cfg !! Z.to_nat gi = Some (Some (new_group m gi)) → fresh cfg → bounded cfg →
  group_started cfg m gi 0 cfg (new_group m gi).
Proof.
  intros Hgi Hg Hf Hb. split; try done.
  - by rewrite list_insert_id.
  - intros i Hi Hi3. split; simpl; rewrite ?length_replicate; lia.
  - intros i Hi. simpl. rewrite length_replicate. lia.
  - intros i q Hq. simpl in Hq. apply lookup_replicate in Hq as [? _]. done.
  - intros i Hi. lia.
Qed.

Lemma group_started_at cfg m gi j cfg' gg :
  0 ≤ gi < Z.of_nat (length (groups cfg)) → group_started cfg m gi j cfg' gg → group_at cfg' gi = Ret gg.
Proof.
  intros Hgi Hs. apply group_at_lookup. split; [lia|]. rewrite (gs_groups _ _ _ _ _ _ Hs).
  apply list_lookup_insert_eq. lia.
Qed.

Lemma StartServer_next cfg m gi j cfg' gg :
  0 ≤ gi < Z.of_nat (length (groups cfg)) → 0 ≤ j < m → j < 3 → group_started cfg m gi j cfg' gg →
  ∃ cfg2 gg2, StartServer rnd cfg' gi j = Ret cfg2 ∧ group_started cfg m gi (j + 1) cfg2 gg2.
Proof.
  intros Hgi Hj Hj3 Hgs. pose proof (group_started_at _ _ _ _ _ _ Hgi Hgs) as Hat.
  destruct Hgs as [G1 G2 G3 G4 G5 G6 G7 G8 G9 G10 G11].
  destruct (StartServer_up cfg' gi j gg Hat (G3 j Hj Hj3) G10 G11 G6) as (cfg2 & gg2 & Hr & Hst).
  exists cfg2, gg2. split; [done|].
  pose proof Hst as [S1 S2 [ks S3] (q & S4 & S5) [le S6] [lm S7] S8 S9 S10 S11 S12 S13]. split; try done.
  - by rewrite S1, G1, list_insert_insert_eq.
  - by rewrite S2.
  - intros i Hi Hi3. destruct (G3 i Hi Hi3) as [].
    split; rewrite ?S3, ?S4, ?S6, ?S7, ?length_insert; done.
  - by rewrite S7, length_insert.
  - intros i Hi. rewrite S6, length_insert. by apply G5.
  - intros i q'. rewrite S4. intros [(_ & [= <-] & _)|[_ Hi]]%list_lookup_insert_Some; [done|].
    by apply S9, (G6 i).
  - intros i Hi. destruct (decide (i = j)) as [->|]; [done|].
    eapply up_other; [exact Hst|lia|lia|lia|done|]. apply G7. lia.
  - eapply keeps_weaken; [|eapply keeps_trans; [exact G8|exact S8]].
    intros s Hs. split; [done|]. rewrite G2. apply Hs.
  - congruence.
Qed.

Lemma StartGroup_upto cfg m gi j :
  0 ≤ gi < Z.of_nat (length (groups cfg)) → groups cfg !! Z.to_nat gi = Some (Some (new_group m gi)) →
  fresh cfg → bounded cfg → 0 ≤ j ≤ m → j ≤ 3 →
  ∃ cfg' gg, go_fold (λ cfg i, StartServer rnd cfg gi i) (seqZ 0 j) cfg = Ret cfg' ∧ group_started cfg m gi j cfg' gg.
Proof.
  intros Hgi Hg Hf Hb Hj Hj3.
  destruct (go_fold_inv (λ cfg i, StartServer rnd cfg gi i)
    (λ d cfg', ∃ gg, group_started cfg m gi (Z.of_nat (length d)) cfg' gg) (seqZ 0 j) cfg)
    as (cfg' & Hr & gg & Hgs).
  - exists (new_group m gi). apply new_group_started; [lia|done..].
  - intros d i rest cfg' [-> Hlt]%seqZ_split [gg Hgs].
    destruct (StartServer_next cfg m gi (Z.of_nat (length d)) cfg' gg) as (cfg2 & gg2 & Hr & Hgs2); [done|lia|lia|done|].
    exists cfg2. rewrite Z.add_0_l, Hr. split; [done|]. exists gg2. rewrite length_app. simpl.
    by replace (Z.of_nat (length d + 1)) with (Z.of_nat (length d) + 1) by lia.
  - exists cfg', gg. split; [done|]. by rewrite length_seqZ, Z2Nat.id in Hgs by lia.
Qed.

(** The fourth server of a group finds no place in [mendnames]. *)
Lemma StartServer_panics cfg m gi cfg' gg :
  0 ≤ gi < Z.of_nat (length (groups cfg)) → 3 < m → group_started cfg m gi 3 cfg' gg →
  StartServer rnd cfg' gi 3 = Panic.
Proof.
  intros Hgi Hm Hgs. pose proof (group_started_at _ _ _ _ _ _ Hgi Hgs) as Hat.
  destruct (open_group_spec cfg' (gid gg) (Z.to_nat (n cfg')) (gs_fresh _ _ _ _ _ _ Hgs)) as (cfg1 & Ho & _).
  unfold StartServer. rewrite Hat. go_step. rewrite shard_draw_spec.
  pose proof (gs_tables _ _ _ _ _ _ Hgs 3) as Ht.
  rewrite (store_lt (g_endnames gg)) by lia. go_step. rewrite Ho. go_step.
  unfold store. by rewrite decide_False by (rewrite (gs_mend _ _ _ _ _ _ Hgs); lia).
Qed.

Lemma StartGroup_spec cfg gi :
  0 ≤ gi < Z.of_nat (length (groups cfg)) → groups cfg !! Z.to_nat gi = Some (Some (new_group (n cfg) gi)) →
  fresh cfg → bounded cfg → 0 ≤ n cfg →
  (n cfg ≤ 3 → ∃ cfg' gg, StartGroup rnd cfg gi = Ret cfg' ∧ group_started cfg (n cfg) gi (n cfg) cfg' gg) ∧
  (3 < n cfg → StartGroup rnd cfg gi = Panic).
Proof.
  intros Hgi Hg Hf Hb Hn. split; intros Hm.
  - apply StartGroup_upto; [done|done|done|done|lia|done].
  - destruct (StartGroup_upto cfg (n cfg) gi 3) as (cfg' & gg & Hr & Hgs); [done|done|done|done|lia|done|].
    unfold StartGroup. replace (n cfg) with (3 + (n cfg - 3)) by lia. rewrite seqZ_app, go_fold_app, Hr by lia. go_step.
    rewrite seqZ_cons, Z.add_0_l by lia. cbn [go_fold]. by rewrite (StartServer_panics _ _ _ _ _ Hgi Hm Hgs).
Qed.
End tester.
