(* ===== verification/ShardTesterConfig.v ===== *)
(** * The tester of the sharded service: the configurations that can be made *)
From S2P Require Import Prelude GoStrings Persister Raft Labrpc ShardClerk ShardTester ShardTesterProof.
#[local] Open Scope Z_scope.

Section tester.
Context {R C : Type} `{RaftLaws R C} (rnd : nat → string) `{Inj nat string (=) (=) rnd}.
Implicit Types (cfg : config R) (names : list string).
Abbreviation fresh := (fresh rnd).

(** Controller [c] runs under its name. *)
Definition ctrler_up cfg (c : Z) : Prop :=
  ∃ k sc, ctrlerservers cfg !! Z.to_nat c = Some (Some k) ∧ ctrlers cfg !! k = Some sc ∧
    servers (net cfg) !! ctrlername c = Some (Some k) ∧ rf_alive (sc_rf sc) = true.
Lemma ctrler_up_keeps P cfg cfg' c :
  keeps P cfg cfg' → ctrlerservers cfg' = ctrlerservers cfg → P (ctrlername c) → ctrler_up cfg c → ctrler_up cfg' c.
Proof.
  intros Hk Hc HP (k & sc & H1' & H2 & H3 & H4). exists k, sc.
  rewrite Hc, (kp_servers _ _ _ Hk) by done. split_and!; eauto using kp_ctrlers.
Qed.

Lemma StartCtrlerserver_up cfg i :
  0 ≤ i < Z.of_nat (length (ctrlerservers cfg)) → fresh cfg → bounded cfg →
  ∃ cfg' k, StartCtrlerserver (C := C) rnd cfg i = Ret cfg' ∧ keeps (λ s, s ≠ ctrlername i) cfg cfg' ∧
    ctrlerservers cfg' = <[Z.to_nat i := Some k]> (ctrlerservers cfg) ∧ groups cfg' = groups cfg ∧
    mck cfg' = mck cfg ∧ fresh cfg' ∧ bounded cfg' ∧ ctrler_up cfg' i.
Proof.
  intros Hi Hf Hb. destruct (ctrler_ends_spec rnd cfg Hf) as (cfg1 & ends & Hr & Hg & _ & _).
  pose proof (gr_net _ _ _ Hg) as E1. pose proof (gr_servers _ _ _ Hg) as Es.
  assert (allocated cfg1 = allocated cfg ∧ kvs cfg1 = kvs cfg ∧ groups cfg1 = groups cfg ∧ ctrlers cfg1 = ctrlers cfg ∧
    ctrlerservers cfg1 = ctrlerservers cfg ∧ n cfg1 = n cfg ∧ mck cfg1 = mck cfg) as (A1 & A2 & A3 & A4 & A5 & A6 & A7)
    by (rewrite E1; done).
  unfold StartCtrlerserver. rewrite Hr. go_step. cbn [ctrlerservers with_persisters]. rewrite store_lt by (rewrite A5; lia).
  go_step. eexists _, (S (allocated cfg1)). split; [done|]. split_and!.
  - split; simpl; rewrite ?A2, ?A4.
    + done.
    + done.
    + intros s t Ho. by apply (gr_open _ _ _ Hg) in Ho.
    + intros s Hne. by rewrite lookup_insert_ne, Es by done.
    + done.
    + intros k sc Hk. apply lookup_insert_Some. right. split; [|done]. intros <-.
      destruct (Hb (S (allocated cfg1))) as [_ Hn]; [lia|]. by rewrite Hn in Hk.
  - simpl. by rewrite A5.
  - done.
  - done.
  - apply (gr_fresh _ _ _ Hg Hf).
  - intros j Hj. simpl in *. rewrite A2, A4, lookup_insert_ne by lia. apply Hb. lia.
  - eexists _, _. simpl. split_and!; [|apply lookup_insert_eq|apply lookup_insert_eq|apply Make_alive].
    apply list_lookup_insert_eq. rewrite A5. lia.
Qed.

(** What [make_config] provides. *)
Record ready cfg : Prop := {
  rd_group gi : 0 ≤ gi < 3 → ∃ gg, group_at cfg gi = Ret gg ∧ gid gg = 100 + gi ∧ ∀ i, 0 ≤ i < n cfg → up cfg gg i;
  rd_ctrler c : 0 ≤ c < 3 → ctrler_up cfg c;
  rd_mck : length (mck cfg) = 3%nat ∧ opened cfg ctrlername (mck cfg);
  rd_fresh : fresh cfg;
}.

(** After the groups below [gi] have been started. *)
Record groups_ready cfg (gi : Z) : Prop := {
  gp_length : length (groups cfg) = 3%nat;
  gp_group g : 0 ≤ g < gi → ∃ gg, group_at cfg g = Ret gg ∧ gid gg = 100 + g ∧ ∀ i, 0 ≤ i < n cfg → up cfg gg i;
  gp_ctrler c : 0 ≤ c < 3 → ctrler_up cfg c;
  gp_mck : length (mck cfg) = 3%nat ∧ opened cfg ctrlername (mck cfg);
  gp_fresh : fresh cfg;
  gp_bounded : bounded cfg;
}.

Lemma ctrlers_ready m maxstate :
  let cfg0 := mkTester MakeNetwork (replicate (Z.to_nat nctrlers) None) [] 0 [] ∅ 0 maxstate ∅ ∅ ∅ O O in
  ∃ cfg1 cfg2 ends, go_fold (StartCtrlerserver (C := C) rnd) (seqZ 0 nctrlers) cfg0 = Ret cfg1 ∧
    shardclerk rnd cfg1 = Ret (cfg2, ends) ∧
    let cfg := mkTester (R := R) (net cfg2) (ctrlerservers cfg2) ends m (replicate (Z.to_nat ngroups) None) (clerks cfg2)
      (nextClientId cfg2) (maxraftstate cfg2) (ctrlers cfg2) (kvs cfg2) (persisters cfg2) (allocated cfg2) (drawn cfg2) in
    groups_ready cfg 0.
Proof.
  intros cfg0.
  destruct (go_fold_inv (StartCtrlerserver (C := C) rnd) (λ d cfg, length (ctrlerservers cfg) = 3%nat ∧
    (∀ c, 0 ≤ c < Z.of_nat (length d) → ctrler_up cfg c) ∧ fresh cfg ∧ bounded cfg) (seqZ 0 nctrlers) cfg0)
    as (cfg1 & Hr & Hl & Hc & Hf & Hb).
  - split_and!; [done|simpl; lia| |done]. intros d _. simpl. set_solver.
  - intros d i rest cfg [-> Hlt]%seqZ_split (Hl & Hc & Hf & Hb). unfold nctrlers in Hlt.
    destruct (StartCtrlerserver_up cfg (Z.of_nat (length d))) as (cfg' & k & Hr & Hk & Hcs & _ & _ & Hf' & Hb' & Hup);
      [lia|done|done|].
    exists cfg'. rewrite Z.add_0_l, Hr. split; [done|]. split_and!; [by rewrite Hcs, length_insert| |done|done].
    intros c Hc'. rewrite length_app in Hc'. simpl in Hc'.
    destruct (decide (c = Z.of_nat (length d))) as [->|Hne]; [done|].
    destruct (Hc c) as (k' & sc & H1' & H2 & H3 & H4); [lia|]. exists k', sc.
    rewrite Hcs, list_lookup_insert_ne by lia. rewrite (kp_servers _ _ _ Hk).
    2:{ unfold ctrlername. intros E%append_inj_l%(inj Itoa). lia. }
    split_and!; eauto using kp_ctrlers.
  - destruct (ctrler_ends_spec rnd cfg1 Hf) as (cfg2 & ends & Hr2 & Hg & Hel & Ho).
    exists cfg1, cfg2, ends. split_and!; [done|done|]. intros cfg.
    pose proof (gr_net _ _ _ Hg) as E2.
    assert (keeps (λ _, True) cfg1 cfg2) as Hk2 by by eapply grows_keeps.
    split; try done.
    + intros g Hg'. lia.
    + intros c Hc'. destruct (Hc c) as (k & sc & H1' & H2 & H3 & H4); [done|]. exists k, sc. simpl.
      rewrite E2 at 1. rewrite (kp_servers _ _ _ Hk2) by done. split_and!; eauto using kp_ctrlers.
    + apply (gr_fresh _ _ _ Hg Hf).
    + intros j Hj. simpl in *. rewrite E2. simpl. apply Hb. by rewrite E2 in Hj.
Qed.

Lemma set_group_step cfg gi :
  groups_ready cfg gi → 0 ≤ gi < 3 →
  ∃ cfg', set_group cfg gi (new_group (n cfg) gi) = Ret cfg' ∧
    groups cfg' = <[Z.to_nat gi := Some (new_group (n cfg) gi)]> (groups cfg) ∧ n cfg' = n cfg ∧
    mck cfg' = mck cfg ∧ ctrlerservers cfg' = ctrlerservers cfg ∧
    keeps (λ _, True) cfg cfg' ∧ fresh cfg' ∧ bounded cfg'.
Proof.
  intros Hgr Hgi. pose proof (gp_length _ _ Hgr) as Hl. unfold set_group. rewrite store_lt by lia. go_step.
  eexists. split; [done|]. split_and!; try done; [apply Hgr|]. intros j Hj. by apply Hgr.
Qed.

Lemma group_step cfg gi :
  groups_ready cfg gi → 0 ≤ gi < 3 → 0 ≤ n cfg →
  (n cfg ≤ 3 → ∃ cfg', (cfg ← set_group cfg gi (new_group (n cfg) gi); StartGroup (C := C) rnd cfg gi) = Ret cfg' ∧
     groups_ready cfg' (gi + 1) ∧ n cfg' = n cfg) ∧
  (3 < n cfg → (cfg ← set_group cfg gi (new_group (n cfg) gi); StartGroup (C := C) rnd cfg gi) = Panic).
Proof.
  intros Hgr Hgi Hn. pose proof (gp_length _ _ Hgr) as Hl.
  destruct (set_group_step cfg gi Hgr Hgi) as (cfg1 & -> & Eg & En & Em & Ec & Hk1 & Hf1 & Hb1). go_step.
  destruct (StartGroup_spec rnd cfg1 gi) as [Hok Hbad];
    [rewrite Eg, length_insert; lia|rewrite Eg, En; apply list_lookup_insert_eq; lia|done|done|lia|].
  rewrite En in *. split; [|done]. intros Hm. destruct (Hok Hm) as (cfg2 & gg & Hr & Hgs). exists cfg2.
  split; [done|]. pose proof (gs_keeps _ _ _ _ _ _ _ Hgs) as Hk2. pose proof (kp_n _ _ _ Hk2) as En2.
  assert (keeps (λ s, True ∧ ∀ i, s ≠ servername (100 + gi) i) cfg cfg2) as Hk by by eapply keeps_trans.
  pose proof (gs_groups _ _ _ _ _ _ _ Hgs) as Eg2. rewrite Eg, list_insert_insert_eq in Eg2.
  assert (∀ c i, ctrlername c ≠ servername (100 + gi) i) as Hcs by (intros; apply ctrlername_servername).
  split; [|congruence]. split.
  - by rewrite Eg2, length_insert.
  - intros g Hg. rewrite En2, En. destruct (decide (g = gi)) as [->|Hne].
    + exists gg. split_and!; [|apply (gs_gid _ _ _ _ _ _ _ Hgs)|apply (gs_up _ _ _ _ _ _ _ Hgs)].
      apply group_at_lookup. split; [lia|]. rewrite Eg2. apply list_lookup_insert_eq. lia.
    + destruct (gp_group _ _ Hgr g) as (gg' & Hat & Hgid & Hup); [lia|]. exists gg'. split_and!.
      * apply group_at_lookup. apply group_at_lookup in Hat as [? Hat]. split; [done|].
        by rewrite Eg2, list_lookup_insert_ne by lia.
      * done.
      * intros i Hi. eapply up_keeps; [exact Hk| |by apply Hup]. split; [done|]. rewrite Hgid.
        intros i' E%servername_inj; lia.
  - intros c Hc. eapply ctrler_up_keeps; [exact Hk| |done|by apply Hgr].
    by rewrite (gs_ctrlers _ _ _ _ _ _ _ Hgs).
  - destruct (gp_mck _ _ Hgr) as [? ?]. rewrite (kp_mck _ _ _ Hk). split; [done|]. by eapply opened_keeps.
  - apply Hgs.
  - apply Hgs.
Qed.

(** The loop over the groups. *)
Definition start_groups (m : Z) (cfg : config R) : go (config R) :=
  go_fold (λ cfg gi, cfg ← set_group cfg gi (new_group m gi); StartGroup (C := C) rnd cfg gi) (seqZ 0 ngroups) cfg.
Lemma start_groups_spec cfg :
  groups_ready cfg 0 → 0 ≤ n cfg →
  (n cfg ≤ 3 → ∃ cfg', start_groups (n cfg) cfg = Ret cfg' ∧ groups_ready cfg' 3 ∧ n cfg' = n cfg) ∧
  (3 < n cfg → start_groups (n cfg) cfg = Panic).
Proof.
  intros Hgr Hn. split; intros Hm.
  - destruct (go_fold_inv (λ cfg' gi, cfg' ← set_group cfg' gi (new_group (n cfg) gi); StartGroup (C := C) rnd cfg' gi)
      (λ d cfg', groups_ready cfg' (Z.of_nat (length d)) ∧ n cfg' = n cfg) (seqZ 0 ngroups) cfg)
      as (cfg' & Hr & Hg & En).
    + done.
    + intros d gi rest cfg1 [-> Hlt]%seqZ_split [Hg En]. unfold ngroups in Hlt. rewrite Z.add_0_l.
      destruct (group_step cfg1 (Z.of_nat (length d))) as [Hok _]; [done|lia|lia|].
      destruct Hok as (cfg2 & Hr & Hg2 & En2); [lia|]. exists cfg2. rewrite En in Hr, En2. split; [done|].
      rewrite length_app. simpl. split; [|done].
      by replace (Z.of_nat (length d + 1)) with (Z.of_nat (length d) + 1) by lia.
    + exists cfg'. by split_and!.
  - destruct (group_step cfg 0) as [_ Hbad]; [done|lia|done|]. unfold start_groups, ngroups.
    rewrite seqZ_cons by lia. cbn [go_fold]. by rewrite Hbad.
Qed.

Lemma make_config_ready m unreliable maxstate :
  0 ≤ m ≤ 3 → ∃ cfg, make_config (C := C) rnd m unreliable maxstate = Ret cfg ∧ n cfg = m ∧ ready cfg.
Proof.
  intros Hm. destruct (ctrlers_ready m maxstate) as (cfg1 & cfg2 & ends & H1' & H2 & Hgr).
  unfold make_config. rewrite H1'. go_step. rewrite H2. go_step.
  destruct (start_groups_spec _ Hgr) as [Hok _]; [simpl; lia|]. destruct Hok as (cfg & Hr & Hg & En); [simpl; lia|].
  unfold start_groups in Hr. cbn [n] in Hr, En. rewrite Hr. go_step. eexists. split; [done|]. split; [done|].
  destruct Hg as [Hl Hgg Hc Hmck Hf Hb]. by split.
Qed.

Lemma make_config_panics m unreliable maxstate :
  3 < m → make_config (C := C) (R := R) rnd m unreliable maxstate = Panic.
Proof.
  intros Hm. destruct (ctrlers_ready m maxstate) as (cfg1 & cfg2 & ends & H1' & H2 & Hgr).
  unfold make_config. rewrite H1'. go_step. rewrite H2. go_step.
  destruct (start_groups_spec _ Hgr) as [_ Hbad]; [simpl; lia|]. unfold start_groups in Hbad. cbn [n] in Hbad.
  by rewrite Hbad.
Qed.

(** ** Clients *)
Definition client_step : config R * list string → Z → go (config R * list string) := λ '(cfg, endnames) j,
  let '(cfg, name) := randstring rnd cfg in
  endnames ← store endnames j name;
  cfg ← open_end cfg name (ctrlername j);
  mret (cfg, endnames).
Lemma client_step_spec cfg l j :
  fresh cfg → 0 ≤ j < Z.of_nat (length l) →
  ∃ cfg' name, client_step (cfg, l) j = Ret (cfg', <[Z.to_nat j := name]> l) ∧
    grows rnd cfg cfg' ∧ open cfg' name (ctrlername j).
Proof.
  intros Hf Hj. destruct (make_end_spec rnd cfg (ctrlername j) Hf) as (cfg' & name & Hr & Hg & Ho).
  unfold make_end, randstring in Hr. apply go_bind_Ret in Hr as (cfg1 & Hr & [= <- <-]).
  exists cfg1, (rnd (drawn cfg)). split; [|done]. unfold client_step, randstring.
  rewrite store_lt by done. go_step. by rewrite Hr.
Qed.
Lemma client_steps cfg m j :
  fresh cfg → 0 ≤ j → j ≤ Z.of_nat m →
  ∃ cfg' l, go_fold client_step (seqZ 0 j) (cfg, replicate m ""%string) = Ret (cfg', l) ∧ grows rnd cfg cfg' ∧
    length l = m ∧ ∀ c, 0 ≤ c < j → ∃ name, l !! Z.to_nat c = Some name ∧ open cfg' name (ctrlername c).
Proof.
  intros Hf Hj Hm.
  destruct (go_fold_inv client_step (λ d st, grows rnd cfg st.1 ∧ length st.2 = m ∧
    ∀ c, 0 ≤ c < Z.of_nat (length d) → ∃ name, st.2 !! Z.to_nat c = Some name ∧ open st.1 name (ctrlername c))
    (seqZ 0 j) (cfg, replicate m ""%string)) as ([cfg' l] & Hr & Hg & Hl & Hc).
  - split_and!; [by apply grows_preorder|simpl; by rewrite length_replicate|simpl; lia].
  - intros d i rest [cfg1 l] [-> Hlt]%seqZ_split (Hg & Hl & Hc). cbn [fst snd] in *. rewrite Z.add_0_l.
    destruct (client_step_spec cfg1 l (Z.of_nat (length d))) as (cfg2 & name & Hr & Hg2 & Ho);
      [by eapply gr_fresh|lia|].
    eexists. split; [exact Hr|]. cbn [fst snd]. split_and!; [by eapply grows_preorder|by rewrite length_insert|].
    intros c Hc'. rewrite length_app in Hc'. simpl in Hc'.
    destruct (decide (c = Z.of_nat (length d))) as [->|Hne].
    + exists name. rewrite list_lookup_insert_eq by lia. done.
    + destruct (Hc c) as (name' & Hn & Ho'); [lia|]. exists name'. rewrite list_lookup_insert_ne by lia.
      split; [done|]. by eapply gr_open.
  - exists cfg', l. split_and!; [done|done|done|]. intros c Hc'. apply Hc. rewrite length_seqZ. lia.
Qed.

Lemma makeClient_three cfg : fresh cfg → 3 ≤ n cfg →
  ∃ cfg' ck l, makeClient rnd cfg = Ret (cfg', ck) ∧ clerks cfg' = <[ck := l]> (clerks cfg) ∧
    keeps (λ _, True) cfg cfg' ∧
    ∀ c, 0 ≤ c < 3 → ∃ name, l !! Z.to_nat c = Some name ∧ open cfg' name (ctrlername c).
Proof.
  intros Hf Hn. destruct (client_steps cfg (Z.to_nat (n cfg)) 3 Hf) as (cfg1 & l & Hr & Hg & Hl & Hc); [lia|lia|].
  unfold makeClient. unfold client_step in Hr. unfold nctrlers. rewrite Hr. go_step.
  assert (clerks cfg1 = clerks cfg) as Ek by by rewrite (gr_net _ _ _ Hg).
  eexists _, _, l. split; [done|]. split; [simpl; by rewrite Ek|]. split; [|done].
  destruct (grows_keeps _ _ _ Hg). by split.
Qed.
Lemma makeClient_few cfg : fresh cfg → 0 ≤ n cfg < 3 → makeClient rnd cfg = Panic.
Proof.
  intros Hf Hn. destruct (client_steps cfg (Z.to_nat (n cfg)) (n cfg) Hf) as (cfg1 & l & Hr & _ & Hl & _); [lia|lia|].
  unfold makeClient, nctrlers. replace 3 with (n cfg + (3 - n cfg)) at 1 by lia. rewrite seqZ_app by lia.
  fold client_step. rewrite go_fold_app, Hr. go_step. rewrite seqZ_cons, Z.add_0_l by lia. cbn [go_fold].
  assert (client_step (cfg1, l) (n cfg) = Panic) as Hp; [|by rewrite Hp].
  unfold client_step, randstring, store. by rewrite decide_False by lia.
Qed.

(** ** Joining *)
Lemma join_servers_spec cfg gis :
  ready cfg → Forall (λ g, 0 ≤ g < 3) gis →
  ∃ m, join_servers cfg gis = Ret m ∧ ∀ g names, m !! g = Some names ↔
    names = servername g <$> seqZ 0 (n cfg) ∧ ∃ gi, gi ∈ gis ∧ g = 100 + gi.
Proof.
  intros Hr Hgis. rewrite Forall_forall in Hgis.
  destruct (go_fold_inv (λ (m : gmap Z (list string)) g, gg ← group_at cfg g;
      mret (<[gid gg := servername (gid gg) <$> seqZ 0 (n cfg)]> m))
    (λ d m, ∀ g names, m !! g = Some names ↔
      names = servername g <$> seqZ 0 (n cfg) ∧ ∃ gi, gi ∈ d ∧ g = 100 + gi) gis ∅) as (m & Hm & HP).
  - intros g names. rewrite lookup_empty. split; [done|]. by intros (_ & gi & ?%elem_of_nil & _).
  - intros d gi rest m Hd HP. destruct (rd_group _ Hr gi) as (gg & -> & Hgid & _); [apply Hgis; set_solver|].
    go_step. eexists. split; [done|]. intros g names. rewrite lookup_insert_Some, HP, Hgid. split.
    + intros [[<- <-]|(Hne & -> & gi' & ? & ->)]; (split; [done|]); eexists; (split; [|done]); set_solver.
    + intros (-> & gi' & Hin & ->). destruct (decide (gi' = gi)) as [->|Hne]; [by left|right].
      split; [lia|]. split; [done|]. exists gi'. set_solver.
  - by exists m.
Qed.

(** ** Shutting a server down *)
Lemma disable_all_enabled cfg names s :
  enabled (net (disable_all cfg names)) !! s = if decide (s ∈ names) then Some false else enabled (net cfg) !! s.
Proof.
  unfold disable_all. cbn [net with_net]. generalize (net cfg) as rn.
  induction names as [|a names IH]; intros rn; cbn [foldl]; [done|].
  rewrite IH. cbn [enabled Enable]. destruct (decide (s = a)) as [->|Hne].
  - rewrite lookup_insert_eq. rewrite (decide_True (P := a ∈ a :: names)) by by left. by case_decide.
  - rewrite lookup_insert_ne by done. repeat case_decide; try done; set_solver.
Qed.
Lemma disable_all_servers cfg names : servers (net (disable_all cfg names)) = servers (net cfg).
Proof.
  unfold disable_all. cbn [net with_net]. generalize (net cfg) as rn.
  induction names as [|a names IH]; intros rn; cbn [foldl]; [done|]. by rewrite IH.
Qed.
Lemma disable_row_all cfg row len :
  (len ≤ length row)%nat → disable_row cfg row len = Ret (disable_all cfg (take len row)).
Proof.
  intros Hl. unfold disable_row.
  destruct (go_fold_inv (λ (cfg : config R) j, name ← index row j; mret (with_net cfg (Enable name false (net cfg)) (drawn cfg)))
    (λ d cfg', cfg' = disable_all cfg (take (length d) row)) (seqZ 0 (Z.of_nat len)) cfg) as (cfg' & -> & ->).
  - by destruct cfg.
  - intros d j rest cfg' [-> Hlt]%seqZ_split ->. rewrite Z.add_0_l.
    destruct (lookup_lt_is_Some_2 row (length d)) as [name Hn]; [lia|]. rewrite (index_lookup _ _ _ Hn). go_step.
    eexists. split; [done|]. rewrite length_app, Nat.add_1_r, (take_S_r _ _ _ Hn).
    unfold disable_all. by rewrite foldl_app.
  - by rewrite length_seqZ, Nat2Z.id.
Qed.

Lemma copy_persister_spec cfg gg i :
  0 ≤ i < Z.of_nat (length (g_saved gg)) → saved_ok cfg gg →
  ∃ h k l, copy_persister cfg gg i = Ret (with_persisters cfg h k,
    mkGroup (gid gg) (g_servers gg) l (g_endnames gg) (g_mendnames gg)).
Proof.
  intros Hi Hok. unfold copy_persister. destruct (index_lt (g_saved gg) i Hi) as [[q|] Hps]; rewrite Hps; go_step.
  - apply index_Ret in Hps as [_ Hq]. destruct (Hok _ _ Hq) as [p ->]. cbn [deref]. go_step.
    rewrite store_lt by done. by eexists _, _, _.
  - exists (persisters cfg), (allocated cfg), (g_saved gg). by destruct cfg, gg.
Qed.

(** The server is deleted and killed, and the ends of its two rows are disabled;
    every other end keeps its state, those made by [make_end] included. *)
Lemma ShutdownServer_stops cfg gi gg i :
  group_at cfg gi = Ret gg → 0 ≤ i → up cfg gg i → saved_ok cfg gg →
  length (g_servers gg) = Z.to_nat (n cfg) → length (g_saved gg) = Z.to_nat (n cfg) →
  ∃ cfg' k kv names mends, ShutdownServer (C := C) cfg gi i = Ret cfg' ∧
    g_servers gg !! Z.to_nat i = Some (Some k) ∧ kvs cfg !! k = Some kv ∧ kvs cfg' !! k = Some (KillShardKV kv) ∧
    servers (net cfg') = <[servername (gid gg) i := None]> (servers (net cfg)) ∧
    g_endnames gg !! Z.to_nat i = Some names ∧ g_mendnames gg !! Z.to_nat i = Some mends ∧
    ∀ s, enabled (net cfg') !! s = if decide (s ∈ names ++ mends) then Some false else enabled (net cfg) !! s.
Proof.
  intros Hg Hi (k & kv & names & mends & Hk & Hkv & _ & _ & _ & Hn & Hnl & _ & Hm & _ & _) Hok Hl1 Hl2.
  pose proof (lookup_lt_Some _ _ _ Hk) as Hlt.
  unfold ShutdownServer. rewrite Hg. go_step.
  assert (index (g_endnames gg) i = Ret names) as -> by (apply index_Ret; done).
  assert (index (g_mendnames gg) i = Ret mends) as -> by (apply index_Ret; done).
  destruct (g_servers gg) as [|s0 srvs] eqn:Es; [simpl in Hlt; lia|]. rewrite <-Es in *. go_step.
  rewrite disable_row_all, take_ge by lia. go_step.
  match goal with |- context [copy_persister ?c gg i] =>
    destruct (copy_persister_spec c gg i) as (h & q & l & ->); [lia|exact Hok|] end.
  go_step. cbn [g_servers]. assert (index (g_servers gg) i = Ret (Some k)) as -> by (apply index_Ret; done). go_step.
  cbn [kvs with_persisters with_net disable_all]. rewrite Hkv. cbn [deref]. go_step. rewrite store_lt by lia. go_step.
  erewrite set_group_lookup by (apply group_at_lookup; apply group_at_lookup in Hg; exact Hg).
  eexists _, k, kv, names, mends. split; [done|]. split_and!; [done|done|apply lookup_insert_eq| |done|done|].
  { cbn [net with_groups with_kvs with_persisters with_net DeleteServer with_servers servers].
    by rewrite !disable_all_servers. }
  intros s. cbn [net with_groups with_kvs with_persisters with_net DeleteServer with_servers enabled].
  rewrite (disable_all_enabled (disable_all cfg names)), disable_all_enabled.
  repeat case_decide; try done; set_solver.
Qed.

(** The tester works for groups of exactly three servers.  With up to three,
    [make_config] succeeds, and then every server and controller runs under its
    name with open ends to the others, and the names that [joinm] announces for a
    group are those of its running servers; with more it panics, because
    [mendnames] has a place for each of the three controllers instead of the
    servers.  And [makeClient], which keeps the names of three ends in a slice
    of [n] places, succeeds with three servers and panics with fewer. *)
Lemma tester_sizes m unreliable maxstate :
  0 ≤ m →
  (3 < m → make_config (C := C) (R := R) rnd m unreliable maxstate = Panic) ∧
  (m ≤ 3 → ∃ cfg, make_config (C := C) rnd m unreliable maxstate = Ret cfg ∧ n cfg = m ∧ ready cfg ∧
     (∀ gis, Forall (λ g, 0 ≤ g < 3) gis → ∃ joined, join_servers cfg gis = Ret joined ∧
       (∀ gi, gi ∈ gis → is_Some (joined !! (100 + gi))) ∧
       ∀ g names name, joined !! g = Some names → name ∈ names →
         ∃ k kv, servers (net cfg) !! name = Some (Some k) ∧ kvs cfg !! k = Some kv ∧
           rf_alive (skv_rf kv) = true ∧ skv_gid kv = g) ∧
     (m < 3 → makeClient rnd cfg = Panic) ∧
     (m = 3 → ∃ cfg' ck names, makeClient rnd cfg = Ret (cfg', ck) ∧ clerks cfg' !! ck = Some names ∧
        ∀ c, 0 ≤ c < 3 → ∃ name, names !! Z.to_nat c = Some name ∧ open cfg' name (ctrlername c))).
Proof.
  intros H0'. split; [apply make_config_panics|]. intros Hm.
  destruct (make_config_ready m unreliable maxstate) as (cfg & Hr & En & Hrd); [lia|].
  exists cfg. split_and!; [done|done|done|..].
  - intros gis Hgis. destruct (join_servers_spec cfg gis Hrd Hgis) as (joined & Hj & HP). exists joined.
    split_and!; [done| |].
    + intros gi Hin. exists (servername (100 + gi) <$> seqZ 0 (n cfg)). apply HP. eauto.
    + intros g names name (-> & gi & Hin & ->)%HP (i & -> & Hi)%list_elem_of_fmap. apply elem_of_seqZ in Hi.
      rewrite Forall_forall in Hgis. destruct (rd_group _ Hrd gi (Hgis _ Hin)) as (gg & _ & Hgid & Hup).
      destruct (Hup i) as (k & kv & _ & _ & _ & Hk & Hs & Ha & Hg & _); [lia|].
      exists k, kv. by rewrite <-Hgid.
  - intros Hm'. apply makeClient_few; [apply Hrd|lia].
  - intros ->. destruct (makeClient_three cfg) as (cfg' & ck & l & Hc & Hck & _ & Ho); [apply Hrd|lia|].
    exists cfg', ck, l. split_and!; [done|rewrite Hck; apply lookup_insert_eq|done].
Qed.
End tester.

(** ** Names that are drawn *)
Module ShardNames.
Definition draws (k : nat) : string := Itoa (Z.of_nat k).
#[export] Instance draws_inj : Inj (=) (=) draws.
Proof. intros i j E%(inj Itoa). lia. Qed.
End ShardNames.

